(* ===== verification/_CoqProject ===== *)
-Q . S2P
Prelude.v
Wire.v
Header.v
Frame.v
Tlv.v
Utf8.v
Messages.v
Replay.v
Sha256.v
Crypto.v
Rekey.v
Session.v
SessionSend.v
SessionReceive.v
Protocol.v
SessionPair.v
Handshake.v
Transport.v
ConnectionIO.v
Config.v
Connection.v
ConnectionSteps.v
ConnectionSafety.v
ConnectionFlow.v
ConnectionSpec.v
ConnectionLive.v
ConnectionCalls.v
Establish.v
ClientStart.v
Server.v
ServerSpec.v
ServerLive.v
Duplex.v
DuplexSteps.v
DuplexLink.v
DuplexSpec.v
DuplexApp.v
Fleet.v
FleetLive.v
Keylog.v
Echo.v
EchoSpec.v
Interop.v
