(* ===== verification/Prelude.v ===== *)
(** * DGProto v1 in Go: a verification library

    The program (src/) implements DGProto v1, an encrypted framed protocol over
    TCP.  Bytes enter through the TCP transport, are decoded as frames, opened by
    the session's codecs under a replay window and a key ratchet, and decoded as
    messages; sending goes the other way.  A Noise XX handshake supplies the two
    traffic keys and the session identifier.  A connection runs a session over a
    transport with queues, keepalive and a close sequence; client and server set
    connections up.

    ** Files

    - [Prelude] (this file): sentinel errors, [outcome] (a Go result: value, error,
      panic), machine integers, bytes, slices, and the state and outcome monad [sm]
      used for methods that mutate their receiver; its tactics and hint databases.
    - [Wire]: internal/wire (header.go, control.go), the fixed layouts.
    - [Header]: header.go.  [Frame]: frame.go.
    - [Tlv]: internal/tlv/codec.go and tlv.go.  [Utf8]: utf8.Valid.
    - [Messages]: messages.go, messages_tlv.go, messages_error.go,
      messages_handshake.go, encrypted_data_builder.go, one [BinaryMessage]
      instance per message type.
    - [Replay]: internal/replay/window.go and replay.go.
    - [Sha256]: crypto/sha256 and crypto/hmac of the standard library, checked on
      published vectors.
    - [Crypto]: crypto.go over the interface [AEAD].  [Rekey]: rekey.go.
    - [Session]: session.go, session_send.go, session_receive.go: the state, every
      method, and runs as sequences of calls.  [SessionSend], [SessionReceive] and
      [SessionPair] hold the theorems on the two halves and on two peers.
    - [Protocol]: what docs/protocol/dgproto-v1.md asks of one party, as an abstract
      state (epochs, ratchet keys, a set of sequence numbers, grace) with its own
      steps, and the relation by which a [Session] implements it.
    - [Handshake]: handshake.go and static_key.go over the interface [Noise].
    - [Transport]: tcp.go and transport.go.
    - [ConnectionIO]: writeMessage of connection_send.go and the reading half of
      connection_receive.go, a session over a transport.
    - [Config]: client_config.go, the checks and defaults of server_config.go and
      of NewConnection in connection.go.
    - [Connection]: connection.go, connection_send.go, connection_receive.go,
      connection_keepalive.go and connection_lifecycle.go as threads over one
      shared state: the state is the record [Connection], a goroutine or a call is
      a stack of frames, and [enqueueChannel_step], [writeLoop_step],
      [readLoop_step], [handlerLoop_step], [maintenanceLoop_step],
      [closeGracefully_step], [shutdown_step] and [Start_step] are the functions
      of those names.  [ConnectionSteps], [ConnectionSafety] and [ConnectionFlow]
      hold its invariants, [ConnectionSpec] its safety theorems; [ConnectionLive]
      has liveness of its goroutines and [ConnectionCalls] of its users' calls.
    - [Establish]: client.go and server_handshake.go, the three flights over two
      transports.  [ClientStart]: client_start.go, dialling joined to the runtime,
      with everything that may race with Start as a schedule.
    - [Server]: server.go, server_runtime.go, server_stats.go and
      internal/acceptpolicy/errors.go as threads over one shared state, with their
      invariant; [ServerSpec] has the theorems, [ServerLive] liveness of Close.
    - [Duplex]: two connections joined by their octets.  An [Endpoint] is a
      connection's threads with its session, the place writeMessage and readLoop
      are at, and the octets that arrived; [send_step], [write_step], [mark_step],
      [read_step] and [receive_step] are their calls on session and transport,
      every other step is one of [Connection].  [DuplexSteps] and [DuplexLink]
      hold the invariants of one end and of the stream between two, [DuplexSpec]
      the theorem on readers and writers, [DuplexApp] the one on Send and handlers.
    - [Fleet]: a server with the runtimes of its connections.  A goroutine of
      [Server] that calls Start, Close or abort ([conn_action]) is inside that call
      of [Connection] until it returns, and a worker waits for its connection's
      Done ([awaits]).  [FleetLive] has liveness of the whole.
    - [Keylog]: internal/keylog/writer.go as threads over the sink and the file
      system it opens its file in, and the calls that session.go, session_send.go and session_receive.go make on it.
    - [Echo]: examples/internal/echoapp and the commands examples/echo,
      examples/echo-client and examples/echo-server; [EchoSpec] has the theorems.
    - [Interop]: integrationtests/testdata/interop/main.go over [Session] and
      [Transport].

    ** Conventions

    A definition keeps the name of the Go function, with the receiver's type in
    front where names would clash ([Session_Send] is the method Send of Session).  An integer
    of width w is a [Z], [uint w x] says that it is in range, and [wrap w] is
    written wherever the code can overflow.  A slice is a list; indexing and
    slicing out of range is [Panic].  A method with a mutable receiver is a
    function from the state to a new state and an outcome; the state is returned
    on errors too, so that partial effects would show.  The clock is an input: one
    reading per place where the code asks for the time, with no assumption on how
    the readings are related.  Random bytes are an input.  Nil receivers are not
    modelled.  Key logging, a no-op in the default build, changes no session: it
    is a log beside the session's runs.  In the example programs the calls into
    the library and the operating system are inputs (views), and the result of a
    function lists the calls it makes.

    Concurrent code is a step function: one step is one access to shared state (a
    mutex, a sync.Once, an atomic, a channel, a context), [None] is a blocked
    thread, and what the program does not decide (the ready case a select takes,
    when a timer fires, what user code or the network returns) is an argument of
    the step.  The theorems are about every reachable state, hence about every
    interleaving.  A session is atomic in itself because of its two mutexes, and
    the server's maps because of its own.

    Code outside src/ is a parameter.  [AEAD] stands for chacha20poly1305 of
    golang.org/x/crypto, with the laws [AEADLaws]: Open inverts Seal, opens only
    what Seal produces, and Seal adds 16 octets.  [Noise] stands for flynn/noise,
    with [NoiseLaws]: two fresh handshake states that exchange the XX messages
    agree.  Both have instances with which the witnesses run.  The laws say
    nothing about secrecy or computational hardness, and neither do the theorems.

    ** Theorems

    - Codecs: round trips, and exact characterisations of what each decoder accepts
      ([header_roundtrip], [frame_decode_exact], [tlv_decode_exact],
      [control_messages_canonical], [encrypted_data_decode_exact], ...); decoding
      never panics.
    - Replay: the bitmap refines a set of sequence numbers
      ([replay_window_refines]); nothing is committed twice; the word-wise shift is
      a shift of one 2048-bit integer.
    - Crypto and rekey: what decrypts is exactly what was encrypted, padding and
      header included; the ratchet's confirmation is exact.
    - Sending: no nonce is used twice under a key, sequence numbers are contiguous
      across epochs, a pending rekey stops everything else.
    - Receiving: no frame is delivered twice, a rejected frame changes nothing, a
      rekey is followed exactly, the previous key expires.
    - Protocol: a session answers every call, on frames from any source, exactly as
      the protocol does ([session_refines_protocol]).
    - Two peers: everything sent is delivered in order across rekeys, and what is
      refused leaves no trace ([session_stream_delivery]).
    - Handshake: one-way state machine; both sides agree; pins are enforced.
    - Transport: frames survive any segmentation and any partial writes; the
      lanes and the deadlines of cancelled calls do not disturb other calls.
    - Connection: what is written is received in order ([connection_delivery]); an
      accepted message is completed exactly once ([accepted_completed_once]); Done
      is final ([done_is_final]) and shutdown always can reach it
      ([shutdown_reaches_done]); every Start, Close and abort can return
      ([close_returns]); the keepalive timer is exact; the handler sees the messages
      in order.
    - Two connections: [duplex_delivery] joins connection, session and transport on
      both ends: whatever the interleaving, the segmentation, the rekeys and the
      failures, a reader gets exactly what the peer's writer put on the wire, in
      order, and a completion without an error means that it was written;
      [application_delivery] says the same from the Send calls of one side to the
      handler of the other, with pings and rekeys out of the way.
    - Set-up: configurations are accepted exactly as documented; client and server
      agree on their sessions ([establishment_agrees]); the client only connects
      to its pin and leaks no socket, the server only admits allowed clients; a
      connection dialled and started in one call runs or has stopped with a cause,
      whatever races with the call ([dial_and_start_exact]).
    - Server: slots, wait group and ownership maps are exact
      ([server_accounting]), no socket is lost ([server_no_leak]), shutdown
      reaches everything, OnDisconnect runs once, Close returns after boundedly
      many steps of the workers ([server_close_ends]); accept errors are classified
      exactly and the backoff doubles up to a second ([accept_backoff]).
    - Server and connections together: OnDisconnect comes after Done, and when
      Close returns every admitted connection is done with nothing left in it
      ([fleet_close_drains]); Close never deadlocks with its connections, whatever
      they are at ([fleet_close_ends]).
    - Key log: one file is opened once and appended to, lines of concurrent calls
      never interleave and parse back to the records ([keylog_file_exact]); the records of a session are its
      epochs in order with their keys ([keylog_session_exact]).
    - Programs: the echo peers understand each other over sessions
      ([echo_over_sessions]), Exchange, Serve and the commands succeed exactly
      when they should and close what they opened ([exchange_exact],
      [serve_exact], [demo_exchange_exact], [client_run_exact]), and print fixed
      lines only, nothing they read or received ([programs_discreet]); the interop
      driver passes exactly on the four right answers ([interop_exact]) and passes
      against a session of this library ([interop_passes]).

    ** Bounds

    Loops recurse on the data they consume (octets, fields, segments, words) or on
    the exact number of iterations the Go loop makes.  Some take fuel: the
    TLV validator, with one unit per octet and one more, where running out is
    [Panic], which the decoder theorems exclude ([Validate_loop_seq] shows that it
    is enough); the splitting of a SHA-256 message into words and blocks, with
    one unit per octet and per word; and [run_alone], which runs Close on a
    connection nobody else has, with 32 steps, which [close_stopped] shows to be
    enough.  A number of the key log
    is printed with ten digits of fuel, enough for 32 bits ([decimal_round_trip]).
    [writeMessage] takes
    the inputs of its iterations as a list; [write_message_terminates] shows that
    two are enough.

    ** Not modelled

    Time is not measured: a timer may fire whenever it is armed, so that nothing
    is said about how long anything takes, and liveness is the absence of
    deadlock, not fairness: a run to the end exists from every reachable state, in
    which peers send nothing, transports fail once closed, and user code (handlers,
    hooks) returns.  In [Server] alone the end of a connection is a choice of a
    step; [Fleet] replaces it with the connection itself.  Users of a server's
    connection may call all of it but Start, which the server calls.  Duplex.v
    gives every call the contents of a prefix of the octets that arrived, so that
    it says nothing about a network that loses or reorders octets, which TCP does
    not.  An RWMutex gives no preference to a waiting writer.  String methods and
    error texts are left out, except where a program prints them.  The signal
    handler of the programs is an input.  doc.go is a comment. *)

From Stdlib Require Export ZArith Lia Strings.Byte.
From stdpp Require Export base tactics numbers list list_numbers option gmap strings.

#[export] Set Default Goal Selector "!".

Local Open Scope Z_scope.

(** ** Errors

    The Go code reports failures with package-level sentinel values, usually
    wrapped by [fmt.Errorf("%w: ...")] with a diagnostic text.  Callers compare
    with [errors.Is], so the model keeps the sentinel and drops the text. *)
Inductive error : Type :=
  (* header.go, frame.go *)
  | ErrHeaderTooShort | ErrInvalidMagic | ErrUnsupportedVersion | ErrReservedFlags
  | ErrPaddingFlag | ErrFrameTooLarge | ErrFrameTooShort | ErrFrameLengthMismatch
  | ErrPayloadTooLarge | ErrTagLength | ErrPaddingLength
  (* tlv.go *)
  | ErrTLVTooShort | ErrTLVTruncated | ErrTLVValueTooLarge | ErrTLVDecodeLimit
  | ErrTLVSequenceLimit | ErrTLVElementLimit
  (* messages.go *)
  | ErrMessageTooShort | ErrMessageLength | ErrMessageReserved | ErrInvalidNoisePattern
  | ErrHandshakeAlignment | ErrUnexpectedNoiseData | ErrInvalidPingResponse | ErrAckCount
  | ErrInvalidUTF8 | ErrReasonTooLong | ErrUnknownMessageTLV | ErrDuplicateMessageTLV
  | ErrInvalidCloseCode | ErrResumptionTicket
  (* crypto.go *)
  | ErrInvalidKeySize | ErrUnsupportedCipher | ErrUnencryptedType | ErrInvalidSequence
  | ErrInvalidSessionID | ErrAuthentication
  (* replay.go *)
  | ErrReplayZero | ErrReplayDuplicate | ErrReplayTooOld | ErrReplayStale
  (* rekey.go, session.go *)
  | ErrInvalidEpoch | ErrEpochExhausted | ErrKeyConfirmFailed
  | ErrSessionClosed | ErrWrongSession | ErrSequenceExhausted | ErrMessageType
  | ErrRekeyPending
  (* handshake.go, static_key.go, server.go, client_config.go *)
  | ErrHandshake | ErrInvalidStaticKey | ErrHandshakeFailed | ErrClientNotPermitted
  | ErrServerClosed | ErrInvalidClientConfig | ErrInvalidServerConfig
  (* transport.go, connection.go *)
  | ErrTransportFrameTooShort | ErrTransportFrameTooLarge | ErrTransportClosed
  | ErrConnectionClosed | ErrIdleTimeout | ErrKeepaliveTimeout | ErrOutboundQueueFull
  | ErrHandlerQueueFull | ErrHandlerPanic
  (* io, context and net errors the code passes on *)
  | EOF | ErrUnexpectedEOF | ErrShortWrite | ErrCanceled | ErrDeadlineExceeded
  | ErrExternal (code : Z).

#[global] Instance error_eq_dec : EqDecision error.
Proof. solve_decision. Defined.

(** ** Outcomes

    A Go call returns a value, returns an error, or panics (a slice or index
    expression out of range).  Loops that are modelled with fuel also end in
    [Panic] when the fuel runs out, so that a theorem excluding [Panic] shows
    both that no index is out of range and that the fuel is enough. *)
Inductive outcome (A : Type) : Type :=
  | Ok (a : A)
  | Err (e : error)
  | Panic.
Arguments Ok {A} a.
Arguments Err {A} e.
Arguments Panic {A}.

#[global] Instance outcome_ret : MRet outcome := fun A a => Ok a.
#[global] Instance outcome_bind : MBind outcome := fun A B k o =>
  match o with Ok a => k a | Err e => Err e | Panic => Panic end.
#[global] Instance outcome_fmap : FMap outcome := fun A B f o =>
  match o with Ok a => Ok (f a) | Err e => Err e | Panic => Panic end.

Definition is_ok {A} (o : outcome A) : bool := match o with Ok _ => true | _ => false end.

Lemma bind_Ok {A B} (o : outcome A) (k : A → outcome B) b :
  (x ← o; k x) = Ok b ↔ ∃ a, o = Ok a ∧ k a = Ok b.
Proof. destruct o; cbn; naive_solver. Qed.

Lemma bind_Panic {A B} (o : outcome A) (k : A → outcome B) :
  (x ← o; k x) = Panic ↔ o = Panic ∨ ∃ a, o = Ok a ∧ k a = Panic.
Proof. destruct o; cbn; naive_solver. Qed.

Lemma bind_Ok_l {A B} (a : A) (k : A → outcome B) : (x ← Ok a; k x) = k a.
Proof. done. Qed.

(** Inversion of a computation that returned: every bind, test and match on the
    way to the result is resolved. *)
Ltac inv_outcome_step :=
  match goal with
  | H : mbind _ _ = Ok _ |- _ => apply bind_Ok in H; destruct H as (?&?&H)
  | H : Ok _ = Ok _ |- _ => injection H as H; try subst
  | H : Err _ = Ok _ |- _ => discriminate H
  | H : Panic = Ok _ |- _ => discriminate H
  | H : (if ?b then _ else _) = Ok _ |- _ => destruct b eqn:?; try discriminate H
  | H : match ?x with _ => _ end = Ok _ |- _ => destruct x eqn:?; try discriminate H
  end.
Ltac inv_outcome := repeat (cbn beta iota in *; inv_outcome_step).

(** ** Machine integers *)
Definition uint (w x : Z) : Prop := 0 ≤ x < 2 ^ w.
Definition wrap (w x : Z) : Z := x mod 2 ^ w.

#[global] Instance uint_dec w x : Decision (uint w x).
Proof. unfold uint. apply _. Defined.

Lemma wrap_small w x : uint w x → wrap w x = x.
Proof. intros H. by apply Z.mod_small. Qed.

Lemma wrap_uint w x : 0 ≤ w → uint w (wrap w x).
Proof. intros Hw. apply Z.mod_pos_bound. lia. Qed.

(** ** Bytes *)
#[global] Instance byte_eq_decision : EqDecision byte := Byte.byte_eq_dec.

Definition byte_val (b : byte) : Z := Z.of_N (Byte.to_N b).
Definition to_byte (z : Z) : byte :=
  match Byte.of_N (Z.to_N (z mod 256)) with Some b => b | None => "000"%byte end.

Lemma byte_val_range b : 0 ≤ byte_val b < 256.
Proof. unfold byte_val. pose proof (Byte.to_N_bounded b). lia. Qed.

Lemma byte_val_to_byte z : byte_val (to_byte z) = z mod 256.
Proof.
  unfold byte_val, to_byte.
  pose proof (Z.mod_pos_bound z 256 ltac:(lia)).
  destruct (Byte.of_N _) as [b|] eqn:E.
  - apply Byte.to_of_N in E. rewrite E. lia.
  - apply Byte.of_N_None_iff in E. lia.
Qed.

Lemma to_byte_val b : to_byte (byte_val b) = b.
Proof.
  unfold to_byte. rewrite Z.mod_small by apply byte_val_range.
  unfold byte_val. by rewrite N2Z.id, Byte.of_to_N.
Qed.

Lemma byte_val_inj b1 b2 : byte_val b1 = byte_val b2 → b1 = b2.
Proof. intros H. by rewrite <- (to_byte_val b1), H, to_byte_val. Qed.

#[global] Arguments byte_val : simpl never.
#[global] Arguments to_byte : simpl never.

(** ** Little-endian integers: [encoding/binary]'s [PutUintN] and [UintN] *)
Fixpoint le_put (n : nat) (v : Z) : list byte :=
  match n with
  | O => []
  | S n' => to_byte v :: le_put n' (Z.shiftr v 8)
  end.

Fixpoint le_get (bs : list byte) : Z :=
  match bs with
  | [] => 0
  | b :: rest => Z.lor (byte_val b) (Z.shiftl (le_get rest) 8)
  end.

Lemma le_get_cons b bs : le_get (b :: bs) = byte_val b + 256 * le_get bs.
Proof.
  cbn [le_get]. pose proof (byte_val_range b).
  pose proof (Z.add_lor_land (byte_val b) (Z.shiftl (le_get bs) 8)) as Hadd.
  enough (Z.land (byte_val b) (Z.shiftl (le_get bs) 8) = 0) as H0.
  { rewrite H0, (Z.shiftl_mul_pow2 _ 8) in Hadd by lia.
    rewrite (Z.shiftl_mul_pow2 _ 8) by lia. lia. }
  apply Z.bits_inj_0. intros i. rewrite Z.land_spec. destruct (decide (i < 8)).
  - rewrite Z.shiftl_spec_low by lia. by rewrite andb_false_r.
  - rewrite Z.bits_above_log2; [done|lia|].
    destruct (decide (byte_val b = 0)) as [->|]; [cbn; lia|].
    apply Z.log2_lt_pow2; [lia|].
    apply Z.lt_le_trans with (2 ^ 8); [lia|]. apply Z.pow_le_mono_r; lia.
Qed.

Lemma length_le_put n v : length (le_put n v) = n.
Proof. revert v; induction n; intros; cbn; auto. Qed.

Lemma le_get_range bs : 0 ≤ le_get bs < 256 ^ Z.of_nat (length bs).
Proof.
  induction bs as [|b bs IH]; [cbn; lia|].
  rewrite le_get_cons. pose proof (byte_val_range b).
  cbn [length]. rewrite Nat2Z.inj_succ, Z.pow_succ_r by lia. lia.
Qed.

Lemma le_get_put n v : le_get (le_put n v) = v mod 256 ^ Z.of_nat n.
Proof.
  revert v; induction n as [|n IH]; intros v; [cbn; by rewrite Z.mod_1_r|].
  cbn [le_put]. rewrite le_get_cons, IH, byte_val_to_byte.
  rewrite Z.shiftr_div_pow2 by lia. change (2 ^ 8) with 256.
  rewrite Nat2Z.inj_succ, Z.pow_succ_r by lia.
  rewrite Z.rem_mul_r; lia.
Qed.

Lemma le_put_get bs : le_put (length bs) (le_get bs) = bs.
Proof.
  induction bs as [|b bs IH]; [done|].
  cbn [length le_put]. rewrite le_get_cons. pose proof (byte_val_range b).
  f_equal.
  - apply byte_val_inj. rewrite byte_val_to_byte.
    rewrite Z.mul_comm, Z.mod_add by lia. by apply Z.mod_small.
  - rewrite Z.shiftr_div_pow2 by lia. change (2 ^ 8) with 256.
    rewrite Z.mul_comm, Z.div_add by lia.
    rewrite (Z.div_small (byte_val b)) by lia. done.
Qed.

#[global] Arguments le_put : simpl never.
#[global] Arguments le_get : simpl never.

(** ** Slices

    A slice is the list of its elements.  The accessors panic exactly where the
    bound is not within the length; Go would also allow reslicing up to the
    capacity, which this code never relies on. *)
Definition zlen {A} (l : list A) : Z := Z.of_nat (length l).

(** [l[lo:hi]] *)
Definition slice {A} (l : list A) (lo hi : Z) : outcome (list A) :=
  if (0 <=? lo) && (lo <=? hi) && (hi <=? zlen l)
  then Ok (take (Z.to_nat (hi - lo)) (drop (Z.to_nat lo) l)) else Panic.

(** [l[lo:]] *)
Definition slice_from {A} (l : list A) (lo : Z) : outcome (list A) := slice l lo (zlen l).

(** [l[i]] *)
Definition at_ {A} (l : list A) (i : Z) : outcome A :=
  if 0 <=? i then match l !! Z.to_nat i with Some x => Ok x | None => Panic end else Panic.

(** [copy(l[lo:hi], src)]: as many elements as fit. *)
Definition copy_to {A} (l : list A) (lo hi : Z) (src : list A) : outcome (list A) :=
  if (0 <=? lo) && (lo <=? hi) && (hi <=? zlen l)
  then let n := Nat.min (Z.to_nat (hi - lo)) (length src) in
       Ok (take (Z.to_nat lo) l ++ take n src ++ drop (Z.to_nat lo + n) l)
  else Panic.

(** [l[lo+0] = src[0]; l[lo+1] = src[1]; ...]: every element or a panic. *)
Definition put {A} (l : list A) (lo : Z) (src : list A) : outcome (list A) :=
  if (0 <=? lo) && (lo + zlen src <=? zlen l)
  then Ok (take (Z.to_nat lo) l ++ src ++ drop (Z.to_nat lo + length src) l) else Panic.

(** [make([]byte, n)] *)
Definition make_bytes (n : Z) : list byte := replicate (Z.to_nat n) "000"%byte.

(** [data[lo:lo+n]] read as a little-endian integer. *)
Definition le_read (l : list byte) (lo : Z) (n : nat) : outcome Z :=
  le_get <$> slice l lo (lo + Z.of_nat n).

Lemma zlen_nil {A} : zlen (@nil A) = 0. Proof. done. Qed.
Lemma zlen_cons {A} (x : A) l : zlen (x :: l) = 1 + zlen l.
Proof. unfold zlen. cbn [length]. lia. Qed.
Lemma zlen_app {A} (l1 l2 : list A) : zlen (l1 ++ l2) = zlen l1 + zlen l2.
Proof. unfold zlen. rewrite length_app. lia. Qed.
Lemma zlen_nonneg {A} (l : list A) : 0 ≤ zlen l.
Proof. unfold zlen. lia. Qed.
Lemma zlen_le_put n v : zlen (le_put n v) = Z.of_nat n.
Proof. unfold zlen. by rewrite length_le_put. Qed.
Lemma zlen_make_bytes n : 0 ≤ n → zlen (make_bytes n) = n.
Proof. intros. unfold zlen, make_bytes. rewrite length_replicate. lia. Qed.
Lemma zlen_take {A} (l : list A) n : 0 ≤ n ≤ zlen l → zlen (take (Z.to_nat n) l) = n.
Proof. unfold zlen. rewrite length_take. lia. Qed.
Lemma zlen_drop {A} (l : list A) n : 0 ≤ n ≤ zlen l → zlen (drop (Z.to_nat n) l) = zlen l - n.
Proof. unfold zlen. rewrite length_drop. lia. Qed.
Lemma zlen_fmap {A B} (f : A → B) l : zlen (f <$> l) = zlen l.
Proof. unfold zlen. by rewrite length_fmap. Qed.
Lemma zlen_0_nil {A} (l : list A) : zlen l = 0 → l = [].
Proof. destruct l; [done|]. rewrite zlen_cons. pose proof (zlen_nonneg l). lia. Qed.

#[global] Arguments zlen : simpl never.

Create Rewrite HintDb dglen.
#[export] Hint Rewrite @zlen_nil @zlen_cons @zlen_app zlen_le_put @zlen_fmap : dglen.
#[export] Hint Rewrite zlen_make_bytes using lia : dglen.

(** Lengths of concatenations by rewriting and linear arithmetic. *)
Ltac len_goal := autorewrite with dglen; len_close
with len_hyps := autorewrite with dglen in *; len_close
with len_close :=
  repeat match goal with
  | |- context [zlen ?l] => is_var l; unless (0 ≤ zlen l) by assumption; pose proof (zlen_nonneg l)
  | _ : context [zlen ?l] |- _ => is_var l; unless (0 ≤ zlen l) by assumption; pose proof (zlen_nonneg l)
  end; lia.
Ltac len := first [ len_goal | len_hyps ].

Lemma make_bytes_app a b : 0 ≤ a → 0 ≤ b → make_bytes (a + b) = make_bytes a ++ make_bytes b.
Proof. intros. unfold make_bytes. rewrite <- replicate_add. f_equal. lia. Qed.

(** A list of at least [n] elements is a prefix of [n] followed by the rest. *)
Lemma split_at {A} (l : list A) n :
  0 ≤ n ≤ zlen l → ∃ a b, l = a ++ b ∧ zlen a = n.
Proof.
  intros. exists (take (Z.to_nat n) l), (drop (Z.to_nat n) l).
  rewrite take_drop. split; [done|by apply zlen_take].
Qed.

Lemma zlen_1 {A} (l : list A) : zlen l = 1 → ∃ x, l = [x].
Proof.
  destruct l as [|x [|y l]]; intros H; autorewrite with dglen in H; [lia|by exists x|].
  pose proof (zlen_nonneg l). lia.
Qed.

Lemma zlen_4 {A} (l : list A) : zlen l = 4 → ∃ a b c d, l = [a; b; c; d].
Proof.
  destruct l as [|a [|b [|c [|d [|e l]]]]]; intros H; autorewrite with dglen in H;
    try (pose proof (zlen_nonneg l)); try lia. by exists a, b, c, d.
Qed.

(** *** Access to a concatenation

    The codecs read and write fixed layouts.  A buffer is split into the chunks
    of the layout; an access skips the chunks before its offset and then hits
    the next chunk exactly. *)
Lemma at_skip {A} (a l : list A) i : zlen a ≤ i → at_ (a ++ l) i = at_ l (i - zlen a).
Proof.
  unfold at_, zlen. intros.
  rewrite !(proj2 (Z.leb_le _ _)) by lia. rewrite lookup_app_r by lia.
  by replace (Z.to_nat i - length a)%nat with (Z.to_nat (i - Z.of_nat (length a))) by lia.
Qed.

Lemma at_here {A} (x : A) l : at_ (x :: l) 0 = Ok x.
Proof. done. Qed.

Lemma at_cons {A} (x : A) l i : 0 < i → at_ (x :: l) i = at_ l (i - 1).
Proof. intros. apply (at_skip [x]). rewrite zlen_cons, zlen_nil. lia. Qed.

Lemma at_in_range {A} (l : list A) i : 0 ≤ i < zlen l → ∃ x, at_ l i = Ok x ∧ l !! Z.to_nat i = Some x.
Proof.
  unfold at_, zlen. intros.
  rewrite (proj2 (Z.leb_le _ _)) by lia.
  destruct (lookup_lt_is_Some_2 l (Z.to_nat i)) as [x Hx]; [lia|]. rewrite Hx. eauto.
Qed.

Lemma slice_skip {A} (a l : list A) lo hi :
  zlen a ≤ lo → slice (a ++ l) lo hi = slice l (lo - zlen a) (hi - zlen a).
Proof.
  unfold slice. rewrite zlen_app. pose proof (zlen_nonneg a). intros.
  replace ((0 <=? lo) && (lo <=? hi) && (hi <=? zlen a + zlen l))
    with ((0 <=? lo - zlen a) && (lo - zlen a <=? hi - zlen a) && (hi - zlen a <=? zlen l)) by lia.
  destruct (_ && _); [|done].
  rewrite drop_app_ge by (unfold zlen in *; lia).
  unfold zlen in *. do 3 f_equal; lia.
Qed.

Lemma slice_here {A} (a l : list A) hi : zlen a = hi → slice (a ++ l) 0 hi = Ok a.
Proof.
  intros <-. unfold slice. rewrite zlen_app. pose proof (zlen_nonneg a). pose proof (zlen_nonneg l).
  rewrite !(proj2 (Z.leb_le _ _)) by lia. cbn [andb]. f_equal. cbn.
  unfold zlen in *.
  rewrite drop_0, Z.sub_0_r, Nat2Z.id. apply take_app_length.
Qed.

Lemma slice_all {A} (l : list A) hi : zlen l = hi → slice l 0 hi = Ok l.
Proof. intros. rewrite <- (app_nil_r l) at 1. by apply slice_here. Qed.

Lemma slice_from_skip {A} (a l : list A) lo : zlen a = lo → slice_from (a ++ l) lo = Ok l.
Proof.
  intros <-. unfold slice_from. rewrite slice_skip, Z.sub_diag by lia.
  apply slice_all. rewrite zlen_app. lia.
Qed.

Lemma slice_from_next {A} (a l : list A) lo : zlen a ≤ lo → slice_from (a ++ l) lo = slice_from l (lo - zlen a).
Proof.
  intros. unfold slice_from. rewrite slice_skip by lia. f_equal. rewrite zlen_app. lia.
Qed.

Lemma slice_from_0 {A} (l : list A) lo : lo = 0 → slice_from l lo = Ok l.
Proof. intros ->. by apply slice_all. Qed.

Lemma slice_Ok {A} (l : list A) lo hi :
  0 ≤ lo ≤ hi → hi ≤ zlen l →
  slice l lo hi = Ok (take (Z.to_nat (hi - lo)) (drop (Z.to_nat lo) l)).
Proof. intros. unfold slice. by rewrite !(proj2 (Z.leb_le _ _)) by lia. Qed.

Lemma slice_Ok_inv {A} (l r : list A) lo hi : slice l lo hi = Ok r → zlen r = hi - lo.
Proof.
  unfold slice. destruct (_ && _) eqn:E; [|done]. intros [= <-].
  rewrite zlen_take; [done|]. rewrite zlen_drop; lia.
Qed.

Lemma put_skip {A} (a l src : list A) lo :
  zlen a ≤ lo → put (a ++ l) lo src = app a <$> put l (lo - zlen a) src.
Proof.
  unfold put. rewrite zlen_app. pose proof (zlen_nonneg a). intros.
  replace ((0 <=? lo) && (lo + zlen src <=? zlen a + zlen l))
    with ((0 <=? lo - zlen a) && (lo - zlen a + zlen src <=? zlen l)) by lia.
  destruct (_ && _); [|done]. cbn. f_equal.
  unfold zlen in *.
  rewrite take_app_ge, drop_app_ge by lia. rewrite <- app_assoc.
  do 2 f_equal; [f_equal; lia|]. do 2 f_equal. lia.
Qed.

Lemma put_here {A} (b l src : list A) : zlen b = zlen src → put (b ++ l) 0 src = Ok (src ++ l).
Proof.
  unfold put. rewrite zlen_app. pose proof (zlen_nonneg l). pose proof (zlen_nonneg src). intros.
  rewrite !(proj2 (Z.leb_le _ _)) by lia. cbn [andb]. f_equal.
  change (Z.to_nat 0) with 0%nat. rewrite take_0. cbn [app Nat.add].
  unfold zlen in *. replace (length src) with (length b) by lia. by rewrite drop_app_length.
Qed.

Lemma put_all {A} (b src : list A) : zlen b = zlen src → put b 0 src = Ok src.
Proof. intros. rewrite <- (app_nil_r b), put_here by done. by rewrite app_nil_r. Qed.

Lemma copy_to_put {A} (l src : list A) lo hi :
  zlen src ≤ hi - lo → hi ≤ zlen l → copy_to l lo hi src = put l lo src.
Proof.
  unfold copy_to, put. pose proof (zlen_nonneg src). intros.
  replace ((0 <=? lo) && (lo <=? hi) && (hi <=? zlen l))
    with ((0 <=? lo) && (lo + zlen src <=? zlen l)) by lia.
  destruct (_ && _); [|done].
  unfold zlen in *.
  replace (Nat.min _ _) with (length src) by lia. by rewrite (take_ge src) by lia.
Qed.

Lemma at_first {A} (x : A) l i : i = 0 → at_ ([x] ++ l) i = Ok x.
Proof. by intros ->. Qed.

Lemma slice_first {A} (a l : list A) lo hi : lo = 0 → zlen a = hi → slice (a ++ l) lo hi = Ok a.
Proof. intros ->. apply slice_here. Qed.

Lemma slice_whole {A} (l : list A) lo hi : lo = 0 → zlen l = hi → slice l lo hi = Ok l.
Proof. intros ->. apply slice_all. Qed.

Lemma put_first {A} (b l src : list A) lo :
  lo = 0 → zlen b = zlen src → put (b ++ l) lo src = Ok (src ++ l).
Proof. intros ->. apply put_here. Qed.

Lemma put_whole {A} (b src : list A) lo : lo = 0 → zlen b = zlen src → put b lo src = Ok src.
Proof. intros ->. apply put_all. Qed.

(** One access of a buffer given as a concatenation of chunks of known length. *)
Ltac chunk_step :=
  first
    [ rewrite bind_Ok_l
    | progress cbn [fmap outcome_fmap mbind outcome_bind mret outcome_ret]
    | rewrite copy_to_put by len
    | rewrite at_first by len
    | rewrite slice_first by len
    | rewrite slice_whole by len
    | rewrite put_first by len
    | rewrite put_whole by len
    | rewrite slice_from_0 by len
    | rewrite slice_from_next by len
    | rewrite at_skip by len
    | rewrite slice_skip by len
    | rewrite put_skip by len ].
Ltac chunks := repeat chunk_step.

(** Names the first [n] bytes of the buffer [l]. *)
Tactic Notation "chunk" ident(l) constr(n) "as" ident(a) :=
  let b := fresh "rest" in
  let E := fresh in
  destruct (split_at l n) as (a & b & E & ?); [len|]; subst l; rename b into l.

(** Every [n]-byte chunk is the encoding of an integer of [n] bytes. *)
Lemma le_chunk l n : zlen l = Z.of_nat n → ∃ v, l = le_put n v ∧ uint (8 * Z.of_nat n) v.
Proof.
  intros H. assert (length l = n) as <- by (unfold zlen in H; lia).
  exists (le_get l). rewrite le_put_get. split; [done|].
  pose proof (le_get_range l). unfold uint. by rewrite Z.pow_mul_r by lia.
Qed.

Lemma byte_chunk b : ∃ v, b = to_byte v ∧ uint 8 v.
Proof. exists (byte_val b). rewrite to_byte_val. split; [done|]. apply byte_val_range. Qed.

Lemma byte_val_small v : uint 8 v → byte_val (to_byte v) = v.
Proof. intros. rewrite byte_val_to_byte. by apply Z.mod_small. Qed.

Lemma le_get_small n v : uint (8 * Z.of_nat n) v → le_get (le_put n v) = v.
Proof.
  intros. rewrite le_get_put. apply Z.mod_small. unfold uint in *.
  by rewrite Z.pow_mul_r in * by lia.
Qed.

(** Closed decidable propositions are proved by evaluation. *)
Ltac decide_closed := refine (bool_decide_unpack _ _); vm_compute; exact I.

(** ** Stateful code

    A method with a pointer receiver is a function of the state that returns the
    new state together with its outcome, also when the outcome is an error. *)
Definition sm (S A : Type) : Type := S → S * outcome A.

Definition sm_ret {S A} (a : A) : sm S A := λ s, (s, Ok a).
Definition sm_throw {S A} (e : error) : sm S A := λ s, (s, Err e).
Definition sm_lift {S A} (o : outcome A) : sm S A := λ s, (s, o).
Definition sm_get {S A} (f : S → A) : sm S A := λ s, (s, Ok (f s)).
Definition sm_modify {S} (f : S → S) : sm S unit := λ s, (f s, Ok tt).
Definition sm_bind {S A B} (m : sm S A) (k : A → sm S B) : sm S B := λ s,
  match m s with
  | (s', Ok a) => k a s'
  | (s', Err e) => (s', Err e)
  | (s', Panic) => (s', Panic)
  end.

Declare Scope sm_scope.
Delimit Scope sm_scope with sm.
Notation "'let*' x := e 'in' k" := (sm_bind e (λ x, k))
  (at level 10, x pattern, e at level 200, k at level 200, format "'let*'  x  :=  e  'in' '//' k") : sm_scope.
Notation "e ;; k" := (sm_bind e (λ _, k)) : sm_scope.

Lemma sm_bind_run {S A B} (m : sm S A) (k : A → sm S B) s :
  sm_bind m k s =
  match m s with (s', Ok a) => k a s' | (s', Err e) => (s', Err e) | (s', Panic) => (s', Panic) end.
Proof. done. Qed.

Lemma sm_bind_Ok {S A B} (m : sm S A) (k : A → sm S B) s s' b :
  sm_bind m k s = (s', Ok b) ↔ ∃ s1 a, m s = (s1, Ok a) ∧ k a s1 = (s', Ok b).
Proof. unfold sm_bind. destruct (m s) as [s1 [a|e|]]; naive_solver. Qed.

Lemma sm_bind_get {S A B} (f : S → A) (k : A → sm S B) s : sm_bind (sm_get f) k s = k (f s) s.
Proof. done. Qed.
Lemma sm_bind_ret {S A B} (a : A) (k : A → sm S B) s : sm_bind (sm_ret a) k s = k a s.
Proof. done. Qed.
Lemma sm_bind_modify {S B} (f : S → S) (k : unit → sm S B) s : sm_bind (sm_modify f) k s = k tt (f s).
Proof. done. Qed.
Lemma sm_bind_lift_Ok {S A B} (a : A) (k : A → sm S B) s : sm_bind (sm_lift (Ok a)) k s = k a s.
Proof. done. Qed.
Lemma sm_bind_lift_Err {S A B} e (k : A → sm S B) s : sm_bind (sm_lift (Err e)) k s = (s, Err e).
Proof. done. Qed.
Lemma sm_bind_lift_Panic {S A B} (k : A → sm S B) s : sm_bind (sm_lift Panic) k s = (s, Panic).
Proof. done. Qed.
Lemma sm_bind_throw {S A B} e (k : A → sm S B) s : sm_bind (sm_throw e) k s = (s, Err e).
Proof. done. Qed.

Create Rewrite HintDb sm.
#[export] Hint Rewrite @sm_bind_get @sm_bind_ret @sm_bind_modify @sm_bind_lift_Ok @sm_bind_lift_Err
  @sm_bind_lift_Panic @sm_bind_throw : sm.

(** Runs the computation of the goal as far as it is determined. *)
Ltac sm_run := repeat (progress (autorewrite with sm; cbv beta zeta; unfold id)).

(** A computation that leaves the component [f] of the state alone. *)
Definition keeps {S A T} (f : S → T) (m : sm S A) : Prop := ∀ s, f (m s).1 = f s.

Lemma keeps_ret {S A T} (f : S → T) (a : A) : keeps f (sm_ret a).
Proof. done. Qed.
Lemma keeps_throw {S A T} (f : S → T) e : keeps f (sm_throw (A := A) e).
Proof. done. Qed.
Lemma keeps_lift {S A T} (f : S → T) (o : outcome A) : keeps f (sm_lift o).
Proof. done. Qed.
Lemma keeps_get {S A T} (f : S → T) (g : S → A) : keeps f (sm_get g).
Proof. done. Qed.
Lemma keeps_modify {S T} (f : S → T) (g : S → S) : (∀ s, f (g s) = f s) → keeps f (sm_modify g).
Proof. done. Qed.
Lemma keeps_bind {S A B T} (f : S → T) (m : sm S A) (k : A → sm S B) :
  keeps f m → (∀ a, keeps f (k a)) → keeps f (sm_bind m k).
Proof.
  intros Hm Hk s. unfold sm_bind. specialize (Hm s). destruct (m s) as [s1 [a|e|]]; cbn in *; [|done..].
  by rewrite Hk.
Qed.

Create HintDb keeps.
#[export] Hint Resolve keeps_ret keeps_throw keeps_lift keeps_get : keeps.
#[export] Hint Extern 1 (keeps _ (sm_modify _)) => (apply keeps_modify; reflexivity) : keeps.
Ltac keeps_run :=
  repeat first [ progress intros | solve [auto with keeps] | apply keeps_bind | case_match ].
