(* ===== verification/Wire.v ===== *)
(** * internal/wire: header and control-payload byte codecs

    [Put*] functions write into a caller-owned buffer and [Read*] functions read
    a validated one.  Both start with a bounds probe ([_ = dst[n-1]]) that panics
    on a short buffer.  The theorems show that every writer produces exactly its
    documented layout, leaves the suffix of the buffer untouched, and that the
    reader recovers what was written, octet for octet. *)

From S2P Require Import Prelude.

Local Open Scope Z_scope.

Module wire.

Definition HeaderSize : Z := 40.
Definition Version : Z := 1.
Definition AEADTagSize : Z := 16.
Definition MaxFrameSize : Z := 65535.
Definition PingPongSize : Z := 9.
Definition RekeyInitSize : Z := 36.
Definition MaxAckSequences : Z := 255.

(** wire.Header: the transient primitive representation of a frame header. *)
Record WireHeader := mkWireHeader {
  hMagic : list byte;
  hVersion : Z;
  hFlags : Z;
  hMessageType : Z;
  hReserved : list byte;
  hSessionID : list byte;
  hSequence : Z;
  hPayloadLength : Z;
  hPadLength : Z;
}.

(** The ranges the Go field types enforce. *)
Definition header_ok (h : WireHeader) : Prop :=
  zlen (hMagic h) = 4 ∧ uint 8 (hVersion h) ∧ uint 8 (hFlags h) ∧ uint 8 (hMessageType h) ∧
  zlen (hReserved h) = 4 ∧ zlen (hSessionID h) = 16 ∧ uint 64 (hSequence h) ∧
  uint 32 (hPayloadLength h) ∧ uint 8 (hPadLength h).

Definition PutHeader (dst : list byte) (h : WireHeader) : outcome (list byte) :=
  _ ← at_ dst (HeaderSize - 1);
  dst ← copy_to dst 0 4 (hMagic h);
  dst ← put dst 4 [to_byte (hVersion h)];
  dst ← put dst 5 [to_byte (hFlags h)];
  dst ← put dst 6 [to_byte (hMessageType h)];
  r0 ← at_ (hReserved h) 0;
  dst ← put dst 7 [r0];
  dst ← copy_to dst 8 24 (hSessionID h);
  dst ← put dst 24 (le_put 8 (hSequence h));
  dst ← put dst 32 (le_put 4 (hPayloadLength h));
  dst ← put dst 36 [to_byte (hPadLength h)];
  r ← slice_from (hReserved h) 1;
  copy_to dst 37 40 r.

Definition ReadHeader (src : list byte) : outcome WireHeader :=
  _ ← at_ src (HeaderSize - 1);
  magic ← slice src 0 4;
  version ← at_ src 4;
  flags ← at_ src 5;
  messageType ← at_ src 6;
  r0 ← at_ src 7; r1 ← at_ src 37; r2 ← at_ src 38; r3 ← at_ src 39;
  sequence ← le_read src 24 8;
  payloadLength ← le_read src 32 4;
  padLength ← at_ src 36;
  sessionID ← slice src 8 24;
  Ok (mkWireHeader magic (byte_val version) (byte_val flags) (byte_val messageType)
        [r0; r1; r2; r3] sessionID sequence payloadLength (byte_val padLength)).

(** PingPong *)
Definition PutPingPong (dst : list byte) (response : bool) (nonce : Z) : outcome (list byte) :=
  _ ← at_ dst (PingPongSize - 1);
  dst ← put dst 0 [to_byte 0];
  dst ← (if response then put dst 0 [to_byte 1] else Ok dst);
  put dst 1 (le_put 8 nonce).

Definition ReadPingPong (src : list byte) : outcome (bool * Z) :=
  _ ← at_ src (PingPongSize - 1);
  b ← at_ src 0;
  n ← le_read src 1 8;
  Ok (byte_val b =? 1, n).

(** Ack *)
Definition AckSize (count : Z) : Z := 1 + 8 * count.

(** The loop [for i, sequence := range sequences] from index [i] on. *)
Fixpoint PutAck_loop (dst : list byte) (i : Z) (sequences : list Z) : outcome (list byte) :=
  match sequences with
  | [] => Ok dst
  | sequence :: rest =>
      dst ← put dst (1 + 8 * i) (le_put 8 sequence);
      PutAck_loop dst (i + 1) rest
  end.

Definition PutAck (dst : list byte) (sequences : list Z) : outcome (list byte) :=
  _ ← at_ dst (AckSize (zlen sequences) - 1);
  dst ← put dst 0 [to_byte (zlen sequences)];
  PutAck_loop dst 0 sequences.

(** [ReadAck] fills a caller-owned slice of length [n], from index [i] on. *)
Fixpoint ReadAck_loop (src : list byte) (i : Z) (n : nat) : outcome (list Z) :=
  match n with
  | O => Ok []
  | S n' =>
      sequence ← le_read src (1 + 8 * i) 8;
      rest ← ReadAck_loop src (i + 1) n';
      Ok (sequence :: rest)
  end.

Definition ReadAck (src : list byte) (count : nat) : outcome (list Z) :=
  _ ← at_ src (AckSize (Z.of_nat count) - 1);
  ReadAck_loop src 0 count.

(** RekeyInit *)
Definition PutRekeyInit (dst : list byte) (epoch : Z) (confirm : list byte) : outcome (list byte) :=
  _ ← at_ dst (RekeyInitSize - 1);
  dst ← put dst 0 (le_put 4 epoch);
  copy_to dst 4 RekeyInitSize confirm.

Definition ReadRekeyInit (src : list byte) : outcome (Z * list byte) :=
  _ ← at_ src (RekeyInitSize - 1);
  confirm ← slice src 4 RekeyInitSize;
  epoch ← le_read src 0 4;
  Ok (epoch, confirm).

(** ResumptionTicket *)
Definition PutTicket (dst ticket : list byte) (validUntil : Z) : outcome (list byte) :=
  _ ← at_ dst (zlen ticket + 8 - 1);
  dst ← copy_to dst 0 (zlen ticket) ticket;
  put dst (zlen ticket) (le_put 8 validUntil).

Definition ReadTicket (src : list byte) : outcome (list byte * Z) :=
  _ ← at_ src 8;
  let end_ := zlen src - 8 in
  ticket ← slice src 0 end_;
  validUntil ← le_read src end_ 8;
  Ok (ticket, validUntil).

(** ** Layouts *)
Definition header_layout (h : WireHeader) : list byte :=
  hMagic h ++ [to_byte (hVersion h)] ++ [to_byte (hFlags h)] ++ [to_byte (hMessageType h)] ++
  take 1 (hReserved h) ++ hSessionID h ++ le_put 8 (hSequence h) ++
  le_put 4 (hPayloadLength h) ++ [to_byte (hPadLength h)] ++ drop 1 (hReserved h).

Lemma at_probe {A} (l : list A) n : 0 ≤ n - 1 → n ≤ zlen l → ∃ x, at_ l (n - 1) = Ok x.
Proof. intros. destruct (at_in_range l (n - 1)) as (x & Hx & _); [lia|]. by exists x. Qed.

Lemma PutHeader_layout pre suffix h :
  header_ok h → zlen pre = HeaderSize →
  PutHeader (pre ++ suffix) h = Ok (header_layout h ++ suffix).
Proof.
  intros (Hm & _ & _ & _ & Hr & Hs & _) Hpre. unfold PutHeader, header_layout, slice_from.
  destruct (at_probe (pre ++ suffix) HeaderSize) as [? ->]; [done|unfold HeaderSize in *; len|].
  unfold HeaderSize in Hpre. destruct (zlen_4 _ Hr) as (r0 & r1 & r2 & r3 & ->).
  chunk pre 4 as d0. chunk pre 1 as d4. chunk pre 1 as d5. chunk pre 1 as d6. chunk pre 1 as d7.
  chunk pre 16 as d8. chunk pre 8 as d24. chunk pre 4 as d32. chunk pre 1 as d36.
  rewrite <- !app_assoc. change [r0; r1; r2; r3] with ([r0] ++ [r1; r2; r3]). by chunks.
Qed.

Lemma header_layout_length h : header_ok h → zlen (header_layout h) = HeaderSize.
Proof.
  intros (Hm & _ & _ & _ & Hr & Hs & _). unfold header_layout.
  destruct (zlen_4 _ Hr) as (r0 & r1 & r2 & r3 & ->). cbn [take drop]. unfold HeaderSize. by len.
Qed.

(** Reading a buffer that starts with the layout of [h] gives [h] back. *)
Lemma ReadHeader_layout h suffix :
  header_ok h → ReadHeader (header_layout h ++ suffix) = Ok h.
Proof.
  intros Hok. pose proof (header_layout_length h Hok) as Hlen. unfold ReadHeader, le_read.
  destruct (at_probe (header_layout h ++ suffix) HeaderSize) as [? ->]; [done|unfold HeaderSize in *; len|].
  destruct Hok as (Hm & Hv & Hf & Ht & Hr & Hs & Hq & Hp & Hd). clear Hlen. unfold header_layout.
  destruct h as [magic v f t r sid q p d].
  cbn [hMagic hVersion hFlags hMessageType hReserved hSessionID hSequence hPayloadLength hPadLength] in *.
  destruct (zlen_4 _ Hr) as (r0 & r1 & r2 & r3 & ->). cbn [take drop].
  change [r1; r2; r3] with ([r1] ++ [r2] ++ [r3]).
  rewrite <- !app_assoc. chunks.
  rewrite !le_get_put, !byte_val_to_byte, !Z.mod_small by (unfold uint in *; lia). done.
Qed.
(** Every 40-byte prefix is the layout of the header read from it: no octet is lost. *)
Lemma ReadHeader_total src :
  HeaderSize ≤ zlen src →
  ∃ h suffix, ReadHeader src = Ok h ∧ header_ok h ∧ src = header_layout h ++ suffix.
Proof.
  intros Hlen. unfold HeaderSize in Hlen.
  chunk src 4 as magic. chunk src 1 as b4. chunk src 1 as b5. chunk src 1 as b6. chunk src 1 as b7.
  chunk src 16 as sid. chunk src 8 as q. chunk src 4 as p. chunk src 1 as d.
  chunk src 1 as b37. chunk src 1 as b38. chunk src 1 as b39.
  destruct (zlen_1 b4) as [v ->]; [done|]. destruct (zlen_1 b5) as [f ->]; [done|].
  destruct (zlen_1 b6) as [t ->]; [done|]. destruct (zlen_1 b7) as [r0 ->]; [done|].
  destruct (zlen_1 d) as [pd ->]; [done|]. destruct (zlen_1 b37) as [r1 ->]; [done|].
  destruct (zlen_1 b38) as [r2 ->]; [done|]. destruct (zlen_1 b39) as [r3 ->]; [done|].
  set (h := mkWireHeader magic (byte_val v) (byte_val f) (byte_val t) [r0; r1; r2; r3] sid
              (le_get q) (le_get p) (byte_val pd)).
  assert (Hq : le_put 8 (le_get q) = q).
  { replace 8%nat with (length q) by (unfold zlen in *; lia). apply le_put_get. }
  assert (Hp : le_put 4 (le_get p) = p).
  { replace 4%nat with (length p) by (unfold zlen in *; lia). apply le_put_get. }
  assert (Hok : header_ok h).
  { pose proof (le_get_range q). pose proof (le_get_range p).
    replace (length q) with 8%nat in * by (unfold zlen in *; lia).
    replace (length p) with 4%nat in * by (unfold zlen in *; lia).
    unfold header_ok, uint, h; cbn [hMagic hVersion hFlags hMessageType hReserved hSessionID
      hSequence hPayloadLength hPadLength].
    pose proof (byte_val_range v). pose proof (byte_val_range f).
    pose proof (byte_val_range t). pose proof (byte_val_range pd).
    repeat split; try done; try lia. }
  exists h, src.
  assert (Hlay : magic ++ [v] ++ [f] ++ [t] ++ [r0] ++ sid ++ q ++ p ++ [pd] ++ [r1] ++ [r2] ++ [r3] ++ src
                 = header_layout h ++ src).
  { unfold header_layout, h; cbn [hMagic hVersion hFlags hMessageType hReserved hSessionID
      hSequence hPayloadLength hPadLength]. rewrite Hq, Hp, !to_byte_val.
    cbn [take drop]. by rewrite <- !app_assoc. }
  rewrite Hlay. split; [by apply ReadHeader_layout|done].
Qed.

(** ** Control payloads *)
Lemma PutPingPong_layout pre suffix (response : bool) nonce :
  zlen pre = PingPongSize →
  PutPingPong (pre ++ suffix) response nonce =
    Ok ([to_byte (if response then 1 else 0)] ++ le_put 8 nonce ++ suffix).
Proof.
  intros Hpre. unfold PingPongSize in *. unfold PutPingPong.
  destruct (at_probe (pre ++ suffix) PingPongSize) as [? ->]; [done|unfold PingPongSize; len|].
  chunk pre 1 as b. rewrite <- app_assoc. by destruct response; chunks.
Qed.

Lemma ReadPingPong_layout (response : bool) nonce suffix :
  uint 64 nonce →
  ReadPingPong ([to_byte (if response then 1 else 0)] ++ le_put 8 nonce ++ suffix) =
    Ok (response, nonce).
Proof.
  intros Hn. unfold ReadPingPong, le_read.
  destruct (at_probe ([to_byte (if response then 1 else 0)] ++ le_put 8 nonce ++ suffix) PingPongSize)
    as [? ->]; [done|unfold PingPongSize; len|].
  chunks. rewrite le_get_put, byte_val_to_byte, (Z.mod_small nonce) by (unfold uint in *; lia).
  by destruct response.
Qed.

Definition ack_layout (sequences : list Z) : list byte :=
  [to_byte (zlen sequences)] ++ concat (map (le_put 8) sequences).

Lemma zlen_le_puts (sequences : list Z) : zlen (concat (map (le_put 8) sequences)) = 8 * zlen sequences.
Proof. induction sequences as [|s l IH]; [done|]. cbn [map concat]. len. Qed.

Lemma PutAck_loop_layout (sequences : list Z) done_ pre suffix i :
  zlen done_ = 1 + 8 * i → zlen pre = 8 * zlen sequences →
  PutAck_loop (done_ ++ pre ++ suffix) i sequences =
    Ok (done_ ++ concat (map (le_put 8) sequences) ++ suffix).
Proof.
  revert done_ pre i. induction sequences as [|s l IH]; intros done_ pre i Hd Hp.
  - by rewrite (zlen_0_nil pre) by done.
  - cbn [PutAck_loop]. chunk pre 8 as d. rewrite <- app_assoc. chunks.
    rewrite app_assoc. rewrite IH; [|len|len]. cbn [map concat]. by rewrite <- !app_assoc.
Qed.

Lemma PutAck_layout pre suffix (sequences : list Z) :
  zlen pre = AckSize (zlen sequences) →
  PutAck (pre ++ suffix) sequences = Ok (ack_layout sequences ++ suffix).
Proof.
  intros Hpre. unfold AckSize in *. unfold PutAck. pose proof (zlen_nonneg sequences).
  destruct (at_probe (pre ++ suffix) (AckSize (zlen sequences))) as [? ->];
    [unfold AckSize; lia|unfold AckSize; len|].
  chunk pre 1 as b. rewrite <- app_assoc. chunks.
  rewrite PutAck_loop_layout by len. unfold ack_layout. by rewrite <- app_assoc.
Qed.

Lemma ReadAck_loop_layout (sequences : list Z) done_ suffix i :
  zlen done_ = 1 + 8 * i → Forall (uint 64) sequences →
  ReadAck_loop (done_ ++ concat (map (le_put 8) sequences) ++ suffix) i (length sequences) = Ok sequences.
Proof.
  revert done_ i. induction sequences as [|s l IH]; intros done_ i Hd Hu; [done|].
  inversion_clear Hu as [|?? Hs Hl]. cbn [length ReadAck_loop map concat]. unfold le_read.
  rewrite <- app_assoc. chunks.
  rewrite app_assoc. rewrite IH; [|len|done]. cbn.
  by rewrite le_get_put, Z.mod_small by (unfold uint in *; lia).
Qed.

Lemma ReadAck_layout sequences suffix :
  Forall (uint 64) sequences →
  ReadAck (ack_layout sequences ++ suffix) (length sequences) = Ok sequences.
Proof.
  intros Hu. unfold ReadAck. pose proof (zlen_le_puts sequences). pose proof (zlen_nonneg sequences).
  destruct (at_probe (ack_layout sequences ++ suffix) (AckSize (Z.of_nat (length sequences)))) as [? ->].
  { unfold AckSize. lia. }
  { unfold AckSize, ack_layout. change (Z.of_nat (length sequences)) with (zlen sequences). len. }
  unfold ack_layout. rewrite <- app_assoc. by apply ReadAck_loop_layout.
Qed.

Lemma PutRekeyInit_layout pre suffix epoch confirm :
  zlen pre = RekeyInitSize → zlen confirm = 32 →
  PutRekeyInit (pre ++ suffix) epoch confirm = Ok (le_put 4 epoch ++ confirm ++ suffix).
Proof.
  intros Hpre Hc. unfold PutRekeyInit.
  destruct (at_probe (pre ++ suffix) RekeyInitSize) as [? ->]; [done|len|].
  unfold RekeyInitSize in *. chunk pre 4 as e. rewrite <- app_assoc. by chunks.
Qed.

Lemma ReadRekeyInit_layout epoch confirm suffix :
  uint 32 epoch → zlen confirm = 32 →
  ReadRekeyInit (le_put 4 epoch ++ confirm ++ suffix) = Ok (epoch, confirm).
Proof.
  intros He Hc. unfold ReadRekeyInit, le_read.
  destruct (at_probe (le_put 4 epoch ++ confirm ++ suffix) RekeyInitSize) as [? ->];
    [done|unfold RekeyInitSize; len|].
  unfold RekeyInitSize. chunks. by rewrite le_get_put, Z.mod_small by (unfold uint in *; lia).
Qed.

Lemma PutTicket_layout pre suffix ticket validUntil :
  zlen pre = zlen ticket + 8 →
  PutTicket (pre ++ suffix) ticket validUntil = Ok (ticket ++ le_put 8 validUntil ++ suffix).
Proof.
  intros Hpre. unfold PutTicket. pose proof (zlen_nonneg ticket).
  destruct (at_probe (pre ++ suffix) (zlen ticket + 8)) as [? ->]; [lia|len|].
  chunk pre (zlen ticket) as t. rewrite <- app_assoc. by chunks.
Qed.

Lemma ReadTicket_layout ticket validUntil :
  0 < zlen ticket → uint 64 validUntil →
  ReadTicket (ticket ++ le_put 8 validUntil) = Ok (ticket, validUntil).
Proof.
  intros Ht Hv. unfold ReadTicket, le_read.
  destruct (at_in_range (ticket ++ le_put 8 validUntil) 8) as (? & -> & _); [len|].
  cbn zeta. chunks. by rewrite le_get_put, Z.mod_small by (unfold uint in *; lia).
Qed.

End wire.
