(* ===== verification/Header.v ===== *)
(** * header.go: the 40-byte fixed frame header

    The public header type, its validation rules for senders ([Header_Validate])
    and receivers ([Header_ValidateReceive]) and its wire codec on top of
    [internal/wire].  The theorems show that encoding and decoding are inverse,
    that a received header re-encodes to exactly the octets it was read from
    (which is what the AEAD authenticates), that an accepted header describes a
    frame within the protocol limit, and that decoding never panics. *)

From S2P Require Import Prelude Wire.
Import wire.

Local Open Scope Z_scope.

(** ['D', 'G', 'P', '1'] *)
Definition Magic : list byte := [to_byte 68; to_byte 71; to_byte 80; to_byte 49].

Definition FlagObfuscated : Z := 1.
Definition FlagPadding : Z := 2.
Definition FlagZeroRTT : Z := 4.
Definition mvpSenderFlags : Z := FlagPadding.

Definition MessageTypeHandshakeInit : Z := 1.
Definition MessageTypeHandshakeResponse : Z := 2.
Definition MessageTypeEncryptedData : Z := 3.
Definition MessageTypePingPong : Z := 4.
Definition MessageTypeSessionClose : Z := 5.
Definition MessageTypeAck : Z := 6.
Definition MessageTypeResumptionTicket : Z := 7.
Definition MessageTypeRekeyInit : Z := 8.
Definition MessageTypeError : Z := 9.

Record Header := mkHeader {
  hdrVersion : Z;
  hdrFlags : Z;
  hdrMessageType : Z;
  hdrReserved : list byte;
  hdrSessionID : list byte;
  hdrSequence : Z;
  hdrPayloadLength : Z;
  hdrPadLength : Z;
}.

#[global] Instance Header_eq_dec : EqDecision Header.
Proof. solve_decision. Defined.

(** The ranges the Go field types enforce. *)
Definition Header_ok (h : Header) : Prop :=
  uint 8 (hdrVersion h) ∧ uint 8 (hdrFlags h) ∧ uint 8 (hdrMessageType h) ∧
  zlen (hdrReserved h) = 4 ∧ zlen (hdrSessionID h) = 16 ∧ uint 64 (hdrSequence h) ∧
  uint 32 (hdrPayloadLength h) ∧ uint 8 (hdrPadLength h).

(** The zero values [[16]byte{}] and [[4]byte{}]. *)
Definition zero16 : list byte := make_bytes 16.
Definition zero4 : list byte := make_bytes 4.

Definition NewHeader (messageType : Z) (sessionID : list byte) (sequence payloadLength padLength : Z)
    : Header :=
  let flags := if negb (padLength =? 0) then Z.lor 0 FlagPadding else 0 in
  mkHeader Version flags messageType zero4 sessionID sequence payloadLength padLength.

Definition hasAEADTag (h : Header) : bool :=
  negb (hdrMessageType h =? MessageTypeHandshakeInit) &&
  negb (hdrMessageType h =? MessageTypeHandshakeResponse).

(** The sum is taken in [uint64]. *)
Definition FrameSize (h : Header) : Z :=
  let size := wrap 64 (HeaderSize + hdrPayloadLength h + hdrPadLength h) in
  if hasAEADTag h then wrap 64 (size + AEADTagSize) else size.

Definition validateCommon (h : Header) : outcome unit :=
  if negb (hdrVersion h =? Version) then Err ErrUnsupportedVersion
  else if negb (eqb (negb (Z.land (hdrFlags h) FlagPadding =? 0)) (negb (hdrPadLength h =? 0)))
  then Err ErrPaddingFlag
  else if MaxFrameSize <? FrameSize h then Err ErrFrameTooLarge
  else Ok tt.

Definition Header_Validate (h : Header) : outcome unit :=
  _ ← validateCommon h;
  if negb (Z.ldiff (hdrFlags h) mvpSenderFlags =? 0) then Err ErrReservedFlags
  else if negb (bool_decide (hdrReserved h = zero4)) then Err ErrReservedFlags
  else Ok tt.

Definition Header_ValidateReceive (h : Header) : outcome unit := validateCommon h.

Definition Header_marshalBinary (h : Header) (validateSend : bool) : outcome (list byte) :=
  _ ← (if validateSend then Header_Validate h else Header_ValidateReceive h);
  let buf := make_bytes HeaderSize in
  PutHeader buf
    (mkWireHeader Magic (hdrVersion h) (hdrFlags h) (hdrMessageType h) (hdrReserved h)
       (hdrSessionID h) (hdrSequence h) (hdrPayloadLength h) (hdrPadLength h)).

Definition Header_MarshalBinary (h : Header) : outcome (list byte) := Header_marshalBinary h true.

Definition Header_UnmarshalBinary (data : list byte) : outcome Header :=
  if zlen data <? HeaderSize then Err ErrHeaderTooShort else
  magic ← slice data 0 4;
  if negb (bool_decide (magic = Magic)) then Err ErrInvalidMagic else
  version ← at_ data 4;
  if negb (byte_val version =? Version) then Err ErrUnsupportedVersion else
  raw ← ReadHeader data;
  let decoded := mkHeader (hVersion raw) (hFlags raw) (hMessageType raw) (hReserved raw)
                   (hSessionID raw) (hSequence raw) (hPayloadLength raw) (hPadLength raw) in
  _ ← Header_ValidateReceive decoded;
  Ok decoded.

(** ** Facts *)
Definition to_wire (h : Header) : WireHeader :=
  mkWireHeader Magic (hdrVersion h) (hdrFlags h) (hdrMessageType h) (hdrReserved h)
    (hdrSessionID h) (hdrSequence h) (hdrPayloadLength h) (hdrPadLength h).

Lemma to_wire_ok h : Header_ok h → header_ok (to_wire h).
Proof. by intros (?&?&?&?&?&?&?&?). Qed.

Lemma FrameSize_exact h :
  Header_ok h →
  FrameSize h = HeaderSize + hdrPayloadLength h + hdrPadLength h +
                (if hasAEADTag h then AEADTagSize else 0).
Proof.
  intros (_&_&_&_&_&_&Hp&Hd). unfold FrameSize, uint, HeaderSize, AEADTagSize in *.
  rewrite (wrap_small 64 (40 + _ + _)) by (unfold uint; lia).
  destruct (hasAEADTag h); [rewrite wrap_small by (unfold uint; lia); lia|lia].
Qed.

Lemma Header_ok_sizes h : Header_ok h → 0 ≤ hdrPayloadLength h ∧ 0 ≤ hdrPadLength h < 256.
Proof. intros (_&_&_&_&_&_&Hp&Hd). unfold uint in *. lia. Qed.

Lemma validateCommon_Ok h :
  validateCommon h = Ok tt ↔
  hdrVersion h = Version ∧ (Z.land (hdrFlags h) FlagPadding ≠ 0 ↔ hdrPadLength h ≠ 0) ∧
  FrameSize h ≤ MaxFrameSize.
Proof.
  unfold validateCommon.
  destruct (hdrVersion h =? Version) eqn:?; cbn [negb]; [|split; [done|lia]].
  destruct (Z.land _ _ =? 0) eqn:?, (hdrPadLength h =? 0) eqn:?; cbn [negb eqb];
    destruct (MaxFrameSize <? FrameSize h) eqn:?; split; try done; lia.
Qed.

Lemma Header_Validate_common h : Header_Validate h = Ok tt → validateCommon h = Ok tt.
Proof. unfold Header_Validate. intros H. by inv_outcome; destruct x. Qed.

Lemma validateCommon_no_panic h : validateCommon h ≠ Panic.
Proof. unfold validateCommon. repeat case_match; done. Qed.

Lemma Header_Validate_no_panic h : Header_Validate h ≠ Panic.
Proof.
  unfold Header_Validate. rewrite bind_Panic. pose proof (validateCommon_no_panic h).
  intros [?|(?&?&?)]; [done|]. repeat case_match; done.
Qed.

Lemma Header_marshalBinary_layout h send :
  Header_ok h →
  Header_marshalBinary h send =
    _ ← (if send then Header_Validate h else Header_ValidateReceive h);
    Ok (header_layout (to_wire h)).
Proof.
  intros Hok. unfold Header_marshalBinary.
  destruct (if send then _ else _); [|done..]. cbn.
  rewrite <- (app_nil_r (make_bytes _)).
  rewrite PutHeader_layout by (by apply (to_wire_ok h) || by rewrite zlen_make_bytes).
  by rewrite app_nil_r.
Qed.

Lemma Header_UnmarshalBinary_layout h suffix :
  Header_ok h → validateCommon h = Ok tt →
  Header_UnmarshalBinary (header_layout (to_wire h) ++ suffix) = Ok h.
Proof.
  intros Hok Hv. pose proof (to_wire_ok h Hok) as Hw.
  pose proof (header_layout_length _ Hw) as Hlen. unfold Header_UnmarshalBinary.
  rewrite zlen_app, (proj2 (Z.ltb_ge _ _)) by (pose proof (zlen_nonneg suffix); lia).
  rewrite ReadHeader_layout by done.
  apply validateCommon_Ok in Hv as Hv'. destruct Hv' as (Hver & _).
  unfold header_layout; cbn [to_wire hMagic hVersion hFlags]. rewrite <- !app_assoc.
  rewrite slice_first, bind_Ok_l, bool_decide_eq_true_2 by done. cbn [negb].
  rewrite at_skip, at_first, bind_Ok_l, byte_val_to_byte, Hver by done.
  change (negb (Version mod 256 =? Version)) with false. cbn iota. rewrite bind_Ok_l.
  cbn [to_wire hVersion hFlags hMessageType hReserved hSessionID hSequence hPayloadLength hPadLength].
  unfold Header_ValidateReceive. replace (mkHeader _ _ _ _ _ _ _ _) with h by (by destruct h).
  by rewrite Hv.
Qed.

Lemma Header_UnmarshalBinary_inv data h :
  Header_UnmarshalBinary data = Ok h →
  Header_ok h ∧ validateCommon h = Ok tt ∧ ∃ suffix, data = header_layout (to_wire h) ++ suffix.
Proof.
  unfold Header_UnmarshalBinary. intros H.
  destruct (zlen data <? HeaderSize) eqn:Hlen; [done|].
  destruct (ReadHeader_total data) as (raw & suffix & Hraw & Hok & Hdata); [lia|].
  rewrite Hraw in H. apply bind_Ok in H as (magic & Hmagic & H).
  case_bool_decide; [subst magic|done]. cbn [negb] in H.
  apply bind_Ok in H as (v & _ & H). destruct (negb _); [done|]. rewrite bind_Ok_l in H.
  apply bind_Ok in H as ([] & Hv & [= <-]).
  destruct Hok as (Hm & Hok). split; [exact Hok|]. split; [exact Hv|].
  exists suffix. rewrite Hdata in *. f_equal.
  unfold header_layout in Hmagic. rewrite <- app_assoc, slice_here in Hmagic by done.
  injection Hmagic as Hmagic. destruct raw; cbn [hMagic] in Hmagic. by rewrite Hmagic.
Qed.

Lemma Header_UnmarshalBinary_no_panic data : Header_UnmarshalBinary data ≠ Panic.
Proof.
  unfold Header_UnmarshalBinary. destruct (zlen data <? HeaderSize) eqn:Hlen; [done|].
  unfold HeaderSize in Hlen. pose proof (zlen_nonneg data).
  rewrite slice_Ok by lia. destruct (at_in_range data 4) as (b & -> & _); [lia|].
  destruct (ReadHeader_total data) as (raw & suffix & -> & _ & _); [unfold HeaderSize; lia|].
  cbn. case_match; [done|]. case_match; [done|]. unfold Header_ValidateReceive.
  destruct (validateCommon _) eqn:E; try done. by apply validateCommon_no_panic in E.
Qed.

#[global] Instance Header_ok_dec h : Decision (Header_ok h).
Proof. unfold Header_ok. apply _. Defined.

(** ** Properties *)

(** A header that encodes has 40 octets and decodes to itself, whatever follows it. *)
Theorem header_roundtrip h buf rest :
  Header_ok h → Header_MarshalBinary h = Ok buf →
  zlen buf = HeaderSize ∧ Header_UnmarshalBinary (buf ++ rest) = Ok h.
Proof.
  intros Hok H. unfold Header_MarshalBinary in H. rewrite Header_marshalBinary_layout in H by done.
  apply bind_Ok in H as ([] & Hv & [= <-]).
  split; [by apply header_layout_length, to_wire_ok|].
  by apply Header_UnmarshalBinary_layout; [|apply Header_Validate_common].
Qed.

(** A decoded header is well-typed, re-encodes without sender checks to the same 40 octets (with
    them too when its flags and reserved bytes are the sender's), and its frame size lies
    between HeaderSize and MaxFrameSize. *)
Theorem header_lossless data h :
  Header_UnmarshalBinary data = Ok h →
  Header_ok h ∧ Header_marshalBinary h false = Ok (take 40 data) ∧
  HeaderSize ≤ FrameSize h ≤ MaxFrameSize ∧
  (hdrFlags h = 0 ∨ hdrFlags h = FlagPadding → hdrReserved h = zero4 →
   Header_MarshalBinary h = Ok (take 40 data)).
Proof.
  intros H. apply Header_UnmarshalBinary_inv in H as (Hok & Hv & suffix & ->).
  pose proof (header_layout_length _ (to_wire_ok _ Hok)) as Hlen.
  assert (take 40 (header_layout (to_wire h) ++ suffix) = header_layout (to_wire h)) as ->.
  { rewrite take_app_le, take_ge; [done|unfold zlen, HeaderSize in Hlen; lia..]. }
  split; [done|]. split.
  { rewrite Header_marshalBinary_layout by done. unfold Header_ValidateReceive. by rewrite Hv. }
  split.
  - rewrite FrameSize_exact by done. apply validateCommon_Ok in Hv as (_&_&Hs).
    rewrite FrameSize_exact in Hs by done. pose proof (Header_ok_sizes h Hok).
    unfold AEADTagSize in *. destruct (hasAEADTag h); lia.
  - intros Hf Hr. unfold Header_MarshalBinary. rewrite Header_marshalBinary_layout by done.
    unfold Header_Validate. rewrite Hv. cbn. rewrite bool_decide_eq_true_2 by done.
    by destruct Hf as [-> | ->].
Qed.

Definition ex_header : Header := NewHeader MessageTypeEncryptedData (make_bytes 15 ++ [to_byte 7]) 300 5 2.
Definition ex_header_wire : list byte := header_layout (to_wire ex_header).

Lemma header_roundtrip_witness :
  zlen ex_header_wire = HeaderSize ∧
  Header_UnmarshalBinary (ex_header_wire ++ [to_byte 1]) = Ok ex_header.
Proof.
  refine (header_roundtrip ex_header ex_header_wire [to_byte 1] _ _); [decide_closed|].
  vm_compute. reflexivity.
Defined.

Lemma header_lossless_witness :
  Header_marshalBinary ex_header false = Ok (take 40 (ex_header_wire ++ [to_byte 1])).
Proof.
  refine (proj1 (proj2 (header_lossless (ex_header_wire ++ [to_byte 1]) ex_header _))).
  vm_compute. reflexivity.
Defined.
