(* ===== verification/Frame.v ===== *)
(** * frame.go: complete frames

    A frame is the fixed header, the payload, an AEAD tag on every type but the
    handshake ones, and the padding.  The theorems show that the frame codec is
    a round trip in both directions, that a decoded frame is within the protocol
    limits, and that decoding never panics. *)

From S2P Require Import Prelude Wire Header.
Import wire.

Local Open Scope Z_scope.
Local Opaque header_layout.

Record Frame := mkFrame {
  frHeader : Header;
  frPayload : list byte;
  frTag : list byte;
  frPadding : list byte;
}.

#[global] Instance Frame_eq_dec : EqDecision Frame.
Proof. solve_decision. Defined.

(** The Go type: a well-typed header and a [[16]byte] tag. *)
Definition Frame_ok (f : Frame) : Prop := Header_ok (frHeader f) ∧ zlen (frTag f) = 16.

#[global] Instance Frame_ok_dec f : Decision (Frame_ok f).
Proof. unfold Frame_ok. apply _. Defined.

Fixpoint allZero (data : list byte) : bool :=
  match data with
  | [] => true
  | value :: rest => if negb (byte_val value =? 0) then false else allZero rest
  end.

Definition NewFrame (messageType : Z) (sessionID : list byte) (sequence : Z)
    (payload tag padding : list byte) : outcome Frame :=
  if 255 <? zlen padding then Err ErrPaddingLength else
  if 2 ^ 32 - 1 <? zlen payload then Err ErrPayloadTooLarge else
  let header := NewHeader messageType sessionID sequence (wrap 32 (zlen payload)) (wrap 8 (zlen padding)) in
  _ ← (if hasAEADTag header
       then if negb (zlen tag =? AEADTagSize) then Err ErrTagLength else Ok tt
       else if negb (zlen tag =? 0) && (negb (zlen tag =? AEADTagSize) || negb (allZero tag))
            then Err ErrTagLength else Ok tt);
  if MaxFrameSize <? FrameSize header then Err ErrPayloadTooLarge else
  t ← (if hasAEADTag header then copy_to zero16 0 16 tag else Ok zero16);
  Ok (mkFrame header payload t padding).

Definition validateLengths (f : Frame) : outcome unit :=
  if negb (zlen (frPayload f) =? hdrPayloadLength (frHeader f)) then Err ErrFrameLengthMismatch
  else if negb (zlen (frPadding f) =? hdrPadLength (frHeader f)) then Err ErrFrameLengthMismatch
  else Ok tt.

Definition Frame_Validate (f : Frame) : outcome unit :=
  _ ← Header_Validate (frHeader f);
  validateLengths f.

Definition Frame_ValidateReceive (f : Frame) : outcome unit :=
  _ ← Header_ValidateReceive (frHeader f);
  validateLengths f.

Definition Frame_MarshalBinary (f : Frame) : outcome (list byte) :=
  _ ← Frame_Validate f;
  header ← Header_MarshalBinary (frHeader f);
  let buf := header ++ frPayload f in
  let buf := if hasAEADTag (frHeader f) then buf ++ frTag f else buf in
  Ok (buf ++ frPadding f).

Definition Frame_UnmarshalBinary (data : list byte) : outcome Frame :=
  if zlen data <? HeaderSize then Err ErrFrameTooShort else
  head ← slice data 0 HeaderSize;
  header ← Header_UnmarshalBinary head;
  let want := FrameSize header in
  if negb (zlen data =? want) then Err ErrFrameLengthMismatch else
  let payloadEnd := HeaderSize + hdrPayloadLength header in
  let tagEnd := if hasAEADTag header then payloadEnd + AEADTagSize else payloadEnd in
  payload ← slice data HeaderSize payloadEnd;
  padding ← slice_from data tagEnd;
  tag ← (if hasAEADTag header
         then tagBytes ← slice data payloadEnd tagEnd; copy_to zero16 0 16 tagBytes
         else Ok zero16);
  Ok (mkFrame header payload tag padding).

(** ** Facts *)

(** The octets of a frame in wire order. *)
Definition frame_layout (f : Frame) : list byte :=
  header_layout (to_wire (frHeader f)) ++ frPayload f ++
  (if hasAEADTag (frHeader f) then frTag f else []) ++ frPadding f.

Lemma validateLengths_Ok f :
  validateLengths f = Ok tt ↔
  zlen (frPayload f) = hdrPayloadLength (frHeader f) ∧ zlen (frPadding f) = hdrPadLength (frHeader f).
Proof.
  unfold validateLengths.
  destruct (zlen (frPayload f) =? _) eqn:?; cbn [negb]; [|split; [done|lia]].
  destruct (zlen (frPadding f) =? _) eqn:?; cbn [negb]; split; try done; lia.
Qed.

Lemma Frame_ValidateReceive_Ok f :
  Frame_ValidateReceive f = Ok tt ↔ validateCommon (frHeader f) = Ok tt ∧ validateLengths f = Ok tt.
Proof.
  unfold Frame_ValidateReceive, Header_ValidateReceive. rewrite bind_Ok.
  split; [by intros ([] & ? & ?)|]. intros []. by exists tt.
Qed.

Lemma Frame_Validate_receive f : Frame_Validate f = Ok tt → Frame_ValidateReceive f = Ok tt.
Proof.
  unfold Frame_Validate. rewrite Frame_ValidateReceive_Ok, bind_Ok.
  intros ([] & H & ?). by apply Header_Validate_common in H.
Qed.

Lemma Frame_MarshalBinary_layout f :
  Frame_ok f →
  Frame_MarshalBinary f = _ ← Frame_Validate f; Ok (frame_layout f).
Proof.
  intros [Hok _]. unfold Frame_MarshalBinary, Frame_Validate, Header_MarshalBinary, frame_layout.
  rewrite Header_marshalBinary_layout by done.
  destruct (Header_Validate (frHeader f)) as [[]| |]; [cbn|done..].
  destruct (validateLengths f); [cbn|done..].
  destruct (hasAEADTag (frHeader f)); by rewrite <- !app_assoc.
Qed.

Lemma frame_layout_length f :
  Frame_ok f → validateLengths f = Ok tt → zlen (frame_layout f) = FrameSize (frHeader f).
Proof.
  intros [Hok Ht] [Hp Hd]%validateLengths_Ok. rewrite FrameSize_exact by done.
  unfold frame_layout. rewrite !zlen_app, header_layout_length by (by apply to_wire_ok).
  destruct (hasAEADTag _); rewrite ?Ht, ?zlen_nil; unfold AEADTagSize; lia.
Qed.

(** A frame whose tag is present exactly on the types that carry one. *)
Definition tag_canonical (f : Frame) : Prop := hasAEADTag (frHeader f) = false → frTag f = zero16.

Lemma copy_tag tag : zlen tag = 16 → copy_to zero16 0 16 tag = Ok tag.
Proof. intros. rewrite copy_to_put by (done || lia). by rewrite put_all. Qed.

Lemma Frame_UnmarshalBinary_layout f :
  Frame_ok f → tag_canonical f → Frame_ValidateReceive f = Ok tt →
  Frame_UnmarshalBinary (frame_layout f) = Ok f.
Proof.
  intros Hok Hc [Hv Hl]%Frame_ValidateReceive_Ok.
  pose proof (frame_layout_length f Hok Hl) as Hlen.
  destruct Hok as [Hh Ht]. pose proof (FrameSize_exact _ Hh) as Hfs.
  pose proof (Header_ok_sizes _ Hh). apply validateLengths_Ok in Hl as [Hp Hd].
  pose proof (header_layout_length _ (to_wire_ok _ Hh)) as Hhl.
  unfold Frame_UnmarshalBinary. rewrite (proj2 (Z.ltb_ge _ _)).
  2: { rewrite Hlen, Hfs. unfold AEADTagSize. case_match; lia. }
  rewrite Hlen. unfold frame_layout.
  rewrite slice_here, bind_Ok_l by done.
  rewrite <- (app_nil_r (header_layout _)) at 1.
  rewrite Header_UnmarshalBinary_layout, bind_Ok_l by done.
  rewrite Z.eqb_refl. cbn [negb]. unfold slice_from, HeaderSize, AEADTagSize in *.
  destruct (hasAEADTag (frHeader f)) eqn:Hat; chunks.
  - rewrite copy_tag by done. chunks. by destruct f.
  - rewrite <- (Hc Hat). by destruct f.
Qed.

Lemma Frame_UnmarshalBinary_inv data f :
  Frame_UnmarshalBinary data = Ok f →
  Frame_ok f ∧ tag_canonical f ∧ Frame_ValidateReceive f = Ok tt ∧ data = frame_layout f.
Proof.
  unfold Frame_UnmarshalBinary, slice_from. intros H.
  destruct (zlen data <? HeaderSize) eqn:Hlen; [done|].
  unfold HeaderSize in *.
  destruct (split_at data 40) as (head & body & -> & Hhead); [lia|].
  rewrite slice_here, bind_Ok_l in H by done.
  apply bind_Ok in H as (h & Hh & H).
  apply Header_UnmarshalBinary_inv in Hh as (Hok & Hv & sfx & ->).
  pose proof (header_layout_length _ (to_wire_ok _ Hok)) as Hhl.
  rewrite zlen_app, Hhl in Hhead. rewrite (zlen_0_nil sfx) in * by (unfold HeaderSize in *; lia).
  rewrite app_nil_r in *. pose proof (FrameSize_exact _ Hok) as Hfs. pose proof (Header_ok_sizes _ Hok).
  destruct (_ =? FrameSize h) eqn:Hsz; [cbn [negb] in H|done].
  rewrite zlen_app, Hhl in Hsz. unfold HeaderSize, AEADTagSize in *.
  destruct (split_at body (hdrPayloadLength h)) as (payload & body' & -> & Hp);
    [destruct (hasAEADTag h); lia|].
  rewrite zlen_app in Hsz. unfold Frame_ok, tag_canonical.
  destruct (hasAEADTag h) eqn:Hat.
  - destruct (split_at body' 16) as (tag & padding & -> & Ht); [lia|]. rewrite zlen_app in Hsz.
    revert H. chunks. rewrite copy_tag, bind_Ok_l by done. intros [= <-]. unfold frame_layout.
    cbn [frHeader frPayload frTag frPadding]. rewrite Hat.
    split; [done|]. split; [done|]. split; [|done].
    apply Frame_ValidateReceive_Ok. split; [done|]. apply validateLengths_Ok. cbn. lia.
  - revert H. chunks. intros [= <-]. unfold frame_layout.
    cbn [frHeader frPayload frTag frPadding]. rewrite Hat.
    split; [done|]. split; [done|]. split; [|done].
    apply Frame_ValidateReceive_Ok. split; [done|]. apply validateLengths_Ok. cbn. lia.
Qed.

Lemma Frame_UnmarshalBinary_no_panic data : Frame_UnmarshalBinary data ≠ Panic.
Proof.
  unfold Frame_UnmarshalBinary, slice_from.
  destruct (zlen data <? HeaderSize) eqn:Hlen; [done|]. unfold HeaderSize in *.
  rewrite slice_Ok, bind_Ok_l by lia.
  destruct (Header_UnmarshalBinary _) as [h| |] eqn:Hh; [|done|by apply Header_UnmarshalBinary_no_panic in Hh].
  rewrite bind_Ok_l. apply Header_UnmarshalBinary_inv in Hh as (Hok & _ & _).
  pose proof (FrameSize_exact _ Hok) as Hfs. pose proof (Header_ok_sizes _ Hok).
  destruct (_ =? FrameSize h) eqn:Hsz; [cbn [negb]|done]. unfold HeaderSize, AEADTagSize in *.
  destruct (hasAEADTag h); rewrite !slice_Ok, !bind_Ok_l by lia; [|done].
  unfold copy_to. rewrite !(proj2 (Z.leb_le _ _)) by done. done.
Qed.

Lemma NewHeader_ok messageType sessionID sequence payloadLength padLength :
  uint 8 messageType → zlen sessionID = 16 → uint 64 sequence → uint 32 payloadLength →
  uint 8 padLength → Header_ok (NewHeader messageType sessionID sequence payloadLength padLength).
Proof. intros. unfold NewHeader. by destruct (padLength =? 0). Qed.

Lemma NewHeader_Validate messageType sessionID sequence payloadLength padLength :
  FrameSize (NewHeader messageType sessionID sequence payloadLength padLength) ≤ MaxFrameSize →
  Header_Validate (NewHeader messageType sessionID sequence payloadLength padLength) = Ok tt.
Proof.
  intros Hs. unfold Header_Validate. rewrite (proj2 (validateCommon_Ok _)).
  - unfold NewHeader. by destruct (padLength =? 0).
  - split; [done|]. split; [|done]. unfold NewHeader.
    destruct (padLength =? 0) eqn:E; cbn [negb hdrFlags hdrPadLength].
    + change (Z.land 0 FlagPadding) with 0. lia.
    + change (Z.land (Z.lor 0 FlagPadding) FlagPadding) with 2. lia.
Qed.

(** What [NewFrame] returns when its arguments have their Go types. *)
Lemma NewFrame_inv messageType sessionID sequence payload tag padding f :
  uint 8 messageType → zlen sessionID = 16 → uint 64 sequence →
  NewFrame messageType sessionID sequence payload tag padding = Ok f →
  let h := NewHeader messageType sessionID sequence (zlen payload) (zlen padding) in
  Frame_ok f ∧ tag_canonical f ∧ Frame_Validate f = Ok tt ∧
  frHeader f = h ∧ frPayload f = payload ∧ frPadding f = padding ∧
  (hasAEADTag h = true → frTag f = tag ∧ zlen tag = 16).
Proof.
  intros Hmt Hsid Hseq H. unfold NewFrame in H.
  destruct (255 <? zlen padding) eqn:Hpad; [done|].
  destruct (_ <? zlen payload) eqn:Hpay; [done|].
  pose proof (zlen_nonneg padding). pose proof (zlen_nonneg payload).
  rewrite !wrap_small in H by (unfold uint; lia).
  set (h := NewHeader _ _ _ _ _) in *. cbn zeta.
  assert (Header_ok h) as Hok by (apply NewHeader_ok; unfold uint in *; lia || done).
  apply bind_Ok in H as ([] & Htag & H).
  destruct (MaxFrameSize <? FrameSize h) eqn:Hs; [done|].
  apply bind_Ok in H as (t & Ht & [= <-]).
  unfold Frame_ok, tag_canonical, Frame_Validate; cbn [frHeader frPayload frTag frPadding].
  assert (Header_Validate h = Ok tt) as -> by (apply NewHeader_Validate; fold h; lia).
  assert (validateLengths (mkFrame h payload t padding) = Ok tt) as Hl by (by apply validateLengths_Ok).
  destruct (hasAEADTag h) eqn:Hat.
  - destruct (zlen tag =? AEADTagSize) eqn:E; [|done]. unfold AEADTagSize in E.
    rewrite copy_tag in Ht by lia. injection Ht as <-.
    assert (zlen tag = 16) by lia. by split_and!.
  - injection Ht as <-. by split_and!.
Qed.

(** ** Properties *)

(** A frame that encodes has FrameSize octets, at most MaxFrameSize, and decodes to itself. *)
Theorem frame_roundtrip f buf :
  Frame_ok f → tag_canonical f → Frame_MarshalBinary f = Ok buf →
  zlen buf = FrameSize (frHeader f) ∧ zlen buf ≤ MaxFrameSize ∧ Frame_UnmarshalBinary buf = Ok f.
Proof.
  intros Hok Hc H. rewrite Frame_MarshalBinary_layout in H by done.
  apply bind_Ok in H as ([] & Hv & [= <-]). apply Frame_Validate_receive in Hv.
  apply Frame_ValidateReceive_Ok in Hv as Hv'. destruct Hv' as [Hc' Hl].
  rewrite frame_layout_length by done. split; [done|]. split.
  - by apply validateCommon_Ok in Hc' as (_&_&?).
  - by apply Frame_UnmarshalBinary_layout.
Qed.

(** C40: Frame decoding never panics and accepts exactly the octet strings that are the layout
    of a frame whose header and lengths validate, returning that frame. *)
Theorem frame_decode_exact data :
  Frame_UnmarshalBinary data ≠ Panic ∧
  ∀ f, Frame_UnmarshalBinary data = Ok f ↔
       Frame_ok f ∧ tag_canonical f ∧ Frame_ValidateReceive f = Ok tt ∧ data = frame_layout f.
Proof.
  split; [apply Frame_UnmarshalBinary_no_panic|]. intros f. split.
  - apply Frame_UnmarshalBinary_inv.
  - intros (? & ? & ? & ->). by apply Frame_UnmarshalBinary_layout.
Qed.

Definition ex_frame : Frame :=
  mkFrame ex_header (make_bytes 5) (make_bytes 16) [to_byte 9; to_byte 8].

Lemma frame_roundtrip_witness :
  zlen (frame_layout ex_frame) = FrameSize (frHeader ex_frame) ∧
  zlen (frame_layout ex_frame) ≤ MaxFrameSize ∧
  Frame_UnmarshalBinary (frame_layout ex_frame) = Ok ex_frame.
Proof.
  refine (frame_roundtrip ex_frame (frame_layout ex_frame) _ _ _).
  - decide_closed.
  - intros H. vm_compute in H. discriminate H.
  - vm_compute. reflexivity.
Defined.
