(* ===== verification/Tlv.v ===== *)
(** * internal/tlv and tlv.go: the bounded TLV codec

    [tlv] is the slice-level codec: [Validate] is the first decode pass over an
    untrusted sequence, [Read] the second one, [Write] the encoder of one field.
    The root functions [DecodeTLVs] and [EncodeTLVs] drive them and translate
    failures to the public sentinels.

    [tlv_seq] is the grammar of a TLV sequence, [tlv_bytes] the canonical
    encoding of a field.  The theorems show that the two-pass decoder accepts
    exactly the grammar within its limits and never panics, that the in-place
    encoder writes the concatenation of the canonical encodings, that its length
    pre-computation is exact, and that decoding inverts encoding. *)

From S2P Require Import Prelude Wire.
Import wire.

Local Open Scope Z_scope.

Definition TLVHeaderSize : Z := 3.
Definition MaxTLVValueSize : Z := 65535.
Definition MaxTLVSequenceSize : Z := MaxFrameSize.
Definition MaxTLVElements : Z := MaxTLVSequenceSize / 4.

Module tlv.

Definition MaxValueSize : Z := 65535.
Definition MaxSequenceSize : Z := 65535.
Definition MaxElements : Z := MaxSequenceSize / 4.

Inductive Kind :=
  | OK | TooShort | TruncatedValue | TruncatedPadding | ValueTooLarge | DecodeLimit
  | SequenceTooLarge | SequenceFull | TooManyElements | ElementsFull.

#[global] Instance Kind_eq_dec : EqDecision Kind.
Proof. solve_decision. Defined.

Record Failure := mkFailure {
  fKind : Kind; fOffset : Z; fGot : Z; fNeed : Z; fLimit : Z;
}.

(** The zero value [Failure{}]. *)
Definition NoFailure : Failure := mkFailure OK 0 0 0 0.

(** [(n + 3) &^ 3] *)
Definition Align4 (n : Z) : Z := Z.ldiff (n + 3) 3.

Definition EncodedLen (valueLen : Z) : Z * Failure :=
  if MaxValueSize <? valueLen then (0, mkFailure ValueTooLarge 0 valueLen 0 0)
  else (Align4 (TLVHeaderSize + valueLen), NoFailure).

Definition CheckCount (count : Z) : Failure :=
  if MaxElements <? count then mkFailure TooManyElements 0 count 0 MaxElements else NoFailure.

Definition AddLen (total valueLen : Z) : Z * Kind :=
  if MaxValueSize <? valueLen then (0, ValueTooLarge) else
  let n := Align4 (TLVHeaderSize + valueLen) in
  if MaxSequenceSize - total <? n then (0, SequenceFull) else (total + n, OK).

(** The loop of [Validate]; every iteration consumes at least four bytes, so one
    unit of fuel per byte is enough (see [Validate_loop_seq]). *)
Fixpoint Validate_loop (fuel : nat) (data : list byte) (offset count : Z) : outcome (Z * Failure) :=
  match fuel with
  | O => Panic
  | S fuel' =>
      if offset <? zlen data then
        if count =? MaxElements then Ok (0, mkFailure ElementsFull 0 0 0 MaxElements) else
        let remaining := zlen data - offset in
        if remaining <? TLVHeaderSize then Ok (0, mkFailure TooShort offset remaining 0 0) else
        valueLen ← le_read data (offset + 1) 2;
        if remaining - TLVHeaderSize <? valueLen
        then Ok (0, mkFailure TruncatedValue offset (remaining - TLVHeaderSize) valueLen 0) else
        let unpadded := TLVHeaderSize + valueLen in
        let paddingLen := (4 - unpadded mod 4) mod 4 in
        if remaining - unpadded <? paddingLen
        then Ok (0, mkFailure TruncatedPadding offset (remaining - unpadded) paddingLen 0) else
        Validate_loop fuel' data (offset + (unpadded + paddingLen)) (count + 1)
      else Ok (count, NoFailure)
  end.

Definition Validate (data : list byte) (maxBytes : Z) : outcome (Z * Failure) :=
  if MaxSequenceSize <? zlen data
  then Ok (0, mkFailure SequenceTooLarge 0 (zlen data) 0 MaxSequenceSize) else
  if (0 <? maxBytes) && (maxBytes <? zlen data)
  then Ok (0, mkFailure DecodeLimit 0 (zlen data) 0 maxBytes) else
  Validate_loop (S (length data)) data 0 0.

Definition Read (data : list byte) (offset : Z) : outcome (byte * list byte * Z) :=
  valueLen ← le_read data (offset + 1) 2;
  let end_ := offset + TLVHeaderSize + valueLen in
  typ ← at_ data offset;
  value ← slice data (offset + TLVHeaderSize) end_;
  Ok (typ, value, offset + Align4 (TLVHeaderSize + valueLen)).

(** The written buffer and the next offset. *)
Definition Write (data : list byte) (offset : Z) (typ : byte) (value : list byte)
    : outcome (list byte * Z) :=
  data ← put data offset [typ];
  data ← put data (offset + 1) (le_put 2 (wrap 16 (zlen value)));
  data ← copy_to data (offset + TLVHeaderSize) (zlen data) value;
  Ok (data, offset + Align4 (TLVHeaderSize + zlen value)).

Definition Marshal (typ : byte) (value : list byte) : outcome (list byte * Failure) :=
  let '(n, failure) := EncodedLen (zlen value) in
  if negb (bool_decide (fKind failure = OK)) then Ok ([], failure) else
  let data := make_bytes n in
  '(data, _) ← Write data 0 typ value;
  Ok (data, NoFailure).

End tlv.
Import tlv.

(** ** tlv.go *)
Record TLV := mkTLV { tlvType : byte; tlvValue : list byte }.

#[global] Instance TLV_eq_dec : EqDecision TLV.
Proof. solve_decision. Defined.

(** [None] is the nil error; an error that wraps a sentinel is that sentinel. *)
Definition Failure_Wrap (failure : Failure) (sentinel : error) : option error :=
  match fKind failure with
  | TooShort | TruncatedValue | TruncatedPadding | ValueTooLarge | DecodeLimit | SequenceTooLarge | SequenceFull
  | ElementsFull | TooManyElements => Some sentinel
  | OK => None
  end.

Definition tlvError (failure : Failure) : option error :=
  match fKind failure with
  | OK => None
  | TooShort => Failure_Wrap failure ErrTLVTooShort
  | TruncatedValue | TruncatedPadding => Failure_Wrap failure ErrTLVTruncated
  | ValueTooLarge => Failure_Wrap failure ErrTLVValueTooLarge
  | DecodeLimit => Failure_Wrap failure ErrTLVDecodeLimit
  | SequenceTooLarge | SequenceFull => Failure_Wrap failure ErrTLVSequenceLimit
  | TooManyElements | ElementsFull => Failure_Wrap failure ErrTLVElementLimit
  end.

(** The Go idiom [return value, tlvError(failure)]. *)
Definition with_tlvError {A} (a : A) (failure : Failure) : outcome A :=
  match tlvError failure with None => Ok a | Some e => Err e end.

Definition NewTLV (typ : byte) (value : list byte) : outcome TLV :=
  let '(_, failure) := EncodedLen (zlen value) in
  if negb (bool_decide (fKind failure = OK)) then with_tlvError (mkTLV typ []) failure
  else Ok (mkTLV typ value).

Definition TLV_EncodedLen (t : TLV) : outcome Z :=
  let '(n, failure) := EncodedLen (zlen (tlvValue t)) in with_tlvError n failure.

Definition TLV_MarshalBinary (t : TLV) : outcome (list byte) :=
  '(buf, failure) ← Marshal (tlvType t) (tlvValue t);
  with_tlvError buf failure.

Fixpoint DecodeTLVs_loop (data : list byte) (n : nat) (offset : Z) : outcome (list TLV) :=
  match n with
  | O => Ok []
  | S n' =>
      '(typ, value, next) ← Read data offset;
      out ← DecodeTLVs_loop data n' next;
      Ok (mkTLV typ value :: out)
  end.

Definition DecodeTLVs (data : list byte) (maxBytes : Z) : outcome (list TLV) :=
  '(count, failure) ← Validate data maxBytes;
  if negb (bool_decide (fKind failure = OK)) then with_tlvError [] failure
  else DecodeTLVs_loop data (Z.to_nat count) 0.

Fixpoint encodedTLVsLen_loop (fields : list TLV) (total : Z) : outcome Z :=
  match fields with
  | [] => Ok total
  | field :: rest =>
      let '(next, kind) := AddLen total (zlen (tlvValue field)) in
      if negb (bool_decide (kind = OK))
      then with_tlvError 0 (mkFailure kind 0 (zlen (tlvValue field)) 0 MaxSequenceSize)
      else encodedTLVsLen_loop rest next
  end.

Definition encodedTLVsLen (fields : list TLV) : outcome Z :=
  let failure := CheckCount (zlen fields) in
  if negb (bool_decide (fKind failure = OK)) then with_tlvError 0 failure
  else encodedTLVsLen_loop fields 0.

Fixpoint EncodeTLVs_loop (fields : list TLV) (buf : list byte) (offset : Z) : outcome (list byte) :=
  match fields with
  | [] => Ok buf
  | field :: rest =>
      '(buf, offset) ← Write buf offset (tlvType field) (tlvValue field);
      EncodeTLVs_loop rest buf offset
  end.

Definition EncodeTLVs (fields : list TLV) : outcome (list byte) :=
  total ← encodedTLVsLen fields;
  let buf := make_bytes total in
  EncodeTLVs_loop fields buf 0.

Definition align4 (n : Z) : Z := Align4 n.

(** ** The wire grammar *)
Definition tlv_pad (n : Z) : Z := (4 - (TLVHeaderSize + n) mod 4) mod 4.

(** The canonical encoding: type, length, value, zero padding. *)
Definition tlv_bytes (t : TLV) : list byte :=
  [tlvType t] ++ le_put 2 (zlen (tlvValue t)) ++ tlvValue t ++ make_bytes (tlv_pad (zlen (tlvValue t))).

(** What a decoder accepts: the padding octets are arbitrary. *)
Inductive tlv_seq : list byte → list TLV → Prop :=
  | tlv_seq_nil : tlv_seq [] []
  | tlv_seq_cons t pad rest fields :
      zlen (tlvValue t) ≤ MaxValueSize →
      zlen pad = tlv_pad (zlen (tlvValue t)) →
      tlv_seq rest fields →
      tlv_seq ([tlvType t] ++ le_put 2 (zlen (tlvValue t)) ++ tlvValue t ++ pad ++ rest) (t :: fields).

(** ** Facts *)
Lemma tlv_pad_range n : 0 ≤ tlv_pad n < 4.
Proof. apply Z.mod_pos_bound. lia. Qed.

Lemma Align4_pad n : Align4 (TLVHeaderSize + n) = TLVHeaderSize + n + tlv_pad n.
Proof.
  unfold Align4, tlv_pad. change 3 with (Z.ones 2) at 2.
  rewrite Z.ldiff_ones_r, Z.shiftl_mul_pow2, Z.shiftr_div_pow2 by lia.
  change (2 ^ 2) with 4. unfold TLVHeaderSize. Z.div_mod_to_equations. lia.
Qed.

Lemma le2_small n : 0 ≤ n ≤ MaxValueSize → le_get (le_put 2 n) = n.
Proof. intros. rewrite le_get_put. apply Z.mod_small. unfold MaxValueSize in *. lia. Qed.

Lemma tlv_seq_length rest fields : tlv_seq rest fields → 4 * zlen fields ≤ zlen rest.
Proof.
  induction 1 as [|t pad rest fields Hv Hp _ IH]; [done|].
  pose proof (zlen_nonneg (tlvValue t)). pose proof (zlen_nonneg pad).
  destruct (decide (zlen (tlvValue t) = 0)) as [E|]; [|len].
  rewrite E in Hp. change (tlv_pad 0) with 1 in Hp. len.
Qed.

(** One accepted field at the current offset. *)
Lemma field_split rest :
  TLVHeaderSize ≤ zlen rest →
  ∃ t len tail, rest = [t] ++ len ++ tail ∧ zlen len = 2 ∧ 0 ≤ le_get len ≤ MaxValueSize.
Proof.
  unfold TLVHeaderSize. intros. chunk rest 1 as t. chunk rest 2 as l.
  destruct (zlen_1 t) as [x ->]; [done|]. exists x, l, rest.
  split; [done|]. split; [done|]. pose proof (le_get_range l).
  replace (length l) with 2%nat in * by (unfold zlen in *; lia). unfold MaxValueSize. lia.
Qed.

Lemma Validate_loop_seq rest fields :
  tlv_seq rest fields →
  ∀ fuel done_ count, 4 * count ≤ zlen done_ → zlen (done_ ++ rest) ≤ MaxSequenceSize →
  (length rest < fuel)%nat →
  Validate_loop fuel (done_ ++ rest) (zlen done_) count = Ok (count + zlen fields, NoFailure).
Proof.
  induction 1 as [|t pad rest fields Hv Hp Hs IH]; intros fuel done_ count Hc Hlen Hfuel;
    (destruct fuel as [|fuel]; [lia|]); cbn [Validate_loop].
  - rewrite app_nil_r, Z.ltb_irrefl. by rewrite zlen_nil, Z.add_0_r.
  - pose proof (zlen_nonneg (tlvValue t)) as Hv0. pose proof (tlv_pad_range (zlen (tlvValue t))).
    pose proof (zlen_nonneg rest). pose proof (zlen_nonneg done_).
    assert (zlen ([tlvType t] ++ le_put 2 (zlen (tlvValue t)) ++ tlvValue t ++ pad ++ rest)
            = TLVHeaderSize + zlen (tlvValue t) + zlen pad + zlen rest) as Hrl
      by (unfold TLVHeaderSize; len).
    rewrite (zlen_app done_), Hrl in Hlen. rewrite (zlen_app done_), Hrl.
    unfold MaxSequenceSize, TLVHeaderSize in *.
    assert (4 ≤ 3 + zlen (tlvValue t) + zlen pad).
    { destruct (decide (zlen (tlvValue t) = 0)) as [E|]; [|lia]. rewrite E in Hp.
      change (tlv_pad 0) with 1 in Hp. lia. }
    rewrite (proj2 (Z.ltb_lt _ _)) by lia.
    rewrite (proj2 (Z.eqb_neq _ _)) by (change MaxElements with 16383; lia).
    rewrite (proj2 (Z.ltb_ge _ _)) by lia.
    unfold le_read. chunks. rewrite le2_small by done.
    change ((4 - (3 + zlen (tlvValue t)) mod 4) mod 4) with (tlv_pad (zlen (tlvValue t))).
    rewrite !(proj2 (Z.ltb_ge _ _)) by lia.
    set (done2 := done_ ++ [tlvType t] ++ le_put 2 (zlen (tlvValue t)) ++ tlvValue t ++ pad).
    replace (done_ ++ _) with (done2 ++ rest) by (unfold done2; by rewrite <- !app_assoc).
    replace (zlen done_ + _) with (zlen done2) by (unfold done2; len).
    rewrite IH.
    + rewrite zlen_cons. do 2 f_equal. lia.
    + unfold done2. len.
    + unfold done2. len.
    + unfold zlen in *. lia.
Qed.

(** A field at the current offset that passes the checks of one iteration. *)
Lemma Validate_loop_step fuel done_ t l value pad rest count :
  zlen l = 2 → zlen value = le_get l → zlen pad = tlv_pad (le_get l) → count ≠ MaxElements →
  Validate_loop (S fuel) (done_ ++ [t] ++ l ++ value ++ pad ++ rest) (zlen done_) count =
  Validate_loop fuel ((done_ ++ [t] ++ l ++ value ++ pad) ++ rest)
    (zlen (done_ ++ [t] ++ l ++ value ++ pad)) (count + 1).
Proof.
  intros Hl Hv Hp Hc. cbn [Validate_loop].
  pose proof (zlen_nonneg value). pose proof (zlen_nonneg pad). pose proof (zlen_nonneg rest).
  assert (zlen (done_ ++ [t] ++ l ++ value ++ pad ++ rest)
          = zlen done_ + (3 + zlen value + zlen pad + zlen rest)) as -> by len.
  unfold TLVHeaderSize.
  rewrite (proj2 (Z.ltb_lt _ _)), (proj2 (Z.eqb_neq _ _)), (proj2 (Z.ltb_ge _ _)) by lia.
  unfold le_read. chunks.
  change ((4 - (3 + le_get l) mod 4) mod 4) with (tlv_pad (le_get l)).
  rewrite !(proj2 (Z.ltb_ge _ _)) by lia.
  f_equal; [by rewrite <- !app_assoc|len].
Qed.

Lemma Validate_loop_inv fuel : ∀ done_ rest count,
  (length rest < fuel)%nat →
  ∃ n f, Validate_loop fuel (done_ ++ rest) (zlen done_) count = Ok (n, f) ∧
         (fKind f = OK → f = NoFailure ∧ ∃ fields, tlv_seq rest fields ∧ n = count + zlen fields).
Proof.
  induction fuel as [|fuel IH]; intros done_ rest count Hfuel; [lia|].
  destruct rest as [|x rest'] eqn:Hrest.
  { exists count, NoFailure. cbn [Validate_loop]. rewrite app_nil_r, Z.ltb_irrefl. split; [done|].
    intros _. split; [done|]. exists []. split; [constructor|]. rewrite zlen_nil. lia. }
  rewrite <- Hrest in *. assert (0 < zlen rest) by (rewrite Hrest; len). clear x rest' Hrest.
  pose proof (zlen_nonneg done_).
  destruct (decide (count = MaxElements)) as [->|Hc].
  { exists 0, (mkFailure ElementsFull 0 0 0 MaxElements). split; [|done]. cbn [Validate_loop].
    rewrite zlen_app, (proj2 (Z.ltb_lt _ _)) by lia. by rewrite Z.eqb_refl. }
  destruct (decide (zlen rest < TLVHeaderSize)) as [Hs|Hs].
  { exists 0, (mkFailure TooShort (zlen done_) (zlen rest) 0 0). split; [|done]. cbn [Validate_loop].
    rewrite zlen_app, (proj2 (Z.ltb_lt (zlen done_) _)), (proj2 (Z.eqb_neq _ _)) by lia.
    replace (zlen done_ + zlen rest - zlen done_) with (zlen rest) by lia.
    by rewrite (proj2 (Z.ltb_lt _ _)) by lia. }
  destruct (field_split rest) as (t & l & tail & -> & Hl & Hr); [lia|].
  assert (zlen ([t] ++ l ++ tail) = 3 + zlen tail) as Htl by len. unfold TLVHeaderSize in *.
  pose proof (tlv_pad_range (le_get l)).
  destruct (decide (le_get l + tlv_pad (le_get l) ≤ zlen tail)) as [Hfit|Hfit].
  - destruct (split_at tail (le_get l)) as (value & tail' & -> & Hv); [lia|].
    rewrite zlen_app in Hfit.
    destruct (split_at tail' (tlv_pad (le_get l))) as (pad & rest & -> & Hp); [lia|].
    rewrite Validate_loop_step by done.
    destruct (IH (done_ ++ [t] ++ l ++ value ++ pad) rest (count + 1)) as (n & f & -> & Hf).
    { rewrite !length_app in Hfuel. cbn [length] in Hfuel. lia. }
    exists n, f. split; [done|]. intros HOK. destruct (Hf HOK) as (-> & fields & Hseq & ->).
    split; [done|]. exists (mkTLV t value :: fields). rewrite zlen_cons. split; [|lia].
    replace l with (le_put 2 (zlen value)).
    + apply (tlv_seq_cons (mkTLV t value)); cbn; [lia|by rewrite Hv|done].
    + rewrite Hv. replace 2%nat with (length l) by (unfold zlen in *; lia). apply le_put_get.
  - cbn [Validate_loop]. rewrite zlen_app, Htl. pose proof (zlen_nonneg tail).
    unfold TLVHeaderSize.
    rewrite (proj2 (Z.ltb_lt (zlen done_) _)), (proj2 (Z.eqb_neq _ _)), (proj2 (Z.ltb_ge _ 3)) by lia.
    unfold le_read. chunks.
    change ((4 - (3 + le_get l) mod 4) mod 4) with (tlv_pad (le_get l)).
    destruct (_ <? le_get l) eqn:Ht; [by eexists 0, _|].
    rewrite (proj2 (Z.ltb_lt _ _)) by lia. by eexists 0, _.
Qed.

Lemma Read_field done_ t pad rest :
  zlen (tlvValue t) ≤ MaxValueSize → zlen pad = tlv_pad (zlen (tlvValue t)) →
  Read (done_ ++ [tlvType t] ++ le_put 2 (zlen (tlvValue t)) ++ tlvValue t ++ pad ++ rest) (zlen done_) =
  Ok (tlvType t, tlvValue t,
      zlen (done_ ++ [tlvType t] ++ le_put 2 (zlen (tlvValue t)) ++ tlvValue t ++ pad)).
Proof.
  intros Hv Hp. pose proof (zlen_nonneg (tlvValue t)). unfold Read, le_read. chunks.
  rewrite le2_small by done. rewrite Align4_pad. unfold TLVHeaderSize. chunks.
  do 2 f_equal. len.
Qed.

Lemma DecodeTLVs_loop_seq rest fields :
  tlv_seq rest fields →
  ∀ done_, DecodeTLVs_loop (done_ ++ rest) (length fields) (zlen done_) = Ok fields.
Proof.
  induction 1 as [|t pad rest fields Hv Hp Hs IH]; intros done_; [done|].
  cbn [DecodeTLVs_loop length]. rewrite Read_field, bind_Ok_l by done.
  specialize (IH (done_ ++ [tlvType t] ++ le_put 2 (zlen (tlvValue t)) ++ tlvValue t ++ pad)).
  rewrite <- !app_assoc in IH. rewrite IH. by destruct t.
Qed.

Lemma Validate_cases data maxBytes :
  ∃ n f, Validate data maxBytes = Ok (n, f) ∧
    (fKind f = OK ↔ zlen data ≤ MaxSequenceSize ∧ (0 < maxBytes → zlen data ≤ maxBytes) ∧
                    ∃ fields, tlv_seq data fields) ∧
    (fKind f = OK → ∃ fields, tlv_seq data fields ∧ n = zlen fields).
Proof.
  unfold Validate.
  destruct (MaxSequenceSize <? zlen data) eqn:H1.
  { eexists _, _. split; [done|]. split; [split; [done|lia]|done]. }
  destruct ((0 <? maxBytes) && (maxBytes <? zlen data)) eqn:H2.
  { eexists _, _. split; [done|]. split; [split; [done|lia]|done]. }
  destruct (Validate_loop_inv (S (length data)) [] data 0) as (n & f & Hf & Hinv); [lia|].
  exists n, f. split; [done|]. split; [split|].
  - intros HOK. destruct (Hinv HOK) as (_ & fields & ? & _). split; [lia|]. split; [lia|]. by exists fields.
  - intros (Hs & _ & fields & Hseq).
    pose proof (Validate_loop_seq _ _ Hseq (S (length data)) [] 0) as Hok. cbn [app] in *.
    change (zlen (@nil byte)) with 0 in *. rewrite Hok in Hf by lia. by injection Hf as <- <-.
  - intros HOK. destruct (Hinv HOK) as (_ & fields & ? & ->). by exists fields.
Qed.

Lemma tlvError_None f : tlvError f = None ↔ fKind f = OK.
Proof. unfold tlvError, Failure_Wrap. by destruct (fKind f). Qed.

Lemma with_tlvError_Err {A} (a b : A) f : fKind f ≠ OK → with_tlvError a f ≠ Ok b.
Proof. unfold with_tlvError. destruct (tlvError f) eqn:E; [done|]. by apply tlvError_None in E. Qed.

Lemma with_tlvError_no_panic {A} (a : A) f : with_tlvError a f ≠ Panic.
Proof. unfold with_tlvError. by destruct (tlvError f). Qed.

Lemma DecodeTLVs_Ok data maxBytes fields :
  zlen data ≤ MaxSequenceSize → (0 < maxBytes → zlen data ≤ maxBytes) → tlv_seq data fields →
  DecodeTLVs data maxBytes = Ok fields.
Proof.
  intros Hs Hm Hseq. unfold DecodeTLVs, Validate.
  rewrite (proj2 (Z.ltb_ge _ _)) by lia.
  replace ((0 <? maxBytes) && _) with false by lia.
  pose proof (Validate_loop_seq _ _ Hseq (S (length data)) [] 0) as Hok. cbn [app] in Hok.
  change (zlen (@nil byte)) with 0 in Hok. rewrite Hok by lia. rewrite bind_Ok_l. cbn [fKind NoFailure].
  rewrite bool_decide_eq_true_2 by done. cbn [negb]. unfold zlen. rewrite Z.add_0_l, Nat2Z.id.
  apply (DecodeTLVs_loop_seq _ _ Hseq []).
Qed.

Lemma DecodeTLVs_inv data maxBytes fields :
  DecodeTLVs data maxBytes = Ok fields →
  zlen data ≤ MaxSequenceSize ∧ (0 < maxBytes → zlen data ≤ maxBytes) ∧ tlv_seq data fields.
Proof.
  intros H. pose proof H as H0. unfold DecodeTLVs in H.
  destruct (Validate_cases data maxBytes) as (n & f & Hf & Hiff & _). rewrite Hf, bind_Ok_l in H.
  case_bool_decide as HOK; [|by apply with_tlvError_Err in H].
  destruct (proj1 Hiff HOK) as (Hs & Hm & fields' & Hseq).
  rewrite (DecodeTLVs_Ok _ _ fields') in H0 by done. by injection H0 as ->.
Qed.

Lemma DecodeTLVs_no_panic data maxBytes : DecodeTLVs data maxBytes ≠ Panic.
Proof.
  destruct (Validate_cases data maxBytes) as (n & f & Hf & Hiff & Hfields).
  destruct (decide (fKind f = OK)) as [HOK|HOK].
  - destruct (proj1 Hiff HOK) as (Hs & Hm & fields & Hseq). by rewrite (DecodeTLVs_Ok _ _ fields).
  - unfold DecodeTLVs. rewrite Hf, bind_Ok_l, bool_decide_eq_false_2 by done.
    apply with_tlvError_no_panic.
Qed.

(** *** Encoding *)
Lemma Write_field done_ t rest :
  zlen (tlvValue t) ≤ MaxValueSize →
  Write (done_ ++ make_bytes (Align4 (TLVHeaderSize + zlen (tlvValue t))) ++ rest) (zlen done_)
    (tlvType t) (tlvValue t) =
  Ok (done_ ++ tlv_bytes t ++ rest, zlen (done_ ++ tlv_bytes t)).
Proof.
  intros Hv. pose proof (zlen_nonneg (tlvValue t)). pose proof (tlv_pad_range (zlen (tlvValue t))).
  rewrite Align4_pad. unfold Write, tlv_bytes, TLVHeaderSize.
  rewrite wrap_small by (unfold uint, MaxValueSize in *; lia).
  replace (3 + zlen (tlvValue t) + tlv_pad _)
    with (1 + (2 + (zlen (tlvValue t) + tlv_pad (zlen (tlvValue t))))) by lia.
  rewrite !make_bytes_app by lia. rewrite <- !app_assoc. chunks.
  do 2 f_equal. rewrite Align4_pad. unfold TLVHeaderSize. len.
Qed.

Definition tlvs_bytes (fields : list TLV) : list byte := concat (map tlv_bytes fields).

Lemma zlen_tlv_bytes t : zlen (tlv_bytes t) = Align4 (TLVHeaderSize + zlen (tlvValue t)).
Proof.
  rewrite Align4_pad. unfold tlv_bytes, TLVHeaderSize.
  pose proof (tlv_pad_range (zlen (tlvValue t))). len.
Qed.

Lemma EncodeTLVs_loop_bytes fields done_ :
  Forall (λ t, zlen (tlvValue t) ≤ MaxValueSize) fields →
  EncodeTLVs_loop fields (done_ ++ make_bytes (zlen (tlvs_bytes fields))) (zlen done_) =
  Ok (done_ ++ tlvs_bytes fields).
Proof.
  intros Hall. revert done_. induction Hall as [|t fields Hv _ IH]; intros done_; [done|].
  cbn [EncodeTLVs_loop tlvs_bytes map concat]. fold (tlvs_bytes fields).
  rewrite zlen_app, make_bytes_app by apply zlen_nonneg.
  rewrite zlen_tlv_bytes, Write_field, bind_Ok_l by done.
  rewrite !app_assoc. apply IH.
Qed.

Lemma encodedTLVsLen_loop_spec fields : ∀ total,
  0 ≤ total ≤ MaxSequenceSize →
  match encodedTLVsLen_loop fields total with
  | Ok n => n = total + zlen (tlvs_bytes fields) ∧ n ≤ MaxSequenceSize ∧
            Forall (λ t, zlen (tlvValue t) ≤ MaxValueSize) fields
  | Err e => (e = ErrTLVValueTooLarge ∨ e = ErrTLVSequenceLimit) ∧
             (MaxSequenceSize < total + zlen (tlvs_bytes fields) ∨
              Exists (λ t, MaxValueSize < zlen (tlvValue t)) fields)
  | Panic => False
  end.
Proof.
  induction fields as [|t fields IH]; intros total Ht; cbn [encodedTLVsLen_loop].
  { cbn. rewrite Z.add_0_r. split; [done|]. split; [lia|constructor]. }
  cbn [tlvs_bytes map concat]. fold (tlvs_bytes fields). rewrite zlen_app, zlen_tlv_bytes.
  pose proof (zlen_nonneg (tlvs_bytes fields)). pose proof (zlen_nonneg (tlvValue t)).
  unfold AddLen. destruct (MaxValueSize <? _) eqn:Hv.
  { cbn. split; [by left|]. right. constructor. lia. }
  destruct (_ <? Align4 _) eqn:Hn.
  { cbn. split; [by right|]. left. lia. }
  rewrite bool_decide_eq_true_2 by done. cbn [negb].
  assert (0 ≤ Align4 (TLVHeaderSize + zlen (tlvValue t))).
  { rewrite Align4_pad. pose proof (tlv_pad_range (zlen (tlvValue t))). unfold TLVHeaderSize. lia. }
  specialize (IH (total + Align4 (TLVHeaderSize + zlen (tlvValue t))) ltac:(lia)).
  destruct (encodedTLVsLen_loop fields _); [|destruct IH as [? [?|?]]|done].
  - destruct IH as (-> & ? & ?). split; [lia|]. split; [lia|]. constructor; [lia|done].
  - split; [done|]. left. lia.
  - split; [done|]. right. by constructor.
Qed.

(** The fields an encoder accepts. *)
Definition encodable (fields : list TLV) : Prop :=
  Forall (λ t, zlen (tlvValue t) ≤ MaxValueSize) fields ∧ zlen (tlvs_bytes fields) ≤ MaxSequenceSize.

Lemma tlv_bytes_min t : 4 ≤ zlen (tlv_bytes t) ∧ zlen (tlv_bytes t) mod 4 = 0.
Proof.
  rewrite zlen_tlv_bytes, Align4_pad. pose proof (zlen_nonneg (tlvValue t)).
  unfold tlv_pad, TLVHeaderSize. Z.div_mod_to_equations. lia.
Qed.

Lemma tlvs_bytes_count fields : 4 * zlen fields ≤ zlen (tlvs_bytes fields).
Proof.
  induction fields as [|t fields IH]; [done|]. cbn [tlvs_bytes map concat]. fold (tlvs_bytes fields).
  rewrite zlen_app, zlen_cons. pose proof (tlv_bytes_min t). lia.
Qed.

Lemma tlvs_bytes_aligned fields : zlen (tlvs_bytes fields) mod 4 = 0.
Proof.
  induction fields as [|t fields IH]; [done|]. cbn [tlvs_bytes map concat]. fold (tlvs_bytes fields).
  rewrite zlen_app. pose proof (tlv_bytes_min t) as [_ H]. Z.div_mod_to_equations. lia.
Qed.

Lemma encodedTLVsLen_Ok fields :
  encodable fields → encodedTLVsLen fields = Ok (zlen (tlvs_bytes fields)).
Proof.
  intros [Hall Hs]. pose proof (tlvs_bytes_count fields). unfold encodedTLVsLen, CheckCount.
  change MaxElements with 16383. unfold MaxSequenceSize in Hs.
  rewrite (proj2 (Z.ltb_ge _ _)) by lia. cbn [fKind NoFailure]. rewrite bool_decide_eq_true_2 by done.
  cbn [negb]. pose proof (encodedTLVsLen_loop_spec fields 0 ltac:(done)) as Hspec.
  destruct (encodedTLVsLen_loop fields 0); [destruct Hspec as (-> & _); f_equal; lia| |done].
  destruct Hspec as [_ [?|Hex]]; [unfold MaxSequenceSize in *; lia|].
  apply Exists_exists in Hex as (t & Hin & Ht). rewrite Forall_forall in Hall.
  specialize (Hall t Hin). lia.
Qed.

Lemma encodedTLVsLen_inv fields n :
  encodedTLVsLen fields = Ok n → encodable fields ∧ n = zlen (tlvs_bytes fields).
Proof.
  unfold encodedTLVsLen. case_bool_decide; cbn [negb]; [|by intros ?%with_tlvError_Err].
  pose proof (encodedTLVsLen_loop_spec fields 0 ltac:(done)) as Hspec. intros H1. rewrite H1 in Hspec.
  destruct Hspec as (-> & ? & ?). done.
Qed.

Lemma encodedTLVsLen_no_panic fields : encodedTLVsLen fields ≠ Panic.
Proof.
  unfold encodedTLVsLen. case_bool_decide; cbn [negb]; [|apply with_tlvError_no_panic].
  pose proof (encodedTLVsLen_loop_spec fields 0 ltac:(done)) as Hspec. by destruct (encodedTLVsLen_loop _ _).
Qed.

Lemma EncodeTLVs_Ok fields : encodable fields → EncodeTLVs fields = Ok (tlvs_bytes fields).
Proof.
  intros He. unfold EncodeTLVs. rewrite encodedTLVsLen_Ok, bind_Ok_l by done.
  destruct He. by apply (EncodeTLVs_loop_bytes fields []).
Qed.

Lemma EncodeTLVs_inv fields buf :
  EncodeTLVs fields = Ok buf → encodable fields ∧ buf = tlvs_bytes fields.
Proof.
  intros H. pose proof H as (n & [He _]%encodedTLVsLen_inv & _)%bind_Ok.
  rewrite EncodeTLVs_Ok in H by done. by injection H as <-.
Qed.

Lemma encodedTLVsLen_exact fields : encodedTLVsLen fields = zlen <$> EncodeTLVs fields.
Proof.
  pose proof (encodedTLVsLen_no_panic fields). destruct (encodedTLVsLen fields) as [n|e|] eqn:E; [|..|done].
  - apply encodedTLVsLen_inv in E as [He ->]. by rewrite EncodeTLVs_Ok.
  - unfold EncodeTLVs. by rewrite E.
Qed.

Lemma tlvs_bytes_seq fields :
  Forall (λ t, zlen (tlvValue t) ≤ MaxValueSize) fields → tlv_seq (tlvs_bytes fields) fields.
Proof.
  induction 1 as [|t fields Hv _ IH]; [constructor|]. cbn [tlvs_bytes map concat]. fold (tlvs_bytes fields).
  unfold tlv_bytes. rewrite <- !app_assoc. constructor; [done| |done].
  apply zlen_make_bytes, tlv_pad_range.
Qed.

Lemma tlv_seq_values rest fields :
  tlv_seq rest fields →
  Forall (λ t, zlen (tlvValue t) ≤ MaxValueSize) fields ∧ zlen (tlvs_bytes fields) = zlen rest.
Proof.
  induction 1 as [|t pad rest fields Hv Hp _ [IH1 IH2]]; [done|]. split; [by constructor|].
  cbn [tlvs_bytes map concat]. fold (tlvs_bytes fields).
  rewrite zlen_app, IH2, zlen_tlv_bytes, Align4_pad. unfold TLVHeaderSize. len.
Qed.

(** ** Properties *)

(** DecodeTLVs never panics and returns a field list exactly when the data is within the limits
    and is the concatenation of the fields' encodings with any padding octets up to the 4-byte
    boundary. *)
Theorem tlv_decode_exact data maxBytes :
  DecodeTLVs data maxBytes ≠ Panic ∧
  ∀ fields, DecodeTLVs data maxBytes = Ok fields ↔
    zlen data ≤ MaxTLVSequenceSize ∧ (0 < maxBytes → zlen data ≤ maxBytes) ∧ tlv_seq data fields.
Proof.
  split; [apply DecodeTLVs_no_panic|]. intros fields. split; [apply DecodeTLVs_inv|].
  intros (? & ? & ?). by apply DecodeTLVs_Ok.
Qed.

(** EncodeTLVs succeeds exactly for field lists within the element and size limits, with the
    concatenation of the padded fields, and encodedTLVsLen gives the same length or the same
    error. *)
Theorem tlv_encode_exact fields :
  encodedTLVsLen fields = zlen <$> EncodeTLVs fields ∧
  ∀ buf, EncodeTLVs fields = Ok buf ↔ encodable fields ∧ buf = concat (map tlv_bytes fields).
Proof.
  split; [apply encodedTLVsLen_exact|]. intros buf. split; [apply EncodeTLVs_inv|].
  intros [? ->]. by apply EncodeTLVs_Ok.
Qed.

(** Encoded fields decode to the same fields under any limit that admits them, the encoding is a
    multiple of four octets, and every encoding of those fields has the same length. *)
Theorem tlv_roundtrip fields buf maxBytes :
  EncodeTLVs fields = Ok buf → (0 < maxBytes → zlen buf ≤ maxBytes) →
  DecodeTLVs buf maxBytes = Ok fields ∧ zlen buf mod 4 = 0 ∧
  ∀ data, DecodeTLVs data maxBytes = Ok fields → zlen data = zlen buf.
Proof.
  intros [[Hall Hs] ->]%EncodeTLVs_inv Hm. split_and!.
  - by apply DecodeTLVs_Ok; [..|apply tlvs_bytes_seq].
  - apply tlvs_bytes_aligned.
  - intros data (_ & _ & Hseq)%DecodeTLVs_inv. symmetry. by apply tlv_seq_values.
Qed.

Definition ex_tlvs : list TLV :=
  [mkTLV (to_byte 1) [to_byte 104; to_byte 105]; mkTLV (to_byte 9) []; mkTLV (to_byte 1) [to_byte 7]].

Lemma tlv_roundtrip_witness :
  DecodeTLVs (tlvs_bytes ex_tlvs) 100 = Ok ex_tlvs ∧ zlen (tlvs_bytes ex_tlvs) mod 4 = 0 ∧
  ∀ data, DecodeTLVs data 100 = Ok ex_tlvs → zlen data = zlen (tlvs_bytes ex_tlvs).
Proof.
  refine (tlv_roundtrip ex_tlvs (tlvs_bytes ex_tlvs) 100 _ _).
  - vm_compute. reflexivity.
  - intros _. vm_compute. discriminate.
Defined.

(** The padding octets of an accepted sequence are ignored. *)
Example tlv_padding_ignored :
  DecodeTLVs [to_byte 1; to_byte 0; to_byte 0; to_byte 255] 0 = Ok [mkTLV (to_byte 1) []].
Proof. vm_compute. reflexivity. Qed.
