(* ===== verification/Utf8.v ===== *)
(** * unicode/utf8: the validity test of Go's standard library

    [utf8.Valid] and [utf8.ValidString] classify the first octet of a sequence,
    which fixes the sequence length and the range of the second octet; all
    further octets are plain continuation octets. *)

From S2P Require Import Prelude.

Local Open Scope Z_scope.

Definition within (lo hi : Z) (b : byte) : bool := (lo <=? byte_val b) && (byte_val b <=? hi).

(** A plain continuation octet. *)
Definition locb_hicb : byte → bool := within 128 191.

Fixpoint utf8_Valid (p : list byte) : bool :=
  match p with
  | [] => true
  | b0 :: p1 =>
      if within 0 127 b0 then utf8_Valid p1 else
      match p1 with
      | [] => false
      | b1 :: p2 =>
          if within 194 223 b0 then locb_hicb b1 && utf8_Valid p2 else
          match p2 with
          | [] => false
          | b2 :: p3 =>
              if within 224 224 b0 then within 160 191 b1 && locb_hicb b2 && utf8_Valid p3 else
              if within 225 236 b0 || within 238 239 b0
              then locb_hicb b1 && locb_hicb b2 && utf8_Valid p3 else
              if within 237 237 b0 then within 128 159 b1 && locb_hicb b2 && utf8_Valid p3 else
              match p3 with
              | [] => false
              | b3 :: p4 =>
                  if within 240 240 b0
                  then within 144 191 b1 && locb_hicb b2 && locb_hicb b3 && utf8_Valid p4 else
                  if within 241 243 b0
                  then locb_hicb b1 && locb_hicb b2 && locb_hicb b3 && utf8_Valid p4 else
                  if within 244 244 b0
                  then within 128 143 b1 && locb_hicb b2 && locb_hicb b3 && utf8_Valid p4 else
                  false
              end
          end
      end
  end.

(** ASCII text, an accented letter, the euro sign and an emoji are valid. *)
Example utf8_valid_text :
  utf8_Valid (map to_byte [111; 107; 195; 169; 226; 130; 172; 240; 159; 152; 128]) = true.
Proof. vm_compute. reflexivity. Qed.

(** A lone continuation octet, an overlong form, a surrogate and a truncated
    sequence are not. *)
Example utf8_invalid_text :
  map (λ p, utf8_Valid (map to_byte p)) [[128]; [192; 175]; [237; 160; 128]; [226; 130]] =
  [false; false; false; false].
Proof. vm_compute. reflexivity. Qed.
