(* ===== verification/Messages.v ===== *)
(** * messages*.go and encrypted_data_builder.go: typed message payloads

    Every message type has its record, [<Type>_MarshalBinary] and
    [<Type>_UnmarshalBinary].  The class [BinaryMessage] states what the session
    layer relies on: decoding inverts encoding, decoded values have their Go
    types, and decoding untrusted bytes never panics.  Each message type is an
    instance. *)

From S2P Require Import Prelude Wire Header Tlv Utf8.
Import wire.

Local Open Scope Z_scope.

Definition HandshakeInitFixedSize : Z := 36.
Definition HandshakeResponseFixedSize : Z := 32.
Definition HandshakeFinishFixedSize : Z := 64.
Definition MaxEncryptedPayloadSize : Z := MaxFrameSize - HeaderSize - AEADTagSize.
Definition MaxHandshakePayloadSize : Z := MaxFrameSize - HeaderSize.
Definition MaxResumptionTicketSize : Z := MaxEncryptedPayloadSize - 8.
Definition MaxReasonSize : Z := MaxEncryptedPayloadSize - 2 - TLVHeaderSize - 1.
Definition MaxErrorContextSize : Z := MaxEncryptedPayloadSize - 2.

(** ** Control messages (messages.go) *)
Record ResumptionTicket := mkResumptionTicket { rtTicket : list byte; rtValidUntil : Z }.

Definition ResumptionTicket_MarshalBinary (m : ResumptionTicket) : outcome (list byte) :=
  if (zlen (rtTicket m) =? 0) || (MaxResumptionTicketSize <? zlen (rtTicket m))
  then Err ErrResumptionTicket else
  PutTicket (make_bytes (zlen (rtTicket m) + 8)) (rtTicket m) (rtValidUntil m).

Definition ResumptionTicket_UnmarshalBinary (data : list byte) : outcome ResumptionTicket :=
  if (zlen data <? 9) || (MaxEncryptedPayloadSize <? zlen data) then Err ErrResumptionTicket else
  '(ticket, validUntil) ← ReadTicket data;
  Ok (mkResumptionTicket ticket validUntil).

Record PingPong := mkPingPong { ppIsResponse : bool; ppNonce : Z }.

Definition PingPong_MarshalBinary (m : PingPong) : outcome (list byte) :=
  PutPingPong (make_bytes PingPongSize) (ppIsResponse m) (ppNonce m).

Definition PingPong_UnmarshalBinary (data : list byte) : outcome PingPong :=
  if negb (zlen data =? PingPongSize) then Err ErrMessageLength else
  b ← at_ data 0;
  if 1 <? byte_val b then Err ErrInvalidPingResponse else
  '(response, nonce) ← ReadPingPong data;
  Ok (mkPingPong response nonce).

Record Ack := mkAck { ackSequences : list Z }.

Definition Ack_MarshalBinary (m : Ack) : outcome (list byte) :=
  if (zlen (ackSequences m) <? 1) || (MaxAckSequences <? zlen (ackSequences m)) then Err ErrAckCount else
  PutAck (make_bytes (AckSize (zlen (ackSequences m)))) (ackSequences m).

Definition Ack_UnmarshalBinary (data : list byte) : outcome Ack :=
  if zlen data <? 1 then Err ErrMessageTooShort else
  b ← at_ data 0;
  let count := byte_val b in
  if (count <? 1) || (MaxAckSequences <? count) then Err ErrAckCount else
  if negb (zlen data =? AckSize count) then Err ErrMessageLength else
  sequences ← ReadAck data (Z.to_nat count);
  Ok (mkAck sequences).

Record RekeyInit := mkRekeyInit { riEpoch : Z; riKeyConfirm : list byte }.

Definition RekeyInit_MarshalBinary (m : RekeyInit) : outcome (list byte) :=
  if riEpoch m =? 0 then Err ErrInvalidEpoch else
  PutRekeyInit (make_bytes RekeyInitSize) (riEpoch m) (riKeyConfirm m).

Definition RekeyInit_UnmarshalBinary (data : list byte) : outcome RekeyInit :=
  if negb (zlen data =? RekeyInitSize) then Err ErrMessageLength else
  '(epoch, confirm) ← ReadRekeyInit data;
  if epoch =? 0 then Err ErrInvalidEpoch else
  Ok (mkRekeyInit epoch confirm).

(** ** Handshake flights (messages_handshake.go) *)
Definition NoisePatternXX : Z := 1.
Definition NoisePatternIK : Z := 2.

Record HandshakeInit := mkHandshakeInit {
  hiPattern : Z; hiClientEphemeral : list byte; hiNoisePayload : list byte;
}.

Definition HandshakeInit_MarshalBinary (m : HandshakeInit) : outcome (list byte) :=
  if negb (hiPattern m =? NoisePatternXX) then Err ErrInvalidNoisePattern else
  if negb (zlen (hiNoisePayload m) =? 0) then Err ErrUnexpectedNoiseData else
  let total := HandshakeInitFixedSize + zlen (hiNoisePayload m) in
  if MaxHandshakePayloadSize <? total then Err ErrMessageLength else
  if negb (total mod 4 =? 0) then Err ErrHandshakeAlignment else
  buf ← put (make_bytes total) 0 [to_byte (hiPattern m)];
  buf ← copy_to buf 4 36 (hiClientEphemeral m);
  copy_to buf 36 (zlen buf) (hiNoisePayload m).

Definition HandshakeInit_UnmarshalBinary (data : list byte) : outcome HandshakeInit :=
  if zlen data <? HandshakeInitFixedSize then Err ErrMessageTooShort else
  if MaxHandshakePayloadSize <? zlen data then Err ErrMessageLength else
  if negb (zlen data mod 4 =? 0) then Err ErrHandshakeAlignment else
  b0 ← at_ data 0;
  let pattern := byte_val b0 in
  if negb (pattern =? NoisePatternXX) then Err ErrInvalidNoisePattern else
  b1 ← at_ data 1; b2 ← at_ data 2; b3 ← at_ data 3;
  if negb (byte_val b1 =? 0) || negb (byte_val b2 =? 0) || negb (byte_val b3 =? 0)
  then Err ErrMessageReserved else
  if negb (zlen data =? HandshakeInitFixedSize) then Err ErrUnexpectedNoiseData else
  ephemeral ← slice data 4 36;
  noisePayload ← slice_from data 36;
  Ok (mkHandshakeInit pattern ephemeral noisePayload).

Record HandshakeResponse := mkHandshakeResponse {
  hrServerEphemeral : list byte; hrNoisePayload : list byte;
}.

Definition HandshakeResponse_MarshalBinary (m : HandshakeResponse) : outcome (list byte) :=
  let total := HandshakeResponseFixedSize + zlen (hrNoisePayload m) in
  if negb (total =? HandshakeResponseFixedSize + 64) then Err ErrMessageLength else
  buf ← copy_to (make_bytes total) 0 32 (hrServerEphemeral m);
  copy_to buf 32 (zlen buf) (hrNoisePayload m).

Definition HandshakeResponse_UnmarshalBinary (data : list byte) : outcome HandshakeResponse :=
  if negb (zlen data =? HandshakeResponseFixedSize + 64) then Err ErrMessageLength else
  ephemeral ← slice data 0 32;
  noisePayload ← slice_from data 32;
  Ok (mkHandshakeResponse ephemeral noisePayload).

Record HandshakeFinish := mkHandshakeFinish { hfNoisePayload : list byte }.

Definition HandshakeFinish_MarshalBinary (m : HandshakeFinish) : outcome (list byte) :=
  if negb (zlen (hfNoisePayload m) =? HandshakeFinishFixedSize) then Err ErrMessageLength else
  Ok (hfNoisePayload m).

Definition HandshakeFinish_UnmarshalBinary (data : list byte) : outcome HandshakeFinish :=
  if negb (zlen data =? HandshakeFinishFixedSize) then Err ErrMessageLength else
  Ok (mkHandshakeFinish data).

(** ** Application and text messages (messages_tlv.go, messages_error.go) *)
Definition textTLVType : byte := to_byte 1.

Record EncryptedData := mkEncryptedData {
  edStreamID : Z; edAppMessageType : byte; edFields : list TLV;
}.

(** [seen] is the [[256]bool] array. *)
Fixpoint rejectDuplicateTLVs_loop (seen : list bool) (fields : list TLV) : outcome unit :=
  match fields with
  | [] => Ok tt
  | field :: rest =>
      hit ← at_ seen (byte_val (tlvType field));
      if (hit : bool) then Err ErrDuplicateMessageTLV else
      seen ← put seen (byte_val (tlvType field)) [true];
      rejectDuplicateTLVs_loop seen rest
  end.

Definition rejectDuplicateTLVs (fields : list TLV) : outcome unit :=
  rejectDuplicateTLVs_loop (replicate 256 false) fields.

Definition EncryptedData_EncodedLen (m : EncryptedData) : outcome Z :=
  _ ← rejectDuplicateTLVs (edFields m);
  fieldsLen ← encodedTLVsLen (edFields m);
  if MaxEncryptedPayloadSize - 4 <? fieldsLen then Err ErrMessageLength else
  Ok (4 + fieldsLen).

Definition ValidateFrameSize (m : EncryptedData) (padLength : Z) : outcome unit :=
  n ← EncryptedData_EncodedLen m;
  if MaxFrameSize <? HeaderSize + n + AEADTagSize + padLength then Err ErrPayloadTooLarge else
  Ok tt.

Definition EncryptedData_MarshalBinary (m : EncryptedData) : outcome (list byte) :=
  _ ← rejectDuplicateTLVs (edFields m);
  fields ← EncodeTLVs (edFields m);
  if MaxEncryptedPayloadSize - 4 <? zlen fields then Err ErrMessageLength else
  buf ← put (make_bytes 4) 0 (le_put 2 (edStreamID m));
  buf ← put buf 2 [edAppMessageType m];
  Ok (buf ++ fields).

Definition EncryptedData_UnmarshalBinary (data : list byte) : outcome EncryptedData :=
  if zlen data <? 4 then Err ErrMessageTooShort else
  b3 ← at_ data 3;
  if negb (byte_val b3 =? 0) then Err ErrMessageReserved else
  body ← slice_from data 4;
  fields ← DecodeTLVs body (MaxEncryptedPayloadSize - 4);
  _ ← rejectDuplicateTLVs fields;
  streamID ← le_read data 0 2;
  b2 ← at_ data 2;
  Ok (mkEncryptedData streamID b2 fields).

(** NewEncryptedData copies the fields; the copy of a value is the value. *)
Definition NewEncryptedData (streamID : Z) (appMessageType : byte) (fields : list TLV)
    : outcome EncryptedData :=
  let message := mkEncryptedData streamID appMessageType fields in
  _ ← EncryptedData_EncodedLen message;
  Ok (mkEncryptedData streamID appMessageType ((λ field, mkTLV (tlvType field) (tlvValue field)) <$> fields)).

Definition marshalTextMessage (code : Z) (text : list byte) : outcome (list byte) :=
  if negb (utf8_Valid text) then Err ErrInvalidUTF8 else
  if MaxReasonSize <? zlen text then Err ErrReasonTooLong else
  buf ← put (make_bytes 2) 0 (le_put 2 code);
  if bool_decide (text = []) then Ok buf else
  field ← NewTLV textTLVType text;
  encoded ← TLV_MarshalBinary field;
  Ok (buf ++ encoded).

Definition unmarshalTextMessage (data : list byte) : outcome (Z * list byte) :=
  if zlen data <? 2 then Err ErrMessageTooShort else
  code ← le_read data 0 2;
  if zlen data =? 2 then Ok (code, []) else
  body ← slice_from data 2;
  fields ← DecodeTLVs body (align4 (TLVHeaderSize + MaxReasonSize));
  _ ← rejectDuplicateTLVs fields;
  if negb (zlen fields =? 1) then Err ErrUnknownMessageTLV else
  f0 ← at_ fields 0;
  if negb (bool_decide (tlvType f0 = textTLVType)) then Err ErrUnknownMessageTLV else
  if negb (utf8_Valid (tlvValue f0)) then Err ErrInvalidUTF8 else
  Ok (code, tlvValue f0).

Record SessionClose := mkSessionClose { scCode : Z; scReason : list byte }.

Definition SessionClose_MarshalBinary (m : SessionClose) : outcome (list byte) :=
  if 3 <? scCode m then Err ErrInvalidCloseCode else
  marshalTextMessage (scCode m) (scReason m).

Definition SessionClose_UnmarshalBinary (data : list byte) : outcome SessionClose :=
  '(code, text) ← unmarshalTextMessage data;
  if 3 <? code then Err ErrInvalidCloseCode else
  Ok (mkSessionClose code text).

Record ErrorMessage := mkErrorMessage { emCode : Z; emContext : list byte }.

Definition ErrorMessage_MarshalBinary (m : ErrorMessage) : outcome (list byte) :=
  if negb (utf8_Valid (emContext m)) then Err ErrInvalidUTF8 else
  if MaxErrorContextSize <? zlen (emContext m) then Err ErrReasonTooLong else
  buf ← put (make_bytes (2 + zlen (emContext m))) 0 (le_put 2 (emCode m));
  copy_to buf 2 (zlen buf) (emContext m).

Definition unmarshalErrorMessage (data : list byte) : outcome (Z * list byte) :=
  if zlen data <? 2 then Err ErrMessageTooShort else
  if MaxEncryptedPayloadSize <? zlen data then Err ErrMessageLength else
  body ← slice_from data 2;
  if negb (utf8_Valid body) then Err ErrInvalidUTF8 else
  code ← le_read data 0 2;
  Ok (code, body).

Definition ErrorMessage_UnmarshalBinary (data : list byte) : outcome ErrorMessage :=
  '(code, text) ← unmarshalErrorMessage data;
  Ok (mkErrorMessage code text).

(** ** The codec interface *)

(** encoding.BinaryMarshaler and encoding.BinaryUnmarshaler with the laws the
    session layer uses.  [typed] is the range of values the Go type admits. *)
Class BinaryMessage (A : Type) := {
  MarshalBinary : A → outcome (list byte);
  UnmarshalBinary : list byte → outcome A;
  typed : A → Prop;
  marshal_no_panic : ∀ m, typed m → MarshalBinary m ≠ Panic;
  marshal_size : ∀ m buf, typed m → MarshalBinary m = Ok buf → zlen buf ≤ MaxEncryptedPayloadSize;
  marshal_unmarshal : ∀ m buf, typed m → MarshalBinary m = Ok buf → UnmarshalBinary buf = Ok m;
  unmarshal_typed : ∀ data m, UnmarshalBinary data = Ok m → typed m;
  unmarshal_no_panic : ∀ data, UnmarshalBinary data ≠ Panic;
}.

Ltac sizes :=
  unfold MaxErrorContextSize, MaxReasonSize, MaxResumptionTicketSize, MaxHandshakePayloadSize,
    MaxEncryptedPayloadSize, HandshakeInitFixedSize, HandshakeResponseFixedSize,
    HandshakeFinishFixedSize, MaxAckSequences, AckSize, PingPongSize, RekeyInitSize, MaxFrameSize,
    HeaderSize, AEADTagSize, TLVHeaderSize in *.

(** *** PingPong *)
Definition PingPong_layout (m : PingPong) : list byte :=
  [to_byte (if ppIsResponse m then 1 else 0)] ++ le_put 8 (ppNonce m).

Lemma PingPong_marshal m : PingPong_MarshalBinary m = Ok (PingPong_layout m).
Proof.
  unfold PingPong_MarshalBinary. rewrite <- (app_nil_r (make_bytes _)).
  rewrite PutPingPong_layout by done. by rewrite app_nil_r.
Qed.

Lemma PingPong_unmarshal m :
  uint 64 (ppNonce m) → PingPong_UnmarshalBinary (PingPong_layout m) = Ok m.
Proof.
  intros Hn. unfold PingPong_UnmarshalBinary, PingPong_layout.
  replace (zlen _) with PingPongSize by (unfold PingPongSize; len).
  rewrite Z.eqb_refl. cbn [negb]. rewrite at_first, bind_Ok_l, byte_val_to_byte by done.
  pose proof (ReadPingPong_layout (ppIsResponse m) (ppNonce m) [] Hn) as Hr. rewrite app_nil_r in Hr.
  rewrite Hr. by destruct m as [[]].
Qed.

Lemma PingPong_unmarshal_inv data :
  PingPong_UnmarshalBinary data ≠ Panic ∧
  ∀ m, PingPong_UnmarshalBinary data = Ok m → uint 64 (ppNonce m) ∧ data = PingPong_layout m.
Proof.
  unfold PingPong_UnmarshalBinary, PingPongSize.
  destruct (zlen data =? 9) eqn:Hlen; cbn [negb]; [|done].
  destruct (split_at data 1) as (b & q & -> & Hb); [lia|].
  destruct (zlen_1 b Hb) as [x ->]. destruct (byte_chunk x) as (v & -> & Hv).
  rewrite zlen_app in Hlen. destruct (le_chunk q 8) as (n & -> & Hn); [lia|].
  rewrite at_first, bind_Ok_l, byte_val_small by done.
  destruct (1 <? v) eqn:H1; [done|].
  assert (to_byte v = to_byte (if v =? 1 then 1 else 0)) as ->.
  { unfold uint in Hv. destruct (v =? 1) eqn:E; f_equal; lia. }
  pose proof (ReadPingPong_layout (v =? 1) n [] Hn) as Hr. rewrite app_nil_r in Hr. rewrite Hr.
  split; [done|]. by intros m [= <-].
Qed.

#[global] Program Instance PingPong_message : BinaryMessage PingPong := {
  MarshalBinary := PingPong_MarshalBinary;
  UnmarshalBinary := PingPong_UnmarshalBinary;
  typed m := uint 64 (ppNonce m);
}.
Next Obligation. intros m Hm. by rewrite PingPong_marshal. Qed.
Next Obligation.
  intros m buf Hm. rewrite PingPong_marshal. intros [= <-]. unfold PingPong_layout. sizes. by len.
Qed.
Next Obligation.
  intros m buf Hm. rewrite PingPong_marshal. intros [= <-]. by apply PingPong_unmarshal.
Qed.
Next Obligation. intros data m H. by apply PingPong_unmarshal_inv in H as []. Qed.
Next Obligation. intros data. apply PingPong_unmarshal_inv. Qed.

(** *** Ack *)
Definition Ack_valid (m : Ack) : Prop := 1 ≤ zlen (ackSequences m) ≤ MaxAckSequences.

Lemma Ack_marshal m :
  Ack_MarshalBinary m =
  if bool_decide (Ack_valid m) then Ok (ack_layout (ackSequences m)) else Err ErrAckCount.
Proof.
  unfold Ack_MarshalBinary, Ack_valid. case_bool_decide.
  - replace (_ || _) with false by lia. rewrite <- (app_nil_r (make_bytes _)).
    rewrite PutAck_layout by (apply zlen_make_bytes; sizes; lia). by rewrite app_nil_r.
  - by replace (_ || _) with true by lia.
Qed.

Lemma zlen_ack_layout (sequences : list Z) : zlen (ack_layout sequences) = AckSize (zlen sequences).
Proof. unfold ack_layout, AckSize. pose proof (zlen_le_puts sequences). len. Qed.

Lemma Ack_unmarshal m :
  Forall (uint 64) (ackSequences m) → Ack_valid m →
  Ack_UnmarshalBinary (ack_layout (ackSequences m)) = Ok m.
Proof.
  unfold Ack_valid. intros Hu Hv. unfold Ack_UnmarshalBinary. rewrite zlen_ack_layout.
  sizes. rewrite (proj2 (Z.ltb_ge _ _)) by lia.
  change (at_ (ack_layout (ackSequences m)) 0) with (Ok (to_byte (zlen (ackSequences m)))).
  rewrite bind_Ok_l, byte_val_small by (unfold uint; lia).
  replace (_ || _) with false by lia. rewrite Z.eqb_refl. cbn [negb].
  pose proof (ReadAck_layout (ackSequences m) [] Hu) as Hr. rewrite app_nil_r in Hr.
  unfold zlen at 1. rewrite Nat2Z.id, Hr. by destruct m.
Qed.

(** A whole number of 8-byte chunks is a list of encoded integers. *)
Lemma le_chunks n : ∀ l, zlen l = 8 * Z.of_nat n →
  ∃ vs, l = concat (map (le_put 8) vs) ∧ Forall (uint 64) vs ∧ length vs = n.
Proof.
  induction n as [|n IH]; intros l Hl; [exists []; by rewrite (zlen_0_nil l)|].
  destruct (split_at l 8) as (q & rest & -> & Hq); [lia|]. rewrite zlen_app in Hl.
  destruct (le_chunk q 8) as (v & -> & Hv); [done|].
  destruct (IH rest) as (vs & -> & Hvs & <-); [lia|]. exists (v :: vs). split_and!; [done| |done].
  by constructor.
Qed.

Lemma Ack_unmarshal_inv data :
  Ack_UnmarshalBinary data ≠ Panic ∧
  ∀ m, Ack_UnmarshalBinary data = Ok m →
       Forall (uint 64) (ackSequences m) ∧ Ack_valid m ∧ data = ack_layout (ackSequences m).
Proof.
  unfold Ack_UnmarshalBinary. destruct (zlen data <? 1) eqn:H1; [done|].
  destruct (split_at data 1) as (b & rest & -> & Hb); [lia|].
  destruct (zlen_1 b Hb) as [x ->]. destruct (byte_chunk x) as (v & -> & Hv).
  rewrite at_first, bind_Ok_l, byte_val_small by done.
  destruct (_ || _) eqn:Hc; [done|]. sizes.
  destruct (_ =? 1 + 8 * v) eqn:Hl; cbn [negb]; [|done]. rewrite zlen_app in Hl.
  destruct (le_chunks (Z.to_nat v) rest) as (vs & -> & Hu & Hvs); [len|].
  replace v with (zlen vs) by (unfold zlen; lia).
  pose proof (ReadAck_layout vs [] Hu) as Hr. rewrite app_nil_r in Hr. unfold ack_layout in Hr.
  unfold zlen at 2 4. rewrite Nat2Z.id, Hr. split; [done|]. intros m [= <-].
  split; [done|]. split; [|done]. unfold Ack_valid. cbn. sizes. unfold zlen. lia.
Qed.

#[global] Program Instance Ack_message : BinaryMessage Ack := {
  MarshalBinary := Ack_MarshalBinary;
  UnmarshalBinary := Ack_UnmarshalBinary;
  typed m := Forall (uint 64) (ackSequences m);
}.
Next Obligation. intros m _. rewrite Ack_marshal. by case_bool_decide. Qed.
Next Obligation.
  intros m buf _. rewrite Ack_marshal. case_bool_decide as Hv; [|done]. intros [= <-].
  rewrite zlen_ack_layout. unfold Ack_valid in Hv. sizes. lia.
Qed.
Next Obligation.
  intros m buf Hm. rewrite Ack_marshal. case_bool_decide; [|done]. intros [= <-]. by apply Ack_unmarshal.
Qed.
Next Obligation. intros data m H. by apply Ack_unmarshal_inv in H as (?&_). Qed.
Next Obligation. intros data. apply Ack_unmarshal_inv. Qed.

(** *** RekeyInit *)
Definition RekeyInit_typed (m : RekeyInit) : Prop := uint 32 (riEpoch m) ∧ zlen (riKeyConfirm m) = 32.
Definition RekeyInit_layout (m : RekeyInit) : list byte := le_put 4 (riEpoch m) ++ riKeyConfirm m.

Lemma RekeyInit_marshal m :
  RekeyInit_typed m →
  RekeyInit_MarshalBinary m = if riEpoch m =? 0 then Err ErrInvalidEpoch else Ok (RekeyInit_layout m).
Proof.
  intros [_ Hc]. unfold RekeyInit_MarshalBinary. destruct (riEpoch m =? 0); [done|].
  rewrite <- (app_nil_r (make_bytes _)), PutRekeyInit_layout by done.
  unfold RekeyInit_layout. by rewrite app_nil_r.
Qed.

Lemma RekeyInit_unmarshal m :
  RekeyInit_typed m → riEpoch m ≠ 0 → RekeyInit_UnmarshalBinary (RekeyInit_layout m) = Ok m.
Proof.
  intros [He Hc] H0. unfold RekeyInit_UnmarshalBinary, RekeyInit_layout.
  replace (zlen _) with RekeyInitSize by (sizes; len). rewrite Z.eqb_refl. cbn [negb].
  pose proof (ReadRekeyInit_layout (riEpoch m) (riKeyConfirm m) [] He Hc) as Hr.
  rewrite app_nil_r in Hr. rewrite Hr, bind_Ok_l.
  rewrite (proj2 (Z.eqb_neq _ _)) by done. by destruct m.
Qed.

Lemma RekeyInit_unmarshal_inv data :
  RekeyInit_UnmarshalBinary data ≠ Panic ∧
  ∀ m, RekeyInit_UnmarshalBinary data = Ok m →
       RekeyInit_typed m ∧ riEpoch m ≠ 0 ∧ data = RekeyInit_layout m.
Proof.
  unfold RekeyInit_UnmarshalBinary. sizes.
  destruct (zlen data =? 36) eqn:Hlen; cbn [negb]; [|done].
  destruct (split_at data 4) as (e & confirm & -> & He); [lia|]. rewrite zlen_app in Hlen.
  destruct (le_chunk e 4) as (epoch & -> & Hu); [done|].
  assert (zlen confirm = 32) as Hc by lia.
  pose proof (ReadRekeyInit_layout epoch confirm [] Hu Hc) as Hr. rewrite app_nil_r in Hr.
  rewrite Hr, bind_Ok_l. destruct (epoch =? 0) eqn:E; [done|]. split; [done|].
  intros m [= <-]. split; [done|]. split; [cbn; lia|done].
Qed.

#[global] Program Instance RekeyInit_message : BinaryMessage RekeyInit := {
  MarshalBinary := RekeyInit_MarshalBinary;
  UnmarshalBinary := RekeyInit_UnmarshalBinary;
  typed := RekeyInit_typed;
}.
Next Obligation. intros m Hm. rewrite RekeyInit_marshal by done. by case_match. Qed.
Next Obligation.
  intros m buf Hm. rewrite RekeyInit_marshal by done. destruct Hm.
  case_match; [done|]. intros [= <-]. unfold RekeyInit_layout. sizes. by len.
Qed.
Next Obligation.
  intros m buf Hm. rewrite RekeyInit_marshal by done. destruct (riEpoch m =? 0) eqn:E; [done|].
  intros [= <-]. apply RekeyInit_unmarshal; [done|lia].
Qed.
Next Obligation. intros data m H. by apply RekeyInit_unmarshal_inv in H as (?&_). Qed.
Next Obligation. intros data. apply RekeyInit_unmarshal_inv. Qed.

(** *** ErrorMessage *)
Definition ErrorMessage_layout (m : ErrorMessage) : list byte := le_put 2 (emCode m) ++ emContext m.
Definition ErrorMessage_valid (m : ErrorMessage) : Prop :=
  utf8_Valid (emContext m) = true ∧ zlen (emContext m) ≤ MaxErrorContextSize.

Lemma ErrorMessage_marshal m buf :
  ErrorMessage_MarshalBinary m = Ok buf ↔ ErrorMessage_valid m ∧ buf = ErrorMessage_layout m.
Proof.
  unfold ErrorMessage_MarshalBinary, ErrorMessage_valid, ErrorMessage_layout.
  pose proof (zlen_nonneg (emContext m)).
  destruct (utf8_Valid _); cbn [negb]; [|naive_solver].
  destruct (_ <? _) eqn:Hl; [split; [done|lia]|].
  rewrite make_bytes_app by lia. chunks. split; [intros [= <-]; split; [lia|done]|by intros [_ ->]].
Qed.

Lemma ErrorMessage_marshal_no_panic m : ErrorMessage_MarshalBinary m ≠ Panic.
Proof.
  unfold ErrorMessage_MarshalBinary. case_match; [done|]. case_match; [done|].
  pose proof (zlen_nonneg (emContext m)). rewrite make_bytes_app by lia. by chunks.
Qed.

Lemma ErrorMessage_unmarshal m :
  uint 16 (emCode m) → ErrorMessage_valid m → ErrorMessage_UnmarshalBinary (ErrorMessage_layout m) = Ok m.
Proof.
  intros Hc [Hu Hl]. unfold ErrorMessage_UnmarshalBinary, unmarshalErrorMessage, ErrorMessage_layout.
  pose proof (zlen_nonneg (emContext m)).
  assert (zlen (le_put 2 (emCode m) ++ emContext m) = 2 + zlen (emContext m)) as -> by len.
  rewrite !(proj2 (Z.ltb_ge _ _)) by (sizes; lia).
  rewrite slice_from_skip, bind_Ok_l, Hu by done. cbn [negb]. unfold le_read. chunks.
  rewrite le_get_small by done. by destruct m.
Qed.

Lemma ErrorMessage_unmarshal_inv data :
  ErrorMessage_UnmarshalBinary data ≠ Panic ∧
  ∀ m, ErrorMessage_UnmarshalBinary data = Ok m →
       uint 16 (emCode m) ∧ ErrorMessage_valid m ∧ data = ErrorMessage_layout m.
Proof.
  unfold ErrorMessage_UnmarshalBinary, unmarshalErrorMessage.
  destruct (zlen data <? 2) eqn:H2; [done|]. destruct (_ <? zlen data) eqn:Hm; [done|].
  destruct (split_at data 2) as (c & body & -> & Hc); [lia|].
  destruct (le_chunk c 2) as (code & -> & Hu); [done|].
  rewrite slice_from_skip, bind_Ok_l by done.
  destruct (utf8_Valid body) eqn:Hv; cbn [negb]; [|done]. unfold le_read. chunks.
  rewrite le_get_small by done. split; [done|]. intros m [= <-].
  split; [done|]. split; [|done]. split; [done|]. cbn [emContext]. sizes. apply Z.ltb_ge in Hm. len.
Qed.

#[global] Program Instance ErrorMessage_message : BinaryMessage ErrorMessage := {
  MarshalBinary := ErrorMessage_MarshalBinary;
  UnmarshalBinary := ErrorMessage_UnmarshalBinary;
  typed m := uint 16 (emCode m);
}.
Next Obligation. intros m _. apply ErrorMessage_marshal_no_panic. Qed.
Next Obligation.
  intros m buf _ [[_ Hl] ->]%ErrorMessage_marshal. unfold ErrorMessage_layout. sizes. len.
Qed.
Next Obligation. intros m buf Hm [Hv ->]%ErrorMessage_marshal. by apply ErrorMessage_unmarshal. Qed.
Next Obligation. intros data m H. by apply ErrorMessage_unmarshal_inv in H as (?&_). Qed.
Next Obligation. intros data. apply ErrorMessage_unmarshal_inv. Qed.

(** *** Duplicate field types *)

(** The array [seen] records exactly the types in [old]. *)
Definition seen_ok (seen : list bool) (old : list byte) : Prop :=
  length seen = 256%nat ∧ ∀ b, seen !! Z.to_nat (byte_val b) = Some (bool_decide (b ∈ old)).

Lemma seen_ok_put seen old b :
  seen_ok seen old →
  at_ seen (byte_val b) = Ok (bool_decide (b ∈ old)) ∧
  ∃ seen', put seen (byte_val b) [true] = Ok seen' ∧ seen_ok seen' (b :: old).
Proof.
  intros [Hl Hs]. pose proof (byte_val_range b) as Hb. split.
  { destruct (at_in_range seen (byte_val b)) as (x & -> & Hx); [unfold zlen; lia|].
    rewrite Hs in Hx. by injection Hx as ->. }
  unfold put. rewrite (proj2 (Z.leb_le _ _)), (proj2 (Z.leb_le _ _)) by (rewrite ?zlen_cons, ?zlen_nil; unfold zlen; lia).
  eexists. split; [done|]. cbn [length].
  assert (take (Z.to_nat (byte_val b)) seen ++ [true] ++ drop (Z.to_nat (byte_val b) + 1) seen
          = <[Z.to_nat (byte_val b) := true]> seen) as ->.
  { rewrite insert_take_drop by lia. by rewrite Nat.add_1_r. }
  split; [by rewrite length_insert|]. intros c. pose proof (byte_val_range c).
  destruct (decide (c = b)) as [->|Hne].
  - rewrite list_lookup_insert_eq by lia. rewrite bool_decide_eq_true_2; [done|]. left.
  - rewrite list_lookup_insert_ne, Hs.
    + f_equal. apply bool_decide_ext. rewrite elem_of_cons. naive_solver.
    + intros Heq. apply Hne, byte_val_inj. lia.
Qed.

Lemma rejectDuplicateTLVs_loop_spec fields : ∀ seen old,
  seen_ok seen old → NoDup old →
  rejectDuplicateTLVs_loop seen fields =
  if bool_decide (NoDup (rev (map tlvType fields) ++ old)) then Ok tt else Err ErrDuplicateMessageTLV.
Proof.
  induction fields as [|t fields IH]; intros seen old Hs Hnd; cbn [rejectDuplicateTLVs_loop map rev].
  { by rewrite bool_decide_eq_true_2. }
  destruct (seen_ok_put seen old (tlvType t) Hs) as (-> & seen' & -> & Hs').
  rewrite bind_Ok_l, <- app_assoc. cbn [app].
  case_bool_decide as Hin.
  - rewrite bool_decide_eq_false_2; [done|]. intros Hnd'.
    apply NoDup_app in Hnd' as (_ & _ & Hnd'). by apply NoDup_cons in Hnd' as [? _].
  - rewrite bind_Ok_l. apply IH; [done|]. by constructor.
Qed.

Lemma rejectDuplicateTLVs_spec fields :
  rejectDuplicateTLVs fields =
  if bool_decide (NoDup (map tlvType fields)) then Ok tt else Err ErrDuplicateMessageTLV.
Proof.
  unfold rejectDuplicateTLVs. rewrite (rejectDuplicateTLVs_loop_spec _ _ []); [|..|constructor].
  - rewrite app_nil_r. replace (bool_decide (NoDup (rev (map tlvType fields))))
      with (bool_decide (NoDup (map tlvType fields))); [done|].
    apply bool_decide_ext. by rewrite <- Permutation_rev.
  - split; [by rewrite length_replicate|]. intros b. pose proof (byte_val_range b).
    rewrite lookup_replicate_2 by lia. by rewrite bool_decide_eq_false_2 by apply not_elem_of_nil.
Qed.

(** *** EncryptedData *)
Definition EncryptedData_layout (m : EncryptedData) : list byte :=
  le_put 2 (edStreamID m) ++ [edAppMessageType m] ++ make_bytes 1 ++ tlvs_bytes (edFields m).
Definition EncryptedData_valid (m : EncryptedData) : Prop :=
  NoDup (map tlvType (edFields m)) ∧ Forall (λ t, zlen (tlvValue t) ≤ MaxTLVValueSize) (edFields m) ∧
  zlen (tlvs_bytes (edFields m)) ≤ MaxEncryptedPayloadSize - 4.

Lemma EncryptedData_encodable m : EncryptedData_valid m → encodable (edFields m).
Proof. intros (_ & ? & ?). split; [done|]. unfold tlv.MaxSequenceSize. sizes. lia. Qed.

Lemma EncryptedData_marshal m buf :
  EncryptedData_MarshalBinary m = Ok buf ↔ EncryptedData_valid m ∧ buf = EncryptedData_layout m.
Proof.
  unfold EncryptedData_MarshalBinary, EncryptedData_layout. rewrite rejectDuplicateTLVs_spec.
  change (make_bytes 4) with (make_bytes 2 ++ make_bytes 1 ++ make_bytes 1). split.
  - case_bool_decide as Hnd; [|done]. rewrite bind_Ok_l. intros (fields & Hf & H)%bind_Ok.
    apply EncodeTLVs_inv in Hf as [[Hall Hs] ->]. destruct (_ <? _) eqn:Hl; [done|]. revert H. chunks.
    rewrite <- !app_assoc. intros [= <-]. split; [|done]. split; [done|]. split; [done|lia].
  - intros [Hv ->]. pose proof Hv as (Hnd & Hall & Hs). rewrite bool_decide_eq_true_2, bind_Ok_l by done.
    rewrite EncodeTLVs_Ok, bind_Ok_l by by apply EncryptedData_encodable.
    rewrite (proj2 (Z.ltb_ge _ _)) by lia. chunks. by rewrite <- !app_assoc.
Qed.

Lemma EncryptedData_EncodedLen_exact m :
  EncryptedData_EncodedLen m = zlen <$> EncryptedData_MarshalBinary m.
Proof.
  unfold EncryptedData_EncodedLen, EncryptedData_MarshalBinary. rewrite encodedTLVsLen_exact.
  destruct (rejectDuplicateTLVs _) as [[]|e|]; [|done..]. rewrite !bind_Ok_l.
  destruct (EncodeTLVs _) as [fields|e|]; [|done..].
  change (zlen <$> Ok fields) with (Ok (zlen fields)). rewrite !bind_Ok_l.
  destruct (_ <? _); [done|]. change (make_bytes 4) with (make_bytes 2 ++ make_bytes 1 ++ make_bytes 1). chunks.
  cbn [fmap outcome_fmap]. f_equal. len.
Qed.

Lemma EncryptedData_marshal_no_panic m : EncryptedData_MarshalBinary m ≠ Panic.
Proof.
  pose proof (encodedTLVsLen_no_panic (edFields m)) as Hnp. rewrite encodedTLVsLen_exact in Hnp.
  unfold EncryptedData_MarshalBinary. rewrite rejectDuplicateTLVs_spec. case_bool_decide; [|done].
  rewrite bind_Ok_l. destruct (EncodeTLVs _) as [fields|e|]; [|done..]. rewrite bind_Ok_l.
  destruct (_ <? _); [done|]. change (make_bytes 4) with (make_bytes 2 ++ make_bytes 1 ++ make_bytes 1). by chunks.
Qed.

(** The decoder accepts the layout with any padding inside the TLV sequence. *)
Lemma EncryptedData_unmarshal m body :
  uint 16 (edStreamID m) → NoDup (map tlvType (edFields m)) → tlv_seq body (edFields m) →
  zlen body ≤ MaxEncryptedPayloadSize - 4 →
  EncryptedData_UnmarshalBinary (le_put 2 (edStreamID m) ++ [edAppMessageType m] ++ make_bytes 1 ++ body) = Ok m.
Proof.
  intros Hs Hnd Hseq Hl. unfold EncryptedData_UnmarshalBinary. pose proof (zlen_nonneg body).
  assert (zlen (le_put 2 (edStreamID m) ++ [edAppMessageType m] ++ make_bytes 1 ++ body) = 4 + zlen body)
    as -> by len.
  rewrite (proj2 (Z.ltb_ge _ _)) by lia. change (make_bytes 1) with [to_byte 0]. unfold le_read. chunks.
  rewrite byte_val_small by done. cbn [Z.eqb negb]. chunks.
  rewrite (DecodeTLVs_Ok _ _ (edFields m)); [|unfold tlv.MaxSequenceSize; sizes; lia|lia|done].
  rewrite bind_Ok_l, rejectDuplicateTLVs_spec, bool_decide_eq_true_2, bind_Ok_l by done. chunks.
  rewrite le_get_small by done. by destruct m.
Qed.

Lemma EncryptedData_unmarshal_inv data :
  EncryptedData_UnmarshalBinary data ≠ Panic ∧
  ∀ m, EncryptedData_UnmarshalBinary data = Ok m →
    uint 16 (edStreamID m) ∧ EncryptedData_valid m ∧
    ∃ body, data = le_put 2 (edStreamID m) ++ [edAppMessageType m] ++ make_bytes 1 ++ body ∧
            tlv_seq body (edFields m).
Proof.
  unfold EncryptedData_UnmarshalBinary. destruct (_ <? 4) eqn:H4; [done|]. apply Z.ltb_ge in H4.
  chunk data 2 as s. chunk data 1 as t. chunk data 1 as r.
  destruct (le_chunk s 2) as (sid & -> & Hs); [done|].
  destruct (zlen_1 t) as [x ->]; [done|]. destruct (zlen_1 r) as [y ->]; [done|].
  destruct (byte_chunk y) as (v & -> & Hv). unfold le_read. chunks. rewrite byte_val_small by done.
  destruct (v =? 0) eqn:Hz; cbn [negb]; [|done]. apply Z.eqb_eq in Hz as ->. chunks.
  pose proof (DecodeTLVs_no_panic data (MaxEncryptedPayloadSize - 4)) as Hnp.
  destruct (DecodeTLVs _ _) as [fields|e|] eqn:Hd; [|done..].
  apply DecodeTLVs_inv in Hd as (_ & Hl & Hseq). rewrite bind_Ok_l, rejectDuplicateTLVs_spec.
  case_bool_decide as Hnd; [|done]. rewrite bind_Ok_l. chunks.
  rewrite le_get_small by done. split; [done|]. intros m [= <-].
  cbn [edStreamID edFields edAppMessageType]. apply tlv_seq_values in Hseq as Hv'.
  destruct Hv' as [Hall Hlen]. split; [done|]. split.
  - split; [done|]. split; [done|]. cbn [edFields]. rewrite Hlen. apply Hl. done.
  - by exists data.
Qed.

#[global] Program Instance EncryptedData_message : BinaryMessage EncryptedData := {
  MarshalBinary := EncryptedData_MarshalBinary;
  UnmarshalBinary := EncryptedData_UnmarshalBinary;
  typed m := uint 16 (edStreamID m);
}.
Next Obligation. intros m _. apply EncryptedData_marshal_no_panic. Qed.
Next Obligation.
  intros m buf _ [(_ & _ & Hl) ->]%EncryptedData_marshal. unfold EncryptedData_layout. sizes. len.
Qed.
Next Obligation.
  intros m buf Hm [(Hnd & Hall & Hl) ->]%EncryptedData_marshal.
  apply EncryptedData_unmarshal; [done..| |done]. by apply tlvs_bytes_seq.
Qed.
Next Obligation. intros data m H. by apply EncryptedData_unmarshal_inv in H as (?&_). Qed.
Next Obligation. intros data. apply EncryptedData_unmarshal_inv. Qed.

(** *** SessionClose *)
Definition text_fields (text : list byte) : list TLV :=
  if bool_decide (text = []) then [] else [mkTLV textTLVType text].
Definition text_valid (text : list byte) : Prop := utf8_Valid text = true ∧ zlen text ≤ MaxReasonSize.

Lemma TLV_MarshalBinary_bytes t :
  zlen (tlvValue t) ≤ MaxTLVValueSize → TLV_MarshalBinary t = Ok (tlv_bytes t).
Proof.
  intros Hv. unfold TLV_MarshalBinary, tlv.Marshal, tlv.EncodedLen.
  rewrite (proj2 (Z.ltb_ge _ _)) by done.
  change (negb (bool_decide (tlv.fKind tlv.NoFailure = tlv.OK))) with false. cbv iota beta zeta.
  pose proof (Write_field [] t [] Hv) as Hw. cbn [app] in Hw.
  rewrite app_nil_r in Hw. change (zlen []) with 0 in Hw. rewrite Hw, !app_nil_r. done.
Qed.

Lemma marshalTextMessage_Ok code text buf :
  marshalTextMessage code text = Ok buf ↔
  text_valid text ∧ buf = le_put 2 code ++ tlvs_bytes (text_fields text).
Proof.
  unfold marshalTextMessage, text_valid, text_fields.
  destruct (utf8_Valid text); cbn [negb]; [|naive_solver].
  destruct (_ <? _) eqn:Hl; [split; [done|lia]|]. apply Z.ltb_ge in Hl.
  rewrite put_whole by len. rewrite bind_Ok_l.
  case_bool_decide as Ht; [subst; cbn; naive_solver|].
  unfold NewTLV, tlv.EncodedLen. rewrite (proj2 (Z.ltb_ge _ _)) by (unfold tlv.MaxValueSize; sizes; lia).
  change (negb (bool_decide (tlv.fKind tlv.NoFailure = tlv.OK))) with false. cbv iota beta zeta.
  rewrite bind_Ok_l, TLV_MarshalBinary_bytes, bind_Ok_l by (unfold MaxTLVValueSize; cbn; sizes; lia).
  unfold tlvs_bytes. cbn [map concat]. rewrite app_nil_r. naive_solver.
Qed.

Lemma marshalTextMessage_no_panic code text : marshalTextMessage code text ≠ Panic.
Proof.
  unfold marshalTextMessage. case_match; [done|]. destruct (_ <? _) eqn:Hl; [done|]. apply Z.ltb_ge in Hl.
  rewrite put_whole by len. rewrite bind_Ok_l. case_match; [done|].
  unfold NewTLV, tlv.EncodedLen. rewrite (proj2 (Z.ltb_ge _ _)) by (unfold tlv.MaxValueSize; sizes; lia).
  change (negb (bool_decide (tlv.fKind tlv.NoFailure = tlv.OK))) with false. cbv iota beta zeta.
  by rewrite bind_Ok_l, TLV_MarshalBinary_bytes, bind_Ok_l by (unfold MaxTLVValueSize; cbn; sizes; lia).
Qed.

Lemma text_fields_size text : text_valid text → zlen (tlvs_bytes (text_fields text)) ≤ align4 (TLVHeaderSize + MaxReasonSize).
Proof.
  intros [_ Hl]. unfold text_fields. case_bool_decide; [done|]. unfold tlvs_bytes. cbn [map concat].
  rewrite app_nil_r, zlen_tlv_bytes. unfold align4. rewrite !Align4_pad. cbn [tlvValue]. revert Hl.
  unfold tlv_pad. sizes. intros Hl. Z.div_mod_to_equations. lia.
Qed.

Lemma unmarshalTextMessage_Ok code text body :
  uint 16 code → text_valid text → tlv_seq body (text_fields text) →
  zlen body ≤ align4 (TLVHeaderSize + MaxReasonSize) →
  unmarshalTextMessage (le_put 2 code ++ body) = Ok (code, text).
Proof.
  intros Hc [Hu Hl] Hseq Hb. unfold unmarshalTextMessage. pose proof (zlen_nonneg body).
  assert (zlen (le_put 2 code ++ body) = 2 + zlen body) as -> by len.
  rewrite (proj2 (Z.ltb_ge _ _)) by lia. unfold le_read. chunks. rewrite le_get_small by done.
  pose proof (tlv_seq_length _ _ Hseq) as Hlen. unfold text_fields in *. case_bool_decide as Ht.
  - subst. inversion Hseq; subst. done.
  - rewrite zlen_cons in Hlen. change (zlen []) with 0 in Hlen. rewrite (proj2 (Z.eqb_neq _ _)) by lia. chunks.
    rewrite (DecodeTLVs_Ok _ _ [mkTLV textTLVType text]); [| |done|done].
    + rewrite bind_Ok_l, rejectDuplicateTLVs_spec, bool_decide_eq_true_2 by apply NoDup_singleton.
      rewrite bind_Ok_l. change (zlen [_]) with 1. cbn [Z.eqb Pos.eqb negb].
      change (at_ [?f] 0) with (Ok f). rewrite bind_Ok_l. cbn [tlvType tlvValue].
      rewrite bool_decide_eq_true_2 by done. cbn [negb]. by rewrite Hu.
    + change (align4 _) with 65476 in Hb. unfold tlv.MaxSequenceSize. lia.
Qed.

Lemma unmarshalTextMessage_inv data :
  unmarshalTextMessage data ≠ Panic ∧
  ∀ code text, unmarshalTextMessage data = Ok (code, text) →
    uint 16 code ∧ text_valid text ∧
    ∃ body, data = le_put 2 code ++ body ∧
            (tlv_seq body (text_fields text) ∨ text = [] ∧ tlv_seq body [mkTLV textTLVType []]).
Proof.
  unfold unmarshalTextMessage. destruct (_ <? 2) eqn:H2; [done|]. apply Z.ltb_ge in H2.
  chunk data 2 as c. destruct (le_chunk c 2) as (v & -> & Hv); [done|]. unfold le_read. chunks.
  rewrite le_get_small by done. destruct (_ =? 2) eqn:E2.
  { apply Z.eqb_eq in E2. assert (data = []) as -> by (destruct data; [done|len]).
    split; [done|]. intros ? ? [= <- <-]. split; [done|]. split; [done|]. exists [].
    split; [done|]. left. constructor. }
  chunks. pose proof (DecodeTLVs_no_panic data (align4 (TLVHeaderSize + MaxReasonSize))) as Hnp.
  destruct (DecodeTLVs _ _) as [fields|e|] eqn:Hd; [|done..].
  apply DecodeTLVs_inv in Hd as (_ & Hl & Hseq). rewrite bind_Ok_l, rejectDuplicateTLVs_spec.
  case_bool_decide as Hnd; [|done]. rewrite bind_Ok_l. destruct (_ =? 1) eqn:E1; cbn [negb]; [|done].
  apply Z.eqb_eq in E1. destruct (zlen_1 fields E1) as [[t x] ->]. change (at_ [?f] 0) with (Ok f).
  rewrite bind_Ok_l. cbn [tlvType tlvValue]. case_bool_decide as Ht; cbn [negb]; [|done]. subst t.
  destruct (utf8_Valid x) eqn:Hu; cbn [negb]; [|done]. split; [done|]. intros ? ? [= <- <-].
  split; [done|]. apply tlv_seq_values in Hseq as Hv'. destruct Hv' as [_ Hlen]. split.
  - split; [done|]. specialize (Hl ltac:(done)). change (align4 _) with 65476 in Hl. rewrite <- Hlen in Hl.
    unfold tlvs_bytes in Hl. cbn [map concat] in Hl. rewrite app_nil_r, zlen_tlv_bytes, Align4_pad in Hl.
    pose proof (tlv_pad_range (zlen x)). cbn [tlvValue] in Hl. sizes. lia.
  - exists data. split; [done|]. unfold text_fields. case_bool_decide; [subst; by right|by left].
Qed.

#[global] Program Instance SessionClose_message : BinaryMessage SessionClose := {
  MarshalBinary := SessionClose_MarshalBinary;
  UnmarshalBinary := SessionClose_UnmarshalBinary;
  typed m := uint 16 (scCode m);
}.
Next Obligation. intros m _. unfold SessionClose_MarshalBinary. case_match; [done|]. apply marshalTextMessage_no_panic. Qed.
Next Obligation.
  intros m buf _. unfold SessionClose_MarshalBinary. case_match; [done|]. rewrite marshalTextMessage_Ok.
  intros [Hv ->]. pose proof (text_fields_size _ Hv) as Hs. change (align4 _) with 65476 in Hs.
  sizes. rewrite zlen_app, zlen_le_put. lia.
Qed.
Next Obligation.
  intros m buf Hm. unfold SessionClose_MarshalBinary, SessionClose_UnmarshalBinary.
  destruct (3 <? scCode m) eqn:H3; [done|]. rewrite marshalTextMessage_Ok. intros [Hv ->].
  rewrite (unmarshalTextMessage_Ok _ (scReason m)), bind_Ok_l, H3; [by destruct m|done..| |].
  - apply tlvs_bytes_seq. unfold text_fields. case_bool_decide; [constructor|]. destruct Hv as [_ Hv].
    constructor; [|done]. unfold tlv.MaxValueSize. cbn [tlvValue]. sizes. lia.
  - by apply text_fields_size.
Qed.
Next Obligation.
  intros data m ([code text] & H & Hm)%bind_Ok. apply unmarshalTextMessage_inv in H as (? & _).
  cbn in Hm. case_match; [done|]. by injection Hm as <-.
Qed.
Next Obligation.
  intros data. unfold SessionClose_UnmarshalBinary. destruct (unmarshalTextMessage_inv data) as [Hnp _].
  destruct (unmarshalTextMessage data) as [[code text]|e|]; [|done..]. rewrite bind_Ok_l. by case_match.
Qed.

(** *** ResumptionTicket *)
Definition ResumptionTicket_layout (m : ResumptionTicket) : list byte := rtTicket m ++ le_put 8 (rtValidUntil m).
Definition ResumptionTicket_valid (m : ResumptionTicket) : Prop :=
  1 ≤ zlen (rtTicket m) ≤ MaxResumptionTicketSize.

Lemma ResumptionTicket_marshal m :
  ResumptionTicket_MarshalBinary m =
  if bool_decide (ResumptionTicket_valid m) then Ok (ResumptionTicket_layout m) else Err ErrResumptionTicket.
Proof.
  unfold ResumptionTicket_MarshalBinary, ResumptionTicket_valid. pose proof (zlen_nonneg (rtTicket m)).
  case_bool_decide.
  - replace (_ || _) with false by lia. rewrite <- (app_nil_r (make_bytes _)).
    rewrite PutTicket_layout by (apply zlen_make_bytes; lia). by rewrite app_nil_r.
  - by replace (_ || _) with true by lia.
Qed.

Lemma ResumptionTicket_unmarshal_inv data :
  ResumptionTicket_UnmarshalBinary data ≠ Panic ∧
  ∀ m, ResumptionTicket_UnmarshalBinary data = Ok m →
       uint 64 (rtValidUntil m) ∧ ResumptionTicket_valid m ∧ data = ResumptionTicket_layout m.
Proof.
  unfold ResumptionTicket_UnmarshalBinary. destruct (_ || _) eqn:Hb; [done|].
  apply orb_false_iff in Hb as [H1%Z.ltb_ge H2%Z.ltb_ge].
  destruct (split_at data (zlen data - 8)) as (t & q & E & Ht); [lia|]. rewrite E in *. clear E.
  rewrite zlen_app in *. destruct (le_chunk q 8) as (v & -> & Hv); [lia|]. rewrite zlen_le_put in *.
  rewrite ReadTicket_layout, bind_Ok_l by (done || lia). split; [done|]. intros m [= <-].
  split; [done|]. split; [|done]. unfold ResumptionTicket_valid. cbn [rtTicket]. sizes. lia.
Qed.

#[global] Program Instance ResumptionTicket_message : BinaryMessage ResumptionTicket := {
  MarshalBinary := ResumptionTicket_MarshalBinary;
  UnmarshalBinary := ResumptionTicket_UnmarshalBinary;
  typed m := uint 64 (rtValidUntil m);
}.
Next Obligation. intros m _. rewrite ResumptionTicket_marshal. by case_bool_decide. Qed.
Next Obligation.
  intros m buf _. rewrite ResumptionTicket_marshal. case_bool_decide as Hv; [|done]. intros [= <-].
  destruct Hv. unfold ResumptionTicket_layout. sizes. rewrite zlen_app, zlen_le_put. lia.
Qed.
Next Obligation.
  intros m buf Hm. rewrite ResumptionTicket_marshal. case_bool_decide as Hv; [|done]. intros [= <-].
  unfold ResumptionTicket_UnmarshalBinary, ResumptionTicket_layout. destruct Hv as [Hlo Hhi].
  rewrite ReadTicket_layout by (done || lia). rewrite zlen_app, zlen_le_put.
  rewrite !(proj2 (Z.ltb_ge _ _)) by (sizes; lia). by destruct m.
Qed.
Next Obligation. intros data m H. by apply ResumptionTicket_unmarshal_inv in H as (?&_). Qed.
Next Obligation. intros data. apply ResumptionTicket_unmarshal_inv. Qed.

(** *** Handshake flights *)
Definition HandshakeInit_layout (m : HandshakeInit) : list byte :=
  [to_byte (hiPattern m)] ++ make_bytes 3 ++ hiClientEphemeral m.
Definition HandshakeInit_valid (m : HandshakeInit) : Prop :=
  hiPattern m = NoisePatternXX ∧ hiNoisePayload m = [].

Lemma HandshakeInit_marshal m :
  zlen (hiClientEphemeral m) = 32 →
  HandshakeInit_MarshalBinary m =
  if negb (hiPattern m =? NoisePatternXX) then Err ErrInvalidNoisePattern else
  if bool_decide (hiNoisePayload m = []) then Ok (HandshakeInit_layout m) else Err ErrUnexpectedNoiseData.
Proof.
  intros He. unfold HandshakeInit_MarshalBinary. case_match; [done|].
  case_bool_decide as Hp.
  - rewrite Hp. change (zlen []) with 0. cbn [Z.eqb negb].
    change (_ <? _) with false. change (negb _) with false. cbv iota zeta.
    change (make_bytes _) with (make_bytes 1 ++ make_bytes 3 ++ make_bytes 32 ++ make_bytes 0).
    chunks. by rewrite app_nil_r.
  - rewrite (proj2 (Z.eqb_neq _ _)); [done|]. by destruct (hiNoisePayload m); [|len].
Qed.

Lemma HandshakeInit_unmarshal_inv data :
  HandshakeInit_UnmarshalBinary data ≠ Panic ∧
  ∀ m, HandshakeInit_UnmarshalBinary data = Ok m →
       zlen (hiClientEphemeral m) = 32 ∧ HandshakeInit_valid m ∧ data = HandshakeInit_layout m.
Proof.
  unfold HandshakeInit_UnmarshalBinary. destruct (_ <? _) eqn:H36; [done|]. apply Z.ltb_ge in H36.
  unfold HandshakeInitFixedSize in *. do 2 (case_match; [done|]).
  chunk data 1 as b0. chunk data 1 as b1. chunk data 1 as b2. chunk data 1 as b3.
  repeat match goal with H : zlen ?b = 1 |- _ => apply zlen_1 in H as [? ->] end.
  repeat match goal with b : byte |- _ => destruct (byte_chunk b) as (? & -> & ?) end.
  chunks. rewrite !byte_val_small by done.
  case_match eqn:Hpat; [done|].
  case_match eqn:Hres; [done|]. apply negb_false_iff, Z.eqb_eq in Hpat.
  apply orb_false_iff in Hres as [[?%negb_false_iff%Z.eqb_eq ?%negb_false_iff%Z.eqb_eq]%orb_false_iff ?%negb_false_iff%Z.eqb_eq].
  subst. case_match eqn:Hlen; [done|]. apply negb_false_iff, Z.eqb_eq in Hlen.
  chunk data 32 as e. assert (data = []) as -> by (destruct data; [done|len]). chunks.
  split; [done|]. intros m [= <-]. rewrite app_nil_r. done.
Qed.

#[global] Program Instance HandshakeInit_message : BinaryMessage HandshakeInit := {
  MarshalBinary := HandshakeInit_MarshalBinary;
  UnmarshalBinary := HandshakeInit_UnmarshalBinary;
  typed m := zlen (hiClientEphemeral m) = 32;
}.
Next Obligation. intros m Hm. rewrite HandshakeInit_marshal by done. by repeat case_match. Qed.
Next Obligation.
  intros m buf Hm. rewrite HandshakeInit_marshal by done. case_match; [done|]. case_bool_decide; [|done]. intros [= <-].
  unfold HandshakeInit_layout. sizes. len.
Qed.
Next Obligation.
  intros m buf Hm. rewrite HandshakeInit_marshal by done. case_match eqn:Hp; [done|].
  apply negb_false_iff, Z.eqb_eq in Hp. case_bool_decide as Hn; [|done]. intros [= <-].
  unfold HandshakeInit_UnmarshalBinary, HandshakeInit_layout.
  assert (zlen ([to_byte (hiPattern m)] ++ make_bytes 3 ++ hiClientEphemeral m) = 36) as -> by (rewrite !zlen_app, Hm; done).
  rewrite Hp. change (make_bytes 3) with ([to_byte 0] ++ [to_byte 0] ++ [to_byte 0]). rewrite <- !app_assoc.
  replace ([to_byte 0] ++ hiClientEphemeral m) with ([to_byte 0] ++ hiClientEphemeral m ++ []) by (by rewrite app_nil_r).
  change (_ <? _) with false. change (_ <? _) with false. change (negb (_ mod 4 =? 0)) with false. cbv iota.
  chunks. rewrite !byte_val_small by done. cbv [NoisePatternXX HandshakeInitFixedSize]. cbn [Z.eqb Pos.eqb negb orb].
  cbv beta in Hm. chunks. destruct m. by cbn in *; subst.
Qed.
Next Obligation. intros data m H. by apply HandshakeInit_unmarshal_inv in H as (?&_). Qed.
Next Obligation. intros data. apply HandshakeInit_unmarshal_inv. Qed.

Definition HandshakeResponse_layout (m : HandshakeResponse) : list byte :=
  hrServerEphemeral m ++ hrNoisePayload m.

Lemma HandshakeResponse_marshal m :
  zlen (hrServerEphemeral m) = 32 →
  HandshakeResponse_MarshalBinary m =
  if bool_decide (zlen (hrNoisePayload m) = 64) then Ok (HandshakeResponse_layout m) else Err ErrMessageLength.
Proof.
  intros He. unfold HandshakeResponse_MarshalBinary, HandshakeResponseFixedSize. case_bool_decide as Hp.
  - rewrite Hp. cbn [Z.add Pos.add Z.eqb Pos.eqb negb].
    change (make_bytes (32 + 64)) with (make_bytes 32 ++ make_bytes 64). by chunks.
  - by rewrite (proj2 (Z.eqb_neq _ _)) by lia.
Qed.

Lemma HandshakeResponse_unmarshal m :
  zlen (hrServerEphemeral m) = 32 → zlen (hrNoisePayload m) = 64 →
  HandshakeResponse_UnmarshalBinary (HandshakeResponse_layout m) = Ok m.
Proof.
  intros He Hp. unfold HandshakeResponse_UnmarshalBinary, HandshakeResponse_layout.
  rewrite zlen_app, He, Hp. cbn [negb]. change (negb _) with false. cbv iota. chunks. by destruct m.
Qed.

Lemma HandshakeResponse_unmarshal_inv data :
  HandshakeResponse_UnmarshalBinary data ≠ Panic ∧
  ∀ m, HandshakeResponse_UnmarshalBinary data = Ok m →
       zlen (hrServerEphemeral m) = 32 ∧ zlen (hrNoisePayload m) = 64 ∧ data = HandshakeResponse_layout m.
Proof.
  unfold HandshakeResponse_UnmarshalBinary, HandshakeResponseFixedSize. case_match eqn:H; [done|].
  apply negb_false_iff, Z.eqb_eq in H. chunk data 32 as e. chunks. split; [done|].
  intros m [= <-]. cbn [hrServerEphemeral hrNoisePayload]. split; [done|]. split; [len|done].
Qed.

#[global] Program Instance HandshakeResponse_message : BinaryMessage HandshakeResponse := {
  MarshalBinary := HandshakeResponse_MarshalBinary;
  UnmarshalBinary := HandshakeResponse_UnmarshalBinary;
  typed m := zlen (hrServerEphemeral m) = 32;
}.
Next Obligation. intros m Hm. rewrite HandshakeResponse_marshal by done. by case_bool_decide. Qed.
Next Obligation.
  intros m buf Hm. rewrite HandshakeResponse_marshal by done. case_bool_decide; [|done]. intros [= <-].
  unfold HandshakeResponse_layout. cbv beta in Hm. sizes. rewrite zlen_app. lia.
Qed.
Next Obligation.
  intros m buf Hm. rewrite HandshakeResponse_marshal by done. case_bool_decide; [|done]. intros [= <-].
  by apply HandshakeResponse_unmarshal.
Qed.
Next Obligation. intros data m H. by apply HandshakeResponse_unmarshal_inv in H as (?&_). Qed.
Next Obligation. intros data. apply HandshakeResponse_unmarshal_inv. Qed.

#[global] Program Instance HandshakeFinish_message : BinaryMessage HandshakeFinish := {
  MarshalBinary := HandshakeFinish_MarshalBinary;
  UnmarshalBinary := HandshakeFinish_UnmarshalBinary;
  typed m := True;
}.
Next Obligation. intros m _. unfold HandshakeFinish_MarshalBinary. by case_match. Qed.
Next Obligation.
  intros m buf _. unfold HandshakeFinish_MarshalBinary. case_match eqn:H; [done|].
  apply negb_false_iff, Z.eqb_eq in H. intros [= <-]. sizes. lia.
Qed.
Next Obligation.
  intros m buf _. unfold HandshakeFinish_MarshalBinary, HandshakeFinish_UnmarshalBinary.
  case_match eqn:H; [done|]. intros [= <-]. rewrite H. by destruct m.
Qed.
Next Obligation. done. Qed.
Next Obligation. intros data. unfold HandshakeFinish_UnmarshalBinary. by case_match. Qed.

(** ** Properties *)

(** The codec is a bijection between the accepted byte strings and the values
    the encoder accepts, and neither direction panics. *)
Definition canonical_codec {A} (typed : A → Prop) (marshal : A → outcome (list byte))
    (unmarshal : list byte → outcome A) : Prop :=
  (∀ m, typed m → marshal m ≠ Panic) ∧ (∀ data, unmarshal data ≠ Panic) ∧
  ∀ data m, unmarshal data = Ok m ↔ typed m ∧ marshal m = Ok data.

Lemma canonical_codec_intro {A} `{BinaryMessage A} :
  (∀ data m, UnmarshalBinary data = Ok m → MarshalBinary m = Ok data) →
  canonical_codec typed MarshalBinary UnmarshalBinary.
Proof.
  intros Hc. split; [exact marshal_no_panic|]. split; [exact unmarshal_no_panic|]. intros data m. split.
  - intros Hm. split; [by eapply unmarshal_typed|by apply Hc].
  - intros [Ht Hm]. by apply marshal_unmarshal.
Qed.

(** PingPong, Ack, RekeyInit, ResumptionTicket and ErrorMessage have canonical codecs: decoding
    never panics, inverts encoding, and only accepts what encoding produces. *)
Theorem control_messages_canonical :
  canonical_codec (λ m, uint 64 (ppNonce m)) PingPong_MarshalBinary PingPong_UnmarshalBinary ∧
  canonical_codec (λ m, Forall (uint 64) (ackSequences m)) Ack_MarshalBinary Ack_UnmarshalBinary ∧
  canonical_codec (λ m, uint 32 (riEpoch m) ∧ zlen (riKeyConfirm m) = 32)
    RekeyInit_MarshalBinary RekeyInit_UnmarshalBinary ∧
  canonical_codec (λ m, uint 64 (rtValidUntil m)) ResumptionTicket_MarshalBinary ResumptionTicket_UnmarshalBinary ∧
  canonical_codec (λ m, uint 16 (emCode m)) ErrorMessage_MarshalBinary ErrorMessage_UnmarshalBinary.
Proof.
  split; [|split; [|split; [|split]]];
    [ apply (@canonical_codec_intro _ PingPong_message) | apply (@canonical_codec_intro _ Ack_message)
    | apply (@canonical_codec_intro _ RekeyInit_message) | apply (@canonical_codec_intro _ ResumptionTicket_message)
    | apply (@canonical_codec_intro _ ErrorMessage_message) ]; intros data m H.
  - apply PingPong_unmarshal_inv in H as [_ ->]. apply PingPong_marshal.
  - apply Ack_unmarshal_inv in H as (_ & Hv & ->). cbn. by rewrite Ack_marshal, bool_decide_eq_true_2.
  - apply RekeyInit_unmarshal_inv in H as (Ht & Hv & ->). cbn.
    by rewrite RekeyInit_marshal, (proj2 (Z.eqb_neq _ _)).
  - apply ResumptionTicket_unmarshal_inv in H as (_ & Hv & ->). cbn.
    by rewrite ResumptionTicket_marshal, bool_decide_eq_true_2.
  - apply ErrorMessage_unmarshal_inv in H as (_ & Hv & ->). by apply ErrorMessage_marshal.
Qed.

(** The three handshake messages have canonical codecs: decoding never panics, inverts encoding
    and only accepts what encoding produces; an encoded HandshakeInit has its fixed size. *)
Theorem handshake_messages_canonical :
  canonical_codec (λ m, zlen (hiClientEphemeral m) = 32) HandshakeInit_MarshalBinary HandshakeInit_UnmarshalBinary ∧
  canonical_codec (λ m, zlen (hrServerEphemeral m) = 32)
    HandshakeResponse_MarshalBinary HandshakeResponse_UnmarshalBinary ∧
  canonical_codec (λ _, True) HandshakeFinish_MarshalBinary HandshakeFinish_UnmarshalBinary ∧
  ∀ m buf, typed m → HandshakeInit_MarshalBinary m = Ok buf → zlen buf = HandshakeInitFixedSize.
Proof.
  split; [apply (@canonical_codec_intro _ HandshakeInit_message); intros data m H|].
  2: split; [apply (@canonical_codec_intro _ HandshakeResponse_message); intros data m H|].
  3: split; [apply (@canonical_codec_intro _ HandshakeFinish_message); intros data m H|].
  - apply HandshakeInit_unmarshal_inv in H as (Ht & [Hp Hn] & ->).
    change (HandshakeInit_MarshalBinary m = Ok (HandshakeInit_layout m)).
    rewrite HandshakeInit_marshal by done. by rewrite Hp, (bool_decide_eq_true_2 _ Hn).
  - apply HandshakeResponse_unmarshal_inv in H as (Ht & Hp & ->). cbn.
    rewrite HandshakeResponse_marshal by done. by rewrite bool_decide_eq_true_2.
  - revert H. cbn. unfold HandshakeFinish_UnmarshalBinary, HandshakeFinish_MarshalBinary.
    case_match eqn:E; [done|]. intros [= <-]. cbn [hfNoisePayload]. by rewrite E.
  - intros m buf Ht. cbn in Ht. rewrite HandshakeInit_marshal by done. case_match; [done|].
    case_bool_decide; [|done]. intros [= <-]. unfold HandshakeInit_layout. rewrite !zlen_app, Ht. done.
Qed.

(** EncryptedData encodes exactly when valid, to its layout; EncodedLen is the length of the
    encoding or the same error; ValidateFrameSize holds exactly when the sealed frame fits;
    NewEncryptedData accepts exactly the valid messages. *)
Theorem encrypted_data_encode_exact m padLength :
  (∀ buf, EncryptedData_MarshalBinary m = Ok buf ↔ EncryptedData_valid m ∧ buf = EncryptedData_layout m) ∧
  EncryptedData_EncodedLen m = zlen <$> EncryptedData_MarshalBinary m ∧
  (ValidateFrameSize m padLength = Ok tt ↔
   ∃ buf, EncryptedData_MarshalBinary m = Ok buf ∧
          HeaderSize + zlen buf + AEADTagSize + padLength ≤ MaxFrameSize) ∧
  (NewEncryptedData (edStreamID m) (edAppMessageType m) (edFields m) = Ok m ↔ EncryptedData_valid m).
Proof.
  split; [apply EncryptedData_marshal|]. split; [apply EncryptedData_EncodedLen_exact|].
  unfold ValidateFrameSize, NewEncryptedData. destruct m as [sid t fields].
  cbn [edStreamID edAppMessageType edFields].
  rewrite EncryptedData_EncodedLen_exact. set (m := mkEncryptedData sid t fields).
  assert ((λ field, mkTLV (tlvType field) (tlvValue field)) <$> fields = fields) as ->.
  { rewrite <- (list_fmap_id fields) at 2. apply list_fmap_ext. by intros ? []. }
  pose proof (EncryptedData_marshal m) as Hm. destruct (EncryptedData_MarshalBinary m) as [buf|e|].
  - change (zlen <$> Ok buf) with (Ok (zlen buf)). rewrite !bind_Ok_l. destruct (proj1 (Hm buf) eq_refl) as [Hv _].
    split; [|naive_solver]. destruct (_ <? _) eqn:Hl.
    + apply Z.ltb_lt in Hl. split; [done|]. intros (buf' & [= <-] & ?). lia.
    + apply Z.ltb_ge in Hl. split; [|done]. intros _. by exists buf.
  - split; [naive_solver|]. split; [done|]. intros Hv. by pose proof (proj2 (Hm _) (conj Hv eq_refl)).
  - split; [naive_solver|]. split; [done|]. intros Hv. by pose proof (proj2 (Hm _) (conj Hv eq_refl)).
Qed.

(** EncryptedData decoding never panics and accepts exactly stream id, application type, a zero
    octet and a TLV sequence without duplicate types within the payload limit. *)
Theorem encrypted_data_decode_exact data :
  EncryptedData_UnmarshalBinary data ≠ Panic ∧
  ∀ m, EncryptedData_UnmarshalBinary data = Ok m ↔
    uint 16 (edStreamID m) ∧ NoDup (map tlvType (edFields m)) ∧
    ∃ body, data = le_put 2 (edStreamID m) ++ [edAppMessageType m] ++ make_bytes 1 ++ body ∧
            tlv_seq body (edFields m) ∧ zlen body ≤ MaxEncryptedPayloadSize - 4.
Proof.
  split; [apply EncryptedData_unmarshal_inv|]. intros m. split.
  - intros H. apply EncryptedData_unmarshal_inv in H as (Ht & (Hnd & _ & Hl) & body & -> & Hseq).
    split; [done|]. split; [done|]. exists body. split; [done|]. split; [done|].
    by apply tlv_seq_values in Hseq as [_ <-].
  - intros (Ht & Hnd & body & -> & Hseq & Hl). by apply EncryptedData_unmarshal.
Qed.

(** An encodable SessionClose decodes to itself within the payload limit; it is encodable
    exactly for a defined code and a valid UTF-8 reason that fits; whatever decodes can be
    encoded again. *)
Theorem session_close_codec m :
  uint 16 (scCode m) →
  (∀ buf, SessionClose_MarshalBinary m = Ok buf →
     SessionClose_UnmarshalBinary buf = Ok m ∧ zlen buf ≤ MaxEncryptedPayloadSize) ∧
  ((∃ buf, SessionClose_MarshalBinary m = Ok buf) ↔
     scCode m ≤ 3 ∧ utf8_Valid (scReason m) = true ∧
     2 + zlen (tlvs_bytes (text_fields (scReason m))) ≤ MaxEncryptedPayloadSize) ∧
  ∀ data, SessionClose_UnmarshalBinary data = Ok m → ∃ buf, SessionClose_MarshalBinary m = Ok buf.
Proof.
  intros Ht.
  assert ((∃ buf, SessionClose_MarshalBinary m = Ok buf) ↔ scCode m ≤ 3 ∧ text_valid (scReason m)) as Hok.
  { unfold SessionClose_MarshalBinary. destruct (3 <? scCode m) eqn:H3; [split; [by intros []|lia]|].
    setoid_rewrite marshalTextMessage_Ok. split; [intros (? & ? & _); split; [lia|done]|]. naive_solver. }
  split; [|split].
  - intros buf Hb. split; [exact (marshal_unmarshal m buf Ht Hb)|exact (marshal_size m buf Ht Hb)].
  - rewrite Hok. unfold text_valid. split; intros (H3 & Hu & Hl); (split; [done|]; split; [done|]).
    + pose proof (text_fields_size (scReason m) (conj Hu Hl)) as Hs. change (align4 _) with 65476 in Hs. sizes. lia.
    + revert Hl. unfold text_fields. case_bool_decide as He; [by rewrite He|].
      unfold tlvs_bytes. cbn [map concat]. rewrite app_nil_r, zlen_tlv_bytes, Align4_pad. cbn [tlvValue].
      unfold tlv_pad. sizes. intros Hl. Z.div_mod_to_equations. lia.
  - intros data ([code text] & H & Hm)%bind_Ok. apply Hok. apply unmarshalTextMessage_inv in H as (? & Hv & _).
    cbn in Hm. destruct (3 <? code) eqn:H3; [done|]. injection Hm as <-. cbn. split; [lia|done].
Qed.

Definition ex_close : SessionClose := mkSessionClose 2 [to_byte 98; to_byte 121; to_byte 101].

Lemma session_close_codec_witness :
  SessionClose_UnmarshalBinary
    (map to_byte [2; 0; 1; 3; 0; 98; 121; 101; 0; 0]) = Ok ex_close ∧
  ∃ buf, SessionClose_MarshalBinary ex_close = Ok buf.
Proof.
  split; [vm_compute; reflexivity|].
  apply (proj2 (proj2 (session_close_codec ex_close ltac:(decide_closed)))
           (map to_byte [2; 0; 1; 3; 0; 98; 121; 101; 0; 0])).
  vm_compute. reflexivity.
Defined.
