(* ===== verification/Replay.v ===== *)
(** * internal/replay/window.go and replay.go: the anti-replay window

    Module [replay] is the internal package: the 2048-bit bitmap is an array of
    32 words of 64 bits, [Advance] is the in-place descending shift loop.  The
    root type [ReplayWindow] wraps it with a generation counter, so that a token
    obtained from [Check] can be committed only if no other commit intervened.

    The abstract specification is the set of all sequence numbers ever committed.
    [window_rel] relates a window to that set, the theorems show that [Check] and
    [Commit] implement the set with a sliding horizon, that no sequence number is
    ever committed twice, and that the word loop is a shift of one big integer. *)

From S2P Require Import Prelude.

Local Open Scope Z_scope.

Module replay.

Definition WindowSize : Z := 2048.
Definition WordCount : Z := WindowSize / 64.

Inductive WindowError := ErrZero | ErrDuplicate | ErrTooOld | ErrStale.

#[global] Instance WindowError_eq_dec : EqDecision WindowError.
Proof. solve_decision. Defined.

(** [bitmap[distance/64] & (1 << (distance%64)) != 0] *)
Definition Marked (bitmap : list Z) (distance : Z) : outcome bool :=
  word ← at_ bitmap (distance / 64);
  Ok (negb (Z.land word (wrap 64 (Z.shiftl 1 (distance mod 64))) =? 0)).

Definition Set_ (bitmap : list Z) (distance : Z) : outcome (list Z) :=
  word ← at_ bitmap (distance / 64);
  put bitmap (distance / 64) [Z.lor word (wrap 64 (Z.shiftl 1 (distance mod 64)))].

(** The body of the loop of [Advance]: the value stored at [dst]. *)
Definition Advance_word (bitmap : list Z) (wordShift bitShift dst : Z) : outcome Z :=
  let src := dst - wordShift in
  if 0 <=? src then
    low ← at_ bitmap src;
    let value := wrap 64 (Z.shiftl low bitShift) in
    if negb (bitShift =? 0) && (0 <? src) then
      below ← at_ bitmap (src - 1);
      Ok (Z.lor value (Z.shiftr below (64 - bitShift)))
    else Ok value
  else Ok 0.

(** [for dst := n - 1; dst >= 0; dst--], overwriting the bitmap in place. *)
Fixpoint Advance_loop (n : nat) (bitmap : list Z) (wordShift bitShift : Z) : outcome (list Z) :=
  match n with
  | O => Ok bitmap
  | S dst =>
      value ← Advance_word bitmap wordShift bitShift (Z.of_nat dst);
      bitmap ← put bitmap (Z.of_nat dst) [value];
      Advance_loop dst bitmap wordShift bitShift
  end.

Definition Advance (bitmap : list Z) (shift : Z) : outcome (list Z) :=
  if WindowSize <=? shift then Ok (replicate (length bitmap) 0) else
  Advance_loop (Z.to_nat WordCount) bitmap (shift / 64) (shift mod 64).

(** A nil error is [None]. *)
Definition Check (highest : Z) (bitmap : list Z) (sequence : Z) : outcome (option WindowError) :=
  if sequence =? 0 then Ok (Some ErrZero) else
  if sequence <=? highest then
    let distance := highest - sequence in
    if WindowSize <=? distance then Ok (Some ErrTooOld) else
    marked ← Marked bitmap distance;
    if (marked : bool) then Ok (Some ErrDuplicate) else Ok None
  else Ok None.

(** The three pointer arguments are threaded as a triple. *)
Definition Commit (highest : Z) (bitmap : list Z) (generation sequence tokenGeneration : Z)
    : outcome (Z * list Z * Z * option WindowError) :=
  let stale := Ok (highest, bitmap, generation, Some ErrStale) in
  if (sequence =? 0) || negb (tokenGeneration =? generation) then stale else
  if sequence <=? highest then
    let distance := highest - sequence in
    if WindowSize <=? distance then stale else
    marked ← Marked bitmap distance;
    if (marked : bool) then stale else
    bitmap ← Set_ bitmap distance;
    Ok (highest, bitmap, wrap 64 (generation + 1), None)
  else
    bitmap ← Advance bitmap (sequence - highest);
    bitmap ← Set_ bitmap 0;
    Ok (sequence, bitmap, wrap 64 (generation + 1), None).

End replay.
Import replay.

Definition ReplayWindowSize : Z := 2048.
Definition replayWordCount : Z := ReplayWindowSize / 64.

Record ReplayWindow := mkReplayWindow { rwHighest : Z; rwBitmap : list Z; rwGeneration : Z }.
Record ReplayToken := mkReplayToken { rtokSequence : Z; rtokGeneration : Z }.

(** The zero value of the Go struct. *)
Definition zeroReplayWindow : ReplayWindow :=
  mkReplayWindow 0 (replicate (Z.to_nat replayWordCount) 0) 0.

Definition replayError (err : WindowError) : error :=
  match err with
  | ErrZero => ErrReplayZero
  | ErrDuplicate => ErrReplayDuplicate
  | ErrTooOld => ErrReplayTooOld
  | ErrStale => ErrReplayStale
  end.

Definition ReplayWindow_Check (w : ReplayWindow) (sequence : Z) : outcome ReplayToken :=
  if sequence =? 0 then Err ErrReplayZero else
  err ← Check (rwHighest w) (rwBitmap w) sequence;
  match err with
  | Some err => Err (replayError err)
  | None => Ok (mkReplayToken sequence (rwGeneration w))
  end.

Definition ReplayWindow_Commit (w : ReplayWindow) (token : ReplayToken)
    : outcome (ReplayWindow * option error) :=
  if rtokSequence token =? 0 then Ok (w, Some ErrReplayStale) else
  '(highest, bitmap, generation, err) ←
    Commit (rwHighest w) (rwBitmap w) (rwGeneration w) (rtokSequence token) (rtokGeneration token);
  Ok (mkReplayWindow highest bitmap generation, option_map replayError err).

Definition ReplayWindow_marked (w : ReplayWindow) (distance : Z) : outcome bool := Marked (rwBitmap w) distance.

Definition ReplayWindow_set (w : ReplayWindow) (distance : Z) : outcome ReplayWindow :=
  bitmap ← Set_ (rwBitmap w) distance;
  Ok (mkReplayWindow (rwHighest w) bitmap (rwGeneration w)).

Definition ReplayWindow_advance (w : ReplayWindow) (shift : Z) : outcome ReplayWindow :=
  bitmap ← Advance (rwBitmap w) shift;
  Ok (mkReplayWindow (rwHighest w) bitmap (rwGeneration w)).

(** ** Bits of the bitmap *)
Definition bitmap_ok (bitmap : list Z) : Prop := length bitmap = 32%nat ∧ Forall (uint 64) bitmap.

(** The bit at [distance]; false outside the array. *)
Definition bit (bitmap : list Z) (distance : Z) : bool :=
  bool_decide (0 ≤ distance) && Z.testbit (default 0 (bitmap !! Z.to_nat (distance / 64))) (distance mod 64).

Lemma word_lookup bitmap i :
  bitmap_ok bitmap → 0 ≤ i < 32 → ∃ w, at_ bitmap i = Ok w ∧ bitmap !! Z.to_nat i = Some w ∧ uint 64 w.
Proof.
  intros [Hl Hw] Hi. destruct (at_in_range bitmap i) as (w & Ha & Hlk); [unfold zlen; lia|].
  exists w. split; [done|]. split; [done|]. by eapply Forall_lookup_1.
Qed.

Lemma testbit_high x i : uint 64 x → 64 ≤ i → Z.testbit x i = false.
Proof.
  intros [? ?] ?. destruct (decide (x = 0)) as [->|]; [apply Z.bits_0|].
  apply Z.bits_above_log2; [done|]. apply Z.log2_lt_pow2; [lia|].
  eapply Z.lt_le_trans; [done|]. apply Z.pow_le_mono_r; lia.
Qed.

Lemma uint_testbit x : (∀ i, 64 ≤ i → Z.testbit x i = false) → x mod 2 ^ 64 = x.
Proof.
  intros H. apply Z.bits_inj'. intros i Hi. destruct (decide (i < 64)).
  - by rewrite Z.mod_pow2_bits_low.
  - rewrite Z.mod_pow2_bits_high by lia. by rewrite H by lia.
Qed.

Lemma uint_lor x y : uint 64 x → uint 64 y → uint 64 (Z.lor x y).
Proof.
  intros Hx Hy. unfold uint. rewrite <- (uint_testbit (Z.lor x y)); [apply Z.mod_pos_bound; lia|].
  intros i Hi. by rewrite Z.lor_spec, !testbit_high.
Qed.

(** The mask of one bit. *)
Lemma mask_small j : 0 ≤ j < 64 → wrap 64 (Z.shiftl 1 j) = 2 ^ j.
Proof.
  intros. rewrite Z.shiftl_1_l. apply wrap_small. split; [lia|]. apply Z.pow_lt_mono_r; lia.
Qed.

Lemma land_mask w j : 0 ≤ j → negb (Z.land w (2 ^ j) =? 0) = Z.testbit w j.
Proof.
  intros Hj. destruct (Z.testbit w j) eqn:E.
  - apply negb_true_iff, Z.eqb_neq. intros H0.
    assert (Z.testbit (Z.land w (2 ^ j)) j = true) as Hb by (by rewrite Z.land_spec, E, Z.pow2_bits_true).
    rewrite H0, Z.bits_0 in Hb. done.
  - apply negb_false_iff, Z.eqb_eq. apply Z.bits_inj'. intros i Hi. rewrite Z.land_spec, Z.bits_0.
    destruct (decide (i = j)) as [->|]; [by rewrite E|]. rewrite Z.pow2_bits_false by done. apply andb_false_r.
Qed.

Lemma Marked_bit bitmap d : bitmap_ok bitmap → 0 ≤ d < WindowSize → Marked bitmap d = Ok (bit bitmap d).
Proof.
  intros Hb Hd. unfold Marked, bit, WindowSize in *.
  destruct (word_lookup bitmap (d / 64)) as (w & -> & -> & _); [done|Z.div_mod_to_equations; lia|].
  pose proof (Z.mod_pos_bound d 64 ltac:(lia)). rewrite bind_Ok_l, mask_small, land_mask by lia.
  by rewrite bool_decide_eq_true_2 by lia.
Qed.

(** Storing one word. *)
Lemma put_word bitmap i v :
  bitmap_ok bitmap → 0 ≤ i < 32 → uint 64 v →
  put bitmap i [v] = Ok (<[Z.to_nat i := v]> bitmap) ∧ bitmap_ok (<[Z.to_nat i := v]> bitmap).
Proof.
  intros [Hl Hw] Hi Hv. split.
  - unfold put. change (zlen [v]) with 1. unfold zlen. rewrite Hl.
    rewrite !(proj2 (Z.leb_le _ _)) by lia. cbn [andb]. f_equal. cbn [length].
    rewrite insert_take_drop by lia. by rewrite Nat.add_1_r.
  - split; [by rewrite length_insert|]. by apply Forall_insert.
Qed.

Lemma Set_bit bitmap d :
  bitmap_ok bitmap → 0 ≤ d < WindowSize →
  ∃ bitmap', Set_ bitmap d = Ok bitmap' ∧ bitmap_ok bitmap' ∧
    ∀ e, bit bitmap' e = bool_decide (e = d) || bit bitmap e.
Proof.
  intros Hb Hd. unfold WindowSize in Hd. unfold Set_.
  assert (0 ≤ d / 64 < 32) as Hi by (Z.div_mod_to_equations; lia).
  pose proof (Z.mod_pos_bound d 64 ltac:(lia)) as Hm.
  destruct (word_lookup bitmap (d / 64)) as (w & -> & Hlk & Hw); [done..|].
  rewrite bind_Ok_l, mask_small by lia.
  destruct (put_word bitmap (d / 64) (Z.lor w (2 ^ (d mod 64)))) as [-> Hok]; [done..| |].
  { apply uint_lor; [done|]. split; [lia|]. apply Z.pow_lt_mono_r; lia. }
  eexists. split; [done|]. split; [done|]. intros e. unfold bit.
  destruct (decide (0 ≤ e)) as [He|]; [|rewrite !bool_decide_eq_false_2 by lia; done].
  rewrite (bool_decide_eq_true_2 (0 ≤ e)) by done. cbn [andb].
  destruct (decide (e / 64 = d / 64)) as [Eq|Ne].
  - rewrite Eq, list_lookup_insert_eq, Hlk by (destruct Hb; lia). cbn [from_option]. unfold id.
    rewrite Z.lor_spec, Z.pow2_bits_eqb by lia. rewrite orb_comm. f_equal.
    apply eq_true_iff_eq. rewrite Z.eqb_eq, bool_decide_eq_true. Z.div_mod_to_equations. lia.
  - rewrite list_lookup_insert_ne by (Z.div_mod_to_equations; lia).
    rewrite bool_decide_eq_false_2; [done|]. by intros ->.
Qed.

(** ** The shift loop *)

(** Two bitmaps that agree on the first [n] words. *)
Definition agree (n : nat) (b b' : list Z) : Prop := ∀ i, (i < n)%nat → b !! i = b' !! i.

(** The word written at [dst] reads only words at or below [dst] and has the
    shifted bits. *)
Lemma Advance_word_bits bitmap ws bs dst :
  bitmap_ok bitmap → 0 ≤ ws → 0 ≤ bs < 64 → 0 ≤ dst < 32 →
  ∃ v, Advance_word bitmap ws bs dst = Ok v ∧ uint 64 v ∧
    ∀ j, 0 ≤ j < 64 → Z.testbit v j = bit bitmap (64 * dst + j - (64 * ws + bs)).
Proof.
  intros Hb Hws Hbs Hd. unfold Advance_word. destruct (0 <=? dst - ws) eqn:Hs; [apply Z.leb_le in Hs|apply Z.leb_gt in Hs].
  2:{ exists 0. split; [done|]. split; [done|]. intros j Hj. rewrite Z.bits_0. unfold bit.
      by rewrite bool_decide_eq_false_2 by lia. }
  destruct (word_lookup bitmap (dst - ws)) as (w & -> & Hlk & Hw); [done|lia|]. rewrite bind_Ok_l.
  assert (∀ j, 0 ≤ j < 64 → Z.testbit (wrap 64 (Z.shiftl w bs)) j = bool_decide (bs ≤ j) && Z.testbit w (j - bs)) as Hhi.
  { intros j Hj. unfold wrap. rewrite Z.mod_pow2_bits_low, Z.shiftl_spec by lia. case_bool_decide; [done|].
    by rewrite Z.testbit_neg_r by lia. }
  assert (∀ j, bs ≤ j < 64 → Z.testbit w (j - bs) = bit bitmap (64 * dst + j - (64 * ws + bs))) as Hw1.
  { intros j Hj. unfold bit. rewrite bool_decide_eq_true_2 by lia.
    replace ((64 * dst + j - (64 * ws + bs)) / 64) with (dst - ws) by (Z.div_mod_to_equations; lia).
    replace ((64 * dst + j - (64 * ws + bs)) mod 64) with (j - bs) by (Z.div_mod_to_equations; lia).
    by rewrite Hlk. }
  destruct (negb (bs =? 0) && (0 <? dst - ws)) eqn:Hc.
  - apply andb_true_iff in Hc as [Hbs0%negb_true_iff%Z.eqb_neq Hpos%Z.ltb_lt].
    destruct (word_lookup bitmap (dst - ws - 1)) as (w' & -> & Hlk' & Hw'); [done|lia|]. rewrite bind_Ok_l.
    eexists. split; [done|]. split.
    { apply uint_lor; [by apply wrap_uint|]. split; [apply Z.shiftr_nonneg, Hw'|].
      rewrite Z.shiftr_div_pow2 by lia. apply Z.div_lt_upper_bound; [lia|].
      destruct Hw' as [_ Hw']. pose proof (Z.pow_pos_nonneg 2 (64 - bs)). nia. }
    intros j Hj. rewrite Z.lor_spec, Hhi, Z.shiftr_spec by lia. case_bool_decide.
    + cbn [andb]. rewrite Hw1, (testbit_high w') by (done || lia). apply orb_false_r.
    + cbn [andb orb]. unfold bit. rewrite bool_decide_eq_true_2 by lia.
      replace ((64 * dst + j - (64 * ws + bs)) / 64) with (dst - ws - 1) by (Z.div_mod_to_equations; lia).
      replace ((64 * dst + j - (64 * ws + bs)) mod 64) with (j + (64 - bs)) by (Z.div_mod_to_equations; lia).
      by rewrite Hlk'.
  - eexists. split; [done|]. split; [by apply wrap_uint|]. intros j Hj. rewrite Hhi by lia.
    case_bool_decide; [cbn [andb]; apply Hw1; lia|]. cbn [andb]. unfold bit. rewrite bool_decide_eq_false_2; [done|].
    apply andb_false_iff in Hc as [Hc%negb_false_iff%Z.eqb_eq|Hc%Z.ltb_ge]; lia.
Qed.

Lemma Advance_word_agree b b' ws bs dst :
  bitmap_ok b → bitmap_ok b' → 0 ≤ ws → 0 ≤ dst < 32 → agree (Z.to_nat dst + 1) b b' →
  Advance_word b ws bs dst = Advance_word b' ws bs dst.
Proof.
  intros Hb Hb' Hws Hd Hag. unfold Advance_word.
  assert (∀ i, 0 ≤ i ≤ dst → at_ b i = at_ b' i) as Hat.
  { intros i Hi. unfold at_. by rewrite Hag by lia. }
  destruct (0 <=? dst - ws) eqn:Hs; [apply Z.leb_le in Hs|done]. rewrite (Hat (dst - ws)) by lia.
  destruct (at_ b' (dst - ws)); [|done..]. rewrite !bind_Ok_l.
  destruct (negb (bs =? 0) && (0 <? dst - ws)) eqn:Hc; [|done].
  apply andb_true_iff in Hc as [_ Hpos%Z.ltb_lt]. by rewrite Hat by lia.
Qed.

Lemma Advance_loop_words ws bs bitmap0 :
  bitmap_ok bitmap0 → 0 ≤ ws → 0 ≤ bs < 64 →
  ∀ n bitmap, (n ≤ 32)%nat → bitmap_ok bitmap → agree n bitmap0 bitmap →
  ∃ bitmap', Advance_loop n bitmap ws bs = Ok bitmap' ∧ bitmap_ok bitmap' ∧
    (∀ i, (n ≤ i)%nat → bitmap' !! i = bitmap !! i) ∧
    ∀ i, (i < n)%nat → ∃ v, bitmap' !! i = Some v ∧ Advance_word bitmap0 ws bs (Z.of_nat i) = Ok v.
Proof.
  intros Hb0 Hws Hbs. induction n as [|n IH]; intros bitmap Hn Hb Hag.
  { exists bitmap. split; [done|]. split; [done|]. split; [done|]. lia. }
  cbn [Advance_loop].
  destruct (Advance_word_bits bitmap0 ws bs (Z.of_nat n)) as (v & Hv & Hu & _); [done..|lia|].
  rewrite <- (Advance_word_agree bitmap0 bitmap), Hv, bind_Ok_l;
    [|done..|lia|by rewrite Nat2Z.id, Nat.add_1_r].
  destruct (put_word bitmap (Z.of_nat n) v) as [-> Hb']; [done|lia|done|]. rewrite bind_Ok_l.
  rewrite Nat2Z.id in *. destruct (IH (<[n := v]> bitmap)) as (bitmap' & -> & Hb'' & Hhi & Hlo).
  - lia.
  - done.
  - intros i Hi. rewrite list_lookup_insert_ne by lia. apply Hag. lia.
  - exists bitmap'. split; [done|]. split; [done|]. split.
    + intros i Hi. rewrite Hhi, list_lookup_insert_ne by lia. done.
    + intros i Hi. destruct (decide (i = n)) as [->|]; [|apply Hlo; lia]. exists v.
      rewrite Hhi, list_lookup_insert_eq by (destruct Hb; lia). done.
Qed.

Lemma Advance_bits bitmap shift :
  bitmap_ok bitmap → 0 ≤ shift →
  ∃ bitmap', Advance bitmap shift = Ok bitmap' ∧ bitmap_ok bitmap' ∧
    ∀ d, 0 ≤ d < WindowSize → bit bitmap' d = bit bitmap (d - shift).
Proof.
  intros Hb Hs. unfold Advance. destruct (WindowSize <=? shift) eqn:Hw; [apply Z.leb_le in Hw|apply Z.leb_gt in Hw].
  - eexists. split; [done|]. destruct Hb as [Hl _]. split.
    + split; [by rewrite length_replicate|]. by apply Forall_replicate.
    + intros d Hd. unfold bit. rewrite (bool_decide_eq_false_2 (0 ≤ d - shift)) by lia.
      rewrite lookup_replicate_2 by (unfold WindowSize in *; Z.div_mod_to_equations; lia).
      cbn [from_option]. unfold id. rewrite Z.bits_0. apply andb_false_r.
  - pose proof (Z.mod_pos_bound shift 64 ltac:(lia)).
    assert (0 ≤ shift / 64) by (Z.div_mod_to_equations; lia).
    destruct (Advance_loop_words (shift / 64) (shift mod 64) bitmap Hb ltac:(done) ltac:(done) (Z.to_nat WordCount) bitmap)
      as (bitmap' & Ha & Hb' & _ & Hlo); [done|done|done|]. exists bitmap'. split; [done|]. split; [done|].
    intros d Hd. unfold WindowSize in Hd. destruct (Hlo (Z.to_nat (d / 64))) as (v & Hlk & Hv).
    { change (Z.to_nat WordCount) with 32%nat. Z.div_mod_to_equations. lia. }
    unfold bit at 1. rewrite Hlk, bool_decide_eq_true_2 by lia. cbn [from_option andb]. unfold id.
    destruct (Advance_word_bits bitmap (shift / 64) (shift mod 64) (d / 64)) as (v' & Hv' & _ & Hbits);
      [done..|Z.div_mod_to_equations; lia|].
    rewrite Z2Nat.id, Hv' in Hv by (Z.div_mod_to_equations; lia). injection Hv as ->.
    rewrite Hbits by (Z.div_mod_to_equations; lia). f_equal. Z.div_mod_to_equations. lia.
Qed.

(** ** The abstract specification: a set with a sliding horizon *)
Record SeenSet := mkSeenSet { seenSet : gset Z; seenTop : Z }.

Definition seen_empty : SeenSet := mkSeenSet ∅ 0.
Definition seen_check (a : SeenSet) (sequence : Z) : option error :=
  if sequence =? 0 then Some ErrReplayZero
  else if ReplayWindowSize <=? seenTop a - sequence then Some ErrReplayTooOld
  else if bool_decide (sequence ∈ seenSet a) then Some ErrReplayDuplicate else None.
Definition seen_accept (a : SeenSet) (sequence : Z) : SeenSet :=
  mkSeenSet ({[sequence]} ∪ seenSet a) (Z.max (seenTop a) sequence).

(** The simulation relation. *)
Record window_rel (w : ReplayWindow) (a : SeenSet) : Prop := {
  rel_bitmap : bitmap_ok (rwBitmap w);
  rel_highest : rwHighest w = seenTop a;
  rel_top : uint 64 (seenTop a);
  rel_generation : uint 64 (rwGeneration w);
  rel_range : ∀ s, s ∈ seenSet a → 1 ≤ s ≤ seenTop a;
  rel_bits : ∀ d, 0 ≤ d < WindowSize → bit (rwBitmap w) d = bool_decide (seenTop a - d ∈ seenSet a);
}.

Lemma window_rel_zero : window_rel zeroReplayWindow seen_empty.
Proof.
  split; try done.
  - split; [done|]. by apply Forall_replicate.
  - intros d Hd. rewrite bool_decide_eq_false_2 by (cbn; set_solver). unfold bit. cbn [rwBitmap zeroReplayWindow].
    rewrite lookup_replicate_2.
    + cbn [from_option]. unfold id. rewrite Z.bits_0. apply andb_false_r.
    + change (Z.to_nat replayWordCount) with 32%nat. unfold WindowSize in Hd. Z.div_mod_to_equations. lia.
Qed.

Lemma Check_spec w a s :
  window_rel w a → uint 64 s →
  ReplayWindow_Check w s =
  match seen_check a s with Some e => Err e | None => Ok (mkReplayToken s (rwGeneration w)) end.
Proof.
  intros [Hb Hh Ht Hg Hr Hbits] Hs. unfold ReplayWindow_Check, seen_check, Check. rewrite Hh.
  destruct (s =? 0) eqn:H0; [done|]. change ReplayWindowSize with WindowSize.
  apply Z.eqb_neq in H0. destruct (s <=? seenTop a) eqn:Hle; [apply Z.leb_le in Hle|apply Z.leb_gt in Hle].
  - destruct (WindowSize <=? seenTop a - s) eqn:Hw; [done|]. apply Z.leb_gt in Hw.
    rewrite Marked_bit, Hbits by (done || lia). replace (seenTop a - (seenTop a - s)) with s by lia.
    rewrite bind_Ok_l. by case_bool_decide.
  - rewrite (proj2 (Z.leb_gt _ _)) by (unfold WindowSize; lia). rewrite bool_decide_eq_false_2; [done|].
    intros Hin%Hr. lia.
Qed.

(** Committing a sequence number the specification accepts. *)
Lemma Commit_accept w a s :
  window_rel w a → uint 64 s → seen_check a s = None →
  ∃ w', ReplayWindow_Commit w (mkReplayToken s (rwGeneration w)) = Ok (w', None) ∧
    window_rel w' (seen_accept a s) ∧ rwGeneration w' = wrap 64 (rwGeneration w + 1).
Proof.
  intros [Hb Hh Ht Hg Hr Hbits] [Hs0 Hs] Hc. unfold seen_check in Hc. change ReplayWindowSize with WindowSize in Hc.
  destruct (s =? 0) eqn:H0; [done|]. destruct (WindowSize <=? _) eqn:Hw; [done|]. apply Z.leb_gt in Hw.
  case_bool_decide as Hin; [done|]. unfold ReplayWindow_Commit, Commit. cbn [rtokSequence rtokGeneration].
  rewrite H0, Z.eqb_refl, Hh. cbn [orb negb]. apply Z.eqb_neq in H0.
  assert (uint 64 (wrap 64 (rwGeneration w + 1))) as Hg' by by apply wrap_uint.
  destruct (s <=? seenTop a) eqn:Hle; [apply Z.leb_le in Hle|apply Z.leb_gt in Hle].
  - rewrite (proj2 (Z.leb_gt _ _)) by lia. rewrite Marked_bit, Hbits by (done || lia).
    replace (seenTop a - (seenTop a - s)) with s by lia. rewrite bool_decide_eq_false_2, bind_Ok_l by done.
    destruct (Set_bit (rwBitmap w) (seenTop a - s)) as (b' & -> & Hb' & Hset); [done|lia|]. rewrite !bind_Ok_l.
    eexists. split; [done|]. split; [|done]. split; cbn -[wrap]; try done; try (unfold uint in *; lia).
    + intros t. rewrite elem_of_union, elem_of_singleton. intros [->|Hin'%Hr]; lia.
    + intros d Hd. rewrite Hset, Hbits by done. rewrite Z.max_l by done. apply eq_true_iff_eq.
      rewrite orb_true_iff, !bool_decide_eq_true, elem_of_union, elem_of_singleton.
      split; (intros [?|?]; [left; lia|by right]).
  - destruct (Advance_bits (rwBitmap w) (s - seenTop a)) as (b1 & -> & Hb1 & Hadv); [done|lia|]. rewrite bind_Ok_l.
    destruct (Set_bit b1 0) as (b' & -> & Hb' & Hset); [done|done|]. rewrite !bind_Ok_l.
    eexists. split; [done|]. split; [|done]. split; cbn -[wrap]; try done; try (unfold uint in *; lia).
    + intros t. rewrite elem_of_union, elem_of_singleton. intros [->|Hin'%Hr]; lia.
    + intros d Hd. rewrite Hset, Hadv, Z.max_r by (done || lia). apply eq_true_iff_eq.
      rewrite orb_true_iff, !bool_decide_eq_true, elem_of_union, elem_of_singleton.
      destruct (decide (0 ≤ d - (s - seenTop a))).
      * rewrite Hbits, bool_decide_eq_true by lia. replace (seenTop a - (d - (s - seenTop a))) with (s - d) by lia.
        split; (intros [?|?]; [left; lia|by right]).
      * unfold bit. rewrite (bool_decide_eq_false_2 (0 ≤ _)) by done. split; [intros [->|?]; [lia|done]|].
        intros [?|?%Hr]; [lia|lia].
Qed.

Lemma Commit_stale w a token :
  window_rel w a → uint 64 (rtokSequence token) →
  rtokGeneration token ≠ rwGeneration w ∨ seen_check a (rtokSequence token) ≠ None →
  ReplayWindow_Commit w token = Ok (w, Some ErrReplayStale).
Proof.
  intros [Hb Hh Ht Hg Hr Hbits] [Hs0 Hs] Hc. destruct w as [highest bitmap generation]. cbn in *. subst highest.
  unfold ReplayWindow_Commit, Commit. cbn [rwHighest rwBitmap rwGeneration].
  destruct (rtokSequence token =? 0) eqn:H0; [done|]. cbn [orb].
  destruct (rtokGeneration token =? generation) eqn:Heq; [|done]. apply Z.eqb_eq in Heq. cbn [negb].
  destruct Hc as [?|Hc]; [done|]. unfold seen_check in Hc. change ReplayWindowSize with WindowSize in Hc.
  rewrite H0 in Hc. destruct (_ <=? seenTop a) eqn:Hle; [apply Z.leb_le in Hle|apply Z.leb_gt in Hle].
  - destruct (WindowSize <=? _) eqn:Hw; [done|]. apply Z.leb_gt in Hw.
    rewrite Marked_bit, Hbits by (done || lia).
    replace (seenTop a - (seenTop a - rtokSequence token)) with (rtokSequence token) by lia.
    rewrite bind_Ok_l. by case_bool_decide.
  - rewrite (proj2 (Z.leb_gt _ _)) in Hc by (unfold WindowSize; lia).
    rewrite bool_decide_eq_false_2 in Hc; [done|]. intros Hin%Hr. lia.
Qed.

(** ** Histories *)
Inductive ReplayOp := OpCheck (sequence : Z) | OpCommit (token : ReplayToken).

Definition ReplayOp_typed (op : ReplayOp) : Prop :=
  match op with OpCheck s => uint 64 s | OpCommit token => uint 64 (rtokSequence token) end.

#[global] Instance ReplayOp_typed_dec op : Decision (ReplayOp_typed op).
Proof. destruct op; apply _. Defined.

(** Any interleaving of checks and commits, with arbitrary tokens; returns the
    final window and the sequence numbers whose commit succeeded, latest first. *)
Fixpoint replay_run (w : ReplayWindow) (committed : list Z) (ops : list ReplayOp)
    : outcome (ReplayWindow * list Z) :=
  match ops with
  | [] => Ok (w, committed)
  | OpCheck s :: ops =>
      match ReplayWindow_Check w s with Panic => Panic | _ => replay_run w committed ops end
  | OpCommit token :: ops =>
      '(w, err) ← ReplayWindow_Commit w token;
      replay_run w (match err with None => rtokSequence token :: committed | Some _ => committed end) ops
  end.

Lemma Check_no_panic w a s : window_rel w a → uint 64 s → ReplayWindow_Check w s ≠ Panic.
Proof. intros Hw Hs. rewrite (Check_spec w a) by done. by destruct (seen_check a s). Qed.

(** Every commit is either stale or accepted by the specification. *)
Lemma Commit_cases w a token :
  window_rel w a → uint 64 (rtokSequence token) →
  (rtokGeneration token ≠ rwGeneration w ∨ seen_check a (rtokSequence token) ≠ None) ∧
    ReplayWindow_Commit w token = Ok (w, Some ErrReplayStale) ∨
  (rtokGeneration token = rwGeneration w ∧ seen_check a (rtokSequence token) = None) ∧
    ∃ w', ReplayWindow_Commit w token = Ok (w', None) ∧ window_rel w' (seen_accept a (rtokSequence token)) ∧
      rwGeneration w' = wrap 64 (rwGeneration w + 1).
Proof.
  intros Hw Hs. destruct (decide (rtokGeneration token = rwGeneration w)) as [Heq|];
    [destruct (seen_check a (rtokSequence token)) eqn:E|].
  - left. split; [by right|]. apply (Commit_stale w a); [done..|]. right. by rewrite E.
  - right. split; [done|]. destruct token as [s g]. cbn in *. subst. by apply (Commit_accept w a).
  - left. split; [by left|]. apply (Commit_stale w a); [done..|]. by left.
Qed.

Lemma seen_check_fresh a s : seen_check a s = None → s ∉ seenSet a.
Proof. unfold seen_check. do 2 (case_match; [done|]). by case_bool_decide. Qed.

Lemma replay_run_inv ops : ∀ w a committed,
  window_rel w a → NoDup committed → (∀ s, s ∈ committed ↔ s ∈ seenSet a) → Forall ReplayOp_typed ops →
  ∃ w' a' committed', replay_run w committed ops = Ok (w', committed') ∧
    window_rel w' a' ∧ NoDup committed' ∧ (∀ s, s ∈ committed' ↔ s ∈ seenSet a').
Proof.
  induction ops as [|op ops IH]; intros w a committed Hw Hnd Hin Hall.
  { by exists w, a, committed. }
  apply Forall_cons in Hall as [Hop Hall]. destruct op as [s|token]; cbn [replay_run].
  - pose proof (Check_no_panic w a s Hw Hop). destruct (ReplayWindow_Check w s); [by apply (IH w a)..|done].
  - destruct (Commit_cases w a token Hw Hop) as [[_ ->]|[[_ Hf] (w' & -> & Hw' & _)]]; rewrite bind_Ok_l.
    + by apply (IH w a).
    + apply seen_check_fresh in Hf. apply (IH w' (seen_accept a (rtokSequence token))); [done|..|done].
      * constructor; [by rewrite Hin|done].
      * intros s. cbn. rewrite elem_of_cons, elem_of_union, elem_of_singleton. by rewrite Hin.
Qed.

(** ** The bitmap as one integer *)
Fixpoint bitmap_val (bitmap : list Z) : Z :=
  match bitmap with [] => 0 | w :: rest => w + 2 ^ 64 * bitmap_val rest end.

Lemma bitmap_val_testbit bitmap d :
  Forall (uint 64) bitmap → 0 ≤ d → Z.testbit (bitmap_val bitmap) d = bit bitmap d.
Proof.
  intros Hall. revert d. induction Hall as [|w rest Hw _ IH]; intros d Hd; cbn [bitmap_val].
  { rewrite Z.bits_0. unfold bit. cbn. rewrite Z.bits_0. by rewrite andb_false_r. }
  assert (w + 2 ^ 64 * bitmap_val rest = Z.lor w (Z.shiftl (bitmap_val rest) 64)) as ->.
  { rewrite Z.shiftl_mul_pow2, Z.mul_comm by lia. rewrite <- Z.add_lor_land.
    assert (Z.land w (bitmap_val rest * 2 ^ 64) = 0) as ->; [|lia]. apply Z.bits_inj'. intros i Hi.
    rewrite Z.land_spec, Z.bits_0. destruct (decide (i < 64)).
    - rewrite Z.mul_pow2_bits_low by lia. apply andb_false_r.
    - by rewrite testbit_high by (done || lia). }
  rewrite Z.lor_spec, Z.shiftl_spec by done. unfold bit. rewrite bool_decide_eq_true_2 by done.
  destruct (decide (d < 64)).
  - rewrite (Z.testbit_neg_r (bitmap_val rest)), orb_false_r by lia. rewrite Z.div_small, Z.mod_small by lia. done.
  - rewrite testbit_high, IH by (done || lia). unfold bit. rewrite bool_decide_eq_true_2 by lia. cbn [orb andb].
    replace (Z.to_nat (d / 64)) with (S (Z.to_nat ((d - 64) / 64))) by (Z.div_mod_to_equations; lia).
    cbn [lookup list_lookup]. f_equal. Z.div_mod_to_equations. lia.
Qed.

Lemma bit_beyond bitmap d : bitmap_ok bitmap → WindowSize ≤ d → bit bitmap d = false.
Proof.
  intros [Hl _] Hd. unfold bit, WindowSize in *. rewrite lookup_ge_None_2.
  - cbn [from_option]. rewrite Z.bits_0. apply andb_false_r.
  - Z.div_mod_to_equations. lia.
Qed.

(** ** Properties *)

(** C16: The bitmap window implements the set of committed sequence numbers with its maximum:
    Check answers as the set does (zero, duplicate, older than 2048, new), Commit with the
    current token adds the number, and any other token is refused as stale without a change. *)
Theorem replay_window_refines w a :
  window_rel w a →
  (∀ sequence, uint 64 sequence →
     ReplayWindow_Check w sequence =
     match seen_check a sequence with Some e => Err e | None => Ok (mkReplayToken sequence (rwGeneration w)) end) ∧
  (∀ token, uint 64 (rtokSequence token) →
     if bool_decide (rtokGeneration token = rwGeneration w ∧ seen_check a (rtokSequence token) = None)
     then ∃ w', ReplayWindow_Commit w token = Ok (w', None) ∧ window_rel w' (seen_accept a (rtokSequence token)) ∧
                rwGeneration w' = wrap 64 (rwGeneration w + 1)
     else ReplayWindow_Commit w token = Ok (w, Some ErrReplayStale)).
Proof.
  intros Hw. split; [intros s Hs; by apply Check_spec|]. intros token Hs.
  destruct (Commit_cases w a token Hw Hs) as [[Hc Hr]|[Hc Hr]].
  - by rewrite bool_decide_eq_false_2 by naive_solver.
  - by rewrite bool_decide_eq_true_2.
Qed.

Lemma replay_window_refines_witness :
  ReplayWindow_Check zeroReplayWindow 7 = Ok (mkReplayToken 7 0) ∧
  ReplayWindow_Commit zeroReplayWindow (mkReplayToken 7 3) = Ok (zeroReplayWindow, Some ErrReplayStale).
Proof.
  destruct (replay_window_refines zeroReplayWindow seen_empty window_rel_zero) as [Hc Hm]. split.
  - rewrite Hc by decide_closed. reflexivity.
  - exact (Hm (mkReplayToken 7 3) ltac:(decide_closed)).
Defined.

(** From the zero window, over any sequence of checks and commits with any tokens, no operation
    panics, no sequence number is committed twice, and each committed one is reported afterwards
    as duplicate or too old. *)
Theorem replay_never_twice ops :
  Forall ReplayOp_typed ops →
  ∃ w committed, replay_run zeroReplayWindow [] ops = Ok (w, committed) ∧ NoDup committed ∧
    ∀ s, s ∈ committed →
      ReplayWindow_Check w s = Err ErrReplayDuplicate ∨ ReplayWindow_Check w s = Err ErrReplayTooOld.
Proof.
  intros Hall. destruct (replay_run_inv ops zeroReplayWindow seen_empty [] window_rel_zero)
    as (w & a & committed & Hr & Hw & Hnd & Hin); [constructor|set_solver|done|].
  exists w, committed. split; [done|]. split; [done|]. intros s Hs%Hin. pose proof (rel_range _ _ Hw s Hs) as Hrange.
  pose proof (rel_top _ _ Hw) as [_ Ht]. rewrite (Check_spec w a) by (done || unfold uint; lia).
  unfold seen_check. rewrite (proj2 (Z.eqb_neq _ _)) by lia. destruct (_ <=? _); [by right|].
  rewrite bool_decide_eq_true_2 by done. by left.
Qed.

Definition ex_replay_ops : list ReplayOp :=
  [OpCheck 5; OpCommit (mkReplayToken 5 0); OpCommit (mkReplayToken 5 1); OpCheck 3; OpCommit (mkReplayToken 3 1);
   OpCommit (mkReplayToken 9000 2); OpCommit (mkReplayToken 3 3)].

Lemma replay_never_twice_witness :
  ∃ w committed, replay_run zeroReplayWindow [] ex_replay_ops = Ok (w, committed) ∧ NoDup committed ∧
    ∀ s, s ∈ committed →
      ReplayWindow_Check w s = Err ErrReplayDuplicate ∨ ReplayWindow_Check w s = Err ErrReplayTooOld.
Proof. refine (replay_never_twice ex_replay_ops _). decide_closed. Defined.

(** C38: Advance, which moves 64-bit words and bits in place from the top, equals a left shift
    of the 2048-bit integer the bitmap represents. *)
Theorem replay_advance_shift bitmap shift :
  bitmap_ok bitmap → 0 ≤ shift →
  ∃ bitmap', Advance bitmap shift = Ok bitmap' ∧ bitmap_ok bitmap' ∧
    bitmap_val bitmap' = Z.shiftl (bitmap_val bitmap) shift mod 2 ^ WindowSize.
Proof.
  intros Hb Hs. destruct (Advance_bits bitmap shift Hb Hs) as (bitmap' & Ha & Hb' & Hbits).
  exists bitmap'. split; [done|]. split; [done|]. apply Z.bits_inj'. intros d Hd.
  rewrite bitmap_val_testbit by (done || apply Hb'). destruct (decide (d < WindowSize)).
  - rewrite Hbits, Z.mod_pow2_bits_low, Z.shiftl_spec by lia. destruct (decide (0 ≤ d - shift)).
    + by rewrite bitmap_val_testbit by (done || apply Hb).
    + rewrite Z.testbit_neg_r by lia. unfold bit. by rewrite bool_decide_eq_false_2.
  - rewrite Z.mod_pow2_bits_high by (unfold WindowSize in *; lia). apply bit_beyond; [done|lia].
Qed.

Lemma replay_advance_shift_witness :
  ∃ bitmap', Advance (replicate 32 5) 67 = Ok bitmap' ∧ bitmap_ok bitmap' ∧
    bitmap_val bitmap' = Z.shiftl (bitmap_val (replicate 32 5)) 67 mod 2 ^ WindowSize.
Proof. refine (replay_advance_shift (replicate 32 5) 67 _ _); [|lia]. split; [reflexivity|decide_closed]. Defined.
