(* ===== verification/Sha256.v ===== *)
(** * crypto/sha256 and crypto/hmac of the Go standard library

    What rekey.go uses of them: the one-shot SHA-256 digest, and the MAC object
    with New, Write, Reset and Sum.  Words are integers below [2^32] with the
    additions wrapped; the round constants are computed from the primes.  The
    examples evaluate the published test vectors. *)

From S2P Require Import Prelude.

Local Open Scope Z_scope.

Module sha256.

Definition BlockSize : Z := 64.
Definition Size : Z := 32.

(** ** The constants: fractional parts of roots of the first 64 primes *)
Definition is_prime (n : Z) : bool :=
  forallb (λ d, negb (n mod d =? 0)) (seqZ 2 (Z.sqrt n - 1)).
Definition primes : list Z :=
  Eval vm_compute in take 64 (List.filter is_prime (seqZ 2 310)).

(** The largest integer below [2^40] whose cube is at most [n]. *)
Fixpoint cube_root (bits : nat) (n acc : Z) : Z :=
  match bits with
  | O => acc
  | S b => let c := acc + 2 ^ Z.of_nat b in cube_root b n (if c * c * c <=? n then c else acc)
  end.

Definition round_constants : list Z :=
  Eval vm_compute in map (λ p, wrap 32 (cube_root 40 (p * 2 ^ 96) 0)) primes.
Definition initial_state : list Z :=
  Eval vm_compute in map (λ p, wrap 32 (Z.sqrt (p * 2 ^ 64))) (take 8 primes).

(** ** The compression function *)
Definition add32 (x y : Z) : Z := wrap 32 (x + y).
Definition rotr (n x : Z) : Z := Z.lor (Z.shiftr x n) (wrap 32 (Z.shiftl x (32 - n))).
Definition not32 (x : Z) : Z := Z.lxor x (2 ^ 32 - 1).

Definition big_sigma0 (x : Z) : Z := Z.lxor (rotr 2 x) (Z.lxor (rotr 13 x) (rotr 22 x)).
Definition big_sigma1 (x : Z) : Z := Z.lxor (rotr 6 x) (Z.lxor (rotr 11 x) (rotr 25 x)).
Definition small_sigma0 (x : Z) : Z := Z.lxor (rotr 7 x) (Z.lxor (rotr 18 x) (Z.shiftr x 3)).
Definition small_sigma1 (x : Z) : Z := Z.lxor (rotr 17 x) (Z.lxor (rotr 19 x) (Z.shiftr x 10)).
Definition choose (x y z : Z) : Z := Z.lxor (Z.land x y) (Z.land (not32 x) z).
Definition majority (x y z : Z) : Z := Z.lxor (Z.land x y) (Z.lxor (Z.land x z) (Z.land y z)).

(** The message schedule, latest word first: [n] more words after the block's. *)
Fixpoint schedule (n : nat) (w : list Z) : list Z :=
  match n with
  | O => w
  | S n' =>
      let at_back i := nth i w 0 in
      schedule n' (add32 (add32 (small_sigma1 (at_back 1%nat)) (at_back 6%nat))
                         (add32 (small_sigma0 (at_back 14%nat)) (at_back 15%nat)) :: w)
  end.

Record State := mkState { sa : Z; sb : Z; sc : Z; sd : Z; se : Z; sf : Z; sg : Z; sh : Z }.

Definition round (s : State) (kw : Z * Z) : State :=
  let t1 := add32 (add32 (sh s) (big_sigma1 (se s)))
                  (add32 (choose (se s) (sf s) (sg s)) (add32 (fst kw) (snd kw))) in
  let t2 := add32 (big_sigma0 (sa s)) (majority (sa s) (sb s) (sc s)) in
  mkState (add32 t1 t2) (sa s) (sb s) (sc s) (add32 (sd s) t1) (se s) (sf s) (sg s).

Definition compress (s : State) (block : list Z) : State :=
  let w := rev (schedule 48 (rev block)) in
  let r := fold_left round (combine round_constants w) s in
  mkState (add32 (sa s) (sa r)) (add32 (sb s) (sb r)) (add32 (sc s) (sc r)) (add32 (sd s) (sd r))
          (add32 (se s) (se r)) (add32 (sf s) (sf r)) (add32 (sg s) (sg r)) (add32 (sh s) (sh r)).

(** ** Padding and the digest *)
Definition be_get (l : list byte) : Z := le_get (rev l).
Definition be_put (n : nat) (x : Z) : list byte := rev (le_put n x).

Definition pad (message : list byte) : list byte :=
  message ++ [to_byte 128] ++ make_bytes ((55 - zlen message) mod 64) ++ be_put 8 (8 * zlen message).

(** The 32-bit big-endian words of a byte string. *)
Fixpoint words (fuel : nat) (data : list byte) : list Z :=
  match fuel, data with
  | S fuel', _ :: _ => be_get (take 4 data) :: words fuel' (drop 4 data)
  | _, _ => []
  end.

Fixpoint blocks (fuel : nat) (s : State) (ws : list Z) : State :=
  match fuel, ws with
  | S fuel', _ :: _ => blocks fuel' (compress s (take 16 ws)) (drop 16 ws)
  | _, _ => s
  end.

Definition initial : State :=
  match initial_state with
  | [a; b; c; d; e; f; g; h] => mkState a b c d e f g h
  | _ => mkState 0 0 0 0 0 0 0 0
  end.

Definition Sum256 (message : list byte) : list byte :=
  let data := pad message in
  let ws := words (length data) data in
  let s := blocks (length ws) initial ws in
  concat (map (be_put 4) [sa s; sb s; sc s; sd s; se s; sf s; sg s; sh s]).

End sha256.

(** ** crypto/hmac over SHA-256 *)
Module hmac.

Record Mac := mkMac { macKey : list byte; macData : list byte }.

(** A key longer than a block is hashed first, a shorter one zero-extended. *)
Definition block_key (key : list byte) : list byte :=
  let key := if sha256.BlockSize <? zlen key then sha256.Sum256 key else key in
  key ++ make_bytes (sha256.BlockSize - zlen key).

Definition xor_bytes (x : Z) (l : list byte) : list byte := map (λ b, to_byte (Z.lxor (byte_val b) x)) l.

Definition New (key : list byte) : Mac := mkMac (block_key key) [].
Definition Write (m : Mac) (data : list byte) : Mac := mkMac (macKey m) (macData m ++ data).
Definition Reset (m : Mac) : Mac := mkMac (macKey m) [].
Definition Sum (m : Mac) : list byte :=
  sha256.Sum256 (xor_bytes 92 (macKey m) ++ sha256.Sum256 (xor_bytes 54 (macKey m) ++ macData m)).

(** Constant-time comparison returns whether the contents are equal. *)
Definition Equal (a b : list byte) : bool := bool_decide (a = b).

End hmac.

(** ** Facts *)
Lemma zlen_Sum256 message : zlen (sha256.Sum256 message) = sha256.Size.
Proof.
  unfold sha256.Sum256. cbv zeta. generalize (sha256.blocks (length (sha256.words
    (length (sha256.pad message)) (sha256.pad message))) sha256.initial
    (sha256.words (length (sha256.pad message)) (sha256.pad message))). intros s.
  cbn [map concat]. unfold zlen, sha256.be_put.
  rewrite !length_app, !length_rev, !length_le_put. done.
Qed.

Lemma zlen_hmac_Sum m : zlen (hmac.Sum m) = 32.
Proof. apply zlen_Sum256. Qed.

(** The padded message is a whole number of blocks. *)
Lemma zlen_pad message : zlen (sha256.pad message) mod 64 = 0.
Proof.
  unfold sha256.pad, sha256.be_put. pose proof (Z.mod_pos_bound (55 - zlen message) 64 ltac:(lia)).
  rewrite !zlen_app, zlen_make_bytes by lia. change (zlen [to_byte 128]) with 1.
  assert (zlen (rev (le_put 8 (8 * zlen message))) = 8) as -> by (unfold zlen; by rewrite length_rev, length_le_put).
  Z.div_mod_to_equations. lia.
Qed.

Definition ascii_bytes (s : string) : list byte := String.list_byte_of_string s.
Definition hex_value (l : list byte) : Z := sha256.be_get l.

Example sha256_abc :
  hex_value (sha256.Sum256 (ascii_bytes "abc")) =
  0xba7816bf8f01cfea414140de5dae2223b00361a396177a9cb410ff61f20015ad.
Proof. vm_compute. reflexivity. Qed.

Example sha256_two_blocks :
  hex_value (sha256.Sum256 (ascii_bytes "abcdbcdecdefdefgefghfghighijhijkijkljklmklmnlmnomnopnopq")) =
  0x248d6a61d20638b8e5c026930c3e6039a33ce45964ff2167f6ecedd419db06c1.
Proof. vm_compute. reflexivity. Qed.

Example hmac_sha256_jefe :
  hex_value (hmac.Sum (hmac.Write (hmac.New (ascii_bytes "Jefe")) (ascii_bytes "what do ya want for nothing?"))) =
  0x5bdcc146bf60754e6a042426089575c75a003f089d2739839dec58b964ec3843.
Proof. vm_compute. reflexivity. Qed.
