(* ===== verification/Crypto.v ===== *)
(** * crypto.go: the data-frame codec

    The ChaCha20-Poly1305 implementation is a dependency of the module; the class
    [AEAD] is its interface and [AEADLaws] its documented behaviour.  The random
    source is a byte string [entropy], what rand.Reader yields to this call.

    [Codec_Encrypt] authenticates the header and the padding as associated data.
    The theorems show that decryption inverts encryption, that a frame decrypts
    only if every transmitted octet is the one the encryption of the returned
    plaintext produces, and that the nonce is injective in the sequence number. *)

From S2P Require Import Prelude Wire Header Frame Sha256.
Import wire.

Local Open Scope Z_scope.
Local Opaque header_layout.

Definition KeySize : Z := 32.

(** CipherSuite is a [uint8]. *)
Definition CipherChaCha20Poly1305 : Z := 1.
Definition CipherAES256GCM : Z := 2.

(** golang.org/x/crypto/chacha20poly1305: [New], and the methods [Seal] and
    [Open] of the cipher.AEAD it returns. *)
Class AEAD := {
  aead_cipher : Type;
  aead_New : list byte → outcome aead_cipher;
  aead_Seal : aead_cipher → list byte → list byte → list byte → list byte;
  aead_Open : aead_cipher → list byte → list byte → list byte → option (list byte);
}.

Definition NonceSize : Z := 12.

(** What the code relies on, for nonces of the right size. *)
Class AEADLaws `{AEAD} : Prop := {
  New_ok : ∀ key, zlen key = KeySize → ∃ c, aead_New key = Ok c;
  Seal_length : ∀ c n p a, zlen n = NonceSize → zlen (aead_Seal c n p a) = zlen p + AEADTagSize;
  Open_Seal : ∀ c n p a, zlen n = NonceSize → aead_Open c n (aead_Seal c n p a) a = Some p;
  Open_only_Seal : ∀ c n s p a, zlen n = NonceSize → aead_Open c n s a = Some p → s = aead_Seal c n p a;
}.

Section codec.
Context {aead : AEAD}.

Record Codec := mkCodec { codecAead : aead_cipher }.

Definition NewCodec (suite : Z) (key : list byte) : outcome Codec :=
  if negb (suite =? CipherChaCha20Poly1305) then Err ErrUnsupportedCipher else
  if negb (zlen key =? KeySize) then Err ErrInvalidKeySize else
  aead ← aead_New key;
  Ok (mkCodec aead).

Definition nonce (sequence : Z) : outcome (list byte) :=
  put (make_bytes NonceSize) 4 (le_put 8 sequence).

Definition validateEncryptedHeader (messageType : Z) (sessionID : list byte) (sequence : Z) : outcome unit :=
  if (messageType <? MessageTypeEncryptedData) || (MessageTypeError <? messageType) ||
     (messageType =? MessageTypeResumptionTicket) then Err ErrUnencryptedType else
  if sequence =? 0 then Err ErrInvalidSequence else
  if bool_decide (sessionID = zero16) then Err ErrInvalidSessionID else
  Ok tt.

(** io.ReadFull: exactly [length] bytes or an error. *)
Definition io_ReadFull (reader : list byte) (length_ : Z) : outcome (list byte) :=
  if zlen reader <? length_
  then Err (if zlen reader =? 0 then EOF else ErrUnexpectedEOF)
  else slice reader 0 length_.

Definition randomBytes (reader : list byte) (length_ : Z) : outcome (list byte) :=
  if (length_ <? 0) || (255 <? length_) then Err ErrPaddingLength else
  io_ReadFull reader length_.

Definition Codec_Encrypt (c : Codec) (messageType : Z) (sessionID : list byte) (sequence : Z)
    (plaintext : list byte) (padLength : Z) (entropy : list byte) : outcome Frame :=
  _ ← validateEncryptedHeader messageType sessionID sequence;
  if MaxFrameSize <? wrap 64 (HeaderSize + zlen plaintext + AEADTagSize + padLength)
  then Err ErrPayloadTooLarge else
  let header := NewHeader messageType sessionID sequence (wrap 32 (zlen plaintext)) padLength in
  headerBytes ← Header_MarshalBinary header;
  padding ← randomBytes entropy padLength;
  let aad := headerBytes ++ padding in
  n ← nonce sequence;
  let sealed := aead_Seal (codecAead c) n plaintext aad in
  payload ← slice sealed 0 (zlen plaintext);
  tag ← slice_from sealed (zlen plaintext);
  NewFrame messageType sessionID sequence payload tag padding.

Definition Codec_Decrypt (c : Codec) (frame : Frame) : outcome (list byte) :=
  _ ← Frame_ValidateReceive frame;
  _ ← validateEncryptedHeader (hdrMessageType (frHeader frame)) (hdrSessionID (frHeader frame))
        (hdrSequence (frHeader frame));
  headerBytes ← Header_marshalBinary (frHeader frame) false;
  let aad := headerBytes ++ frPadding frame in
  let sealed := frPayload frame ++ frTag frame in
  n ← nonce (hdrSequence (frHeader frame));
  match aead_Open (codecAead c) n sealed aad with
  | None => Err ErrAuthentication
  | Some plaintext => Ok plaintext
  end.

End codec.

(** ** Facts *)
Definition nonce_bytes (sequence : Z) : list byte := make_bytes 4 ++ le_put 8 sequence.

Lemma nonce_Ok sequence : nonce sequence = Ok (nonce_bytes sequence).
Proof.
  unfold nonce. change (make_bytes NonceSize) with (make_bytes 4 ++ make_bytes 8). by chunks.
Qed.

Lemma zlen_nonce sequence : zlen (nonce_bytes sequence) = NonceSize.
Proof. unfold nonce_bytes, NonceSize. len. Qed.

Lemma nonce_inj s s' : uint 64 s → uint 64 s' → nonce_bytes s = nonce_bytes s' → s = s'.
Proof.
  intros Hs Hs' Heq. unfold nonce_bytes in Heq. apply app_inv_head in Heq.
  rewrite <- (le_get_small 8 s), <- (le_get_small 8 s') by done. by f_equal.
Qed.

(** The header fields a data frame may carry. *)
Definition encrypted_header (messageType : Z) (sessionID : list byte) (sequence : Z) : Prop :=
  MessageTypeEncryptedData ≤ messageType ≤ MessageTypeError ∧ messageType ≠ MessageTypeResumptionTicket ∧
  sequence ≠ 0 ∧ sessionID ≠ zero16.

#[global] Instance encrypted_header_dec t i s : Decision (encrypted_header t i s).
Proof. unfold encrypted_header. apply _. Defined.

Lemma validateEncryptedHeader_Ok t i s : validateEncryptedHeader t i s = Ok tt ↔ encrypted_header t i s.
Proof.
  unfold validateEncryptedHeader, encrypted_header. destruct (_ || _ || _) eqn:E.
  - split; [done|]. apply orb_true_iff in E as [[E%Z.ltb_lt|E%Z.ltb_lt]%orb_true_iff|E%Z.eqb_eq]; lia.
  - apply orb_false_iff in E as [[E1%Z.ltb_ge E2%Z.ltb_ge]%orb_false_iff E3%Z.eqb_neq].
    destruct (s =? 0) eqn:Hs; [apply Z.eqb_eq in Hs; split; [done|lia]|apply Z.eqb_neq in Hs].
    case_bool_decide; naive_solver.
Qed.

Lemma validateEncryptedHeader_no_panic t i s : validateEncryptedHeader t i s ≠ Panic.
Proof. unfold validateEncryptedHeader. by repeat case_match. Qed.

Lemma encrypted_header_tag t i s h :
  encrypted_header t i s → hdrMessageType h = t → hasAEADTag h = true.
Proof.
  intros (Ht & _) E. unfold hasAEADTag. rewrite E.
  unfold MessageTypeEncryptedData, MessageTypeHandshakeInit, MessageTypeHandshakeResponse in *.
  by rewrite !(proj2 (Z.eqb_neq _ _)) by lia.
Qed.

Lemma randomBytes_Ok reader n :
  0 ≤ n ≤ 255 → n ≤ zlen reader → randomBytes reader n = Ok (take (Z.to_nat n) reader).
Proof.
  intros Hn Hr. unfold randomBytes, io_ReadFull.
  replace (_ || _) with false by lia. rewrite (proj2 (Z.ltb_ge _ _)) by done.
  rewrite slice_Ok by lia. by rewrite Z.sub_0_r.
Qed.

(** Arguments of their Go types. *)
Definition encrypt_typed (messageType : Z) (sessionID : list byte) (sequence padLength : Z) : Prop :=
  uint 8 messageType ∧ zlen sessionID = 16 ∧ uint 64 sequence ∧ uint 8 padLength.

Definition frame_fits (plaintext : list byte) (padLength : Z) : Prop :=
  HeaderSize + zlen plaintext + AEADTagSize + padLength ≤ MaxFrameSize.

#[global] Instance encrypt_typed_dec t i s n : Decision (encrypt_typed t i s n).
Proof. unfold encrypt_typed. apply _. Defined.

#[global] Instance frame_fits_dec p n : Decision (frame_fits p n).
Proof. unfold frame_fits. apply _. Defined.

Lemma land_2_cases x : Z.land x 2 = 0 ∨ Z.land x 2 = 2.
Proof.
  assert (Z.land x 2 = if Z.testbit x 1 then 2 else 0) as ->; [|destruct (Z.testbit x 1); auto].
  apply Z.bits_inj'. intros i Hi. rewrite Z.land_spec. change 2 with (2 ^ 1). rewrite Z.pow2_bits_eqb by lia.
  destruct (decide (1 = i)) as [<-|Hne].
  - rewrite Z.eqb_refl, andb_true_r. by destruct (Z.testbit x 1).
  - rewrite (proj2 (Z.eqb_neq _ _)), andb_false_r by done. destruct (Z.testbit x 1); [|by rewrite Z.bits_0].
    change 2 with (2 ^ 1). by rewrite Z.pow2_bits_false.
Qed.

Section codec_facts.
Context {aead : AEAD} {laws : AEADLaws}.

Lemma NewCodec_Ok key :
  zlen key = KeySize → ∃ c, NewCodec CipherChaCha20Poly1305 key = Ok c.
Proof.
  intros Hk. unfold NewCodec. rewrite Z.eqb_refl, Hk, Z.eqb_refl. cbn [negb].
  destruct (New_ok key Hk) as [c ->]. by eexists.
Qed.

(** The frame [Codec_Encrypt] builds once the padding is drawn. *)
Definition seal_frame (c : Codec) (messageType : Z) (sessionID : list byte) (sequence : Z)
    (plaintext padding : list byte) : Frame :=
  let h := NewHeader messageType sessionID sequence (zlen plaintext) (zlen padding) in
  let sealed := aead_Seal (codecAead c) (nonce_bytes sequence) plaintext
                  (header_layout (to_wire h) ++ padding) in
  mkFrame h (take (length plaintext) sealed) (drop (length plaintext) sealed) padding.

Lemma seal_frame_sealed c t i s p pad :
  let h := NewHeader t i s (zlen p) (zlen pad) in
  frPayload (seal_frame c t i s p pad) ++ frTag (seal_frame c t i s p pad) =
    aead_Seal (codecAead c) (nonce_bytes s) p (header_layout (to_wire h) ++ pad) ∧
  zlen (frPayload (seal_frame c t i s p pad)) = zlen p ∧ zlen (frTag (seal_frame c t i s p pad)) = 16.
Proof.
  cbv zeta. unfold seal_frame. cbn [frPayload frTag]. set (sealed := aead_Seal _ _ _ _).
  assert (zlen sealed = zlen p + 16) as Hl by (by apply Seal_length, zlen_nonce).
  split; [apply take_drop|]. unfold zlen in *. rewrite length_take, length_drop. lia.
Qed.

Lemma NewHeader_fits t i s p padLength :
  encrypt_typed t i s padLength → encrypted_header t i s → frame_fits p padLength →
  Header_ok (NewHeader t i s (zlen p) padLength) ∧
  FrameSize (NewHeader t i s (zlen p) padLength) ≤ MaxFrameSize ∧
  hasAEADTag (NewHeader t i s (zlen p) padLength) = true.
Proof.
  intros (Ht & Hi & Hs & Hp) Hh Hf. pose proof (zlen_nonneg p).
  assert (hasAEADTag (NewHeader t i s (zlen p) padLength) = true) as Htag by (by eapply encrypted_header_tag).
  assert (Header_ok (NewHeader t i s (zlen p) padLength)) as Hok.
  { apply NewHeader_ok; try done. unfold frame_fits, uint, HeaderSize, AEADTagSize, MaxFrameSize in *. lia. }
  split; [done|]. split; [|done]. rewrite FrameSize_exact, Htag by done. unfold frame_fits in Hf. cbn. lia.
Qed.

Lemma Codec_Encrypt_Ok c t i s p padLength entropy :
  encrypt_typed t i s padLength → encrypted_header t i s → frame_fits p padLength → padLength ≤ zlen entropy →
  Codec_Encrypt c t i s p padLength entropy = Ok (seal_frame c t i s p (take (Z.to_nat padLength) entropy)).
Proof.
  intros Hty Hh Hf He. destruct (NewHeader_fits t i s p padLength Hty Hh Hf) as (Hok & Hsz & Htag).
  pose proof Hty as (Ht & Hi & Hs & Hp). pose proof (zlen_nonneg p). unfold uint in Hp.
  unfold frame_fits, HeaderSize, AEADTagSize, MaxFrameSize in Hf.
  unfold Codec_Encrypt. rewrite (proj2 (validateEncryptedHeader_Ok _ _ _)), bind_Ok_l by done.
  unfold MaxFrameSize, HeaderSize, AEADTagSize.
  rewrite !wrap_small, (proj2 (Z.ltb_ge _ _)) by (unfold uint; lia).
  unfold Header_MarshalBinary. rewrite Header_marshalBinary_layout, NewHeader_Validate, !bind_Ok_l by done.
  rewrite randomBytes_Ok, bind_Ok_l, nonce_Ok, bind_Ok_l by lia.
  set (pad := take (Z.to_nat padLength) entropy).
  assert (zlen pad = padLength) as Hpad by (apply zlen_take; lia).
  destruct (seal_frame_sealed c t i s p pad) as (Hs1 & Hs2 & Hs3). rewrite Hpad in Hs1. rewrite <- Hs1.
  set (f := seal_frame c t i s p pad) in *. rewrite slice_here, bind_Ok_l by done.
  rewrite slice_from_skip, bind_Ok_l by done. unfold NewFrame.
  rewrite Hs2, Hpad, (proj2 (Z.ltb_ge _ _)), (proj2 (Z.ltb_ge _ _)), !wrap_small by (unfold uint; lia).
  rewrite Htag, Hs3. cbn [negb Z.eqb Pos.eqb AEADTagSize]. rewrite bind_Ok_l.
  rewrite (proj2 (Z.ltb_ge _ _)), copy_tag, bind_Ok_l by done.
  subst f. unfold seal_frame. by rewrite Hpad.
Qed.

Lemma Codec_Encrypt_inv c t i s p padLength entropy f :
  encrypt_typed t i s padLength → zlen p < 2 ^ 63 → Codec_Encrypt c t i s p padLength entropy = Ok f →
  encrypted_header t i s ∧ frame_fits p padLength ∧ padLength ≤ zlen entropy ∧
  f = seal_frame c t i s p (take (Z.to_nat padLength) entropy).
Proof.
  intros Hty Hlen He. assert (encrypted_header t i s ∧ frame_fits p padLength ∧ padLength ≤ zlen entropy) as (Hh & Hf & Hl).
  { unfold Codec_Encrypt in He. apply bind_Ok in He as ([] & Hv%validateEncryptedHeader_Ok & He).
    destruct (_ <? _) eqn:Hsz; [done|]. apply Z.ltb_ge in Hsz. split; [done|].
    apply bind_Ok in He as (hb & _ & He). apply bind_Ok in He as (pad & Hpad & _).
    unfold randomBytes, io_ReadFull in Hpad. destruct (_ || _); [done|].
    destruct (_ <? padLength) eqn:Hent; [done|]. apply Z.ltb_ge in Hent. split; [|done].
    destruct Hty as (_ & _ & _ & Hp). pose proof (zlen_nonneg p). unfold uint in Hp.
    rewrite wrap_small in Hsz; [done|]. unfold uint, HeaderSize, AEADTagSize. lia. }
  split; [done|]. split; [done|]. split; [done|].
  rewrite Codec_Encrypt_Ok in He by done. by injection He as <-.
Qed.

Lemma Codec_Encrypt_no_panic c t i s p padLength entropy :
  encrypt_typed t i s padLength → zlen p < 2 ^ 63 → Codec_Encrypt c t i s p padLength entropy ≠ Panic.
Proof.
  intros Hty Hlen. destruct (decide (encrypted_header t i s)) as [Hh|Hh].
  2:{ unfold Codec_Encrypt. destruct (validateEncryptedHeader t i s) as [[]|e|] eqn:E; [|done|].
      - by apply validateEncryptedHeader_Ok in E.
      - by apply validateEncryptedHeader_no_panic in E. }
  destruct (decide (padLength ≤ zlen entropy)) as [He|He].
  - destruct (decide (frame_fits p padLength)) as [Hf|Hf]; [by rewrite Codec_Encrypt_Ok|].
    unfold Codec_Encrypt. rewrite (proj2 (validateEncryptedHeader_Ok _ _ _)), bind_Ok_l by done.
    destruct Hty as (_ & _ & _ & Hp). pose proof (zlen_nonneg p). unfold frame_fits, uint in *.
    rewrite wrap_small by (unfold uint, HeaderSize, AEADTagSize; lia). by rewrite (proj2 (Z.ltb_lt _ _)) by lia.
  - unfold Codec_Encrypt. rewrite (proj2 (validateEncryptedHeader_Ok _ _ _)), bind_Ok_l by done.
    destruct (_ <? _); [done|]. destruct Hty as (Ht & Hi & Hs & Hp). unfold Header_MarshalBinary.
    rewrite Header_marshalBinary_layout by (apply NewHeader_ok; try done; by apply wrap_uint).
    pose proof (Header_Validate_no_panic (NewHeader t i s (wrap 32 (zlen p)) padLength)).
    destruct (Header_Validate _); [|done..]. rewrite !bind_Ok_l. unfold randomBytes, io_ReadFull.
    destruct (_ || _); [done|]. by rewrite (proj2 (Z.ltb_lt _ _)) by lia.
Qed.

(** Decryption of a frame of the Go type. *)
Lemma Codec_Decrypt_spec c f :
  Frame_ok f →
  Codec_Decrypt c f ≠ Panic ∧
  ∀ p, Codec_Decrypt c f = Ok p ↔
    Frame_ValidateReceive f = Ok tt ∧
    encrypted_header (hdrMessageType (frHeader f)) (hdrSessionID (frHeader f)) (hdrSequence (frHeader f)) ∧
    frPayload f ++ frTag f =
      aead_Seal (codecAead c) (nonce_bytes (hdrSequence (frHeader f))) p
        (header_layout (to_wire (frHeader f)) ++ frPadding f).
Proof.
  intros Hok. unfold Codec_Decrypt. rewrite nonce_Ok, Header_marshalBinary_layout by apply Hok.
  destruct (Frame_ValidateReceive f) as [[]|e|] eqn:Hv; [|split; naive_solver|].
  2:{ unfold Frame_ValidateReceive, Header_ValidateReceive in Hv. apply bind_Panic in Hv as [Hv|([] & _ & Hv)].
      - by apply validateCommon_no_panic in Hv.
      - unfold validateLengths in Hv. by repeat case_match. }
  rewrite bind_Ok_l. destruct (validateEncryptedHeader _ _ _) as [[]|e|] eqn:He.
  2:{ split; [done|]. intros p. split; [done|]. intros (_ & Hh%validateEncryptedHeader_Ok & _). congruence. }
  2:{ by apply validateEncryptedHeader_no_panic in He. }
  apply validateEncryptedHeader_Ok in He. apply Frame_ValidateReceive_Ok in Hv as Hv'.
  destruct Hv' as [Hc _]. unfold Header_ValidateReceive. rewrite Hc, !bind_Ok_l.
  destruct (aead_Open _ _ _ _) as [p'|] eqn:Ho.
  - apply Open_only_Seal in Ho as Ho'; [|apply zlen_nonce]. split; [done|]. intros p. split.
    + intros [= <-]. done.
    + intros (_ & _ & Hp). f_equal. rewrite Hp, Open_Seal in Ho by apply zlen_nonce. congruence.
  - split; [done|]. intros p. split; [done|]. intros (_ & _ & Hp).
    rewrite Hp, Open_Seal in Ho by apply zlen_nonce. done.
Qed.

Lemma seal_frame_ok c t i s p pad :
  encrypt_typed t i s (zlen pad) → encrypted_header t i s → frame_fits p (zlen pad) →
  Frame_ok (seal_frame c t i s p pad) ∧ Frame_Validate (seal_frame c t i s p pad) = Ok tt.
Proof.
  intros Hty Hh Hf. destruct (NewHeader_fits t i s p (zlen pad) Hty Hh Hf) as (Hok & Hsz & Htag).
  destruct (seal_frame_sealed c t i s p pad) as (_ & Hp & Ht). split; [by split|].
  unfold Frame_Validate. change (frHeader (seal_frame c t i s p pad)) with (NewHeader t i s (zlen p) (zlen pad)).
  rewrite NewHeader_Validate, bind_Ok_l by done. apply validateLengths_Ok. by rewrite Hp.
Qed.

Lemma Codec_Decrypt_seal c t i s p pad :
  encrypt_typed t i s (zlen pad) → encrypted_header t i s → frame_fits p (zlen pad) →
  Codec_Decrypt c (seal_frame c t i s p pad) = Ok p.
Proof.
  intros Hty Hh Hf. destruct (seal_frame_ok c t i s p pad Hty Hh Hf) as [Hok Hv].
  apply Codec_Decrypt_spec; [done|]. split; [by apply Frame_Validate_receive|]. split; [done|].
  apply (seal_frame_sealed c t i s p pad).
Qed.

End codec_facts.

(** ** Properties *)

(** C32: Encrypt never panics; it succeeds exactly for a valid header, a frame that fits and
    enough entropy for the padding; what it returns Decrypt opens to the plaintext, and the
    frame survives encoding, with 40+|p|+16+pad octets. *)
Theorem codec_roundtrip `{AEADLaws} c t i s p padLength entropy :
  encrypt_typed t i s padLength → zlen p < 2 ^ 63 →
  Codec_Encrypt c t i s p padLength entropy ≠ Panic ∧
  ((∃ f, Codec_Encrypt c t i s p padLength entropy = Ok f) ↔
     encrypted_header t i s ∧ frame_fits p padLength ∧ padLength ≤ zlen entropy) ∧
  ∀ f, Codec_Encrypt c t i s p padLength entropy = Ok f →
    Codec_Decrypt c f = Ok p ∧
    ∃ wire, Frame_MarshalBinary f = Ok wire ∧ Frame_UnmarshalBinary wire = Ok f ∧
            zlen wire = HeaderSize + zlen p + AEADTagSize + padLength.
Proof.
  intros Hty Hlen. split; [by apply Codec_Encrypt_no_panic|]. split.
  - split; [intros [f He]; by apply Codec_Encrypt_inv in He as (? & ? & ? & _)|].
    intros (? & ? & ?). eexists. by apply Codec_Encrypt_Ok.
  - intros f He. apply Codec_Encrypt_inv in He as (Hh & Hf & Hl & ->); [|done..].
    destruct (NewHeader_fits t i s p padLength Hty Hh Hf) as (Hok & Hsz & Htag).
    assert (zlen (take (Z.to_nat padLength) entropy) = padLength) as Hpad.
    { apply zlen_take. destruct Hty as (_ & _ & _ & Hp). unfold uint in Hp. lia. }
    set (pad := take (Z.to_nat padLength) entropy) in *. rewrite <- Hpad in Hty, Hf.
    split; [by apply Codec_Decrypt_seal|].
    destruct (seal_frame_ok c t i s p pad Hty Hh Hf) as [Hfok Hv].
    assert (frHeader (seal_frame c t i s p pad) = NewHeader t i s (zlen p) padLength) as Hhdr by (by rewrite <- Hpad).
    exists (frame_layout (seal_frame c t i s p pad)).
    rewrite Frame_MarshalBinary_layout, Hv by done. split; [done|]. split.
    + apply Frame_UnmarshalBinary_layout; [done| |by apply Frame_Validate_receive].
      intros Hno. rewrite Hhdr, Htag in Hno. done.
    + rewrite frame_layout_length; [|done|by apply Frame_Validate_receive, Frame_ValidateReceive_Ok in Hv as [_ ?]].
      rewrite Hhdr, FrameSize_exact, Htag by done. cbn. lia.
Qed.

(** C33: A frame that decrypts carries exactly the AEAD sealing of the plaintext under the nonce
    of its sequence number with the whole header and the padding as associated data, and a
    sender-valid one is the output of Encrypt on its own fields. *)
Theorem decrypt_only_encryptions `{AEADLaws} c f p :
  Frame_ok f → Codec_Decrypt c f = Ok p →
  let h := frHeader f in
  frPayload f ++ frTag f =
    aead_Seal (codecAead c) (nonce_bytes (hdrSequence h)) p (header_layout (to_wire h) ++ frPadding f) ∧
  zlen p = zlen (frPayload f) ∧
  (Header_Validate h = Ok tt →
   Codec_Encrypt c (hdrMessageType h) (hdrSessionID h) (hdrSequence h) p (hdrPadLength h) (frPadding f) = Ok f).
Proof.
  intros Hok Hd. cbv zeta. apply Codec_Decrypt_spec in Hd as (Hv & Hh & Hs); [|done].
  split; [done|]. apply Frame_ValidateReceive_Ok in Hv as [Hc [Hlp Hld]%validateLengths_Ok].
  assert (zlen p = zlen (frPayload f)) as Hp.
  { apply (f_equal zlen) in Hs. destruct Hok as [_ Ht].
    rewrite zlen_app, Ht, Seal_length in Hs by apply zlen_nonce. unfold AEADTagSize in Hs. lia. }
  split; [done|]. intros Hval. destruct f as [h payload tag pad]. cbn [frHeader frPayload frTag frPadding] in *.
  destruct Hok as [Hhok Ht]. cbn [frHeader frTag] in *. pose proof Hhok as (H1&H2&H3&H4&H5&H6&H7&H8).
  assert (h = NewHeader (hdrMessageType h) (hdrSessionID h) (hdrSequence h) (zlen p) (zlen pad)) as Hnew.
  { apply validateCommon_Ok in Hc as (Hver & Hflag & _). unfold Header_Validate in Hval.
    apply bind_Ok in Hval as ([] & _ & Hval). destruct (Z.ldiff _ _ =? 0) eqn:Hfl; [|done]. cbn [negb] in Hval.
    case_bool_decide as Hres; [|done]. apply Z.eqb_eq in Hfl. rewrite Hp, Hlp, Hld.
    destruct h as [ver fl mt res sid seq pl pd]. cbn in *. subst ver res. unfold NewHeader.
    enough (fl = if negb (pd =? 0) then Z.lor 0 FlagPadding else 0) as -> by done.
    assert (fl = Z.land fl 2) as Hfl2.
    { rewrite <- (Z.lor_ldiff_and fl 2) at 1. unfold mvpSenderFlags, FlagPadding in Hfl. rewrite Hfl. done. }
    unfold FlagPadding in *. destruct (pd =? 0) eqn:Epd; cbn [negb].
    - apply Z.eqb_eq in Epd. destruct (decide (Z.land fl 2 = 0)); [lia|naive_solver].
    - apply Z.eqb_neq in Epd. destruct (land_2_cases fl) as [E|E]; [|by rewrite Hfl2, E]. naive_solver. }
  assert (frame_fits p (zlen pad)) as Hfits.
  { apply validateCommon_Ok in Hc as (_ & _ & Hfs). rewrite FrameSize_exact in Hfs by done.
    rewrite (encrypted_header_tag _ _ _ h Hh eq_refl) in Hfs. unfold frame_fits. lia. }
  rewrite <- Hld. rewrite Codec_Encrypt_Ok; [|by rewrite <- Hld in H8|done|done|lia].
  rewrite take_ge by (unfold zlen; lia). unfold seal_frame. rewrite <- Hnew, <- Hs.
  assert (length p = length payload) as -> by (unfold zlen in Hp; lia).
  by rewrite take_app_length, drop_app_length.
Qed.

(** ** A concrete instance

    Not a cipher, only an instance of the interface: the plaintext followed by a
    128-bit polynomial checksum of the key, the nonce, the associated data and the
    plaintext.  It shows that the laws can hold and lets the model run. *)
Definition mac_tag (key n p a : list byte) : list byte :=
  le_put 16 (foldl (λ acc b, (acc * 257 + byte_val b + 1) mod 2 ^ 128) 0 (key ++ n ++ le_put 8 (zlen a) ++ a ++ p)).

Definition mac_aead : AEAD := {|
  aead_cipher := list byte;
  aead_New key := if zlen key =? KeySize then Ok key else Err ErrInvalidKeySize;
  aead_Seal key n p a := p ++ mac_tag key n p a;
  aead_Open key n s a :=
    let p := take (length s - 16) s in
    if bool_decide (drop (length s - 16) s = mac_tag key n p a) then Some p else None;
|}.

Lemma length_mac_tag key n p a : length (mac_tag key n p a) = 16%nat.
Proof. apply length_le_put. Qed.

Lemma mac_aead_laws : @AEADLaws mac_aead.
Proof.
  split; cbn [aead_New aead_Seal aead_Open mac_aead aead_cipher].
  - intros key Hk. exists key. by rewrite Hk, Z.eqb_refl.
  - intros c n p a _. rewrite zlen_app. pose proof (length_mac_tag c n p a). unfold AEADTagSize.
    change (zlen (mac_tag c n p a)) with (Z.of_nat (length (mac_tag c n p a))). lia.
  - intros c n p a _. cbv zeta. rewrite length_app, length_mac_tag, Nat.add_sub, take_app_length, drop_app_length.
    by rewrite bool_decide_eq_true_2.
  - intros c n s p a _. cbv zeta. case_bool_decide as Hd; [|done]. intros [= <-]. by rewrite <- Hd, take_drop.
Qed.

Definition ex_key : list byte := map to_byte (seqZ 1 32).
Definition ex_session : list byte := map to_byte (seqZ 100 16).
Definition ex_codec : @Codec mac_aead := @mkCodec mac_aead ex_key.
Definition ex_text : list byte := ascii_bytes "hello".

Lemma codec_roundtrip_witness :
  let f := seal_frame (aead := mac_aead) ex_codec MessageTypeEncryptedData ex_session 7 ex_text (make_bytes 3) in
  Codec_Encrypt ex_codec MessageTypeEncryptedData ex_session 7 ex_text 3 (make_bytes 4) = Ok f ∧
  Codec_Decrypt ex_codec f = Ok ex_text.
Proof.
  intros f.
  assert (Codec_Encrypt ex_codec MessageTypeEncryptedData ex_session 7 ex_text 3 (make_bytes 4) = Ok f) as He
    by (vm_compute; reflexivity).
  split; [exact He|].
  exact (proj1 (proj2 (proj2 (@codec_roundtrip mac_aead mac_aead_laws ex_codec MessageTypeEncryptedData ex_session 7
           ex_text 3 (make_bytes 4) ltac:(decide_closed) ltac:(decide_closed))) f He)).
Defined.

Lemma decrypt_only_encryptions_witness :
  let f := seal_frame (aead := mac_aead) ex_codec MessageTypeEncryptedData ex_session 7 ex_text (make_bytes 3) in
  Codec_Encrypt ex_codec MessageTypeEncryptedData ex_session 7 ex_text 3 (make_bytes 3) = Ok f.
Proof.
  intros f.
  refine (proj2 (proj2 (@decrypt_only_encryptions mac_aead mac_aead_laws ex_codec f ex_text _ _)) _).
  - vm_compute. repeat split; discriminate.
  - vm_compute. reflexivity.
  - vm_compute. reflexivity.
Defined.
