(* ===== verification/Rekey.v ===== *)
(** * rekey.go: the key ratchet

    The confirmation of the next epoch and the next traffic key, both HMAC-SHA256
    of the current key under distinct labels.  The theorem states exactly when a
    confirmation is produced; the ratchet of a 32-byte key is total. *)

From S2P Require Import Prelude Sha256 Crypto Replay.

Local Open Scope Z_scope.

(** Durations are nanoseconds. *)
Definition time_Second : Z := 1000000000.
Definition time_Minute : Z := 60 * time_Second.

Definition DefaultRekeyFrameLimit : Z := 2 ^ 32.
Definition DefaultRekeyInterval : Z := 10 * time_Minute.
Definition DefaultRekeyGraceFrames : Z := ReplayWindowSize.
Definition DefaultRekeyGracePeriod : Z := 30 * time_Second.

Record RekeyState := mkRekeyState { rkEpoch : Z }.

Definition NewRekeyState : RekeyState := mkRekeyState 1.

(** The receiver is a pointer; [None] is nil. *)
Definition ComputeKeyConfirm (r : option RekeyState) (secret : list byte) (epoch : Z) : outcome (list byte) :=
  match r with
  | None => Err ErrEpochExhausted
  | Some r =>
      if rkEpoch r =? 2 ^ 32 - 1 then Err ErrEpochExhausted else
      if rkEpoch r =? 0 then Err ErrInvalidEpoch else
      if negb (epoch =? wrap 32 (rkEpoch r + 1)) then Err ErrInvalidEpoch else
      let mac := hmac.New secret in
      let mac := hmac.Write mac (ascii_bytes "DGPv1 Rekey Confirm") in
      buf ← put (make_bytes 4) 0 (le_put 4 epoch);
      let mac := hmac.Write mac buf in
      copy_to (make_bytes 32) 0 32 (hmac.Sum mac)
  end.

Definition DeriveNextKeys (currentSecret : list byte) : outcome (list byte * list byte) :=
  if negb (zlen currentSecret =? KeySize) then Err ErrInvalidKeySize else
  let mac := hmac.New currentSecret in
  let mac := hmac.Write mac (ascii_bytes "DGPv1 Rekey Send Key") in
  let sendKey := hmac.Sum mac in
  let mac := hmac.Reset mac in
  let mac := hmac.Write mac (ascii_bytes "DGPv1 Rekey Receive Key") in
  let receiveKey := hmac.Sum mac in
  Ok (sendKey, receiveKey).

(** The error is discarded; a nil slice copies nothing. *)
Definition deriveNextTrafficKey (current : list byte) : outcome (list byte) :=
  let next := match DeriveNextKeys current with Ok (next, _) => next | _ => [] end in
  copy_to (make_bytes KeySize) 0 KeySize next.

(** ** Facts *)
Definition key_confirm (secret : list byte) (epoch : Z) : list byte :=
  hmac.Sum (hmac.Write (hmac.Write (hmac.New secret) (ascii_bytes "DGPv1 Rekey Confirm")) (le_put 4 epoch)).

Definition next_key (current : list byte) : list byte :=
  hmac.Sum (hmac.Write (hmac.New current) (ascii_bytes "DGPv1 Rekey Send Key")).

Lemma zlen_key_confirm secret epoch : zlen (key_confirm secret epoch) = 32.
Proof. apply zlen_hmac_Sum. Qed.

Lemma zlen_next_key current : zlen (next_key current) = KeySize.
Proof. apply zlen_hmac_Sum. Qed.

Lemma copy_32 l : zlen l = 32 → copy_to (make_bytes 32) 0 32 l = Ok l.
Proof. intros. rewrite copy_to_put by (done || lia). by rewrite put_all. Qed.

Lemma ComputeKeyConfirm_Ok e secret epoch :
  1 ≤ e < 2 ^ 32 - 1 → epoch = e + 1 →
  ComputeKeyConfirm (Some (mkRekeyState e)) secret epoch = Ok (key_confirm secret epoch).
Proof.
  intros He ->. unfold ComputeKeyConfirm. cbn [rkEpoch].
  rewrite (proj2 (Z.eqb_neq _ _)), (proj2 (Z.eqb_neq _ _)) by lia.
  rewrite wrap_small, Z.eqb_refl by (unfold uint; lia). cbn [negb].
  rewrite put_all, bind_Ok_l by len. by apply copy_32, zlen_hmac_Sum.
Qed.

Lemma ComputeKeyConfirm_inv e secret epoch k :
  uint 32 e → ComputeKeyConfirm (Some (mkRekeyState e)) secret epoch = Ok k →
  1 ≤ e < 2 ^ 32 - 1 ∧ epoch = e + 1 ∧ k = key_confirm secret epoch.
Proof.
  intros He Hk. assert (1 ≤ e < 2 ^ 32 - 1 ∧ epoch = e + 1) as [H1 H2].
  { unfold ComputeKeyConfirm in Hk. cbn [rkEpoch] in Hk. unfold uint in He.
    destruct (e =? _) eqn:E1; [done|]. destruct (e =? 0) eqn:E2; [done|].
    apply Z.eqb_neq in E1, E2. rewrite wrap_small in Hk by (unfold uint; lia).
    destruct (epoch =? _) eqn:E3; [|done]. apply Z.eqb_eq in E3. lia. }
  split; [done|]. split; [done|]. rewrite ComputeKeyConfirm_Ok in Hk by done. by injection Hk as <-.
Qed.

Lemma ComputeKeyConfirm_no_panic r secret epoch : ComputeKeyConfirm r secret epoch ≠ Panic.
Proof.
  unfold ComputeKeyConfirm. destruct r as [[e]|]; [|done]. do 3 (case_match; [done|]).
  rewrite put_all, bind_Ok_l by len. by rewrite copy_32 by apply zlen_hmac_Sum.
Qed.

Lemma deriveNextTrafficKey_Ok current :
  zlen current = KeySize → deriveNextTrafficKey current = Ok (next_key current).
Proof.
  intros Hk. unfold deriveNextTrafficKey, DeriveNextKeys. rewrite Hk, Z.eqb_refl. cbn [negb].
  apply copy_32, zlen_hmac_Sum.
Qed.

(** ** Properties *)

(** ComputeKeyConfirm accepts exactly the next epoch of a valid state and reports exhaustion at
    the last one; the confirmation and the next traffic key are 32 bytes. *)
Theorem rekey_confirm_exact e secret epoch :
  uint 32 e →
  ComputeKeyConfirm (Some (mkRekeyState e)) secret epoch =
    (if bool_decide (e = 2 ^ 32 - 1) then Err ErrEpochExhausted
     else if bool_decide (1 ≤ e ∧ epoch = e + 1) then Ok (key_confirm secret epoch) else Err ErrInvalidEpoch) ∧
  zlen (key_confirm secret epoch) = 32 ∧
  (zlen secret = KeySize → deriveNextTrafficKey secret = Ok (next_key secret) ∧ zlen (next_key secret) = KeySize).
Proof.
  intros He. split; [|split; [apply zlen_key_confirm|intros ?; split; [by apply deriveNextTrafficKey_Ok|apply zlen_next_key]]].
  case_bool_decide as E1; [by subst|]. case_bool_decide as E2.
  - apply ComputeKeyConfirm_Ok; unfold uint in He; lia.
  - unfold ComputeKeyConfirm. cbn [rkEpoch]. unfold uint in He.
    rewrite (proj2 (Z.eqb_neq e (2 ^ 32 - 1))) by done. destruct (e =? 0) eqn:E0; [done|]. apply Z.eqb_neq in E0.
    rewrite wrap_small by (unfold uint; lia). rewrite (proj2 (Z.eqb_neq epoch (e + 1))); [done|]. intros ->. apply E2. lia.
Qed.

Lemma rekey_confirm_exact_witness :
  ComputeKeyConfirm (Some NewRekeyState) ex_key 2 = Ok (key_confirm ex_key 2).
Proof. exact (proj1 (rekey_confirm_exact 1 ex_key 2 ltac:(decide_closed))). Defined.
