(* ===== verification/Session.v ===== *)
(** * session.go, session_send.go, session_receive.go: the encrypted session

    A [Session] has a send half (the fields guarded by sendMu) and a receive half
    (those guarded by receiveMu).  Every exported method runs under its mutex, so
    a concurrent execution is a sequence of whole method calls; [session_run] in
    SessionProofs runs such sequences.  Methods are modelled on non-nil receivers.

    Inputs of the environment are arguments of the call: [clock] gives the value
    of s.now() at each place the method reads it, [entropy] is what rand.Reader
    yields.  Times and durations are integers in nanoseconds.  The key log hooks
    are empty functions in the default build (keylog_disabled.go). *)

From S2P Require Import Prelude Wire Header Frame Tlv Utf8 Messages Replay Sha256 Crypto Rekey.
Import wire.

Local Open Scope Z_scope.
Local Open Scope sm_scope.

(** The call sites of s.now(). *)
Inductive ClockSite := ClockRekeyDue | ClockEpochStart | ClockPreviousGrace | ClockGraceStart | ClockGraceExpiry.
Definition Clock : Type := ClockSite → Z.
Definition zeroTime : Z := 0.

(** ** Messages as the session exchanges them *)
Inductive Message :=
  | MsgEncryptedData (m : EncryptedData)
  | MsgPingPong (m : PingPong)
  | MsgSessionClose (m : SessionClose)
  | MsgAck (m : Ack)
  | MsgRekeyInit (m : RekeyInit)
  | MsgErrorMessage (m : ErrorMessage).

(** The dynamic value of an argument of type [any]: one of the message types by
    value or by pointer, a nil pointer, or any other type. *)
Inductive AnyMessage :=
  | ByValue (m : Message)
  | ByPointer (m : Message)
  | NilPointer
  | OtherValue.

Definition validSessionMessageType (messageType : Z) : bool :=
  (MessageTypeEncryptedData <=? messageType) && (messageType <=? MessageTypeError).

Definition Message_MarshalBinary (m : Message) : outcome (list byte) :=
  match m with
  | MsgEncryptedData m => EncryptedData_MarshalBinary m
  | MsgPingPong m => PingPong_MarshalBinary m
  | MsgSessionClose m => SessionClose_MarshalBinary m
  | MsgAck m => Ack_MarshalBinary m
  | MsgRekeyInit m => RekeyInit_MarshalBinary m
  | MsgErrorMessage m => ErrorMessage_MarshalBinary m
  end.

(** The type switch has no case for RekeyInit: it takes the default branch. *)
Definition outboundMessage (message : AnyMessage) : outcome (Z * Message) :=
  match message with
  | ByValue m | ByPointer m =>
      match m with
      | MsgEncryptedData _ => Ok (MessageTypeEncryptedData, m)
      | MsgPingPong _ => Ok (MessageTypePingPong, m)
      | MsgSessionClose _ => Ok (MessageTypeSessionClose, m)
      | MsgAck _ => Ok (MessageTypeAck, m)
      | MsgErrorMessage _ => Ok (MessageTypeError, m)
      | MsgRekeyInit _ => Err ErrMessageType
      end
  | NilPointer | OtherValue => Err ErrMessageType
  end.

(** The fresh message with its UnmarshalBinary method. *)
Definition newInboundMessage (messageType : Z) : outcome (list byte → outcome Message) :=
  if messageType =? MessageTypeEncryptedData then Ok (λ data, MsgEncryptedData <$> EncryptedData_UnmarshalBinary data)
  else if messageType =? MessageTypePingPong then Ok (λ data, MsgPingPong <$> PingPong_UnmarshalBinary data)
  else if messageType =? MessageTypeSessionClose then Ok (λ data, MsgSessionClose <$> SessionClose_UnmarshalBinary data)
  else if messageType =? MessageTypeAck then Ok (λ data, MsgAck <$> Ack_UnmarshalBinary data)
  else if messageType =? MessageTypeRekeyInit then Ok (λ data, MsgRekeyInit <$> RekeyInit_UnmarshalBinary data)
  else if messageType =? MessageTypeError then Ok (λ data, MsgErrorMessage <$> ErrorMessage_UnmarshalBinary data)
  else Err ErrMessageType.

Section session.
Context {aead : AEAD}.

(** ** State *)
Record HandshakeSecrets := mkHandshakeSecrets {
  hsSessionID : list byte; hsSendKey : list byte; hsReceiveKey : list byte;
}.

Record pendingSendRekey := mkPendingSendRekey {
  prFrame : Frame; prKey : list byte; prCodec : Codec; prEpoch : Z;
}.

Record SendState := mkSendState {
  sSend : Codec;
  sSendKey : list byte;
  sSendEpoch : Z;
  sNextSequence : Z;
  sSentInEpoch : Z;
  sEpochStarted : Z;
  sRekeyFrameLimit : Z;
  sRekeyInterval : Z;
  sPendingRekey : option pendingSendRekey;
}.

Record ReceiveState := mkReceiveState {
  rReceive : Codec;
  rReceiveKey : list byte;
  rReceiveEpoch : Z;
  rReplay : ReplayWindow;
  rPreviousReceive : option Codec;
  rPreviousReplay : ReplayWindow;
  rGraceRemaining : Z;
  rGraceUntil : Z;
  rGraceFrames : Z;
  rGracePeriod : Z;
}.

Record Session := mkSession {
  sessSessionID : list byte;
  sessSuite : Z;
  sessClosed : bool;
  sessSend : SendState;
  sessReceive : ReceiveState;
}.

Definition with_send (f : SendState → SendState) (s : Session) : Session :=
  mkSession (sessSessionID s) (sessSuite s) (sessClosed s) (f (sessSend s)) (sessReceive s).
Definition with_receive (f : ReceiveState → ReceiveState) (s : Session) : Session :=
  mkSession (sessSessionID s) (sessSuite s) (sessClosed s) (sessSend s) (f (sessReceive s)).

Definition NewSession (suite : Z) (secrets : HandshakeSecrets) (now : Z) : outcome Session :=
  if negb (suite =? CipherChaCha20Poly1305) then Err ErrUnsupportedCipher else
  if bool_decide (hsSessionID secrets = zero16) then Err ErrInvalidSessionID else
  send ← NewCodec suite (hsSendKey secrets);
  receive ← NewCodec suite (hsReceiveKey secrets);
  Ok (mkSession (hsSessionID secrets) suite false
        (mkSendState send (hsSendKey secrets) 1 1 0 now DefaultRekeyFrameLimit DefaultRekeyInterval None)
        (mkReceiveState receive (hsReceiveKey secrets) 1 zeroReplayWindow None zeroReplayWindow 0 zeroTime
           DefaultRekeyGraceFrames DefaultRekeyGracePeriod)).

Definition Session_SessionID (s : Session) : list byte := sessSessionID s.

Definition Session_Close : sm Session unit :=
  sm_modify (λ s, mkSession (sessSessionID s) (sessSuite s) true (sessSend s) (sessReceive s)).

Definition Session_Closed (s : Session) : bool := sessClosed s.

(** ** Sending *)
Definition encryptLocked (messageType : Z) (plaintext : list byte) (padLength : Z) (entropy : list byte)
    : sm Session Frame :=
  let* sequence := sm_get (λ s, sNextSequence (sessSend s)) in
  if sequence =? 0 then sm_throw ErrSequenceExhausted else
  let* s := sm_get id in
  let* frame := sm_lift (Codec_Encrypt (sSend (sessSend s)) messageType (sessSessionID s) sequence plaintext
                           padLength entropy) in
  sm_modify (with_send (λ ss,
    mkSendState (sSend ss) (sSendKey ss) (sSendEpoch ss)
      (if sequence =? 2 ^ 64 - 1 then 0 else wrap 64 (sNextSequence ss + 1))
      (wrap 64 (sSentInEpoch ss + 1))
      (sEpochStarted ss) (sRekeyFrameLimit ss) (sRekeyInterval ss) (sPendingRekey ss)));;
  sm_ret frame.

Definition rekeyDueLocked (clock : Clock) (ss : SendState) : bool :=
  (negb (sRekeyFrameLimit ss =? 0) && (sRekeyFrameLimit ss <=? sSentInEpoch ss)) ||
  ((0 <? sRekeyInterval ss) && negb (clock ClockRekeyDue <? sEpochStarted ss + sRekeyInterval ss)).

Definition startRekeyLocked (padLength : Z) (entropy : list byte) : sm Session Frame :=
  let* s := sm_get id in
  let epoch := sSendEpoch (sessSend s) in
  let key := sSendKey (sessSend s) in
  if epoch =? 2 ^ 32 - 1 then sm_throw ErrEpochExhausted else
  let nextEpoch := wrap 32 (epoch + 1) in
  let* confirm := sm_lift (ComputeKeyConfirm (Some (mkRekeyState epoch)) key nextEpoch) in
  let* payload := sm_lift (RekeyInit_MarshalBinary (mkRekeyInit nextEpoch confirm)) in
  let* frame := encryptLocked MessageTypeRekeyInit payload padLength entropy in
  let* nextKey := sm_lift (deriveNextTrafficKey key) in
  let* nextCodec := sm_lift (NewCodec (sessSuite s) nextKey) in
  let pendingFrame := mkFrame (frHeader frame) (frPayload frame) (frTag frame) (frPadding frame) in
  sm_modify (with_send (λ ss,
    mkSendState (sSend ss) (sSendKey ss) (sSendEpoch ss) (sNextSequence ss) (sSentInEpoch ss)
      (sEpochStarted ss) (sRekeyFrameLimit ss) (sRekeyInterval ss)
      (Some (mkPendingSendRekey pendingFrame nextKey nextCodec nextEpoch))));;
  sm_ret frame.

Definition sendPayload (clock : Clock) (entropy : list byte) (messageType : Z) (plaintext : list byte)
    (padLength : Z) : sm Session Frame :=
  if negb (validSessionMessageType messageType) then sm_throw ErrMessageType else
  let* s := sm_get id in
  if sessClosed s then sm_throw ErrSessionClosed else
  match sPendingRekey (sessSend s) with
  | Some _ => sm_throw ErrRekeyPending
  | None =>
      if rekeyDueLocked clock (sessSend s) then startRekeyLocked padLength entropy
      else encryptLocked messageType plaintext padLength entropy
  end.

Definition Session_Send (clock : Clock) (entropy : list byte) (message : AnyMessage) (padLength : Z)
    : sm Session Frame :=
  let* (messageType, marshaler) := sm_lift (outboundMessage message) in
  let* plaintext := sm_lift (Message_MarshalBinary marshaler) in
  sendPayload clock entropy messageType plaintext padLength.

Definition Session_SendPayload (clock : Clock) (entropy : list byte) (messageType : Z) (plaintext : list byte)
    (padLength : Z) : sm Session Frame :=
  if messageType =? MessageTypeResumptionTicket then sm_throw ErrMessageType else
  if messageType =? MessageTypeRekeyInit then sm_throw ErrMessageType else
  sendPayload clock entropy messageType plaintext padLength.

Definition sameRekeyFrame (a b : Frame) : bool :=
  bool_decide (frHeader a = frHeader b) && bool_decide (frTag a = frTag b) &&
  bool_decide (frPayload a = frPayload b) && bool_decide (frPadding a = frPadding b).

Definition Session_MarkRekeySent (clock : Clock) (frame : Frame) : sm Session unit :=
  let* s := sm_get id in
  if sessClosed s then sm_throw ErrSessionClosed else
  match sPendingRekey (sessSend s) with
  | None => sm_throw ErrRekeyPending
  | Some pending =>
      if negb (sameRekeyFrame (prFrame pending) frame) then sm_throw ErrRekeyPending else
      sm_modify (with_send (λ ss,
        mkSendState (prCodec pending) (prKey pending) (prEpoch pending) 1 0 (clock ClockEpochStart)
          (sRekeyFrameLimit ss) (sRekeyInterval ss) None))
  end.

(** ** Receiving *)
Record receiveCandidate := mkReceiveCandidate {
  rcPlaintext : list byte; rcCurrent : bool; rcToken : ReplayToken;
}.
Definition zeroReplayToken : ReplayToken := mkReplayToken 0 0.

Definition decryptEpochLocked (clock : Clock) (frame : Frame) : sm Session receiveCandidate :=
  let sequence := hdrSequence (frHeader frame) in
  if sequence =? 0 then sm_throw ErrReplayZero else
  let* r := sm_get sessReceive in
  match Codec_Decrypt (rReceive r) frame with
  | Panic => sm_lift Panic
  | Ok plaintext =>
      let* token := sm_lift (ReplayWindow_Check (rReplay r) sequence) in
      sm_ret (mkReceiveCandidate plaintext true token)
  | Err err =>
      if negb (bool_decide (err = ErrAuthentication)) then sm_throw err else
      match rPreviousReceive r with
      | Some previous =>
          if (0 <? rGraceRemaining r) && (0 <? rGracePeriod r) && (clock ClockPreviousGrace <? rGraceUntil r) then
            match Codec_Decrypt previous frame with
            | Panic => sm_lift Panic
            | Ok plaintext =>
                if hdrMessageType (frHeader frame) =? MessageTypeRekeyInit
                then sm_ret (mkReceiveCandidate plaintext false zeroReplayToken) else
                let* token := sm_lift (ReplayWindow_Check (rPreviousReplay r) sequence) in
                sm_ret (mkReceiveCandidate plaintext false token)
            | Err err =>
                if negb (bool_decide (err = ErrAuthentication)) then sm_throw err else sm_throw ErrAuthentication
            end
          else sm_throw ErrAuthentication
      | None => sm_throw ErrAuthentication
      end
  end.

Definition prepareRekeyLocked (init : RekeyInit) : sm Session (list byte * Codec) :=
  let* s := sm_get id in
  let r := sessReceive s in
  if rReceiveEpoch r =? 2 ^ 32 - 1 then sm_throw ErrEpochExhausted else
  if negb (riEpoch init =? wrap 32 (rReceiveEpoch r + 1)) then sm_throw ErrInvalidEpoch else
  let* expected := sm_lift (ComputeKeyConfirm (Some (mkRekeyState (rReceiveEpoch r))) (rReceiveKey r) (riEpoch init)) in
  if negb (hmac.Equal expected (riKeyConfirm init)) then sm_throw ErrKeyConfirmFailed else
  let* nextKey := sm_lift (deriveNextTrafficKey (rReceiveKey r)) in
  let* nextCodec := sm_lift (NewCodec (sessSuite s) nextKey) in
  sm_ret (nextKey, nextCodec).

Definition expireGrace (clock : Clock) (r : ReceiveState) : ReceiveState :=
  match rPreviousReceive r with
  | None => r
  | Some _ =>
      if (rGraceRemaining r =? 0) || (rGracePeriod r <=? 0) || negb (clock ClockGraceExpiry <? rGraceUntil r)
      then mkReceiveState (rReceive r) (rReceiveKey r) (rReceiveEpoch r) (rReplay r) None zeroReplayWindow 0 zeroTime
             (rGraceFrames r) (rGracePeriod r)
      else r
  end.

Definition expireGraceLocked (clock : Clock) : sm Session unit := sm_modify (with_receive (expireGrace clock)).

(** Commit on a copy of the window; the copy is returned when the commit succeeds. *)
Definition commitReplay (w : ReplayWindow) (token : ReplayToken) : outcome ReplayWindow :=
  '(committed, err) ← ReplayWindow_Commit w token;
  match err with Some e => Err e | None => Ok committed end.

Definition Session_ReceivePayload (clock : Clock) (frame : Frame) : sm Session (list byte) :=
  let messageType := hdrMessageType (frHeader frame) in
  if messageType =? MessageTypeResumptionTicket then sm_throw ErrMessageType else
  let* s := sm_get id in
  if negb (bool_decide (hdrSessionID (frHeader frame) = sessSessionID s)) then sm_throw ErrWrongSession else
  if negb (validSessionMessageType messageType) then sm_throw ErrMessageType else
  if sessClosed s then sm_throw ErrSessionClosed else
  let* candidate := decryptEpochLocked clock frame in
  if negb (rcCurrent candidate) && (messageType =? MessageTypeRekeyInit) then sm_throw ErrInvalidEpoch else
  if rcCurrent candidate && (messageType =? MessageTypeRekeyInit) then
    let* init := sm_lift (RekeyInit_UnmarshalBinary (rcPlaintext candidate)) in
    let* (nextKey, nextCodec) := prepareRekeyLocked init in
    let* committedReplay := sm_lift (commitReplay (rReplay (sessReceive s)) (rcToken candidate)) in
    sm_modify (with_receive (λ r,
      mkReceiveState nextCodec nextKey (riEpoch init) zeroReplayWindow (Some (rReceive r)) committedReplay
        (rGraceFrames r) (clock ClockGraceStart + rGracePeriod r) (rGraceFrames r) (rGracePeriod r)));;
    expireGraceLocked clock;;
    sm_ret (rcPlaintext candidate)
  else if rcCurrent candidate then
    let* committedReplay := sm_lift (commitReplay (rReplay (sessReceive s)) (rcToken candidate)) in
    sm_modify (with_receive (λ r,
      mkReceiveState (rReceive r) (rReceiveKey r) (rReceiveEpoch r) committedReplay (rPreviousReceive r)
        (rPreviousReplay r) (rGraceRemaining r) (rGraceUntil r) (rGraceFrames r) (rGracePeriod r)));;
    match rPreviousReceive (sessReceive s) with
    | None => sm_ret (rcPlaintext candidate)
    | Some _ =>
        sm_modify (with_receive (λ r,
          mkReceiveState (rReceive r) (rReceiveKey r) (rReceiveEpoch r) (rReplay r) (rPreviousReceive r)
            (rPreviousReplay r) (if 0 <? rGraceRemaining r then rGraceRemaining r - 1 else rGraceRemaining r)
            (rGraceUntil r) (rGraceFrames r) (rGracePeriod r)));;
        expireGraceLocked clock;;
        sm_ret (rcPlaintext candidate)
    end
  else
    let* committedReplay := sm_lift (commitReplay (rPreviousReplay (sessReceive s)) (rcToken candidate)) in
    sm_modify (with_receive (λ r,
      mkReceiveState (rReceive r) (rReceiveKey r) (rReceiveEpoch r) (rReplay r) (rPreviousReceive r)
        committedReplay (rGraceRemaining r) (rGraceUntil r) (rGraceFrames r) (rGracePeriod r)));;
    sm_ret (rcPlaintext candidate).

Definition Session_Receive (clock : Clock) (frame : Frame) : sm Session Message :=
  let* plaintext := Session_ReceivePayload clock frame in
  let* message := sm_lift (newInboundMessage (hdrMessageType (frHeader frame))) in
  sm_lift (message plaintext).

(** ** Runs

    Each call takes its mutex, so the calls of concurrent goroutines take effect
    one after the other.  The events record what each call returned; the epoch in
    an event is the one whose key sealed or opened the frame. *)
Inductive SessionOp :=
  | OpSend (clock : Clock) (entropy : list byte) (message : AnyMessage) (padLength : Z)
  | OpSendPayload (clock : Clock) (entropy : list byte) (messageType : Z) (plaintext : list byte) (padLength : Z)
  | OpMarkRekeySent (clock : Clock) (frame : Frame)
  | OpReceive (clock : Clock) (frame : Frame)
  | OpReceivePayload (clock : Clock) (frame : Frame)
  | OpClose.

Inductive SessionEvent :=
  | EvSent (epoch : Z) (frame : Frame)
  | EvRekeyMarked
  | EvDelivered (epoch : Z) (frame : Frame)
  | EvClosed
  | EvFailed (e : error)
  | EvPanic.

Definition frame_epoch (r : ReceiveState) (frame : Frame) : Z :=
  if is_ok (Codec_Decrypt (rReceive r) frame) then rReceiveEpoch r else rReceiveEpoch r - 1.

Definition event_of {A} (ok : A → SessionEvent) (o : outcome A) : SessionEvent :=
  match o with Ok a => ok a | Err e => EvFailed e | Panic => EvPanic end.

Definition session_step (op : SessionOp) (s : Session) : Session * SessionEvent :=
  match op with
  | OpSend clock entropy message padLength =>
      let '(s', o) := Session_Send clock entropy message padLength s in
      (s', event_of (EvSent (sSendEpoch (sessSend s))) o)
  | OpSendPayload clock entropy messageType plaintext padLength =>
      let '(s', o) := Session_SendPayload clock entropy messageType plaintext padLength s in
      (s', event_of (EvSent (sSendEpoch (sessSend s))) o)
  | OpMarkRekeySent clock frame =>
      let '(s', o) := Session_MarkRekeySent clock frame s in (s', event_of (λ _, EvRekeyMarked) o)
  | OpReceive clock frame =>
      let '(s', o) := Session_Receive clock frame s in
      (s', event_of (λ _, EvDelivered (frame_epoch (sessReceive s) frame) frame) o)
  | OpReceivePayload clock frame =>
      let '(s', o) := Session_ReceivePayload clock frame s in
      (s', event_of (λ _, EvDelivered (frame_epoch (sessReceive s) frame) frame) o)
  | OpClose => let '(s', o) := Session_Close s in (s', event_of (λ _, EvClosed) o)
  end.

Fixpoint session_run (ops : list SessionOp) (s : Session) : Session * list SessionEvent :=
  match ops with
  | [] => (s, [])
  | op :: ops =>
      let '(s1, ev) := session_step op s in
      let '(s2, evs) := session_run ops s1 in
      (s2, ev :: evs)
  end.

(** Arguments of their Go types. *)
Definition Message_typed (m : Message) : Prop :=
  match m with
  | MsgEncryptedData m => typed m
  | MsgPingPong m => typed m
  | MsgSessionClose m => typed m
  | MsgAck m => typed m
  | MsgRekeyInit m => typed m
  | MsgErrorMessage m => typed m
  end.

Definition AnyMessage_typed (m : AnyMessage) : Prop :=
  match m with ByValue m | ByPointer m => Message_typed m | _ => True end.

Definition op_typed (op : SessionOp) : Prop :=
  match op with
  | OpSend _ _ message padLength => AnyMessage_typed message ∧ uint 8 padLength
  | OpSendPayload _ _ messageType plaintext padLength =>
      uint 8 messageType ∧ uint 8 padLength ∧ zlen plaintext < 2 ^ 63
  | OpMarkRekeySent _ frame | OpReceive _ frame | OpReceivePayload _ frame => Frame_ok frame
  | OpClose => True
  end.

(** What one half of the session leaves alone in the other. *)
Definition send_half (s : Session) : list byte * Z * SendState := (sessSessionID s, sessSuite s, sessSend s).
Definition receive_half (s : Session) : list byte * Z * ReceiveState := (sessSessionID s, sessSuite s, sessReceive s).

Lemma ReceivePayload_keeps clock frame : keeps send_half (Session_ReceivePayload clock frame).
Proof.
  unfold Session_ReceivePayload, decryptEpochLocked, prepareRekeyLocked, expireGraceLocked. cbv zeta. keeps_run.
Qed.

Lemma Receive_keeps clock frame : keeps send_half (Session_Receive clock frame).
Proof. unfold Session_Receive. pose proof (ReceivePayload_keeps clock frame). keeps_run. Qed.

Lemma sendPayload_keeps clock entropy t p n : keeps receive_half (sendPayload clock entropy t p n).
Proof. unfold sendPayload, startRekeyLocked, encryptLocked. cbv zeta. keeps_run. Qed.

Lemma Send_keeps clock entropy m n : keeps receive_half (Session_Send clock entropy m n).
Proof. unfold Session_Send. pose proof sendPayload_keeps. keeps_run. Qed.

Lemma SendPayload_keeps clock entropy t p n : keeps receive_half (Session_SendPayload clock entropy t p n).
Proof. unfold Session_SendPayload. pose proof sendPayload_keeps. keeps_run. Qed.

Lemma MarkRekeySent_keeps clock frame : keeps receive_half (Session_MarkRekeySent clock frame).
Proof. unfold Session_MarkRekeySent. keeps_run. Qed.

End session.
