(* ===== verification/SessionSend.v ===== *)
(** * The send half of a session

    [send_ok] is the invariant of the fields guarded by sendMu, [emits] describes
    a successful send: either the caller's message under the current key and the
    next sequence number, or a RekeyInit that leaves the session waiting for
    MarkRekeySent.  The theorems show that a failed call changes nothing, that the
    frames of any run are numbered without gaps and without reuse of an (epoch,
    nonce) pair, and that nothing is emitted between a RekeyInit and its
    confirmation. *)

From S2P Require Import Prelude Wire Header Frame Tlv Utf8 Messages Replay Sha256 Crypto Rekey Session.
Import wire.

Local Open Scope Z_scope.
Local Open Scope sm_scope.
Local Opaque header_layout next_key key_confirm.

(** The traffic key after [n] ratchet steps. *)
Fixpoint ratchet (n : nat) (key : list byte) : list byte :=
  match n with O => key | S n' => next_key (ratchet n' key) end.

Lemma zlen_ratchet n key : zlen key = KeySize → zlen (ratchet n key) = KeySize.
Proof. intros. destruct n; [done|]. apply zlen_next_key. Qed.

Definition is_rekey (f : Frame) : bool := hdrMessageType (frHeader f) =? MessageTypeRekeyInit.

(** Arguments of a send call of their Go types. *)
Definition payload_typed (messageType : Z) (plaintext : list byte) (padLength : Z) : Prop :=
  uint 8 messageType ∧ uint 8 padLength ∧ zlen plaintext < 2 ^ 63.

Section send.
Context {aead : AEAD} {laws : AEADLaws}.

Definition codec_of (key : list byte) (c : Codec) : Prop :=
  zlen key = KeySize ∧ NewCodec CipherChaCha20Poly1305 key = Ok c.

Lemma codec_of_next key : ∃ c, codec_of (next_key key) c.
Proof.
  destruct (NewCodec_Ok (next_key key)) as [c Hc]; [apply zlen_next_key|].
  exists c. split; [apply zlen_next_key|done].
Qed.

Record pending_ok (ss : SendState) (p : pendingSendRekey) : Prop := {
  po_key : prKey p = next_key (sSendKey ss);
  po_codec : codec_of (prKey p) (prCodec p);
  po_epoch : prEpoch p = sSendEpoch ss + 1;
  po_limit : sSendEpoch ss < 2 ^ 32 - 1;
  po_frame : is_rekey (prFrame p) = true;
}.

Record send_ok (s : Session) : Prop := {
  so_id : zlen (sessSessionID s) = 16 ∧ sessSessionID s ≠ zero16;
  so_suite : sessSuite s = CipherChaCha20Poly1305;
  so_codec : codec_of (sSendKey (sessSend s)) (sSend (sessSend s));
  so_epoch : 1 ≤ sSendEpoch (sessSend s) < 2 ^ 32;
  so_next : uint 64 (sNextSequence (sessSend s));
  so_sent : uint 64 (sSentInEpoch (sessSend s));
  so_pending : ∀ p, sPendingRekey (sessSend s) = Some p → pending_ok (sessSend s) p;
}.

(** ** The state after a frame is emitted *)
Definition advance (ss : SendState) : SendState :=
  mkSendState (sSend ss) (sSendKey ss) (sSendEpoch ss)
    (if sNextSequence ss =? 2 ^ 64 - 1 then 0 else sNextSequence ss + 1) (wrap 64 (sSentInEpoch ss + 1))
    (sEpochStarted ss) (sRekeyFrameLimit ss) (sRekeyInterval ss) (sPendingRekey ss).

Definition set_pending (p : pendingSendRekey) (ss : SendState) : SendState :=
  mkSendState (sSend ss) (sSendKey ss) (sSendEpoch ss) (sNextSequence ss) (sSentInEpoch ss)
    (sEpochStarted ss) (sRekeyFrameLimit ss) (sRekeyInterval ss) (Some p).

(** The RekeyInit payload of the current epoch. *)
Definition rekey_payload (ss : SendState) : list byte :=
  RekeyInit_layout (mkRekeyInit (sSendEpoch ss + 1) (key_confirm (sSendKey ss) (sSendEpoch ss + 1))).

Lemma zlen_rekey_payload ss : zlen (rekey_payload ss) = RekeyInitSize.
Proof.
  unfold rekey_payload, RekeyInit_layout. cbn [riEpoch riKeyConfirm].
  rewrite zlen_app, zlen_le_put, zlen_key_confirm. done.
Qed.

(** A frame under the current key and the next sequence number. *)
Definition sealed_next (s : Session) (messageType : Z) (plaintext padding : list byte) : Frame :=
  seal_frame (sSend (sessSend s)) messageType (sessSessionID s) (sNextSequence (sessSend s)) plaintext padding.

Definition sendable (s : Session) (messageType : Z) (plaintext : list byte) (padLength : Z) (entropy : list byte)
    : Prop :=
  sNextSequence (sessSend s) ≠ 0 ∧
  encrypted_header messageType (sessSessionID s) (sNextSequence (sessSend s)) ∧
  frame_fits plaintext padLength ∧ padLength ≤ zlen entropy.

Lemma encryptLocked_result s messageType plaintext padLength entropy :
  send_ok s → payload_typed messageType plaintext padLength →
  (∃ e, encryptLocked messageType plaintext padLength entropy s = (s, Err e) ∧
        ¬ sendable s messageType plaintext padLength entropy) ∨
  sendable s messageType plaintext padLength entropy ∧
  encryptLocked messageType plaintext padLength entropy s =
    (with_send advance s, Ok (sealed_next s messageType plaintext (take (Z.to_nat padLength) entropy))).
Proof.
  intros Hok (Hmt & Hpad & Hpt). unfold encryptLocked, sm_bind, sm_get, sm_lift, sm_throw, sm_modify, sm_ret, id, sendable.
  destruct (sNextSequence (sessSend s) =? 0) eqn:H0.
  { apply Z.eqb_eq in H0. left. eexists. split; [done|]. naive_solver. }
  apply Z.eqb_neq in H0.
  assert (encrypt_typed messageType (sessSessionID s) (sNextSequence (sessSend s)) padLength) as Hty.
  { split; [done|]. split; [apply so_id, Hok|]. split; [apply so_next, Hok|done]. }
  destruct (Codec_Encrypt _ _ _ _ _ _ _) as [f|e|] eqn:He.
  - apply Codec_Encrypt_inv in He as (Hh & Hf & Hl & ->); [|done..]. right. split; [done|].
    unfold with_send, advance. f_equal. f_equal. f_equal. destruct (_ =? 2 ^ 64 - 1) eqn:Hmax; [done|].
    apply Z.eqb_neq in Hmax. pose proof (so_next s Hok) as [? ?]. apply wrap_small. unfold uint. lia.
  - left. exists e. split; [done|]. intros (_ & Hh & Hf & Hl). by rewrite Codec_Encrypt_Ok in He.
  - by apply Codec_Encrypt_no_panic in He.
Qed.

Lemma startRekeyLocked_result s padLength entropy :
  send_ok s → uint 8 padLength →
  (∃ e, startRekeyLocked padLength entropy s = (s, Err e) ∧
        ¬ (sSendEpoch (sessSend s) < 2 ^ 32 - 1 ∧
           sendable s MessageTypeRekeyInit (rekey_payload (sessSend s)) padLength entropy)) ∨
  sendable s MessageTypeRekeyInit (rekey_payload (sessSend s)) padLength entropy ∧
  ∃ c, let f := sealed_next s MessageTypeRekeyInit (rekey_payload (sessSend s)) (take (Z.to_nat padLength) entropy) in
    let p := mkPendingSendRekey f (next_key (sSendKey (sessSend s))) c (sSendEpoch (sessSend s) + 1) in
    pending_ok (sessSend s) p ∧
    startRekeyLocked padLength entropy s = (with_send (set_pending p) (with_send advance s), Ok f).
Proof.
  intros Hok Hpad. unfold startRekeyLocked, sm_get, sm_lift, sm_throw, sm_modify, sm_ret, id.
  rewrite sm_bind_run. cbv zeta. pose proof (so_epoch s Hok) as Hep.
  destruct (_ =? 2 ^ 32 - 1) eqn:Hmax.
  { apply Z.eqb_eq in Hmax. left. eexists. split; [done|]. lia. }
  apply Z.eqb_neq in Hmax. rewrite (wrap_small 32) by (unfold uint; lia).
  rewrite ComputeKeyConfirm_Ok by lia. rewrite !sm_bind_run.
  rewrite RekeyInit_marshal by (split; [unfold uint; cbn; lia|apply zlen_key_confirm]).
  cbn [riEpoch]. rewrite (proj2 (Z.eqb_neq _ 0)), sm_bind_run by lia. fold (rekey_payload (sessSend s)).
  destruct (encryptLocked_result s MessageTypeRekeyInit (rekey_payload (sessSend s)) padLength entropy Hok)
    as [(e & -> & Hn)|[Hs ->]].
  { split; [done|]. split; [done|]. by rewrite zlen_rekey_payload. }
  { left. exists e. split; [done|]. naive_solver. }
  right. split; [done|]. destruct (so_codec s Hok) as [Hk _]. destruct (codec_of_next (sSendKey (sessSend s))) as [c Hc].
  exists c. split.
  { split; [reflexivity|exact Hc|reflexivity|lia|reflexivity]. }
  rewrite sm_bind_run, deriveNextTrafficKey_Ok by done. rewrite sm_bind_run, (so_suite s Hok).
  destruct Hc as [_ ->]. reflexivity.
Qed.

(** ** What a successful send emits *)
Inductive emits (s : Session) : Frame → Session → Prop :=
  | emits_data messageType plaintext padding :
      messageType ≠ MessageTypeRekeyInit →
      encrypted_header messageType (sessSessionID s) (sNextSequence (sessSend s)) →
      frame_fits plaintext (zlen padding) → zlen padding ≤ 255 →
      emits s (sealed_next s messageType plaintext padding) (with_send advance s)
  | emits_rekey padding p :
      encrypted_header MessageTypeRekeyInit (sessSessionID s) (sNextSequence (sessSend s)) →
      zlen padding ≤ 255 → pending_ok (sessSend s) p →
      prFrame p = sealed_next s MessageTypeRekeyInit (rekey_payload (sessSend s)) padding →
      emits s (prFrame p) (with_send (set_pending p) (with_send advance s)).

Definition can_send (s : Session) : Prop := sessClosed s = false ∧ sPendingRekey (sessSend s) = None.

Lemma sendPayload_result clock entropy messageType plaintext padLength s :
  send_ok s → payload_typed messageType plaintext padLength → messageType ≠ MessageTypeRekeyInit →
  (∃ e, sendPayload clock entropy messageType plaintext padLength s = (s, Err e) ∧
        (sPendingRekey (sessSend s) ≠ None → validSessionMessageType messageType = true →
         sessClosed s = false → e = ErrRekeyPending)) ∨
  ∃ f s', sendPayload clock entropy messageType plaintext padLength s = (s', Ok f) ∧
    can_send s ∧ emits s f s' ∧
    (if rekeyDueLocked clock (sessSend s) then is_rekey f = true
     else f = sealed_next s messageType plaintext (take (Z.to_nat padLength) entropy)).
Proof.
  intros Hok Hty Hmt. unfold sendPayload. destruct (validSessionMessageType messageType); cbn [negb];
    [|left; eexists; split; [done|naive_solver]].
  sm_run. destruct (sessClosed s) eqn:Hcl; [left; eexists; split; [done|naive_solver]|].
  destruct (sPendingRekey (sessSend s)) as [p|] eqn:Hp; [left; eexists; split; done|].
  pose proof Hty as (_ & Hpad & _).
  destruct (rekeyDueLocked clock (sessSend s)).
  - destruct (startRekeyLocked_result s padLength entropy Hok Hpad) as [(e & -> & _)|(Hs & c & Hpo & ->)].
    { left. eexists. split; [done|naive_solver]. }
    right. eexists _, _. split; [reflexivity|]. split; [done|]. destruct Hs as (_ & Hh & Hf & Hl).
    assert (zlen (take (Z.to_nat padLength) entropy) = padLength) as Hz by (apply zlen_take; unfold uint in Hpad; lia).
    split; [|done]. refine (emits_rekey s _ (mkPendingSendRekey _ _ _ _) Hh _ Hpo eq_refl).
    unfold uint in Hpad. lia.
  - destruct (encryptLocked_result s messageType plaintext padLength entropy Hok Hty) as [(e & -> & _)|[Hs ->]].
    { left. eexists. split; [done|naive_solver]. }
    right. eexists _, _. split; [done|]. split; [done|]. destruct Hs as (_ & Hh & Hf & Hl).
    assert (zlen (take (Z.to_nat padLength) entropy) = padLength) as Hz by (apply zlen_take; unfold uint in Hpad; lia).
    split; [|done]. apply emits_data; [done..|by rewrite Hz|unfold uint in Hpad; lia].
Qed.

Lemma send_ok_advance s : send_ok s → sPendingRekey (sessSend s) = None → send_ok (with_send advance s).
Proof.
  intros [] Hp. split; cbn [with_send advance sessSessionID sessSuite sessSend sSend sSendKey sSendEpoch sNextSequence
    sSentInEpoch sPendingRekey]; try done.
  - destruct (_ =? _) eqn:E; [done|]. apply Z.eqb_neq in E. unfold uint in *. lia.
  - by apply wrap_uint.
  - by rewrite Hp.
Qed.

Lemma emits_ok s f s' : send_ok s → sPendingRekey (sessSend s) = None → emits s f s' → send_ok s'.
Proof.
  intros Hok Hp He. apply (send_ok_advance s Hok) in Hp as Ha.
  destruct He as [|padding p _ _ Hpo _]; [done|]. destruct Ha. split; try done.
  intros p' [= <-]. by destruct Hpo.
Qed.

(** The fields of an emitted frame. *)
(** An emitted frame is the sealing of some plaintext that may be sent. *)
Lemma emits_shape s f s' :
  send_ok s → emits s f s' →
  ∃ t p pad, encrypted_header t (sessSessionID s) (sNextSequence (sessSend s)) ∧ frame_fits p (zlen pad) ∧
    encrypt_typed t (sessSessionID s) (sNextSequence (sessSend s)) (zlen pad) ∧
    f = sealed_next s t p pad ∧ (t = MessageTypeRekeyInit → p = rekey_payload (sessSend s)).
Proof.
  intros Hok He.
  assert (∀ t (pad : list byte),
    encrypted_header t (sessSessionID s) (sNextSequence (sessSend s)) → zlen pad ≤ 255 →
    encrypt_typed t (sessSessionID s) (sNextSequence (sessSend s)) (zlen pad)) as Hty.
  { intros t pad (Ht & _) Hpad. pose proof (zlen_nonneg pad).
    unfold MessageTypeEncryptedData, MessageTypeError in Ht.
    split; [|split; [apply (so_id s Hok)|split; [apply (so_next s Hok)|]]]; unfold uint; lia. }
  destruct He as [t p pad Ht Hh Hf Hpad|pad q Hh Hpad _ Hq].
  - exists t, p, pad. split_and!; auto. by intros ->.
  - exists MessageTypeRekeyInit, (rekey_payload (sessSend s)), pad. split_and!; auto. unfold frame_fits.
    rewrite zlen_rekey_payload. unfold HeaderSize, RekeyInitSize, AEADTagSize, MaxFrameSize. lia.
Qed.

Lemma emits_frame s f s' :
  emits s f s' →
  hdrSequence (frHeader f) = sNextSequence (sessSend s) ∧ hdrSessionID (frHeader f) = sessSessionID s ∧
  sNextSequence (sessSend s) ≠ 0 ∧
  sSendEpoch (sessSend s') = sSendEpoch (sessSend s) ∧ sSendKey (sessSend s') = sSendKey (sessSend s) ∧
  sNextSequence (sessSend s') = sNextSequence (sessSend (with_send advance s)) ∧
  ∃ t p pad, f = seal_frame (sSend (sessSend s)) t (sessSessionID s) (sNextSequence (sessSend s)) p pad.
Proof.
  intros [t p pad Ht (_ & _ & Hs & _) _ _|pad p (_ & _ & Hs & _) _ _ Hp].
  - repeat split; try done. by exists t, p, pad.
  - rewrite Hp. repeat split; try done. by exists MessageTypeRekeyInit, (rekey_payload (sessSend s)), pad.
Qed.

(** ** MarkRekeySent *)
Definition commit_rekey (now : Z) (p : pendingSendRekey) (ss : SendState) : SendState :=
  mkSendState (prCodec p) (prKey p) (prEpoch p) 1 0 now (sRekeyFrameLimit ss) (sRekeyInterval ss) None.

Lemma sameRekeyFrame_eq a b : sameRekeyFrame a b = bool_decide (a = b).
Proof.
  unfold sameRekeyFrame. destruct a as [h p t d], b as [h' p' t' d']. cbn [frHeader frPayload frTag frPadding].
  apply eq_true_iff_eq. rewrite !andb_true_iff, !bool_decide_eq_true. naive_solver.
Qed.

Lemma MarkRekeySent_result clock f s :
  (∃ e, Session_MarkRekeySent clock f s = (s, Err e) ∧
        ¬ (sessClosed s = false ∧ ∃ p, sPendingRekey (sessSend s) = Some p ∧ prFrame p = f)) ∨
  ∃ p, sessClosed s = false ∧ sPendingRekey (sessSend s) = Some p ∧ prFrame p = f ∧
       Session_MarkRekeySent clock f s = (with_send (commit_rekey (clock ClockEpochStart) p) s, Ok tt).
Proof.
  unfold Session_MarkRekeySent. sm_run.
  destruct (sessClosed s) eqn:Hcl; [left; eexists; split; [done|naive_solver]|].
  destruct (sPendingRekey (sessSend s)) as [p|]; [|left; eexists; split; [done|naive_solver]].
  rewrite sameRekeyFrame_eq. case_bool_decide as Hf; cbn [negb]; [|left; eexists; split; [done|naive_solver]].
  right. by exists p.
Qed.

Lemma commit_rekey_ok now p s :
  send_ok s → sPendingRekey (sessSend s) = Some p → send_ok (with_send (commit_rekey now p) s).
Proof.
  intros Hok Hp. pose proof (so_epoch s Hok). destruct (so_pending s Hok p Hp) as [Hk Hc He Hl _]. destruct Hok.
  split; cbn [with_send commit_rekey sessSessionID sessSuite sessSend sSend sSendKey sSendEpoch sNextSequence
    sSentInEpoch sPendingRekey]; try done. lia.
Qed.

(** ** Every operation on the send half *)
Lemma outboundMessage_typed message t m p padLength :
  AnyMessage_typed message → uint 8 padLength →
  outboundMessage message = Ok (t, m) → Message_MarshalBinary m = Ok p →
  payload_typed t p padLength ∧ t ≠ MessageTypeRekeyInit.
Proof.
  intros Hty Hpad Hout Hm.
  assert (zlen p ≤ MaxEncryptedPayloadSize ∧ uint 8 t ∧ t ≠ MessageTypeRekeyInit) as (Hl & Ht & Hne).
  { destruct message as [m'|m'| |]; [| |done..]; cbn in Hty, Hout; destruct m' as [d|d|d|d|d|d]; try done;
      injection Hout as <- <-; (split; [|split; [done|done]]);
      first [exact (marshal_size d p Hty Hm)]. }
  split; [|done]. split; [done|]. split; [done|]. change MaxEncryptedPayloadSize with 65479 in Hl. lia.
Qed.

Lemma outboundMessage_marshal_no_panic message t m :
  AnyMessage_typed message → outboundMessage message = Ok (t, m) → Message_MarshalBinary m ≠ Panic.
Proof.
  intros Hty Hout. destruct message as [m'|m'| |]; [| |done..]; cbn in Hty, Hout;
    destruct m' as [d|d|d|d|d|d]; try done; injection Hout as <- <-; exact (marshal_no_panic d Hty).
Qed.

(** A send call either fails and changes nothing, or emits one frame. *)
Definition send_result (s : Session) (r : Session * outcome Frame) : Prop :=
  (∃ e, r = (s, Err e)) ∨ (∃ f s', r = (s', Ok f) ∧ can_send s ∧ emits s f s').

Lemma sendPayload_send_result clock entropy t p n s :
  send_ok s → payload_typed t p n → t ≠ MessageTypeRekeyInit → send_result s (sendPayload clock entropy t p n s).
Proof.
  intros Hok Hty Ht. destruct (sendPayload_result clock entropy t p n s Hok Hty Ht)
    as [(e & -> & _)|(f & s' & -> & Hc & He & _)]; [left|right]; eauto 6.
Qed.

Lemma Send_result clock entropy message n s :
  send_ok s → AnyMessage_typed message → uint 8 n → send_result s (Session_Send clock entropy message n s).
Proof.
  intros Hok Hty Hn. unfold Session_Send.
  destruct (outboundMessage message) as [[t m]|e|] eqn:Hout; sm_run; [|by left; exists e|].
  - pose proof (outboundMessage_marshal_no_panic message t m Hty Hout).
    destruct (Message_MarshalBinary m) as [p|e|] eqn:Hm; sm_run; [|by left; exists e|done].
    destruct (outboundMessage_typed message t m p n Hty Hn Hout Hm). by apply sendPayload_send_result.
  - destruct message as [[]|[]| |]; done.
Qed.

Lemma SendPayload_result clock entropy t p n s :
  send_ok s → payload_typed t p n → send_result s (Session_SendPayload clock entropy t p n s).
Proof.
  intros Hok Hty. unfold Session_SendPayload. destruct (t =? MessageTypeResumptionTicket); [left; by eexists|].
  destruct (t =? MessageTypeRekeyInit) eqn:E; [left; by eexists|]. apply Z.eqb_neq in E. by apply sendPayload_send_result.
Qed.

(** What one call does to the send half. *)
Inductive send_effect (op : SessionOp) (s : Session) : SessionEvent → Session → Prop :=
  | effect_none ev s' : send_half s' = send_half s → (∀ e f, ev ≠ EvSent e f) →
      send_effect op s ev s'
  | effect_sent f s' : can_send s → emits s f s' → send_effect op s (EvSent (sSendEpoch (sessSend s)) f) s'
  | effect_marked clock p : sPendingRekey (sessSend s) = Some p → op = OpMarkRekeySent clock (prFrame p) →
      send_effect op s EvRekeyMarked (with_send (commit_rekey (clock ClockEpochStart) p) s).

Lemma send_result_effect op s r :
  send_result s r → send_effect op s (event_of (EvSent (sSendEpoch (sessSend s))) r.2) r.1.
Proof.
  intros [(e & ->)|(f & s' & -> & Hc & He)]; [|by apply effect_sent]. by apply effect_none.
Qed.

Lemma session_step_send op s :
  send_ok s → op_typed op → send_effect op s (session_step op s).2 (session_step op s).1.
Proof.
  intros Hok Hty. destruct op as [c en m n|c en t p n|c f|c f|c f|]; cbn [session_step op_typed] in *.
  - destruct Hty as [Hm Hn]. pose proof (send_result_effect (OpSend c en m n) s _ (Send_result c en m n s Hok Hm Hn)).
    by destruct (Session_Send _ _ _ _ _).
  - pose proof (send_result_effect (OpSendPayload c en t p n) s _ (SendPayload_result c en t p n s Hok Hty)).
    by destruct (Session_SendPayload _ _ _ _ _ _).
  - destruct (MarkRekeySent_result c f s) as [(e & -> & _)|(p & _ & Hp & <- & ->)].
    + by apply effect_none.
    + by apply effect_marked.
  - pose proof (Receive_keeps c f s). destruct (Session_Receive c f s) as [s' o]; cbn in *.
    by apply effect_none; [|destruct o].
  - pose proof (ReceivePayload_keeps c f s). destruct (Session_ReceivePayload c f s) as [s' o]; cbn in *.
    by apply effect_none; [|destruct o].
  - by apply effect_none.
Qed.

(** ** Numbering of the emitted frames *)
Definition sent_of (evs : list SessionEvent) : list (Z * Frame) :=
  omap (λ ev, match ev with EvSent epoch f => Some (epoch, f) | _ => None end) evs.

Definition frame_seq (f : Frame) : Z := hdrSequence (frHeader f).

(** [y] is the frame sent directly after [x]. *)
Definition follows (x y : Z * Frame) : Prop :=
  if is_rekey x.2 then y.1 = x.1 + 1 ∧ frame_seq y.2 = 1
  else y.1 = x.1 ∧ frame_seq y.2 = frame_seq x.2 + 1.

Record contiguous (l : list (Z * Frame)) : Prop := {
  contiguous_head : ∀ x, l !! 0%nat = Some x → x.1 = 1 ∧ frame_seq x.2 = 1;
  contiguous_step : ∀ i x y, l !! i = Some x → l !! S i = Some y → follows x y;
}.

Lemma contiguous_snoc l y :
  contiguous l →
  match last l with None => y.1 = 1 ∧ frame_seq y.2 = 1 | Some x => follows x y end →
  contiguous (l ++ [y]).
Proof.
  intros [Hh Hs] Hy. split.
  - intros x Hx. destruct l as [|z l]; [injection Hx as <-; done|]. by apply Hh.
  - intros i x z Hx Hz. apply lookup_snoc_Some in Hz as [[Hi Hz]|[Hi ->]].
    + rewrite lookup_app_l in Hx by lia. by apply (Hs i).
    + rewrite lookup_app_l in Hx by lia. rewrite last_lookup in Hy.
      replace (pred (length l)) with i in Hy by lia. by rewrite Hx in Hy.
Qed.

(** Lexicographic order on (epoch, sequence). *)
Definition before (x y : Z * Frame) : Prop :=
  x.1 < y.1 ∨ x.1 = y.1 ∧ frame_seq x.2 < frame_seq y.2.

Lemma contiguous_increasing l i j x y :
  contiguous l → (i < j)%nat → l !! i = Some x → l !! j = Some y → before x y.
Proof.
  intros [_ Hs] Hij Hx. revert y. induction Hij as [|j Hij IH]; intros y Hy.
  - pose proof (Hs i x y Hx Hy) as Hf. unfold follows, before in *. destruct (is_rekey x.2); lia.
  - destruct (l !! j) as [z|] eqn:Hz.
    + specialize (IH z eq_refl). pose proof (Hs j z y Hz Hy) as Hf. unfold follows, before in *. destruct (is_rekey z.2); lia.
    + apply lookup_ge_None in Hz. apply lookup_lt_Some in Hy. lia.
Qed.

(** A frame under the key of its epoch, starting from [key]. *)
Definition sealed_at (key sid : list byte) (x : Z * Frame) : Prop :=
  1 ≤ x.1 ∧ uint 64 (frame_seq x.2) ∧
  ∃ c t p pad, codec_of (ratchet (Z.to_nat (x.1 - 1)) key) c ∧ x.2 = seal_frame c t sid (frame_seq x.2) p pad.

Lemma contiguous_nonces l key sid :
  contiguous l → Forall (sealed_at key sid) l → NoDup ((λ x : Z * Frame, (x.1, nonce_bytes (frame_seq x.2))) <$> l).
Proof.
  intros Hc Hall. apply NoDup_alt. intros i j n Hi Hj.
  rewrite list_lookup_fmap_Some in Hi, Hj. destruct Hi as (x & -> & Hx), Hj as (y & Heq & Hy).
  apply pair_equal_spec in Heq as [He Hn]. apply nonce_inj in Hn; [|by eapply Forall_lookup_1 in Hall as (_ & ? & _)..].
  destruct (lt_eq_lt_dec i j) as [[Hlt|]|Hlt]; [|done|].
  - pose proof (contiguous_increasing l i j x y Hc Hlt Hx Hy) as Hb. unfold before in Hb. lia.
  - pose proof (contiguous_increasing l j i y x Hc Hlt Hy Hx) as Hb. unfold before in Hb. lia.
Qed.

(** Where the next frame goes, given the frames already sent. *)
Definition position (ss : SendState) (l : list (Z * Frame)) : Prop :=
  match last l with
  | None => sPendingRekey ss = None ∧ sSendEpoch ss = 1 ∧ sNextSequence ss = 1
  | Some (e, f) =>
      if is_rekey f
      then if sPendingRekey ss is Some _ then e = sSendEpoch ss else sSendEpoch ss = e + 1 ∧ sNextSequence ss = 1
      else sPendingRekey ss = None ∧ e = sSendEpoch ss ∧ (sNextSequence ss = 0 ∨ sNextSequence ss = frame_seq f + 1)
  end.

Record send_inv (key : list byte) (s : Session) (l : list (Z * Frame)) : Prop := {
  si_ok : send_ok s;
  si_key : sSendKey (sessSend s) = ratchet (Z.to_nat (sSendEpoch (sessSend s) - 1)) key;
  si_contiguous : contiguous l;
  si_sealed : Forall (sealed_at key (sessSessionID s)) l;
  si_position : position (sessSend s) l;
}.

(** The slot the next emitted frame fills. *)
Lemma position_next ss l f :
  position ss l → sPendingRekey ss = None → sNextSequence ss ≠ 0 → frame_seq f = sNextSequence ss →
  match last l with
  | None => sSendEpoch ss = 1 ∧ frame_seq f = 1
  | Some x => follows x (sSendEpoch ss, f)
  end.
Proof.
  unfold position, follows. intros Hpos Hp Hn Hf. destruct (last l) as [[e g]|]; [|lia].
  cbn [fst snd]. destruct (is_rekey g).
  - rewrite Hp in Hpos. lia.
  - lia.
Qed.

Lemma sealed_next_rekey s t p pad : is_rekey (sealed_next s t p pad) = (t =? MessageTypeRekeyInit).
Proof. done. Qed.

Lemma emits_position s f s' l :
  emits s f s' → sPendingRekey (sessSend s) = None →
  position (sessSend s') (l ++ [(sSendEpoch (sessSend s), f)]).
Proof.
  intros He Hp. unfold position. rewrite last_snoc.
  destruct He as [t p pad Ht _ _ _|pad p _ _ Hpo Hf].
  - rewrite sealed_next_rekey, (proj2 (Z.eqb_neq _ _)) by done. split; [done|]. split; [done|].
    cbn [with_send advance sessSend sNextSequence]. destruct (_ =? _); auto.
  - by rewrite (po_frame _ _ Hpo).
Qed.

Lemma send_inv_half key s s' l : send_half s' = send_half s → send_inv key s l → send_inv key s' l.
Proof.
  destruct s, s'. intros [= -> -> ->] [[] Hk Hc Hs Hpos]. by split.
Qed.

Lemma send_inv_step key op s l ev s' :
  send_inv key s l → send_effect op s ev s' → send_inv key s' (l ++ sent_of [ev]).
Proof.
  intros Hinv [ev' s'' Hh Hno|f s'' [_ Hp] He|clock p Hp _].
  - destruct ev'; try (rewrite app_nil_r; by eapply send_inv_half). by destruct (Hno epoch frame).
  - destruct Hinv as [Hok Hk Hc Hs Hpos].
    destruct (emits_frame s f s'' He) as (Hseq & _ & Hn0 & Hep & Hkey & _ & t & p & pad & Hf). cbn [sent_of omap list_omap].
    assert (sessSessionID s'' = sessSessionID s) as Hid by by destruct He.
    split.
    + by eapply emits_ok.
    + by rewrite Hkey, Hep.
    + apply contiguous_snoc; [done|]. by apply position_next.
    + rewrite Hid. apply Forall_app. split; [done|]. apply Forall_singleton. split; [apply (so_epoch s Hok)|].
      change (frame_seq (sSendEpoch (sessSend s), f).2) with (hdrSequence (frHeader f)). rewrite Hseq.
      split; [apply (so_next s Hok)|]. exists (sSend (sessSend s)), t, p, pad. split; [|done].
      cbn [fst]. rewrite <- Hk. apply (so_codec s Hok).
    + by apply emits_position.
  - destruct Hinv as [Hok Hk Hc Hs Hpos]. destruct (so_pending s Hok p Hp) as [Hpk Hpc Hpe Hpl Hpf].
    pose proof (so_epoch s Hok). rewrite app_nil_r. split; [by apply commit_rekey_ok| |done|done|].
    + cbn [with_send commit_rekey sessSend sSendKey sSendEpoch]. rewrite Hpk, Hpe, Hk.
      replace (Z.to_nat (sSendEpoch (sessSend s) + 1 - 1)) with (S (Z.to_nat (sSendEpoch (sessSend s) - 1))) by lia.
      done.
    + unfold position in *. cbn [with_send commit_rekey sessSend sPendingRekey sSendEpoch sNextSequence].
      destruct (last l) as [[e f]|]; [|naive_solver congruence]. destruct (is_rekey f); [|naive_solver congruence].
      rewrite Hp in Hpos. by rewrite Hpe, Hpos.
Qed.

Lemma sent_of_app a b : sent_of (a ++ b) = sent_of a ++ sent_of b.
Proof. apply omap_app. Qed.

Lemma send_inv_run key ops : ∀ s l,
  send_inv key s l → Forall op_typed ops →
  send_inv key (session_run ops s).1 (l ++ sent_of (session_run ops s).2).
Proof.
  induction ops as [|op ops IH]; intros s l Hinv Hall; cbn [session_run].
  { cbn. by rewrite app_nil_r. }
  apply Forall_cons in Hall as [Hop Hall].
  pose proof (session_step_send op s (si_ok _ _ _ Hinv) Hop) as He.
  destruct (session_step op s) as [s1 ev]. cbn [fst snd] in He. apply (send_inv_step key op s l) in He; [|done].
  specialize (IH s1 _ He Hall). destruct (session_run ops s1) as [s2 evs]. cbn [fst snd] in *.
  change (ev :: evs) with ([ev] ++ evs). by rewrite sent_of_app, app_assoc.
Qed.

Lemma NewSession_inv suite secrets now s :
  zlen (hsSessionID secrets) = 16 → NewSession suite secrets now = Ok s →
  suite = CipherChaCha20Poly1305 ∧ sessSuite s = suite ∧ sessSessionID s = hsSessionID secrets ∧
  hsSessionID secrets ≠ zero16 ∧ sessClosed s = false ∧
  ∃ cs cr, codec_of (hsSendKey secrets) cs ∧ codec_of (hsReceiveKey secrets) cr ∧
    sessSend s = mkSendState cs (hsSendKey secrets) 1 1 0 now DefaultRekeyFrameLimit DefaultRekeyInterval None ∧
    sessReceive s = mkReceiveState cr (hsReceiveKey secrets) 1 zeroReplayWindow None zeroReplayWindow 0 zeroTime
                      DefaultRekeyGraceFrames DefaultRekeyGracePeriod.
Proof.
  intros Hid Hn. unfold NewSession in Hn. destruct (suite =? _) eqn:Hsu; [|done]. apply Z.eqb_eq in Hsu. cbn [negb] in Hn.
  case_bool_decide as Hz; [done|]. apply bind_Ok in Hn as (cs & Hcs & Hn). apply bind_Ok in Hn as (cr & Hcr & Hn).
  injection Hn as <-. subst suite.
  assert (∀ k c, NewCodec CipherChaCha20Poly1305 k = Ok c → codec_of k c) as Hck.
  { intros k c Hc. split; [|done]. unfold NewCodec in Hc. rewrite Z.eqb_refl in Hc. cbn [negb] in Hc.
    destruct (zlen k =? KeySize) eqn:E; [lia|done]. }
  split_and!; try done. exists cs, cr. split_and!; auto.
Qed.

Lemma NewSession_send_inv suite secrets now s :
  zlen (hsSessionID secrets) = 16 → NewSession suite secrets now = Ok s → send_inv (hsSendKey secrets) s [].
Proof.
  intros Hid Hn. apply NewSession_inv in Hn as (-> & Hsu & Hsid & Hnz & Hcl & cs & cr & Hcs & Hcr & Hs & Hr); [|done].
  split; [|by rewrite Hs|by split|constructor|by rewrite Hs].
  split; rewrite ?Hs; cbn; try done. by rewrite Hsid.
Qed.

Lemma session_step_id op s : sessSessionID (session_step op s).1 = sessSessionID s.
Proof.
  destruct op as [c en m n|c en t p n|c f|c f|c f|]; cbn [session_step]; [| | | | |done].
  - pose proof (Send_keeps c en m n s) as Hk. destruct (Session_Send c en m n s). exact (f_equal (λ x, x.1.1) Hk).
  - pose proof (SendPayload_keeps c en t p n s) as Hk. destruct (Session_SendPayload c en t p n s). exact (f_equal (λ x, x.1.1) Hk).
  - pose proof (MarkRekeySent_keeps c f s) as Hk. destruct (Session_MarkRekeySent c f s). exact (f_equal (λ x, x.1.1) Hk).
  - pose proof (Receive_keeps c f s) as Hk. destruct (Session_Receive c f s). exact (f_equal (λ x, x.1.1) Hk).
  - pose proof (ReceivePayload_keeps c f s) as Hk. destruct (Session_ReceivePayload c f s). exact (f_equal (λ x, x.1.1) Hk).
Qed.

Lemma session_run_id ops : ∀ s, sessSessionID (session_run ops s).1 = sessSessionID s.
Proof.
  induction ops as [|op ops IH]; intros s; cbn [session_run]; [done|].
  pose proof (session_step_id op s). destruct (session_step op s) as [s1 ev]. specialize (IH s1).
  destruct (session_run ops s1). cbn in *. congruence.
Qed.

(** While a RekeyInit is pending only its confirmation changes the send half. *)
Lemma pending_step s p op :
  send_ok s → sPendingRekey (sessSend s) = Some p → op_typed op →
  (∀ clock, op ≠ OpMarkRekeySent clock (prFrame p)) →
  send_half (session_step op s).1 = send_half s ∧ sent_of [(session_step op s).2] = [].
Proof.
  intros Hok Hp Hty Hno. destruct (session_step_send op s Hok Hty) as [ev s' Hh He|f s' [_ Hn] _|clock p' Hp' ->].
  - split; [done|]. destruct ev; try done. by destruct (He epoch frame).
  - congruence.
  - rewrite Hp in Hp'. injection Hp' as <-. by destruct (Hno clock).
Qed.

Lemma send_ok_half s s' : send_half s' = send_half s → send_ok s → send_ok s'.
Proof. destruct s, s'. intros [= -> -> ->] []. by split. Qed.

Lemma pending_run p ops : ∀ s,
  send_ok s → sPendingRekey (sessSend s) = Some p → Forall op_typed ops →
  (∀ clock, OpMarkRekeySent clock (prFrame p) ∉ ops) →
  sent_of (session_run ops s).2 = [] ∧ sessSend (session_run ops s).1 = sessSend s.
Proof.
  induction ops as [|op ops IH]; intros s Hok Hp Hall Hno; cbn [session_run]; [done|].
  apply Forall_cons in Hall as [Hop Hall].
  destruct (pending_step s p op Hok Hp Hop) as [Hh Hsent]; [intros clock ->; by apply (Hno clock), list_elem_of_here|].
  destruct (session_step op s) as [s1 ev]. cbn [fst snd] in *.
  assert (sessSend s1 = sessSend s) as Heq by exact (f_equal snd Hh).
  destruct (IH s1) as [Hs2 Hss]; [by eapply send_ok_half|by rewrite Heq|done| |].
  { intros clock Hin. by apply (Hno clock), list_elem_of_further. }
  destruct (session_run ops s1) as [s2 evs]. cbn [fst snd] in *.
  change (ev :: evs) with ([ev] ++ evs). rewrite sent_of_app, Hsent, Hs2. split; [done|congruence].
Qed.

(** The outcome of [Session_Send] with the frame it returns. *)
Lemma send_emits clock entropy message padLength s :
  send_ok s → AnyMessage_typed message → uint 8 padLength →
  let '(s', o) := Session_Send clock entropy message padLength s in
  match o with
  | Panic => False
  | Err _ => s' = s
  | Ok f =>
      can_send s ∧ emits s f s' ∧
      if rekeyDueLocked clock (sessSend s) then is_rekey f = true
      else ∃ t m plaintext, outboundMessage message = Ok (t, m) ∧ Message_MarshalBinary m = Ok plaintext ∧
             t ≠ MessageTypeRekeyInit ∧ f = sealed_next s t plaintext (take (Z.to_nat padLength) entropy)
  end.
Proof.
  intros Hok Hty Hn. unfold Session_Send.
  destruct (outboundMessage message) as [[t m]|e|] eqn:Hout; sm_run; [|done|by destruct message as [[]|[]| |]].
  pose proof (outboundMessage_marshal_no_panic message t m Hty Hout).
  destruct (Message_MarshalBinary m) as [p|e|] eqn:Hm; sm_run; [|done..].
  destruct (outboundMessage_typed message t m p padLength Hty Hn Hout Hm) as [Hpt Hne].
  destruct (sendPayload_result clock entropy t p padLength s Hok Hpt Hne) as [(e & -> & _)|(f & s' & -> & Hc & He & Hf)]; [done|].
  split; [done|]. split; [done|]. destruct (rekeyDueLocked clock (sessSend s)); [done|]. by exists t, m, p.
Qed.

(** What it takes for a send to succeed. *)
Definition ready (s : Session) (message : AnyMessage) (padLength : Z) (entropy : list byte) : Prop :=
  can_send s ∧ sNextSequence (sessSend s) ≠ 0 ∧ sSendEpoch (sessSend s) < 2 ^ 32 - 1 ∧ padLength ≤ zlen entropy ∧
  ∃ t m p, outboundMessage message = Ok (t, m) ∧ Message_MarshalBinary m = Ok p ∧ frame_fits p padLength.

Lemma outboundMessage_type message t m :
  outboundMessage message = Ok (t, m) →
  MessageTypeEncryptedData ≤ t ≤ MessageTypeError ∧ t ≠ MessageTypeResumptionTicket ∧ t ≠ MessageTypeRekeyInit.
Proof. destruct message as [m'|m'| |]; [| |done..]; cbn; destruct m'; try done; by intros [= <- _]. Qed.

Lemma send_progress clock entropy message padLength s :
  send_ok s → AnyMessage_typed message → uint 8 padLength → ready s message padLength entropy →
  ∃ s' f, Session_Send clock entropy message padLength s = (s', Ok f).
Proof.
  intros Hok Hty Hpad ([Hcl Hp] & Hn & Hep & Hent & t & m & p & Hout & Hm & Hf). unfold Session_Send.
  destruct (outboundMessage_type _ _ _ Hout) as (Ht & H7 & H8).
  destruct (outboundMessage_typed message t m p padLength Hty Hpad Hout Hm) as [Hpt _].
  rewrite Hout. sm_run. rewrite Hm. sm_run. unfold sendPayload, validSessionMessageType.
  rewrite !(proj2 (Z.leb_le _ _)) by lia. cbn [andb negb]. sm_run. rewrite Hcl, Hp.
  pose proof (so_id s Hok) as [_ Hnz]. destruct (rekeyDueLocked clock (sessSend s)).
  - destruct (startRekeyLocked_result s padLength entropy Hok Hpad) as [(e & _ & Hno)|(_ & c & _ & ->)]; [|by eexists _, _].
    destruct Hno. split; [done|]. split; [done|]. split; [done|]. split; [|done]. unfold frame_fits.
    rewrite zlen_rekey_payload. unfold HeaderSize, RekeyInitSize, AEADTagSize, MaxFrameSize, uint in *. lia.
  - destruct (encryptLocked_result s t p padLength entropy Hok Hpt) as [(e & _ & Hno)|[_ ->]]; [|by eexists _, _].
    by destruct Hno.
Qed.

End send.

(** ** Properties *)

(** C5: Over any sequence of calls of one session no pair of epoch and AEAD nonce is used for
    two frames, and every frame sent in epoch e is sealed under the key ratcheted e-1 times from
    the handshake's send key, with the session's identifier and the nonce of its own sequence
    number. *)
Theorem send_nonce_unique {aead : AEAD} {laws : AEADLaws} suite secrets now s ops :
  zlen (hsSessionID secrets) = 16 → NewSession suite secrets now = Ok s → Forall op_typed ops →
  let sent := sent_of (session_run ops s).2 in
  NoDup ((λ x : Z * Frame, (x.1, nonce_bytes (frame_seq x.2))) <$> sent) ∧
  ∀ e f, (e, f) ∈ sent →
    ∃ c t p pad, codec_of (ratchet (Z.to_nat (e - 1)) (hsSendKey secrets)) c ∧
      f = seal_frame c t (hsSessionID secrets) (frame_seq f) p pad.
Proof.
  intros Hid Hn Hall sent. pose proof (NewSession_send_inv suite secrets now s Hid Hn) as Hinv.
  apply (send_inv_run _ ops) in Hinv as [_ _ Hc Hs _]; [|done]. cbn [app] in *. fold sent in Hc, Hs.
  assert (sessSessionID (session_run ops s).1 = hsSessionID secrets) as Hsid.
  { apply NewSession_inv in Hn as (_ & _ & <- & _); [|done]. apply session_run_id. }
  rewrite Hsid in Hs. split; [by eapply contiguous_nonces|]. intros e f Hin.
  by apply (proj1 (Forall_forall _ _) Hs) in Hin as (_ & _ & ?).
Qed.

(** The frames one session sends form a contiguous stream: sequence numbers start at 1 and go up
    by one in an epoch, and after each RekeyInit, which ends its epoch, the next epoch starts
    again at 1. *)
Theorem send_sequence_contiguous {aead : AEAD} {laws : AEADLaws} suite secrets now s ops :
  zlen (hsSessionID secrets) = 16 → NewSession suite secrets now = Ok s → Forall op_typed ops →
  contiguous (sent_of (session_run ops s).2).
Proof.
  intros Hid Hn Hall. pose proof (NewSession_send_inv suite secrets now s Hid Hn) as Hinv.
  by apply (send_inv_run _ ops) in Hinv as [_ _ Hc _ _].
Qed.

(** While a RekeyInit is pending no call sends anything or changes the send half, unless that
    very frame is marked as sent; marking it moves to the next epoch, the next ratchet key and
    sequence number 1. *)
Theorem rekey_blocks_sends {aead : AEAD} {laws : AEADLaws} s p ops :
  send_ok s → sPendingRekey (sessSend s) = Some p → Forall op_typed ops →
  (∀ clock, OpMarkRekeySent clock (prFrame p) ∉ ops) →
  sent_of (session_run ops s).2 = [] ∧ sessSend (session_run ops s).1 = sessSend s ∧
  ∀ clock, sessClosed (session_run ops s).1 = false →
    ∃ s', Session_MarkRekeySent clock (prFrame p) (session_run ops s).1 = (s', Ok tt) ∧
      sSendEpoch (sessSend s') = sSendEpoch (sessSend s) + 1 ∧ sNextSequence (sessSend s') = 1 ∧
      sSendKey (sessSend s') = next_key (sSendKey (sessSend s)) ∧ sPendingRekey (sessSend s') = None.
Proof.
  intros Hok Hp Hall Hno. destruct (pending_run p ops s Hok Hp Hall Hno) as [Hsent Hss].
  split; [done|]. split; [done|]. intros clock Hcl.
  destruct (MarkRekeySent_result clock (prFrame p) (session_run ops s).1) as [(e & _ & Hn)|(p' & _ & Hp' & _ & ->)].
  { destruct Hn. split; [done|]. exists p. by rewrite Hss. }
  rewrite Hss, Hp in Hp'. injection Hp' as <-. eexists. split; [done|].
  destruct (so_pending s Hok p Hp) as [Hk _ He _ _]. by repeat split.
Qed.

(** Send never panics; an error leaves the session unchanged; a success uses the next sequence
    number and returns either the RekeyInit that is due, now pending, or the sealing of the
    message's encoding, advancing only the send counters. *)
Theorem send_exact {aead : AEAD} {laws : AEADLaws} s clock entropy message padLength :
  send_ok s → AnyMessage_typed message → uint 8 padLength →
  let '(s', o) := Session_Send clock entropy message padLength s in
  match o with
  | Panic => False
  | Err e => s' = s
  | Ok f =>
      send_ok s' ∧ sessClosed s = false ∧ sPendingRekey (sessSend s) = None ∧
      frame_seq f = sNextSequence (sessSend s) ∧
      if rekeyDueLocked clock (sessSend s)
      then ∃ p, is_rekey f = true ∧ prFrame p = f ∧ sPendingRekey (sessSend s') = Some p ∧ pending_ok (sessSend s) p
      else ∃ t m plaintext, outboundMessage message = Ok (t, m) ∧ Message_MarshalBinary m = Ok plaintext ∧
             f = sealed_next s t plaintext (take (Z.to_nat padLength) entropy) ∧ s' = with_send advance s
  end.
Proof.
  intros Hok Hty Hn. pose proof (send_emits clock entropy message padLength s Hok Hty Hn) as Hs.
  destruct (Session_Send clock entropy message padLength s) as [s' [f|e|]]; [|done..].
  destruct Hs as ([Hcl Hp] & He & Hf). split; [by eapply emits_ok|]. split; [done|]. split; [done|].
  destruct (emits_frame s f s' He) as (Hseq & _). split; [done|].
  destruct (rekeyDueLocked clock (sessSend s)).
  - destruct He as [t' p' pad Ht' _ _ _|pad q _ _ Hpo _]; [|by exists q].
    rewrite sealed_next_rekey in Hf. apply Z.eqb_eq in Hf. done.
  - destruct Hf as (t & m & p & Hout & Hm & Hne & ->). exists t, m, p. split; [done|]. split; [done|]. split; [done|].
    inversion He as [t' p' pad Ht' _ _ _ Hfr|pad q _ _ Hpo _ Hfr]; [done|].
    pose proof (po_frame _ _ Hpo) as Hr. rewrite Hfr, sealed_next_rekey in Hr. apply Z.eqb_eq in Hr. done.
Qed.

(** ** Witnesses *)
Definition ex_secrets : HandshakeSecrets := mkHandshakeSecrets ex_session ex_key (map to_byte (seqZ 50 32)).
Definition at_time (t : Z) : Clock := λ _, t.
Definition ex_ping : AnyMessage := ByPointer (MsgPingPong (mkPingPong false 77)).

(** Two sends, a third one past the rekey interval, a refused one, the
    confirmation, and one more send. *)
Definition ex_ops (f : Frame) : list SessionOp :=
  [OpSend (at_time 1) [] ex_ping 0; OpSend (at_time 2) (make_bytes 8) ex_ping 2;
   OpSend (at_time DefaultRekeyInterval) [] ex_ping 0; OpSend (at_time DefaultRekeyInterval) [] ex_ping 0;
   OpMarkRekeySent (at_time DefaultRekeyInterval) f; OpSend (at_time DefaultRekeyInterval) [] ex_ping 0].

Definition mac_session : @Session mac_aead :=
  @mkSession mac_aead ex_session 1 false
    (@mkSendState mac_aead (@mkCodec mac_aead ex_key) ex_key 1 1 0 0 DefaultRekeyFrameLimit DefaultRekeyInterval None)
    (@mkReceiveState mac_aead (@mkCodec mac_aead (map to_byte (seqZ 50 32))) (map to_byte (seqZ 50 32)) 1
       zeroReplayWindow None zeroReplayWindow 0 zeroTime DefaultRekeyGraceFrames DefaultRekeyGracePeriod).

Lemma mac_session_new : @NewSession mac_aead CipherChaCha20Poly1305 ex_secrets 0 = Ok mac_session.
Proof. reflexivity. Qed.

Definition ex_rekey_session : @Session mac_aead := (session_run (take 3 (ex_ops (mkFrame (NewHeader 8 [] 0 0 0) [] [] []))) mac_session).1.
Definition ex_rekey_frame : Frame :=
  match sPendingRekey (sessSend ex_rekey_session) with Some p => prFrame p | None => mkFrame (NewHeader 8 [] 0 0 0) [] [] [] end.

Lemma ex_ops_typed : Forall op_typed (ex_ops ex_rekey_frame).
Proof.
  assert (AnyMessage_typed ex_ping) by (cbn; decide_closed).
  repeat (apply Forall_cons; split); try apply Forall_nil_2; cbn [op_typed]; try (split; [done|decide_closed]).
Qed.

Lemma send_nonce_unique_witness :
  NoDup ((λ x : Z * Frame, (x.1, nonce_bytes (frame_seq x.2))) <$> sent_of (session_run (ex_ops ex_rekey_frame) mac_session).2).
Proof.
  exact (proj1 (@send_nonce_unique mac_aead mac_aead_laws CipherChaCha20Poly1305 ex_secrets 0 mac_session
    (ex_ops ex_rekey_frame) eq_refl mac_session_new ex_ops_typed)).
Defined.

Lemma send_sequence_contiguous_witness : contiguous (sent_of (session_run (ex_ops ex_rekey_frame) mac_session).2).
Proof.
  exact (@send_sequence_contiguous mac_aead mac_aead_laws CipherChaCha20Poly1305 ex_secrets 0 mac_session
    (ex_ops ex_rekey_frame) eq_refl mac_session_new ex_ops_typed).
Defined.

Lemma mac_session_ok : @send_ok mac_aead mac_session.
Proof.
  exact (si_ok _ _ _ (@NewSession_send_inv mac_aead CipherChaCha20Poly1305 ex_secrets 0 mac_session
    eq_refl mac_session_new)).
Qed.

Lemma ex_rekey_session_ok : @send_ok mac_aead ex_rekey_session.
Proof.
  assert (Forall op_typed (take 3 (ex_ops (mkFrame (NewHeader 8 [] 0 0 0) [] [] [])))) as Hall.
  { pose proof ex_ops_typed as Ht. unfold ex_ops in *. cbn [take]. rewrite !Forall_cons in *.
    destruct Ht as (? & ? & ? & _). by repeat split. }
  exact (si_ok _ _ _ (@send_inv_run mac_aead mac_aead_laws ex_key _ mac_session []
    (@NewSession_send_inv mac_aead CipherChaCha20Poly1305 ex_secrets 0 mac_session eq_refl mac_session_new) Hall)).
Qed.

Lemma rekey_blocks_sends_witness :
  sent_of (session_run [OpSend (at_time DefaultRekeyInterval) [] ex_ping 0; OpClose] ex_rekey_session).2 = [].
Proof.
  destruct (sPendingRekey (sessSend ex_rekey_session)) as [p|] eqn:Hp.
  - refine (proj1 (@rekey_blocks_sends mac_aead mac_aead_laws ex_rekey_session p
      [OpSend (at_time DefaultRekeyInterval) [] ex_ping 0; OpClose] ex_rekey_session_ok Hp _ _)).
    + pose proof ex_ops_typed as Ht. unfold ex_ops in Ht. rewrite !Forall_cons in *. destruct Ht as (_ & _ & ? & _).
      by repeat split.
    + intros clock [Heq|[Heq|[]%elem_of_nil]%elem_of_cons]%elem_of_cons; discriminate Heq.
  - assert (bool_decide (is_Some (sPendingRekey (sessSend ex_rekey_session))) = true) as Hs by (vm_compute; reflexivity).
    rewrite Hp in Hs. discriminate Hs.
Defined.

Lemma send_exact_witness :
  let '(s', o) := Session_Send (at_time 1) [] ex_ping 0 mac_session in
  match o with Ok f => frame_seq f = 1 | _ => False end.
Proof.
  assert (AnyMessage_typed ex_ping) as Hp by (cbn; decide_closed).
  pose proof (@send_exact mac_aead mac_aead_laws mac_session (at_time 1) [] ex_ping 0 mac_session_ok Hp ltac:(decide_closed)) as Hs.
  destruct (Session_Send (at_time 1) [] ex_ping 0 mac_session) as [s' o] eqn:E.
  assert (is_ok o = true) as Ho.
  { change o with (s', o).2. rewrite <- E. vm_compute. reflexivity. }
  destruct o as [f|e|]; [|discriminate Ho..]. exact (proj1 (proj2 (proj2 (proj2 Hs)))).
Defined.
