(* ===== verification/SessionReceive.v ===== *)
(** * The receive half of a session

    [receive_ok] is the invariant of the fields guarded by receiveMu; [accepts]
    describes the three ways a frame is accepted: a data frame of the current
    epoch, a RekeyInit of the current epoch, a data frame of the previous epoch
    within both grace budgets.  The theorems show that a rejected frame changes
    nothing, that no (epoch, sequence) pair is accepted twice in any run, that an
    accepted RekeyInit advances the epoch by one and the key by one ratchet step,
    and that the previous key is gone after its frame budget. *)

From S2P Require Import Prelude Wire Header Frame Tlv Utf8 Messages Replay Sha256 Crypto Rekey Session SessionSend.
Import wire.

Local Open Scope Z_scope.
Local Open Scope sm_scope.
Local Opaque header_layout next_key key_confirm.

Section receive.
Context {aead : AEAD} {laws : AEADLaws}.

Record receive_ok (s : Session) : Prop := {
  ro_suite : sessSuite s = CipherChaCha20Poly1305;
  ro_codec : codec_of (rReceiveKey (sessReceive s)) (rReceive (sessReceive s));
  ro_epoch : 1 ≤ rReceiveEpoch (sessReceive s) < 2 ^ 32;
  ro_replay : ∃ a, window_rel (rReplay (sessReceive s)) a;
  ro_previous_replay : ∃ a, window_rel (rPreviousReplay (sessReceive s)) a;
  ro_grace : 0 ≤ rGraceFrames (sessReceive s) ∧ 0 ≤ rGraceRemaining (sessReceive s);
  ro_previous : ∀ c, rPreviousReceive (sessReceive s) = Some c →
    2 ≤ rReceiveEpoch (sessReceive s) ∧ 0 < rGraceRemaining (sessReceive s) ∧
    ∃ key, codec_of key c ∧ rReceiveKey (sessReceive s) = next_key key;
}.

(** ** State changes *)
Definition set_replay (w : ReplayWindow) (r : ReceiveState) : ReceiveState :=
  mkReceiveState (rReceive r) (rReceiveKey r) (rReceiveEpoch r) w (rPreviousReceive r) (rPreviousReplay r)
    (rGraceRemaining r) (rGraceUntil r) (rGraceFrames r) (rGracePeriod r).

Definition set_previous_replay (w : ReplayWindow) (r : ReceiveState) : ReceiveState :=
  mkReceiveState (rReceive r) (rReceiveKey r) (rReceiveEpoch r) (rReplay r) (rPreviousReceive r) w
    (rGraceRemaining r) (rGraceUntil r) (rGraceFrames r) (rGracePeriod r).

Definition spend_grace (r : ReceiveState) : ReceiveState :=
  mkReceiveState (rReceive r) (rReceiveKey r) (rReceiveEpoch r) (rReplay r) (rPreviousReceive r) (rPreviousReplay r)
    (if 0 <? rGraceRemaining r then rGraceRemaining r - 1 else rGraceRemaining r) (rGraceUntil r)
    (rGraceFrames r) (rGracePeriod r).

Definition start_epoch (clock : Clock) (key : list byte) (c : Codec) (w : ReplayWindow) (r : ReceiveState)
    : ReceiveState :=
  mkReceiveState c key (rReceiveEpoch r + 1) zeroReplayWindow (Some (rReceive r)) w (rGraceFrames r)
    (clock ClockGraceStart + rGracePeriod r) (rGraceFrames r) (rGracePeriod r).

(** After a data frame of the current epoch. *)
Definition after_current (clock : Clock) (w : ReplayWindow) (r : ReceiveState) : ReceiveState :=
  match rPreviousReceive r with
  | None => set_replay w r
  | Some _ => expireGrace clock (spend_grace (set_replay w r))
  end.

(** ** Checking and committing a sequence number *)

(** [w] is the window [w0] after accepting the fresh sequence number [seq]. *)
Definition commits (w0 : ReplayWindow) (seq : Z) (w : ReplayWindow) : Prop :=
  ∀ a, window_rel w0 a → seen_check a seq = None ∧ window_rel w (seen_accept a seq).

Lemma check_commit w seq :
  (∃ a, window_rel w a) → uint 64 seq →
  (∃ e, ReplayWindow_Check w seq = Err e) ∨
  ReplayWindow_Check w seq = Ok (mkReplayToken seq (rwGeneration w)) ∧
  ∃ w', commitReplay w (mkReplayToken seq (rwGeneration w)) = Ok w' ∧ commits w seq w'.
Proof.
  intros [a Hw] Hs. destruct (seen_check a seq) as [e|] eqn:Hc; [left; exists e; by rewrite (Check_spec w a), Hc|right].
  assert (ReplayWindow_Check w seq = Ok (mkReplayToken seq (rwGeneration w))) as Hck by (by rewrite (Check_spec w a), Hc).
  split; [done|]. destruct (Commit_accept w a seq Hw Hs Hc) as (w' & Hcm & _ & _). exists w'. unfold commitReplay.
  rewrite Hcm. split; [done|]. intros b Hb. rewrite (Check_spec w b) in Hck by done.
  destruct (seen_check b seq) eqn:Hcb; [done|]. split; [done|].
  destruct (Commit_accept w b seq Hb Hs Hcb) as (w'' & Hcm' & Hw'' & _). rewrite Hcm in Hcm'. by injection Hcm' as <-.
Qed.

(** ** Accepted frames *)

(** The guards before the mutex is taken. *)
Definition admissible (s : Session) (f : Frame) : Prop :=
  hdrMessageType (frHeader f) ≠ MessageTypeResumptionTicket ∧ hdrSessionID (frHeader f) = sessSessionID s ∧
  validSessionMessageType (hdrMessageType (frHeader f)) = true ∧ sessClosed s = false ∧ frame_seq f ≠ 0.

Definition grace_open (clock : Clock) (r : ReceiveState) : Prop :=
  0 < rGraceRemaining r ∧ 0 < rGracePeriod r ∧ clock ClockPreviousGrace < rGraceUntil r.

Inductive accepts (clock : Clock) (s : Session) (f : Frame) : list byte → Session → Prop :=
  | accepts_current p w :
      admissible s f → is_rekey f = false → Codec_Decrypt (rReceive (sessReceive s)) f = Ok p →
      commits (rReplay (sessReceive s)) (frame_seq f) w →
      accepts clock s f p (with_receive (after_current clock w) s)
  | accepts_rekey p w key c confirm :
      admissible s f → is_rekey f = true → Codec_Decrypt (rReceive (sessReceive s)) f = Ok p →
      commits (rReplay (sessReceive s)) (frame_seq f) w →
      RekeyInit_UnmarshalBinary p = Ok (mkRekeyInit (rReceiveEpoch (sessReceive s) + 1) confirm) →
      rReceiveEpoch (sessReceive s) < 2 ^ 32 - 1 →
      confirm = key_confirm (rReceiveKey (sessReceive s)) (rReceiveEpoch (sessReceive s) + 1) →
      key = next_key (rReceiveKey (sessReceive s)) → codec_of key c →
      accepts clock s f p (with_receive (λ r, expireGrace clock (start_epoch clock key c w r)) s)
  | accepts_previous p w c :
      admissible s f → is_rekey f = false → Codec_Decrypt (rReceive (sessReceive s)) f = Err ErrAuthentication →
      rPreviousReceive (sessReceive s) = Some c → grace_open clock (sessReceive s) → Codec_Decrypt c f = Ok p →
      commits (rPreviousReplay (sessReceive s)) (frame_seq f) w →
      accepts clock s f p (with_receive (set_previous_replay w) s).

Definition receive_result (clock : Clock) (s : Session) (f : Frame) (r : Session * outcome (list byte)) : Prop :=
  (∃ e, r = (s, Err e)) ∨ (∃ p s', r = (s', Ok p) ∧ accepts clock s f p s').

(** The RekeyInit the receiver expects. *)
Definition expected_rekey (r : ReceiveState) : RekeyInit :=
  mkRekeyInit (rReceiveEpoch r + 1) (key_confirm (rReceiveKey r) (rReceiveEpoch r + 1)).

Lemma prepareRekeyLocked_result s init :
  receive_ok s → uint 32 (riEpoch init) →
  (∃ e, prepareRekeyLocked init s = (s, Err e)) ∧
    ¬ (rReceiveEpoch (sessReceive s) < 2 ^ 32 - 1 ∧ init = expected_rekey (sessReceive s)) ∨
  rReceiveEpoch (sessReceive s) < 2 ^ 32 - 1 ∧ init = expected_rekey (sessReceive s) ∧
  ∃ c, codec_of (next_key (rReceiveKey (sessReceive s))) c ∧
       prepareRekeyLocked init s = (s, Ok (next_key (rReceiveKey (sessReceive s)), c)).
Proof.
  intros Hok Hinit. unfold prepareRekeyLocked. sm_run. pose proof (ro_epoch s Hok) as Hep.
  destruct (_ =? 2 ^ 32 - 1) eqn:Hmax; [left; split; [by eexists|]; apply Z.eqb_eq in Hmax; lia|].
  apply Z.eqb_neq in Hmax. rewrite wrap_small by (unfold uint; lia).
  destruct (riEpoch init =? _) eqn:He; cbn [negb].
  2:{ apply Z.eqb_neq in He. left. split; [by eexists|]. intros [_ ->]. done. }
  apply Z.eqb_eq in He.
  rewrite He, ComputeKeyConfirm_Ok by lia. sm_run. unfold hmac.Equal.
  case_bool_decide as Hc; cbn [negb]; [|left; split; [by eexists|]; by intros [_ ->]]. right. split; [lia|].
  split; [destruct init; unfold expected_rekey; cbn in *; by subst|]. destruct (codec_of_next (rReceiveKey (sessReceive s))) as [c Hcd].
  exists c. split; [done|]. destruct (ro_codec s Hok) as [Hk _]. rewrite deriveNextTrafficKey_Ok by done. sm_run.
  rewrite (ro_suite s Hok). destruct Hcd as [_ ->]. done.
Qed.

(** A fresh frame under the current key, and the expected RekeyInit if it is one. *)
Definition opens (s : Session) (f : Frame) (p : list byte) : Prop :=
  (∃ a, window_rel (rReplay (sessReceive s)) a ∧ seen_check a (frame_seq f) = None) ∧
  (is_rekey f = true → rReceiveEpoch (sessReceive s) < 2 ^ 32 - 1 ∧
                       RekeyInit_UnmarshalBinary p = Ok (expected_rekey (sessReceive s))).

Lemma ReceivePayload_current clock s f p :
  receive_ok s → Frame_ok f → admissible s f → Codec_Decrypt (rReceive (sessReceive s)) f = Ok p →
  (∃ e, Session_ReceivePayload clock f s = (s, Err e)) ∧ ¬ opens s f p ∨
  ∃ s', Session_ReceivePayload clock f s = (s', Ok p) ∧ accepts clock s f p s'.
Proof.
  intros Hok [Hf _] Hadm Hd. pose proof Hadm as (H7 & Hid & Hv & Hcl & Hs0).
  assert (uint 64 (frame_seq f)) as Hseq by apply Hf. unfold Session_ReceivePayload. cbv zeta.
  rewrite (proj2 (Z.eqb_neq _ _)) by done. sm_run. rewrite bool_decide_eq_true_2, Hv, Hcl by done. cbn [negb].
  rewrite sm_bind_run. unfold decryptEpochLocked. cbv zeta. fold (frame_seq f).
  rewrite (proj2 (Z.eqb_neq _ _)) by done. sm_run. rewrite Hd.
  destruct (check_commit _ (frame_seq f) (ro_replay s Hok) Hseq) as [[e He]|(-> & w & Hcm & Hw)]; [rewrite He|]; sm_run.
  { left. split; [by exists e|]. intros [(a & Ha & Hc) _]. by rewrite (Check_spec _ a), Hc in He. }
  change (sm_ret ?c s) with (s, Ok c). cbv beta iota. cbn [rcCurrent rcPlaintext rcToken negb andb]. fold (is_rekey f).
  destruct (is_rekey f) eqn:Hr.
  - destruct (RekeyInit_unmarshal_inv p) as [Hnp Hinv].
    destruct (RekeyInit_UnmarshalBinary p) as [init|e|] eqn:Hu; sm_run; [| |done].
    2:{ left. split; [by exists e|]. intros [_ Hx]. by destruct (Hx Hr) as [_ ?]; congruence. }
    destruct (Hinv init eq_refl) as ([Hep _] & _ & _).
    destruct (prepareRekeyLocked_result s init Hok Hep) as [[[e He] Hno]|(Hlt & -> & c & Hcd & Hpr)].
    + rewrite sm_bind_run, He. left. split; [by exists e|]. intros [_ Hx]. destruct (Hx Hr) as [? Heq]. apply Hno.
      split; [done|congruence].
    + rewrite sm_bind_run, Hpr. cbv iota. rewrite Hcm. unfold expireGraceLocked. sm_run. right.
      exists (with_receive (λ r, expireGrace clock (start_epoch clock (next_key (rReceiveKey (sessReceive s))) c w r)) s).
      split; [reflexivity|]. by eapply accepts_rekey.
  - rewrite Hcm. unfold expireGraceLocked. right. exists (with_receive (after_current clock w) s).
    split; [|by eapply accepts_current]. sm_run.
    change (with_receive (after_current clock w) s) with (with_receive (λ _, after_current clock w (sessReceive s)) s).
    unfold after_current. destruct (rPreviousReceive (sessReceive s)); sm_run; reflexivity.
Qed.

Lemma ReceivePayload_result clock s f :
  receive_ok s → Frame_ok f → receive_result clock s f (Session_ReceivePayload clock f s).
Proof.
  intros Hok Hf. assert (uint 64 (frame_seq f)) as Hseq by apply Hf.
  destruct (Codec_Decrypt_spec (rReceive (sessReceive s)) f Hf) as [Hnp _].
  pose proof (ReceivePayload_current clock s f) as Hcur. unfold admissible in Hcur. revert Hcur.
  unfold Session_ReceivePayload. cbv zeta.
  destruct (_ =? MessageTypeResumptionTicket) eqn:H7; [intros _; left; by eexists|]. apply Z.eqb_neq in H7.
  sm_run. case_bool_decide as Hid; cbn [negb]; [|intros _; left; by eexists].
  destruct (validSessionMessageType _) eqn:Hv; cbn [negb]; [|intros _; left; by eexists].
  destruct (sessClosed s) eqn:Hcl; [intros _; left; by eexists|].
  rewrite sm_bind_run. unfold decryptEpochLocked. cbv zeta. fold (frame_seq f).
  destruct (frame_seq f =? 0) eqn:Hs0; [intros _; left; by eexists|]. apply Z.eqb_neq in Hs0. sm_run.
  destruct (Codec_Decrypt (rReceive (sessReceive s)) f) as [p|e|] eqn:Hd; [|intros _|done].
  { intros Hcur. destruct (Hcur p) as [[? _]|(s' & ? & ?)]; [done..|by left|right; by exists p, s']. }
  case_bool_decide as He; cbn [negb]; [subst e|left; by eexists].
  destruct (rPreviousReceive (sessReceive s)) as [c|] eqn:Hprev; [|left; by eexists].
  destruct (_ && _ && _) eqn:Hg; [|left; by eexists].
  apply andb_true_iff in Hg as [[Hg1%Z.ltb_lt Hg2%Z.ltb_lt]%andb_true_iff Hg3%Z.ltb_lt].
  destruct (Codec_Decrypt_spec c f Hf) as [Hnp' _].
  destruct (Codec_Decrypt c f) as [p|e|] eqn:Hd'; [| |done].
  2:{ case_bool_decide; left; by eexists. }
  fold (is_rekey f). destruct (is_rekey f) eqn:Hr; [left; by eexists|].
  destruct (check_commit _ (frame_seq f) (ro_previous_replay s Hok) Hseq) as [[e ->]|(-> & w & Hcm & Hw)]; sm_run;
    [left; by exists e|].
  unfold sm_ret at 1. cbn [rcCurrent rcPlaintext rcToken negb andb]. rewrite Hcm. right.
  exists p, (with_receive (set_previous_replay w) s). split; [sm_run; reflexivity|]. by eapply accepts_previous.
Qed.
(** ** Preservation *)
Lemma commits_rel w0 seq w : commits w0 seq w → (∃ a, window_rel w0 a) → ∃ a, window_rel w a.
Proof. intros Hc [a Ha]. destruct (Hc a Ha) as [_ Hw]. by eexists. Qed.

(** The fields expireGrace leaves alone, and what it guarantees. *)
Lemma expireGrace_fields clock r :
  rReceive (expireGrace clock r) = rReceive r ∧ rReceiveKey (expireGrace clock r) = rReceiveKey r ∧
  rReceiveEpoch (expireGrace clock r) = rReceiveEpoch r ∧ rReplay (expireGrace clock r) = rReplay r ∧
  rGraceFrames (expireGrace clock r) = rGraceFrames r ∧ rGracePeriod (expireGrace clock r) = rGracePeriod r.
Proof. unfold expireGrace. destruct (rPreviousReceive r); [|done]. by case_match. Qed.

Lemma expireGrace_previous clock r :
  0 ≤ rGraceRemaining r →
  expireGrace clock r = r ∧ (rPreviousReceive r ≠ None → 0 < rGraceRemaining r ∧ 0 < rGracePeriod r ∧
                             clock ClockGraceExpiry < rGraceUntil r) ∨
  rPreviousReceive (expireGrace clock r) = None ∧ rPreviousReplay (expireGrace clock r) = zeroReplayWindow ∧
  rGraceRemaining (expireGrace clock r) = 0 ∧
  (rGraceRemaining r = 0 ∨ rGracePeriod r ≤ 0 ∨ rGraceUntil r ≤ clock ClockGraceExpiry).
Proof.
  intros Hg. unfold expireGrace. destruct (rPreviousReceive r); [|by left].
  destruct (_ || _ || _) eqn:E; [right|left].
  - split_and!; try done. apply orb_true_iff in E as [[E%Z.eqb_eq|E%Z.leb_le]%orb_true_iff|E%negb_true_iff%Z.ltb_ge]; auto.
  - split; [done|]. intros _. apply orb_false_iff in E as [[E1%Z.eqb_neq E2%Z.leb_gt]%orb_false_iff E3%negb_false_iff%Z.ltb_lt]. lia.
Qed.

Lemma receive_ok_expire clock s :
  sessSuite s = CipherChaCha20Poly1305 →
  codec_of (rReceiveKey (sessReceive s)) (rReceive (sessReceive s)) → 1 ≤ rReceiveEpoch (sessReceive s) < 2 ^ 32 →
  (∃ a, window_rel (rReplay (sessReceive s)) a) → (∃ a, window_rel (rPreviousReplay (sessReceive s)) a) →
  0 ≤ rGraceFrames (sessReceive s) ∧ 0 ≤ rGraceRemaining (sessReceive s) →
  (∀ c, rPreviousReceive (sessReceive s) = Some c → 2 ≤ rReceiveEpoch (sessReceive s) ∧
        ∃ key, codec_of key c ∧ rReceiveKey (sessReceive s) = next_key key) →
  receive_ok (with_receive (expireGrace clock) s).
Proof.
  intros Hsu Hc He Hr Hpr [Hgf Hgr] Hp. destruct (expireGrace_fields clock (sessReceive s)) as (E1&E2&E3&E4&E5&E6).
  split; cbn [with_receive sessSuite sessReceive]; rewrite ?E1, ?E2, ?E3, ?E4, ?E5; try done.
  - destruct (expireGrace_previous clock (sessReceive s) Hgr) as [[-> _]|(_ & -> & _)]; [done|].
    exists seen_empty. apply window_rel_zero.
  - destruct (expireGrace_previous clock (sessReceive s) Hgr) as [[-> _]|(_ & _ & -> & _)]; done.
  - intros c. destruct (expireGrace_previous clock (sessReceive s) Hgr) as [[-> Hpos]|(-> & _)]; [|done].
    intros Hpc. destruct (Hp c Hpc) as (? & ?). split; [done|]. split; [|done]. apply Hpos. by rewrite Hpc.
Qed.

Lemma after_current_some clock w r c :
  rPreviousReceive r = Some c → after_current clock w r = expireGrace clock (spend_grace (set_replay w r)).
Proof. unfold after_current. by intros ->. Qed.

Lemma after_current_none clock w r : rPreviousReceive r = None → after_current clock w r = set_replay w r.
Proof. unfold after_current. by intros ->. Qed.

Lemma accepts_ok clock s f p s' : receive_ok s → accepts clock s f p s' → receive_ok s'.
Proof.
  intros Hok Hacc.
  destruct Hacc as [p w _ _ _ Hw|p w key c confirm _ _ _ Hw _ Hlt _ -> Hcd|p w c _ _ _ _ _ _ Hw].
  - apply (commits_rel _ _ _) in Hw; [|apply (ro_replay s Hok)]. destruct Hok as [Hsu Hc He Hr Hpr [Hgf Hgr] Hp].
    destruct (rPreviousReceive (sessReceive s)) as [c|] eqn:Hprev.
    + change (with_receive (after_current clock w) s) with (with_receive (λ _, after_current clock w (sessReceive s)) s).
      rewrite (after_current_some _ _ _ c) by done.
      apply (receive_ok_expire clock (with_receive (λ r, spend_grace (set_replay w r)) s)); try done.
      * split; [done|]. cbn. destruct (0 <? _) eqn:E; lia.
      * cbn. intros c' Hc'. rewrite Hprev in Hc'. destruct (Hp c' Hc') as (? & _ & ?). done.
    + change (with_receive (after_current clock w) s) with (with_receive (λ _, after_current clock w (sessReceive s)) s).
      rewrite after_current_none by done. split; cbn; try done. intros c'. by rewrite Hprev.
  - apply (commits_rel _ _ _) in Hw; [|apply (ro_replay s Hok)]. destruct Hok as [Hsu Hc He Hr Hpr [Hgf Hgr] Hp].
    apply (receive_ok_expire clock (with_receive (start_epoch clock (next_key (rReceiveKey (sessReceive s))) c w) s));
      cbn [with_receive sessReceive start_epoch rReceiveEpoch rReplay rPreviousReplay rGraceFrames rGraceRemaining rPreviousReceive
           rReceiveKey rReceive sessSuite]; try done; try lia.
    + exists seen_empty. apply window_rel_zero.
    + intros c' [= <-]. split; [lia|]. by exists (rReceiveKey (sessReceive s)).
  - apply (commits_rel _ _ _) in Hw; [|apply (ro_previous_replay s Hok)]. destruct Hok as [Hsu Hc He Hr Hpr [Hgf Hgr] Hp].
    by split.
Qed.

(** The current epoch and key after a frame. *)
Lemma accepts_epoch clock s f p s' :
  accepts clock s f p s' →
  if is_rekey f
  then rReceiveEpoch (sessReceive s') = rReceiveEpoch (sessReceive s) + 1 ∧
       rReceiveKey (sessReceive s') = next_key (rReceiveKey (sessReceive s))
  else rReceiveEpoch (sessReceive s') = rReceiveEpoch (sessReceive s) ∧
       rReceiveKey (sessReceive s') = rReceiveKey (sessReceive s).
Proof.
  intros [p' w _ -> _ _|p' w key c confirm _ -> _ _ _ _ _ -> _|p' w c _ -> _ _ _ _ _]; [| |done].
  - cbn [with_receive sessReceive]. unfold after_current. destruct (rPreviousReceive _); [|done].
    destruct (expireGrace_fields clock (spend_grace (set_replay w (sessReceive s)))) as (_ & -> & -> & _). done.
  - cbn [with_receive sessReceive].
    destruct (expireGrace_fields clock (start_epoch clock (next_key (rReceiveKey (sessReceive s))) c w (sessReceive s)))
      as (_ & -> & -> & _). done.
Qed.

(** ** Histories of accepted frames *)
Definition delivered_of (evs : list SessionEvent) : list (Z * Z) :=
  omap (λ ev, match ev with EvDelivered epoch f => Some (epoch, frame_seq f) | _ => None end) evs.

(** [acc] lists the (epoch, sequence) pairs accepted so far. *)
Record receive_inv (s : Session) (acc : list (Z * Z)) : Prop := {
  ri_ok : receive_ok s;
  ri_nodup : NoDup acc;
  ri_epochs : ∀ e q, (e, q) ∈ acc → e ≤ rReceiveEpoch (sessReceive s);
  ri_current : ∃ a, window_rel (rReplay (sessReceive s)) a ∧
    ∀ q, q ∈ seenSet a ↔ (rReceiveEpoch (sessReceive s), q) ∈ acc;
  ri_previous : rPreviousReceive (sessReceive s) ≠ None →
    ∃ a, window_rel (rPreviousReplay (sessReceive s)) a ∧
      ∀ q, q ∈ seenSet a ↔ (rReceiveEpoch (sessReceive s) - 1, q) ∈ acc;
}.

(** Accepting (epoch, seq) extends the window of that epoch and the history. *)
Lemma commits_history w0 w seq epoch (acc : list (Z * Z)) :
  commits w0 seq w → (∃ a, window_rel w0 a ∧ ∀ q, q ∈ seenSet a ↔ (epoch, q) ∈ acc) →
  ((epoch, seq) ∉ acc) ∧ ∃ a, window_rel w a ∧ ∀ q, q ∈ seenSet a ↔ (epoch, q) ∈ ((epoch, seq) :: acc).
Proof.
  intros Hc (a & Ha & Hin). destruct (Hc a Ha) as [Hf Hw]. apply seen_check_fresh in Hf. split; [by rewrite <- Hin|].
  exists (seen_accept a seq). split; [done|]. intros q. cbn. rewrite elem_of_union, elem_of_singleton, elem_of_cons, Hin.
  naive_solver.
Qed.

(** A pair of another epoch does not matter. *)
Lemma history_other epoch e seq (acc : list (Z * Z)) (a : SeenSet) :
  e ≠ epoch → (∀ q, q ∈ seenSet a ↔ (epoch, q) ∈ acc) → ∀ q, q ∈ seenSet a ↔ (epoch, q) ∈ ((e, seq) :: acc).
Proof. intros Hne Hin q. rewrite elem_of_cons, Hin. naive_solver. Qed.

Lemma accepts_frame_epoch clock s f p s' :
  accepts clock s f p s' →
  (frame_epoch (sessReceive s) f = rReceiveEpoch (sessReceive s) ∧
   is_ok (Codec_Decrypt (rReceive (sessReceive s)) f) = true) ∨
  (frame_epoch (sessReceive s) f = rReceiveEpoch (sessReceive s) - 1 ∧
   is_ok (Codec_Decrypt (rReceive (sessReceive s)) f) = false).
Proof. unfold frame_epoch. destruct (is_ok _); auto. Qed.

Lemma expireGrace_replay_history clock r (P : ReplayWindow → Prop) :
  (rPreviousReceive r ≠ None → P (rPreviousReplay r)) → rPreviousReceive (expireGrace clock r) ≠ None →
  P (rPreviousReplay (expireGrace clock r)).
Proof. unfold expireGrace. intros HP. destruct (rPreviousReceive r) eqn:E; [|by rewrite E]. case_match; [done|by rewrite E]. Qed.

Lemma receive_inv_accept clock s acc f p s' :
  receive_inv s acc → accepts clock s f p s' →
  receive_inv s' ((frame_epoch (sessReceive s) f, frame_seq f) :: acc).
Proof.
  intros [Hok Hnd Hep Hcur Hprev] Hacc. pose proof (accepts_ok _ _ _ _ _ Hok Hacc) as Hok'.
  pose proof (accepts_epoch _ _ _ _ _ Hacc) as Hepoch. unfold frame_epoch.
  destruct Hacc as [p w _ Hr Hd Hw|p w key c confirm _ Hr Hd Hw _ Hlt _ -> Hcd|p w c _ Hr Hd Hpc Hg Hd' Hw];
    rewrite Hd, Hr in *; cbn [is_ok]; destruct Hepoch as [Hep' _].
  - destruct (commits_history _ _ _ _ _ Hw Hcur) as [Hnew Hcur']. set (e := rReceiveEpoch (sessReceive s)) in *.
    split; rewrite ?Hep'; [done|by constructor| | |].
    + intros e' q [[= -> ->]|Hin]%elem_of_cons; [lia|by eapply Hep].
    + cbn [with_receive sessReceive]. unfold after_current. destruct (rPreviousReceive (sessReceive s)); [|done].
      by destruct (expireGrace_fields clock (spend_grace (set_replay w (sessReceive s)))) as (_ & _ & _ & -> & _).
    + cbn [with_receive sessReceive]. unfold after_current.
      assert (∀ r, rPreviousReceive r = rPreviousReceive (sessReceive s) → rPreviousReplay r = rPreviousReplay (sessReceive s) →
        rPreviousReceive r ≠ None → ∃ a, window_rel (rPreviousReplay r) a ∧ ∀ q, q ∈ seenSet a ↔ (e - 1, q) ∈ ((e, frame_seq f) :: acc)) as Hp.
      { intros r Hr1 -> Hne. rewrite Hr1 in Hne. destruct (Hprev Hne) as (a & Ha & Hin). exists a. split; [done|].
        apply history_other; [lia|done]. }
      destruct (rPreviousReceive (sessReceive s)) eqn:E; [|cbn; by rewrite E].
      refine (expireGrace_replay_history clock _
        (λ w', ∃ a, window_rel w' a ∧ ∀ q, q ∈ seenSet a ↔ (e - 1, q) ∈ ((e, frame_seq f) :: acc)) _).
      apply Hp; cbn; by rewrite ?E.
  - destruct (commits_history _ _ _ _ _ Hw Hcur) as [Hnew Hcur']. set (e := rReceiveEpoch (sessReceive s)) in *.
    split; rewrite ?Hep'; [done|by constructor| | |].
    + intros e' q [[= -> ->]|Hin]%elem_of_cons; [lia|]. apply Hep in Hin. lia.
    + cbn [with_receive sessReceive].
      destruct (expireGrace_fields clock (start_epoch clock (next_key (rReceiveKey (sessReceive s))) c w (sessReceive s)))
        as (_ & _ & _ & -> & _). exists seen_empty. split; [apply window_rel_zero|]. intros q. split; [set_solver|].
      intros [[= ?]|Hin]%elem_of_cons; [lia|]. apply Hep in Hin. lia.
    + cbn [with_receive sessReceive]. rewrite Z.add_simpl_r.
      refine (expireGrace_replay_history clock _
        (λ w', ∃ a, window_rel w' a ∧ ∀ q, q ∈ seenSet a ↔ (e, q) ∈ ((e, frame_seq f) :: acc)) _). done.
  - assert (∃ a, window_rel (rPreviousReplay (sessReceive s)) a ∧
      ∀ q, q ∈ seenSet a ↔ (rReceiveEpoch (sessReceive s) - 1, q) ∈ acc) as Hprev' by (apply Hprev; by rewrite Hpc).
    destruct (commits_history _ _ _ _ _ Hw Hprev') as [Hnew Hp']. set (e := rReceiveEpoch (sessReceive s)) in *.
    split; rewrite ?Hep'; [done|by constructor| | |done].
    + intros e' q [[= -> ->]|Hin]%elem_of_cons; [lia|by eapply Hep].
    + destruct Hcur as (a & Ha & Hin). exists a. split; [done|]. apply history_other; [lia|done].
Qed.

(** ** Every operation on the receive half *)
Lemma inbound_no_panic t unmarshal data : newInboundMessage t = Ok unmarshal → unmarshal data ≠ Panic.
Proof.
  unfold newInboundMessage. intros Hu. repeat (case_match; [injection Hu as <-|]); [..|done].
  - pose proof (unmarshal_no_panic (A := EncryptedData) data) as Hn. cbn in Hn. by destruct (EncryptedData_UnmarshalBinary data).
  - pose proof (unmarshal_no_panic (A := PingPong) data) as Hn. cbn in Hn. by destruct (PingPong_UnmarshalBinary data).
  - pose proof (unmarshal_no_panic (A := SessionClose) data) as Hn. cbn in Hn. by destruct (SessionClose_UnmarshalBinary data).
  - pose proof (unmarshal_no_panic (A := Ack) data) as Hn. cbn in Hn. by destruct (Ack_UnmarshalBinary data).
  - pose proof (unmarshal_no_panic (A := RekeyInit) data) as Hn. cbn in Hn. by destruct (RekeyInit_UnmarshalBinary data).
  - pose proof (unmarshal_no_panic (A := ErrorMessage) data) as Hn. cbn in Hn. by destruct (ErrorMessage_UnmarshalBinary data).
Qed.

Lemma inbound_total t :
  validSessionMessageType t = true → t ≠ MessageTypeResumptionTicket → ∃ u, newInboundMessage t = Ok u.
Proof.
  unfold validSessionMessageType, newInboundMessage, MessageTypeResumptionTicket, MessageTypeEncryptedData, MessageTypePingPong,
    MessageTypeSessionClose, MessageTypeAck, MessageTypeRekeyInit, MessageTypeError.
  intros [H3%Z.leb_le H9%Z.leb_le]%andb_true_iff H7. repeat (case_match; [by eexists|]).
  repeat match goal with H : (_ =? _) = false |- _ => apply Z.eqb_neq in H end. lia.
Qed.

Lemma accepts_admissible clock s f p s' : accepts clock s f p s' → admissible s f.
Proof. by intros []. Qed.

(** [Session_Receive] decodes after the sequence number is committed. *)
Lemma Receive_result clock s f :
  receive_ok s → Frame_ok f →
  (∃ e, Session_Receive clock f s = (s, Err e)) ∨
  ∃ p s' o, accepts clock s f p s' ∧ Session_Receive clock f s = (s', o) ∧ o ≠ Panic ∧
    ∃ u, newInboundMessage (hdrMessageType (frHeader f)) = Ok u ∧ o = u p.
Proof.
  intros Hok Hf. unfold Session_Receive. rewrite sm_bind_run.
  destruct (ReceivePayload_result clock s f Hok Hf) as [[e ->]|(p & s' & -> & Hacc)]; [left; by exists e|right].
  pose proof (accepts_admissible _ _ _ _ _ Hacc) as (H7 & _ & Hv & _).
  destruct (inbound_total _ Hv H7) as [u Hu]. rewrite Hu. sm_run. exists p, s', (u p).
  split; [done|]. split; [done|]. split; [by eapply inbound_no_panic|]. by exists u.
Qed.

Inductive receive_effect (s : Session) : SessionEvent → Session → Prop :=
  | reffect_none ev s' : receive_half s' = receive_half s → (∀ e f, ev ≠ EvDelivered e f) → receive_effect s ev s'
  | reffect_accept clock f p ev s' : accepts clock s f p s' →
      ev = EvDelivered (frame_epoch (sessReceive s) f) f ∨ (∀ e g, ev ≠ EvDelivered e g) → receive_effect s ev s'.

Lemma session_step_receive op s :
  receive_ok s → op_typed op → receive_effect s (session_step op s).2 (session_step op s).1.
Proof.
  intros Hok Hty. destruct op as [c en m n|c en t p n|c f|c f|c f|]; cbn [session_step op_typed] in *.
  - pose proof (Send_keeps c en m n s). destruct (Session_Send c en m n s) as [s' o]; cbn in *. by apply reffect_none; [|destruct o].
  - pose proof (SendPayload_keeps c en t p n s). destruct (Session_SendPayload c en t p n s) as [s' o]; cbn in *.
    by apply reffect_none; [|destruct o].
  - pose proof (MarkRekeySent_keeps c f s). destruct (Session_MarkRekeySent c f s) as [s' o]; cbn in *.
    by apply reffect_none; [|destruct o].
  - destruct (Receive_result c s f Hok Hty) as [[e ->]|(p & s' & o & Hacc & -> & _)]; [by apply reffect_none|].
    apply (reffect_accept s c f p); [done|]. destruct o; [by left|by right..].
  - destruct (ReceivePayload_result c s f Hok Hty) as [[e ->]|(p & s' & -> & Hacc)]; [by apply reffect_none|].
    apply (reffect_accept s c f p); [done|]. by left.
  - by apply reffect_none.
Qed.

Lemma receive_ok_half s s' : receive_half s' = receive_half s → receive_ok s → receive_ok s'.
Proof. destruct s, s'. intros [= -> -> ->] []. by split. Qed.

Lemma receive_inv_half s s' acc : receive_half s' = receive_half s → receive_inv s acc → receive_inv s' acc.
Proof.
  intros Hh [Hok Hnd Hep Hcur Hprev]. apply (receive_ok_half s s') in Hok; [|done].
  destruct s, s'. injection Hh as -> -> ->. by split.
Qed.

Lemma delivered_of_app a b : delivered_of (a ++ b) = delivered_of a ++ delivered_of b.
Proof. apply omap_app. Qed.

(** The delivered pairs are among the accepted ones, each once. *)
Lemma receive_inv_run ops : ∀ s acc,
  receive_inv s acc → Forall op_typed ops →
  ∃ new, receive_inv (session_run ops s).1 (new ++ acc) ∧ rev (delivered_of (session_run ops s).2) `sublist_of` new.
Proof.
  induction ops as [|op ops IH]; intros s acc Hinv Hall; cbn [session_run].
  { exists []. split; [done|]. cbn. constructor. }
  apply Forall_cons in Hall as [Hop Hall]. pose proof (session_step_receive op s (ri_ok _ _ Hinv) Hop) as He.
  destruct (session_step op s) as [s1 ev]. cbn [fst snd] in He.
  assert (∃ new1, receive_inv s1 (new1 ++ acc) ∧ rev (delivered_of [ev]) `sublist_of` new1) as (new1 & Hinv1 & Hsub1).
  { destruct He as [ev s' Hh Hno|clock f p ev s' Hacc Hev].
    - exists []. split; [by eapply receive_inv_half|]. destruct ev; cbn; try constructor. by destruct (Hno epoch frame).
    - exists [(frame_epoch (sessReceive s) f, frame_seq f)]. split; [by eapply receive_inv_accept|].
      destruct Hev as [->|Hno]; [cbn; reflexivity|]. destruct ev; cbn; try (constructor; constructor). by destruct (Hno epoch frame). }
  destruct (IH s1 _ Hinv1 Hall) as (new & Hinv2 & Hsub). destruct (session_run ops s1) as [s2 evs]. cbn [fst snd] in *.
  exists (new ++ new1). split; [by rewrite <- app_assoc|].
  change (ev :: evs) with ([ev] ++ evs). rewrite delivered_of_app, rev_app_distr. by apply sublist_app.
Qed.

Lemma NewSession_receive_inv suite secrets now s :
  zlen (hsSessionID secrets) = 16 → NewSession suite secrets now = Ok s → receive_inv s [].
Proof.
  intros Hid Hn. apply NewSession_inv in Hn as (-> & Hsu & Hsid & Hnz & Hcl & cs & cr & Hcs & Hcr & Hs & Hr); [|done].
  split; rewrite ?Hr; cbn; try set_solver.
  - split; rewrite ?Hr; cbn; try done; exists seen_empty; apply window_rel_zero.
  - constructor.
  - exists seen_empty. split; [apply window_rel_zero|]. set_solver.
Qed.

(** ** The frame budget of the previous key *)

(** Deliveries under the key of epoch [e]. *)
Definition delivered_in (e : Z) (evs : list SessionEvent) : nat :=
  length (filter (λ x, x.1 = e) (delivered_of evs)).

Lemma delivered_in_cons e ev evs :
  delivered_in e (ev :: evs) = (delivered_in e [ev] + delivered_in e evs)%nat.
Proof.
  unfold delivered_in. change (ev :: evs) with ([ev] ++ evs). by rewrite delivered_of_app, filter_app, length_app.
Qed.

(** One frame: the epoch does not decrease, and while it stays the same the key
    is not revived and each delivery under the current key spends budget. *)
Lemma accepts_budget clock s f p s' :
  receive_ok s → accepts clock s f p s' →
  rReceiveEpoch (sessReceive s) ≤ rReceiveEpoch (sessReceive s') ∧
  (rReceiveEpoch (sessReceive s') = rReceiveEpoch (sessReceive s) → rPreviousReceive (sessReceive s') ≠ None →
   rPreviousReceive (sessReceive s) ≠ None ∧
   rGraceRemaining (sessReceive s') + (if bool_decide (frame_epoch (sessReceive s) f = rReceiveEpoch (sessReceive s)) then 1 else 0)
     ≤ rGraceRemaining (sessReceive s)).
Proof.
  intros Hok Hacc. pose proof (accepts_epoch _ _ _ _ _ Hacc) as Hep. unfold frame_epoch.
  destruct Hacc as [p w _ Hr Hd Hw|p w key c confirm _ Hr _ _ _ _ _ _ _|p w c _ Hr Hd Hpc Hg _ _];
    rewrite Hr in Hep; destruct Hep as [Hep _]; (split; [lia|]); [| |].
  - intros _. cbn [with_receive sessReceive]. unfold after_current.
    destruct (rPreviousReceive (sessReceive s)) as [c|] eqn:Hp; [|cbn; by rewrite Hp].
    rewrite Hd. cbn [is_ok]. rewrite bool_decide_eq_true_2 by done. intros Hne. split; [done|].
    destruct (ro_previous s Hok c Hp) as (_ & Hpos & _).
    assert (0 ≤ rGraceRemaining (spend_grace (set_replay w (sessReceive s)))) as Hg by (cbn; case_match; lia).
    destruct (expireGrace_previous clock _ Hg) as [[-> _]|(Hn & _)]; [|done].
    cbn. rewrite (proj2 (Z.ltb_lt _ _)) by done. lia.
  - intros Heq. lia.
  - intros _ _. rewrite Hd. cbn [is_ok]. rewrite bool_decide_eq_false_2 by lia. split; [by rewrite Hpc|]. cbn. lia.
Qed.

Lemma budget_run ops : ∀ s,
  receive_ok s → Forall op_typed ops →
  rReceiveEpoch (sessReceive s) ≤ rReceiveEpoch (sessReceive (session_run ops s).1) ∧
  receive_ok (session_run ops s).1 ∧
  (rReceiveEpoch (sessReceive (session_run ops s).1) = rReceiveEpoch (sessReceive s) →
   rPreviousReceive (sessReceive (session_run ops s).1) ≠ None →
   rPreviousReceive (sessReceive s) ≠ None ∧
   rGraceRemaining (sessReceive (session_run ops s).1)
     + Z.of_nat (delivered_in (rReceiveEpoch (sessReceive s)) (session_run ops s).2) ≤ rGraceRemaining (sessReceive s)).
Proof.
  induction ops as [|op ops IH]; intros s Hok Hall; cbn [session_run].
  { cbn. split; [lia|]. split; [done|]. intros _ ?. split; [done|]. lia. }
  apply Forall_cons in Hall as [Hop Hall]. pose proof (session_step_receive op s Hok Hop) as He.
  destruct (session_step op s) as [s1 ev]. cbn [fst snd] in He.
  assert (receive_ok s1 ∧ rReceiveEpoch (sessReceive s) ≤ rReceiveEpoch (sessReceive s1) ∧
    (rReceiveEpoch (sessReceive s1) = rReceiveEpoch (sessReceive s) → rPreviousReceive (sessReceive s1) ≠ None →
     rPreviousReceive (sessReceive s) ≠ None ∧
     rGraceRemaining (sessReceive s1) + Z.of_nat (delivered_in (rReceiveEpoch (sessReceive s)) [ev])
       ≤ rGraceRemaining (sessReceive s))) as (Hok1 & Hle1 & Hb1).
  { destruct He as [ev s' Hh Hno|clock f p ev s' Hacc Hev].
    - split; [by eapply receive_ok_half|]. assert (sessReceive s' = sessReceive s) as -> by exact (f_equal snd Hh).
      split; [done|]. intros _ ?. split; [done|]. destruct ev; cbn; try lia. by destruct (Hno epoch frame).
    - split; [by eapply accepts_ok|]. destruct (accepts_budget clock s f p s' Hok Hacc) as [Hle Hb]. split; [done|].
      intros Heq Hne. destruct (Hb Heq Hne) as [Hp Hg]. split; [done|]. destruct Hev as [->|Hno].
      + unfold delivered_in. cbn. case_bool_decide; [rewrite decide_True by done|rewrite decide_False by done]; cbn; lia.
      + destruct ev; cbn; try (case_bool_decide; lia). by destruct (Hno epoch frame). }
  destruct (IH s1 Hok1 Hall) as (Hle2 & Hok2 & Hb2). destruct (session_run ops s1) as [s2 evs]. cbn [fst snd] in *.
  split; [lia|]. split; [done|]. intros Heq Hne. assert (rReceiveEpoch (sessReceive s1) = rReceiveEpoch (sessReceive s)) as He1 by lia.
  destruct Hb2 as [Hp1 Hg1]; [lia|done|]. destruct (Hb1 He1 Hp1) as [Hp Hg]. split; [done|].
  rewrite delivered_in_cons. rewrite He1 in Hg1. lia.
Qed.

(** ** The type invariant of a session *)

Lemma send_effect_ok op s ev s' : send_ok s → send_effect op s ev s' → send_ok s'.
Proof.
  intros Hok [ev' s1 Hh _|f s1 [_ Hp] He|clock p Hp _].
  - by apply (send_ok_half s).
  - by eapply emits_ok.
  - by apply commit_rekey_ok.
Qed.

Lemma receive_effect_ok s ev s' : receive_ok s → receive_effect s ev s' → receive_ok s'.
Proof. intros Hok [ev' s1 Hh _|clock f p ev' s1 Ha _]; [by apply (receive_ok_half s)|by eapply accepts_ok]. Qed.

Lemma session_step_no_panic op s : send_ok s → receive_ok s → op_typed op → (session_step op s).2 ≠ EvPanic.
Proof.
  intros Hs Hr Hty. destruct op as [c en m n|c en t p n|c f|c f|c f|]; cbn [session_step op_typed] in *.
  - destruct Hty as [Hm Hn]. by destruct (Send_result c en m n s Hs Hm Hn) as [[e ->]|(f & s' & -> & _)].
  - by destruct (SendPayload_result c en t p n s Hs Hty) as [[e ->]|(f & s' & -> & _)].
  - by destruct (MarkRekeySent_result c f s) as [(e & -> & _)|(p & _ & _ & _ & ->)].
  - destruct (Receive_result c s f Hr Hty) as [[e ->]|(p & s' & o & _ & -> & Ho & _)]; [done|]. by destruct o.
  - by destruct (ReceivePayload_result c s f Hr Hty) as [[e ->]|(p & s' & -> & _)].
  - done.
Qed.

Lemma session_run_ok ops : ∀ s,
  send_ok s → receive_ok s → Forall op_typed ops →
  send_ok (session_run ops s).1 ∧ receive_ok (session_run ops s).1 ∧ EvPanic ∉ (session_run ops s).2.
Proof.
  induction ops as [|op ops IH]; intros s Hs Hr Hall; cbn [session_run]; [split; [done|]; split; [done|apply not_elem_of_nil]|].
  apply Forall_cons in Hall as [Hop Hall]. pose proof (session_step_no_panic op s Hs Hr Hop) as Hp.
  pose proof (send_effect_ok _ _ _ _ Hs (session_step_send op s Hs Hop)) as Hs1.
  pose proof (receive_effect_ok _ _ _ Hr (session_step_receive op s Hr Hop)) as Hr1.
  destruct (session_step op s) as [s1 ev]. cbn [fst snd] in *. destruct (IH s1 Hs1 Hr1 Hall) as (? & ? & ?).
  destruct (session_run ops s1) as [s2 evs]. cbn [fst snd] in *. split; [done|]. split; [done|].
  by apply not_elem_of_cons.
Qed.
End receive.

(** ** Properties *)

(** C34: A session made by NewSession and any sequence of calls with well-typed arguments keep
    it well-formed: codecs fit 32-byte keys, epochs and counters stay in their widths, the
    replay bitmaps stay valid and a pending RekeyInit matches the ratchet; no call panics. *)
Theorem session_well_formed {aead : AEAD} {laws : AEADLaws} suite secrets now s ops :
  zlen (hsSessionID secrets) = 16 → NewSession suite secrets now = Ok s → Forall op_typed ops →
  send_ok (session_run ops s).1 ∧ receive_ok (session_run ops s).1 ∧ EvPanic ∉ (session_run ops s).2.
Proof.
  intros Hid Hn. apply session_run_ok.
  - exact (si_ok _ _ _ (NewSession_send_inv suite secrets now s Hid Hn)).
  - exact (ri_ok _ _ (NewSession_receive_inv suite secrets now s Hid Hn)).
Qed.

(** C6: Over any sequence of calls of one session, with any frames in any order from any source,
    no pair of key epoch and sequence number is delivered twice. *)
Theorem receive_at_most_once {aead : AEAD} {laws : AEADLaws} suite secrets now s ops :
  zlen (hsSessionID secrets) = 16 → NewSession suite secrets now = Ok s → Forall op_typed ops →
  NoDup (delivered_of (session_run ops s).2).
Proof.
  intros Hid Hn Hall. pose proof (NewSession_receive_inv suite secrets now s Hid Hn) as Hinv.
  destruct (receive_inv_run ops s [] Hinv Hall) as (new & Hinv' & Hsub). rewrite app_nil_r in Hinv'.
  apply ri_nodup in Hinv'. eapply sublist_NoDup in Hinv'; [|done]. by rewrite <- Permutation_rev in Hinv'.
Qed.

(** C15: ReceivePayload never panics; a rejected frame leaves the session as it was; an accepted
    frame authenticates under the current key, or under the previous key within its grace, is
    new to the replay window of that key, and changes only the receive half, as specified. *)
Theorem receive_failure_atomic {aead : AEAD} {laws : AEADLaws} clock s f :
  receive_ok s → Frame_ok f →
  let '(s', o) := Session_ReceivePayload clock f s in
  match o with
  | Panic => False
  | Err _ => s' = s
  | Ok p =>
      receive_ok s' ∧ send_half s' = send_half s ∧ accepts clock s f p s' ∧
      (frame_epoch (sessReceive s) f = rReceiveEpoch (sessReceive s) - 1 →
       is_rekey f = false ∧ grace_open clock (sessReceive s) ∧
       ∃ c key, rPreviousReceive (sessReceive s) = Some c ∧ codec_of key c ∧
         rReceiveKey (sessReceive s) = next_key key ∧ Codec_Decrypt c f = Ok p)
  end.
Proof.
  intros Hok Hf. pose proof (ReceivePayload_keeps clock f s) as Hk.
  destruct (ReceivePayload_result clock s f Hok Hf) as [[e ->]|(p & s' & Hr & Hacc)]; [done|].
  rewrite Hr in *. split; [by eapply accepts_ok|]. split; [done|]. split; [done|]. unfold frame_epoch.
  destruct Hacc as [p w _ _ Hd _|p w key c confirm _ _ Hd _ _ _ _ _ _|p w c _ Hre Hd Hpc Hg Hd' _];
    rewrite Hd; cbn [is_ok]; try lia.
  intros _. split; [done|]. split; [done|]. destruct (ro_previous s Hok c Hpc) as (_ & _ & key & Hkey & Hnext). by exists c, key.
Qed.

(** An accepted RekeyInit carries the next epoch and the HMAC confirmation of the current key,
    moves the receiver to the next epoch and ratchet key with an empty replay window, and keeps
    the previous codec only under a positive grace; any other frame keeps epoch and keys. *)
Theorem receive_rekey_exact {aead : AEAD} {laws : AEADLaws} clock s f p s' :
  receive_ok s → Frame_ok f → Session_ReceivePayload clock f s = (s', Ok p) →
  let r := sessReceive s in
  let r' := sessReceive s' in
  if is_rekey f
  then rReceiveEpoch r' = rReceiveEpoch r + 1 ∧ rReceiveEpoch r' < 2 ^ 32 ∧
       rReceiveKey r' = next_key (rReceiveKey r) ∧ rReplay r' = zeroReplayWindow ∧
       p = RekeyInit_layout (mkRekeyInit (rReceiveEpoch r + 1) (key_confirm (rReceiveKey r) (rReceiveEpoch r + 1))) ∧
       rPreviousReceive r' =
         (if bool_decide (0 < rGraceFrames r ∧ 0 < rGracePeriod r ∧
                          clock ClockGraceExpiry < clock ClockGraceStart + rGracePeriod r)
          then Some (rReceive r) else None)
  else rReceiveEpoch r' = rReceiveEpoch r ∧ rReceiveKey r' = rReceiveKey r ∧ rReceive r' = rReceive r.
Proof.
  intros Hok Hf Hrun. destruct (ReceivePayload_result clock s f Hok Hf) as [[e He]|(p' & s'' & He & Hacc)];
    rewrite Hrun in He; [done|]. injection He as <- <-. pose proof (accepts_epoch _ _ _ _ _ Hacc) as Hep. cbv zeta.
  destruct Hacc as [p w _ -> _ _|p w key c confirm _ -> _ _ Hu Hlt -> -> _|p w c _ -> _ _ _ _ _]; destruct Hep as [Hep Hkey].
  - split; [done|]. split; [done|]. cbn [with_receive sessReceive]. unfold after_current. destruct (rPreviousReceive _); [|done].
    by destruct (expireGrace_fields clock (spend_grace (set_replay w (sessReceive s)))) as (-> & _).
  - split; [done|]. split; [lia|]. split; [done|]. cbn [with_receive sessReceive] in *.
    destruct (expireGrace_fields clock (start_epoch clock (next_key (rReceiveKey (sessReceive s))) c w (sessReceive s)))
      as (_ & _ & _ & -> & _). split; [done|].
    split; [by destruct (proj2 (RekeyInit_unmarshal_inv p) _ Hu) as (_ & _ & ->)|].
    destruct (ro_grace s Hok) as [Hg _]. unfold expireGrace. cbn [start_epoch rPreviousReceive rGraceRemaining rGracePeriod rGraceUntil].
    case_bool_decide as Hb.
    + rewrite (proj2 (Z.eqb_neq _ _)), (proj2 (Z.leb_gt _ _)), (proj2 (Z.ltb_lt _ _)) by lia. done.
    + destruct (rGraceFrames (sessReceive s) =? 0) eqn:E1; [done|]. destruct (rGracePeriod (sessReceive s) <=? 0) eqn:E2; [done|].
      apply Z.eqb_neq in E1. apply Z.leb_gt in E2. rewrite (proj2 (Z.ltb_ge _ _)) by lia. done.
  - done.
Qed.

(** C35: The receive epoch never goes back, and once the remaining grace budget of current-epoch
    frames has been delivered the previous receive key is gone, whatever else the calls do. *)
Theorem previous_key_expires {aead : AEAD} {laws : AEADLaws} s ops :
  receive_ok s → Forall op_typed ops →
  let '(s', evs) := session_run ops s in
  rReceiveEpoch (sessReceive s) ≤ rReceiveEpoch (sessReceive s') ∧
  (rReceiveEpoch (sessReceive s') = rReceiveEpoch (sessReceive s) →
   rGraceRemaining (sessReceive s) ≤ Z.of_nat (delivered_in (rReceiveEpoch (sessReceive s)) evs) →
   rPreviousReceive (sessReceive s') = None).
Proof.
  intros Hok Hall. destruct (budget_run ops s Hok Hall) as (Hle & Hok' & Hb).
  destruct (session_run ops s) as [s' evs]. cbn [fst snd] in *. split; [done|]. intros Heq Hn.
  destruct (rPreviousReceive (sessReceive s')) as [c|] eqn:Hp; [|done].
  destruct (Hb Heq) as [_ Hg]; [done|]. destruct (ro_previous s' Hok' c Hp) as (_ & Hpos & _). lia.
Qed.

(** ** Witnesses *)

(** The peer of [mac_session] sends two pings, a RekeyInit and one more ping. *)
Definition ex_peer : @Session mac_aead :=
  @mkSession mac_aead ex_session 1 false
    (@mkSendState mac_aead (@mkCodec mac_aead (map to_byte (seqZ 50 32))) (map to_byte (seqZ 50 32)) 1 1 0 0
       DefaultRekeyFrameLimit DefaultRekeyInterval None)
    (@mkReceiveState mac_aead (@mkCodec mac_aead ex_key) ex_key 1 zeroReplayWindow None zeroReplayWindow 0 zeroTime
       DefaultRekeyGraceFrames DefaultRekeyGracePeriod).

Definition zero_frame : Frame := mkFrame (NewHeader 0 zero16 0 0 0) [] zero16 [].
Definition ex_peer_rekey : Frame :=
  match sPendingRekey (sessSend (session_run (take 3 (ex_ops zero_frame)) ex_peer).1) with
  | Some p => prFrame p | None => zero_frame end.
Definition ex_frames : list Frame :=
  Eval vm_compute in (snd <$> sent_of (session_run (ex_ops ex_peer_rekey) ex_peer).2).
Definition ex_frame_at (i : nat) : Frame := nth i ex_frames zero_frame.

(** A delivery, its replay, the RekeyInit, a late frame of the previous epoch, and
    a frame of the new epoch. *)
Definition ex_receive_ops : list SessionOp :=
  [OpReceive (at_time 5) (ex_frame_at 0); OpReceive (at_time 5) (ex_frame_at 0); OpReceive (at_time 5) (ex_frame_at 2);
   OpReceivePayload (at_time 6) (ex_frame_at 1); OpReceive (at_time 7) (ex_frame_at 3)].

Example ex_receive_run :
  delivered_of (session_run ex_receive_ops mac_session).2 = [(1, 1); (1, 3); (1, 2); (2, 1)].
Proof. vm_compute. reflexivity. Qed.

Lemma ex_frame_ok i : (i < 4)%nat → Frame_ok (ex_frame_at i).
Proof.
  intros Hi. assert (Forall Frame_ok (map ex_frame_at (seq 0 4))) as Hall by decide_closed.
  rewrite Forall_forall in Hall. apply Hall. apply list_elem_of_In, in_map, in_seq. lia.
Qed.

Lemma ex_receive_typed : Forall op_typed ex_receive_ops.
Proof. repeat (apply Forall_cons; split); try apply Forall_nil_2; apply ex_frame_ok; lia. Qed.

Lemma mac_session_receive_ok : @receive_ok mac_aead mac_session.
Proof.
  exact (ri_ok _ _ (@NewSession_receive_inv mac_aead mac_aead_laws CipherChaCha20Poly1305 ex_secrets 0 mac_session
    eq_refl mac_session_new)).
Qed.

Lemma receive_at_most_once_witness : NoDup (delivered_of (session_run ex_receive_ops mac_session).2).
Proof.
  exact (@receive_at_most_once mac_aead mac_aead_laws CipherChaCha20Poly1305 ex_secrets 0 mac_session
    ex_receive_ops eq_refl mac_session_new ex_receive_typed).
Defined.

Lemma session_well_formed_witness :
  @send_ok mac_aead (session_run ex_receive_ops mac_session).1 ∧ EvPanic ∉ (session_run ex_receive_ops mac_session).2.
Proof.
  destruct (@session_well_formed mac_aead mac_aead_laws CipherChaCha20Poly1305 ex_secrets 0 mac_session
    ex_receive_ops eq_refl mac_session_new ex_receive_typed) as (H1 & _ & H2). exact (conj H1 H2).
Defined.

Lemma receive_failure_atomic_witness :
  let '(s', o) := Session_ReceivePayload (at_time 5) (ex_frame_at 0) mac_session in
  is_ok o = true ∧ send_half s' = send_half mac_session.
Proof.
  assert (is_ok (Session_ReceivePayload (at_time 5) (ex_frame_at 0) mac_session).2 = true) as Ho by (vm_compute; reflexivity).
  pose proof (@receive_failure_atomic mac_aead mac_aead_laws (at_time 5) mac_session (ex_frame_at 0)
    mac_session_receive_ok (ex_frame_ok 0 ltac:(lia))) as Hr.
  destruct (Session_ReceivePayload (at_time 5) (ex_frame_at 0) mac_session) as [s' o]. cbn [snd] in Ho.
  split; [exact Ho|]. destruct o; [exact (proj1 (proj2 Hr))|discriminate Ho..].
Defined.

Lemma receive_rekey_exact_witness :
  rReceiveEpoch (sessReceive (Session_ReceivePayload (at_time 5) (ex_frame_at 2) mac_session).1) = 2.
Proof.
  assert (is_ok (Session_ReceivePayload (at_time 5) (ex_frame_at 2) mac_session).2 = true) as Ho by (vm_compute; reflexivity).
  destruct (Session_ReceivePayload (at_time 5) (ex_frame_at 2) mac_session) as [s' [p|e|]] eqn:E; [|discriminate Ho..].
  pose proof (@receive_rekey_exact mac_aead mac_aead_laws (at_time 5) mac_session (ex_frame_at 2) p s'
    mac_session_receive_ok (ex_frame_ok 2 ltac:(lia)) E) as Hr. cbv zeta in Hr.
  assert (is_rekey (ex_frame_at 2) = true) as Hk by (vm_compute; reflexivity). rewrite Hk in Hr. exact (proj1 Hr).
Defined.

(** A grace of one frame, the RekeyInit of the peer, and the frame that uses it up. *)
Definition ex_short_grace : @Session mac_aead :=
  with_receive (λ r, mkReceiveState (rReceive r) (rReceiveKey r) (rReceiveEpoch r) (rReplay r) (rPreviousReceive r)
    (rPreviousReplay r) (rGraceRemaining r) (rGraceUntil r) 1 (rGracePeriod r)) mac_session.
Definition ex_rekeyed : @Session mac_aead := (session_run [OpReceive (at_time 5) (ex_frame_at 2)] ex_short_grace).1.
Definition ex_new_epoch : list SessionOp := [OpReceive (at_time 7) (ex_frame_at 3)].

Lemma ex_rekeyed_ok : @receive_ok mac_aead ex_rekeyed.
Proof.
  apply (@budget_run mac_aead mac_aead_laws); [|by apply Forall_singleton, (ex_frame_ok 2); lia].
  destruct mac_session_receive_ok. by split.
Qed.

Lemma ex_new_epoch_typed : Forall op_typed ex_new_epoch.
Proof. apply Forall_singleton, (ex_frame_ok 3). lia. Qed.

Definition ex_grace_view (s : @Session mac_aead) : bool :=
  let '(s', evs) := @session_run mac_aead ex_new_epoch s in
  bool_decide (is_Some (rPreviousReceive (sessReceive s))) &&
  (rReceiveEpoch (sessReceive s') =? rReceiveEpoch (sessReceive s)) &&
  (rGraceRemaining (sessReceive s) <=? Z.of_nat (delivered_in (rReceiveEpoch (sessReceive s)) evs)).

Lemma ex_grace_view_spec s :
  ex_grace_view s = true →
  let '(s', evs) := @session_run mac_aead ex_new_epoch s in
  is_Some (rPreviousReceive (sessReceive s)) ∧ rReceiveEpoch (sessReceive s') = rReceiveEpoch (sessReceive s) ∧
  rGraceRemaining (sessReceive s) ≤ Z.of_nat (delivered_in (rReceiveEpoch (sessReceive s)) evs).
Proof.
  unfold ex_grace_view. destruct (session_run ex_new_epoch s) as [s' evs].
  by rewrite !andb_true_iff, bool_decide_eq_true, Z.eqb_eq, Z.leb_le, <- (assoc (∧)).
Qed.

Lemma ex_grace_runs : ex_grace_view ex_rekeyed = true.
Proof. vm_compute. reflexivity. Qed.

Lemma previous_key_expires_witness :
  is_Some (rPreviousReceive (@sessReceive mac_aead ex_rekeyed)) ∧
  rPreviousReceive (@sessReceive mac_aead (@session_run mac_aead ex_new_epoch ex_rekeyed).1) = None.
Proof.
  pose proof (@previous_key_expires mac_aead mac_aead_laws ex_rekeyed ex_new_epoch ex_rekeyed_ok ex_new_epoch_typed) as Hb.
  pose proof (ex_grace_view_spec _ ex_grace_runs) as Hr. destruct (session_run ex_new_epoch ex_rekeyed) as [s' evs].
  destruct Hr as (H1 & H2 & H3). split; [exact H1|exact (proj2 Hb H2 H3)].
Defined.
