(* ===== verification/Protocol.v ===== *)
(** * The protocol a session implements

    The rules of docs/protocol/dgproto-v1.md for one endpoint of an established
    session (sections 4.2 to 4.5), as a machine with no codecs, bitmaps, wrapped
    counters or sentinels: a direction is a traffic key, an epoch and either the
    number of frames sent or the set of numbers accepted; a retired key keeps its
    own set, its frame allowance and its deadline.  The cipher is used only through
    [seal_with] and [open_with], which fix the nonce and the associated data.

    [implements] relates a session of session.go to that machine.  The refinement
    theorem shows that every sequence of calls on a session gives, call by call,
    exactly the answers of the machine: the same frames, payloads and messages, and
    on every branch the same error. *)

From S2P Require Import Prelude Wire Header Frame Tlv Utf8 Messages Replay Sha256 Crypto Rekey Session SessionSend SessionReceive.
Import wire.

Local Open Scope Z_scope.
Local Open Scope sm_scope.
Local Opaque header_layout next_key key_confirm.

(** The constants of sections 4.4 and 4.5. *)
Definition RekeyAfterFrames : Z := 4294967296.
Definition RekeyAfterTime : Z := 600 * time_Second.
Definition GraceFrames : Z := 2048.
Definition GraceTime : Z := 30 * time_Second.
Definition LastSequence : Z := 18446744073709551615.
Definition LastEpoch : Z := 4294967295.

Section protocol.
Context {aead : AEAD}.

(** ** State *)
Record Outbound := mkOutbound {
  outKey : list byte;
  outEpoch : Z;
  outSent : Z;
  outStarted : Z;
  outPending : option Frame;
}.

Record Retired := mkRetired {
  rtKey : list byte;
  rtSeen : SeenSet;
  rtLeft : Z;
  rtUntil : Z;
}.

Record Inbound := mkInbound {
  inKey : list byte;
  inEpoch : Z;
  inSeen : SeenSet;
  inRetired : option Retired;
}.

Record Party := mkParty {
  ptID : list byte;
  ptClosed : bool;
  ptOut : Outbound;
  ptIn : Inbound;
}.

Definition new_party (secrets : HandshakeSecrets) (now : Z) : Party :=
  mkParty (hsSessionID secrets) false (mkOutbound (hsSendKey secrets) 1 0 now None)
    (mkInbound (hsReceiveKey secrets) 1 seen_empty None).

Definition set_out (P : Party) (out : Outbound) : Party := mkParty (ptID P) (ptClosed P) out (ptIn P).
Definition set_in (P : Party) (inb : Inbound) : Party := mkParty (ptID P) (ptClosed P) (ptOut P) inb.

(** ** The cipher (section 4.2): the nonce is four zero octets and the sequence number, the
    associated data the first forty header octets and the padding. *)
Definition seal_with (key : list byte) (messageType : Z) (id : list byte) (sequence : Z)
    (plaintext padding : list byte) : outcome Frame :=
  cipher ← aead_New key;
  let header := NewHeader messageType id sequence (zlen plaintext) (zlen padding) in
  let sealed := aead_Seal cipher (nonce_bytes sequence) plaintext (header_layout (to_wire header) ++ padding) in
  Ok (mkFrame header (take (length plaintext) sealed) (drop (length plaintext) sealed) padding).

Definition open_with (key : list byte) (f : Frame) : option (list byte) :=
  match aead_New key with
  | Ok cipher =>
      aead_Open cipher (nonce_bytes (frame_seq f)) (frPayload f ++ frTag f)
        (header_layout (to_wire (frHeader f)) ++ frPadding f)
  | _ => None
  end.

(** ** Sending *)
Definition emit (P : Party) (messageType : Z) (plaintext : list byte) (padLength : Z) (entropy : list byte)
    : outcome Frame :=
  if outSent (ptOut P) =? LastSequence then Err ErrSequenceExhausted else
  if MaxFrameSize <? HeaderSize + zlen plaintext + AEADTagSize + padLength then Err ErrPayloadTooLarge else
  if zlen entropy <? padLength then Err (if zlen entropy =? 0 then EOF else ErrUnexpectedEOF) else
  seal_with (outKey (ptOut P)) messageType (ptID P) (outSent (ptOut P) + 1) plaintext (take (Z.to_nat padLength) entropy).

(** One more frame is out; a RekeyInit waits for its confirmation. *)
Definition sent (pending : option Frame) (out : Outbound) : Outbound :=
  mkOutbound (outKey out) (outEpoch out) (outSent out + 1) (outStarted out) pending.

Definition rekey_due (clock : Clock) (out : Outbound) : bool :=
  (RekeyAfterFrames <=? outSent out) || (RekeyAfterTime <=? clock ClockRekeyDue - outStarted out).

Definition expected_init (key : list byte) (epoch : Z) : RekeyInit :=
  mkRekeyInit (epoch + 1) (key_confirm key (epoch + 1)).

Definition protocol_send (clock : Clock) (entropy : list byte) (messageType : Z) (plaintext : list byte)
    (padLength : Z) (P : Party) : Party * outcome Frame :=
  if ptClosed P then (P, Err ErrSessionClosed) else
  match outPending (ptOut P) with
  | Some _ => (P, Err ErrRekeyPending)
  | None =>
      if rekey_due clock (ptOut P) then
        if outEpoch (ptOut P) =? LastEpoch then (P, Err ErrEpochExhausted) else
        match emit P MessageTypeRekeyInit (RekeyInit_layout (expected_init (outKey (ptOut P)) (outEpoch (ptOut P))))
                padLength entropy with
        | Ok f => (set_out P (sent (Some f) (ptOut P)), Ok f)
        | o => (P, o)
        end
      else
        match emit P messageType plaintext padLength entropy with
        | Ok f => (set_out P (sent None (ptOut P)), Ok f)
        | o => (P, o)
        end
  end.

(** Callers choose any message of an established session but RekeyInit. *)
Definition caller_type (messageType : Z) : bool :=
  validSessionMessageType messageType && negb (messageType =? MessageTypeResumptionTicket) &&
  negb (messageType =? MessageTypeRekeyInit).

Definition protocol_confirm (clock : Clock) (f : Frame) (P : Party) : Party * outcome unit :=
  let out := ptOut P in
  if ptClosed P then (P, Err ErrSessionClosed) else
  if bool_decide (outPending out = Some f)
  then (set_out P (mkOutbound (next_key (outKey out)) (outEpoch out + 1) 0 (clock ClockEpochStart) None), Ok tt)
  else (P, Err ErrRekeyPending).

(** ** Receiving (sections 4.4.1 and 4.5) *)

(** A retired key is dropped once its allowance is spent or its deadline passed. *)
Definition keep (clock : Clock) (r : Retired) : option Retired :=
  if (rtLeft r =? 0) || (rtUntil r <=? clock ClockGraceExpiry) then None else Some r.

Definition spend (r : Retired) : Retired := mkRetired (rtKey r) (rtSeen r) (rtLeft r - 1) (rtUntil r).

Definition accept_data (clock : Clock) (sequence : Z) (inb : Inbound) : Inbound :=
  mkInbound (inKey inb) (inEpoch inb) (seen_accept (inSeen inb) sequence) (r ← inRetired inb; keep clock (spend r)).

Definition accept_rekey (clock : Clock) (sequence : Z) (inb : Inbound) : Inbound :=
  mkInbound (next_key (inKey inb)) (inEpoch inb + 1) seen_empty
    (keep clock (mkRetired (inKey inb) (seen_accept (inSeen inb) sequence) GraceFrames (clock ClockGraceStart + GraceTime))).

Definition accept_retired (sequence : Z) (r : Retired) (inb : Inbound) : Inbound :=
  mkInbound (inKey inb) (inEpoch inb) (inSeen inb)
    (Some (mkRetired (rtKey r) (seen_accept (rtSeen r) sequence) (rtLeft r) (rtUntil r))).

(** The checks of a RekeyInit that authenticated under the current key. *)
Definition check_rekey (plaintext : list byte) (inb : Inbound) : outcome unit :=
  init ← RekeyInit_UnmarshalBinary plaintext;
  if inEpoch inb =? LastEpoch then Err ErrEpochExhausted else
  if negb (riEpoch init =? inEpoch inb + 1) then Err ErrInvalidEpoch else
  if bool_decide (riKeyConfirm init = key_confirm (inKey inb) (inEpoch inb + 1)) then Ok tt
  else Err ErrKeyConfirmFailed.

(** The retired key a frame may be tried with. *)
Definition in_grace (clock : Clock) (inb : Inbound) : option Retired :=
  match inRetired inb with
  | Some r => if clock ClockPreviousGrace <? rtUntil r then Some r else None
  | None => None
  end.

Definition protocol_open (clock : Clock) (f : Frame) (inb : Inbound) : Inbound * outcome (list byte) :=
  let sequence := frame_seq f in
  match open_with (inKey inb) f with
  | Some p =>
      match seen_check (inSeen inb) sequence with
      | Some e => (inb, Err e)
      | None =>
          if is_rekey f then
            match check_rekey p inb with
            | Ok _ => (accept_rekey clock sequence inb, Ok p)
            | Err e => (inb, Err e)
            | Panic => (inb, Panic)
            end
          else (accept_data clock sequence inb, Ok p)
      end
  | None =>
      match in_grace clock inb with
      | None => (inb, Err ErrAuthentication)
      | Some r =>
          match open_with (rtKey r) f with
          | None => (inb, Err ErrAuthentication)
          | Some p =>
              if is_rekey f then (inb, Err ErrInvalidEpoch) else
              match seen_check (rtSeen r) sequence with
              | Some e => (inb, Err e)
              | None => (accept_retired sequence r inb, Ok p)
              end
          end
      end
  end.

Definition protocol_receive (clock : Clock) (f : Frame) (P : Party) : Party * outcome (list byte) :=
  let messageType := hdrMessageType (frHeader f) in
  if messageType =? MessageTypeResumptionTicket then (P, Err ErrMessageType) else
  if negb (bool_decide (hdrSessionID (frHeader f) = ptID P)) then (P, Err ErrWrongSession) else
  if negb (validSessionMessageType messageType) then (P, Err ErrMessageType) else
  if ptClosed P then (P, Err ErrSessionClosed) else
  if frame_seq f =? 0 then (P, Err ErrReplayZero) else
  match Frame_ValidateReceive f with
  | Ok _ => let '(inb, o) := protocol_open clock f (ptIn P) in (set_in P inb, o)
  | Err e => (P, Err e)
  | Panic => (P, Panic)
  end.

(** ** Calls and answers *)
Inductive Answer :=
  | AnFrame (o : outcome Frame)
  | AnDone (o : outcome unit)
  | AnPayload (o : outcome (list byte))
  | AnMessage (o : outcome Message).

Definition party_step (op : SessionOp) (P : Party) : Party * Answer :=
  match op with
  | OpSend clock entropy message padLength =>
      match (m ← outboundMessage message; p ← Message_MarshalBinary m.2; Ok (m.1, p)) with
      | Ok (t, p) => let '(P', o) := protocol_send clock entropy t p padLength P in (P', AnFrame o)
      | Err e => (P, AnFrame (Err e))
      | Panic => (P, AnFrame Panic)
      end
  | OpSendPayload clock entropy messageType plaintext padLength =>
      if caller_type messageType
      then let '(P', o) := protocol_send clock entropy messageType plaintext padLength P in (P', AnFrame o)
      else (P, AnFrame (Err ErrMessageType))
  | OpMarkRekeySent clock f => let '(P', o) := protocol_confirm clock f P in (P', AnDone o)
  | OpReceive clock f =>
      let '(P', o) := protocol_receive clock f P in
      (P', AnMessage (p ← o; decode ← newInboundMessage (hdrMessageType (frHeader f)); decode p))
  | OpReceivePayload clock f => let '(P', o) := protocol_receive clock f P in (P', AnPayload o)
  | OpClose => (mkParty (ptID P) true (ptOut P) (ptIn P), AnDone (Ok tt))
  end.

(** The same calls on the session of session.go. *)
Definition session_answer (op : SessionOp) (s : Session) : Session * Answer :=
  match op with
  | OpSend clock entropy message padLength =>
      let '(s', o) := Session_Send clock entropy message padLength s in (s', AnFrame o)
  | OpSendPayload clock entropy messageType plaintext padLength =>
      let '(s', o) := Session_SendPayload clock entropy messageType plaintext padLength s in (s', AnFrame o)
  | OpMarkRekeySent clock f => let '(s', o) := Session_MarkRekeySent clock f s in (s', AnDone o)
  | OpReceive clock f => let '(s', o) := Session_Receive clock f s in (s', AnMessage o)
  | OpReceivePayload clock f => let '(s', o) := Session_ReceivePayload clock f s in (s', AnPayload o)
  | OpClose => let '(s', o) := Session_Close s in (s', AnDone o)
  end.

(** The answers of a machine to a list of calls. *)
Fixpoint answers {S} (step : SessionOp → S → S * Answer) (ops : list SessionOp) (s : S) : S * list Answer :=
  match ops with
  | [] => (s, [])
  | op :: ops =>
      let '(s1, a) := step op s in
      let '(s2, l) := answers step ops s1 in
      (s2, a :: l)
  end.

End protocol.

(** ** The simulation relation *)
Section refinement.
Context {aead : AEAD} {laws : AEADLaws}.

Record out_rel (ss : SendState) (out : Outbound) : Prop := {
  or_key : sSendKey ss = outKey out;
  or_epoch : sSendEpoch ss = outEpoch out;
  or_sent : sSentInEpoch ss = outSent out;
  or_next : sNextSequence ss = if outSent out =? LastSequence then 0 else outSent out + 1;
  or_started : sEpochStarted ss = outStarted out;
  or_limits : sRekeyFrameLimit ss = DefaultRekeyFrameLimit ∧ sRekeyInterval ss = DefaultRekeyInterval;
  or_pending : prFrame <$> sPendingRekey ss = outPending out;
}.

Definition retired_rel (r : ReceiveState) (o : option Retired) : Prop :=
  match rPreviousReceive r, o with
  | None, None => True
  | Some c, Some rt =>
      codec_of (rtKey rt) c ∧ window_rel (rPreviousReplay r) (rtSeen rt) ∧
      rGraceRemaining r = rtLeft rt ∧ rGraceUntil r = rtUntil rt
  | _, _ => False
  end.

Record in_rel (r : ReceiveState) (inb : Inbound) : Prop := {
  ir_key : rReceiveKey r = inKey inb;
  ir_epoch : rReceiveEpoch r = inEpoch inb;
  ir_seen : window_rel (rReplay r) (inSeen inb);
  ir_limits : rGraceFrames r = DefaultRekeyGraceFrames ∧ rGracePeriod r = DefaultRekeyGracePeriod;
  ir_retired : retired_rel r (inRetired inb);
}.

Record corresponds (s : Session) (P : Party) : Prop := {
  co_id : sessSessionID s = ptID P;
  co_closed : sessClosed s = ptClosed P;
  co_out : out_rel (sessSend s) (ptOut P);
  co_in : in_rel (sessReceive s) (ptIn P);
}.

Record implements (s : Session) (P : Party) : Prop := {
  im_send : send_ok s;
  im_receive : receive_ok s;
  im_rel : corresponds s P;
}.

(** The same answer and states that correspond again. *)
Definition agree {A} (x : Session * outcome A) (y : Party * outcome A) : Prop := corresponds x.1 y.1 ∧ x.2 = y.2.

Lemma agree_error {A} s P (o : outcome A) : corresponds s P → agree (s, o) (P, o).
Proof. by split. Qed.

(** ** The cipher *)
Lemma codec_of_cipher key c : codec_of key c → aead_New key = Ok (codecAead c).
Proof.
  intros [Hk Hn]. unfold NewCodec in Hn. rewrite Z.eqb_refl, Hk, Z.eqb_refl in Hn. cbn [negb] in Hn.
  apply bind_Ok in Hn as (a & Ha & Hn). by injection Hn as <-.
Qed.

Lemma seal_with_codec key c t i q p pad : codec_of key c → seal_with key t i q p pad = Ok (seal_frame c t i q p pad).
Proof. intros Hc. unfold seal_with. by rewrite (codec_of_cipher key c Hc). Qed.

Lemma Decrypt_open key c f :
  codec_of key c → Frame_ok f → Frame_ValidateReceive f = Ok tt →
  encrypted_header (hdrMessageType (frHeader f)) (hdrSessionID (frHeader f)) (frame_seq f) →
  Codec_Decrypt c f = match open_with key f with Some p => Ok p | None => Err ErrAuthentication end.
Proof.
  intros Hc Hok Hv Hh. unfold Codec_Decrypt, open_with. fold (frame_seq f). rewrite (codec_of_cipher key c Hc), nonce_Ok.
  rewrite Header_marshalBinary_layout by apply Hok. rewrite Hv, bind_Ok_l.
  rewrite (proj2 (validateEncryptedHeader_Ok _ _ _) Hh), bind_Ok_l.
  apply Frame_ValidateReceive_Ok in Hv as [Hv _]. unfold Header_ValidateReceive. rewrite Hv, !bind_Ok_l. done.
Qed.

Lemma ValidateReceive_error f :
  Frame_ValidateReceive f ≠ Panic ∧ Frame_ValidateReceive f ≠ Err ErrAuthentication.
Proof.
  unfold Frame_ValidateReceive, Header_ValidateReceive, validateLengths.
  assert (validateCommon (frHeader f) ≠ Panic ∧ validateCommon (frHeader f) ≠ Err ErrAuthentication) as [H1 H2].
  { unfold validateCommon. by repeat case_match. }
  destruct (validateCommon _) as [[]|e|]; [|done|done]. rewrite bind_Ok_l. by repeat case_match.
Qed.

Lemma Decrypt_invalid c f e : Frame_ValidateReceive f = Err e → Codec_Decrypt c f = Err e.
Proof. intros Hv. unfold Codec_Decrypt. by rewrite Hv. Qed.

(** ** Sending *)
Definition data_type (messageType : Z) : Prop :=
  MessageTypeEncryptedData ≤ messageType ≤ MessageTypeError ∧ messageType ≠ MessageTypeResumptionTicket.

Lemma Encrypt_emit P c t p n en :
  codec_of (outKey (ptOut P)) c → encrypt_typed t (ptID P) (outSent (ptOut P) + 1) n →
  encrypted_header t (ptID P) (outSent (ptOut P) + 1) → zlen p < 2 ^ 63 → outSent (ptOut P) ≠ LastSequence →
  Codec_Encrypt c t (ptID P) (outSent (ptOut P) + 1) p n en = emit P t p n en.
Proof.
  intros Hc Hty Hh Hp Hlast. unfold emit. rewrite (proj2 (Z.eqb_neq _ _)) by done.
  pose proof Hty as (_ & _ & _ & Hn). pose proof (zlen_nonneg p). unfold uint in Hn.
  destruct (_ <? _) eqn:Hf.
  - unfold Codec_Encrypt. rewrite (proj2 (validateEncryptedHeader_Ok _ _ _) Hh), bind_Ok_l.
    rewrite wrap_small, Hf; [done|]. unfold uint, HeaderSize, AEADTagSize. lia.
  - apply Z.ltb_ge in Hf. destruct (zlen en <? n) eqn:Hen.
    + destruct (NewHeader_fits t (ptID P) (outSent (ptOut P) + 1) p n Hty Hh Hf) as (Hok & Hsz & _).
      unfold Codec_Encrypt. rewrite (proj2 (validateEncryptedHeader_Ok _ _ _) Hh), bind_Ok_l.
      unfold HeaderSize, AEADTagSize, MaxFrameSize in *. rewrite !wrap_small, (proj2 (Z.ltb_ge _ _)) by (unfold uint; lia).
      unfold Header_MarshalBinary. rewrite Header_marshalBinary_layout, NewHeader_Validate, !bind_Ok_l by done.
      unfold randomBytes, io_ReadFull. replace (_ || _) with false by lia. by rewrite Hen.
    + apply Z.ltb_ge in Hen. by rewrite (seal_with_codec _ c), Codec_Encrypt_Ok.
Qed.

Lemma encryptLocked_emit s P t p n en :
  implements s P → payload_typed t p n → data_type t →
  encryptLocked t p n en s =
    match emit P t p n en with Ok f => (with_send advance s, Ok f) | Err e => (s, Err e) | Panic => (s, Panic) end.
Proof.
  intros [Hok _ [Hid _ Ho _]] (Ht8 & Hn & Hp) [Ht H7]. pose proof (or_next _ _ Ho) as Hnext.
  pose proof (so_sent s Hok) as Hsent. rewrite (or_sent _ _ Ho) in Hsent. unfold encryptLocked. sm_run. rewrite Hnext.
  destruct (outSent (ptOut P) =? LastSequence) eqn:Hlast; [unfold emit; by rewrite Hlast|]. apply Z.eqb_neq in Hlast.
  rewrite (proj2 (Z.eqb_neq _ 0)) by (unfold uint in Hsent; lia). sm_run. rewrite Hid.
  destruct (so_id s Hok) as [Hl Hz]. rewrite Hid in Hl, Hz. pose proof (so_codec s Hok) as Hc. rewrite (or_key _ _ Ho) in Hc.
  unfold uint, LastSequence in *.
  rewrite Encrypt_emit; [|done|..|done|done].
  - destruct (emit P t p n en) as [f|e|]; [|done|done]. sm_run. unfold sm_modify, with_send, advance.
    rewrite Hnext.
    destruct (_ =? 2 ^ 64 - 1) eqn:Hm; [done|]. apply Z.eqb_neq in Hm.
    by rewrite (wrap_small 64 (_ + 1 + 1)) by (unfold uint; lia).
  - split_and!; unfold uint; try done; lia.
  - split_and!; try done; lia.
Qed.

Lemma emit_not_last P t p n en f : emit P t p n en = Ok f → outSent (ptOut P) ≠ LastSequence.
Proof. unfold emit. intros He Hl. by rewrite Hl in He. Qed.

Lemma advance_rel s P :
  implements s P → outPending (ptOut P) = None → outSent (ptOut P) ≠ LastSequence →
  corresponds (with_send advance s) (set_out P (sent None (ptOut P))).
Proof.
  intros [Hok _ [Hid Hcl [] Hi]] Hp Hlast. pose proof (so_sent s Hok) as Hsent. rewrite or_sent0 in Hsent.
  apply Z.eqb_neq in Hlast as E. rewrite E in or_next0. unfold uint, LastSequence in *.
  split; [done..| |done]. split; cbn [with_send advance set_out sent sessSend ptOut sSendKey sSendEpoch sNextSequence
    sSentInEpoch sEpochStarted sRekeyFrameLimit sRekeyInterval sPendingRekey outKey outEpoch outSent outStarted
    outPending]; try done.
  - rewrite or_sent0. apply wrap_small. unfold uint. lia.
  - by rewrite or_next0.
  - by rewrite or_pending0.
Qed.

Lemma rekey_due_rel clock ss out : out_rel ss out → rekeyDueLocked clock ss = rekey_due clock out.
Proof.
  intros [_ _ Hs _ Hst [Hl Hi] _]. unfold rekeyDueLocked, rekey_due. rewrite Hl, Hi, Hs, Hst.
  change (DefaultRekeyFrameLimit) with RekeyAfterFrames. change DefaultRekeyInterval with RekeyAfterTime.
  cbn [negb Z.eqb RekeyAfterFrames andb]. f_equal. change (0 <? RekeyAfterTime) with true. cbn [andb].
  rewrite <- Z.leb_antisym. apply eq_true_iff_eq. rewrite !Z.leb_le. lia.
Qed.

Lemma zlen_expected_init key epoch : zlen (RekeyInit_layout (expected_init key epoch)) = RekeyInitSize.
Proof.
  unfold expected_init, RekeyInit_layout. cbn [riEpoch riKeyConfirm]. by rewrite zlen_app, zlen_le_put, zlen_key_confirm.
Qed.

Lemma startRekeyLocked_agree clock en t p n s P :
  implements s P → uint 8 n → ptClosed P = false → outPending (ptOut P) = None → rekey_due clock (ptOut P) = true →
  agree (startRekeyLocked n en s) (protocol_send clock en t p n P).
Proof.
  intros Him Hn Hcl Hp Hdue. pose proof Him as [Hok _ Hco]. pose proof (co_out _ _ Hco) as Ho.
  unfold protocol_send. rewrite Hcl, Hp, Hdue. unfold startRekeyLocked. sm_run. cbv zeta.
  pose proof (so_epoch s Hok) as Hep. rewrite (or_epoch _ _ Ho) in *. change (2 ^ 32 - 1) with LastEpoch.
  destruct (_ =? LastEpoch) eqn:Hmax; [by apply agree_error|]. apply Z.eqb_neq in Hmax. unfold LastEpoch in Hmax.
  rewrite (wrap_small 32) by (unfold uint; lia). rewrite ComputeKeyConfirm_Ok by lia. sm_run.
  rewrite RekeyInit_marshal by (split; [unfold uint; cbn; lia|apply zlen_key_confirm]).
  cbn [riEpoch]. rewrite (proj2 (Z.eqb_neq _ 0)) by lia. sm_run. rewrite (or_key _ _ Ho).
  change (mkRekeyInit (outEpoch (ptOut P) + 1) (key_confirm (outKey (ptOut P)) (outEpoch (ptOut P) + 1)))
    with (expected_init (outKey (ptOut P)) (outEpoch (ptOut P))).
  rewrite sm_bind_run, (encryptLocked_emit s P) by (done || (split; [done|]; split; [done|]; by rewrite zlen_expected_init)).
  destruct (emit P _ _ n en) as [f|e|] eqn:He; [|by apply agree_error|by apply agree_error].
  pose proof (advance_rel s P Him Hp (emit_not_last _ _ _ _ _ _ He)) as Hadv.
  destruct (so_codec s Hok) as [Hk _]. rewrite (or_key _ _ Ho) in Hk.
  rewrite deriveNextTrafficKey_Ok by done. sm_run. rewrite (so_suite s Hok).
  destruct (codec_of_next (outKey (ptOut P))) as [c [_ Hc]]. rewrite Hc. sm_run.
  destruct Hadv as [? ? [] ?]. split; [|done]. split; [done..| |done]. split; try done. by destruct f.
Qed.

Lemma sendPayload_agree clock en t p n s P :
  implements s P → payload_typed t p n → data_type t →
  agree (sendPayload clock en t p n s) (protocol_send clock en t p n P).
Proof.
  intros Him Hty Ht. pose proof Him as [Hok _ Hco]. pose proof (co_out _ _ Hco) as Ho.
  unfold sendPayload. assert (validSessionMessageType t = true) as ->.
  { destruct Ht as [[]]. unfold validSessionMessageType. by rewrite !(proj2 (Z.leb_le _ _)). }
  cbn [negb]. sm_run. rewrite (co_closed _ _ Hco).
  destruct (ptClosed P) eqn:Hcl; [unfold protocol_send; rewrite Hcl; by apply agree_error|].
  pose proof (or_pending _ _ Ho) as Hp. destruct (sPendingRekey (sessSend s)) as [q|]; cbn in Hp.
  { unfold protocol_send. rewrite Hcl, <- Hp. by apply agree_error. }
  rewrite (rekey_due_rel clock _ _ Ho). destruct (rekey_due clock (ptOut P)) eqn:Hdue.
  { apply startRekeyLocked_agree; try done. apply Hty. }
  unfold protocol_send. rewrite Hcl, <- Hp, Hdue, (encryptLocked_emit s P) by done.
  destruct (emit P t p n en) as [f|e|] eqn:He; [|by apply agree_error|by apply agree_error].
  split; [|done]. apply advance_rel; [done..|]. by eapply emit_not_last.
Qed.

Lemma MarkRekeySent_agree clock f s P :
  implements s P → agree (Session_MarkRekeySent clock f s) (protocol_confirm clock f P).
Proof.
  intros [Hok _ Hco]. pose proof (co_out _ _ Hco) as Ho. unfold Session_MarkRekeySent, protocol_confirm. sm_run.
  rewrite (co_closed _ _ Hco). destruct (ptClosed P); [by apply agree_error|]. rewrite <- (or_pending _ _ Ho).
  destruct (sPendingRekey (sessSend s)) as [p|] eqn:Hp; cbn [fmap option_fmap option_map];
    [|rewrite bool_decide_eq_false_2 by done; by apply agree_error].
  rewrite sameRekeyFrame_eq. case_bool_decide as Hf; cbn [negb].
  2:{ rewrite bool_decide_eq_false_2 by congruence. by apply agree_error. }
  rewrite bool_decide_eq_true_2 by congruence. destruct (so_pending s Hok p Hp) as [Hk _ He _ _].
  destruct Hco as [? ? [] ?]. split; [|done]. split; [done..| |done].
  split; cbn; rewrite ?Hk, ?He; (done || congruence).
Qed.

(** ** Receiving *)
Lemma check_commit_rel w a q :
  window_rel w a → uint 64 q →
  match seen_check a q with
  | Some e => ReplayWindow_Check w q = Err e
  | None => ReplayWindow_Check w q = Ok (mkReplayToken q (rwGeneration w)) ∧
      ∃ w', commitReplay w (mkReplayToken q (rwGeneration w)) = Ok w' ∧ window_rel w' (seen_accept a q)
  end.
Proof.
  intros Hw Hq. rewrite (Check_spec w a) by done. destruct (seen_check a q) eqn:Hc; [done|]. split; [done|].
  destruct (Commit_accept w a q Hw Hq Hc) as (w' & Hcm & Hw' & _). exists w'. unfold commitReplay. by rewrite Hcm.
Qed.

(** [expireGrace] keeps a retired key exactly as the protocol does. *)
Lemma expireGrace_rel clock r inb :
  in_rel r inb → 0 ≤ rGraceRemaining r →
  in_rel (expireGrace clock r) (mkInbound (inKey inb) (inEpoch inb) (inSeen inb) (rt ← inRetired inb; keep clock rt)).
Proof.
  intros [Hk He Hs [Hgf Hgp] Hr] Hg. destruct (expireGrace_fields clock r) as (_ & E2 & E3 & E4 & E5 & E6).
  split; cbn [inKey inEpoch inSeen inRetired]; rewrite ?E2, ?E3, ?E4, ?E5, ?E6; try done.
  unfold retired_rel in *. unfold expireGrace. destruct (rPreviousReceive r) as [c|] eqn:Hp, (inRetired inb) as [rt|]; try done.
  2:{ by rewrite Hp. }
  destruct Hr as (Hc & Hw & Hl & Hu). cbn [mbind option_bind]. unfold keep. rewrite Hl, Hu, Hgp.
  change (DefaultRekeyGracePeriod <=? 0) with false. rewrite orb_false_r, <- Z.leb_antisym.
  destruct (_ || _); [done|]. by rewrite Hp.
Qed.

Lemma prepareRekeyLocked_rel s P p init :
  implements s P → RekeyInit_UnmarshalBinary p = Ok init →
  match check_rekey p (ptIn P) with
  | Ok _ => riEpoch init = inEpoch (ptIn P) + 1 ∧ ∃ c, codec_of (next_key (inKey (ptIn P))) c ∧
      prepareRekeyLocked init s = (s, Ok (next_key (inKey (ptIn P)), c))
  | Err e => prepareRekeyLocked init s = (s, Err e)
  | Panic => False
  end.
Proof.
  intros [_ Hok Hco] Hu. pose proof (co_in _ _ Hco) as Hi. unfold check_rekey, prepareRekeyLocked. rewrite Hu, bind_Ok_l. sm_run.
  pose proof (ro_epoch s Hok) as Hep. rewrite (ir_epoch _ _ Hi), (ir_key _ _ Hi) in *. change (2 ^ 32 - 1) with LastEpoch.
  destruct (_ =? LastEpoch) eqn:Hmax; [done|]. apply Z.eqb_neq in Hmax. unfold LastEpoch in Hmax.
  rewrite wrap_small by (unfold uint; lia). destruct (riEpoch init =? _) eqn:He; cbn [negb]; [|done].
  apply Z.eqb_eq in He. rewrite He, ComputeKeyConfirm_Ok by lia. sm_run. unfold hmac.Equal.
  destruct (bool_decide (riKeyConfirm init = _)) eqn:Hc.
  - apply bool_decide_eq_true in Hc. rewrite Hc, bool_decide_eq_true_2 by done. cbn [negb]. split; [done|].
    destruct (codec_of_next (inKey (ptIn P))) as [c Hcd]. exists c. split; [done|].
    destruct (ro_codec s Hok) as [Hk _]. rewrite (ir_key _ _ Hi) in Hk. rewrite deriveNextTrafficKey_Ok by done. sm_run.
    rewrite (ro_suite s Hok). destruct Hcd as [_ ->]. done.
  - apply bool_decide_eq_false in Hc. rewrite bool_decide_eq_false_2 by congruence. done.
Qed.

Lemma start_epoch_rel clock c w q r inb :
  in_rel r inb → codec_of (inKey inb) (rReceive r) → window_rel w (seen_accept (inSeen inb) q) →
  in_rel (expireGrace clock (start_epoch clock (next_key (inKey inb)) c w r)) (accept_rekey clock q inb).
Proof.
  intros [Hk He Hs [Hgf Hgp] Hr] Hc Hw.
  refine (expireGrace_rel clock (start_epoch clock (next_key (inKey inb)) c w r)
    (mkInbound (next_key (inKey inb)) (inEpoch inb + 1) seen_empty
      (Some (mkRetired (inKey inb) (seen_accept (inSeen inb) q) GraceFrames (clock ClockGraceStart + GraceTime)))) _ _).
  - split; cbn; rewrite ?He; try done; [apply window_rel_zero|]. unfold retired_rel. cbn. by rewrite Hgf, Hgp.
  - cbn. by rewrite Hgf.
Qed.

Lemma after_current_rel clock w q r inb :
  in_rel r inb → (rPreviousReceive r ≠ None → 0 < rGraceRemaining r) → window_rel w (seen_accept (inSeen inb) q) →
  in_rel (after_current clock w r) (accept_data clock q inb).
Proof.
  intros [Hk He Hs Hg Hr] Hpos Hw. unfold after_current, accept_data. unfold retired_rel in Hr.
  destruct (rPreviousReceive r) as [c|] eqn:Hp, (inRetired inb) as [rt|] eqn:Hrt; try done.
  2:{ split; try done. unfold retired_rel. cbn. by rewrite Hp. }
  specialize (Hpos ltac:(done)). destruct Hr as (Hc & Hpw & Hl & Hu).
  refine (expireGrace_rel clock (spend_grace (set_replay w r))
    (mkInbound (inKey inb) (inEpoch inb) (seen_accept (inSeen inb) q) (Some (spend rt))) _ _).
  - split; try done. unfold retired_rel. cbn. rewrite Hp, (proj2 (Z.ltb_lt _ _)) by done. by rewrite Hl.
  - cbn. rewrite (proj2 (Z.ltb_lt _ _)) by done. lia.
Qed.

Lemma admissible_header s f :
  send_ok s → admissible s f →
  encrypted_header (hdrMessageType (frHeader f)) (hdrSessionID (frHeader f)) (frame_seq f).
Proof.
  intros Hok (H7 & Hid & [H3%Z.leb_le H9%Z.leb_le]%andb_true_iff & _ & Hs). destruct (so_id s Hok) as [_ Hz].
  split_and!; try done. by rewrite Hid.
Qed.

(** The guards the frame has passed, and both sides of opening it with the current key. *)
Definition open_party (clock : Clock) (f : Frame) (P : Party) : Party * outcome (list byte) :=
  let '(inb, o) := protocol_open clock f (ptIn P) in (set_in P inb, o).

Lemma set_in_same P : set_in P (ptIn P) = P.
Proof. by destruct P. Qed.

Lemma in_corresponds s P r inb :
  corresponds s P → in_rel r inb → corresponds (with_receive (λ _, r) s) (set_in P inb).
Proof. by intros [] ?; split. Qed.

Lemma ReceivePayload_current_agree clock f s P p :
  implements s P → Frame_ok f → admissible s f →
  Codec_Decrypt (rReceive (sessReceive s)) f = Ok p → open_with (inKey (ptIn P)) f = Some p →
  agree (Session_ReceivePayload clock f s) (open_party clock f P).
Proof.
  intros Him [Hf _] (H7 & Hid & Hv & Hcl & Hs0) Hd Ho. pose proof Him as [_ Hok Hco]. pose proof (co_in _ _ Hco) as Hi.
  assert (uint 64 (frame_seq f)) as Hseq by apply Hf. unfold Session_ReceivePayload, open_party, protocol_open. cbv zeta.
  rewrite (proj2 (Z.eqb_neq _ _)) by done. sm_run. rewrite bool_decide_eq_true_2, Hv, Hcl, Ho by done. cbn [negb].
  rewrite sm_bind_run. unfold decryptEpochLocked. cbv zeta. fold (frame_seq f).
  rewrite (proj2 (Z.eqb_neq _ _)) by done. sm_run. rewrite Hd.
  pose proof (check_commit_rel _ _ (frame_seq f) (ir_seen _ _ Hi) Hseq) as Hck.
  destruct (seen_check (inSeen (ptIn P)) (frame_seq f)) as [e|]; [rewrite Hck; rewrite set_in_same; by apply agree_error|].
  destruct Hck as (-> & w & Hcm & Hw). sm_run. change (sm_ret ?c s) with (s, Ok c). cbv beta iota.
  cbn [rcCurrent rcPlaintext rcToken negb andb]. fold (is_rekey f). destruct (is_rekey f).
  - destruct (RekeyInit_unmarshal_inv p) as [Hnp _]. pose proof (prepareRekeyLocked_rel s P p) as Hpr.
    destruct (RekeyInit_UnmarshalBinary p) as [init|e|] eqn:Hu; sm_run; [| |done].
    2:{ unfold check_rekey. rewrite Hu. cbn. rewrite set_in_same. by apply agree_error. }
    specialize (Hpr init Him eq_refl). rewrite sm_bind_run. destruct (check_rekey p (ptIn P)) as [[]|e|]; [| |done].
    2:{ rewrite Hpr, set_in_same. by apply agree_error. }
    destruct Hpr as (He & c & Hc & ->). cbv iota. rewrite Hcm. unfold expireGraceLocked. sm_run.
    rewrite He, <- (ir_epoch _ _ Hi). split; [|done]. refine (in_corresponds s P _ _ Hco (start_epoch_rel clock c w _ _ _ Hi _ Hw)).
    rewrite <- (ir_key _ _ Hi). apply Hok.
  - rewrite Hcm. unfold expireGraceLocked. sm_run.
    assert (in_rel (after_current clock w (sessReceive s)) (accept_data clock (frame_seq f) (ptIn P))) as Hrel.
    { apply after_current_rel; [done| |done]. intros Hne. destruct (rPreviousReceive (sessReceive s)) as [c|] eqn:Hp; [|done].
      by destruct (ro_previous s Hok c Hp) as (_ & ? & _). }
    unfold after_current in Hrel. destruct (rPreviousReceive (sessReceive s)); sm_run; (split; [|done]);
      exact (in_corresponds s P _ _ Hco Hrel).
Qed.

Lemma ReceivePayload_retired_agree clock f s P :
  implements s P → Frame_ok f → admissible s f → Frame_ValidateReceive f = Ok tt →
  Codec_Decrypt (rReceive (sessReceive s)) f = Err ErrAuthentication → open_with (inKey (ptIn P)) f = None →
  agree (Session_ReceivePayload clock f s) (open_party clock f P).
Proof.
  intros Him Hfok Hadm Hval Hd Ho. pose proof Hadm as (H7 & Hid & Hv & Hcl & Hs0). pose proof Him as [Hsok Hok Hco].
  pose proof (co_in _ _ Hco) as Hi.
  assert (uint 64 (frame_seq f)) as Hseq by apply Hfok. unfold Session_ReceivePayload, open_party, protocol_open. cbv zeta.
  rewrite (proj2 (Z.eqb_neq _ _)) by done. sm_run. rewrite bool_decide_eq_true_2, Hv, Hcl, Ho by done. cbn [negb].
  rewrite sm_bind_run. unfold decryptEpochLocked. cbv zeta. fold (frame_seq f).
  rewrite (proj2 (Z.eqb_neq _ _)) by done. sm_run. rewrite Hd, bool_decide_eq_true_2 by done. cbn [negb].
  pose proof (ir_retired _ _ Hi) as Hr. unfold retired_rel in Hr. unfold in_grace.
  destruct (rPreviousReceive (sessReceive s)) as [c|] eqn:Hp, (inRetired (ptIn P)) as [rt|] eqn:Hrt; try done.
  2:{ rewrite set_in_same. by apply agree_error. }
  destruct Hr as (Hc & Hpw & Hl & Hu). destruct (ro_previous s Hok c Hp) as (_ & Hpos & _).
  rewrite (proj2 (Z.ltb_lt 0 (rGraceRemaining _))), (proj2 (ir_limits _ _ Hi)), Hu by done.
  change (0 <? DefaultRekeyGracePeriod) with true. cbn [andb].
  destruct (_ <? rtUntil rt); [|rewrite set_in_same; by apply agree_error].
  rewrite (Decrypt_open (rtKey rt) c f) by (done || by apply (admissible_header s)).
  destruct (open_with (rtKey rt) f) as [p|]; [|rewrite set_in_same; by apply agree_error].
  fold (is_rekey f). destruct (is_rekey f); [rewrite set_in_same; by apply agree_error|].
  pose proof (check_commit_rel _ _ (frame_seq f) Hpw Hseq) as Hck.
  destruct (seen_check (rtSeen rt) (frame_seq f)) as [e|]; [rewrite Hck, set_in_same; by apply agree_error|].
  destruct Hck as (-> & w & Hcm & Hw). sm_run. unfold sm_ret at 1. cbn [rcCurrent rcPlaintext rcToken negb andb].
  rewrite Hcm. sm_run. split; [|done]. refine (in_corresponds s P (set_previous_replay w (sessReceive s)) _ Hco _). destruct Hi as [? ? ? ? _]. split; try done.
  unfold retired_rel. cbn. by rewrite Hp.
Qed.

Lemma ReceivePayload_guards clock f s P :
  corresponds s P → agree (Session_ReceivePayload clock f s) (protocol_receive clock f P) ∨ admissible s f.
Proof.
  intros Hco. unfold Session_ReceivePayload, protocol_receive, admissible. cbv zeta.
  destruct (_ =? MessageTypeResumptionTicket) eqn:H7; [by left; apply agree_error|]. apply Z.eqb_neq in H7.
  sm_run. rewrite <- (co_id _ _ Hco), <- (co_closed _ _ Hco). case_bool_decide as Hid; cbn [negb]; [|by left; apply agree_error].
  destruct (validSessionMessageType _); cbn [negb]; [|by left; apply agree_error].
  destruct (sessClosed s); [by left; apply agree_error|].
  rewrite sm_bind_run. unfold decryptEpochLocked. cbv zeta. fold (frame_seq f).
  destruct (frame_seq f =? 0) eqn:Hs0; [by left; apply agree_error|]. apply Z.eqb_neq in Hs0. by right.
Qed.

Lemma protocol_receive_admissible clock f s P :
  corresponds s P → admissible s f →
  protocol_receive clock f P =
    match Frame_ValidateReceive f with Ok _ => open_party clock f P | Err e => (P, Err e) | Panic => (P, Panic) end.
Proof.
  intros Hco (H7 & Hid & Hv & Hcl & Hs0). unfold protocol_receive. cbv zeta. rewrite (co_id _ _ Hco) in Hid.
  rewrite (proj2 (Z.eqb_neq _ _)), Hv, <- (co_closed _ _ Hco), Hcl, bool_decide_eq_true_2 by done. cbn [negb].
  by rewrite (proj2 (Z.eqb_neq _ _)).
Qed.

Lemma ReceivePayload_invalid clock f s e :
  admissible s f → Frame_ValidateReceive f = Err e → Session_ReceivePayload clock f s = (s, Err e).
Proof.
  intros (H7 & Hid & Hv & Hcl & Hs0) He. destruct (ValidateReceive_error f) as [_ Hna]. unfold Session_ReceivePayload. cbv zeta.
  rewrite (proj2 (Z.eqb_neq _ _)) by done. sm_run. rewrite bool_decide_eq_true_2, Hv, Hcl by done. cbn [negb].
  rewrite sm_bind_run. unfold decryptEpochLocked. cbv zeta. fold (frame_seq f). rewrite (proj2 (Z.eqb_neq _ _)) by done. sm_run.
  rewrite (Decrypt_invalid _ _ e He), bool_decide_eq_false_2 by congruence. done.
Qed.

Lemma ReceivePayload_agree clock f s P :
  implements s P → Frame_ok f → agree (Session_ReceivePayload clock f s) (protocol_receive clock f P).
Proof.
  intros Him Hf. pose proof Him as [Hsok Hok Hco].
  destruct (ReceivePayload_guards clock f s P Hco) as [|Hadm]; [done|]. rewrite (protocol_receive_admissible clock f s) by done.
  destruct (ValidateReceive_error f) as [Hnp _]. destruct (Frame_ValidateReceive f) as [[]|e|] eqn:Hv; [| |done].
  - pose proof (ro_codec s Hok) as Hc. rewrite (ir_key _ _ (co_in _ _ Hco)) in Hc.
    pose proof (Decrypt_open _ _ f Hc Hf Hv (admissible_header s f Hsok Hadm)) as Hd.
    destruct (open_with (inKey (ptIn P)) f) as [p|] eqn:Ho;
      [by apply (ReceivePayload_current_agree clock f s P p)|by apply ReceivePayload_retired_agree].
  - rewrite (ReceivePayload_invalid clock f s e) by done. by apply agree_error.
Qed.

(** ** Every call *)
Lemma Send_agree clock en m n s P :
  implements s P → AnyMessage_typed m → uint 8 n →
  corresponds (session_answer (OpSend clock en m n) s).1 (party_step (OpSend clock en m n) P).1 ∧
  (session_answer (OpSend clock en m n) s).2 = (party_step (OpSend clock en m n) P).2.
Proof.
  intros Him Hm Hn. pose proof (im_rel _ _ Him) as Hco. cbn [session_answer party_step]. unfold Session_Send.
  destruct (outboundMessage m) as [[t m']|e|] eqn:Hout; sm_run; [rewrite bind_Ok_l|done|done]. cbn [fst snd].
  destruct (Message_MarshalBinary m') as [p|e|] eqn:Hp; sm_run; [rewrite bind_Ok_l|done|done].
  destruct (outboundMessage_typed m t m' p n Hm Hn Hout Hp) as [Hty _].
  assert (data_type t) as Ht by (by destruct m as [[]|[]| |]; try done; injection Hout as <- _).
  destruct (sendPayload_agree clock en t p n s P Him Hty Ht) as [H1 H2].
  destruct (sendPayload _ _ _ _ _ s), (protocol_send _ _ _ _ _ P). cbn in *. by subst.
Qed.

Lemma SendPayload_agree clock en t p n s P :
  implements s P → payload_typed t p n →
  corresponds (session_answer (OpSendPayload clock en t p n) s).1 (party_step (OpSendPayload clock en t p n) P).1 ∧
  (session_answer (OpSendPayload clock en t p n) s).2 = (party_step (OpSendPayload clock en t p n) P).2.
Proof.
  intros Him Hty. pose proof (im_rel _ _ Him) as Hco. cbn [session_answer party_step]. unfold Session_SendPayload, caller_type.
  destruct (t =? MessageTypeResumptionTicket) eqn:H7; [by rewrite andb_false_r|].
  destruct (t =? MessageTypeRekeyInit); [by rewrite andb_false_r|]. rewrite !andb_true_r.
  destruct (validSessionMessageType t) eqn:Hv; [|unfold sendPayload; by rewrite Hv].
  assert (data_type t) as Ht.
  { apply andb_true_iff in Hv as [?%Z.leb_le ?%Z.leb_le]. apply Z.eqb_neq in H7. done. }
  destruct (sendPayload_agree clock en t p n s P Him Hty Ht) as [H1 H2].
  destruct (sendPayload _ _ _ _ _ s), (protocol_send _ _ _ _ _ P). cbn in *. by subst.
Qed.

Lemma Receive_agree clock f s P :
  implements s P → Frame_ok f →
  corresponds (session_answer (OpReceive clock f) s).1 (party_step (OpReceive clock f) P).1 ∧
  (session_answer (OpReceive clock f) s).2 = (party_step (OpReceive clock f) P).2.
Proof.
  intros Him Hf. cbn [session_answer party_step]. unfold Session_Receive. rewrite sm_bind_run.
  destruct (ReceivePayload_agree clock f s P Him Hf) as [H1 H2].
  destruct (Session_ReceivePayload clock f s) as [s' o], (protocol_receive clock f P) as [P' o']. cbn in *. subst o'.
  destruct o as [p|e|]; [|done|done]. rewrite bind_Ok_l.
  destruct (newInboundMessage _) as [u|e|]; sm_run; [rewrite bind_Ok_l|done|done]. done.
Qed.

Lemma session_answer_agree op s P :
  implements s P → op_typed op →
  corresponds (session_answer op s).1 (party_step op P).1 ∧ (session_answer op s).2 = (party_step op P).2.
Proof.
  intros Him Hty. destruct op as [c en m n|c en t p n|c f|c f|c f|]; cbn [op_typed] in Hty.
  - destruct Hty. by apply Send_agree.
  - by apply SendPayload_agree.
  - cbn [session_answer party_step]. destruct (MarkRekeySent_agree c f s P Him) as [H1 H2].
    destruct (Session_MarkRekeySent c f s), (protocol_confirm c f P). cbn in *. by subst.
  - by apply Receive_agree.
  - cbn [session_answer party_step]. destruct (ReceivePayload_agree c f s P Him Hty) as [H1 H2].
    destruct (Session_ReceivePayload c f s), (protocol_receive c f P). cbn in *. by subst.
  - by destruct Him as [_ _ []].
Qed.

Lemma session_answer_step op s : (session_answer op s).1 = (session_step op s).1.
Proof. destruct op; cbn [session_answer session_step]; by destruct (_ : Session * outcome _). Qed.

Lemma implements_step op s P :
  implements s P → op_typed op →
  implements (session_answer op s).1 (party_step op P).1 ∧ (session_answer op s).2 = (party_step op P).2.
Proof.
  intros Him Hty. destruct (session_answer_agree op s P Him Hty) as [Hco Ha]. split; [|done]. destruct Him as [Hs Hr _].
  split; [..|done]; rewrite session_answer_step.
  - exact (send_effect_ok _ _ _ _ Hs (session_step_send op s Hs Hty)).
  - exact (receive_effect_ok _ _ _ Hr (session_step_receive op s Hr Hty)).
Qed.

Lemma implements_answers ops : ∀ s P,
  implements s P → Forall op_typed ops →
  implements (answers session_answer ops s).1 (answers party_step ops P).1 ∧
  (answers session_answer ops s).2 = (answers party_step ops P).2.
Proof.
  induction ops as [|op ops IH]; intros s P Him Hall; cbn [answers]; [done|].
  apply Forall_cons in Hall as [Hop Hall]. destruct (implements_step op s P Him Hop) as [Him' Ha].
  destruct (session_answer op s) as [s1 a], (party_step op P) as [P1 a']. cbn [fst snd] in *. subst a'.
  destruct (IH s1 P1 Him' Hall) as [H1 H2]. destruct (answers session_answer ops s1), (answers party_step ops P1). cbn in *. by subst.
Qed.

Lemma NewSession_implements suite secrets now s :
  zlen (hsSessionID secrets) = 16 → NewSession suite secrets now = Ok s → implements s (new_party secrets now).
Proof.
  intros Hid Hn. split.
  - exact (si_ok _ _ _ (NewSession_send_inv suite secrets now s Hid Hn)).
  - exact (ri_ok _ _ (NewSession_receive_inv suite secrets now s Hid Hn)).
  - apply NewSession_inv in Hn as (-> & Hsu & Hsid & Hnz & Hcl & cs & cr & Hcs & Hcr & Hs & Hr); [|done].
    split; rewrite ?Hsid, ?Hcl, ?Hs, ?Hr; try done; split; try done. apply window_rel_zero.
Qed.

End refinement.

(** ** Properties *)

(** C3: A session made by NewSession refines the protocol of the documents: any sequence of
    calls with well-typed arguments, frames from any source included, gets call by call exactly
    the protocol's answers, and its codecs, windows and counters represent the protocol's state.
    *)
Theorem session_refines_protocol {aead : AEAD} {laws : AEADLaws} suite secrets now s ops :
  zlen (hsSessionID secrets) = 16 → NewSession suite secrets now = Ok s → Forall op_typed ops →
  (answers session_answer ops s).2 = (answers party_step ops (new_party secrets now)).2 ∧
  implements (answers session_answer ops s).1 (answers party_step ops (new_party secrets now)).1.
Proof.
  intros Hid Hn Hall.
  destruct (implements_answers ops s _ (NewSession_implements suite secrets now s Hid Hn) Hall). done.
Qed.

(** ** Witnesses *)

(** Deliveries of both epochs, a replay, a frame of another session, a RekeyInit under the
    retired key, and calls after Close. *)
Definition ex_calls : list SessionOp :=
  ex_receive_ops ++
  [OpReceivePayload (at_time 8) (ex_frame_at 2); OpReceivePayload (at_time 8) zero_frame;
   OpSendPayload (at_time 9) [] MessageTypePingPong [x01] 0; OpSendPayload (at_time 9) [] MessageTypeRekeyInit [] 0;
   OpMarkRekeySent (at_time 9) zero_frame; OpClose; OpReceive (at_time 9) (ex_frame_at 3)].

Definition answer_error (a : Answer) : option error :=
  match a with
  | AnFrame (Err e) | AnDone (Err e) | AnPayload (Err e) | AnMessage (Err e) => Some e
  | _ => None
  end.

Example ex_protocol_errors :
  answer_error <$> (answers (@party_step mac_aead) ex_calls (new_party ex_secrets 0)).2 =
  [None; Some ErrReplayDuplicate; None; None; None; Some ErrInvalidEpoch; Some ErrWrongSession; None;
   Some ErrMessageType; Some ErrRekeyPending; None; Some ErrSessionClosed].
Proof. vm_compute. reflexivity. Qed.

Lemma zero_frame_ok : Frame_ok zero_frame.
Proof. decide_closed. Qed.

Lemma ex_calls_typed : Forall op_typed ex_calls.
Proof.
  apply Forall_app. split; [apply ex_receive_typed|].
  repeat (apply Forall_cons; split); try apply Forall_nil_2;
    [apply (ex_frame_ok 2); lia|exact zero_frame_ok|done|done|exact zero_frame_ok|done|apply (ex_frame_ok 3); lia].
Qed.

Lemma session_refines_protocol_witness :
  (answers session_answer ex_calls mac_session).2 = (answers (@party_step mac_aead) ex_calls (new_party ex_secrets 0)).2.
Proof.
  exact (proj1 (@session_refines_protocol mac_aead mac_aead_laws CipherChaCha20Poly1305 ex_secrets 0 mac_session
    ex_calls eq_refl mac_session_new ex_calls_typed)).
Defined.
