(* ===== verification/SessionPair.v ===== *)
(** * Two sessions over an ordered channel

    One direction between two peers: the sending half of [A] and the receiving
    half of [B].  [pair_step] is the protocol the documentation of Send asks of a
    caller: transmit the returned frame, and when it is a RekeyInit confirm it
    with MarkRekeySent before anything else.  The theorem shows that over an
    ordered channel every frame is accepted and every message arrives unchanged,
    through any number of key changes and whatever the two clocks read, and what
    each step does to the two sessions ([pair_effect]): a refused Send nothing. *)

From S2P Require Import Prelude Wire Header Frame Tlv Utf8 Messages Replay Sha256 Crypto Rekey Session.
From S2P Require Import SessionSend SessionReceive.
Import wire.

Local Open Scope Z_scope.
Local Open Scope sm_scope.
Local Opaque header_layout next_key key_confirm.

Record PairSend := mkPairSend {
  psSendClock : Clock; psReceiveClock : Clock; psEntropy : list byte; psMessage : AnyMessage; psPadLength : Z;
}.

Inductive PairEvent :=
  | PairDelivered (m : Message)
  | PairRekeyed
  | PairRefused (e : error)
  | PairBroken.

Section pair.
Context {aead : AEAD} {laws : AEADLaws}.

Definition pair_step (x : PairSend) (A B : Session) : Session * Session * PairEvent :=
  match Session_Send (psSendClock x) (psEntropy x) (psMessage x) (psPadLength x) A with
  | (A1, Ok f) =>
      let '(B1, received) := Session_Receive (psReceiveClock x) f B in
      if is_rekey f then
        let '(A2, marked) := Session_MarkRekeySent (psSendClock x) f A1 in
        (A2, B1, match received, marked with Ok (MsgRekeyInit _), Ok _ => PairRekeyed | _, _ => PairBroken end)
      else (A1, B1, match received with Ok m => PairDelivered m | _ => PairBroken end)
  | (A1, Err e) => (A1, B, PairRefused e)
  | (A1, Panic) => (A1, B, PairBroken)
  end.

Fixpoint pair_run (xs : list PairSend) (A B : Session) : Session * Session * list PairEvent :=
  match xs with
  | [] => (A, B, [])
  | x :: xs =>
      let '(A1, B1, ev) := pair_step x A B in
      let '(A2, B2, evs) := pair_run xs A1 B1 in
      (A2, B2, ev :: evs)
  end.

Record in_sync (A B : Session) : Prop := {
  sync_send : send_ok A;
  sync_receive : receive_ok B;
  sync_id : sessSessionID B = sessSessionID A;
  sync_open : sessClosed B = false;
  sync_idle : sPendingRekey (sessSend A) = None;
  sync_codec : rReceive (sessReceive B) = sSend (sessSend A);
  sync_key : rReceiveKey (sessReceive B) = sSendKey (sessSend A);
  sync_epoch : rReceiveEpoch (sessReceive B) = sSendEpoch (sessSend A);
  sync_window : ∃ a, window_rel (rReplay (sessReceive B)) a ∧
    (sNextSequence (sessSend A) = 0 ∨ seenTop a < sNextSequence (sessSend A));
}.

(** ** One message *)
Lemma inbound_outbound message t m p :
  AnyMessage_typed message → outboundMessage message = Ok (t, m) → Message_MarshalBinary m = Ok p →
  ∃ u, newInboundMessage t = Ok u ∧ u p = Ok m.
Proof.
  intros Hty Hout Hm.
  destruct message as [m'|m'| |]; [| |done..]; cbn in Hty, Hout; destruct m' as [d|d|d|d|d|d]; try done;
    injection Hout as <- <-; (eexists; split; [reflexivity|]);
    pose proof (marshal_unmarshal d p Hty Hm) as Hu; cbn in Hu; cbn beta; by rewrite Hu.
Qed.

(** A frame the sender emits opens at a synchronised receiver. *)
Lemma sync_frame A B f A' :
  in_sync A B → emits A f A' →
  Frame_ok f ∧ admissible B f ∧
  (∃ a, window_rel (rReplay (sessReceive B)) a ∧ seen_check a (frame_seq f) = None ∧
        seenTop a < sNextSequence (sessSend A)) ∧
  ∃ p, Codec_Decrypt (rReceive (sessReceive B)) f = Ok p ∧
       f = sealed_next A (hdrMessageType (frHeader f)) p (frPadding f) ∧
       (is_rekey f = true → p = rekey_payload (sessSend A)).
Proof.
  intros Hs He. destruct (sync_window A B Hs) as (a & Ha & Hn). destruct (emits_frame A f A' He) as (Hseq & Hid & Hn0 & _).
  pose proof (so_next A (sync_send A B Hs)) as Hu.
  destruct (emits_shape A f A' (sync_send A B Hs) He) as (t & p & pad & Hh & Hf & Hty & -> & Hrk).
  pose proof Hh as (Ht & H7 & _ & _).
  destruct (seal_frame_ok (sSend (sessSend A)) t _ _ p pad Hty Hh Hf) as [Hok _].
  split; [exact Hok|]. split.
  { split; [done|]. split; [by rewrite (sync_id A B Hs)|]. split; [|split; [apply (sync_open A B Hs)|done]].
    unfold validSessionMessageType. cbn. by rewrite !(proj2 (Z.leb_le _ _)) by lia. }
  split.
  { destruct Hn as [?|Hn]; [done|]. exists a. split; [done|]. split; [|done]. unfold seen_check.
    change (frame_seq (sealed_next A t p pad)) with (sNextSequence (sessSend A)).
    rewrite (proj2 (Z.eqb_neq _ _)) by done. rewrite (proj2 (Z.leb_gt _ _)) by (unfold ReplayWindowSize; lia).
    rewrite bool_decide_eq_false_2; [done|]. intros Hin%(rel_range _ _ Ha). lia. }
  exists p. rewrite (sync_codec A B Hs). split; [by apply Codec_Decrypt_seal|]. split; [done|].
  intros Hr. apply Hrk. by apply Z.eqb_eq.
Qed.

(** The receiver accepts the frame. *)
Lemma sync_accepts clock A B f A' :
  in_sync A B → emits A f A' →
  (is_rekey f = true → sSendEpoch (sessSend A) < 2 ^ 32 - 1) →
  ∃ p B', Session_ReceivePayload clock f B = (B', Ok p) ∧ accepts clock B f p B' ∧
    Codec_Decrypt (rReceive (sessReceive B)) f = Ok p ∧ (is_rekey f = true → p = rekey_payload (sessSend A)) ∧
    f = sealed_next A (hdrMessageType (frHeader f)) p (frPadding f).
Proof.
  intros Hs He Hlim. destruct (sync_frame A B f A' Hs He) as (Hok & Hadm & (a & Ha & Hc & _) & p & Hd & Hf & Hrk).
  assert (opens B f p) as Ho.
  { split; [by exists a|]. intros Hr. rewrite (Hrk Hr). unfold expected_rekey. rewrite (sync_epoch A B Hs), (sync_key A B Hs).
    split; [by apply Hlim|]. pose proof (so_epoch A (sync_send A B Hs)). pose proof (Hlim Hr).
    unfold rekey_payload. apply RekeyInit_unmarshal; [|cbn; lia].
    split; [unfold uint; cbn; lia|apply zlen_key_confirm]. }
  destruct (ReceivePayload_current clock B f p (sync_receive A B Hs) Hok Hadm Hd) as [[_ Hno]|(B' & HB & Hacc)]; [done|].
  by exists p, B'.
Qed.

Lemma sync_data clock A B f A' p B' :
  in_sync A B → emits A f A' → A' = with_send advance A → is_rekey f = false → accepts clock B f p B' →
  Codec_Decrypt (rReceive (sessReceive B)) f = Ok p → in_sync A' B'.
Proof.
  intros Hs He -> Hr Hacc Hd. pose proof (accepts_ok _ _ _ _ _ (sync_receive A B Hs) Hacc) as Hok'.
  destruct (sync_frame A B f _ Hs He) as (_ & _ & (a & Ha & Hc & Htop) & _).
  destruct (emits_frame A f _ He) as (Hseq & _ & Hn0 & _).
  destruct Hacc as [p w _ _ _ Hw|p w key c confirm _ Hr' _ _ _ _ _ _ _|p w c _ _ Hd' _ _ _ _]; [|congruence..].
  destruct (Hw a Ha) as [_ Hw']. pose proof (so_next A (sync_send A B Hs)) as [_ Hmax].
  destruct Hs as [Hso Hro Hid Hop Hidle Hcd Hk Hep Hwin].
  assert (∀ r', r' = after_current clock w (sessReceive B) →
    rReceive r' = rReceive (sessReceive B) ∧ rReceiveKey r' = rReceiveKey (sessReceive B) ∧
    rReceiveEpoch r' = rReceiveEpoch (sessReceive B) ∧ rReplay r' = w) as Hafter.
  { intros r' ->. unfold after_current. destruct (rPreviousReceive _); [|done].
    by destruct (expireGrace_fields clock (spend_grace (set_replay w (sessReceive B)))) as (-> & -> & -> & -> & _). }
  destruct (Hafter _ eq_refl) as (E1 & E2 & E3 & E4).
  split; cbn [with_receive with_send sessSessionID sessClosed sessReceive sessSend]; rewrite ?E1, ?E2, ?E3, ?E4; try done.
  - by apply send_ok_advance.
  - exists (seen_accept a (frame_seq f)). split; [done|]. cbn [advance sNextSequence seen_accept seenTop].
    unfold frame_seq. rewrite Hseq. destruct (_ =? 2 ^ 64 - 1); [by left|right; lia].
Qed.

Lemma codec_of_inj key c c' : codec_of key c → codec_of key c' → c = c'.
Proof. intros [_ Hc] [_ Hc']. congruence. Qed.

Lemma sync_rekey clock now A B f p B' q :
  in_sync A B → sPendingRekey (sessSend A) = None → pending_ok (sessSend A) q → is_rekey f = true →
  accepts clock B f p B' → in_sync (with_send (commit_rekey now q) (with_send (set_pending q) (with_send advance A))) B'.
Proof.
  intros Hs Hidle Hpo Hr Hacc. pose proof (accepts_ok _ _ _ _ _ (sync_receive A B Hs) Hacc) as Hok'.
  destruct Hacc as [p w _ Hr' _ _|p w key c confirm _ _ _ _ _ _ _ -> Hcd|p w c _ Hr' _ _ _ _ _]; [congruence| |congruence].
  destruct Hs as [Hso Hro Hid Hop _ _ Hk Hep Hwin]. destruct Hpo as [Hpk Hpc Hpe Hpl Hpf].
  pose proof (so_epoch A Hso).
  destruct (expireGrace_fields clock (start_epoch clock (next_key (rReceiveKey (sessReceive B))) c w (sessReceive B)))
    as (E1 & E2 & E3 & E4 & _).
  split; cbn [with_receive with_send commit_rekey set_pending sessSessionID sessClosed sessReceive sessSend sPendingRekey
              sSend sSendKey sSendEpoch sNextSequence]; rewrite ?E1, ?E2, ?E3, ?E4;
    cbn [start_epoch rReceive rReceiveKey rReceiveEpoch rReplay]; try done.
  - apply (commit_rekey_ok now q (with_send (set_pending q) (with_send advance A))); [|done].
    destruct (send_ok_advance A Hso Hidle). split; try done. intros q' [= <-]. by split.
  - eapply codec_of_inj; [done|]. rewrite Hk, <- Hpk. done.
  - by rewrite Hk, Hpk.
  - by rewrite Hep, Hpe.
  - exists seen_empty. split; [apply window_rel_zero|]. by right.
Qed.

Definition message_of (m : AnyMessage) : option Message :=
  match m with ByValue m | ByPointer m => Some m | _ => None end.

Lemma outboundMessage_of message t m : outboundMessage message = Ok (t, m) → message_of message = Some m.
Proof. destruct message as [m'|m'| |]; [| |done..]; cbn; destruct m'; try done; by intros [= _ <-]. Qed.

Definition pair_ok (x : PairSend) (ev : PairEvent) : Prop :=
  match ev with
  | PairDelivered m => message_of (psMessage x) = Some m
  | PairRekeyed | PairRefused _ => True
  | PairBroken => False
  end.

(** What a step leaves of the two sessions.  A delivered message uses up one
    sequence number of the sender's epoch, a rekey moves both sides to the next
    epoch and its key, a refused Send was not ready and leaves both as they were;
    the opposite direction is never touched. *)
Definition pair_effect (x : PairSend) (A B A' B' : Session) (ev : PairEvent) : Prop :=
  sessReceive A' = sessReceive A ∧ sessSend B' = sessSend B ∧
  match ev with
  | PairDelivered m =>
      rekeyDueLocked (psSendClock x) (sessSend A) = false ∧ message_of (psMessage x) = Some m ∧
      A' = with_send advance A ∧
      rReceiveEpoch (sessReceive B') = rReceiveEpoch (sessReceive B) ∧ rReceiveKey (sessReceive B') = rReceiveKey (sessReceive B)
  | PairRekeyed =>
      rekeyDueLocked (psSendClock x) (sessSend A) = true ∧
      sSendEpoch (sessSend A') = sSendEpoch (sessSend A) + 1 ∧ sSendKey (sessSend A') = next_key (sSendKey (sessSend A)) ∧
      sNextSequence (sessSend A') = 1 ∧ sSentInEpoch (sessSend A') = 0 ∧
      sEpochStarted (sessSend A') = psSendClock x ClockEpochStart ∧
      rReceiveEpoch (sessReceive B') = rReceiveEpoch (sessReceive B) + 1 ∧
      rReceiveKey (sessReceive B') = next_key (rReceiveKey (sessReceive B))
  | PairRefused _ => A' = A ∧ B' = B ∧ ¬ ready A (psMessage x) (psPadLength x) (psEntropy x)
  | PairBroken => False
  end.

(** A run in which every step has its effect and leaves the peers in step. *)
Inductive pair_trace : list PairSend → list PairEvent → Session → Session → Session → Session → Prop :=
  | pair_trace_nil A B : pair_trace [] [] A B A B
  | pair_trace_cons x xs ev evs A B A1 B1 A' B' :
      pair_effect x A B A1 B1 ev → in_sync A1 B1 → pair_trace xs evs A1 B1 A' B' →
      pair_trace (x :: xs) (ev :: evs) A B A' B'.

Definition pair_typed (x : PairSend) : Prop := AnyMessage_typed (psMessage x) ∧ uint 8 (psPadLength x).

Lemma rekey_inbound f :
  is_rekey f = true →
  newInboundMessage (hdrMessageType (frHeader f)) = Ok (λ data, MsgRekeyInit <$> RekeyInit_UnmarshalBinary data).
Proof. unfold is_rekey. by intros ->%Z.eqb_eq. Qed.

Lemma rekey_payload_decodes ss :
  1 ≤ sSendEpoch ss → sSendEpoch ss < 2 ^ 32 - 1 →
  ∃ init, RekeyInit_UnmarshalBinary (rekey_payload ss) = Ok init.
Proof.
  intros H1 H2. eexists. unfold rekey_payload. apply RekeyInit_unmarshal; [|cbn; lia].
  split; [unfold uint; cbn; lia|apply zlen_key_confirm].
Qed.

Lemma sealed_next_inj A t p pad t' p' pad' : sealed_next A t p pad = sealed_next A t' p' pad' → p = p'.
Proof.
  intros Heq. unfold sealed_next in Heq. set (c := sSend (sessSend A)) in *. set (i := sessSessionID A) in *.
  set (n := sNextSequence (sessSend A)) in *.
  destruct (seal_frame_sealed c t i n p pad) as (Hs & _), (seal_frame_sealed c t' i n p' pad') as (Hs' & _).
  rewrite Heq, Hs' in Hs. pose proof (f_equal frHeader Heq) as Hh. pose proof (f_equal frPadding Heq) as Hp.
  cbn [seal_frame frHeader frPadding] in Hh, Hp. rewrite Hh, Hp in Hs.
  apply (f_equal (λ x, aead_Open (codecAead c) (nonce_bytes n) x (header_layout (to_wire (NewHeader t' i n (zlen p') (zlen pad'))) ++ pad'))) in Hs.
  rewrite !Open_Seal in Hs by apply zlen_nonce. congruence.
Qed.

Lemma accepts_effect clock B f p B' :
  accepts clock B f p B' → Codec_Decrypt (rReceive (sessReceive B)) f = Ok p →
  sessSend B' = sessSend B ∧
  rReceiveEpoch (sessReceive B') = rReceiveEpoch (sessReceive B) + (if is_rekey f then 1 else 0) ∧
  rReceiveKey (sessReceive B') =
    (if is_rekey f then next_key (rReceiveKey (sessReceive B)) else rReceiveKey (sessReceive B)).
Proof.
  intros [p' w _ -> _ _|p' w key c confirm _ -> _ _ _ _ _ -> _|p' w c _ _ Hd' _ _ _ _] Hd; [..|congruence];
    (split; [done|]); cbn [with_receive sessReceive].
  - unfold after_current. destruct (rPreviousReceive _); [|cbn; split; [lia|done]].
    destruct (expireGrace_fields clock (spend_grace (set_replay w (sessReceive B)))) as (_ & -> & -> & _). cbn. split; [lia|done].
  - by destruct (expireGrace_fields clock (start_epoch clock (next_key (rReceiveKey (sessReceive B))) c w (sessReceive B)))
      as (_ & -> & -> & _).
Qed.

Lemma pair_step_effect x A B :
  in_sync A B → pair_typed x →
  let '(A', B', ev) := pair_step x A B in in_sync A' B' ∧ pair_effect x A B A' B' ev.
Proof.
  intros Hs [Hty Hpad]. unfold pair_step.
  pose proof (send_progress (psSendClock x) (psEntropy x) (psMessage x) (psPadLength x) A (sync_send A B Hs) Hty Hpad) as Hready.
  pose proof (send_emits (psSendClock x) (psEntropy x) (psMessage x) (psPadLength x) A (sync_send A B Hs) Hty Hpad) as Hsend.
  destruct (Session_Send _ _ _ _ A) as [A1 [f|e|]]; [clear Hready| |done].
  2: { subst A1. split; [done|]. split_and!; [done..|]. intros (? & ? & ?)%Hready. done. }
  destruct Hsend as ([Hcl Hidle] & He & Hdata).
  assert (is_rekey f = true → ∃ q, prFrame q = f ∧ pending_ok (sessSend A) q ∧
    A1 = with_send (set_pending q) (with_send advance A)) as Hq.
  { intros Hr. destruct He as [t p pad Ht _ _ _|pad q _ _ Hpo _]; [|by exists q].
    rewrite sealed_next_rekey in Hr. by apply Z.eqb_eq in Hr. }
  assert (is_rekey f = true → sSendEpoch (sessSend A) < 2 ^ 32 - 1) as Hlim.
  { intros Hr. destruct (Hq Hr) as (q & _ & Hpo & _). apply (po_limit _ _ Hpo). }
  destruct (sync_accepts (psReceiveClock x) A B f A1 Hs He Hlim) as (p & B1 & HB & Hacc & Hd & Hrk & Hf).
  destruct (accepts_effect _ _ _ _ _ Hacc Hd) as (HB1 & HB2 & HB3).
  unfold Session_Receive. rewrite sm_bind_run, HB. destruct (is_rekey f) eqn:Hr.
  - destruct (Hq eq_refl) as (q & Hqf & Hpo & ->). rewrite (rekey_inbound f Hr), (Hrk eq_refl). sm_run.
    pose proof (so_epoch A (sync_send A B Hs)) as [H1 _].
    destruct (rekey_payload_decodes (sessSend A) H1 (Hlim eq_refl)) as [init Hinit]. rewrite Hinit.
    destruct (MarkRekeySent_result (psSendClock x) f (with_send (set_pending q) (with_send advance A)))
      as [(e & _ & Hno)|(q' & _ & Hq' & _ & ->)]; [destruct Hno; split; [done|by exists q]|].
    injection Hq' as <-. split; [by eapply sync_rekey|].
    destruct (rekeyDueLocked _ _) eqn:Hdue.
    2: { destruct Hdata as (t & m & p' & _ & _ & Hne & ->). rewrite sealed_next_rekey in Hr. by apply Z.eqb_eq in Hr. }
    pose proof (po_epoch _ _ Hpo). pose proof (po_key _ _ Hpo). by split_and!.
  - destruct (rekeyDueLocked _ _) eqn:Hdue; [congruence|]. destruct Hdata as (t & m & p' & Hout & Hm & Hne & Hfp).
    assert (p' = p) as ->.
    { rewrite Hf in Hfp at 1. by apply sealed_next_inj in Hfp. }
    destruct (inbound_outbound _ _ _ _ Hty Hout Hm) as (u & Hu & Hup).
    assert (hdrMessageType (frHeader f) = t) as -> by by rewrite Hfp.
    rewrite Hu. sm_run. unfold sm_lift. rewrite Hup.
    assert (A1 = with_send advance A) as HA.
    { destruct He as [|pad q _ _ Hpo _]; [done|]. by rewrite (po_frame _ _ Hpo) in Hr. }
    split; [by eapply sync_data|]. split_and!; [by subst A1|done..|by eapply outboundMessage_of|done|lia|done].
Qed.

Lemma pair_effect_ok x A B A' B' ev : pair_effect x A B A' B' ev → pair_ok x ev.
Proof. intros (_ & _ & H). destruct ev; [|done..]. by destruct H as (_ & ? & _). Qed.

Lemma pair_step_sync x A B :
  in_sync A B → pair_typed x →
  let '(A', B', ev) := pair_step x A B in in_sync A' B' ∧ pair_ok x ev.
Proof.
  intros Hs Hx. pose proof (pair_step_effect x A B Hs Hx) as H. destruct (pair_step x A B) as [[A1 B1] ev].
  destruct H as [? ?%pair_effect_ok]. done.
Qed.

(** A ready Send goes through. *)
Lemma pair_step_ready x A B :
  in_sync A B → pair_typed x → ready A (psMessage x) (psPadLength x) (psEntropy x) →
  (pair_step x A B).2 =
  if rekeyDueLocked (psSendClock x) (sessSend A) then PairRekeyed
  else match message_of (psMessage x) with Some m => PairDelivered m | None => PairBroken end.
Proof.
  intros Hs Hx Hready. pose proof (pair_step_effect x A B Hs Hx) as H. destruct (pair_step x A B) as [[A1 B1] ev].
  destruct H as (_ & _ & _ & H). cbn [snd]. destruct ev as [m| |e|]; [| | |done].
  - destruct H as (-> & -> & _). done.
  - by destruct H as (-> & _).
  - by destruct H as (_ & _ & []).
Qed.

Lemma pair_run_trace xs : ∀ A B,
  in_sync A B → Forall pair_typed xs →
  let '(A', B', evs) := pair_run xs A B in in_sync A' B' ∧ pair_trace xs evs A B A' B'.
Proof.
  induction xs as [|x xs IH]; intros A B Hs Hall; cbn [pair_run]; [split; [done|constructor]|].
  apply Forall_cons in Hall as [Hx Hall]. pose proof (pair_step_effect x A B Hs Hx) as Hstep.
  destruct (pair_step x A B) as [[A1 B1] ev]. destruct Hstep as [Hs1 Hev].
  specialize (IH A1 B1 Hs1 Hall). destruct (pair_run xs A1 B1) as [[A2 B2] evs]. destruct IH as [Hs2 Hevs].
  split; [done|]. by econstructor.
Qed.

(** Sessions opened by the two peers of a handshake: crossed keys. *)
Lemma NewSession_sync suite sid k1 k2 nowA nowB A B :
  zlen sid = 16 →
  NewSession suite (mkHandshakeSecrets sid k1 k2) nowA = Ok A →
  NewSession suite (mkHandshakeSecrets sid k2 k1) nowB = Ok B → in_sync A B ∧ in_sync B A.
Proof.
  intros Hid HA HB.
  pose proof (si_ok _ _ _ (NewSession_send_inv suite (mkHandshakeSecrets sid k1 k2) _ A Hid HA)) as HsA.
  pose proof (ri_ok _ _ (NewSession_receive_inv suite (mkHandshakeSecrets sid k1 k2) _ A Hid HA)) as HrA.
  pose proof (si_ok _ _ _ (NewSession_send_inv suite (mkHandshakeSecrets sid k2 k1) _ B Hid HB)) as HsB.
  pose proof (ri_ok _ _ (NewSession_receive_inv suite (mkHandshakeSecrets sid k2 k1) _ B Hid HB)) as HrB.
  apply NewSession_inv in HA as (_ & _ & HidA & _ & HcA & csA & crA & HcsA & HcrA & HA1 & HA2); [|done].
  apply NewSession_inv in HB as (_ & _ & HidB & _ & HcB & csB & crB & HcsB & HcrB & HB1 & HB2); [|done].
  cbn [hsSessionID hsSendKey hsReceiveKey] in *.
  split; split; rewrite ?HA1, ?HA2, ?HB1, ?HB2; cbn; try done; try congruence.
  - by eapply codec_of_inj.
  - exists seen_empty. split; [apply window_rel_zero|]. by right.
  - by eapply codec_of_inj.
  - exists seen_empty. split; [apply window_rel_zero|]. by right.
Qed.
End pair.

(** ** Properties *)

(** C4: Two sessions made from the two halves of one handshake stay in step over any sends,
    across rekeys: a Send delivers its message and takes one sequence number, or is a due rekey
    that moves both sides to the next key, or is refused because it was not ready and leaves
    both sessions as they were. *)
Theorem session_stream_delivery {aead : AEAD} {laws : AEADLaws} suite sid k1 k2 nowA nowB A B xs :
  zlen sid = 16 →
  NewSession suite (mkHandshakeSecrets sid k1 k2) nowA = Ok A →
  NewSession suite (mkHandshakeSecrets sid k2 k1) nowB = Ok B →
  Forall pair_typed xs →
  let '(A', B', evs) := pair_run xs A B in
  pair_trace xs evs A B A' B' ∧ in_sync A' B' ∧
  ∀ x, pair_typed x → ready A' (psMessage x) (psPadLength x) (psEntropy x) →
    (pair_step x A' B').2 =
    if rekeyDueLocked (psSendClock x) (sessSend A') then PairRekeyed
    else match message_of (psMessage x) with Some m => PairDelivered m | None => PairBroken end.
Proof.
  intros Hid HA HB Hall. destruct (NewSession_sync suite sid k1 k2 nowA nowB A B Hid HA HB) as [Hs _].
  pose proof (pair_run_trace xs A B Hs Hall) as Hrun. destruct (pair_run xs A B) as [[A' B'] evs].
  destruct Hrun as [Hs' Hevs]. split_and!; [done..|]. intros x. by apply pair_step_ready.
Qed.

Definition ex_sends : list PairSend :=
  [mkPairSend (at_time 1) (at_time 9) [] ex_ping 0; mkPairSend (at_time DefaultRekeyInterval) (at_time 9) [] ex_ping 0;
   mkPairSend (at_time DefaultRekeyInterval) (at_time 9) (make_bytes 3) ex_ping 4;
   mkPairSend (at_time DefaultRekeyInterval) (at_time 9) (make_bytes 5) ex_ping 4].

Lemma ex_sends_typed : Forall pair_typed ex_sends.
Proof.
  assert (AnyMessage_typed ex_ping) by (cbn; decide_closed).
  repeat (apply Forall_cons; split); try apply Forall_nil_2; (split; [done|decide_closed]).
Qed.

Lemma ex_peer_new :
  @NewSession mac_aead CipherChaCha20Poly1305 (mkHandshakeSecrets ex_session (map to_byte (seqZ 50 32)) ex_key) 0 = Ok ex_peer.
Proof. reflexivity. Qed.

Lemma session_stream_delivery_witness :
  match pair_run ex_sends mac_session ex_peer with
  | (A', B', evs) => pair_trace ex_sends evs mac_session ex_peer A' B' ∧ in_sync A' B'
  end.
Proof.
  pose proof (@session_stream_delivery mac_aead mac_aead_laws CipherChaCha20Poly1305 ex_session ex_key
    (map to_byte (seqZ 50 32)) 0 0 mac_session ex_peer ex_sends eq_refl mac_session_new ex_peer_new ex_sends_typed) as Hd.
  destruct (pair_run ex_sends mac_session ex_peer) as [[A' B'] evs]. destruct Hd as (Hd & Hs & _).
  split; [exact Hd|exact Hs].
Defined.

(** Delivered, rekeyed, refused for want of padding bytes, delivered under the
    first sequence number of the new epoch. *)
Example ex_pair_events :
  (λ '(A', _, evs), (map (λ ev, match ev with PairDelivered (MsgPingPong m) => ppNonce m | PairRekeyed => 1 | _ => 0 end) evs,
     sSendEpoch (sessSend A'), sNextSequence (sessSend A'))) (pair_run ex_sends mac_session ex_peer) = ([77; 1; 0; 77], 2, 2).
Proof. vm_compute. reflexivity. Qed.
