(* ===== verification/Handshake.v ===== *)
(** * handshake.go, static_key.go: the Noise XX handshake driver

    github.com/flynn/noise is a dependency of the module: the class [Noise] is the
    part of its interface the code calls, [NoiseLaws] its documented behaviour, the
    completeness of a Noise XX exchange.  [Handshake] is the three-flight state
    machine of one side.  The theorems show that two machines driven in order end
    with crossed keys, one session identifier and each other's static key, and
    that a machine only moves forward through its flights, that a failed one stays
    failed, and that a completed one honours the pinned key of the peer. *)

From S2P Require Import Prelude Wire Header Frame Tlv Utf8 Messages Replay Sha256 Crypto Rekey Session.

Local Open Scope Z_scope.
Local Open Scope sm_scope.

Definition noiseKeySize : Z := 32.

(** A key pair [noise.DHKey]. *)
Record DHKey := mkDHKey { dhPrivate : list byte; dhPublic : list byte }.

(** [GenerateKeypair] as a function of what its random source yields; the
    handshake state owns its own random source.  WriteMessage and ReadMessage
    return an error ([None]) or the message with the two cipher states, which are
    nil until the last flight. *)
Class Noise := {
  noise_state : Type;
  noise_cipher : Type;
  noise_GenerateKeypair : list byte → option DHKey;
  noise_NewHandshakeState : bool → list byte → DHKey → list byte → option noise_state;
  noise_WriteMessage : noise_state →
    noise_state * option (list byte * option noise_cipher * option noise_cipher);
  noise_ReadMessage : noise_state → list byte →
    noise_state * option (list byte * option noise_cipher * option noise_cipher);
  noise_PeerStatic : noise_state → list byte;
  noise_ChannelBinding : noise_state → list byte;
  noise_UnsafeKey : noise_cipher → list byte;
}.

(** ** static_key.go *)
Record StaticKey := mkStaticKey { skPrivate : list byte; skPublic : list byte }.

Definition zero32 : list byte := make_bytes 32.

#[global] Instance StaticKey_eq_dec : EqDecision StaticKey.
Proof. solve_decision. Defined.

(** subtle.ConstantTimeCompare returns 1 for equal contents, else 0. *)
Definition ConstantTimeCompare (a b : list byte) : Z := if bool_decide (a = b) then 1 else 0.

(** The reader of a fixed byte string: what one Read of [n] bytes returns and
    what is left. *)
Definition fixedReader_Read (data : list byte) (n : Z) : outcome (list byte) * list byte :=
  if zlen data =? 0 then (Err EOF, data)
  else let n := Nat.min (Z.to_nat n) (length data) in (Ok (take n data), drop n data).

Section handshake.
Context {N : Noise}.

Definition staticKeyFromPair (keypair : DHKey) : outcome StaticKey :=
  if negb (zlen (dhPrivate keypair) =? noiseKeySize) || negb (zlen (dhPublic keypair) =? noiseKeySize)
  then Err ErrHandshake else
  private ← copy_to zero32 0 32 (dhPrivate keypair);
  public ← copy_to zero32 0 32 (dhPublic keypair);
  Ok (mkStaticKey private public).

Definition generateStaticKey (random : list byte) : outcome StaticKey :=
  match noise_GenerateKeypair random with
  | None => Err ErrHandshake
  | Some keypair => staticKeyFromPair keypair
  end.

Definition GenerateStaticKey (random : list byte) : outcome StaticKey := generateStaticKey random.

(** The fixed reader yields the private key itself. *)
Definition LoadStaticKey (private : list byte) : outcome StaticKey :=
  if negb (zlen private =? noiseKeySize) then Err ErrHandshake else
  match noise_GenerateKeypair private with
  | None => Err ErrHandshake
  | Some keypair => staticKeyFromPair keypair
  end.

Definition StaticKey_Public (k : StaticKey) : list byte := skPublic k.

Definition StaticKey_validate (k : StaticKey) : outcome unit :=
  if bool_decide (skPrivate k = zero32) || bool_decide (skPublic k = zero32) then Err ErrInvalidStaticKey else
  match LoadStaticKey (skPrivate k) with
  | Ok derived =>
      if negb (ConstantTimeCompare (skPublic derived) (skPublic k) =? 1) then Err ErrInvalidStaticKey else Ok tt
  | Err _ => Err ErrInvalidStaticKey
  | Panic => Panic
  end.

Definition StaticKey_noiseKey (k : StaticKey) : DHKey := mkDHKey (skPrivate k) (skPublic k).

(** ** handshake.go *)
Record HandshakeResult := mkHandshakeResult {
  hrSessionID : list byte; hrSendKey : list byte; hrReceiveKey : list byte; hrPeerStatic : list byte;
}.

Definition HandshakeResult_Secrets (r : HandshakeResult) : HandshakeSecrets :=
  mkHandshakeSecrets (hrSessionID r) (hrSendKey r) (hrReceiveKey r).

Definition NewSessionFromHandshake `{AEAD} (suite : Z) (result : HandshakeResult) (now : Z) : outcome Session :=
  NewSession suite (HandshakeResult_Secrets result) now.

Inductive handshakeRole := roleInitiator | roleResponder.
Inductive handshakeStep :=
  | stepInitiatorWrite1 | stepInitiatorRead2 | stepInitiatorWrite3
  | stepResponderRead1 | stepResponderWrite2 | stepResponderRead3 | stepComplete | stepFailed.

(** A nil [state] is [None]. *)
Record Handshake := mkHandshake {
  hState : option noise_state;
  hRole : handshakeRole;
  hStep : handshakeStep;
  hExpectedPeer : list byte;
  hResult : option HandshakeResult;
}.

Definition is_initiator (role : handshakeRole) : bool := match role with roleInitiator => true | roleResponder => false end.

Definition newHandshake (role : handshakeRole) (static : StaticKey) (expectedPeer random prologue : list byte)
    : outcome Handshake :=
  _ ← StaticKey_validate static;
  if negb (zlen expectedPeer =? 0) && negb (zlen expectedPeer =? noiseKeySize) then Err ErrHandshake else
  match noise_NewHandshakeState (is_initiator role) prologue (StaticKey_noiseKey static) random with
  | None => Err ErrHandshake
  | Some state =>
      let step := if is_initiator role then stepInitiatorWrite1 else stepResponderRead1 in
      Ok (mkHandshake (Some state) role step expectedPeer None)
  end.

Definition dgpv1 : list byte := ascii_bytes "DGPv1".

Definition NewInitiatorHandshake (static : StaticKey) (expectedResponderStatic random : list byte) : outcome Handshake :=
  newHandshake roleInitiator static expectedResponderStatic random dgpv1.
Definition NewResponderHandshake (static : StaticKey) (expectedInitiatorStatic random : list byte) : outcome Handshake :=
  newHandshake roleResponder static expectedInitiatorStatic random dgpv1.

Definition set_step (step : handshakeStep) (h : Handshake) : Handshake :=
  mkHandshake (hState h) (hRole h) step (hExpectedPeer h) (hResult h).
Definition set_state (state : noise_state) (h : Handshake) : Handshake :=
  mkHandshake (Some state) (hRole h) (hStep h) (hExpectedPeer h) (hResult h).

(** Releases the state and the result, and returns ErrHandshake. *)
Definition fail {A} : sm Handshake A :=
  sm_modify (λ h, mkHandshake None (hRole h) stepFailed (hExpectedPeer h) None);;
  sm_throw ErrHandshake.

Definition transcriptSessionID (binding : list byte) : outcome (list byte) :=
  sum ← slice (sha256.Sum256 (ascii_bytes "DGPv1 SessionID" ++ binding)) 0 16;
  copy_to (make_bytes 16) 0 16 sum.

(** An error of [complete] is turned into [fail] by its callers. *)
Definition complete (state : noise_state) (send receive : noise_cipher) : sm Handshake unit :=
  let* h := sm_get id in
  let peer := noise_PeerStatic state in
  if negb (zlen peer =? noiseKeySize) ||
     (negb (zlen (hExpectedPeer h) =? 0) && negb (ConstantTimeCompare peer (hExpectedPeer h) =? 1))
  then sm_throw ErrHandshake else
  let binding := noise_ChannelBinding state in
  if zlen binding =? 0 then sm_throw ErrHandshake else
  let first := noise_UnsafeKey send in
  let second := noise_UnsafeKey receive in
  let* sessionID := sm_lift (transcriptSessionID binding) in
  let* peerStatic := sm_lift (copy_to zero32 0 32 peer) in
  let '(sendKey, receiveKey) :=
    match hRole h with roleInitiator => (first, second) | roleResponder => (second, first) end in
  let* sendKey := sm_lift (copy_to zero32 0 32 sendKey) in
  let* receiveKey := sm_lift (copy_to zero32 0 32 receiveKey) in
  sm_modify (λ h, mkHandshake None (hRole h) stepComplete (hExpectedPeer h)
                    (Some (mkHandshakeResult sessionID sendKey receiveKey peerStatic))).

(** [e != nil] of a call that returns an error. *)
Definition try_ {S A} (m : sm S A) : sm S bool := λ s,
  match m s with (s', Ok _) => (s', Ok true) | (s', Err _) => (s', Ok false) | (s', Panic) => (s', Panic) end.

Definition Handshake_WriteFlight : sm Handshake (list byte) :=
  let* h := sm_get id in
  match hState h with
  | None => sm_throw ErrHandshake
  | Some state =>
      match hStep h with
      | stepInitiatorWrite1 =>
          let '(state', written) := noise_WriteMessage state in
          sm_modify (set_state state');;
          match written with
          | None => fail
          | Some (message, _, _) =>
              if negb (zlen message =? 32) then fail else
              let* ephemeral := sm_lift (copy_to zero32 0 32 message) in
              match HandshakeInit_MarshalBinary (mkHandshakeInit NoisePatternXX ephemeral []) with
              | Panic => sm_lift Panic
              | Err _ => fail
              | Ok wire => sm_modify (set_step stepInitiatorRead2);; sm_ret wire
              end
          end
      | stepResponderWrite2 =>
          let '(state', written) := noise_WriteMessage state in
          sm_modify (set_state state');;
          match written with
          | None => fail
          | Some (message, _, _) =>
              if negb (zlen message =? 96) then fail else
              let* head := sm_lift (slice message 0 32) in
              let* ephemeral := sm_lift (copy_to zero32 0 32 head) in
              let* payload := sm_lift (slice_from message 32) in
              match HandshakeResponse_MarshalBinary (mkHandshakeResponse ephemeral payload) with
              | Panic => sm_lift Panic
              | Err _ => fail
              | Ok wire => sm_modify (set_step stepResponderRead3);; sm_ret wire
              end
          end
      | stepInitiatorWrite3 =>
          let '(state', written) := noise_WriteMessage state in
          sm_modify (set_state state');;
          match written with
          | Some (message, Some send, Some receive) =>
              if negb (zlen message =? 64) then fail else
              match HandshakeFinish_MarshalBinary (mkHandshakeFinish message) with
              | Panic => sm_lift Panic
              | Err _ => fail
              | Ok wire =>
                  let* completed := try_ (complete state' send receive) in
                  if (completed : bool) then sm_ret wire else fail
              end
          | _ => fail
          end
      | _ => sm_throw ErrHandshake
      end
  end.

(** The wire flight expected in this step, as a Noise message; [None] in the
    steps that read nothing. *)
Definition flightMessage (step : handshakeStep) (wire : list byte) : option (outcome (list byte)) :=
  match step with
  | stepResponderRead1 =>
      Some (flight ← HandshakeInit_UnmarshalBinary wire;
            if negb (hiPattern flight =? NoisePatternXX) then Err ErrHandshake else Ok (hiClientEphemeral flight))
  | stepInitiatorRead2 =>
      Some (flight ← HandshakeResponse_UnmarshalBinary wire;
            if negb (zlen (hrNoisePayload flight) =? 64) then Err ErrHandshake
            else Ok (hrServerEphemeral flight ++ hrNoisePayload flight))
  | stepResponderRead3 =>
      Some (flight ← HandshakeFinish_UnmarshalBinary wire;
            if negb (zlen (hfNoisePayload flight) =? 64) then Err ErrHandshake else Ok (hfNoisePayload flight))
  | _ => None
  end.

Definition Handshake_ReadFlight (wire : list byte) : sm Handshake unit :=
  let* h := sm_get id in
  match hState h with
  | None => sm_throw ErrHandshake
  | Some state =>
      match flightMessage (hStep h) wire with
      | None => sm_throw ErrHandshake
      | Some Panic => sm_lift Panic
      | Some (Err _) => fail
      | Some (Ok message) =>
          let '(state', read) := noise_ReadMessage state message in
          sm_modify (set_state state');;
          match read with
          | None => fail
          | Some (_, send, receive) =>
              match hStep h with
              | stepResponderRead1 => sm_modify (set_step stepResponderWrite2)
              | stepInitiatorRead2 => sm_modify (set_step stepInitiatorWrite3)
              | stepResponderRead3 =>
                  match send, receive with
                  | Some send, Some receive =>
                      let* completed := try_ (complete state' send receive) in
                      if (completed : bool) then sm_ret tt else fail
                  | _, _ => fail
                  end
              | _ => sm_ret tt
              end
          end
      end
  end.

Definition Handshake_Complete (h : Handshake) : bool :=
  match hStep h with stepComplete => true | _ => false end.

Definition Handshake_Result (h : Handshake) : outcome HandshakeResult :=
  match Handshake_Complete h, hResult h with
  | true, Some result => Ok result
  | _, _ => Err ErrHandshake
  end.

(** ** Completion *)
Definition session_id (binding : list byte) : list byte :=
  take 16 (sha256.Sum256 (ascii_bytes "DGPv1 SessionID" ++ binding)).

Lemma zlen_session_id binding : zlen (session_id binding) = 16.
Proof.
  unfold session_id. generalize (ascii_bytes "DGPv1 SessionID" ++ binding). intros m.
  pose proof (zlen_Sum256 m) as Hs. unfold zlen, sha256.Size in *. rewrite length_take. lia.
Qed.

Lemma transcriptSessionID_Ok binding : transcriptSessionID binding = Ok (session_id binding).
Proof.
  unfold transcriptSessionID. generalize (zlen_session_id binding). unfold session_id.
  generalize (ascii_bytes "DGPv1 SessionID" ++ binding). intros m Hm. pose proof (zlen_Sum256 m) as Hs. unfold sha256.Size in Hs.
  rewrite slice_Ok, bind_Ok_l by lia. change (Z.to_nat (16 - 0)) with 16%nat. rewrite drop_0.
  rewrite copy_to_put by (done || lia). by rewrite put_all.
Qed.

(** [copy] into a 32-byte array. *)
Definition array32 (l : list byte) : list byte := take 32 l ++ drop (Nat.min 32 (length l)) zero32.

Lemma copy_array32 l : copy_to zero32 0 32 l = Ok (array32 l).
Proof.
  unfold copy_to, array32. change (zlen zero32) with 32. cbn [Z.leb Z.compare andb Pos.compare Pos.compare_cont].
  change (Z.to_nat (32 - 0)) with 32%nat. change (Z.to_nat 0) with 0%nat. cbn [take app].
  rewrite Nat.add_0_l. enough (take (32 `min` length l) l = take 32 l) as -> by done.
  destruct (decide (length l ≤ 32)%nat).
  - rewrite (take_ge l 32) by done. rewrite take_ge; [done|lia].
  - by rewrite Nat.min_l by lia.
Qed.

Lemma zlen_array32 l : zlen (array32 l) = 32.
Proof. unfold array32, zlen. rewrite length_app, length_take, length_drop. change (length zero32) with 32%nat. lia. Qed.

Lemma array32_id l : zlen l = 32 → array32 l = l.
Proof.
  intros Hl. unfold array32, zlen in *. rewrite take_ge, Nat.min_l by lia. change (drop 32 zero32) with (@nil byte).
  apply app_nil_r.
Qed.

Definition may_complete (h : Handshake) (state : noise_state) : Prop :=
  zlen (noise_PeerStatic state) = 32 ∧ (hExpectedPeer h = [] ∨ noise_PeerStatic state = hExpectedPeer h) ∧
  noise_ChannelBinding state ≠ [].

Definition completed (h : Handshake) (state : noise_state) (send receive : noise_cipher) : Handshake :=
  let first := array32 (noise_UnsafeKey send) in
  let second := array32 (noise_UnsafeKey receive) in
  mkHandshake None (hRole h) stepComplete (hExpectedPeer h)
    (Some (mkHandshakeResult (session_id (noise_ChannelBinding state))
             (match hRole h with roleInitiator => first | roleResponder => second end)
             (match hRole h with roleInitiator => second | roleResponder => first end)
             (noise_PeerStatic state))).

#[global] Instance may_complete_dec h state : Decision (may_complete h state).
Proof. unfold may_complete. apply _. Defined.

Lemma complete_result h state send receive :
  (try_ (complete state send receive) h = (h, Ok false) ∧ ¬ may_complete h state) ∨
  (try_ (complete state send receive) h = (completed h state send receive, Ok true) ∧ may_complete h state).
Proof.
  unfold try_, complete, may_complete. sm_run. rewrite transcriptSessionID_Ok, !copy_array32. sm_run.
  destruct (zlen (noise_PeerStatic state) =? noiseKeySize) eqn:Hp; cbn [negb orb].
  2:{ apply Z.eqb_neq in Hp. left. split; [done|]. by intros [? _]. }
  apply Z.eqb_eq in Hp. unfold ConstantTimeCompare.
  destruct (zlen (hExpectedPeer h) =? 0) eqn:He; cbn [negb andb].
  - apply Z.eqb_eq in He. apply zlen_0_nil in He. destruct (zlen (noise_ChannelBinding state) =? 0) eqn:Hb.
    + apply Z.eqb_eq in Hb. apply zlen_0_nil in Hb. left. by split; [|intros (_ & _ & ?)].
    + right. split; [|split; [done|split; [by left|]]].
      * sm_run. rewrite (array32_id (noise_PeerStatic state)) by done. destruct (hRole h) eqn:Hr; rewrite !copy_array32; sm_run;
          unfold sm_modify, completed; by rewrite Hr.
      * intros Hn. by rewrite Hn in Hb.
  - case_bool_decide as Hpe; cbn [Z.eqb Pos.eqb negb].
    2:{ left. split; [done|]. intros (_ & [Hn|?] & _); [|done]. by rewrite Hn in He. }
    destruct (zlen (noise_ChannelBinding state) =? 0) eqn:Hb.
    + apply Z.eqb_eq in Hb. apply zlen_0_nil in Hb. left. by split; [|intros (_ & _ & ?)].
    + right. split; [|split; [done|split; [by right|]]].
      * sm_run. rewrite (array32_id (noise_PeerStatic state)) by done. destruct (hRole h) eqn:Hr; rewrite !copy_array32; sm_run;
          unfold sm_modify, completed; by rewrite Hr.
      * intros Hn. by rewrite Hn in Hb.
Qed.

(** ** One side, driven arbitrarily *)
Definition rank (step : handshakeStep) : nat :=
  match step with
  | stepInitiatorWrite1 | stepResponderRead1 => 0
  | stepInitiatorRead2 | stepResponderWrite2 => 1
  | stepInitiatorWrite3 | stepResponderRead3 => 2
  | stepComplete => 3
  | stepFailed => 4
  end.

Definition step_role (step : handshakeStep) (role : handshakeRole) : Prop :=
  match step with
  | stepInitiatorWrite1 | stepInitiatorRead2 | stepInitiatorWrite3 => role = roleInitiator
  | stepResponderRead1 | stepResponderWrite2 | stepResponderRead3 => role = roleResponder
  | stepComplete | stepFailed => True
  end.

Definition result_ok (h : Handshake) (r : HandshakeResult) : Prop :=
  zlen (hrSessionID r) = 16 ∧ zlen (hrSendKey r) = 32 ∧ zlen (hrReceiveKey r) = 32 ∧ zlen (hrPeerStatic r) = 32 ∧
  (hExpectedPeer h = [] ∨ hrPeerStatic r = hExpectedPeer h).

Definition handshake_inv (h : Handshake) : Prop :=
  step_role (hStep h) (hRole h) ∧
  match hStep h with
  | stepComplete => hState h = None ∧ ∃ r, hResult h = Some r ∧ result_ok h r
  | stepFailed => hState h = None ∧ hResult h = None
  | _ => hState h ≠ None ∧ hResult h = None
  end.

Definition failed (h : Handshake) : Handshake := mkHandshake None (hRole h) stepFailed (hExpectedPeer h) None.

Lemma fail_run {A} h : fail (A := A) h = (failed h, Err ErrHandshake).
Proof. done. Qed.

Lemma failed_set_state state h : failed (set_state state h) = failed h.
Proof. done. Qed.

(** What one call does: refuse without effect, fail for good, or advance. *)
Definition call_result {A} (h : Handshake) (r : Handshake * outcome A) : Prop :=
  r = (h, Err ErrHandshake) ∨ r = (failed h, Err ErrHandshake) ∨
  ∃ a h', r = (h', Ok a) ∧ rank (hStep h') = S (rank (hStep h)) ∧ (rank (hStep h) < 3)%nat ∧
    hRole h' = hRole h ∧ hExpectedPeer h' = hExpectedPeer h ∧ handshake_inv h'.

Lemma completed_inv h state send receive :
  may_complete h state → handshake_inv (completed h state send receive).
Proof.
  intros (Hp & He & Hb). split; [done|]. split; [done|]. eexists. split; [done|].
  split; [apply zlen_session_id|]. cbn. destruct (hRole h); (split; [apply zlen_array32|]; split; [apply zlen_array32|done]).
Qed.

Lemma advance_inv {A} (a : A) step state h :
  hResult h = None → step_role step (hRole h) → (rank step < 3)%nat → rank step = S (rank (hStep h)) →
  call_result h (set_step step (set_state state h), Ok a).
Proof.
  intros Hr Hro Hlt Hrank. right. right. eexists _, _. split; [done|]. cbn [set_step set_state hStep hRole hExpectedPeer].
  split; [done|]. split; [lia|]. split; [done|]. split; [done|]. split; [done|]. cbn [set_step hStep hState hResult set_state].
  destruct step; cbn in Hlt; try lia; done.
Qed.

Lemma WriteFlight_call h : handshake_inv h → call_result h (Handshake_WriteFlight h).
Proof.
  intros [Hrole Hinv]. unfold Handshake_WriteFlight. sm_run. destruct (hState h) as [state|] eqn:Hst; [|by left].
  destruct (hStep h) eqn:Hs; try (by left); destruct (noise_WriteMessage state) as [state' written]; cbn in Hrole; sm_run.
  - destruct written as [[[message c] d]|]; [|right; by left].
    destruct (zlen message =? 32) eqn:Hl; cbn [negb]; [|right; by left]. apply Z.eqb_eq in Hl.
    rewrite copy_array32. sm_run. rewrite HandshakeInit_marshal by apply zlen_array32. cbn [hiPattern hiNoisePayload].
    rewrite Z.eqb_refl. cbn [negb]. sm_run. apply advance_inv; rewrite ?Hs; cbn; try done; try lia. apply Hinv.
  - destruct written as [[[message [send|]] [receive|]]|]; try (right; by left).
    destruct (zlen message =? 64) eqn:Hl; cbn [negb]; [|right; by left].
    unfold HandshakeFinish_MarshalBinary. cbn [hfNoisePayload]. unfold HandshakeFinishFixedSize. rewrite Hl. cbn [negb].
    rewrite sm_bind_run. destruct (complete_result (set_state state' h) state' send receive) as [[-> _]|[-> Hm]]; [right; by left|].
    right. right. eexists _, _. split; [done|]. rewrite Hs. cbn [completed hStep rank set_state hRole hExpectedPeer].
    split; [done|]. split; [lia|]. split; [done|]. split; [done|]. by apply completed_inv.
  - destruct written as [[[message c] d]|]; [|right; by left].
    destruct (zlen message =? 96) eqn:Hl; cbn [negb]; [|right; by left]. apply Z.eqb_eq in Hl.
    rewrite slice_Ok by lia. sm_run. rewrite copy_array32. sm_run. unfold slice_from. rewrite slice_Ok by lia. sm_run.
    rewrite HandshakeResponse_marshal by apply zlen_array32. cbn [hrNoisePayload]. rewrite bool_decide_eq_true_2.
    + sm_run. apply advance_inv; rewrite ?Hs; cbn; try done; try lia. apply Hinv.
    + unfold zlen in *. rewrite length_take, length_drop. lia.
Qed.

Lemma flightMessage_no_panic step wire m : flightMessage step wire = Some m → m ≠ Panic.
Proof.
  destruct step; cbn; try done; intros [= <-].
  - pose proof (unmarshal_no_panic (A := HandshakeResponse) wire) as Hn. cbn in Hn.
    destruct (HandshakeResponse_UnmarshalBinary wire); [|done..]. rewrite bind_Ok_l. by case_match.
  - pose proof (unmarshal_no_panic (A := HandshakeInit) wire) as Hn. cbn in Hn.
    destruct (HandshakeInit_UnmarshalBinary wire); [|done..]. rewrite bind_Ok_l. by case_match.
  - pose proof (unmarshal_no_panic (A := HandshakeFinish) wire) as Hn. cbn in Hn.
    destruct (HandshakeFinish_UnmarshalBinary wire); [|done..]. rewrite bind_Ok_l. by case_match.
Qed.

Lemma ReadFlight_call wire h : handshake_inv h → call_result h (Handshake_ReadFlight wire h).
Proof.
  intros [Hrole Hinv]. unfold Handshake_ReadFlight. sm_run. destruct (hState h) as [state|] eqn:Hst; [|by left].
  destruct (flightMessage (hStep h) wire) as [m|] eqn:Hf; [|by left].
  pose proof (flightMessage_no_panic _ _ _ Hf). destruct m as [message|e|]; [|right; by left|done].
  destruct (noise_ReadMessage state message) as [state' read]. sm_run.
  destruct read as [[[payload send] receive]|]; [|right; by left].
  destruct (hStep h) eqn:Hs; try done.
  - apply (advance_inv tt); rewrite ?Hs; cbn in *; try done; try lia. apply Hinv.
  - apply (advance_inv tt); rewrite ?Hs; cbn in *; try done; try lia. apply Hinv.
  - destruct send as [send|]; [|right; by left]. destruct receive as [receive|]; [|right; by left].
    rewrite sm_bind_run. destruct (complete_result (set_state state' h) state' send receive) as [[-> _]|[-> Hm]]; [right; by left|].
    right. right. eexists _, _. split; [done|]. rewrite Hs. cbn [completed hStep rank set_state hRole hExpectedPeer].
    split; [done|]. split; [lia|]. split; [done|]. split; [done|]. by apply completed_inv.
Qed.

Inductive HandshakeCall := CallWriteFlight | CallReadFlight (wire : list byte).

Definition handshake_call (c : HandshakeCall) (h : Handshake) : Handshake :=
  match c with
  | CallWriteFlight => (Handshake_WriteFlight h).1
  | CallReadFlight wire => (Handshake_ReadFlight wire h).1
  end.

Definition handshake_run (calls : list HandshakeCall) (h : Handshake) : Handshake :=
  fold_left (λ h c, handshake_call c h) calls h.

Lemma call_result_inv {A} h (r : Handshake * outcome A) :
  handshake_inv h → call_result h r →
  handshake_inv r.1 ∧ hRole r.1 = hRole h ∧ hExpectedPeer r.1 = hExpectedPeer h ∧
  (rank (hStep h) ≤ rank (hStep r.1))%nat.
Proof.
  intros Hinv [->|[->|(a & h' & -> & Hr & _ & Hro & He & Hi)]]; cbn; [done| |split_and!; auto; lia].
  split_and!; try done. destruct (hStep h); cbn; lia.
Qed.

Lemma handshake_call_inv c h :
  handshake_inv h →
  handshake_inv (handshake_call c h) ∧ hRole (handshake_call c h) = hRole h ∧
  hExpectedPeer (handshake_call c h) = hExpectedPeer h ∧ (rank (hStep h) ≤ rank (hStep (handshake_call c h)))%nat.
Proof.
  intros Hinv. destruct c as [|wire]; cbn [handshake_call].
  - by apply call_result_inv, WriteFlight_call.
  - by apply call_result_inv, ReadFlight_call.
Qed.

Lemma handshake_run_inv calls : ∀ h,
  handshake_inv h →
  handshake_inv (handshake_run calls h) ∧ hRole (handshake_run calls h) = hRole h ∧
  hExpectedPeer (handshake_run calls h) = hExpectedPeer h ∧ (rank (hStep h) ≤ rank (hStep (handshake_run calls h)))%nat.
Proof.
  induction calls as [|c calls IH]; intros h Hinv; [done|]. cbn [handshake_run fold_left].
  destruct (handshake_call_inv c h Hinv) as (Hi & Hro & He & Hr). fold (handshake_run calls (handshake_call c h)).
  destruct (IH _ Hi) as (Hi' & Hro' & He' & Hr'). rewrite Hro', He'. split_and!; try done. lia.
Qed.

(** A machine without state refuses every call. *)
Lemma handshake_stopped calls h : hState h = None → handshake_run calls h = h.
Proof.
  intros Hn. induction calls as [|c calls IH]; [done|]. cbn [handshake_run fold_left].
  assert (handshake_call c h = h) as ->; [|done].
  destruct c; cbn [handshake_call]; unfold Handshake_WriteFlight, Handshake_ReadFlight; sm_run; by rewrite Hn.
Qed.

Lemma newHandshake_inv role static expected random prologue h :
  newHandshake role static expected random prologue = Ok h →
  handshake_inv h ∧ hRole h = role ∧ hExpectedPeer h = expected ∧ rank (hStep h) = 0%nat ∧
  (zlen expected = 0 ∨ zlen expected = 32) ∧ StaticKey_validate static = Ok tt ∧
  ∃ state, noise_NewHandshakeState (is_initiator role) prologue (StaticKey_noiseKey static) random = Some state ∧
    h = mkHandshake (Some state) role (if is_initiator role then stepInitiatorWrite1 else stepResponderRead1) expected None.
Proof.
  unfold newHandshake. intros ([] & Hv & Hn)%bind_Ok. destruct (_ && _) eqn:He; [done|].
  destruct (noise_NewHandshakeState _ _ _ _) as [state|] eqn:Hs; [|done]. injection Hn as <-.
  split; [by destruct role|]. split; [done|]. split; [done|]. split; [by destruct role|]. split.
  - apply andb_false_iff in He as [He%negb_false_iff%Z.eqb_eq|He%negb_false_iff%Z.eqb_eq]; auto.
  - split; [done|]. by exists state.
Qed.

(** ** Two sides, driven in order *)

(** The public key belongs to the private key. *)
Definition keypair_valid (k : DHKey) : Prop :=
  ∃ private, noise_GenerateKeypair (dhPrivate k) = Some (mkDHKey private (dhPublic k)).

(** A Noise XX exchange between two states with the same prologue and working
    random sources completes: flights of 32, 96 and 64 octets, the same two cipher
    keys on both sides, each other's static key, one channel binding. *)
Class NoiseLaws : Prop := {
  xx_complete : ∀ prologue kI kR rI rR sI sR,
    keypair_valid kI → keypair_valid kR → 32 ≤ zlen rI → 32 ≤ zlen rR →
    noise_NewHandshakeState true prologue kI rI = Some sI →
    noise_NewHandshakeState false prologue kR rR = Some sR →
    ∃ sI1 sI2 sI3 sR1 sR2 sR3 m1 m2 m3 cI dI cR dR,
      noise_WriteMessage sI = (sI1, Some (m1, None, None)) ∧ zlen m1 = 32 ∧
      noise_ReadMessage sR m1 = (sR1, Some ([], None, None)) ∧
      noise_WriteMessage sR1 = (sR2, Some (m2, None, None)) ∧ zlen m2 = 96 ∧
      noise_ReadMessage sI1 m2 = (sI2, Some ([], None, None)) ∧
      noise_WriteMessage sI2 = (sI3, Some (m3, Some cI, Some dI)) ∧ zlen m3 = 64 ∧
      noise_ReadMessage sR2 m3 = (sR3, Some ([], Some cR, Some dR)) ∧
      noise_UnsafeKey cI = noise_UnsafeKey cR ∧ noise_UnsafeKey dI = noise_UnsafeKey dR ∧
      noise_PeerStatic sI3 = dhPublic kR ∧ noise_PeerStatic sR3 = dhPublic kI ∧
      noise_ChannelBinding sI3 = noise_ChannelBinding sR3 ∧ noise_ChannelBinding sI3 ≠ [];
}.

(** The three flights; the first error stops the exchange. *)
Definition exchange (hI hR : Handshake) : Handshake * Handshake * outcome unit :=
  match Handshake_WriteFlight hI with
  | (hI, Ok flight1) =>
      match Handshake_ReadFlight flight1 hR with
      | (hR, Ok _) =>
          match Handshake_WriteFlight hR with
          | (hR, Ok flight2) =>
              match Handshake_ReadFlight flight2 hI with
              | (hI, Ok _) =>
                  match Handshake_WriteFlight hI with
                  | (hI, Ok flight3) => let '(hR, o) := Handshake_ReadFlight flight3 hR in (hI, hR, o)
                  | (hI, o) => (hI, hR, _ ← o; Ok tt)
                  end
              | (hI, o) => (hI, hR, o)
              end
          | (hR, o) => (hI, hR, _ ← o; Ok tt)
          end
      | (hR, o) => (hI, hR, o)
      end
  | (hI, o) => (hI, hR, _ ← o; Ok tt)
  end.

Lemma write1 st st' m1 e :
  noise_WriteMessage st = (st', Some (m1, None, None)) → zlen m1 = 32 →
  ∃ wire, Handshake_WriteFlight (mkHandshake (Some st) roleInitiator stepInitiatorWrite1 e None) =
    (mkHandshake (Some st') roleInitiator stepInitiatorRead2 e None, Ok wire) ∧
    flightMessage stepResponderRead1 wire = Some (Ok m1).
Proof.
  intros Hw Hl. unfold Handshake_WriteFlight. sm_run. cbn [hState hStep]. rewrite Hw. sm_run. rewrite Hl. cbn [negb Z.eqb Pos.eqb].
  rewrite copy_array32, array32_id by done. sm_run. rewrite HandshakeInit_marshal by done. cbn [hiPattern hiNoisePayload].
  rewrite Z.eqb_refl, bool_decide_eq_true_2 by done. cbn [negb]. sm_run. eexists. split; [done|].
  unfold flightMessage. assert (HandshakeInit_UnmarshalBinary (HandshakeInit_layout (mkHandshakeInit NoisePatternXX m1 [])) =
    Ok (mkHandshakeInit NoisePatternXX m1 [])) as ->; [|done].
  refine (@marshal_unmarshal _ HandshakeInit_message (mkHandshakeInit NoisePatternXX m1 []) _ Hl _).
  change (HandshakeInit_MarshalBinary (mkHandshakeInit NoisePatternXX m1 []) = Ok (HandshakeInit_layout (mkHandshakeInit NoisePatternXX m1 []))).
  by rewrite HandshakeInit_marshal.
Qed.

Lemma write2 st st' m2 e :
  noise_WriteMessage st = (st', Some (m2, None, None)) → zlen m2 = 96 →
  ∃ wire, Handshake_WriteFlight (mkHandshake (Some st) roleResponder stepResponderWrite2 e None) =
    (mkHandshake (Some st') roleResponder stepResponderRead3 e None, Ok wire) ∧
    flightMessage stepInitiatorRead2 wire = Some (Ok m2).
Proof.
  intros Hw Hl. unfold Handshake_WriteFlight. sm_run. cbn [hState hStep]. rewrite Hw. sm_run. rewrite Hl. cbn [negb Z.eqb Pos.eqb].
  destruct (split_at m2 32) as (a & b & -> & Ha); [lia|]. rewrite zlen_app in Hl.
  rewrite slice_here by done. sm_run. rewrite copy_array32, array32_id by done. sm_run. rewrite slice_from_skip by done. sm_run.
  rewrite HandshakeResponse_marshal by done. cbn [hrNoisePayload]. rewrite bool_decide_eq_true_2 by lia. sm_run.
  eexists. split; [done|]. unfold flightMessage.
  rewrite HandshakeResponse_unmarshal by (cbn; lia). rewrite bind_Ok_l. cbn [hrNoisePayload hrServerEphemeral].
  by rewrite (proj2 (Z.eqb_eq _ _)) by lia.
Qed.

Lemma read_early st st' m wire role step step' e :
  flightMessage step wire = Some (Ok m) → noise_ReadMessage st m = (st', Some ([], None, None)) →
  step = stepResponderRead1 ∧ step' = stepResponderWrite2 ∨ step = stepInitiatorRead2 ∧ step' = stepInitiatorWrite3 →
  Handshake_ReadFlight wire (mkHandshake (Some st) role step e None) = (mkHandshake (Some st') role step' e None, Ok tt).
Proof.
  intros Hf Hr Hs. unfold Handshake_ReadFlight. sm_run. cbn [hState hStep]. rewrite Hf, Hr. sm_run.
  by destruct Hs as [[-> ->]|[-> ->]].
Qed.

(** The last flight: the sender and the receiver complete or fail on the pin. *)
Lemma write3 st st' m3 c d e :
  noise_WriteMessage st = (st', Some (m3, Some c, Some d)) → zlen m3 = 64 →
  let h := mkHandshake (Some st') roleInitiator stepInitiatorWrite3 e None in
  Handshake_WriteFlight (mkHandshake (Some st) roleInitiator stepInitiatorWrite3 e None) =
    (if decide (may_complete h st') then (completed h st' c d, Ok m3) else (failed h, Err ErrHandshake)).
Proof.
  intros Hw Hl. cbv zeta. unfold Handshake_WriteFlight. sm_run. cbn [hState hStep]. rewrite Hw. sm_run. rewrite Hl. cbn [negb Z.eqb Pos.eqb].
  unfold HandshakeFinish_MarshalBinary. cbn [hfNoisePayload]. rewrite Hl, Z.eqb_refl. cbn [negb]. rewrite sm_bind_run.
  destruct (complete_result (set_state st' (mkHandshake (Some st) roleInitiator stepInitiatorWrite3 e None)) st' c d)
    as [[-> Hm]|[-> Hm]]; [by rewrite decide_False|by rewrite decide_True].
Qed.

Lemma read3 st st' m3 c d e :
  noise_ReadMessage st m3 = (st', Some ([], Some c, Some d)) → zlen m3 = 64 →
  let h := mkHandshake (Some st') roleResponder stepResponderRead3 e None in
  Handshake_ReadFlight m3 (mkHandshake (Some st) roleResponder stepResponderRead3 e None) =
    (if decide (may_complete h st') then (completed h st' c d, Ok tt) else (failed h, Err ErrHandshake)).
Proof.
  intros Hr Hl. cbv zeta. unfold Handshake_ReadFlight. sm_run. cbn [hState hStep flightMessage].
  unfold HandshakeFinish_UnmarshalBinary. rewrite Hl, Z.eqb_refl. cbn [negb]. rewrite bind_Ok_l. cbn [hfNoisePayload].
  rewrite Hl. cbn [negb Z.eqb Pos.eqb]. rewrite Hr. sm_run. rewrite sm_bind_run.
  destruct (complete_result (set_state st' (mkHandshake (Some st) roleResponder stepResponderRead3 e None)) st' c d)
    as [[-> Hm]|[-> Hm]]; [by rewrite decide_False|by rewrite decide_True].
Qed.

End handshake.

(** ** Properties *)

(** C19: Over any calls with any input the handshake's step never goes back, completed and
    failed are final, no result is given before completion, and a completed handshake has a
    result with 32-byte keys and a peer key equal to the pin when one was set. *)
Theorem handshake_one_way {N : Noise} role static expected random prologue h0 calls more :
  newHandshake role static expected random prologue = Ok h0 →
  let h := handshake_run calls h0 in
  let h' := handshake_run more h in
  handshake_inv h ∧ hRole h = role ∧ (rank (hStep h) ≤ rank (hStep h'))%nat ∧
  (hStep h = stepComplete ∨ hStep h = stepFailed → h' = h) ∧
  (Handshake_Complete h = false → Handshake_Result h = Err ErrHandshake) ∧
  (Handshake_Complete h = true →
   ∃ r, Handshake_Result h = Ok r ∧ zlen (hrSessionID r) = 16 ∧ zlen (hrSendKey r) = KeySize ∧
     zlen (hrReceiveKey r) = KeySize ∧ (expected = [] ∨ hrPeerStatic r = expected)).
Proof.
  intros Hn. cbv zeta. apply newHandshake_inv in Hn as (Hinv & Hro & He & _).
  destruct (handshake_run_inv calls h0 Hinv) as (Hi & Hro' & He' & _). set (h := handshake_run calls h0) in *.
  destruct (handshake_run_inv more h Hi) as (_ & _ & _ & Hr). split; [done|]. split; [congruence|]. split; [done|]. split; [|split].
  - intros Hs. apply handshake_stopped. destruct Hi as [_ Hi]. destruct Hs as [Hs|Hs]; rewrite Hs in Hi; apply Hi.
  - unfold Handshake_Result. by intros ->.
  - unfold Handshake_Result. destruct Hi as [_ Hi]. unfold Handshake_Complete. destruct (hStep h); try done. intros _.
    destruct Hi as (_ & r & -> & H1 & H2 & H3 & _ & H5). exists r. rewrite He', He in H5. by split_and!.
Qed.

Lemma validate_keypair {N : Noise} k : StaticKey_validate k = Ok tt → keypair_valid (StaticKey_noiseKey k).
Proof.
  unfold StaticKey_validate. destruct (_ || _); [done|]. unfold LoadStaticKey. destruct (_ =? noiseKeySize); [cbn [negb]|done].
  destruct (noise_GenerateKeypair (skPrivate k)) as [[private public]|] eqn:Hg; [|done].
  unfold staticKeyFromPair. cbn [dhPrivate dhPublic]. destruct (_ || _) eqn:Hl; [done|].
  apply orb_false_iff in Hl as [_ Hl%negb_false_iff%Z.eqb_eq]. rewrite !copy_array32, !bind_Ok_l, (array32_id public) by done.
  unfold ConstantTimeCompare. cbn [skPublic]. case_bool_decide as Heq; [|done]. intros _. exists private.
  cbn [StaticKey_noiseKey dhPrivate dhPublic]. by rewrite <- Heq.
Qed.

(** C17: Initiator and responder that exchange the three flights both complete when each one's
    pin is absent or is the other's static key, with the same session identifier, crossed
    traffic keys and each other's static key; a wrong pin makes the side that has it fail. *)
Theorem handshake_exchange {N : Noise} {L : NoiseLaws} sI sR eI eR rI rR hI hR :
  zlen (skPublic sI) = 32 → zlen (skPublic sR) = 32 → 32 ≤ zlen rI → 32 ≤ zlen rR →
  NewInitiatorHandshake sI eI rI = Ok hI → NewResponderHandshake sR eR rR = Ok hR →
  let '(hI', hR', o) := exchange hI hR in
  if decide (eI = [] ∨ eI = skPublic sR)
  then if decide (eR = [] ∨ eR = skPublic sI)
       then o = Ok tt ∧ ∃ resI resR, Handshake_Result hI' = Ok resI ∧ Handshake_Result hR' = Ok resR ∧
              HandshakeResult_Secrets resR =
                mkHandshakeSecrets (hrSessionID resI) (hrReceiveKey resI) (hrSendKey resI) ∧
              hrPeerStatic resI = skPublic sR ∧ hrPeerStatic resR = skPublic sI
       else o = Err ErrHandshake ∧ Handshake_Complete hI' = true ∧ hStep hR' = stepFailed
  else o = Err ErrHandshake ∧ hStep hI' = stepFailed ∧ Handshake_Complete hR' = false.
Proof.
  intros HpI HpR HrI HrR HI HR.
  apply newHandshake_inv in HI as (_ & _ & _ & _ & _ & HvI%validate_keypair & stI & HstI & ->).
  apply newHandshake_inv in HR as (_ & _ & _ & _ & _ & HvR%validate_keypair & stR & HstR & ->).
  destruct (xx_complete _ _ _ _ _ _ _ HvI HvR HrI HrR HstI HstR) as
    (sI1 & sI2 & sI3 & sR1 & sR2 & sR3 & m1 & m2 & m3 & cI & dI & cR & dR & W1 & L1 & R1 & W2 & L2 & R2 & W3 & L3 & R3 &
     Kc & Kd & PI & PR & HB & HB0).
  unfold exchange. cbn [is_initiator].
  destruct (write1 stI sI1 m1 eI W1 L1) as (w1 & -> & F1).
  rewrite (read_early _ _ _ _ _ _ stepResponderWrite2 _ F1 R1) by auto.
  destruct (write2 sR1 sR2 m2 eR W2 L2) as (w2 & -> & F2).
  rewrite (read_early _ _ _ _ _ _ stepInitiatorWrite3 _ F2 R2) by auto.
  rewrite (write3 _ _ _ _ _ _ W3 L3). cbv zeta.
  destruct (decide (eI = [] ∨ eI = skPublic sR)) as [HeI|HeI].
  2:{ rewrite decide_False; [done|]. unfold may_complete. cbn [hExpectedPeer]. rewrite PI.
      intros (_ & [?|?] & _); apply HeI; auto. }
  rewrite decide_True by (unfold may_complete; cbn [hExpectedPeer]; rewrite PI; split; [done|]; split; [destruct HeI; auto|done]).
  rewrite (read3 _ _ _ _ _ _ R3 L3). cbv zeta.
  destruct (decide (eR = [] ∨ eR = skPublic sI)) as [HeR|HeR].
  2:{ rewrite decide_False; [done|]. unfold may_complete. cbn [hExpectedPeer]. rewrite PR.
      intros (_ & [?|?] & _); apply HeR; auto. }
  rewrite decide_True by (unfold may_complete; cbn [hExpectedPeer]; rewrite PR, <- HB; split; [done|]; split; [destruct HeR; auto|done]).
  split; [done|]. eexists _, _. split; [reflexivity|]. split; [reflexivity|].
  unfold HandshakeResult_Secrets. cbn [hRole hrSessionID hrSendKey hrReceiveKey hrPeerStatic].
  rewrite HB, Kc, Kd. done.
Qed.

(** ** A concrete instance

    The XX message pattern without the cryptography: a static key is its own
    public key, flights carry the keys in the clear, the cipher keys are hashes of
    the transcript. *)
Record ToyNoise := mkToyNoise {
  tnInitiator : bool; tnStep : nat; tnStatic : list byte; tnEphemeral : list byte; tnPeer : list byte;
  tnTranscript : list byte;
}.

Definition toy_cipher (transcript : list byte) (label : Z) : list byte := sha256.Sum256 (transcript ++ [to_byte label]).

Definition toy_write (s : ToyNoise) : ToyNoise * option (list byte * option (list byte) * option (list byte)) :=
  let next m := mkToyNoise (tnInitiator s) (S (tnStep s)) (tnStatic s) (tnEphemeral s) (tnPeer s) (tnTranscript s ++ m) in
  match tnInitiator s, tnStep s with
  | true, 0%nat =>
      if 32 <=? zlen (tnEphemeral s) then let m := take 32 (tnEphemeral s) in (next m, Some (m, None, None)) else (s, None)
  | false, 1%nat =>
      if 32 <=? zlen (tnEphemeral s)
      then let m := take 32 (tnEphemeral s) ++ tnStatic s ++ make_bytes 32 in (next m, Some (m, None, None)) else (s, None)
  | true, 2%nat =>
      let m := tnStatic s ++ make_bytes 32 in
      (next m, Some (m, Some (toy_cipher (tnTranscript s ++ m) 1), Some (toy_cipher (tnTranscript s ++ m) 2)))
  | _, _ => (s, None)
  end.

Definition toy_read (s : ToyNoise) (m : list byte)
    : ToyNoise * option (list byte * option (list byte) * option (list byte)) :=
  let next peer := mkToyNoise (tnInitiator s) (S (tnStep s)) (tnStatic s) (tnEphemeral s) peer (tnTranscript s ++ m) in
  match tnInitiator s, tnStep s with
  | false, 0%nat => (next [], Some ([], None, None))
  | true, 1%nat => (next (take 32 (drop 32 m)), Some ([], None, None))
  | false, 2%nat =>
      (next (take 32 m),
       Some ([], Some (toy_cipher (tnTranscript s ++ m) 1), Some (toy_cipher (tnTranscript s ++ m) 2)))
  | _, _ => (s, None)
  end.

Definition toy_noise : Noise := {|
  noise_state := ToyNoise;
  noise_cipher := list byte;
  noise_GenerateKeypair random :=
    if 32 <=? zlen random then Some (mkDHKey (take 32 random) (take 32 random)) else None;
  noise_NewHandshakeState initiator prologue k random := Some (mkToyNoise initiator 0 (dhPublic k) random [] prologue);
  noise_WriteMessage := toy_write;
  noise_ReadMessage := toy_read;
  noise_PeerStatic := tnPeer;
  noise_ChannelBinding := tnTranscript;
  noise_UnsafeKey c := c;
|}.

Lemma toy_noise_laws : @NoiseLaws toy_noise.
Proof.
  split. intros prologue kI kR rI rR sI sR [pI HI] [pR HR] HrI HrR [= <-] [= <-].
  assert (∀ k p, @noise_GenerateKeypair toy_noise (dhPrivate k) = Some (mkDHKey p (dhPublic k)) → length (dhPublic k) = 32%nat) as Hlen.
  { intros k p Hg. cbn in Hg. destruct (32 <=? zlen (dhPrivate k)) eqn:E; [|done]. apply Z.leb_le in E. injection Hg as _ <-.
    rewrite length_take. unfold zlen in E. lia. }
  apply Hlen in HI, HR.
  set (m1 := take 32 rI). set (m2 := take 32 rR ++ dhPublic kR ++ make_bytes 32). set (m3 := dhPublic kI ++ make_bytes 32).
  set (t1 := prologue ++ m1). set (t2 := t1 ++ m2). set (t3 := t2 ++ m3).
  exists (mkToyNoise true 1 (dhPublic kI) rI [] t1), (mkToyNoise true 2 (dhPublic kI) rI (take 32 (drop 32 m2)) t2),
    (mkToyNoise true 3 (dhPublic kI) rI (take 32 (drop 32 m2)) t3),
    (mkToyNoise false 1 (dhPublic kR) rR [] t1), (mkToyNoise false 2 (dhPublic kR) rR [] t2),
    (mkToyNoise false 3 (dhPublic kR) rR (take 32 m3) t3), m1, m2, m3,
    (toy_cipher t3 1), (toy_cipher t3 2), (toy_cipher t3 1), (toy_cipher t3 2).
  cbn [noise_WriteMessage noise_ReadMessage noise_PeerStatic noise_ChannelBinding noise_UnsafeKey toy_noise].
  assert (length (take 32 rI) = 32%nat ∧ length (take 32 rR) = 32%nat) as [LI LR].
  { rewrite !length_take. unfold zlen in *. lia. }
  unfold toy_write, toy_read. cbn [tnInitiator tnStep tnEphemeral tnStatic tnPeer tnTranscript].
  rewrite !(proj2 (Z.leb_le _ _)) by done.
  assert (zlen m2 = 96 ∧ zlen m3 = 64 ∧ take 32 (drop 32 m2) = dhPublic kR ∧ take 32 m3 = dhPublic kI) as (E1 & E2 & E3 & E4).
  { unfold m2, m3, zlen. rewrite !length_app, LR, HI, HR. change (length (make_bytes 32)) with 32%nat.
    split; [done|]. split; [done|]. rewrite drop_app_length', take_app_length', take_app_length' by lia. done. }
  split; [done|]. split; [unfold m1, zlen; by rewrite LI|]. do 2 (split; [done|]). split; [done|]. do 2 (split; [done|]).
  split; [done|]. split; [done|]. do 2 (split; [done|]). split; [done|]. split; [done|]. split; [done|].
  unfold t3, t2, t1, m1. intros Hn. apply (f_equal length) in Hn. rewrite !length_app, LI in Hn. cbn in Hn. lia.
Qed.

Definition ex_static (b : Z) : StaticKey := mkStaticKey (replicate 32 (to_byte b)) (replicate 32 (to_byte b)).

Definition ex_initiator : @Handshake toy_noise :=
  @mkHandshake toy_noise (Some (mkToyNoise true 0 (replicate 32 (to_byte 7)) (make_bytes 32) [] dgpv1)) roleInitiator
    stepInitiatorWrite1 (replicate 32 (to_byte 9)) None.
Definition ex_responder : @Handshake toy_noise :=
  @mkHandshake toy_noise (Some (mkToyNoise false 0 (replicate 32 (to_byte 9)) (make_bytes 40) [] dgpv1)) roleResponder
    stepResponderRead1 [] None.

Lemma ex_initiator_new :
  @NewInitiatorHandshake toy_noise (ex_static 7) (replicate 32 (to_byte 9)) (make_bytes 32) = Ok ex_initiator.
Proof. reflexivity. Qed.
Lemma ex_responder_new : @NewResponderHandshake toy_noise (ex_static 9) [] (make_bytes 40) = Ok ex_responder.
Proof. reflexivity. Qed.

Lemma handshake_exchange_witness :
  let '(hI', hR', o) := exchange ex_initiator ex_responder in o = Ok tt.
Proof.
  pose proof (@handshake_exchange toy_noise toy_noise_laws (ex_static 7) (ex_static 9) (replicate 32 (to_byte 9)) []
    (make_bytes 32) (make_bytes 40) ex_initiator ex_responder eq_refl eq_refl ltac:(decide_closed) ltac:(decide_closed)
    ex_initiator_new ex_responder_new) as Hx.
  destruct (exchange ex_initiator ex_responder) as [[hI' hR'] o].
  rewrite decide_True in Hx by (right; reflexivity). rewrite decide_True in Hx by (left; reflexivity). exact (proj1 Hx).
Defined.

Lemma handshake_one_way_witness :
  handshake_inv (handshake_run [CallWriteFlight; CallReadFlight []] ex_initiator).
Proof.
  exact (proj1 (@handshake_one_way toy_noise roleInitiator (ex_static 7) (replicate 32 (to_byte 9)) (make_bytes 32) dgpv1
    ex_initiator [CallWriteFlight; CallReadFlight []] [] ex_initiator_new)).
Defined.
