(* ===== verification/Transport.v ===== *)
(** * tcp.go, transport.go: frames over a byte stream

    A TCP connection is, for the reader, the list of the byte slices successive
    Read calls return, ended by an error, and for the writer the list of byte
    counts successive Write calls accept.  The lanes and deadlines only decide
    whether an operation starts and which error it reports; the observations of
    the context made during one call are the record [CtxView].

    The theorems show that whatever the segmentation, a written sequence of frames
    is read back as the same sequence, that reading never panics and consumes
    exactly the octets of the frame it returns, and that the two size checks of
    the transport never fire. *)

From S2P Require Import Prelude Wire Header Frame Crypto.
Import wire.

Local Open Scope Z_scope.
Local Opaque header_layout.

Definition minFrameSize : Z := HeaderSize.

(** What one call sees of its context: the error when it tries the lane, the
    error that ended the wait for the lane, the error when the watcher starts, and
    the error when an I/O error is reported. *)
Record CtxView := mkCtxView {
  ctxBefore : option error;
  ctxLaneDone : option error;
  ctxAtWatch : option error;
  ctxAtError : option error;
}.
Definition ctxLive : CtxView := mkCtxView None None None None.

(** An error of net.Conn: [net.ErrClosed] or another one. *)
Inductive ConnError := NetErrClosed | NetError (e : error).

Definition acquireLane (ctx : CtxView) : outcome unit :=
  match ctxBefore ctx with
  | Some e => Err e
  | None => match ctxLaneDone ctx with Some e => Err e | None => Ok tt end
  end.

Definition watchContext (ctx : CtxView) : outcome unit :=
  match ctxAtWatch ctx with Some e => Err e | None => Ok tt end.

Definition transportError (ctx : CtxView) (err : ConnError) : error :=
  match ctxAtError ctx with
  | Some e => e
  | None => match err with NetErrClosed => ErrTransportClosed | NetError e => e end
  end.

(** ** Reading *)

(** The slices Read will return, and the error that follows them. *)
Record ReadSide := mkReadSide { rdSegments : list (list byte); rdEnd : ConnError }.

Definition stream_of (r : ReadSide) : list byte := concat (rdSegments r).

(** io.ReadFull of [need] more bytes: one Read after the other until the buffer
    is full; a Read that offers more than is needed leaves the rest. *)
Fixpoint ReadFull_loop (segments : list (list byte)) (end_ : ConnError) (got : list byte) (need : Z)
    : list (list byte) * (list byte + ConnError) :=
  if need <=? 0 then (segments, inl got) else
  match segments with
  | [] =>
      ([], inr (match end_ with
                | NetError EOF => if bool_decide (got = []) then end_ else NetError ErrUnexpectedEOF
                | _ => end_
                end))
  | segment :: rest =>
      if zlen segment <=? need then ReadFull_loop rest end_ (got ++ segment) (need - zlen segment)
      else (drop (Z.to_nat need) segment :: rest, inl (got ++ take (Z.to_nat need) segment))
  end.

Definition ReadFull (r : ReadSide) (n : Z) : ReadSide * (list byte + ConnError) :=
  let '(segments, res) := ReadFull_loop (rdSegments r) (rdEnd r) [] n in
  (mkReadSide segments (rdEnd r), res).

Definition ReadFrame (ctx : CtxView) (r : ReadSide) : ReadSide * outcome Frame :=
  match acquireLane ctx with
  | Err e => (r, Err e)
  | Panic => (r, Panic)
  | Ok _ =>
  match watchContext ctx with
  | Err e => (r, Err e)
  | Panic => (r, Panic)
  | Ok _ =>
  match ReadFull r HeaderSize with
  | (r, inr err) => (r, Err (transportError ctx err))
  | (r, inl headerWire) =>
  match Header_UnmarshalBinary headerWire with
  | Err e => (r, Err e)
  | Panic => (r, Panic)
  | Ok header =>
      let frameSize := FrameSize header in
      if frameSize <? minFrameSize then (r, Err ErrTransportFrameTooShort) else
      if MaxFrameSize <? frameSize then (r, Err ErrTransportFrameTooLarge) else
      match copy_to (make_bytes frameSize) 0 frameSize headerWire with
      | Err e => (r, Err e)
      | Panic => (r, Panic)
      | Ok wire =>
      match slice_from wire HeaderSize with
      | Err e => (r, Err e)
      | Panic => (r, Panic)
      | Ok body =>
      match ReadFull r (zlen body) with
      | (r, inr err) => (r, Err (transportError ctx err))
      | (r, inl body) =>
          (r, wire ← copy_to wire HeaderSize frameSize body; Frame_UnmarshalBinary wire)
      end end end end end end end.

(** ** Writing *)

(** The byte counts successive Write calls return with a nil error, then the
    count and the error of the call that fails. *)
Record WriteSide := mkWriteSide { wrCounts : list Z; wrFailCount : Z; wrEnd : ConnError }.

Fixpoint write_loop (ctx : CtxView) (failCount : Z) (end_ : ConnError) (counts : list Z) (wire : list byte)
    : list Z * list byte * outcome unit :=
  if zlen wire =? 0 then (counts, [], Ok tt) else
  match counts with
  | [] =>
      match slice wire 0 failCount with
      | Ok sent => ([], sent, Err (transportError ctx end_))
      | _ => ([], [], Panic)
      end
  | n :: counts =>
      if n =? 0 then (counts, [], Err ErrShortWrite) else
      match slice wire 0 n, slice_from wire n with
      | Ok sent, Ok rest =>
          let '(counts, out, o) := write_loop ctx failCount end_ counts rest in (counts, sent ++ out, o)
      | _, _ => (counts, [], Panic)
      end
  end.

(** The writer's next state, the octets that reached the stream, the result. *)
Definition WriteFrame (ctx : CtxView) (w : WriteSide) (frame : Frame) : WriteSide * list byte * outcome unit :=
  match Frame_MarshalBinary frame with
  | Err e => (w, [], Err e)
  | Panic => (w, [], Panic)
  | Ok wire =>
      if zlen wire <? minFrameSize then (w, [], Err ErrTransportFrameTooShort) else
      if MaxFrameSize <? zlen wire then (w, [], Err ErrTransportFrameTooLarge) else
      match acquireLane ctx with
      | Err e => (w, [], Err e)
      | Panic => (w, [], Panic)
      | Ok _ =>
      match watchContext ctx with
      | Err e => (w, [], Err e)
      | Panic => (w, [], Panic)
      | Ok _ =>
          let '(counts, out, o) := write_loop ctx (wrFailCount w) (wrEnd w) (wrCounts w) wire in
          (mkWriteSide counts (wrFailCount w) (wrEnd w), out, o)
      end end
  end.

(** Close: an already closed connection is reported as ErrTransportClosed. *)
Definition TCPTransport_Close (err : option ConnError) : outcome unit :=
  match err with
  | None => Ok tt
  | Some NetErrClosed => Err ErrTransportClosed
  | Some (NetError e) => Err e
  end.

(** ** One direction shared by several callers

    The lane (a channel of capacity one), the deadline of the socket in this
    direction, and each caller with the goroutine [watchContext] starts for it. *)
Inductive Watcher :=
  | WSelect          (* in the select *)
  | WCancelled       (* took the ctx.Done branch, deadline not yet set *)
  | WExited.         (* closed exited *)

Inductive CallerPc :=
  | PIdle
  | PLane            (* in the select of acquireLane *)
  | POwner           (* has the lane, about to call watchContext *)
  | PIO (w : Watcher)    (* reading or writing *)
  | PStop (w : Watcher)  (* closed done, waiting for exited *)
  | PClear           (* received from exited, about to clear the deadline *)
  | PRelease         (* about to receive from the lane *)
  | PReturned.

Record LaneState := mkLaneState {
  lnBusy : bool;
  lnDeadline : bool;
  lnCancelled : nat → bool;
  lnPc : nat → CallerPc;
}.

Definition lane_init : LaneState := mkLaneState false false (λ _, false) (λ _, PIdle).

(** The two lanes of a transport, free; a nil connection is a panic. *)
Definition NewTCPTransport {A} (conn : option A) : outcome (LaneState * LaneState) :=
  match conn with None => Panic | Some _ => Ok (lane_init, lane_init) end.

Definition set_pc (i : nat) (pc : CallerPc) (s : LaneState) : LaneState :=
  mkLaneState (lnBusy s) (lnDeadline s) (lnCancelled s) (λ j, if decide (j = i) then pc else lnPc s j).
Definition set_busy (b : bool) (s : LaneState) : LaneState :=
  mkLaneState b (lnDeadline s) (lnCancelled s) (lnPc s).
Definition set_deadline (b : bool) (s : LaneState) : LaneState :=
  mkLaneState (lnBusy s) b (lnCancelled s) (lnPc s).
Definition set_cancelled (i : nat) (s : LaneState) : LaneState :=
  mkLaneState (lnBusy s) (lnDeadline s) (λ j, if decide (j = i) then true else lnCancelled s j) (lnPc s).

(** The caller still runs its I/O, or has closed done. *)
Definition with_watcher (pc : CallerPc) (w : Watcher) : option CallerPc :=
  match pc with PIO _ => Some (PIO w) | PStop _ => Some (PStop w) | _ => None end.
Definition watcher_of (pc : CallerPc) : option Watcher :=
  match pc with PIO w | PStop w => Some w | _ => None end.

Inductive lane_step (i : nat) (s : LaneState) : LaneState → Prop :=
  | lane_cancel : lane_step i s (set_cancelled i s)
  | lane_enter_err : lnPc s i = PIdle → lnCancelled s i = true → lane_step i s (set_pc i PReturned s)
  | lane_enter : lnPc s i = PIdle → lnCancelled s i = false → lane_step i s (set_pc i PLane s)
  | lane_send : lnPc s i = PLane → lnBusy s = false → lane_step i s (set_busy true (set_pc i POwner s))
  | lane_wait_err : lnPc s i = PLane → lnCancelled s i = true → lane_step i s (set_pc i PReturned s)
  | lane_watch_err : lnPc s i = POwner → lnCancelled s i = true → lane_step i s (set_pc i PRelease s)
  | lane_watch : lnPc s i = POwner → lnCancelled s i = false → lane_step i s (set_pc i (PIO WSelect) s)
  | lane_watcher_done pc' :
      watcher_of (lnPc s i) = Some WSelect → lnCancelled s i = true →
      with_watcher (lnPc s i) WCancelled = Some pc' → lane_step i s (set_pc i pc' s)
  | lane_watcher_deadline pc' :
      watcher_of (lnPc s i) = Some WCancelled → with_watcher (lnPc s i) WExited = Some pc' →
      lane_step i s (set_deadline true (set_pc i pc' s))
  | lane_watcher_stop : lnPc s i = PStop WSelect → lane_step i s (set_pc i (PStop WExited) s)
  | lane_io_returns w : lnPc s i = PIO w → lane_step i s (set_pc i (PStop w) s)
  | lane_exited : lnPc s i = PStop WExited → lane_step i s (set_pc i PClear s)
  | lane_clear : lnPc s i = PClear → lane_step i s (set_deadline false (set_pc i PRelease s))
  | lane_release : lnPc s i = PRelease → lane_step i s (set_busy false (set_pc i PReturned s)).

Definition lane_any_step (s s' : LaneState) : Prop := ∃ i, lane_step i s s'.

(** ** Facts: reading *)

(** The error of a read that got [got] octets and needs more. *)
Definition short_read (end_ : ConnError) (got : list byte) : ConnError :=
  match end_ with
  | NetError EOF => if bool_decide (got = []) then end_ else NetError ErrUnexpectedEOF
  | _ => end_
  end.

(** ReadFull takes the first [need] octets of the stream, however they are cut,
    and fails with the connection's error when there are fewer. *)
Lemma ReadFull_loop_spec segments end_ got need :
  0 ≤ need →
  (need ≤ zlen (concat segments) ∧
   ∃ segments' data, ReadFull_loop segments end_ got need = (segments', inl (got ++ data)) ∧
     zlen data = need ∧ concat segments = data ++ concat segments') ∨
  (zlen (concat segments) < need ∧
   ReadFull_loop segments end_ got need = ([], inr (short_read end_ (got ++ concat segments)))).
Proof.
  revert got need. induction segments as [|segment rest IH]; intros got need Hneed; cbn [ReadFull_loop concat].
  all: destruct (need <=? 0) eqn:Hn.
  1, 3: left; split; [etrans; [|apply zlen_nonneg]; lia|];
    eexists _, []; rewrite app_nil_r; cbn; split; [done|]; split; [rewrite zlen_nil; lia|done].
  - right. split; [rewrite zlen_nil; lia|]. by rewrite app_nil_r.
  - pose proof (zlen_nonneg segment). destruct (zlen segment <=? need) eqn:Hs.
    + destruct (IH (got ++ segment) (need - zlen segment)) as [(? & s' & data & -> & ? & Hc)|(? & ->)];
        [lia| |]; rewrite zlen_app, <- ?app_assoc.
      * left. split; [lia|]. exists s', (segment ++ data).
        rewrite zlen_app, Hc. split_and!; [by rewrite <- ?app_assoc|lia|by rewrite <- ?app_assoc].
      * right. split; [lia|done].
    + left. rewrite zlen_app. pose proof (zlen_nonneg (concat rest)). split; [lia|].
      eexists _, (take (Z.to_nat need) segment). split; [done|]. split; [apply zlen_take; lia|].
      cbn [concat]. by rewrite app_assoc, take_drop.
Qed.

Lemma ReadFull_spec r n :
  0 ≤ n →
  (n ≤ zlen (stream_of r) ∧
   ∃ r', ReadFull r n = (r', inl (take (Z.to_nat n) (stream_of r))) ∧
     stream_of r' = drop (Z.to_nat n) (stream_of r) ∧ rdEnd r' = rdEnd r) ∨
  (zlen (stream_of r) < n ∧
   ReadFull r n = (mkReadSide [] (rdEnd r), inr (short_read (rdEnd r) (stream_of r)))).
Proof.
  unfold ReadFull, stream_of. intros Hn.
  destruct (ReadFull_loop_spec (rdSegments r) (rdEnd r) [] n Hn) as [(? & s' & d & -> & Hl & Hc)|(? & ->)];
    [left|by right].
  split; [done|]. assert (Z.to_nat n = length d) as -> by (unfold zlen in Hl; lia).
  rewrite Hc, take_app_length, drop_app_length. by eexists.
Qed.

(** What reading a frame does to the octets of the stream: the rest of the stream
    and the result. *)
Definition read_frame_spec (ctx : CtxView) (end_ : ConnError) (stream : list byte) : list byte * outcome Frame :=
  if zlen stream <? HeaderSize then ([], Err (transportError ctx (short_read end_ stream))) else
  match Header_UnmarshalBinary (take 40 stream) with
  | Err e => (drop 40 stream, Err e)
  | Panic => (drop 40 stream, Panic)
  | Ok header =>
      let size := Z.to_nat (FrameSize header) in
      if zlen stream <? FrameSize header
      then ([], Err (transportError ctx (short_read end_ (drop 40 stream))))
      else (drop size stream, Frame_UnmarshalBinary (take size stream))
  end.

Definition lane_open (ctx : CtxView) : Prop := acquireLane ctx = Ok tt ∧ watchContext ctx = Ok tt.

Lemma header_frame_size data h :
  Header_UnmarshalBinary data = Ok h → HeaderSize ≤ FrameSize h ≤ MaxFrameSize.
Proof.
  intros (Hok & Hv & _)%Header_UnmarshalBinary_inv. apply validateCommon_Ok in Hv as (_&_&Hs).
  split; [|done]. rewrite FrameSize_exact by done. pose proof (Header_ok_sizes h Hok).
  unfold AEADTagSize. destruct (hasAEADTag h); lia.
Qed.

(** The head is copied into the fresh buffer, the body after it. *)
Lemma copy_head head n :
  zlen head = HeaderSize → HeaderSize ≤ n →
  ∃ b, copy_to (make_bytes n) 0 n head = Ok (head ++ b) ∧ zlen b = n - HeaderSize.
Proof.
  intros Hh Hb. unfold HeaderSize in *.
  assert (zlen (make_bytes n) = n) as Hm by (unfold zlen, make_bytes; rewrite length_replicate; lia).
  rewrite copy_to_put by lia.
  destruct (split_at (make_bytes n) 40) as (a & b & Hab & Ha); [lia|].
  rewrite Hab, zlen_app in Hm. rewrite Hab, put_here by lia. exists b. split; [done|lia].
Qed.

Lemma copy_body (head b body : list byte) n :
  zlen head = HeaderSize → zlen b = zlen body → n = HeaderSize + zlen body →
  copy_to (head ++ b) HeaderSize n body = Ok (head ++ body).
Proof.
  intros Hh Hb ->. rewrite copy_to_put by (rewrite ?zlen_app; lia).
  rewrite put_skip, Hh, Z.sub_diag, put_all by lia. done.
Qed.

Lemma ReadFrame_stream ctx r :
  lane_open ctx →
  let '(r', o) := ReadFrame ctx r in
  (stream_of r', o) = read_frame_spec ctx (rdEnd r) (stream_of r) ∧ rdEnd r' = rdEnd r.
Proof.
  intros [Hl Hw]. unfold ReadFrame, read_frame_spec. rewrite Hl, Hw.
  destruct (ReadFull_spec r HeaderSize) as [(Hlen & r1 & -> & Hs1 & He1)|(Hlen & ->)]; [done| |].
  2: { by rewrite (proj2 (Z.ltb_lt _ _)). }
  rewrite (proj2 (Z.ltb_ge _ _)) by done. change (Z.to_nat HeaderSize) with 40%nat in *.
  destruct (Header_UnmarshalBinary (take 40 (stream_of r))) as [h|e|] eqn:Hh; [|by rewrite <- Hs1..].
  pose proof (header_frame_size _ _ Hh) as [Hmin Hmax].
  rewrite (proj2 (Z.ltb_ge _ _)) by done. rewrite (proj2 (Z.ltb_ge _ _)) by done.
  assert (zlen (take 40 (stream_of r)) = HeaderSize) as H40 by (by apply (zlen_take _ 40)).
  destruct (copy_head (take 40 (stream_of r)) (FrameSize h)) as (b & -> & Hb); [done..|].
  rewrite slice_from_skip by done.
  assert (zlen (stream_of r1) = zlen (stream_of r) - HeaderSize) as Hr1.
  { rewrite Hs1. by rewrite (zlen_drop _ 40). }
  destruct (ReadFull_spec r1 (zlen b)) as [(Hlen2 & r2 & -> & Hs2 & He2)|(Hlen2 & ->)]; [apply zlen_nonneg| |].
  2: { rewrite (proj2 (Z.ltb_lt _ _)) by lia. by rewrite He1, Hs1. }
  rewrite (proj2 (Z.ltb_ge _ _)) by lia.
  assert (zlen (take (Z.to_nat (zlen b)) (stream_of r1)) = zlen b) as Hbody
    by (apply zlen_take; pose proof (zlen_nonneg b); lia).
  rewrite copy_body, bind_Ok_l by lia. rewrite Hs2, Hs1, He2. split; [|done].
  rewrite drop_drop, take_take_drop.
  by replace (40 + Z.to_nat (zlen b))%nat with (Z.to_nat (FrameSize h)) by (unfold HeaderSize in *; lia).
Qed.

(** A frame the decoder can produce. *)
Definition frame_decodable (f : Frame) : Prop :=
  Frame_ok f ∧ tag_canonical f ∧ Frame_ValidateReceive f = Ok tt.

Lemma read_frame_layout ctx end_ f rest :
  frame_decodable f → read_frame_spec ctx end_ (frame_layout f ++ rest) = (rest, Ok f).
Proof.
  intros (Hok & Hc & Hv). pose proof Hv as [Hcm Hl]%Frame_ValidateReceive_Ok.
  pose proof (frame_layout_length f Hok Hl) as Hlen. destruct Hok as [Hh Ht].
  pose proof (header_layout_length _ (to_wire_ok _ Hh)) as Hhl. unfold HeaderSize in Hhl.
  assert (take 40 (frame_layout f ++ rest) = header_layout (to_wire (frHeader f)) ++ []) as Htake.
  { unfold frame_layout. rewrite <- app_assoc, take_app_le, take_ge, app_nil_r; [done|unfold zlen in Hhl; lia..]. }
  unfold read_frame_spec. rewrite Htake, Header_UnmarshalBinary_layout by done.
  assert (HeaderSize ≤ FrameSize (frHeader f)).
  { eapply (header_frame_size (header_layout (to_wire (frHeader f)) ++ [])), Header_UnmarshalBinary_layout; done. }
  rewrite zlen_app, Hlen. pose proof (zlen_nonneg rest).
  rewrite !(proj2 (Z.ltb_ge _ _)) by lia.
  replace (Z.to_nat (FrameSize (frHeader f))) with (length (frame_layout f)) by (unfold zlen in Hlen; lia).
  by rewrite drop_app_length, take_app_length, Frame_UnmarshalBinary_layout.
Qed.

Lemma read_frame_spec_inv ctx end_ stream rest f :
  read_frame_spec ctx end_ stream = (rest, Ok f) → frame_decodable f ∧ stream = frame_layout f ++ rest.
Proof.
  unfold read_frame_spec. destruct (zlen stream <? HeaderSize); [done|].
  destruct (Header_UnmarshalBinary _) as [h| |]; [|done..]. destruct (zlen stream <? _); [done|].
  intros [= <- (? & ? & ? & Hd)%Frame_UnmarshalBinary_inv].
  split; [done|]. by rewrite <- Hd, take_drop.
Qed.

Lemma read_frame_spec_no_panic ctx end_ stream : (read_frame_spec ctx end_ stream).2 ≠ Panic.
Proof.
  unfold read_frame_spec. destruct (zlen stream <? HeaderSize); [done|].
  pose proof (Header_UnmarshalBinary_no_panic (take 40 stream)).
  destruct (Header_UnmarshalBinary _) as [h| |]; [|done..]. destruct (zlen stream <? _); [done|].
  apply Frame_UnmarshalBinary_no_panic.
Qed.

(** ** Facts: writing *)

Lemma slice_cut {A} (l : list A) n :
  (∃ a b, l = a ++ b ∧ zlen a = n ∧ slice l 0 n = Ok a ∧ slice_from l n = Ok b) ∨
  slice l 0 n = Panic ∧ ¬ 0 ≤ n ≤ zlen l.
Proof.
  destruct (decide (0 ≤ n ≤ zlen l)) as [Hn|Hn].
  - left. destruct (split_at l n Hn) as (a & b & -> & Ha). exists a, b.
    split_and!; [done..|by apply slice_here|by apply slice_from_skip].
  - right. split; [|done]. unfold slice. destruct (_ && _) eqn:E; [lia|done].
Qed.

(** Whatever happens, a prefix of the octets is on the stream; a nil error means
    all of them are. *)
Lemma write_loop_prefix ctx failCount end_ counts wire counts' out o :
  write_loop ctx failCount end_ counts wire = (counts', out, o) →
  ∃ unsent, wire = out ++ unsent ∧ (o = Ok tt → unsent = []).
Proof.
  revert wire counts' out o. induction counts as [|n counts IH]; intros wire counts' out o; cbn [write_loop].
  all: destruct (zlen wire =? 0) eqn:Hz;
    [intros [= <- <- <-]; exists []; by apply Z.eqb_eq, zlen_0_nil in Hz as -> |].
  - destruct (slice_cut wire failCount) as [(a & b & -> & _ & -> & _)|[-> _]]; intros [= <- <- <-];
      [by exists b|by exists wire].
  - destruct (n =? 0); [intros [= <- <- <-]; by exists wire|].
    destruct (slice_cut wire n) as [(a & b & -> & _ & -> & ->)|[-> _]]; [|intros [= <- <- <-]; by exists wire].
    destruct (write_loop _ _ _ counts b) as [[c' out'] o'] eqn:Hw. intros [= <- <- <-].
    apply IH in Hw as (unsent & -> & Ho). exists unsent. by rewrite app_assoc.
Qed.

Lemma write_loop_errors ctx failCount end_ counts wire counts' out o :
  write_loop ctx failCount end_ counts wire = (counts', out, o) →
  ∀ e, o = Err e → e = ErrShortWrite ∧ 0 ∈ counts ∨ e = transportError ctx end_.
Proof.
  revert wire counts' out o. induction counts as [|n counts IH]; intros wire counts' out o; cbn [write_loop].
  all: destruct (zlen wire =? 0); [by intros [= <- <- <-] ? ?|].
  - destruct (slice wire 0 failCount); intros [= <- <- <-] ?; intros; simplify_eq; auto.
  - destruct (n =? 0) eqn:Hn; [intros [= <- <- <-] e [= <-]; left; split; [done|apply elem_of_cons; lia]|].
    destruct (slice wire 0 n), (slice_from wire n); try by intros [= <- <- <-] ? ?.
    destruct (write_loop _ _ _ counts _) as [[c' out'] o'] eqn:Hw. intros [= <- <- <-] e He.
    destruct (IH _ _ _ _ Hw e He) as [[-> Hin]|He']; [left; split; [done|by right]|by right].
Qed.

(** Positive counts that add up to the octets write them all. *)
Definition chunking (counts : list Z) (n : Z) : Prop :=
  Forall (λ c, 0 < c) counts ∧ foldr Z.add 0 counts = n.

Lemma write_loop_all ctx failCount end_ counts more wire :
  chunking counts (zlen wire) →
  write_loop ctx failCount end_ (counts ++ more) wire = (more, wire, Ok tt).
Proof.
  intros [Hpos Hsum]. revert wire Hsum. induction Hpos as [|n counts Hn Hpos IH]; cbn [foldr app]; intros wire Hsum.
  - symmetry in Hsum. apply zlen_0_nil in Hsum as ->. by destruct more.
  - assert (0 ≤ foldr Z.add 0 counts) by (clear -Hpos; induction Hpos; cbn; lia).
    cbn [write_loop]. rewrite !(proj2 (Z.eqb_neq _ _)) by lia.
    destruct (slice_cut wire n) as [(a & b & -> & Ha & -> & ->)|[_ Hc]]; [|lia].
    rewrite zlen_app in Hsum. by rewrite IH by lia.
Qed.

(** A frame the encoder accepts. *)
Definition frame_encodable (f : Frame) : Prop :=
  Frame_ok f ∧ tag_canonical f ∧ Frame_Validate f = Ok tt.

Lemma frame_encodable_decodable f : frame_encodable f → frame_decodable f.
Proof. intros (? & ? & ?). split_and!; [done..|by apply Frame_Validate_receive]. Qed.

Lemma WriteFrame_wire ctx w f :
  lane_open ctx → frame_encodable f →
  WriteFrame ctx w f =
    (let '(counts, out, o) := write_loop ctx (wrFailCount w) (wrEnd w) (wrCounts w) (frame_layout f) in
     (mkWriteSide counts (wrFailCount w) (wrEnd w), out, o)).
Proof.
  intros [Hl Hw] (Hok & Hc & Hv). unfold WriteFrame. rewrite Frame_MarshalBinary_layout, Hv, bind_Ok_l by done.
  pose proof (Frame_Validate_receive _ Hv) as [Hcm Hlen]%Frame_ValidateReceive_Ok.
  rewrite frame_layout_length by done.
  assert (HeaderSize ≤ FrameSize (frHeader f) ≤ MaxFrameSize).
  { eapply (header_frame_size (header_layout (to_wire (frHeader f)) ++ [])), Header_UnmarshalBinary_layout;
      [apply Hok|done]. }
  rewrite !(proj2 (Z.ltb_ge _ _)) by (unfold minFrameSize; lia). by rewrite Hl, Hw.
Qed.

(** The frames of a list written, and read, one after the other. *)
Fixpoint write_frames (ctx : CtxView) (w : WriteSide) (frames : list Frame) : WriteSide * list byte * outcome unit :=
  match frames with
  | [] => (w, [], Ok tt)
  | f :: frames =>
      match WriteFrame ctx w f with
      | (w, out, Ok _) => let '(w, out', o) := write_frames ctx w frames in (w, out ++ out', o)
      | res => res
      end
  end.

Fixpoint read_frames (ctx : CtxView) (n : nat) (r : ReadSide) : ReadSide * outcome (list Frame) :=
  match n with
  | O => (r, Ok [])
  | S n =>
      match ReadFrame ctx r with
      | (r, Ok f) => let '(r, o) := read_frames ctx n r in (r, cons f <$> o)
      | (r, Err e) => (r, Err e)
      | (r, Panic) => (r, Panic)
      end
  end.

Lemma write_frames_all ctx w frames counts more :
  lane_open ctx → Forall frame_encodable frames →
  Forall2 (λ f c, chunking c (zlen (frame_layout f))) frames counts → wrCounts w = concat counts ++ more →
  write_frames ctx w frames =
    (mkWriteSide more (wrFailCount w) (wrEnd w), concat (frame_layout <$> frames), Ok tt).
Proof.
  intros Hctx Henc Hc. revert w. induction Hc as [|f c frames counts Hf Hc IH]; intros w Hw; cbn [write_frames].
  - cbn in Hw. destruct w. by cbn in *; subst.
  - apply Forall_cons in Henc as [Hfe Henc]. rewrite WriteFrame_wire, Hw by done. cbn [concat].
    rewrite <- app_assoc, write_loop_all by done. by rewrite IH.
Qed.

Lemma read_frames_all ctx frames r rest :
  lane_open ctx → Forall frame_decodable frames → stream_of r = concat (frame_layout <$> frames) ++ rest →
  ∃ r', read_frames ctx (length frames) r = (r', Ok frames) ∧ stream_of r' = rest.
Proof.
  intros Hctx Hd. revert r. induction Hd as [|f frames Hf Hd IH]; intros r Hs; cbn [length read_frames].
  - by exists r.
  - cbn in Hs. rewrite <- app_assoc in Hs. pose proof (ReadFrame_stream ctx r Hctx) as Hr.
    rewrite Hs, read_frame_layout in Hr by done. destruct (ReadFrame ctx r) as [r1 o].
    destruct Hr as [[= Hs1 ->] _]. destruct (IH r1 Hs1) as (r' & -> & ?). by exists r'.
Qed.

(** ** Facts: lanes *)

Definition holds (pc : CallerPc) : bool :=
  match pc with POwner | PIO _ | PStop _ | PClear | PRelease => true | _ => false end.

(** The deadline is the doing of this caller's watcher. *)
Definition fired (pc : CallerPc) : bool :=
  match pc with PIO WExited | PStop WExited | PClear => true | _ => false end.

(** The watcher has seen the context done. *)
Definition saw_done (pc : CallerPc) : bool :=
  match pc with PIO WCancelled | PIO WExited | PStop WCancelled => true | _ => false end.

Record lane_inv (s : LaneState) : Prop := {
  li_busy : ∀ i, holds (lnPc s i) = true → lnBusy s = true;
  li_held : lnBusy s = true → ∃ i, holds (lnPc s i) = true;
  li_one : ∀ i j, holds (lnPc s i) = true → holds (lnPc s j) = true → i = j;
  li_deadline : lnDeadline s = true → ∃ i, fired (lnPc s i) = true ∧ lnCancelled s i = true;
  li_cancelled : ∀ i, saw_done (lnPc s i) = true → lnCancelled s i = true;
}.

(** A step of a caller that keeps or takes the lane, or never had it, and whose
    effect on the deadline is covered by its new state. *)
Lemma lane_inv_set_pc s i pc (busy deadline : bool) :
  lane_inv s →
  (busy = if holds pc then true else if holds (lnPc s i) then false else lnBusy s) →
  (holds pc = true → holds (lnPc s i) = true ∨ lnBusy s = false) →
  (saw_done pc = true → lnCancelled s i = true) →
  (deadline = true → fired pc = true ∧ lnCancelled s i = true ∨ lnDeadline s = true ∧ fired (lnPc s i) = false) →
  lane_inv (set_busy busy (set_deadline deadline (set_pc i pc s))).
Proof.
  intros [Hb Hh Ho Hd Hc] Hbusy Hhold Hsaw Hdl.
  assert (∀ j, holds (lnPc s j) = true → holds pc = true → j = i) as Hone.
  { intros j Hj [Hi|Hf]%Hhold; [by apply Ho|]. apply Hb in Hj. congruence. }
  constructor; cbn [set_busy set_deadline set_pc lnBusy lnDeadline lnPc lnCancelled].
  - intros j. case_decide as Hj; [subst j; intros Hpc; by rewrite Hbusy, Hpc|].
    intros Hjh. rewrite Hbusy. destruct (holds pc); [done|].
    destruct (holds (lnPc s i)) eqn:Hi; [by destruct Hj; apply Ho|by eapply Hb].
  - rewrite Hbusy. destruct (holds pc) eqn:Hpc; [intros _; exists i; by rewrite decide_True|].
    destruct (holds (lnPc s i)) eqn:Hi; [done|]. intros [j Hj]%Hh. exists j.
    rewrite decide_False; [done|]. intros ->. congruence.
  - intros j k. repeat case_decide; subst; intros Hj Hk; [done|symmetry; by apply Hone|by apply Hone|by apply Ho].
  - intros [[Hf Hca]|[Hf Hn]]%Hdl; [exists i; by rewrite decide_True|].
    apply Hd in Hf as (j & Hj & Hja). exists j. rewrite decide_False; [done|]. intros ->. congruence.
  - intros j. case_decide; [subst j; done|apply Hc].
Qed.

Lemma lane_inv_init : lane_inv lane_init.
Proof. by constructor. Qed.

Lemma fired_owner s i :
  lane_inv s → lnDeadline s = true → fired (lnPc s i) = true → lnCancelled s i = true.
Proof.
  intros [_ _ Ho Hd _] (j & Hj & Hja)%Hd Hi.
  assert (∀ k, fired (lnPc s k) = true → holds (lnPc s k) = true) as Hf by (intros k; by destruct (lnPc s k)).
  by rewrite (Ho i j) by auto.
Qed.

Lemma lane_inv_step i s s' : lane_inv s → lane_step i s s' → lane_inv s'.
Proof.
  intros Hinv Hstep. pose proof Hinv as [Hb Hh Ho Hd Hc].
  pose proof (fired_owner s i Hinv) as Hown. pose proof (Hb i) as Hbi. pose proof (Hc i) as Hci.
  destruct Hstep as [ | | | | | | |pc' Hw Hca Hpc|pc' Hw Hpc| | | | | ].
  { (* the context is cancelled *)
    constructor; cbn; [done..| |].
    + intros (j & Hj & Hja)%Hd. exists j. by case_decide.
    + intros j Hj%Hc. by case_decide. }
  all: lazymatch goal with
  | |- lane_inv (set_busy ?b (set_pc _ _ _)) => eapply (lane_inv_set_pc s i _ b (lnDeadline s) Hinv)
  | |- lane_inv (set_deadline ?b (set_pc _ _ _)) => eapply (lane_inv_set_pc s i _ (lnBusy s) b Hinv)
  | |- lane_inv (set_pc _ _ _) => eapply (lane_inv_set_pc s i _ (lnBusy s) (lnDeadline s) Hinv)
  end.
  all: clear Hinv Hb Hh Ho Hd Hc.
  all: destruct (lnPc s i) as [| | |[]|[]| | |]; simplify_eq/=; auto; intuition auto.
Qed.

Lemma lane_inv_reach s : rtc lane_any_step lane_init s → lane_inv s.
Proof.
  apply (rtc_ind_r lane_inv); [apply lane_inv_init|].
  intros ? ? _ [i Hstep] Hinv. by eapply lane_inv_step.
Qed.

(** ** The properties *)

(** C20: A list of frames written one after the other, each by any sequence of positive partial
    writes, is read back as the same list from any segmentation of the octet stream, and the
    octets that follow the last frame are left unread. *)
Theorem transport_stream_roundtrip ctx ctx' w frames counts more :
  lane_open ctx → lane_open ctx' → Forall frame_encodable frames →
  Forall2 (λ f c, chunking c (zlen (frame_layout f))) frames counts → wrCounts w = concat counts ++ more →
  ∃ w' out, write_frames ctx w frames = (w', out, Ok tt) ∧ wrCounts w' = more ∧
    ∀ r rest, stream_of r = out ++ rest →
      ∃ r', read_frames ctx' (length frames) r = (r', Ok frames) ∧ stream_of r' = rest.
Proof.
  intros Hctx Hctx' He Hc Hw. eexists _, _.
  split; [by apply write_frames_all with (counts := counts) (more := more)|]. split; [done|].
  intros r rest Hs. apply read_frames_all; [done| |done]. eapply Forall_impl; [done|apply frame_encodable_decodable].
Qed.

(** C39: ReadFrame on an open lane is a function of the octets of the stream and not of their
    segmentation: it never panics, succeeds exactly when the stream starts with the encoding of
    a frame the decoder accepts, and then consumes exactly those octets. *)
Theorem read_frame_exact ctx r :
  lane_open ctx →
  let '(r', o) := ReadFrame ctx r in
  (stream_of r', o) = read_frame_spec ctx (rdEnd r) (stream_of r) ∧ o ≠ Panic ∧
  (∀ f, o = Ok f ↔ frame_decodable f ∧ ∃ rest, stream_of r = frame_layout f ++ rest) ∧
  (∀ f, o = Ok f → stream_of r = frame_layout f ++ stream_of r').
Proof.
  intros Hctx. pose proof (ReadFrame_stream ctx r Hctx) as Hr. destruct (ReadFrame ctx r) as [r' o].
  destruct Hr as [Hr _]. split; [done|]. split.
  { pose proof (read_frame_spec_no_panic ctx (rdEnd r) (stream_of r)) as Hp. by rewrite <- Hr in Hp. }
  assert (∀ f, o = Ok f → frame_decodable f ∧ stream_of r = frame_layout f ++ stream_of r') as Hinv.
  { intros f ->. eapply read_frame_spec_inv. by rewrite <- Hr. }
  split; [|intros f ?; by apply Hinv]. intros f. split.
  - intros [? ?]%Hinv. by eauto.
  - intros (Hd & rest & Hs). rewrite Hs, read_frame_layout in Hr by done. by simplify_eq.
Qed.

(** Whatever the connection answers, WriteFrame leaves a prefix of the frame's encoding on the
    stream, all of it when it reports success; its only errors are a short write after a zero
    count and the connection's error as translated by transportError. *)
Theorem write_frame_prefix ctx w f w' out o :
  lane_open ctx → frame_encodable f → WriteFrame ctx w f = (w', out, o) →
  (∃ unsent, frame_layout f = out ++ unsent) ∧ (o = Ok tt → out = frame_layout f) ∧
  (∀ e, o = Err e → e = ErrShortWrite ∧ 0 ∈ wrCounts w ∨ e = transportError ctx (wrEnd w)).
Proof.
  intros Hctx He. rewrite WriteFrame_wire by done. destruct (write_loop _ _ _ _ _) as [[c out'] o'] eqn:Hw.
  intros [= <- -> ->]. pose proof (write_loop_errors _ _ _ _ _ _ _ _ Hw) as Herr.
  apply write_loop_prefix in Hw as (unsent & -> & Ho). split; [by exists unsent|]. split; [|done].
  intros ->. by rewrite Ho, app_nil_r.
Qed.

(** C21: In every interleaving of callers, watcher goroutines and cancellations, at most one
    caller has a lane, the lane is busy exactly while one has it, a free lane has no deadline,
    and a caller doing I/O whose own context is live never runs under a deadline left by
    another. *)
Theorem lane_deadline_isolated s :
  rtc lane_any_step lane_init s →
  (∀ i j, holds (lnPc s i) = true → holds (lnPc s j) = true → i = j) ∧
  (lnBusy s = true ↔ ∃ i, holds (lnPc s i) = true) ∧
  (lnBusy s = false → lnDeadline s = false) ∧
  (∀ i w, lnPc s i = PIO w → lnCancelled s i = false → lnDeadline s = false).
Proof.
  intros Hinv%lane_inv_reach. pose proof Hinv as [Hb Hh Ho Hd Hc].
  assert (∀ k, fired (lnPc s k) = true → holds (lnPc s k) = true) as Hf by (intros k; by destruct (lnPc s k)).
  split; [done|]. split; [naive_solver|]. split.
  - intros Hfree. apply not_true_iff_false. intros (i & Hi & _)%Hd. apply Hf, Hb in Hi. congruence.
  - intros i w Hi Hn. apply not_true_iff_false. intros (j & Hj & Hja)%Hd.
    rewrite (Ho i j) in Hn; [congruence|by rewrite Hi|by apply Hf].
Qed.

(** ** Witnesses *)

Definition ex_frames : list Frame := [ex_frame; ex_frame].
Definition ex_wire : list byte := concat (frame_layout <$> ex_frames).
Definition ex_counts : list Z := [1; zlen (frame_layout ex_frame) - 1].

Lemma ex_frame_is_encodable : frame_encodable ex_frame.
Proof.
  split_and!; [decide_closed| |reflexivity]. intros H. vm_compute in H. discriminate H.
Defined.

(** Two frames, each sent as one octet and the rest, are read from single octets. *)
Lemma transport_stream_roundtrip_witness :
  ∃ w' out,
    write_frames ctxLive (mkWriteSide (ex_counts ++ ex_counts) 0 NetErrClosed) ex_frames = (w', out, Ok tt) ∧
    wrCounts w' = [] ∧
    ∀ r rest, stream_of r = out ++ rest →
      ∃ r', read_frames ctxLive 2 r = (r', Ok ex_frames) ∧ stream_of r' = rest.
Proof.
  refine (transport_stream_roundtrip ctxLive ctxLive _ ex_frames [ex_counts; ex_counts] [] _ _ _ _ _).
  - done.
  - done.
  - repeat constructor; apply ex_frame_is_encodable.
  - repeat constructor.
  - done.
Defined.

Lemma read_frame_exact_witness :
  lane_open ctxLive ∧
  let r := mkReadSide ((λ b, [b]) <$> ex_wire) (NetError EOF) in
  let '(r', o) := ReadFrame ctxLive r in
  (stream_of r', o) = read_frame_spec ctxLive (rdEnd r) (stream_of r) ∧ o ≠ Panic ∧
  (∀ f, o = Ok f ↔ frame_decodable f ∧ ∃ rest, stream_of r = frame_layout f ++ rest) ∧
  (∀ f, o = Ok f → stream_of r = frame_layout f ++ stream_of r').
Proof. split; [done|]. apply read_frame_exact. done. Defined.

Definition ex_write : WriteSide * list byte * outcome unit :=
  WriteFrame ctxLive (mkWriteSide [3] 2 NetErrClosed) ex_frame.

(** The second Write accepts two octets and fails: five octets are on the stream. *)
Lemma write_frame_prefix_witness :
  ex_write.2 = Err ErrTransportClosed ∧ zlen ex_write.1.2 = 5 ∧
  (∃ unsent, frame_layout ex_frame = ex_write.1.2 ++ unsent) ∧
  (ex_write.2 = Ok tt → ex_write.1.2 = frame_layout ex_frame) ∧
  (∀ e, ex_write.2 = Err e → e = ErrShortWrite ∧ 0 ∈ [3] ∨ e = ErrTransportClosed).
Proof.
  split; [reflexivity|]. split; [reflexivity|].
  apply (write_frame_prefix ctxLive (mkWriteSide [3] 2 NetErrClosed) ex_frame ex_write.1.1 ex_write.1.2 ex_write.2).
  - done.
  - apply ex_frame_is_encodable.
  - reflexivity.
Defined.

(** Caller 0 is cancelled during its I/O and leaves; caller 1 then has the lane. *)
Definition lane_ex : LaneState :=
  let s := set_pc 1 PLane (set_pc 0 PLane lane_init) in
  let s := set_pc 0 (PIO WSelect) (set_busy true (set_pc 0 POwner s)) in
  let s := set_pc 0 (PIO WCancelled) (set_cancelled 0 s) in
  let s := set_pc 0 (PStop WCancelled) s in
  let s := set_deadline true (set_pc 0 (PStop WExited) s) in
  let s := set_deadline false (set_pc 0 PRelease (set_pc 0 PClear s)) in
  let s := set_busy false (set_pc 0 PReturned s) in
  set_pc 1 (PIO WSelect) (set_busy true (set_pc 1 POwner s)).

Lemma lane_ex_reachable : rtc lane_any_step lane_init lane_ex.
Proof.
  eapply rtc_l; [exists 0%nat; by apply lane_enter|].
  eapply rtc_l; [exists 1%nat; by apply lane_enter|].
  eapply rtc_l; [exists 0%nat; by apply lane_send|].
  eapply rtc_l; [exists 0%nat; by apply lane_watch|].
  eapply rtc_l; [exists 0%nat; by apply lane_cancel|].
  eapply rtc_l; [exists 0%nat; by apply (lane_watcher_done _ _ (PIO WCancelled))|].
  eapply rtc_l; [exists 0%nat; by apply (lane_io_returns _ _ WCancelled)|].
  eapply rtc_l; [exists 0%nat; by apply (lane_watcher_deadline _ _ (PStop WExited))|].
  eapply rtc_l; [exists 0%nat; by apply lane_exited|].
  eapply rtc_l; [exists 0%nat; by apply lane_clear|].
  eapply rtc_l; [exists 0%nat; by apply lane_release|].
  eapply rtc_l; [exists 1%nat; by apply lane_send|].
  eapply rtc_l; [exists 1%nat; by apply lane_watch|].
  apply rtc_refl.
Qed.

Lemma lane_deadline_isolated_witness :
  lnPc lane_ex 1%nat = PIO WSelect ∧ lnCancelled lane_ex 0%nat = true ∧ lnDeadline lane_ex = false.
Proof.
  split; [reflexivity|]. split; [reflexivity|].
  destruct (lane_deadline_isolated lane_ex lane_ex_reachable) as (_ & _ & _ & H). by apply (H 1%nat WSelect).
Defined.
