(* ===== verification/ConnectionIO.v ===== *)
(** * connection_send.go, connection_receive.go: a session over a transport

    [writeMessage] is the writer's retry loop: it sends the message until a frame
    other than RekeyInit has been written, marking each RekeyInit as sent.
    [readMessage] is the part of the reader's loop that turns octets into a
    message.  The inputs of one iteration (clock, entropy, context) are a record;
    the loop consumes a list of them and is [None] while it has not returned.

    The theorems show that what a connection has written is received by its peer
    as the same messages in the same order, through rekeys, partial writes and any
    segmentation, and that the retry loop ends in its second iteration when the
    clock does not run past a whole rekey interval in between. *)

From S2P Require Import Prelude Wire Header Frame Tlv Utf8 Messages Replay Sha256 Crypto Rekey Session.
From S2P Require Import SessionSend SessionReceive SessionPair Transport.
Import wire.

Local Open Scope Z_scope.
Local Open Scope sm_scope.
Local Opaque header_layout next_key key_confirm.

(** The completion channel is named by a number. *)
Record queuedMessage := mkQueuedMessage {
  qmMessage : AnyMessage; qmPadLength : Z; qmCompletion : option nat;
}.

Record WriteTry := mkWriteTry { wtClock : Clock; wtEntropy : list byte; wtCtx : CtxView }.

Section conn_io.
Context {aead : AEAD}.

(** The session, the transport, the octets written and the result. *)
Fixpoint writeMessage (tries : list WriteTry) (item : queuedMessage) (s : Session) (w : WriteSide)
    : option (Session * WriteSide * list byte * outcome unit) :=
  match tries with
  | [] => None
  | x :: tries =>
      match Session_Send (wtClock x) (wtEntropy x) (qmMessage item) (qmPadLength item) s with
      | (s, Err e) => Some (s, w, [], Err e)
      | (s, Panic) => Some (s, w, [], Panic)
      | (s, Ok frame) =>
          match WriteFrame (wtCtx x) w frame with
          | (w, out, Err e) => Some (s, w, out, Err e)
          | (w, out, Panic) => Some (s, w, out, Panic)
          | (w, out, Ok _) =>
              if negb (hdrMessageType (frHeader frame) =? MessageTypeRekeyInit) then Some (s, w, out, Ok tt) else
              match Session_MarkRekeySent (wtClock x) frame s with
              | (s, Err e) => Some (s, w, out, Err e)
              | (s, Panic) => Some (s, w, out, Panic)
              | (s, Ok _) =>
                  match writeMessage tries item s w with
                  | Some (s, w, out', o) => Some (s, w, out ++ out', o)
                  | None => None
                  end
              end
          end
      end
  end.

(** One turn of the reader up to the dispatch of the message. *)
Definition readMessage (ctx : CtxView) (clock : Clock) (r : ReadSide) (s : Session)
    : ReadSide * Session * outcome Message :=
  match ReadFrame ctx r with
  | (r, Err e) => (r, s, Err e)
  | (r, Panic) => (r, s, Panic)
  | (r, Ok frame) => let '(s, o) := Session_Receive clock frame s in (r, s, o)
  end.

(** ** Runs *)
Fixpoint writeMessages (xs : list (list WriteTry * queuedMessage)) (s : Session) (w : WriteSide)
    : option (Session * WriteSide * list byte * outcome unit) :=
  match xs with
  | [] => Some (s, w, [], Ok tt)
  | (tries, item) :: xs =>
      match writeMessage tries item s w with
      | Some (s, w, out, Ok _) =>
          match writeMessages xs s w with
          | Some (s, w, out', o) => Some (s, w, out ++ out', o)
          | None => None
          end
      | res => res
      end
  end.

Fixpoint readMessages (xs : list (CtxView * Clock)) (r : ReadSide) (s : Session)
    : ReadSide * Session * outcome (list Message) :=
  match xs with
  | [] => (r, s, Ok [])
  | (ctx, clock) :: xs =>
      match readMessage ctx clock r s with
      | (r, s, Ok m) => let '(r, s, o) := readMessages xs r s in (r, s, cons m <$> o)
      | (r, s, Err e) => (r, s, Err e)
      | (r, s, Panic) => (r, s, Panic)
      end
  end.

(** The reader dispatches everything but the RekeyInit messages, here. *)
Definition is_rekey_message (m : Message) : bool := match m with MsgRekeyInit _ => true | _ => false end.
Definition received (ms : list Message) : list Message := filter (λ m, is_rekey_message m = false) ms.

Definition item_typed (item : queuedMessage) : Prop :=
  AnyMessage_typed (qmMessage item) ∧ uint 8 (qmPadLength item).

(** ** Facts *)

Context {laws : AEADLaws}.

(** The frames a session emits can be put on the wire. *)
Lemma emits_encodable s f s' : send_ok s → emits s f s' → frame_encodable f.
Proof.
  intros Hok He. destruct (emits_shape s f s' Hok He) as (t & p & pad & Hh & Hf & Hty & -> & _).
  destruct (seal_frame_ok (sSend (sessSend s)) t _ _ p pad Hty Hh Hf) as [Hfo Hv]. split; [done|]. split; [|done].
  intros Htag. by rewrite (encrypted_header_tag _ _ _ (frHeader (sealed_next s t p pad)) Hh eq_refl) in Htag.
Qed.

Lemma WriteFrame_Ok_out ctx w f w' out :
  frame_encodable f → WriteFrame ctx w f = (w', out, Ok tt) → out = frame_layout f.
Proof.
  intros He H. assert (lane_open ctx) as Hl.
  { unfold WriteFrame in H. destruct (Frame_MarshalBinary f); [|done..].
    destruct (zlen _ <? _); [done|]. destruct (_ <? zlen _); [done|].
    destruct (acquireLane ctx) as [[]| |] eqn:?; [|done..]. by destruct (watchContext ctx) as [[]| |] eqn:?. }
  rewrite WriteFrame_wire in H by done. destruct (write_loop _ _ _ _ _) as [[c out'] o'] eqn:Hw.
  injection H as <- -> ->. apply write_loop_prefix in Hw as (unsent & -> & Ho).
  by rewrite Ho, app_nil_r.
Qed.

(** Reading the octets of one frame. *)
Lemma readMessage_frame ctx clock r s f rest :
  lane_open ctx → frame_decodable f → stream_of r = frame_layout f ++ rest →
  ∃ r', stream_of r' = rest ∧
    readMessage ctx clock r s = (let '(s', o) := Session_Receive clock f s in (r', s', o)).
Proof.
  intros Hctx Hd Hs. unfold readMessage. pose proof (ReadFrame_stream ctx r Hctx) as Hr.
  rewrite Hs, read_frame_layout in Hr by done. destruct (ReadFrame ctx r) as [r' o].
  destruct Hr as [[= Hs' ->] _]. by exists r'.
Qed.

Lemma readMessages_app xs : ∀ ys r s r' s' ms,
  readMessages xs r s = (r', s', Ok ms) →
  readMessages (xs ++ ys) r s = (let '(r'', s'', o) := readMessages ys r' s' in (r'', s'', app ms <$> o)).
Proof.
  induction xs as [|[ctx clock] xs IH]; intros ys r s r' s' ms; cbn [readMessages app].
  - intros [= <- <- <-]. destruct (readMessages ys r s) as [[r1 s1] [l| |]]; done.
  - destruct (readMessage ctx clock r s) as [[r1 s1] [m| |]]; [|done..].
    destruct (readMessages xs r1 s1) as [[r2 s2] [l| |]] eqn:E; [|done..]. intros [= <- <- <-].
    rewrite (IH ys _ _ _ _ _ E). by destruct (readMessages ys r2 s2) as [[r3 s3] [l'| |]].
Qed.

(** What the peer of [A] gets from the octets [out] when the session has become [A']. *)
Definition delivers (A : Session) (out : list byte) (A' : Session) (k : nat) (ms : list Message) : Prop :=
  ∀ B reads r rest, in_sync A B → length reads = k → Forall (λ x, lane_open x.1) reads →
    stream_of r = out ++ rest →
    ∃ r' B' all, readMessages reads r B = (r', B', Ok all) ∧ received all = ms ∧
      stream_of r' = rest ∧ in_sync A' B'.

Lemma delivers_app A out1 A1 k1 ms1 out2 A2 k2 ms2 :
  delivers A out1 A1 k1 ms1 → delivers A1 out2 A2 k2 ms2 → delivers A (out1 ++ out2) A2 (k1 + k2) (ms1 ++ ms2).
Proof.
  intros H1 H2 B reads r rest Hs Hk Hl Hst.
  destruct (H1 B (take k1 reads) r (out2 ++ rest)) as (r1 & B1 & all1 & Hr1 & <- & Hst1 & Hs1).
  { done. } { rewrite length_take. lia. } { by apply Forall_take. } { by rewrite Hst, app_assoc. }
  destruct (H2 B1 (drop k1 reads) r1 rest) as (r2 & B2 & all2 & Hr2 & <- & Hst2 & Hs2).
  { done. } { rewrite length_drop. lia. } { by apply Forall_drop. } { done. }
  exists r2, B2, (all1 ++ all2). rewrite <- (take_drop k1 reads), (readMessages_app _ _ _ _ _ _ _ Hr1), Hr2.
  split; [done|]. split; [apply filter_app|done].
Qed.

(** One frame: a RekeyInit moves both sides on, any other carries the message. *)
Lemma delivers_frame x item A A1 f :
  send_ok A → item_typed item →
  Session_Send (wtClock x) (wtEntropy x) (qmMessage item) (qmPadLength item) A = (A1, Ok f) →
  if is_rekey f
  then ∀ A2, Session_MarkRekeySent (wtClock x) f A1 = (A2, Ok tt) → delivers A (frame_layout f) A2 1 []
  else ∃ m, message_of (qmMessage item) = Some m ∧ delivers A (frame_layout f) A1 1 [m].
Proof.
  intros Hok [Hty Hpad] Hsend. pose proof (send_emits (wtClock x) (wtEntropy x) _ _ A Hok Hty Hpad) as He.
  rewrite Hsend in He. destruct He as (_ & He & Hkind).
  pose proof (frame_encodable_decodable f (emits_encodable A f A1 Hok He)) as Hdec.
  assert (∀ B ctx clock r rest, in_sync A B → lane_open ctx → stream_of r = frame_layout f ++ rest →
    ∃ r' B' m, readMessages [(ctx, clock)] r B = (r', B', Ok [m]) ∧ stream_of r' = rest ∧
      if is_rekey f then received [m] = [] ∧ ∀ A2, Session_MarkRekeySent (wtClock x) f A1 = (A2, Ok tt) → in_sync A2 B'
      else received [m] = [m] ∧ message_of (qmMessage item) = Some m ∧ in_sync A1 B') as Hstep.
  { intros B ctx clock r rest Hs Hctx Hst.
    pose proof (pair_step_sync (mkPairSend (wtClock x) clock (wtEntropy x) (qmMessage item) (qmPadLength item)) A B Hs
      (conj Hty Hpad)) as Hp. unfold pair_step in Hp.
    cbn [psSendClock psReceiveClock psEntropy psMessage psPadLength] in Hp. rewrite Hsend in Hp.
    destruct (readMessage_frame ctx clock r B f rest Hctx Hdec Hst) as (r' & Hr' & Hread). exists r'.
    cbn [readMessages]. rewrite Hread. destruct (Session_Receive clock f B) as [B1 o]. exists B1.
    destruct (is_rekey f).
    - destruct (Session_MarkRekeySent _ _ A1) as [A2 om]. destruct Hp as [Hs' Hev].
      destruct o as [m| |]; [|done..]. exists m. split; [done|]. split; [done|].
      destruct m; try done. split; [done|]. by intros A2' [= <- ->].
    - destruct Hp as [Hs' Hev]. destruct o as [m| |]; [|done..]. exists m. do 2 (split; [done|]).
      split; [|done]. cbn in Hev.
      destruct (qmMessage item) as [m'|m'| |]; cbn in Hev; try done; injection Hev as ->; by destruct m. }
  destruct (is_rekey f).
  - intros A2 Hm B reads r rest Hs Hk Hl Hst. destruct reads as [|[ctx clock] [|]]; [done| |done].
    apply Forall_cons in Hl as [Hl _]. destruct (Hstep B ctx clock r rest Hs Hl Hst) as (r' & B' & m & Hr & Hrest & Hm1 & Hs').
    exists r', B', [m]. by split_and!; [..|apply Hs'].
  - destruct (rekeyDueLocked _ _); [done|]. destruct Hkind as (t & m & p & Hout%outboundMessage_of & _).
    exists m. split; [done|]. intros B reads r rest Hs Hk Hl Hst. destruct reads as [|[ctx clock] [|]]; [done| |done].
    apply Forall_cons in Hl as [Hl _]. destruct (Hstep B ctx clock r rest Hs Hl Hst) as (r' & B' & m' & Hr & Hrest & Hm1 & Hm2 & Hs').
    exists r', B', [m']. assert (m' = m) as -> by congruence. done.
Qed.

Lemma mark_send_ok clock A1 f A2 :
  send_ok A1 → Session_MarkRekeySent clock f A1 = (A2, Ok tt) → send_ok A2.
Proof.
  intros Hok Hm. destruct (MarkRekeySent_result clock f A1) as [(e & He & _)|(q & _ & Hq & _ & Hq')]; [congruence|].
  rewrite Hq' in Hm. injection Hm as <-. by apply commit_rekey_ok.
Qed.

Lemma writeMessage_delivers tries item : ∀ A w A' w' out,
  send_ok A → item_typed item → writeMessage tries item A w = Some (A', w', out, Ok tt) →
  send_ok A' ∧ ∃ k m, message_of (qmMessage item) = Some m ∧ delivers A out A' k [m].
Proof.
  induction tries as [|x tries IH]; intros A w A' w' out Hok Hit Hw; cbn [writeMessage] in Hw; [done|].
  pose proof (send_emits (wtClock x) (wtEntropy x) _ _ A Hok (proj1 Hit) (proj2 Hit)) as He.
  destruct (Session_Send _ _ _ _ A) as [A1 [f|e|]] eqn:Hsend; [|done..]. destruct He as ([_ Hidle] & He & _).
  pose proof (emits_encodable A f A1 Hok He) as Henc. pose proof (emits_ok A f A1 Hok Hidle He) as Hok1.
  destruct (WriteFrame (wtCtx x) w f) as [[w1 out1] [[]| |]] eqn:Hwf; [|done..].
  apply WriteFrame_Ok_out in Hwf as ->; [|done]. pose proof (delivers_frame x item A A1 f Hok Hit Hsend) as Hd.
  change (hdrMessageType (frHeader f) =? MessageTypeRekeyInit) with (is_rekey f) in Hw.
  destruct (is_rekey f); cbn [negb] in Hw.
  - destruct (Session_MarkRekeySent _ f A1) as [A2 [[]| |]] eqn:Hm; [|done..].
    destruct (writeMessage tries item A2 w1) as [[[[A3 w3] out3] o]|] eqn:Hrec; [|done]. injection Hw as <- <- <- ->.
    destruct (IH A2 w1 A3 w3 out3 (mark_send_ok _ _ _ _ Hok1 Hm) Hit Hrec) as (Hok3 & k & m & Hmsg & Hdel).
    split; [done|]. exists (1 + k)%nat, m. split; [done|].
    change [m] with ([] ++ [m]). by eapply delivers_app; [apply Hd|].
  - injection Hw as <- <- <-. split; [done|]. destruct Hd as (m & ? & ?). by exists 1%nat, m.
Qed.

Lemma writeMessages_delivers xs : ∀ A w A' w' out,
  send_ok A → Forall (λ x, item_typed x.2) xs → writeMessages xs A w = Some (A', w', out, Ok tt) →
  ∃ k ms, Some <$> ms = (λ x, message_of (qmMessage x.2)) <$> xs ∧ delivers A out A' k ms.
Proof.
  induction xs as [|[tries item] xs IH]; intros A w A' w' out Hok Hty Hw; cbn [writeMessages] in Hw.
  - injection Hw as <- <- <-. exists 0%nat, []. split; [done|]. intros B reads r rest Hs Hk _ Hst.
    destruct reads; [|done]. by exists r, B, [].
  - apply Forall_cons in Hty as [Hit Hty].
    destruct (writeMessage tries item A w) as [[[[A1 w1] out1] [[]| |]]|] eqn:Hm; [|done..].
    destruct (writeMessages xs A1 w1) as [[[[A2 w2] out2] o]|] eqn:Hrec; [|done]. injection Hw as <- <- <- ->.
    destruct (writeMessage_delivers _ _ _ _ _ _ _ Hok Hit Hm) as (Hok1 & k1 & m & Hmsg & Hd1).
    destruct (IH _ _ _ _ _ Hok1 Hty Hrec) as (k2 & ms & Hms & Hd2). exists (k1 + k2)%nat, (m :: ms). split.
    + rewrite !fmap_cons, Hms. cbn [snd] in *. by rewrite Hmsg.
    + by eapply (delivers_app _ _ _ _ [m]).
Qed.

Lemma emits_limits s f s' :
  emits s f s' →
  sRekeyFrameLimit (sessSend s') = sRekeyFrameLimit (sessSend s) ∧
  sRekeyInterval (sessSend s') = sRekeyInterval (sessSend s).
Proof. by intros []. Qed.

(** Just after a rekey no rekey is due for a whole interval. *)
Lemma marked_not_due clock clock' f A1 A2 :
  0 ≤ sRekeyFrameLimit (sessSend A1) →
  (0 < sRekeyInterval (sessSend A1) →
   clock' ClockRekeyDue < clock ClockEpochStart + sRekeyInterval (sessSend A1)) →
  Session_MarkRekeySent clock f A1 = (A2, Ok tt) → rekeyDueLocked clock' (sessSend A2) = false.
Proof.
  intros Hl Hi Hm. destruct (MarkRekeySent_result clock f A1) as [(e & He & _)|(q & _ & Hq & _ & Hq')]; [congruence|].
  rewrite Hq' in Hm. injection Hm as <-. cbn [with_send sessSend commit_rekey].
  unfold rekeyDueLocked. cbn [commit_rekey sRekeyFrameLimit sSentInEpoch sRekeyInterval sEpochStarted].
  destruct (sRekeyFrameLimit _ =? 0) eqn:?; cbn [negb andb orb]; [|rewrite (proj2 (Z.leb_gt _ _)) by lia]; cbn [orb];
    (destruct (0 <? sRekeyInterval _) eqn:?; cbn [andb]; [|done]; by rewrite (proj2 (Z.ltb_lt _ _)) by (apply Hi; lia)).
Qed.
End conn_io.

(** ** Properties *)

(** What one side's writer has written, through rekeys and partial writes, the peer's reader
    receives as the same messages in the same order from any segmentation of the stream, leaving
    what follows unread and both sessions in step. *)
Theorem connection_delivery {aead : AEAD} {laws : AEADLaws} suite sid k1 k2 nowA nowB A B w xs A' w' out :
  zlen sid = 16 →
  NewSession suite (mkHandshakeSecrets sid k1 k2) nowA = Ok A →
  NewSession suite (mkHandshakeSecrets sid k2 k1) nowB = Ok B →
  Forall (λ x, item_typed x.2) xs → writeMessages xs A w = Some (A', w', out, Ok tt) →
  ∃ k, ∀ reads r rest, length reads = k → Forall (λ x, lane_open x.1) reads → stream_of r = out ++ rest →
    ∃ r' B' all, readMessages reads r B = (r', B', Ok all) ∧ stream_of r' = rest ∧ in_sync A' B' ∧
      Some <$> received all = (λ x, message_of (qmMessage x.2)) <$> xs.
Proof.
  intros Hid HA HB Hty Hw. destruct (NewSession_sync suite sid k1 k2 nowA nowB A B Hid HA HB) as [Hs _].
  destruct (writeMessages_delivers xs A w A' w' out (sync_send A B Hs) Hty Hw) as (k & ms & Hms & Hd).
  exists k. intros reads r rest Hk Hl Hst. destruct (Hd B reads r rest Hs Hk Hl Hst) as (r' & B' & all & Hr & <- & Hst' & Hs').
  by exists r', B', all.
Qed.

(** C37: writeMessage's retry loop returns by its second iteration, whatever the transport does,
    when less than a whole rekey interval passes in between, and leaves the session well-formed.
    *)
Theorem write_message_terminates {aead : AEAD} {laws : AEADLaws} s w item x1 x2 more :
  send_ok s → item_typed item → 0 ≤ sRekeyFrameLimit (sessSend s) →
  (0 < sRekeyInterval (sessSend s) →
   wtClock x2 ClockRekeyDue < wtClock x1 ClockEpochStart + sRekeyInterval (sessSend s)) →
  ∃ s' w' out o, writeMessage (x1 :: x2 :: more) item s w = Some (s', w', out, o) ∧ send_ok s'.
Proof.
  intros Hok Hit Hl Hi. cbn [writeMessage].
  pose proof (send_emits (wtClock x1) (wtEntropy x1) _ _ s Hok (proj1 Hit) (proj2 Hit)) as He.
  destruct (Session_Send _ _ _ _ s) as [s1 [f|e|]]; [|subst s1; by eauto 10|done]. destruct He as ([_ Hidle] & He & _).
  pose proof (emits_ok s f s1 Hok Hidle He) as Hok1. destruct (emits_limits s f s1 He) as [El Ei]. rewrite <- El in Hl. rewrite <- Ei in Hi.
  destruct (WriteFrame (wtCtx x1) w f) as [[w1 out1] [[]| |]]; [|by eauto 10..].
  destruct (negb _); [by eauto 10|].
  destruct (Session_MarkRekeySent _ f s1) as [s2 om] eqn:Hm.
  assert (send_ok s2) as Hok2.
  { destruct (MarkRekeySent_result (wtClock x1) f s1) as [(e & He' & _)|(q & _ & Hq & _ & Hq')].
    - rewrite He' in Hm. by injection Hm as <- <-.
    - rewrite Hq' in Hm. injection Hm as <- <-. by apply commit_rekey_ok. }
  destruct om as [[]| |]; [|by eauto 10..].
  pose proof (marked_not_due _ (wtClock x2) _ _ _ Hl Hi Hm) as Hnd.
  pose proof (send_emits (wtClock x2) (wtEntropy x2) _ _ s2 Hok2 (proj1 Hit) (proj2 Hit)) as He2.
  destruct (Session_Send _ _ _ _ s2) as [s3 [f2|e|]]; [|subst s3; by eauto 10|done].
  rewrite Hnd in He2. destruct He2 as ([_ Hidle2] & He2 & t & m & p & _ & _ & Ht & Hf2).
  pose proof (emits_ok s2 f2 s3 Hok2 Hidle2 He2).
  destruct (WriteFrame (wtCtx x2) w1 f2) as [[w2 out2] [[]| |]]; [|by eauto 10..].
  change (hdrMessageType (frHeader f2) =? MessageTypeRekeyInit) with (is_rekey f2).
  rewrite Hf2, sealed_next_rekey, (proj2 (Z.eqb_neq _ _)) by done. by eauto 10.
Qed.

(** ** Witnesses *)

Definition ex_item : queuedMessage := mkQueuedMessage ex_ping 0 None.
Definition ex_try (t : Z) : WriteTry := mkWriteTry (at_time t) [] ctxLive.

(** A ping, and a ping that finds a rekey due: frames of 65, 92 and 65 octets. *)
Definition ex_items : list (list WriteTry * queuedMessage) :=
  [([ex_try 1], ex_item); ([ex_try DefaultRekeyInterval; ex_try DefaultRekeyInterval], ex_item)].
Definition ex_writer : WriteSide := mkWriteSide [1; 64; 92; 60; 5] 0 NetErrClosed.

Lemma ex_items_typed : Forall (λ x, item_typed x.2) ex_items.
Proof.
  assert (AnyMessage_typed ex_ping) by (cbn; decide_closed).
  repeat (apply Forall_cons; split); try apply Forall_nil_2; (split; [done|decide_closed]).
Qed.

Definition write_done {S} (x : option (S * WriteSide * list byte * outcome unit)) : bool :=
  match x with Some (_, _, out, Ok _) => zlen out =? 222 | _ => false end.

Lemma connection_delivery_witness :
  ∃ A' w' out, writeMessages ex_items mac_session ex_writer = Some (A', w', out, Ok tt) ∧
  ∃ k, ∀ reads r rest, length reads = k → Forall (λ x, lane_open x.1) reads → stream_of r = out ++ rest →
    ∃ r' B' all, readMessages reads r ex_peer = (r', B', Ok all) ∧ stream_of r' = rest ∧ in_sync A' B' ∧
      Some <$> received all = [message_of ex_ping; message_of ex_ping].
Proof.
  assert (write_done (writeMessages ex_items mac_session ex_writer) = true) as Hd by (vm_compute; reflexivity).
  destruct (writeMessages ex_items mac_session ex_writer) as [[[[A' w'] out] [[]|e|]]|] eqn:E; [|discriminate Hd..].
  exists A', w', out. split; [reflexivity|].
  exact (@connection_delivery mac_aead mac_aead_laws CipherChaCha20Poly1305 ex_session ex_key
    (map to_byte (seqZ 50 32)) 0 0 mac_session ex_peer ex_writer ex_items A' w' out eq_refl mac_session_new ex_peer_new
    ex_items_typed E).
Defined.

Lemma write_message_terminates_witness :
  ∃ s' w' out o,
    writeMessage [ex_try DefaultRekeyInterval; ex_try DefaultRekeyInterval] ex_item mac_session ex_writer =
      Some (s', w', out, o) ∧ @send_ok mac_aead s'.
Proof.
  apply (@write_message_terminates mac_aead mac_aead_laws mac_session ex_writer ex_item
    (ex_try DefaultRekeyInterval) (ex_try DefaultRekeyInterval) [] mac_session_ok).
  - split; [cbn; decide_closed|decide_closed].
  - discriminate.
  - intros _. reflexivity.
Defined.
