(* ===== verification/Config.v ===== *)
(** * client_config.go, server_config.go, connection.go: configuration

    Durations are [Z] nanoseconds in the range of int64; additions are taken at
    that width.  A handler or hook is only known to be set or not.  The anonymous
    errors of NewServer are the one value [ErrInvalidServerConfig].

    The theorems characterise the configurations that are accepted and what is
    filled in: no sum of durations overflows, a read timeout never undercuts the
    idle and keepalive windows, queues and limits are positive. *)

From S2P Require Import Prelude Wire Header Frame Tlv Utf8 Messages Replay Sha256 Crypto Rekey Session Handshake.

Local Open Scope Z_scope.

Definition MaxInt64 : Z := 2 ^ 63 - 1.
Definition int64 (x : Z) : Prop := - 2 ^ 63 ≤ x ≤ MaxInt64.
(** Two's complement addition. *)
Definition add64 (x y : Z) : Z := (x + y + 2 ^ 63) mod 2 ^ 64 - 2 ^ 63.

Record ConnectionConfig := mkConnectionConfig {
  ccOutboundQueue : Z; ccHandlerQueue : Z; ccHandshakeTimeout : Z; ccReadTimeout : Z; ccWriteTimeout : Z;
  ccIdleTimeout : Z; ccKeepaliveInterval : Z; ccKeepaliveTimeout : Z; ccHandler : bool;
  ccHandlerShutdownTimeout : Z;
}.

Definition defaultKeepaliveTimeout (interval : Z) : Z * bool :=
  if MaxInt64 / 2 <? interval then (MaxInt64, false) else (2 * interval, true).

(** The configuration part of NewConnection. *)
Definition NewConnection_config (c : ConnectionConfig) : ConnectionConfig :=
  mkConnectionConfig
    (if ccOutboundQueue c <=? 0 then 16 else ccOutboundQueue c)
    (if ccHandlerQueue c <=? 0 then 16 else ccHandlerQueue c)
    (ccHandshakeTimeout c) (ccReadTimeout c) (ccWriteTimeout c) (ccIdleTimeout c) (ccKeepaliveInterval c)
    (if (0 <? ccKeepaliveInterval c) && (ccKeepaliveTimeout c <=? 0)
     then (defaultKeepaliveTimeout (ccKeepaliveInterval c)).1 else ccKeepaliveTimeout c)
    (ccHandler c) (ccHandlerShutdownTimeout c).

Definition with_HandshakeTimeout (x : Z) (c : ConnectionConfig) : ConnectionConfig :=
  mkConnectionConfig (ccOutboundQueue c) (ccHandlerQueue c) x (ccReadTimeout c) (ccWriteTimeout c) (ccIdleTimeout c)
    (ccKeepaliveInterval c) (ccKeepaliveTimeout c) (ccHandler c) (ccHandlerShutdownTimeout c).
Definition with_KeepaliveTimeout (x : Z) (c : ConnectionConfig) : ConnectionConfig :=
  mkConnectionConfig (ccOutboundQueue c) (ccHandlerQueue c) (ccHandshakeTimeout c) (ccReadTimeout c) (ccWriteTimeout c)
    (ccIdleTimeout c) (ccKeepaliveInterval c) x (ccHandler c) (ccHandlerShutdownTimeout c).

Record ClientConfig := mkClientConfig {
  clStaticKey : StaticKey; clServerStatic : list byte; clConnection : ConnectionConfig;
}.

Record ServerConfig := mkServerConfig {
  svStaticKey : StaticKey; svAllowedClients : list (list byte); svCipherSuite : Z;
  svConnection : ConnectionConfig; svMaxConcurrentHandshakes : Z; svMaxActiveConnections : Z;
  svAdmission : bool; svOnDisconnect : bool;
}.

Section config.
Context {N : Noise}.

Definition normalizeClientConfig (config : ClientConfig) : outcome ClientConfig :=
  _ ← StaticKey_validate (clStaticKey config);
  if negb (zlen (clServerStatic config) =? noiseKeySize) || allZero (clServerStatic config)
  then Err ErrInvalidClientConfig else
  let c := clConnection config in
  if (ccHandshakeTimeout c <? 0) || (ccReadTimeout c <? 0) || (ccWriteTimeout c <? 0) || (ccIdleTimeout c <? 0) ||
     (ccKeepaliveInterval c <? 0) || (ccKeepaliveTimeout c <? 0) || (ccHandlerShutdownTimeout c <? 0) ||
     (ccOutboundQueue c <? 0) || (ccHandlerQueue c <? 0)
  then Err ErrInvalidClientConfig else
  let c := if ccHandshakeTimeout c =? 0 then with_HandshakeTimeout (10 * time_Second) c else c in
  c ← (if (0 <? ccKeepaliveInterval c) && (ccKeepaliveTimeout c =? 0)
       then let '(timeout, ok) := defaultKeepaliveTimeout (ccKeepaliveInterval c) in
            if negb ok then Err ErrInvalidClientConfig else Ok (with_KeepaliveTimeout timeout c)
       else Ok c);
  if MaxInt64 - ccKeepaliveInterval c <? ccKeepaliveTimeout c then Err ErrInvalidClientConfig else
  let window := Z.max (ccIdleTimeout c) (add64 (ccKeepaliveInterval c) (ccKeepaliveTimeout c)) in
  if (0 <? ccReadTimeout c) && (ccReadTimeout c <? window) then Err ErrInvalidClientConfig else
  Ok (mkClientConfig (clStaticKey config) (clServerStatic config) c).

(** The configuration the new server keeps. *)
Definition NewServer_config (config : ServerConfig) : outcome ServerConfig :=
  let suite := if svCipherSuite config =? 0 then CipherChaCha20Poly1305 else svCipherSuite config in
  if negb (suite =? CipherChaCha20Poly1305) then Err ErrUnsupportedCipher else
  _ ← StaticKey_validate (svStaticKey config);
  let c := svConnection config in
  if ccHandshakeTimeout c <? 0 then Err ErrInvalidServerConfig else
  if (ccReadTimeout c <? 0) || (ccWriteTimeout c <? 0) || (ccIdleTimeout c <? 0) || (ccKeepaliveInterval c <? 0)
  then Err ErrInvalidServerConfig else
  if ccHandlerShutdownTimeout c <? 0 then Err ErrInvalidServerConfig else
  if ccKeepaliveTimeout c <? 0 then Err ErrInvalidServerConfig else
  c ← (if (0 <? ccKeepaliveInterval c) && (ccKeepaliveTimeout c =? 0)
       then let '(timeout, representable) := defaultKeepaliveTimeout (ccKeepaliveInterval c) in
            if negb representable then Err ErrInvalidServerConfig else Ok (with_KeepaliveTimeout timeout c)
       else Ok c);
  if (0 <? ccKeepaliveInterval c) && (MaxInt64 - ccKeepaliveInterval c <? ccKeepaliveTimeout c)
  then Err ErrInvalidServerConfig else
  let keepaliveWindow := add64 (ccKeepaliveInterval c) (ccKeepaliveTimeout c) in
  let livenessWindow := if ccIdleTimeout c <? keepaliveWindow then keepaliveWindow else ccIdleTimeout c in
  if (0 <? ccReadTimeout c) && ((0 <? livenessWindow) && (ccReadTimeout c <? livenessWindow))
  then Err ErrInvalidServerConfig else
  let c := if ccHandshakeTimeout c =? 0 then with_HandshakeTimeout (10 * time_Second) c else c in
  if ccOutboundQueue c <? 0 then Err ErrInvalidServerConfig else
  if ccHandlerQueue c <? 0 then Err ErrInvalidServerConfig else
  if svMaxConcurrentHandshakes config <? 0 then Err ErrInvalidServerConfig else
  if svMaxActiveConnections config <? 0 then Err ErrInvalidServerConfig else
  let c := mkConnectionConfig
    (if ccOutboundQueue c =? 0 then 16 else ccOutboundQueue c) (if ccHandlerQueue c =? 0 then 16 else ccHandlerQueue c)
    (ccHandshakeTimeout c) (ccReadTimeout c) (ccWriteTimeout c) (ccIdleTimeout c) (ccKeepaliveInterval c)
    (ccKeepaliveTimeout c) (ccHandler c) (ccHandlerShutdownTimeout c) in
  Ok (mkServerConfig (svStaticKey config) (svAllowedClients config) suite c
        (if svMaxConcurrentHandshakes config =? 0 then 64 else svMaxConcurrentHandshakes config)
        (if svMaxActiveConnections config =? 0 then 1024 else svMaxActiveConnections config)
        (svAdmission config) (svOnDisconnect config)).
End config.

(** ** Facts *)

Definition conn_int64 (c : ConnectionConfig) : Prop :=
  int64 (ccReadTimeout c) ∧ int64 (ccIdleTimeout c) ∧ int64 (ccKeepaliveInterval c) ∧ int64 (ccKeepaliveTimeout c).

Definition nonneg (c : ConnectionConfig) : Prop :=
  0 ≤ ccHandshakeTimeout c ∧ 0 ≤ ccReadTimeout c ∧ 0 ≤ ccWriteTimeout c ∧ 0 ≤ ccIdleTimeout c ∧
  0 ≤ ccKeepaliveInterval c ∧ 0 ≤ ccKeepaliveTimeout c ∧ 0 ≤ ccHandlerShutdownTimeout c ∧
  0 ≤ ccOutboundQueue c ∧ 0 ≤ ccHandlerQueue c.

(** The keepalive timeout in force: by default twice the interval. *)
Definition keepalive_timeout (c : ConnectionConfig) : Z :=
  if bool_decide (0 < ccKeepaliveInterval c ∧ ccKeepaliveTimeout c = 0)
  then 2 * ccKeepaliveInterval c else ccKeepaliveTimeout c.

Definition windows_ok (c : ConnectionConfig) : Prop :=
  ccKeepaliveInterval c + keepalive_timeout c ≤ MaxInt64 ∧
  (ccReadTimeout c = 0 ∨
   ccIdleTimeout c ≤ ccReadTimeout c ∧ ccKeepaliveInterval c + keepalive_timeout c ≤ ccReadTimeout c).

Definition effective (c : ConnectionConfig) : ConnectionConfig :=
  mkConnectionConfig (ccOutboundQueue c) (ccHandlerQueue c)
    (if bool_decide (ccHandshakeTimeout c = 0) then 10 * time_Second else ccHandshakeTimeout c)
    (ccReadTimeout c) (ccWriteTimeout c) (ccIdleTimeout c) (ccKeepaliveInterval c) (keepalive_timeout c)
    (ccHandler c) (ccHandlerShutdownTimeout c).

#[global] Instance nonneg_dec c : Decision (nonneg c).
Proof. unfold nonneg. apply _. Defined.
#[global] Instance windows_ok_dec c : Decision (windows_ok c).
Proof. unfold windows_ok. apply _. Defined.

Lemma add64_small x y : int64 (x + y) → add64 x y = x + y.
Proof. unfold int64, add64, MaxInt64. intros. rewrite Z.mod_small; lia. Qed.

(** The default and the overflow check of both sides. *)
Lemma keepalive_default {B} e c (k : ConnectionConfig → outcome B) :
  0 ≤ ccKeepaliveInterval c → 0 ≤ ccKeepaliveTimeout c → int64 (ccKeepaliveInterval c) → int64 (ccKeepaliveTimeout c) →
  (∀ c', MaxInt64 < ccKeepaliveInterval c' + ccKeepaliveTimeout c' → 0 ≤ ccKeepaliveInterval c' →
     0 ≤ ccKeepaliveTimeout c' → ccKeepaliveTimeout c' ≤ MaxInt64 → k c' = Err e) →
  (c' ← (if (0 <? ccKeepaliveInterval c) && (ccKeepaliveTimeout c =? 0)
        then let '(timeout, ok) := defaultKeepaliveTimeout (ccKeepaliveInterval c) in
             if negb ok then Err e else Ok (with_KeepaliveTimeout timeout c)
        else Ok c); k c') =
  if bool_decide (ccKeepaliveInterval c + keepalive_timeout c ≤ MaxInt64)
  then k (with_KeepaliveTimeout (keepalive_timeout c) c) else Err e.
Proof.
  intros Hi Ht [_ Hi'] [_ Ht'] Hk. unfold keepalive_timeout, defaultKeepaliveTimeout.
  destruct (0 <? ccKeepaliveInterval c) eqn:E1; [destruct (ccKeepaliveTimeout c =? 0) eqn:E2|]; cbn [andb].
  - rewrite (bool_decide_eq_true_2 (0 < _ ∧ _)) by lia.
    assert (MaxInt64 / 2 * 2 + 1 = MaxInt64) as Hhalf by reflexivity.
    destruct (MaxInt64 / 2 <? ccKeepaliveInterval c) eqn:E3; cbn [negb].
    + rewrite bool_decide_eq_false_2 by lia. done.
    + rewrite bind_Ok_l. case_bool_decide; [done|]. apply Hk; cbn; lia.
  - rewrite (bool_decide_eq_false_2 (0 < _ ∧ _)) by lia. rewrite bind_Ok_l.
    replace (with_KeepaliveTimeout (ccKeepaliveTimeout c) c) with c by (by destruct c).
    case_bool_decide; [done|]. apply Hk; lia.
  - rewrite (bool_decide_eq_false_2 (0 < _ ∧ _)) by lia. rewrite bind_Ok_l.
    replace (with_KeepaliveTimeout (ccKeepaliveTimeout c) c) with c by (by destruct c).
    case_bool_decide; [done|]. lia.
Qed.

Lemma suite_default suite :
  ((if suite =? 0 then CipherChaCha20Poly1305 else suite) =? CipherChaCha20Poly1305) =
  bool_decide (suite = 0 ∨ suite = CipherChaCha20Poly1305).
Proof. unfold CipherChaCha20Poly1305. destruct (_ =? 0) eqn:E; case_bool_decide; lia. Qed.

(** The handshake timeout is filled in after the keepalive timeout by the server. *)
Lemma effective_last c :
  (if ccHandshakeTimeout c =? 0 then with_HandshakeTimeout (10 * time_Second) (with_KeepaliveTimeout (keepalive_timeout c) c)
   else with_KeepaliveTimeout (keepalive_timeout c) c) = effective c.
Proof.
  unfold effective. destruct (ccHandshakeTimeout c =? 0) eqn:E; [rewrite bool_decide_eq_true_2 by lia|
    rewrite bool_decide_eq_false_2 by lia]; by destruct c.
Qed.

(** NewConnection has nothing left to fill in but the queue lengths. *)
Lemma NewConnection_effective c :
  0 ≤ ccOutboundQueue c → 0 ≤ ccHandlerQueue c → 0 ≤ ccKeepaliveTimeout c →
  NewConnection_config (effective c) =
    mkConnectionConfig (if ccOutboundQueue c =? 0 then 16 else ccOutboundQueue c)
      (if ccHandlerQueue c =? 0 then 16 else ccHandlerQueue c) (ccHandshakeTimeout (effective c)) (ccReadTimeout c)
      (ccWriteTimeout c) (ccIdleTimeout c) (ccKeepaliveInterval c) (keepalive_timeout c) (ccHandler c)
      (ccHandlerShutdownTimeout c).
Proof.
  intros Ho Hh Ht. unfold NewConnection_config. cbn [effective ccOutboundQueue ccHandlerQueue ccHandshakeTimeout ccReadTimeout
    ccWriteTimeout ccIdleTimeout ccKeepaliveInterval ccKeepaliveTimeout ccHandler ccHandlerShutdownTimeout].
  assert ((0 <? ccKeepaliveInterval c) && (keepalive_timeout c <=? 0) = false) as ->.
  { unfold keepalive_timeout. case_bool_decide; lia. }
  f_equal; [destruct (_ =? 0) eqn:?, (_ <=? 0) eqn:?; lia..].
Qed.

(** ** Properties *)

(** normalizeClientConfig accepts exactly a valid static key, a nonzero 32-byte pin, nonnegative
    limits and liveness windows that fit int64 and ReadTimeout, and returns the defaults filled
    in; everything else is ErrInvalidClientConfig or the key's error. *)
Theorem client_config_exact {N : Noise} config :
  conn_int64 (clConnection config) →
  normalizeClientConfig config =
    (_ ← StaticKey_validate (clStaticKey config);
     if bool_decide (zlen (clServerStatic config) = 32 ∧ allZero (clServerStatic config) = false ∧
                     nonneg (clConnection config) ∧ windows_ok (clConnection config))
     then Ok (mkClientConfig (clStaticKey config) (clServerStatic config) (effective (clConnection config)))
     else Err ErrInvalidClientConfig).
Proof.
  intros (Hr & Hid & Hi & Ht). unfold normalizeClientConfig. destruct (StaticKey_validate _) as [[]| |]; [|done..].
  rewrite !bind_Ok_l. destruct (negb (_ =? noiseKeySize) || allZero _) eqn:Hs.
  { rewrite bool_decide_eq_false_2; [done|]. intros (Hl & Hz & _). rewrite Hl, Hz in Hs. discriminate Hs. }
  apply orb_false_iff in Hs as [Hl%negb_false_iff%Z.eqb_eq Hz]. set (c := clConnection config) in *. cbv zeta.
  destruct (_ || (ccHandlerQueue c <? 0)) eqn:Hn.
  { rewrite bool_decide_eq_false_2; [done|]. intros (_ & _ & Hnn & _). unfold nonneg in Hnn. lia. }
  assert (nonneg c) as Hnn by (unfold nonneg; lia). pose proof Hnn as (_ & Hr0 & _ & Hid0 & Hi0 & Ht0 & _).
  set (c0 := if ccHandshakeTimeout c =? 0 then _ else c).
  assert (ccKeepaliveInterval c0 = ccKeepaliveInterval c ∧ ccKeepaliveTimeout c0 = ccKeepaliveTimeout c ∧
    with_KeepaliveTimeout (keepalive_timeout c) c0 = effective c) as (Ei & Et & Ee).
  { unfold c0, effective. destruct (ccHandshakeTimeout c =? 0) eqn:E; [rewrite bool_decide_eq_true_2 by lia|
      rewrite bool_decide_eq_false_2 by lia]; by destruct c. }
  assert (keepalive_timeout c0 = keepalive_timeout c) as Ek by (unfold keepalive_timeout; by rewrite Ei, Et).
  rewrite keepalive_default; rewrite ?Ei, ?Et, ?Ek; try done.
  2: { intros c' Hc _ _ _. by rewrite (proj2 (Z.ltb_lt (MaxInt64 - ccKeepaliveInterval c') (ccKeepaliveTimeout c'))) by lia. }
  rewrite Ee. cbn [effective ccKeepaliveInterval ccKeepaliveTimeout ccIdleTimeout ccReadTimeout].
  assert (0 ≤ keepalive_timeout c) by (unfold keepalive_timeout; case_bool_decide; lia).
  case_bool_decide as Hsum.
  2: { rewrite bool_decide_eq_false_2; [done|]. by intros (_ & _ & _ & ? & _). }
  rewrite (proj2 (Z.ltb_ge _ _)) by lia. rewrite add64_small by (unfold int64, MaxInt64 in *; lia).
  destruct ((0 <? ccReadTimeout c) && _) eqn:Hw.
  - rewrite bool_decide_eq_false_2; [done|]. intros (_ & _ & _ & _ & [?|?]); lia.
  - rewrite bool_decide_eq_true_2; [done|]. split; [done|]. split; [done|]. split; [done|]. unfold windows_ok. lia.
Qed.

(** NewServer accepts exactly ChaCha20-Poly1305 or no suite, a valid static key, nonnegative
    limits and liveness windows that fit int64 and ReadTimeout, and fills in the defaults (64
    handshakes, 1024 connections); the errors are as stated. *)
Theorem server_config_exact {N : Noise} config :
  conn_int64 (svConnection config) →
  NewServer_config config =
    (if bool_decide (svCipherSuite config = 0 ∨ svCipherSuite config = CipherChaCha20Poly1305) then
       _ ← StaticKey_validate (svStaticKey config);
       if bool_decide (nonneg (svConnection config) ∧ windows_ok (svConnection config) ∧
                       0 ≤ svMaxConcurrentHandshakes config ∧ 0 ≤ svMaxActiveConnections config)
       then Ok (mkServerConfig (svStaticKey config) (svAllowedClients config) CipherChaCha20Poly1305
                  (NewConnection_config (effective (svConnection config)))
                  (if bool_decide (svMaxConcurrentHandshakes config = 0) then 64 else svMaxConcurrentHandshakes config)
                  (if bool_decide (svMaxActiveConnections config = 0) then 1024 else svMaxActiveConnections config)
                  (svAdmission config) (svOnDisconnect config))
       else Err ErrInvalidServerConfig
     else Err ErrUnsupportedCipher).
Proof.
  intros (Hr & Hid & Hi & Ht). unfold NewServer_config. cbv zeta.
  set (suite := if svCipherSuite config =? 0 then _ else _).
  pose proof (suite_default (svCipherSuite config)) as Hsuite. fold suite in Hsuite. rewrite Hsuite. destruct (bool_decide _); cbn [negb]; [|done].
  apply Z.eqb_eq in Hsuite. rewrite Hsuite. clear suite Hsuite.
  destruct (StaticKey_validate _) as [[]| |]; [|done..]. rewrite !bind_Ok_l.
  set (c := svConnection config) in *.
  assert (∀ P (y : ServerConfig), ¬ P → ∀ `{Decision P}, (if bool_decide P then Ok y else Err ErrInvalidServerConfig)
    = Err ErrInvalidServerConfig) as Hbad by (intros P y HP ?; by rewrite bool_decide_eq_false_2).
  destruct (ccHandshakeTimeout c <? 0) eqn:G1; [rewrite Hbad; [done|]; unfold nonneg; lia|].
  destruct (_ || (ccKeepaliveInterval c <? 0)) eqn:G2; [rewrite Hbad; [done|]; unfold nonneg; lia|].
  destruct (ccHandlerShutdownTimeout c <? 0) eqn:G3; [rewrite Hbad; [done|]; unfold nonneg; lia|].
  destruct (ccKeepaliveTimeout c <? 0) eqn:G4; [rewrite Hbad; [done|]; unfold nonneg; lia|].
  assert (0 ≤ keepalive_timeout c) by (unfold keepalive_timeout; case_bool_decide; lia).
  rewrite keepalive_default; try (done || lia).
  2: { intros c' Hc Hi' Ht' Hmax. rewrite (proj2 (Z.ltb_lt 0 (ccKeepaliveInterval c'))) by lia.
       by rewrite (proj2 (Z.ltb_lt (MaxInt64 - ccKeepaliveInterval c') (ccKeepaliveTimeout c'))) by lia. }
  cbn [with_KeepaliveTimeout ccKeepaliveInterval ccKeepaliveTimeout ccIdleTimeout ccReadTimeout ccHandshakeTimeout].
  case_bool_decide as Hsum.
  2: { rewrite Hbad; [done|]. by intros (_ & [? _] & _). }
  rewrite (proj2 (Z.ltb_ge (MaxInt64 - ccKeepaliveInterval c) (keepalive_timeout c))) by lia. rewrite andb_false_r.
  rewrite add64_small by (unfold int64, MaxInt64 in *; lia).
  assert (∀ window, (if ccIdleTimeout c <? window then window else ccIdleTimeout c) = Z.max (ccIdleTimeout c) window) as ->.
  { intros window. clear. destruct (Z.ltb_spec (ccIdleTimeout c) window); lia. }
  destruct ((0 <? ccReadTimeout c) && _) eqn:Hw.
  { rewrite Hbad; [done|]. unfold windows_ok. intros (_ & [_ Hcov] & _). lia. }
  assert (windows_ok c) as Hwin by (unfold windows_ok; lia).
  rewrite (effective_last c : (if ccHandshakeTimeout c =? 0 then _ else _) = _).
  cbn [effective ccOutboundQueue ccHandlerQueue].
  destruct (ccOutboundQueue c <? 0) eqn:G5; [rewrite Hbad; [done|]; unfold nonneg; lia|].
  destruct (ccHandlerQueue c <? 0) eqn:G6; [rewrite Hbad; [done|]; unfold nonneg; lia|].
  destruct (svMaxConcurrentHandshakes config <? 0) eqn:G7; [rewrite Hbad; [done|]; lia|].
  destruct (svMaxActiveConnections config <? 0) eqn:G8; [rewrite Hbad; [done|]; lia|].
  rewrite bool_decide_eq_true_2 by (split; [unfold nonneg; lia|]; split; [done|lia]).
  do 2 f_equal.
  - symmetry. apply NewConnection_effective; lia.
  - destruct (svMaxConcurrentHandshakes config =? 0) eqn:?; case_bool_decide; lia.
  - destruct (svMaxActiveConnections config =? 0) eqn:?; case_bool_decide; lia.
Qed.

(** ** Witnesses *)

Definition ex_conn_config : ConnectionConfig :=
  mkConnectionConfig 0 0 0 (60 * time_Second) (5 * time_Second) (45 * time_Second) (20 * time_Second) 0 true 0.

(** A read timeout of exactly the keepalive window is accepted with the defaults. *)
Lemma client_config_exact_witness :
  @normalizeClientConfig toy_noise (mkClientConfig (ex_static 7) (replicate 32 (to_byte 9)) ex_conn_config) =
    Ok (mkClientConfig (ex_static 7) (replicate 32 (to_byte 9))
      (mkConnectionConfig 0 0 (10 * time_Second) (60 * time_Second) (5 * time_Second) (45 * time_Second)
         (20 * time_Second) (40 * time_Second) true 0)).
Proof.
  rewrite (@client_config_exact toy_noise (mkClientConfig (ex_static 7) (replicate 32 (to_byte 9)) ex_conn_config)).
  - reflexivity.
  - vm_compute. repeat split; discriminate.
Defined.

Lemma server_config_exact_witness :
  @NewServer_config toy_noise (mkServerConfig (ex_static 9) [] 0 ex_conn_config 0 5 false false) =
    Ok (mkServerConfig (ex_static 9) [] CipherChaCha20Poly1305
      (mkConnectionConfig 16 16 (10 * time_Second) (60 * time_Second) (5 * time_Second) (45 * time_Second)
         (20 * time_Second) (40 * time_Second) true 0) 64 5 false false).
Proof.
  rewrite (@server_config_exact toy_noise (mkServerConfig (ex_static 9) [] 0 ex_conn_config 0 5 false false)).
  - reflexivity.
  - vm_compute. repeat split; discriminate.
Defined.
