(* ===== verification/Connection.v ===== *)
(** * connection*.go: the concurrent runtime of a connection

    The goroutines of one connection and the calls of its users are threads over
    one shared [Connection].  A thread is a stack of frames; a frame is a program
    counter of one function of the source with its locals, and there is one
    [*_step] function per source function.  A step is one access to shared state:
    an operation on a mutex, a sync.Once, an atomic, a channel or a context.
    Steps are executable; what the program does not decide (which ready case a
    select takes, when a timer fires, what user code, the session and the
    transport return) is the [Choice] argument, and [None] means that the thread
    is blocked.  [Running] in a once and the members of the lock carry the thread.

    Threads 0 to 5 are the goroutines of Start (reader, writer, maintenance,
    handler, context watcher, joiner); the users' calls run in threads 6 and up.
    The fields of [Ghost] are read by no step, they record history for the
    theorems.  RLock does not wait for a pending writer here, so that the model
    allows every interleaving of the code and more. *)

From stdpp Require Import gmap.
From S2P Require Import Prelude Wire Header Frame Tlv Utf8 Messages Replay Sha256 Crypto Rekey Session.
From S2P Require Import SessionSend SessionReceive SessionPair Transport ConnectionIO Handshake Config.

Local Open Scope Z_scope.

(** ** The shared state *)

(** sync.Once: [Do] runs its function when fresh and waits while it runs. *)
Inductive Once := Fresh | Running (i : nat) | Finished.

Record closeRequest := mkCloseRequest { crMessage : SessionClose; crCause : error }.

(** A completion channel of capacity 1, and the thread that made it. *)
Record ChanCell := mkChanCell { chOwner : nat; chBuf : option (option error) }.

Record Queues := mkQueues {
  qOutbound : list queuedMessage;
  qControl : list queuedMessage;
  qCloseRequest : option closeRequest;
  qCloseResult : option (option error);
  qHandler : list Message;
  qChans : list ChanCell;
}.
Record Sync := mkSync {
  syStart : Once;
  syShutdown : Once;
  syClose : Once;
  syReaders : gset nat;
  syWriter : option nat;
}.
Record Life := mkLife {
  lfCtx : option error;
  lfTerminal : option error;
  lfStarted : bool;
  lfClosing : bool;
  lfDone : bool;
  lfSession : bool;
  lfTransport : bool;
}.
Record Ping := mkPing {
  pgNonce : Z;
  pgExpected : Z;
  pgAcknowledged : bool;
  pgPong : bool;
  pgActivity : bool;
}.
Record Ghost := mkGhost {
  ghSealed : bool;
  ghAccepted : list queuedMessage;
  ghFinished : list (queuedMessage * option error);
  ghDispatched : list Message;
  ghCalled : list Message;
  ghAckLog : list Z;
  ghPuts : nat;
  ghSent : nat;
}.
Record Connection := mkConnection {
  cnQ :> Queues; cnS :> Sync; cnL :> Life; cnP :> Ping; cnG :> Ghost;
}.

Definition with_Queues (x : Queues) (cn : Connection) : Connection :=
  mkConnection x (cnS cn) (cnL cn) (cnP cn) (cnG cn).
Definition with_Sync (x : Sync) (cn : Connection) : Connection :=
  mkConnection (cnQ cn) x (cnL cn) (cnP cn) (cnG cn).
Definition with_Life (x : Life) (cn : Connection) : Connection :=
  mkConnection (cnQ cn) (cnS cn) x (cnP cn) (cnG cn).
Definition with_Ping (x : Ping) (cn : Connection) : Connection :=
  mkConnection (cnQ cn) (cnS cn) (cnL cn) x (cnG cn).
Definition with_Ghost (x : Ghost) (cn : Connection) : Connection :=
  mkConnection (cnQ cn) (cnS cn) (cnL cn) (cnP cn) x.
Definition set_qOutbound (v : list queuedMessage) (cn : Connection) : Connection :=
  with_Queues (mkQueues v (qControl cn) (qCloseRequest cn) (qCloseResult cn) (qHandler cn) (qChans cn)) cn.
Definition set_qControl (v : list queuedMessage) (cn : Connection) : Connection :=
  with_Queues (mkQueues (qOutbound cn) v (qCloseRequest cn) (qCloseResult cn) (qHandler cn) (qChans cn)) cn.
Definition set_qCloseRequest (v : option closeRequest) (cn : Connection) : Connection :=
  with_Queues (mkQueues (qOutbound cn) (qControl cn) v (qCloseResult cn) (qHandler cn) (qChans cn)) cn.
Definition set_qCloseResult (v : option (option error)) (cn : Connection) : Connection :=
  with_Queues (mkQueues (qOutbound cn) (qControl cn) (qCloseRequest cn) v (qHandler cn) (qChans cn)) cn.
Definition set_qHandler (v : list Message) (cn : Connection) : Connection :=
  with_Queues (mkQueues (qOutbound cn) (qControl cn) (qCloseRequest cn) (qCloseResult cn) v (qChans cn)) cn.
Definition set_qChans (v : list ChanCell) (cn : Connection) : Connection :=
  with_Queues (mkQueues (qOutbound cn) (qControl cn) (qCloseRequest cn) (qCloseResult cn) (qHandler cn) v) cn.
Definition set_syStart (v : Once) (cn : Connection) : Connection :=
  with_Sync (mkSync v (syShutdown cn) (syClose cn) (syReaders cn) (syWriter cn)) cn.
Definition set_syShutdown (v : Once) (cn : Connection) : Connection :=
  with_Sync (mkSync (syStart cn) v (syClose cn) (syReaders cn) (syWriter cn)) cn.
Definition set_syClose (v : Once) (cn : Connection) : Connection :=
  with_Sync (mkSync (syStart cn) (syShutdown cn) v (syReaders cn) (syWriter cn)) cn.
Definition set_syReaders (v : gset nat) (cn : Connection) : Connection :=
  with_Sync (mkSync (syStart cn) (syShutdown cn) (syClose cn) v (syWriter cn)) cn.
Definition set_syWriter (v : option nat) (cn : Connection) : Connection :=
  with_Sync (mkSync (syStart cn) (syShutdown cn) (syClose cn) (syReaders cn) v) cn.
Definition set_lfCtx (v : option error) (cn : Connection) : Connection :=
  with_Life (mkLife v (lfTerminal cn) (lfStarted cn) (lfClosing cn) (lfDone cn) (lfSession cn) (lfTransport cn)) cn.
Definition set_lfTerminal (v : option error) (cn : Connection) : Connection :=
  with_Life (mkLife (lfCtx cn) v (lfStarted cn) (lfClosing cn) (lfDone cn) (lfSession cn) (lfTransport cn)) cn.
Definition set_lfStarted (v : bool) (cn : Connection) : Connection :=
  with_Life (mkLife (lfCtx cn) (lfTerminal cn) v (lfClosing cn) (lfDone cn) (lfSession cn) (lfTransport cn)) cn.
Definition set_lfClosing (v : bool) (cn : Connection) : Connection :=
  with_Life (mkLife (lfCtx cn) (lfTerminal cn) (lfStarted cn) v (lfDone cn) (lfSession cn) (lfTransport cn)) cn.
Definition set_lfDone (v : bool) (cn : Connection) : Connection :=
  with_Life (mkLife (lfCtx cn) (lfTerminal cn) (lfStarted cn) (lfClosing cn) v (lfSession cn) (lfTransport cn)) cn.
Definition set_lfSession (v : bool) (cn : Connection) : Connection :=
  with_Life (mkLife (lfCtx cn) (lfTerminal cn) (lfStarted cn) (lfClosing cn) (lfDone cn) v (lfTransport cn)) cn.
Definition set_lfTransport (v : bool) (cn : Connection) : Connection :=
  with_Life (mkLife (lfCtx cn) (lfTerminal cn) (lfStarted cn) (lfClosing cn) (lfDone cn) (lfSession cn) v) cn.
Definition set_pgNonce (v : Z) (cn : Connection) : Connection :=
  with_Ping (mkPing v (pgExpected cn) (pgAcknowledged cn) (pgPong cn) (pgActivity cn)) cn.
Definition set_pgExpected (v : Z) (cn : Connection) : Connection :=
  with_Ping (mkPing (pgNonce cn) v (pgAcknowledged cn) (pgPong cn) (pgActivity cn)) cn.
Definition set_pgAcknowledged (v : bool) (cn : Connection) : Connection :=
  with_Ping (mkPing (pgNonce cn) (pgExpected cn) v (pgPong cn) (pgActivity cn)) cn.
Definition set_pgPong (v : bool) (cn : Connection) : Connection :=
  with_Ping (mkPing (pgNonce cn) (pgExpected cn) (pgAcknowledged cn) v (pgActivity cn)) cn.
Definition set_pgActivity (v : bool) (cn : Connection) : Connection :=
  with_Ping (mkPing (pgNonce cn) (pgExpected cn) (pgAcknowledged cn) (pgPong cn) v) cn.
Definition set_ghSealed (v : bool) (cn : Connection) : Connection :=
  with_Ghost (mkGhost v (ghAccepted cn) (ghFinished cn) (ghDispatched cn) (ghCalled cn) (ghAckLog cn) (ghPuts cn) (ghSent cn)) cn.
Definition set_ghAccepted (v : list queuedMessage) (cn : Connection) : Connection :=
  with_Ghost (mkGhost (ghSealed cn) v (ghFinished cn) (ghDispatched cn) (ghCalled cn) (ghAckLog cn) (ghPuts cn) (ghSent cn)) cn.
Definition set_ghFinished (v : list (queuedMessage * option error)) (cn : Connection) : Connection :=
  with_Ghost (mkGhost (ghSealed cn) (ghAccepted cn) v (ghDispatched cn) (ghCalled cn) (ghAckLog cn) (ghPuts cn) (ghSent cn)) cn.
Definition set_ghDispatched (v : list Message) (cn : Connection) : Connection :=
  with_Ghost (mkGhost (ghSealed cn) (ghAccepted cn) (ghFinished cn) v (ghCalled cn) (ghAckLog cn) (ghPuts cn) (ghSent cn)) cn.
Definition set_ghCalled (v : list Message) (cn : Connection) : Connection :=
  with_Ghost (mkGhost (ghSealed cn) (ghAccepted cn) (ghFinished cn) (ghDispatched cn) v (ghAckLog cn) (ghPuts cn) (ghSent cn)) cn.
Definition set_ghAckLog (v : list Z) (cn : Connection) : Connection :=
  with_Ghost (mkGhost (ghSealed cn) (ghAccepted cn) (ghFinished cn) (ghDispatched cn) (ghCalled cn) v (ghPuts cn) (ghSent cn)) cn.
Definition set_ghPuts (v : nat) (cn : Connection) : Connection :=
  with_Ghost (mkGhost (ghSealed cn) (ghAccepted cn) (ghFinished cn) (ghDispatched cn) (ghCalled cn) (ghAckLog cn) v (ghSent cn)) cn.
Definition set_ghSent (v : nat) (cn : Connection) : Connection :=
  with_Ghost (mkGhost (ghSealed cn) (ghAccepted cn) (ghFinished cn) (ghDispatched cn) (ghCalled cn) (ghAckLog cn) (ghPuts cn) v) cn.

Definition NewConnection : Connection :=
  mkConnection
    (mkQueues [] [] None None [] []) (mkSync Fresh Fresh Fresh ∅ None)
    (mkLife None None false false false false false) (mkPing 0 0 false false false)
    (mkGhost false [] [] [] [] [] 0 0).

(** ** Frames *)

(** The context of a producer: Background, the context of a call, the connection's. *)
Inductive EnqCtx := CtxBackground | CtxUser (x : nat) | CtxConn.

Record EnqArgs := mkEnqArgs { eaCtx : EnqCtx; eaControl : bool; eaItem : queuedMessage; eaWait : bool }.

Inductive EnqPc :=
  | EqLock (a : EnqArgs) | EqCtx (a : EnqArgs) | EqClosing (a : EnqArgs) | EqSelect (a : EnqArgs)
  | EqUnlock (r : option error).

Inductive SendWaitPc :=
  | SwMake (x : EnqCtx) (m : AnyMessage) (pad : Z) | SwEnqueued (k : nat) (x : EnqCtx) | SwSelect (k : nat) (x : EnqCtx).

Inductive ShutdownPc :=
  | ShRecord (cause : option error) | ShOnce (cause : error) | ShClosing (cause : error) | ShCancel (cause : error)
  | ShClearPing | ShLock | ShFailStart | ShFail (err : error) | ShDrain | ShUnlock | ShSession | ShTransport.

Inductive WritePc :=
  | WlPoll | WlSelect | WlWrite (item : queuedMessage) | WlComplete (item : queuedMessage) (r : option error)
  | WlCheck (r : option error) | WlCloseWrite (q : closeRequest) | WlCloseResult (q : closeRequest) (r : option error)
  | WlFailStart | WlFail (err : error).

Inductive ReadPc :=
  | RdRead | RdNote (m : Message) | RdSwitch (m : Message) | RdPong
  | RdLock (m : Message) | RdCheck (m : Message) | RdSelect (m : Message) | RdUnlock (full : option bool).

Inductive HandlerPc := HdPoll | HdSelect | HdRecheck (m : Message) | HdCall | HdGrace | HdResult (r : option error).

(** The locals of maintenanceLoop: the outstanding nonce, and whether the
    channels keepalive and pongDeadline are not nil. *)
Record MaintLocals := mkMaintLocals { mtOutstanding : Z; mtKeepalive : bool; mtDeadline : bool }.

Inductive MaintPc :=
  | MtSelect (l : MaintLocals) | MtPong (l : MaintLocals) | MtBegin (l : MaintLocals) | MtSent (l : MaintLocals)
  | MtClear (l : MaintLocals) | MtExpired (l : MaintLocals).

Inductive ClosePc :=
  | ClOnce (q : closeRequest) | ClRecord (q : closeRequest) | ClClosing (q : closeRequest) | ClStart (q : closeRequest)
  | ClDone (q : closeRequest) | ClStarted (q : closeRequest) | ClLock (q : closeRequest) | ClCheck (q : closeRequest)
  | ClSelect (q : closeRequest) | ClSent (q : closeRequest) | ClAwait (q : closeRequest)
  | ClUnlock (q : closeRequest) (r : option error) | ClUnlockReturn (r : option error)
  | ClShutdown (q : closeRequest) (r : option error) | ClEnd (r : option error).

Inductive StartPc := StOnce (x : nat) | StCheck (x : nat) | StDone | StSpawn (x : nat).

Inductive WatchPc := WaSelect (x : nat) | WaRecord (e : error).

Inductive JoinPc := JnWait | JnShutdown | JnDone.

(** [FRet r] hands the result of a call to the frame below it. *)
Inductive Frm :=
  | FEnq (pc : EnqPc) | FSendWait (pc : SendWaitPc) | FShut (pc : ShutdownPc) | FWrite (pc : WritePc)
  | FRead (pc : ReadPc) | FHandler (pc : HandlerPc) | FMaint (pc : MaintPc) | FClose (pc : ClosePc)
  | FStart (pc : StartPc) | FWatch (pc : WatchPc) | FJoin (pc : JoinPc) | FRet (r : option error) | FPanic.

(** The case of a select, the result of an operation, a message that was read. *)
Inductive Choice := CCase (n : nat) | CErr (r : option error) | CMsg (m : Message).

Definition Effect : Type := option (Connection * list Frm).

Definition goto (cn : Connection) (frs : list Frm) : Effect := Some (cn, frs).
Definition enabled (b : bool) (e : Effect) : Effect := if b then e else None.
Definition shut_with (e : error) : Frm := FShut (ShRecord (Some e)).

(** ** Synchronisation *)

Definition canRLock (cn : Connection) : bool := bool_decide (syWriter cn = None).
Definition RLock (i : nat) (cn : Connection) : Connection := set_syReaders ({[i]} ∪ syReaders cn) cn.
Definition RUnlock (i : nat) (cn : Connection) : Connection := set_syReaders (syReaders cn ∖ {[i]}) cn.
Definition canLock (cn : Connection) : bool := bool_decide (syWriter cn = None ∧ syReaders cn = ∅).
(** Only shutdown takes the exclusive lock. *)
Definition Lock (i : nat) (cn : Connection) : Connection := set_ghSealed true (set_syWriter (Some i) cn).
Definition Unlock (cn : Connection) : Connection := set_syWriter None cn.

(** The Err of the connection's own context, and its Cause. *)
Definition ctx_Err (cn : Connection) : option error :=
  match lfCtx cn with Some _ => Some ErrCanceled | None => None end.
Definition context_Cause (cn : Connection) : option error := lfCtx cn.
Definition cancel (cause : error) (cn : Connection) : Connection :=
  match lfCtx cn with Some _ => cn | None => set_lfCtx (Some cause) cn end.
Definition is_done (cn : Connection) : bool := bool_decide (lfCtx cn ≠ None).

(** close(c.done), which panics on a closed channel. *)
Definition close_done (cn : Connection) (frs : list Frm) : Effect :=
  if lfDone cn then goto cn [FPanic] else goto (set_lfDone true cn) frs.

Definition recordTerminal (cause : error) (cn : Connection) : Connection :=
  match lfTerminal cn with None => set_lfTerminal (Some cause) cn | Some _ => cn end.

(** What a caller is told: Done closed, and the cause. *)
Definition Connection_Done (cn : Connection) : bool := lfDone cn.
Definition Connection_Err (cn : Connection) : option error := lfTerminal cn.

(** The context of one operation: the connection's, with a deadline when there is
    a timeout. *)
Definition operationContext (now timeout : Z) : option Z := if timeout <=? 0 then None else Some (now + timeout).
Definition operation_Err (now : Z) (deadline : option Z) (cn : Connection) : option error :=
  if is_done cn then Some ErrCanceled else
  match deadline with Some d => if d <=? now then Some ErrDeadlineExceeded else None | None => None end.

(** ** connection_keepalive.go: timers *)

(** When the channel of a timer becomes ready, if it will: Stop leaves no stale
    value behind. *)
Definition Timer : Type := option Z.
Definition Timer_ready (now : Z) (t : Timer) : bool := match t with Some d => d <=? now | None => false end.
Definition Timer_Stop (t : Timer) : Timer * bool := (None, bool_decide (is_Some t)).
Definition Timer_Reset (now duration : Z) (t : Timer) : Timer := Some (now + duration).

Definition resetTimer (now duration : Z) (timer : option Timer) : option Timer :=
  match timer with
  | None => None
  | Some t =>
      let '(t, stopped) := Timer_Stop t in
      let t := if negb stopped then if Timer_ready now t then None else t else t in
      Some (Timer_Reset now duration t)
  end.

(** ** connection_keepalive.go: the state of a ping *)

Definition beginPing (cn : Connection) : Connection * Z :=
  if is_done cn then (cn, 0) else
  let nonce := wrap 64 (pgNonce cn + 1) in
  let nonce := if nonce =? 0 then 1 else nonce in
  (set_ghAckLog [] (set_pgNonce nonce (set_pgAcknowledged false (set_pgExpected nonce cn))), nonce).

Definition clearPing (cn : Connection) : Connection := set_pgAcknowledged false (set_pgExpected 0 cn).

Definition acknowledgePing (nonce : Z) (cn : Connection) : Connection :=
  let cn := set_ghAckLog (ghAckLog cn ++ [nonce]) cn in
  if (pgExpected cn =? 0) || negb (nonce =? pgExpected cn) || is_done cn then cn else
  set_pgPong true (set_pgAcknowledged true (set_pgExpected 0 cn)).

Definition consumePingAcknowledgement (cn : Connection) : Connection * bool :=
  (set_pgAcknowledged false cn, pgAcknowledged cn).

Definition noteActivity (cn : Connection) : Connection := set_pgActivity true cn.

(** ** connection_send.go *)

(** Blocks while the channel still holds a result. *)
Definition complete (item : queuedMessage) (err : option error) (cn : Connection) : option Connection :=
  let cn := set_ghFinished (ghFinished cn ++ [(item, err)]) cn in
  match qmCompletion item with
  | None => Some cn
  | Some k =>
      match qChans cn !! k with
      | Some (mkChanCell o None) => Some (set_qChans (<[k := mkChanCell o (Some err)]> (qChans cn)) cn)
      | _ => None
      end
  end.

Definition send_close_result (r : option error) (cn : Connection) : option Connection :=
  match qCloseResult cn with
  | None => Some (set_ghSent (S (ghSent cn)) (set_qCloseResult (Some r) cn))
  | Some _ => None
  end.

(** One turn of failPending's loop: [true] once the queues are empty. *)
Definition failPending_turn (c : Choice) (err : error) (cn : Connection) : option (Connection * bool) :=
  match c, qControl cn, qOutbound cn, qCloseRequest cn with
  | CCase 0, item :: q, _, _ => cn ← complete item (Some err) (set_qControl q cn); Some (cn, false)
  | CCase 1, _, item :: q, _ => cn ← complete item (Some err) (set_qOutbound q cn); Some (cn, false)
  | CCase 2, _, _, Some _ => cn ← send_close_result (Some err) (set_qCloseRequest None cn); Some (cn, false)
  | CCase 3, [], [], None => Some (cn, true)
  | _, _, _, _ => None
  end.

Definition pending_error (cn : Connection) : error := default ErrConnectionClosed (context_Cause cn).

Section runtime.
Context (conf : ConnectionConfig).
(** Which call contexts are cancelled, and with what. *)
Context (env : nat → option error).

Definition control_cap : Z := 16.

Definition EnqCtx_Err (cn : Connection) (x : EnqCtx) : option error :=
  match x with CtxBackground => None | CtxUser x => env x | CtxConn => ctx_Err cn end.

Definition has_room (a : EnqArgs) (cn : Connection) : bool :=
  if eaControl a then zlen (qControl cn) <? control_cap else zlen (qOutbound cn) <? ccOutboundQueue conf.
Definition push_item (a : EnqArgs) (cn : Connection) : Connection :=
  let cn := set_ghAccepted (ghAccepted cn ++ [eaItem a]) cn in
  if eaControl a then set_qControl (qControl cn ++ [eaItem a]) cn else set_qOutbound (qOutbound cn ++ [eaItem a]) cn.

Definition enqueueChannel_step (i : nat) (c : Choice) (pc : EnqPc) (cn : Connection) : Effect :=
  match pc with
  | EqLock a => enabled (canRLock cn) (goto (RLock i cn) [FEnq (EqCtx a)])
  | EqCtx a =>
      match EnqCtx_Err cn (eaCtx a) with
      | Some e => goto cn [FEnq (EqUnlock (Some e))]
      | None => goto cn [FEnq (EqClosing a)]
      end
  | EqClosing a =>
      if lfClosing cn then goto cn [FEnq (EqUnlock (Some ErrConnectionClosed))] else goto cn [FEnq (EqSelect a)]
  | EqSelect a =>
      if negb (eaWait a) then
        if has_room a cn then goto (push_item a cn) [FEnq (EqUnlock None)]
        else goto cn [FEnq (EqUnlock (Some ErrOutboundQueueFull))]
      else match c with
      | CCase 0 => match EnqCtx_Err cn (eaCtx a) with Some e => goto cn [FEnq (EqUnlock (Some e))] | None => None end
      | CCase 1 => enabled (is_done cn) (goto cn [FEnq (EqUnlock (Some ErrConnectionClosed))])
      | CCase 2 => enabled (has_room a cn) (goto (push_item a cn) [FEnq (EqUnlock None)])
      | _ => None
      end
  | EqUnlock r => goto (RUnlock i cn) [FRet r]
  end.

Definition enqueueControl (m : Message) (wait : bool) : Frm :=
  FEnq (EqLock (mkEnqArgs CtxConn true (mkQueuedMessage (ByValue m) 0 None) wait)).

Definition receive_completion (k : nat) (cn : Connection) : option (Connection * option error) :=
  match qChans cn !! k with
  | Some (mkChanCell o (Some r)) => Some (set_qChans (<[k := mkChanCell o None]> (qChans cn)) cn, r)
  | _ => None
  end.

Definition SendPaddedAndWait_step (i : nat) (c : Choice) (pc : SendWaitPc) (cn : Connection) : Effect :=
  match pc with
  | SwMake x m pad =>
      let k := length (qChans cn) in
      goto (set_qChans (qChans cn ++ [mkChanCell i None]) cn)
        [FEnq (EqLock (mkEnqArgs x false (mkQueuedMessage m pad (Some k)) true)); FSendWait (SwEnqueued k x)]
  | SwEnqueued _ _ => None
  | SwSelect k x =>
      match c with
      | CCase 0 => '(cn, r) ← receive_completion k cn; goto cn [FRet r]
      | CCase 1 => match EnqCtx_Err cn x with Some e => goto cn [FRet (Some e)] | None => None end
      | CCase 2 =>
          enabled (is_done cn)
            match receive_completion k cn with
            | Some (cn, r) => goto cn [FRet r]
            | None => goto cn [FRet (context_Cause cn)]
            end
      | _ => None
      end
  end.

(** ** connection_lifecycle.go *)

Definition shutdown_step (i : nat) (c : Choice) (pc : ShutdownPc) (cn : Connection) : Effect :=
  match pc with
  | ShRecord cause =>
      let cause := default ErrConnectionClosed cause in
      goto (recordTerminal cause cn) [FShut (ShOnce cause)]
  | ShOnce cause =>
      match syShutdown cn with
      | Fresh => goto (set_syShutdown (Running i) cn) [FShut (ShClosing cause)]
      | Running _ => None
      | Finished => goto cn []
      end
  | ShClosing cause => goto (set_lfClosing true cn) [FShut (ShCancel cause)]
  | ShCancel cause => goto (cancel cause cn) [FShut ShClearPing]
  | ShClearPing => goto (clearPing cn) [FShut ShLock]
  | ShLock => enabled (canLock cn) (goto (Lock i cn) [FShut ShFailStart])
  | ShFailStart => goto cn [FShut (ShFail (pending_error cn))]
  | ShFail err =>
      '(cn, over) ← failPending_turn c err cn;
      if over : bool then goto cn [FShut ShDrain] else goto cn [FShut (ShFail err)]
  | ShDrain =>
      match qHandler cn with
      | [] => goto cn [FShut ShUnlock]
      | _ :: q => goto (set_qHandler q cn) [FShut ShDrain]
      end
  | ShUnlock => goto (Unlock cn) [FShut ShSession]
  | ShSession => goto (set_lfSession true cn) [FShut ShTransport]
  | ShTransport => goto (set_syShutdown Finished (set_lfTransport true cn)) []
  end.

Definition closeGracefully_step (i : nat) (c : Choice) (pc : ClosePc) (cn : Connection) : Effect :=
  match pc with
  | ClOnce q =>
      match syClose cn with
      | Fresh => goto (set_syClose (Running i) cn) [FClose (ClRecord q)]
      | Running _ => None
      | Finished => goto cn [FRet None]
      end
  | ClRecord q => goto (recordTerminal (crCause q) cn) [FClose (ClClosing q)]
  | ClClosing q => goto (set_lfClosing true cn) [FClose (ClStart q)]
  | ClStart q =>
      match syStart cn with
      | Fresh => goto (set_syStart (Running i) cn) [shut_with (crCause q); FClose (ClDone q)]
      | Running _ => None
      | Finished => goto cn [FClose (ClStarted q)]
      end
  | ClDone q => close_done (set_syStart Finished cn) [FClose (ClStarted q)]
  | ClStarted q => if negb (lfStarted cn) then goto cn [FClose (ClEnd None)] else goto cn [FClose (ClLock q)]
  | ClLock q => enabled (canRLock cn) (goto (RLock i cn) [FClose (ClCheck q)])
  | ClCheck q =>
      if is_done cn then goto cn [FClose (ClUnlockReturn (context_Cause cn))] else goto cn [FClose (ClSelect q)]
  | ClSelect q =>
      match c with
      | CCase 0 =>
          enabled (bool_decide (qCloseRequest cn = None))
            (goto (set_ghPuts (S (ghPuts cn)) (set_qCloseRequest (Some q) cn)) [FClose (ClSent q)])
      | CCase 1 => enabled (is_done cn) (goto cn [FClose (ClUnlock q (context_Cause cn))])
      | CCase 2 => goto cn [FClose (ClUnlock q (Some ErrDeadlineExceeded))]
      | _ => None
      end
  | ClSent q => goto (RUnlock i cn) [FClose (ClAwait q)]
  | ClAwait q =>
      match c, qCloseResult cn with
      | CCase 0, Some r => goto (set_qCloseResult None cn) [FClose (ClShutdown q r)]
      | CCase 1, Some r => enabled (is_done cn) (goto (set_qCloseResult None cn) [FClose (ClShutdown q r)])
      | CCase 1, None => enabled (is_done cn) (goto cn [FClose (ClShutdown q (context_Cause cn))])
      | CCase 2, _ => goto cn [FClose (ClShutdown q (Some ErrDeadlineExceeded))]
      | _, _ => None
      end
  | ClUnlock q r => goto (RUnlock i cn) [FClose (ClShutdown q r)]
  | ClUnlockReturn r => goto (RUnlock i cn) [FClose (ClEnd r)]
  | ClShutdown q r => goto cn [shut_with (crCause q); FClose (ClEnd r)]
  | ClEnd r => goto (set_syClose Finished cn) [FRet r]
  end.

(** ** connection_send.go: the writer *)

Definition writeLoop_step (c : Choice) (pc : WritePc) (cn : Connection) : Effect :=
  match pc with
  | WlPoll =>
      match qCloseRequest cn with
      | Some q => goto (set_qCloseRequest None cn) [FWrite (WlCloseWrite q)]
      | None => goto cn [FWrite WlSelect]
      end
  | WlSelect =>
      match c, qCloseRequest cn, qControl cn, qOutbound cn with
      | CCase 0, _, _, _ => enabled (is_done cn) (goto cn [FWrite WlFailStart])
      | CCase 1, Some q, _, _ => goto (set_qCloseRequest None cn) [FWrite (WlCloseWrite q)]
      | CCase 2, _, item :: q, _ => goto (set_qControl q cn) [FWrite (WlWrite item)]
      | CCase 3, _, _, item :: q => goto (set_qOutbound q cn) [FWrite (WlWrite item)]
      | _, _, _, _ => None
      end
  | WlWrite item => match c with CErr r => goto cn [FWrite (WlComplete item r)] | _ => None end
  | WlComplete item r => cn ← complete item r cn; goto cn [FWrite (WlCheck r)]
  | WlCheck (Some e) => goto cn [shut_with e; FWrite WlFailStart]
  | WlCheck None => goto cn [FWrite WlPoll]
  | WlCloseWrite q => match c with CErr r => goto cn [FWrite (WlCloseResult q r)] | _ => None end
  | WlCloseResult q r => cn ← send_close_result r cn; goto cn [shut_with (crCause q); FWrite WlFailStart]
  | WlFailStart => goto cn [FWrite (WlFail (pending_error cn))]
  | WlFail err =>
      '(cn, over) ← failPending_turn c err cn;
      if over : bool then goto cn [] else goto cn [FWrite (WlFail err)]
  end.

(** ** connection_receive.go *)

Definition readLoop_step (i : nat) (c : Choice) (pc : ReadPc) (cn : Connection) : Effect :=
  match pc with
  | RdRead =>
      match c with
      | CErr (Some e) => goto cn [shut_with e]
      | CMsg m => goto cn [FRead (RdNote m)]
      | _ => None
      end
  | RdNote m => goto (noteActivity cn) [FRead (RdSwitch m)]
  | RdSwitch m =>
      match m with
      | MsgPingPong p =>
          if ppIsResponse p then goto (acknowledgePing (ppNonce p) cn) [FRead RdRead]
          else goto cn [enqueueControl (MsgPingPong (mkPingPong true (ppNonce p))) true; FRead RdPong]
      | MsgRekeyInit _ => goto cn [FRead RdRead]
      | MsgSessionClose _ => goto cn [shut_with ErrConnectionClosed]
      | _ => if ccHandler conf then goto cn [FRead (RdLock m)] else goto cn [FRead RdRead]
      end
  | RdPong => None
  | RdLock m => enabled (canRLock cn) (goto (RLock i cn) [FRead (RdCheck m)])
  | RdCheck m => if is_done cn then goto cn [FRead (RdUnlock None)] else goto cn [FRead (RdSelect m)]
  | RdSelect m =>
      if zlen (qHandler cn) <? ccHandlerQueue conf
      then goto (set_ghDispatched (ghDispatched cn ++ [m]) (set_qHandler (qHandler cn ++ [m]) cn))
             [FRead (RdUnlock (Some false))]
      else goto cn [FRead (RdUnlock (Some true))]
  | RdUnlock full =>
      match full with
      | None => goto (RUnlock i cn) []
      | Some false => goto (RUnlock i cn) [FRead RdRead]
      | Some true => goto (RUnlock i cn) [shut_with ErrHandlerQueueFull]
      end
  end.

(** callHandlerBounded is [HdCall] and, with a bound, [HdGrace]; a panic of the
    handler is a choice like its result. *)
Definition handlerLoop_step (c : Choice) (pc : HandlerPc) (cn : Connection) : Effect :=
  match pc with
  | HdPoll => if is_done cn then goto cn [] else goto cn [FHandler HdSelect]
  | HdSelect =>
      match c, qHandler cn with
      | CCase 0, _ => enabled (is_done cn) (goto cn [])
      | CCase 1, m :: q => goto (set_qHandler q cn) [FHandler (HdRecheck m)]
      | _, _ => None
      end
  | HdRecheck m => if is_done cn then goto cn [] else goto (set_ghCalled (ghCalled cn ++ [m]) cn) [FHandler HdCall]
  | HdCall =>
      match c with
      | CErr r => goto cn [FHandler (HdResult r)]
      | CCase 0 => goto cn [FHandler (HdResult (Some ErrHandlerPanic))]
      | CCase 1 => enabled ((0 <? ccHandlerShutdownTimeout conf) && is_done cn) (goto cn [FHandler HdGrace])
      | _ => None
      end
  | HdGrace =>
      match c with
      | CErr r => goto cn [FHandler (HdResult r)]
      | CCase 0 => goto cn [FHandler (HdResult (Some ErrHandlerPanic))]
      | CCase 1 => goto cn [FHandler (HdResult None)]
      | _ => None
      end
  | HdResult (Some e) => goto cn [shut_with e]
  | HdResult None => goto cn [FHandler HdPoll]
  end.

(** ** connection_keepalive.go: the maintenance loop *)

Definition maintenance_init : MaintLocals := mkMaintLocals 0 (0 <? ccKeepaliveInterval conf) false.
Definition idle_close : closeRequest := mkCloseRequest (mkSessionClose 3 (ascii_bytes "idle timeout")) ErrIdleTimeout.

(** The reset that follows an acknowledgement, through a nil keepalive timer a panic. *)
Definition acknowledged (cn : Connection) : Effect :=
  if 0 <? ccKeepaliveInterval conf then goto cn [FMaint (MtSelect (mkMaintLocals 0 true false))] else goto cn [FPanic].

Definition maintenanceLoop_step (c : Choice) (pc : MaintPc) (cn : Connection) : Effect :=
  match pc with
  | MtSelect l =>
      match c with
      | CCase 0 => enabled (is_done cn) (goto cn [])
      | CCase 1 => enabled (pgActivity cn) (goto (set_pgActivity false cn) [FMaint (MtSelect l)])
      | CCase 2 => enabled (pgPong cn) (goto (set_pgPong false cn) [FMaint (MtPong l)])
      | CCase 3 =>
          enabled (mtKeepalive l)
            (if negb (mtOutstanding l =? 0) then goto cn [FMaint (MtSelect l)] else goto cn [FMaint (MtBegin l)])
      | CCase 4 => enabled (mtDeadline l) (goto cn [FMaint (MtExpired l)])
      | CCase 5 => enabled (0 <? ccIdleTimeout conf) (goto cn [FClose (ClOnce idle_close)])
      | _ => None
      end
  | MtPong l =>
      if mtOutstanding l =? 0 then goto cn [FMaint (MtSelect l)] else
      let '(cn, ok) := consumePingAcknowledgement cn in
      if ok : bool then acknowledged cn else goto cn [FMaint (MtSelect l)]
  | MtBegin l =>
      let '(cn, outstanding) := beginPing cn in
      if outstanding =? 0 then goto cn [] else
      goto cn [enqueueControl (MsgPingPong (mkPingPong false outstanding)) false;
               FMaint (MtSent (mkMaintLocals outstanding (mtKeepalive l) (mtDeadline l)))]
  | MtSent _ => None
  | MtClear l => goto (clearPing cn) [FMaint (MtSelect (mkMaintLocals 0 (mtKeepalive l) (mtDeadline l)))]
  | MtExpired l =>
      let '(cn, ok) := consumePingAcknowledgement cn in
      if ok : bool then acknowledged cn else goto cn [shut_with ErrKeepaliveTimeout]
  end.

(** ** connection_lifecycle.go: Start and its helper goroutines *)

Definition Start_step (i : nat) (pc : StartPc) (cn : Connection) : Effect :=
  match pc with
  | StOnce x =>
      match syStart cn with
      | Fresh => goto (set_syStart (Running i) cn) [FStart (StCheck x)]
      | Running _ => None
      | Finished => goto cn []
      end
  | StCheck x =>
      match env x with
      | Some e => goto cn [shut_with e; FStart StDone]
      | None => goto (set_lfStarted true cn) [FStart (StSpawn x)]
      end
  | StDone => close_done (set_syStart Finished cn) []
  | StSpawn _ => None
  end.

Definition watch_step (c : Choice) (pc : WatchPc) (cn : Connection) : Effect :=
  match pc with
  | WaSelect x =>
      match c with
      | CCase 0 => match env x with Some e => goto cn [FWatch (WaRecord e)] | None => None end
      | CCase 1 => enabled (is_done cn) (goto cn [])
      | _ => None
      end
  | WaRecord e =>
      goto (recordTerminal e cn)
        [FClose (ClOnce (mkCloseRequest (mkSessionClose 0 (ascii_bytes "context canceled")) e))]
  end.

Definition join_step (joined : bool) (pc : JoinPc) (cn : Connection) : Effect :=
  match pc with
  | JnWait => enabled joined (goto cn [FJoin JnShutdown])
  | JnShutdown => goto cn [FShut (ShRecord (context_Cause cn)); FJoin JnDone]
  | JnDone => close_done cn []
  end.

(** The caller of enqueueChannel takes its result. *)
Definition return_step (r : option error) (caller : Frm) : option (list Frm) :=
  match caller, r with
  | FSendWait (SwEnqueued _ _), Some e => Some [FRet (Some e)]
  | FSendWait (SwEnqueued k x), None => Some [FSendWait (SwSelect k x)]
  | FRead RdPong, Some e => Some [shut_with e]
  | FRead RdPong, None => Some [FRead RdRead]
  | FMaint (MtSent l), Some _ => Some [FMaint (MtClear l)]
  | FMaint (MtSent l), None => Some [FMaint (MtSelect (mkMaintLocals (mtOutstanding l) false true))]
  | _, _ => None
  end.

(** The step of the frame on top of a stack that neither returns nor spawns. *)
Definition frame_step (i : nat) (joined : bool) (c : Choice) (fr : Frm) (cn : Connection) : Effect :=
  match fr with
  | FEnq pc => enqueueChannel_step i c pc cn
  | FSendWait pc => SendPaddedAndWait_step i c pc cn
  | FShut pc => shutdown_step i c pc cn
  | FWrite pc => writeLoop_step c pc cn
  | FRead pc => readLoop_step i c pc cn
  | FHandler pc => handlerLoop_step c pc cn
  | FMaint pc => maintenanceLoop_step c pc cn
  | FClose pc => closeGracefully_step i c pc cn
  | FStart pc => Start_step i pc cn
  | FWatch pc => watch_step c pc cn
  | FJoin pc => join_step joined pc cn
  | FRet _ | FPanic => None
  end.
End runtime.

(** ** The system *)

Definition reader : nat := 0.
Definition writer : nat := 1.
Definition maintenance : nat := 2.
Definition handler : nat := 3.
Definition watcher : nat := 4.
Definition joiner : nat := 5.

Record Sys := mkSys { sysConn : Connection; sysEnv : nat → option error; sysThr : nat → list Frm }.

Definition sys_init : Sys := mkSys NewConnection (λ _, None) (λ _, []).

Definition upd {A} (i : nat) (x : A) (f : nat → A) (j : nat) : A := if decide (j = i) then x else f j.

(** What a user may call; a nil context is Background. *)
Inductive Op :=
  | OpSendPadded (m : AnyMessage) (pad : Z)
  | OpSendPaddedContext (x : option nat) (m : AnyMessage) (pad : Z)
  | OpSendPaddedAndWait (x : option nat) (m : AnyMessage) (pad : Z)
  | OpStart (x : nat)
  | OpClose
  | OpAbort (e : error).

Definition user_ctx (x : option nat) : EnqCtx := match x with Some x => CtxUser x | None => CtxBackground end.
Definition local_close : closeRequest :=
  mkCloseRequest (mkSessionClose 0 (ascii_bytes "local shutdown")) ErrConnectionClosed.

(** The calls: each is the first frame of its thread. *)
Definition enqueue (x : EnqCtx) (item : queuedMessage) (wait : bool) : Frm :=
  FEnq (EqLock (mkEnqArgs x false item wait)).
Definition SendPadded (m : AnyMessage) (pad : Z) : Frm := enqueue CtxBackground (mkQueuedMessage m pad None) false.
Definition SendPaddedContext (x : option nat) (m : AnyMessage) (pad : Z) : Frm :=
  enqueue (user_ctx x) (mkQueuedMessage m pad None) true.
Definition SendPaddedAndWait (x : option nat) (m : AnyMessage) (pad : Z) : Frm := FSendWait (SwMake (user_ctx x) m pad).
Definition Start (x : nat) : Frm := FStart (StOnce x).
Definition Close : Frm := FClose (ClOnce local_close).
Definition abort (e : error) : Frm := shut_with e.

(** The calls without padding. *)
Definition Send (m : AnyMessage) : Op := OpSendPadded m 0.
Definition TrySend (m : AnyMessage) : Op := Send m.
Definition SendContext (x : option nat) (m : AnyMessage) : Op := OpSendPaddedContext x m 0.
Definition SendAndWait (x : option nat) (m : AnyMessage) : Op := OpSendPaddedAndWait x m 0.

Definition op_frame (op : Op) : Frm :=
  match op with
  | OpSendPadded m pad => SendPadded m pad
  | OpSendPaddedContext x m pad => SendPaddedContext x m pad
  | OpSendPaddedAndWait x m pad => SendPaddedAndWait x m pad
  | OpStart x => Start x
  | OpClose => Close
  | OpAbort e => abort e
  end.

Section system.
Context (conf : ConnectionConfig).

(** The goroutines of a started connection. *)
Definition spawn (x : nat) (thr : nat → list Frm) : nat → list Frm :=
  upd reader [FRead RdRead] $ upd writer [FWrite WlPoll] $ upd maintenance [FMaint (MtSelect (maintenance_init conf))] $
  upd handler (if ccHandler conf then [FHandler HdPoll] else []) $ upd watcher [FWatch (WaSelect x)] $
  upd joiner [FJoin JnWait] thr.

(** wg.Wait *)
Definition loops_done (thr : nat → list Frm) : bool :=
  bool_decide (thr reader = []) && bool_decide (thr writer = []) && bool_decide (thr maintenance = []) &&
  bool_decide (thr handler = []).

Definition thread_step (i : nat) (c : Choice) (s : Sys) : option Sys :=
  match sysThr s i with
  | [] => None
  | [FRet _] => Some (mkSys (sysConn s) (sysEnv s) (upd i [] (sysThr s)))
  | FRet r :: caller :: rest =>
      frs ← return_step r caller; Some (mkSys (sysConn s) (sysEnv s) (upd i (frs ++ rest) (sysThr s)))
  | FStart (StSpawn x) :: rest =>
      Some (mkSys (set_syStart Finished (sysConn s)) (sysEnv s) (upd i rest (spawn x (sysThr s))))
  | fr :: rest =>
      '(cn, frs) ← frame_step conf (sysEnv s) i (loops_done (sysThr s)) c fr (sysConn s);
      Some (mkSys cn (sysEnv s) (upd i (frs ++ rest) (sysThr s)))
  end.

(** A thread runs, an idle user thread calls, a call context is cancelled. *)
Inductive Label := LRun (i : nat) (c : Choice) | LCall (i : nat) (op : Op) | LCancel (x : nat) (e : error).

Definition sys_step (l : Label) (s : Sys) : option Sys :=
  match l with
  | LRun i c => thread_step i c s
  | LCall i op =>
      if bool_decide (joiner < i)%nat && bool_decide (sysThr s i = [])
      then Some (mkSys (sysConn s) (sysEnv s) (upd i [op_frame op] (sysThr s))) else None
  | LCancel x e =>
      match sysEnv s x with
      | None => Some (mkSys (sysConn s) (upd x (Some e) (sysEnv s)) (sysThr s))
      | Some _ => None
      end
  end.

Fixpoint sys_run (ls : list Label) (s : Sys) : option Sys :=
  match ls with [] => Some s | l :: ls => s ← sys_step l s; sys_run ls s end.

Definition sys_any_step (s s' : Sys) : Prop := ∃ l, sys_step l s = Some s'.
Definition reachable (s : Sys) : Prop := rtc sys_any_step sys_init s.
End system.
