(* ===== verification/ConnectionSteps.v ===== *)
(** * Steps of the connection runtime

    What each step of Connection.v does to the stack of its thread, to the locks
    and onces, to the facts that never become false again, and to the facts a
    program counter stands for.  ConnectionSafety.v combines these into
    invariants. *)

From stdpp Require Import gmap.
From S2P Require Import Prelude Wire Header Frame Tlv Utf8 Messages Replay Sha256 Crypto Rekey Session.
From S2P Require Import SessionSend SessionReceive SessionPair Transport ConnectionIO Handshake Config Connection.

Local Open Scope Z_scope.

(** ** What the operations leave alone *)

Lemma complete_Some item r (cn cn' : Connection) :
  complete item r cn = Some cn' →
  ∃ chans, cn' = set_qChans chans (set_ghFinished (ghFinished cn ++ [(item, r)]) cn) ∧
    match qmCompletion item with
    | None => chans = qChans cn
    | Some k => ∃ o, qChans cn !! k = Some (mkChanCell o None) ∧ chans = <[k := mkChanCell o (Some r)]> (qChans cn)
    end.
Proof.
  unfold complete. destruct (qmCompletion item) as [k|].
  - destruct (qChans _ !! k) as [[o []]|] eqn:Hk; [done| |done]. intros [= <-]. eexists. split; [done|].
    exists o. by split.
  - intros [= <-]. exists (qChans cn). split; [|done]. by destruct cn as [[] ? ? ? ?].
Qed.

Lemma send_close_result_Some r (cn cn' : Connection) :
  send_close_result r cn = Some cn' →
  qCloseResult cn = None ∧ cn' = set_ghSent (S (ghSent cn)) (set_qCloseResult (Some r) cn).
Proof. unfold send_close_result. destruct (qCloseResult cn); naive_solver. Qed.

Definition queues_empty (cn : Connection) : Prop := qControl cn = [] ∧ qOutbound cn = [] ∧ qCloseRequest cn = None.

Lemma failPending_turn_Some c err (cn cn' : Connection) over :
  failPending_turn c err cn = Some (cn', over) →
  (over = true ∧ cn' = cn ∧ queues_empty cn) ∨
  (over = false ∧ ∃ item q, qControl cn = item :: q ∧ complete item (Some err) (set_qControl q cn) = Some cn') ∨
  (over = false ∧ ∃ item q, qOutbound cn = item :: q ∧ complete item (Some err) (set_qOutbound q cn) = Some cn') ∨
  (over = false ∧ ∃ q, qCloseRequest cn = Some q ∧
     send_close_result (Some err) (set_qCloseRequest None cn) = Some cn').
Proof.
  unfold failPending_turn, queues_empty.
  destruct c as [[|[|[|[|]]]]| |], (qControl cn), (qOutbound cn), (qCloseRequest cn); cbn; try done; intros H.
  all: try (destruct (complete _ _ _) eqn:?); try (destruct (send_close_result _ _) eqn:?); cbn in H; try done.
  all: injection H as <- <-; naive_solver.
Qed.

Lemma receive_completion_Some k (cn cn' : Connection) r :
  receive_completion k cn = Some (cn', r) →
  ∃ o, qChans cn !! k = Some (mkChanCell o (Some r)) ∧ cn' = set_qChans (<[k := mkChanCell o None]> (qChans cn)) cn.
Proof. unfold receive_completion. destruct (qChans cn !! k) as [[o [|]]|]; naive_solver. Qed.

Definition next_nonce (cn : Connection) : Z :=
  let nonce := wrap 64 (pgNonce cn + 1) in if nonce =? 0 then 1 else nonce.

Lemma beginPing_inv (cn cn' : Connection) n :
  beginPing cn = (cn', n) →
  lfCtx cn ≠ None ∧ cn' = cn ∧ n = 0 ∨
  lfCtx cn = None ∧ n = next_nonce cn ∧
    cn' = set_ghAckLog [] (set_pgNonce n (set_pgAcknowledged false (set_pgExpected n cn))).
Proof.
  unfold beginPing, is_done. case_bool_decide as Hd; intros [= <- <-]; [by left|right].
  split; [by destruct (lfCtx cn); [destruct Hd|]|done].
Qed.

Lemma acknowledgePing_inv n (cn : Connection) :
  let cn1 := set_ghAckLog (ghAckLog cn ++ [n]) cn in
  acknowledgePing n cn = cn1 ∧ (n ≠ pgExpected cn ∨ pgExpected cn = 0 ∨ lfCtx cn ≠ None) ∨
  acknowledgePing n cn = set_pgPong true (set_pgAcknowledged true (set_pgExpected 0 cn1)) ∧
    n = pgExpected cn ∧ n ≠ 0 ∧ lfCtx cn = None.
Proof.
  unfold acknowledgePing. cbn. destruct (Z.eqb_spec (pgExpected cn) 0); [left; split; [done|tauto]|].
  destruct (Z.eqb_spec n (pgExpected cn)); cbn; [|left; split; [done|tauto]].
  unfold is_done. case_bool_decide as Hd; cbn in Hd; [left; split; [done|tauto]|right].
  repeat split; [done|congruence|]. by destruct (lfCtx cn); [destruct Hd|].
Qed.

Lemma recordTerminal_inv e (cn : Connection) :
  lfTerminal cn = None ∧ recordTerminal e cn = set_lfTerminal (Some e) cn ∨
  lfTerminal cn ≠ None ∧ recordTerminal e cn = cn.
Proof. unfold recordTerminal. destruct (lfTerminal cn) eqn:?; naive_solver. Qed.

Lemma cancel_inv e (cn : Connection) :
  lfCtx cn = None ∧ cancel e cn = set_lfCtx (Some e) cn ∨ lfCtx cn ≠ None ∧ cancel e cn = cn.
Proof. unfold cancel. destruct (lfCtx cn) eqn:?; naive_solver. Qed.

Lemma push_item_inv a (cn : Connection) :
  let cn1 := set_ghAccepted (ghAccepted cn ++ [eaItem a]) cn in
  eaControl a = true ∧ push_item a cn = set_qControl (qControl cn ++ [eaItem a]) cn1 ∨
  eaControl a = false ∧ push_item a cn = set_qOutbound (qOutbound cn ++ [eaItem a]) cn1.
Proof. unfold push_item. destruct (eaControl a); auto. Qed.

Lemma is_done_true (cn : Connection) : is_done cn = true ↔ lfCtx cn ≠ None.
Proof. apply bool_decide_eq_true. Qed.
Lemma is_done_false (cn : Connection) : is_done cn = false ↔ lfCtx cn = None.
Proof. unfold is_done. rewrite bool_decide_eq_false. destruct (lfCtx cn); naive_solver. Qed.

(** ** Cases of a step *)

Ltac head_cases H :=
  repeat lazymatch type of H with
  | (match ?x with _ => _ end) = Some _ => destruct x eqn:?; try discriminate H
  | (let '(_, _) := ?x in _) = Some _ => destruct x eqn:?; try discriminate H
  end.

(** Replaces the result of an operation by the fields it sets. *)
Ltac operations :=
  repeat match goal with
  | H : complete _ _ _ = Some _ |- _ => apply complete_Some in H as (? & -> & ?)
  | H : send_close_result _ _ = Some _ |- _ => apply send_close_result_Some in H as (? & ->)
  | H : receive_completion _ _ = Some _ |- _ => apply receive_completion_Some in H as (? & ? & ->)
  | H : failPending_turn _ _ _ = Some (_, _) |- _ =>
      apply failPending_turn_Some in H
        as [(? & -> & ?)|[(? & ? & ? & ? & H)|[(? & ? & ? & ? & H)|(? & ? & ? & H)]]]; try discriminate
  | H : beginPing _ = _ |- _ => apply beginPing_inv in H as [(? & -> & ->)|(? & ? & ->)]
  | H : consumePingAcknowledgement _ = _ |- _ => injection H as <- ?
  | H : is_done _ = true |- _ => apply is_done_true in H
  | H : is_done _ = false |- _ => apply is_done_false in H
  | |- context [push_item ?a ?cn] => destruct (push_item_inv a cn) as [(? & ->)|(? & ->)]
  | |- context [recordTerminal ?e ?cn] => destruct (recordTerminal_inv e cn) as [(? & ->)|(? & ->)]
  | |- context [cancel ?e ?cn] => destruct (cancel_inv e cn) as [(? & ->)|(? & ->)]
  | |- context [acknowledgePing ?n ?cn] => destruct (acknowledgePing_inv n cn) as [(-> & ?)|(-> & ? & ? & ?)]
  end.

(** All the ways in which a frame can make its step. *)
Ltac step_cases H :=
  cbv [frame_step enqueueChannel_step SendPaddedAndWait_step shutdown_step writeLoop_step readLoop_step
       handlerLoop_step maintenanceLoop_step closeGracefully_step Start_step watch_step join_step
       enabled goto close_done acknowledged mbind option_bind noteActivity] in H;
  head_cases H; try discriminate H; injection H as <- <-; operations.

(** ** Stacks *)

Definition after_shut (fr : Frm) : bool :=
  match fr with
  | FWrite WlFailStart | FClose (ClDone _) | FClose (ClEnd _) | FStart StDone | FJoin JnDone => true
  | _ => false
  end.
Definition after_enq (fr : Frm) : bool :=
  match fr with FSendWait (SwEnqueued _ _) | FRead RdPong | FMaint (MtSent _) => true | _ => false end.

Definition shape (st : list Frm) : bool :=
  match st with
  | [] => true
  | [fr] => negb (after_enq fr)
  | [FShut _; b] => after_shut b
  | [FEnq _; b] | [FRet _; b] => after_enq b
  | _ => false
  end.

#[global] Instance once_eq_dec : EqDecision Once.
Proof. solve_decision. Defined.

Inductive Res := RRead | RWrite | RShut | RStart | RClose.

(** A frame that is inside a lock or the function of a once. *)
Definition owns (R : Res) (fr : Frm) : bool :=
  match R, fr with
  | RRead, FEnq (EqCtx _ | EqClosing _ | EqSelect _ | EqUnlock _) => true
  | RRead, FRead (RdCheck _ | RdSelect _ | RdUnlock _) => true
  | RRead, FClose (ClCheck _ | ClSelect _ | ClSent _ | ClUnlock _ _ | ClUnlockReturn _) => true
  | RWrite, FShut (ShFailStart | ShFail _ | ShDrain | ShUnlock) => true
  | RShut, FShut (ShRecord _ | ShOnce _) => false
  | RShut, FShut _ => true
  | RStart, FClose (ClDone _) => true
  | RStart, FStart (StCheck _ | StDone | StSpawn _) => true
  | RClose, FClose (ClOnce _) => false
  | RClose, FClose _ => true
  | _, _ => false
  end.

#[local] Arguments owns !R !fr / : simpl nomatch.

Lemma below_owns fr :
  after_shut fr || after_enq fr = true → owns RRead fr = false ∧ owns RWrite fr = false ∧ owns RShut fr = false.
Proof. destruct fr as [[]|[]|[]|[]|[]|[]|[]|[]|[]|[]|[]| |]; try done. Qed.

Definition held (R : Res) (cn : Connection) (i : nat) : bool :=
  match R with
  | RRead => bool_decide (i ∈ syReaders cn)
  | RWrite => bool_decide (syWriter cn = Some i)
  | RShut => bool_decide (syShutdown cn = Running i)
  | RStart => bool_decide (syStart cn = Running i)
  | RClose => bool_decide (syClose cn = Running i)
  end.

Fixpoint cnt (R : Res) (st : list Frm) : nat :=
  match st with [] => 0 | fr :: st => Nat.b2n (owns R fr) + cnt R st end.


(** ** Facts that stay true *)

Record cn_le (cn cn' : Connection) : Prop := {
  le_ctx : ∀ e, lfCtx cn = Some e → lfCtx cn' = Some e;
  le_terminal : ∀ e, lfTerminal cn = Some e → lfTerminal cn' = Some e;
  le_started : lfStarted cn = true → lfStarted cn' = true;
  le_closing : lfClosing cn = true → lfClosing cn' = true;
  le_done : lfDone cn = true → lfDone cn' = true;
  le_session : lfSession cn = true → lfSession cn' = true;
  le_transport : lfTransport cn = true → lfTransport cn' = true;
  le_sealed : ghSealed cn = true → ghSealed cn' = true;
  le_start : syStart cn = Finished → syStart cn' = Finished;
  le_shutdown : syShutdown cn = Finished → syShutdown cn' = Finished;
  le_close : syClose cn = Finished → syClose cn' = Finished;
  le_close_begun : syClose cn ≠ Fresh → syClose cn' ≠ Fresh;
  le_queues : ghSealed cn = true → queues_empty cn → queues_empty cn';
  le_handler : ghSealed cn = true → qHandler cn = [] → qHandler cn' = [];
}.

#[global] Instance cn_le_preorder : PreOrder cn_le.
Proof.
  split; [by constructor|]. intros x y z [] []. constructor; eauto.
Qed.

Lemma le_ctx_not_None cn cn' : cn_le cn cn' → lfCtx cn ≠ None → lfCtx cn' ≠ None.
Proof. intros Hle. destruct (lfCtx cn) as [e|] eqn:He; [by rewrite (le_ctx _ _ Hle e He)|done]. Qed.
Lemma le_terminal_not_None cn cn' : cn_le cn cn' → lfTerminal cn ≠ None → lfTerminal cn' ≠ None.
Proof. intros Hle. destruct (lfTerminal cn) as [e|] eqn:He; [by rewrite (le_terminal _ _ Hle e He)|done]. Qed.

(** ** Facts of a program counter *)

Definition sealed (cn : Connection) : Prop := lfTerminal cn ≠ None ∧ ghSealed cn = true.

Definition shutdown_ok (cn : Connection) (pc : ShutdownPc) : Prop :=
  match pc with
  | ShRecord _ => True
  | ShOnce _ | ShClosing _ => lfTerminal cn ≠ None
  | ShCancel _ => lfTerminal cn ≠ None ∧ lfClosing cn = true
  | ShClearPing | ShLock => lfTerminal cn ≠ None ∧ lfClosing cn = true ∧ lfCtx cn ≠ None
  | ShFailStart | ShFail _ => sealed cn
  | ShDrain => sealed cn ∧ queues_empty cn
  | ShUnlock | ShSession => sealed cn ∧ queues_empty cn ∧ qHandler cn = []
  | ShTransport => sealed cn ∧ queues_empty cn ∧ qHandler cn = [] ∧ lfSession cn = true
  end.

(** The timers of the maintenance loop exist whenever they are used. *)
Definition maint_ok (conf : ConnectionConfig) (pc : MaintPc) : Prop :=
  match pc with
  | MtSelect l | MtPong l | MtClear l =>
      mtOutstanding l ≠ 0 ∨ mtKeepalive l = true ∨ mtDeadline l = true → 0 < ccKeepaliveInterval conf
  | MtBegin _ | MtSent _ | MtExpired _ => 0 < ccKeepaliveInterval conf
  end.

(** Which frames run in which thread. *)
Definition role (fr : Frm) : option nat :=
  match fr with
  | FRead _ => Some reader | FWrite _ => Some writer | FMaint _ => Some maintenance | FHandler _ => Some handler
  | FWatch _ => Some watcher | FJoin _ => Some joiner | _ => None
  end.
Definition role_ok (i : nat) (fr : Frm) : Prop :=
  match fr with
  | FStart _ | FSendWait _ => (joiner < i)%nat
  | _ => ∀ k, role fr = Some k → i = k
  end.

Definition frame_ok (conf : ConnectionConfig) (i : nat) (cn : Connection) (fr : Frm) : Prop :=
  role_ok i fr ∧
  match fr with
  | FShut pc => shutdown_ok cn pc
  | FMaint pc => maint_ok conf pc
  | FStart (StSpawn _) => lfStarted cn = true
  | FPanic => False
  | _ => True
  end.

(** A frame that waits for shutdown goes on when shutdown is finished. *)
Definition sole_ok (cn : Connection) (st : list Frm) : Prop :=
  match st with
  | [FClose (ClDone _)] | [FStart StDone] | [FJoin JnDone] => syShutdown cn = Finished
  | _ => True
  end.

(** A producer that has passed its checks. *)
Definition post_check (fr : Frm) : bool :=
  match fr with FEnq (EqSelect _) | FClose (ClSelect _) | FRead (RdSelect _) => true | _ => false end.

(** Everything shutdown disposes of. *)
Definition disposed (cn : Connection) : Prop :=
  sealed cn ∧ queues_empty cn ∧ qHandler cn = [] ∧ lfSession cn = true ∧ lfTransport cn = true.

Record glob_ok (cn : Connection) : Prop := {
  go_sealed : ghSealed cn = true → lfClosing cn = true ∧ lfCtx cn ≠ None;
  go_finished : syShutdown cn = Finished → disposed cn;
}.

Lemma shutdown_ok_le cn cn' pc : cn_le cn cn' → shutdown_ok cn pc → shutdown_ok cn' pc.
Proof.
  intros Hle. pose proof (le_ctx_not_None _ _ Hle). pose proof (le_terminal_not_None _ _ Hle). destruct Hle.
  destruct pc; cbn; unfold sealed; naive_solver.
Qed.

Lemma frame_ok_le conf i cn cn' fr : cn_le cn cn' → frame_ok conf i cn fr → frame_ok conf i cn' fr.
Proof.
  intros Hle [Hr Hf]. split; [done|]. destruct fr as [| |pc| | | | | |[]| | | |]; try done.
  - by eapply shutdown_ok_le.
  - by apply Hle.
Qed.

Lemma sole_ok_le cn cn' st : cn_le cn cn' → sole_ok cn st → sole_ok cn' st.
Proof. intros Hle. destruct st as [|[] [|]]; try done; destruct pc; try done; apply Hle. Qed.

(** A frame that is about to close done, one that runs while started is false, one
    of the joiner. *)
Definition closer (fr : Frm) : bool :=
  match fr with FClose (ClDone _) | FStart StDone | FJoin JnDone => true | _ => false end.
Definition join_frame (fr : Frm) : bool := match fr with FJoin _ => true | _ => false end.
Definition startless (fr : Frm) : bool :=
  match fr with FClose (ClDone _) | FStart (StCheck _ | StDone) => true | _ => false end.

Fixpoint jcnt (st : list Frm) : nat :=
  match st with [] => 0 | fr :: st => Nat.b2n (join_frame fr) + jcnt st end.

Section steps.
Context (conf : ConnectionConfig) (env : nat → option error) (i : nat) (joined : bool) (c : Choice).

Lemma frame_step_shape fr rest cn cn' frs :
  frame_step conf env i joined c fr cn = Some (cn', frs) → shape (fr :: rest) = true → shape (frs ++ rest) = true.
Proof.
  intros H Hs. destruct rest as [|u [|]]; destruct fr; try discriminate Hs; step_cases H; cbn in *; auto; try discriminate; by destruct u.
Qed.

Lemma frame_step_own R fr rest cn cn' frs :
  frame_step conf env i joined c fr cn = Some (cn', frs) → frs ≠ [FPanic] → shape (fr :: rest) = true →
  cnt R (fr :: rest) = Nat.b2n (held R cn i) →
  cnt R (frs ++ rest) = Nat.b2n (held R cn' i) ∧ ∀ j, j ≠ i → held R cn' j = held R cn j.
Proof.
  intros H Hp Hs Hc. destruct rest as [|u [|]]; destruct fr; try discriminate Hs.
  all: try (destruct (below_owns u) as (Hr & Hw & Hu); [cbn in Hs; rewrite Hs; by destruct (after_shut u)|]).
  all: step_cases H; try (by destruct Hp); clear Hs Hp.
  all: destruct R; cbn in Hc |- *; try (split; [exact Hc|done]).
  all: unfold canRLock, canLock in *.
  all: try rewrite ?Hr, ?Hw, ?Hu in *.
  all: repeat match goal with H : bool_decide _ = true |- _ => apply bool_decide_eq_true in H end.
  all: (split; [|intros j Hj]; repeat case_bool_decide; cbn in *; try lia; try congruence; set_solver).
Qed.

Lemma frame_step_le fr cn cn' frs :
  frame_step conf env i joined c fr cn = Some (cn', frs) → (ghSealed cn = true → post_check fr = false) →
  cn_le cn cn'.
Proof.
  intros H Hp. step_cases H; try reflexivity.
  all: cbn in Hp; constructor; cbn; unfold queues_empty; cbn; try (done || congruence || naive_solver).
  all: intros _ (? & ? & ?); congruence.
Qed.

Lemma frame_step_glob fr cn cn' frs :
  frame_step conf env i joined c fr cn = Some (cn', frs) → cn_le cn cn' → frame_ok conf i cn fr → glob_ok cn →
  glob_ok cn'.
Proof.
  intros H Hle [_ Hf] [Hs Hd].
  assert (syShutdown cn = Finished → disposed cn') as Hd'.
  { intros Hfin%Hd. pose proof (le_terminal_not_None _ _ Hle). destruct Hle. unfold disposed, sealed in *. naive_solver. }
  assert (ghSealed cn = true → lfClosing cn' = true ∧ lfCtx cn' ≠ None) as Hs'.
  { intros [? ?]%Hs. split; [by apply Hle|by eapply le_ctx_not_None]. }
  clear Hs Hd Hle. revert Hs' Hd'.
  step_cases H; intros Hs' Hd'; constructor; try exact Hs'; try exact Hd'; cbn in Hf |- *; try done.
  - intros _. by apply Hd'.
  - intros _. naive_solver.
  - intros _. unfold disposed, sealed, queues_empty in *. cbn. naive_solver.
Qed.

Lemma frame_step_ok fr cn cn' frs :
  frame_step conf env i joined c fr cn = Some (cn', frs) → frame_ok conf i cn fr → (closer fr = true → lfDone cn = false) →
  Forall (frame_ok conf i cn') frs.
Proof.
  intros H [Hr Hf] Hd. step_cases H; cbn in Hr, Hf, Hd.
  all: repeat constructor; cbn; try done; try (intros ? [= <-]; by eapply Hr).
  all: unfold sealed, queues_empty in *; cbn in *.
  all: repeat match goal with
    | H : (_ <? _) = true |- _ => apply Z.ltb_lt in H
    | H : (_ <? _) = false |- _ => apply Z.ltb_ge in H
    | H : (_ =? _) = false |- _ => apply Z.eqb_neq in H
    | H : _ ∧ _ |- _ => destruct H
    end; try done; try (intuition (congruence || lia)).
Qed.

Lemma frame_step_sole fr rest cn cn' frs :
  frame_step conf env i joined c fr cn = Some (cn', frs) → shape (fr :: rest) = true → sole_ok cn' (frs ++ rest).
Proof.
  intros H Hs. destruct rest as [|u [|]]; destruct fr; try discriminate Hs; step_cases H; try done.
  all: cbn; destruct u as [[]|[]|[]|[]|[]|[]|[]|[]|[]|[]|[]| |]; done.
Qed.

Lemma frame_step_post fr cn cn' frs :
  frame_step conf env i joined c fr cn = Some (cn', frs) → glob_ok cn → cn_le cn cn' →
  ghSealed cn' = true → Forall (λ fr, post_check fr = false) frs.
Proof.
  intros H [Hs _] _. revert Hs. step_cases H; intros Hs; repeat constructor; cbn; try done.
  all: naive_solver.
Qed.

Lemma frame_step_sealed fr cn cn' frs :
  frame_step conf env i joined c fr cn = Some (cn', frs) → ghSealed cn' = true →
  ghSealed cn = true ∨ syReaders cn = ∅.
Proof.
  intros H. step_cases H; cbn; auto. intros _. right.
  match goal with H : canLock _ = true |- _ => by apply bool_decide_eq_true in H as [_ ?] end.
Qed.

(** How Start, started and done change. *)
Inductive start_case (cn cn' : Connection) (fr : Frm) (frs : list Frm) : Prop :=
  | start_same :
      syStart cn' = syStart cn → lfStarted cn' = lfStarted cn → lfDone cn' = lfDone cn →
      Forall (λ fr, startless fr = false) frs → jcnt frs = jcnt [fr] → start_case cn cn' fr frs
  | start_claim :
      syStart cn = Fresh → syStart cn' = Running i → lfStarted cn' = lfStarted cn → lfDone cn' = lfDone cn →
      jcnt frs = 0%nat → jcnt [fr] = 0%nat → start_case cn cn' fr frs
  | start_store x :
      fr = FStart (StCheck x) → syStart cn' = syStart cn → lfStarted cn' = true → lfDone cn' = lfDone cn →
      frs = [FStart (StSpawn x)] →
      start_case cn cn' fr frs
  | start_refuse x e :
      fr = FStart (StCheck x) → cn' = cn → frs = [shut_with e; FStart StDone] → start_case cn cn' fr frs
  | start_over :
      startless fr = true → closer fr = true → syStart cn' = Finished → lfStarted cn' = lfStarted cn → lfDone cn' = true →
      Forall (λ fr, startless fr = false) frs → jcnt frs = 0%nat → start_case cn cn' fr frs
  | start_joined :
      fr = FJoin JnDone → syStart cn' = syStart cn → lfStarted cn' = lfStarted cn → lfDone cn' = true →
      frs = [] → start_case cn cn' fr frs.

Lemma frame_step_start fr cn cn' frs :
  frame_step conf env i joined c fr cn = Some (cn', frs) → (closer fr = true → lfDone cn = false) →
  start_case cn cn' fr frs.
Proof.
  intros H Hd. step_cases H; cbn in Hd.
  all: try (by apply start_same; [reflexivity..|repeat constructor|reflexivity]).
  all: cbn in *; try (rewrite Hd in *; by try discriminate); try (specialize (Hd eq_refl); congruence).
  - by apply start_claim.
  - by apply start_over; repeat constructor.
  - by apply start_claim.
  - by eapply start_refuse.
  - by eapply start_store.
  - by apply start_over.
  - by apply start_joined.
Qed.
End steps.
