(* ===== verification/ConnectionSafety.v ===== *)
(** * Safety of the connection runtime

    The invariants of every reachable state and what they mean for users. *)

From stdpp Require Import gmap.
From S2P Require Import Prelude Wire Header Frame Tlv Utf8 Messages Replay Sha256 Crypto Rekey Session.
From S2P Require Import SessionSend SessionReceive SessionPair Transport ConnectionIO Handshake Config.
From S2P Require Import Connection ConnectionSteps.

Local Open Scope Z_scope.

Section safety.
Context (conf : ConnectionConfig).

Record core_inv (cn : Connection) (thr : nat → list Frm) : Prop := {
  ci_shape : ∀ i, shape (thr i) = true;
  ci_own : ∀ i R, cnt R (thr i) = Nat.b2n (held R cn i);
  ci_frames : ∀ i, Forall (frame_ok conf i cn) (thr i);
  ci_sole : ∀ i, sole_ok cn (thr i);
  ci_glob : glob_ok cn;
  ci_post : ghSealed cn = true → ∀ i, Forall (λ fr, post_check fr = false) (thr i);
}.

(** Who closes done: nobody yet, the owner of startOnce, or the joiner. *)
Record start_inv (cn : Connection) (thr : nat → list Frm) : Prop := {
  st_before : syStart cn ≠ Finished → lfDone cn = false;
  st_loops : syStart cn ≠ Finished ∨ lfStarted cn = false → ∀ k, (k ≤ joiner)%nat → thr k = [];
  st_fresh : syStart cn = Fresh → lfStarted cn = false;
  st_startless : ∀ i, Exists (λ fr, startless fr = true) (thr i) → lfStarted cn = false;
  st_done : syStart cn = Finished → (Nat.b2n (lfDone cn) + if lfStarted cn then jcnt (thr joiner) else 0)%nat = 1%nat;
}.

Lemma upd_same {A} i (x : A) f : upd i x f i = x.
Proof. unfold upd. by rewrite decide_True. Qed.
Lemma upd_other {A} i j (x : A) f : j ≠ i → upd i x f j = f j.
Proof. intros. unfold upd. by rewrite decide_False. Qed.

Lemma frames_upd (P : Frm → Prop) thr i st :
  (∀ j, Forall P (thr j)) → Forall P st → ∀ j, Forall P (upd i st thr j).
Proof. intros Ht Hs j. unfold upd. by case_decide. Qed.

Lemma post_check_owns st : cnt RRead st = 0%nat → Forall (λ fr, post_check fr = false) st.
Proof.
  induction st as [|fr st IH]; cbn; constructor; [|apply IH; lia].
  destruct fr as [[]| | | |[]| | |[]| | | | |]; cbn in *; lia || done.
Qed.

(** Thread [i] replaces its stack, the connection changes. *)
Lemma core_update cn cn' thr i st :
  core_inv cn thr → cn_le cn cn' → shape st = true → (∀ R, cnt R st = Nat.b2n (held R cn' i)) →
  (∀ R j, j ≠ i → held R cn' j = held R cn j) → Forall (frame_ok conf i cn') st → sole_ok cn' st → glob_ok cn' →
  (ghSealed cn' = true → Forall (λ fr, post_check fr = false) st) →
  (ghSealed cn' = true → ghSealed cn = true ∨ syReaders cn = ∅) → core_inv cn' (upd i st thr).
Proof.
  intros [Hs Ho Hf Hso Hg Hp] Hle Hs' Hc' Hh' Hf' Hso' Hg' Hp' Hseal. split; [..|done|].
  - intros j. destruct (decide (j = i)) as [->|Hj]; by rewrite ?upd_same, ?upd_other.
  - intros j R. destruct (decide (j = i)) as [->|Hj]; rewrite ?upd_same, ?upd_other by done; [done|].
    by rewrite Ho, Hh'.
  - intros j. destruct (decide (j = i)) as [->|Hj]; rewrite ?upd_same, ?upd_other by done; [done|].
    eapply Forall_impl; [apply Hf|]. intros fr. by apply frame_ok_le.
  - intros j. destruct (decide (j = i)) as [->|Hj]; rewrite ?upd_same, ?upd_other by done; [done|].
    by eapply sole_ok_le.
  - intros Hsl j. destruct (decide (j = i)) as [->|Hj]; rewrite ?upd_same, ?upd_other by done; [auto|].
    destruct (Hseal Hsl) as [Hcn|Hr]; [by apply Hp|]. apply post_check_owns. rewrite Ho. cbn. rewrite Hr.
    by rewrite bool_decide_eq_false_2 by set_solver.
Qed.

Lemma cnt_pos R fr st : fr ∈ st → owns R fr = true → (0 < cnt R st)%nat.
Proof.
  intros Hin Hr. induction st as [|x st IH]; [by apply not_elem_of_nil in Hin|]. cbn [cnt].
  apply elem_of_cons in Hin as [<-|Hin]; [rewrite Hr; cbn; lia|]. specialize (IH Hin). lia.
Qed.

Lemma shape_rest fr rest : shape (fr :: rest) = true → Forall (λ fr, post_check fr = false) rest.
Proof.
  intros Hs. destruct rest as [|u [|v rest]]; [done| |by destruct fr].
  repeat constructor. destruct fr; cbn in Hs; destruct u as [[]| | | |[]| | |[]| | | | |]; done.
Qed.

(** The owner of a once or lock is the thread that holds it. *)
Lemma core_owner cn thr i R fr :
  core_inv cn thr → fr ∈ thr i → owns R fr = true → held R cn i = true.
Proof.
  intros Hc Hfr Hr. pose proof (cnt_pos _ _ _ Hfr Hr) as Hpos.
  rewrite (ci_own _ _ Hc) in Hpos. destruct (held R cn i); [done|]. cbn in Hpos. lia.
Qed.

Lemma closer_done cn thr i fr rest :
  core_inv cn thr → start_inv cn thr → thr i = fr :: rest → closer fr = true → lfDone cn = false.
Proof.
  intros Hc Hst Hthr Hcl.
  assert (held RStart cn i = true ∨ fr = FJoin JnDone) as [Hh|Hj].
  { destruct fr as [| | | | | | |[]|[]| |[]| |]; try discriminate Hcl; auto; left;
    eapply core_owner; [done|rewrite Hthr; by left|done|done|rewrite Hthr; by left|done]. }
  - apply (st_before _ _ Hst). apply bool_decide_eq_true in Hh. congruence.
  - pose proof (ci_frames _ _ Hc i) as Hf. rewrite Hthr, Hj in Hf. apply Forall_cons in Hf as [[Hr _] _].
    cbn in Hr. specialize (Hr _ eq_refl). subst i fr.
    destruct (decide (syStart cn = Finished ∧ lfStarted cn = true)) as [[Hfin Hstd]|Hn].
    + pose proof (st_done _ _ Hst Hfin) as Hd. rewrite Hstd, Hthr in Hd. cbn in Hd.
      destruct (lfDone cn); cbn in Hd; [lia|done].
    + pose proof (st_loops _ _ Hst) as Hl. rewrite Hl in Hthr; [done| |done].
      destruct (lfStarted cn); [left; naive_solver|by right].
Qed.

Lemma core_step_le env cn cn' thr i joined c fr rest frs :
  core_inv cn thr → thr i = fr :: rest → frame_step conf env i joined c fr cn = Some (cn', frs) → cn_le cn cn'.
Proof.
  intros Hc Hthr Hstep. eapply frame_step_le; [done|]. intros Hsl.
  pose proof (ci_post _ _ Hc Hsl i) as Hp. rewrite Hthr in Hp. by apply Forall_cons in Hp as [? _].
Qed.

Lemma core_frame_step env cn cn' thr i c fr rest frs :
  core_inv cn thr → start_inv cn thr → thr i = fr :: rest →
  frame_step conf env i (loops_done thr) c fr cn = Some (cn', frs) → core_inv cn' (upd i (frs ++ rest) thr).
Proof.
  intros Hc Hst Hthr Hstep. pose proof Hc as [Hs Ho Hf Hso Hg Hp].
  specialize (Hs i). specialize (Ho i). specialize (Hf i). rewrite Hthr in Hs, Ho, Hf.
  apply Forall_cons in Hf as [Hfr Hrest].
  pose proof (core_step_le _ _ _ _ _ _ _ _ _ _ Hc Hthr Hstep) as Hle.
  pose proof (closer_done _ _ _ _ _ Hc Hst Hthr) as Hcl.
  pose proof (frame_step_ok _ _ _ _ _ _ _ _ _ Hstep Hfr Hcl) as Hfrs.
  assert (frs ≠ [FPanic]) as Hpan.
  { intros ->. apply Forall_cons in Hfrs as [[_ []] _]. }
  eapply core_update; [done|done|by eapply frame_step_shape|..].
  - intros R. by eapply frame_step_own.
  - intros R. by eapply frame_step_own.
  - apply Forall_app. split; [done|]. eapply Forall_impl; [done|]. intros ?. by apply frame_ok_le.
  - by eapply frame_step_sole.
  - by eapply frame_step_glob.
  - intros Hsl. apply Forall_app. split; [by eapply frame_step_post|].
    by eapply shape_rest.
  - by eapply frame_step_sealed.
Qed.

Lemma jcnt_app a b : jcnt (a ++ b) = (jcnt a + jcnt b)%nat.
Proof. induction a; cbn; lia. Qed.

Lemma startless_owner cn thr j :
  core_inv cn thr → Exists (λ fr, startless fr = true) (thr j) → syStart cn = Running j.
Proof.
  intros Hc (fr & Hin & Hs)%Exists_exists.
  assert (held RStart cn j = true) as Hh; [|by apply bool_decide_eq_true in Hh].
  eapply core_owner; [done..|]. destruct fr as [| | | | | | |[]|[]| | | |]; done.
Qed.

Lemma loops_started cn thr i fr rest :
  start_inv cn thr → thr i = fr :: rest → (i ≤ joiner)%nat → syStart cn = Finished ∧ lfStarted cn = true.
Proof.
  intros Hst Hthr Hi. pose proof (st_loops _ _ Hst) as Hl.
  destruct (decide (syStart cn = Finished)) as [Hf|Hn]; [|by rewrite (Hl (or_introl Hn) i Hi) in Hthr].
  split; [done|]. destruct (lfStarted cn); [done|]. by rewrite (Hl (or_intror eq_refl) i Hi) in Hthr.
Qed.

Lemma not_startless st :
  Forall (λ fr, startless fr = false) st → Exists (λ fr, startless fr = true) st → False.
Proof. intros Hf (fr & Hin & Ht)%Exists_exists. rewrite Forall_forall in Hf. rewrite Hf in Ht; done. Qed.

(** The part of [start_inv] that a thread's new stack needs. *)
Lemma start_update (cn cn' : Connection) (thr : nat → list Frm) i fr rest st :
  start_inv cn thr → thr i = fr :: rest →
  (syStart cn' ≠ Finished → lfDone cn' = false) → (syStart cn' = Fresh → lfStarted cn' = false) →
  (syStart cn = Finished → syStart cn' = Finished) → (lfStarted cn = true → lfStarted cn' = true) →
  (syStart cn' = Finished → lfStarted cn' = true → syStart cn = Finished ∧ lfStarted cn = true) →
  (∀ j, Exists (λ fr, startless fr = true) (upd i st thr j) → lfStarted cn' = false) →
  (syStart cn' = Finished →
   (Nat.b2n (lfDone cn') + if lfStarted cn' then jcnt (upd i st thr joiner) else 0)%nat = 1%nat) →
  start_inv cn' (upd i st thr).
Proof.
  intros Hst Hthr Hb Hf Hfin Hstd Hback Hsl Hd. split; [done| |done..].
  intros Hor k Hk. destruct (decide (k = i)) as [->|Hki].
  - destruct (loops_started _ _ _ _ _ Hst Hthr Hk) as [H1%Hfin H2%Hstd]. destruct Hor; congruence.
  - rewrite upd_other by done. apply (st_loops _ _ Hst); [|done].
    destruct Hor as [Hn|Hn]; [left; intros ?; auto|].
    destruct (lfStarted cn); [rewrite Hstd in Hn by done; done|by right].
Qed.

Lemma start_frame_step cn cn' thr i fr rest frs :
  core_inv cn thr → start_inv cn thr → thr i = fr :: rest → start_case i cn cn' fr frs →
  start_inv cn' (upd i (frs ++ rest) thr).
Proof.
  intros Hc Hst Hthr Hcase. pose proof (ci_shape _ _ Hc i) as Hs. rewrite Hthr in Hs.
  pose proof Hst as [Hb Hl Hf Hsl Hd].
  assert (∀ j, Exists (λ fr, startless fr = true) (upd i (frs ++ rest) thr j) →
     Exists (λ fr, startless fr = true) (thr j) ∨ j = i ∧ Exists (λ fr, startless fr = true) frs) as Hex.
  { intros j. destruct (decide (j = i)) as [->|Hj]; rewrite ?upd_same, ?upd_other by done; [|by left].
    rewrite Exists_app. intros [He|He]; [by right|left]. rewrite Hthr. by apply Exists_cons_tl. }
  destruct Hcase as [E1 E2 E3 Hn Hj|E0 E1 E2 E3 Hj Hj0|x Ex E1 E2 E3 Efrs|x e Ex Ecn Efrs|Hs0 Hs1 E1 E2 E3 Hn Hj|Ex E1 E2 E3 Efrs]; subst.
  - apply (start_update _ _ _ _ _ _ _ Hst Hthr); rewrite ?E1, ?E2, ?E3; try (by auto).
    + intros j [He|[_ He]]%Hex; [by eapply Hsl|by destruct (not_startless frs)].
    + intros Hfin. rewrite <-Hd by done. destruct (decide (joiner = i)) as [<-|Hji].
      * rewrite upd_same, jcnt_app, Hthr, Hj. cbn. destruct (lfStarted cn); lia.
      * by rewrite upd_other.
  - apply (start_update _ _ _ _ _ _ _ Hst Hthr); rewrite ?E1, ?E2, ?E3; try congruence; intros; (apply Hb || apply Hf); congruence.
  - assert (syStart cn = Running i) as Hown.
    { eapply startless_owner; [done|]. rewrite Hthr. by left. }
    assert (rest = []) as -> by (by destruct rest as [|u [|]]).
    apply (start_update _ _ _ _ _ _ _ Hst Hthr); rewrite ?E1, ?E2, ?E3, ?Hown; try congruence; [intros _; apply Hb; congruence|].
    intros j He. exfalso. destruct (decide (j = i)) as [->|Hj].
    + rewrite upd_same in He. apply (not_startless [FStart (StSpawn x)]); [by repeat constructor|done].
    + rewrite upd_other in He by done. pose proof (startless_owner _ _ _ Hc He). congruence.
  - assert (Exists (λ fr, startless fr = true) (thr i)) as He0 by (rewrite Hthr; by left).
    assert (syStart cn = Running i) as Hown by (by eapply startless_owner).
    apply (start_update _ _ _ _ _ _ _ Hst Hthr); try done; [|congruence]. intros j _. by eapply Hsl.
  - assert (Exists (λ fr, startless fr = true) (thr i)) as He0 by (rewrite Hthr; by left).
    pose proof (Hsl _ He0) as Hfalse. 
    apply (start_update _ _ _ _ _ _ _ Hst Hthr); rewrite ?E1, ?E2, ?E3, ?Hfalse; try done.
  - assert (i = joiner) as ->.
    { pose proof (ci_frames _ _ Hc i) as HF. rewrite Hthr in HF. apply Forall_cons in HF as [[Hr _] _]. by apply Hr. }
    assert (rest = []) as -> by (by destruct rest as [|u [|]]).
    destruct (loops_started _ _ _ _ _ Hst Hthr) as [H1 H2]; [done|].
    apply (start_update _ _ _ _ _ _ _ Hst Hthr); rewrite ?E1, ?E2, ?E3, ?H1, ?H2; try done.
    intros j [He|[_ He]]%Hex; [rewrite <-H2; by eapply Hsl|by apply Exists_nil in He].
Qed.

(** A thread that leaves the connection alone. *)
Lemma core_stack cn thr i st :
  core_inv cn thr → shape st = true → (∀ R, cnt R st = cnt R (thr i)) → Forall (frame_ok conf i cn) st →
  sole_ok cn st → Forall (λ fr, post_check fr = false) st → core_inv cn (upd i st thr).
Proof.
  intros Hc Hs Hcnt Hf Hso Hp. eapply core_update; try done; [|apply Hc|by left].
  intros R. rewrite Hcnt. apply Hc.
Qed.

Lemma start_stack cn thr i st :
  start_inv cn thr → ((joiner < i)%nat ∨ thr i ≠ []) → Forall (λ fr, startless fr = false) st →
  jcnt st = jcnt (thr i) → start_inv cn (upd i st thr).
Proof.
  intros [Hb Hl Hf Hsl Hd] Hi Hn Hj. split; [done| |done|..].
  - intros Hor k Hk. specialize (Hl Hor). destruct (decide (k = i)) as [->|Hki]; [|rewrite upd_other by done; by apply Hl].
    destruct Hi as [Hi|Hi]; [unfold joiner in *; lia|by rewrite Hl in Hi].
  - intros j. destruct (decide (j = i)) as [->|Hji]; [|rewrite upd_other by done; apply Hsl].
    rewrite upd_same. intros He. by destruct (not_startless st).
  - intros Hfin. rewrite <-Hd by done. unfold upd. case_decide as Hji; [|done]. by rewrite Hj, <-Hji.
Qed.

Lemma return_step_inv cn thr i r caller rest frs :
  core_inv cn thr → start_inv cn thr → thr i = FRet r :: caller :: rest → return_step r caller = Some frs →
  core_inv cn (upd i (frs ++ rest) thr) ∧ start_inv cn (upd i (frs ++ rest) thr).
Proof.
  intros Hc Hst Hthr Hret. pose proof (ci_shape _ _ Hc i) as Hs. pose proof (ci_frames _ _ Hc i) as Hf.
  rewrite Hthr in Hs, Hf. destruct rest; [|done]. rewrite app_nil_r.
  apply Forall_cons in Hf as [_ [[Hr Hm] _]%Forall_cons].
  assert (∃ fr, frs = [fr] ∧ shape [fr] = true ∧ (∀ R, owns R fr = false) ∧ (∀ R, owns R caller = false) ∧
    frame_ok conf i cn fr ∧ sole_ok cn [fr] ∧ post_check fr = false ∧ startless fr = false ∧
    join_frame fr = false ∧ join_frame caller = false)
    as (fr & -> & ? & Ho & Ho' & ? & ? & ? & ? & Hj & Hj').
  { destruct caller as [|[]| | |[]| |[]| | | | | |], r; try discriminate Hret; injection Hret as <-.
    all: eexists; repeat split; try done; try (by intros []); cbn in *; try (by intros k [= <-]; apply Hr).
    }
  split.
  - apply core_stack; try done; [|by constructor..]. intros R. rewrite Hthr. cbn [cnt]. by rewrite Ho, Ho'; destruct R.
  - apply start_stack; [done|right; by rewrite Hthr|by constructor|]. rewrite Hthr. cbn [jcnt]. by rewrite Hj, Hj'.
Qed.

Lemma thread_empty cn thr k : core_inv cn thr → thr k = [] → ∀ R, held R cn k = false.
Proof. intros Hc Hk R. pose proof (ci_own _ _ Hc k R) as Ho. rewrite Hk in Ho. by destruct (held R cn k). Qed.

(** A new goroutine. *)
Lemma core_go cn thr k fr :
  core_inv cn thr → thr k = [] → (∀ R, owns R fr = false) → frame_ok conf k cn fr → post_check fr = false →
  closer fr = false → after_enq fr = false → core_inv cn (upd k [fr] thr).
Proof.
  intros Hc Hk Ho ? ? Hcl Hen. apply core_stack; [done|by destruct fr as [|[]| | |[]| |[]| | | | | |]| |by apply Forall_singleton| |by apply Forall_singleton].
  - intros R. rewrite Hk. cbn [cnt]. by rewrite Ho.
  - by destruct fr as [| | | | | | |[]|[]| |[]| |].
Qed.

(** A goroutine put into an idle thread. *)
Ltac spawn_one Hk :=
  apply core_go; [|rewrite ?upd_other by done; apply Hk; unfold joiner, reader, writer, maintenance, handler, watcher; lia
                  |by intros []|split; [by intros ? [= <-]|try done]|done..].

Lemma core_spawn cn thr x :
  core_inv cn thr → (∀ k, (k ≤ joiner)%nat → thr k = []) → core_inv cn (spawn conf x thr).
Proof.
  intros Hc Hk.
  unfold spawn. spawn_one Hk. spawn_one Hk. spawn_one Hk.
  - assert (core_inv cn (upd watcher [FWatch (WaSelect x)] (upd joiner [FJoin JnWait] thr))) as Hw.
    { spawn_one Hk. by spawn_one Hk. }
    destruct (ccHandler conf); [by spawn_one Hk|]. apply core_stack; try done.
    intros R. rewrite ?upd_other by done. rewrite Hk; [done|unfold joiner, handler; lia].
  - intros [?|[Hka%Z.ltb_lt|?]]; done.
Qed.

Lemma spawn_other x thr k : (joiner < k)%nat → spawn conf x thr k = thr k.
Proof. intros. unfold spawn. rewrite !upd_other; [done|unfold reader, writer, maintenance, handler, watcher, joiner in *; lia..]. Qed.

Lemma spawn_frames x thr k fr :
  (k ≤ joiner)%nat → fr ∈ spawn conf x thr k → startless fr = false.
Proof.
  intros Hk. unfold spawn, upd, reader, writer, maintenance, handler, watcher, joiner in *.
  repeat case_decide; try lia; destruct (ccHandler conf); intros Hin; repeat (apply elem_of_cons in Hin as [->|Hin]; [done|]);
    by apply not_elem_of_nil in Hin.
Qed.

Lemma spawn_inv cn thr i x rest :
  core_inv cn thr → start_inv cn thr → thr i = FStart (StSpawn x) :: rest →
  let cn' := set_syStart Finished cn in let thr' := upd i rest (spawn conf x thr) in
  core_inv cn' thr' ∧ start_inv cn' thr'.
Proof.
  intros Hc Hst Hthr cn' thr'.
  assert (held RStart cn i = true) as Hown by (eapply core_owner; [done|rewrite Hthr; by left|done]).
  apply bool_decide_eq_true in Hown.
  pose proof (ci_shape _ _ Hc i) as Hs. pose proof (ci_frames _ _ Hc i) as Hf. rewrite Hthr in Hs, Hf.
  assert (rest = []) as -> by (by destruct rest as [|u [|]]).
  apply Forall_cons in Hf as [[Hi Hstd] _]. cbn in Hi, Hstd.
  assert (∀ k, (k ≤ joiner)%nat → thr k = []) as Hk by (apply (st_loops _ _ Hst); left; congruence).
  assert (lfDone cn = false) as Hd by (apply (st_before _ _ Hst); congruence).
  split.
  - assert (core_inv cn (spawn conf x thr)) as Hc1 by (by apply core_spawn).
    pose proof (ci_own _ _ Hc i) as Ho. rewrite Hthr in Ho.
    eapply core_update; try done; [..|by left].
    + intros R. specialize (Ho R). destruct R; cbn in *; try done.
    + intros R j Hj. destruct R; try done. cbn. rewrite Hown. repeat case_bool_decide; congruence.
    + split; apply Hc.
  - split; cbn; try done.
    + intros [?|?]; congruence.
    + intros j (fr & Hfr & Hsl)%Exists_exists. exfalso. unfold thr' in Hfr.
      destruct (decide (j = i)) as [->|Hj]; [rewrite upd_same in Hfr; by apply not_elem_of_nil in Hfr|].
      rewrite upd_other in Hfr by done. destruct (decide (j ≤ joiner)%nat) as [Hle|Hgt].
      { by rewrite (spawn_frames x thr j) in Hsl. }
      rewrite spawn_other in Hfr by lia.
      assert (syStart cn = Running j); [|congruence]. eapply startless_owner; [done|]. apply Exists_exists. eauto.
    + intros _. rewrite Hd, Hstd. unfold thr'. rewrite upd_other by lia. done.
Qed.

Definition sys_inv (s : Sys) : Prop := core_inv (sysConn s) (sysThr s) ∧ start_inv (sysConn s) (sysThr s).

Lemma sys_inv_init : sys_inv sys_init.
Proof.
  split; constructor; cbn; try done.
  - by intros i [].
Qed.

(** A step of a thread: its top frame steps, returns, or spawns the loops. *)
Inductive thread_case (i : nat) (c : Choice) (s s' : Sys) : Prop :=
  | tc_return r :
      sysThr s i = [FRet r] → s' = mkSys (sysConn s) (sysEnv s) (upd i [] (sysThr s)) → thread_case i c s s'
  | tc_result r caller rest frs :
      sysThr s i = FRet r :: caller :: rest → return_step r caller = Some frs →
      s' = mkSys (sysConn s) (sysEnv s) (upd i (frs ++ rest) (sysThr s)) → thread_case i c s s'
  | tc_spawn x rest :
      sysThr s i = FStart (StSpawn x) :: rest →
      s' = mkSys (set_syStart Finished (sysConn s)) (sysEnv s) (upd i rest (spawn conf x (sysThr s))) →
      thread_case i c s s'
  | tc_frame fr rest cn frs :
      sysThr s i = fr :: rest → frame_step conf (sysEnv s) i (loops_done (sysThr s)) c fr (sysConn s) = Some (cn, frs) →
      s' = mkSys cn (sysEnv s) (upd i (frs ++ rest) (sysThr s)) → thread_case i c s s'.

Lemma thread_step_cases i c s s' : thread_step conf i c s = Some s' → thread_case i c s s'.
Proof.
  unfold thread_step. destruct (sysThr s i) as [|fr rest] eqn:Hthr; [done|].
  assert (('(cn, frs) ← frame_step conf (sysEnv s) i (loops_done (sysThr s)) c fr (sysConn s);
           Some (mkSys cn (sysEnv s) (upd i (frs ++ rest) (sysThr s)))) = Some s' → thread_case i c s s') as Hdef.
  { destruct (frame_step _ _ _ _ _ _ _) as [[cn frs]|] eqn:Hf; [|done]. intros [= <-]. by eapply tc_frame. }
  destruct fr as [| | | | | | | |[]| | | |]; try exact Hdef.
  - intros [= <-]. by eapply tc_spawn.
  - destruct rest as [|caller rest]; [intros [= <-]; by eapply tc_return|].
    destruct (return_step r caller) as [frs|] eqn:Hr; [|done]. intros [= <-]. by eapply tc_result.
Qed.

Lemma op_frame_ok op i cn :
  (joiner < i)%nat →
  (∀ R, owns R (op_frame op) = false) ∧ frame_ok conf i cn (op_frame op) ∧ post_check (op_frame op) = false ∧
  closer (op_frame op) = false ∧ after_enq (op_frame op) = false ∧ startless (op_frame op) = false ∧
  join_frame (op_frame op) = false.
Proof. intros Hi. destruct op; repeat split; try done; by intros []. Qed.

Lemma sys_inv_step l s s' : sys_inv s → sys_step conf l s = Some s' → sys_inv s'.
Proof.
  intros [Hc Hst] Hstep. destruct l as [i c|i op|x e]; cbn in Hstep.
  - apply thread_step_cases in Hstep as [r Hthr ->|r caller rest frs Hthr Hr ->|x rest Hthr ->|fr rest cn frs Hthr Hf ->].
    + split; cbn.
      * apply core_stack; try done. intros R. rewrite Hthr. by destruct R.
      * apply start_stack; [done|right; by rewrite Hthr|done|by rewrite Hthr].
    + by eapply return_step_inv.
    + by eapply spawn_inv.
    + split; cbn; [by eapply core_frame_step|]. eapply start_frame_step; try done.
      eapply frame_step_start; [done|]. by eapply closer_done.
  - repeat case_bool_decide; try discriminate. injection Hstep as <-.
    destruct (op_frame_ok op i (sysConn s)) as (? & ? & ? & ? & ? & ? & Hj); [done|].
    split; cbn; [by apply core_go|]. apply start_stack; [done|by left|by constructor|].
    match goal with H : sysThr s i = [] |- _ => rewrite H end. cbn [jcnt]. by rewrite Hj.
  - destruct (sysEnv s x); [done|]. by injection Hstep as <-.
Qed.

Lemma sys_inv_reach s : reachable conf s → sys_inv s.
Proof.
  apply (rtc_ind_r sys_inv); [apply sys_inv_init|]. intros ? ? _ [l Hl] Hi. by eapply sys_inv_step.
Qed.

(** ** The joiner *)

(** Once the joiner has passed its wait the loops are over, and done is closed only
    after shutdown. *)
Record join_inv (cn : Connection) (thr : nat → list Frm) : Prop := {
  ji_loops : syStart cn = Finished → lfStarted cn = true → FJoin JnWait ∉ thr joiner → ∀ k, (k ≤ handler)%nat → thr k = [];
  ji_done : lfDone cn = true → syShutdown cn = Finished;
}.

Lemma loops_done_spec thr : loops_done thr = true → ∀ k, (k ≤ handler)%nat → thr k = [].
Proof.
  unfold loops_done, reader, writer, maintenance, handler. rewrite !andb_true_iff, !bool_decide_eq_true.
  intros [[[? ?] ?] ?] k Hk. by destruct k as [|[|[|[|]]]]; try lia.
Qed.

Lemma start_case_back (i : nat) (cn cn' : Connection) thr fr rest frs :
  core_inv cn thr → start_inv cn thr → thr i = fr :: rest → start_case i cn cn' fr frs →
  syStart cn' = Finished → lfStarted cn' = true → syStart cn = Finished ∧ lfStarted cn = true.
Proof.
  intros Hc Hst Hthr [E1 E2|E0 E1|x Ex E1|x e Ex Ecn|Hs0 Hs1 E1 E2|Ex E1 E2]; rewrite ?E1, ?E2; try done.
  - intros Hf. assert (syStart cn = Running i); [|congruence]. eapply startless_owner; [done|]. rewrite Hthr, Ex. by left.
  - by subst cn'.
  - intros _. rewrite (st_startless _ _ Hst i); [done|]. rewrite Hthr. by left.
Qed.

Lemma closer_finished cn thr i fr rest :
  core_inv cn thr → thr i = fr :: rest → closer fr = true → syShutdown cn = Finished.
Proof.
  intros Hc Hthr Hcl. pose proof (ci_shape _ _ Hc i) as Hs. pose proof (ci_sole _ _ Hc i) as Hso. rewrite Hthr in Hs, Hso.
  destruct rest as [|u [|]]; destruct fr as [| | | | | | |[]|[]| |[]| |]; done.
Qed.

Lemma join_frame_step env cn cn' thr i c fr rest frs :
  core_inv cn thr → start_inv cn thr → join_inv cn thr → thr i = fr :: rest →
  frame_step conf env i (loops_done thr) c fr cn = Some (cn', frs) → join_inv cn' (upd i (frs ++ rest) thr).
Proof.
  intros Hc Hst [Hl Hd] Hthr Hstep. pose proof (core_step_le _ _ _ _ _ _ _ _ _ _ Hc Hthr Hstep) as Hle.
  assert (start_case i cn cn' fr frs) as Hcase.
  { eapply frame_step_start; [done|]. by eapply closer_done. }
  split.
  - intros Hf Hs Hj k Hk. destruct (start_case_back _ _ _ _ _ _ _ Hc Hst Hthr Hcase Hf Hs) as [Hf0 Hs0].
    assert (∀ k, (k ≤ handler)%nat → thr k = []) as Hall.
    { destruct (decide (i = joiner)) as [->|Hi]; [|rewrite upd_other in Hj by done; by apply Hl].
      assert (fr = FJoin JnWait ∨ fr ≠ FJoin JnWait) as [->|Hfr].
      { destruct fr as [| | | | | | | | | |[]| |]; (by left) || by right. }
      - cbn in Hstep. destruct (loops_done thr) eqn:Hld; [|done]. by apply loops_done_spec.
      - apply Hl; [done..|]. rewrite Hthr. rewrite upd_same in Hj. set_solver. }
    rewrite upd_other; [by apply Hall|]. intros ->. by rewrite Hall in Hthr.
  - intros Hdone. apply (le_shutdown _ _ Hle).
    destruct Hcase as [_ _ E3|_ _ _ E3|x _ _ _ E3|x e _ E|_ Hcl _ _ _|Ex _ _ _ _]; [apply Hd; congruence|apply Hd; congruence|apply Hd; congruence|apply Hd; by subst| |].
    + by eapply closer_finished.
    + subst fr. by eapply closer_finished.
Qed.

Lemma join_inv_step l s s' :
  sys_inv s → join_inv (sysConn s) (sysThr s) → sys_step conf l s = Some s' → join_inv (sysConn s') (sysThr s').
Proof.
  intros [Hc Hst] Hj Hstep. pose proof Hj as [Hl Hd]. destruct l as [i c|i op|x e]; cbn in Hstep.
  - apply thread_step_cases in Hstep as [r Hthr ->|r caller rest frs Hthr Hr ->|x rest Hthr ->|fr rest cn frs Hthr Hf ->]; cbn.
    + split; [|done]. intros Hf Hs Hn k Hk. unfold upd. case_decide; [done|]. apply Hl; try done.
      unfold upd in Hn. case_decide; [subst|done]. rewrite Hthr. set_solver.
    + split; [|done]. intros Hf Hs Hn k Hk. destruct (decide (joiner = i)) as [<-|Hi].
      { pose proof (ci_shape _ _ Hc joiner) as Hsh. pose proof (ci_frames _ _ Hc joiner) as Hfr. rewrite Hthr in Hsh, Hfr.
        apply Forall_cons in Hfr as [_ [[Hro _] _]%Forall_cons].
        destruct caller as [|[]| | |[]| |[]| | | | | |], r; try discriminate Hr; cbn in Hro; unfold joiner in Hro;
          try lia; by specialize (Hro _ eq_refl). }
      rewrite upd_other in Hn by done.
      assert (∀ k, (k ≤ handler)%nat → sysThr s k = []) as Hall by (by apply Hl).
      rewrite upd_other; [by apply Hall|]. intros ->. by rewrite Hall in Hthr.
    + split; [|done]. intros _ _ []. pose proof (ci_frames _ _ Hc i) as Hfr. rewrite Hthr in Hfr.
      apply Forall_cons in Hfr as [[Hi _] _]. cbn in Hi. rewrite upd_other by lia. set_solver.
    + by eapply join_frame_step.
  - repeat case_bool_decide; try discriminate. injection Hstep as <-. split; [|done]. cbn. intros Hf Hs Hn k Hk.
    unfold joiner, handler in *. rewrite upd_other in Hn by lia. rewrite upd_other by lia. by apply Hl.
  - destruct (sysEnv s x); [done|]. by injection Hstep as <-.
Qed.

(** ** The invariant of a reachable state *)

Definition conn_inv (s : Sys) : Prop := sys_inv s ∧ join_inv (sysConn s) (sysThr s).

Lemma conn_inv_reach s : reachable conf s → conn_inv s.
Proof.
  apply (rtc_ind_r conn_inv); [split; [apply sys_inv_init|by split]|].
  intros ? ? _ [l Hl] [Hi Hj]. split; [by eapply sys_inv_step|by eapply join_inv_step].
Qed.

Lemma sys_step_le l s s' : sys_inv s → sys_step conf l s = Some s' → cn_le (sysConn s) (sysConn s').
Proof.
  intros [Hc _] Hstep. destruct l as [i c|i op|x e]; cbn in Hstep.
  - apply thread_step_cases in Hstep as [r Hthr ->|r caller rest frs Hthr Hr ->|x rest Hthr ->|fr rest cn frs Hthr Hf ->];
      [done|done|by constructor|]. by eapply core_step_le.
  - repeat case_bool_decide; try discriminate. by injection Hstep as <-.
  - destruct (sysEnv s x); [done|]. by injection Hstep as <-.
Qed.
End safety.
