(* ===== verification/ConnectionFlow.v ===== *)
(** * What a connection does with messages, close requests and pings

    Invariants on the contents of the queues of Connection.v: the items accepted
    from producers, the single close request, the messages for the handler and the
    outstanding ping. *)

From stdpp Require Import gmap.
From S2P Require Import Prelude Wire Header Frame Tlv Utf8 Messages Replay Sha256 Crypto Rekey Session.
From S2P Require Import SessionSend SessionReceive SessionPair Transport ConnectionIO Handshake Config.
From S2P Require Import Connection ConnectionSteps ConnectionSafety.

Local Open Scope Z_scope.

(** ** Frames that hold something *)

(** The item in the hands of the writer. *)
Definition hand (fr : Frm) : list queuedMessage :=
  match fr with FWrite (WlWrite item | WlComplete item _) => [item] | _ => [] end.

(** Accepted and neither in the writer's hands nor lost. *)
Definition flow (cn : Connection) : list queuedMessage := qOutbound cn ++ qControl cn ++ (ghFinished cn).*1.

(** The completion channels of items. *)
Definition chans_of (items : list queuedMessage) : list nat := omap qmCompletion items.

(** The item a producer has not yet placed. *)
Definition to_place (fr : Frm) : option queuedMessage :=
  match fr with FEnq (EqLock a | EqCtx a | EqClosing a | EqSelect a) => Some (eaItem a) | _ => None end.

(** The close request in the hands of the writer. *)
Definition close_hand (fr : Frm) : nat :=
  match fr with FWrite (WlCloseWrite _ | WlCloseResult _ _) => 1 | _ => 0 end.
(** closeGracefully before its request is sent. *)
Definition pre_put (fr : Frm) : bool :=
  match fr with
  | FClose (ClRecord _ | ClClosing _ | ClStart _ | ClDone _ | ClStarted _ | ClLock _ | ClCheck _ | ClSelect _) => true
  | _ => false
  end.

(** The message the handler loop has received and not yet passed on. *)
Definition handler_hand (fr : Frm) : list Message := match fr with FHandler (HdRecheck m) => [m] | _ => [] end.

Definition hands (st : list Frm) : list queuedMessage := st ≫= hand.
Definition close_hands (st : list Frm) : nat := sum_list (close_hand <$> st).
Definition handler_hands (st : list Frm) : list Message := st ≫= handler_hand.

Lemma frame_step_flow conf env i joined c fr cn cn' frs rest :
  frame_step conf env i joined c fr cn = Some (cn', frs) →
  ghAccepted cn ≡ₚ flow cn ++ hands (fr :: rest) → ghAccepted cn' ≡ₚ flow cn' ++ hands (frs ++ rest).
Proof.
  intros H. step_cases H; unfold flow, hands; cbn; rewrite ?fmap_app; try done; intros Hp.
  all: repeat match goal with H : _ = _ :: _ |- _ => rewrite H in Hp; clear H end.
  all: rewrite Hp; cbn; solve_Permutation.
Qed.

Definition owners_kept (l l' : list ChanCell) : Prop :=
  ∀ k o b, l !! k = Some (mkChanCell o b) → ∃ b', l' !! k = Some (mkChanCell o b').

(** A full completion channel holds the result of the item it belongs to. *)
Definition full_ok (l : list ChanCell) (fin : list (queuedMessage * option error)) : Prop :=
  ∀ k o r, l !! k = Some (mkChanCell o (Some r)) → ∃ item, (item, r) ∈ fin ∧ qmCompletion item = Some k.

Lemma owners_kept_refl l : owners_kept l l.
Proof. intros ? ? b ?. by exists b. Qed.

Lemma owners_kept_insert l k o b b' :
  l !! k = Some (mkChanCell o b) → owners_kept l (<[k := mkChanCell o b']> l).
Proof.
  intros Hk k' o' b2 Hk'. destruct (decide (k = k')) as [<-|Hne].
  - rewrite list_lookup_insert_eq; [|by eapply lookup_lt_Some]. naive_solver.
  - rewrite list_lookup_insert_ne by done. eauto.
Qed.

Lemma full_ok_insert l fin k o b r item :
  l !! k = Some (mkChanCell o b) → qmCompletion item = Some k → full_ok l fin →
  full_ok (<[k := mkChanCell o (Some r)]> l) (fin ++ [(item, r)]).
Proof.
  intros Hk Hc Hf k' o' r' Hk'. destruct (decide (k = k')) as [<-|Hne].
  - rewrite list_lookup_insert_eq in Hk' by (by eapply lookup_lt_Some). injection Hk' as <- <-.
    exists item. split; [set_solver|done].
  - rewrite list_lookup_insert_ne in Hk' by done. destruct (Hf _ _ _ Hk') as (it & ? & ?). exists it. set_solver.
Qed.

Lemma full_ok_mono l fin fin' : fin ⊆ fin' → full_ok l fin → full_ok l fin'.
Proof. intros Hsub Hf k o r Hk. destruct (Hf _ _ _ Hk) as (it & ? & ?). exists it. set_solver. Qed.

(** What [complete] does to the channels. *)
Definition completed (l l' : list ChanCell) (item : queuedMessage) (r : option error) : Prop :=
  match qmCompletion item with
  | None => l' = l
  | Some k => ∃ o, l !! k = Some (mkChanCell o None) ∧ l' = <[k := mkChanCell o (Some r)]> l
  end.

Lemma completed_owners l l' item r : completed l l' item r → owners_kept l l'.
Proof.
  unfold completed. destruct (qmCompletion item); [|intros -> ? ? ?; eauto]. intros (o & Hk & ->).
  by eapply owners_kept_insert.
Qed.

Lemma completed_full l l' item r fin :
  completed l l' item r → full_ok l fin → full_ok l' (fin ++ [(item, r)]).
Proof.
  unfold completed. destruct (qmCompletion item) eqn:Hc.
  - intros (o & Hk & ->). by eapply full_ok_insert.
  - intros ->. apply full_ok_mono. set_solver.
Qed.

Lemma receive_full l fin k o b : l !! k = Some (mkChanCell o b) → full_ok l fin → full_ok (<[k := mkChanCell o None]> l) fin.
Proof.
  intros Hk Hf k' o' r' Hk'. destruct (decide (k = k')) as [<-|Hne].
  - by rewrite list_lookup_insert_eq in Hk' by (by eapply lookup_lt_Some).
  - rewrite list_lookup_insert_ne in Hk' by done. eauto.
Qed.

Lemma make_full l fin o : full_ok l fin → full_ok (l ++ [mkChanCell o None]) fin.
Proof.
  intros Hf k o' r [Hk|[_ Hk]]%lookup_app_Some; [eauto|]. by apply list_lookup_singleton_Some in Hk as [_ ?].
Qed.

Section chan_steps.
Context (conf : ConnectionConfig) (env : nat → option error) (i : nat) (joined : bool) (c : Choice).

Lemma frame_step_chans fr cn cn' frs :
  frame_step conf env i joined c fr cn = Some (cn', frs) →
  owners_kept (qChans cn) (qChans cn') ∧
  (full_ok (qChans cn) (ghFinished cn) → full_ok (qChans cn') (ghFinished cn')).
Proof.
  intros H. step_cases H; cbn; try (by split; [apply owners_kept_refl|]).
  all: try match goal with
    | H : match qmCompletion ?item with _ => _ end |- context [full_ok _ (_ ++ [(?item, ?r)])] =>
        by split; [eapply (completed_owners _ _ item r)|apply completed_full]
    | H : _ !! _ = Some _ |- _ => by split; [eapply owners_kept_insert|eapply receive_full]
    end.
  split; [|apply make_full]. intros k o b Hk. exists b. by apply lookup_app_l_Some.
Qed.

(** How the items that are to be placed and those that were accepted change. *)
Inductive place_case (cn cn' : Connection) (fr : Frm) (frs : list Frm) : Prop :=
  | place_same :
      ghAccepted cn' = ghAccepted cn →
      (∀ fr' item, fr' ∈ frs → to_place fr' = Some item → qmCompletion item = None ∨ to_place fr = Some item) →
      place_case cn cn' fr frs
  | place_make :
      ghAccepted cn' = ghAccepted cn → qChans cn' = qChans cn ++ [mkChanCell i None] →
      (∀ fr' item, fr' ∈ frs → to_place fr' = Some item → qmCompletion item = Some (length (qChans cn))) →
      place_case cn cn' fr frs
  | place_accept item :
      to_place fr = Some item → ghAccepted cn' = ghAccepted cn ++ [item] → Forall (λ fr, to_place fr = None) frs →
      place_case cn cn' fr frs.

Lemma frame_step_place fr cn cn' frs :
  frame_step conf env i joined c fr cn = Some (cn', frs) → place_case cn cn' fr frs.
Proof.
  intros H. step_cases H.
  all: try (by eapply place_accept; [reflexivity|reflexivity|repeat constructor]).
  all: try (by apply place_same; [reflexivity|]; intros fr' it Hin Hp;
    repeat (apply elem_of_cons in Hin as [->|Hin]; [cbn in *; naive_solver|]); by apply not_elem_of_nil in Hin).
  apply place_make; [done..|]. intros fr' it Hin Hp.
  repeat (apply elem_of_cons in Hin as [->|Hin]; [cbn in *; naive_solver|]). by apply not_elem_of_nil in Hin.
Qed.

(** How the close request moves. *)
Definition req (cn : Connection) : nat := match qCloseRequest cn with Some _ => 1 | None => 0 end.

Inductive close_case (cn cn' : Connection) (fr : Frm) (frs : list Frm) : Prop :=
  | close_same :
      ghPuts cn' = ghPuts cn →
      (req cn + close_hand fr + ghSent cn = req cn' + close_hands frs + ghSent cn')%nat →
      (qCloseResult cn' = qCloseResult cn ∧ ghSent cn' = ghSent cn ∨ qCloseResult cn' = None ∨ 0 < ghSent cn')%nat →
      (syClose cn' = syClose cn ∨ syClose cn' ≠ Fresh) →
      (∀ fr', fr' ∈ frs → pre_put fr' = true → pre_put fr = true ∨ syClose cn = Fresh) → close_case cn cn' fr frs
  | close_put :
      pre_put fr = true → ghPuts cn' = S (ghPuts cn) → ghSent cn' = ghSent cn → req cn = 0%nat → req cn' = 1%nat →
      close_hand fr = 0%nat → close_hands frs = 0%nat → qCloseResult cn' = qCloseResult cn → syClose cn' = syClose cn →
      Forall (λ fr, pre_put fr = false) frs → close_case cn cn' fr frs.

Lemma frame_step_close fr cn cn' frs :
  frame_step conf env i joined c fr cn = Some (cn', frs) → close_case cn cn' fr frs.
Proof.
  intros H. step_cases H.
  all: try (apply close_same; unfold req; cbn; [done|try done; repeat (case_match; try done); lia|by auto with lia|by auto|
     intros fr' Hin Hp; repeat (apply elem_of_cons in Hin as [->|Hin]; [cbn in *; by auto|]); by apply not_elem_of_nil in Hin]; fail).
  match goal with H : bool_decide _ = true |- _ => apply bool_decide_eq_true in H as Hnone end.
  apply close_put; unfold req; try done; [by rewrite Hnone|repeat constructor].
Qed.

(** Messages reach the handler in the order in which they were received. *)
Lemma frame_step_handler fr cn cn' frs rest :
  frame_step conf env i joined c fr cn = Some (cn', frs) → (fr = FShut ShDrain → lfCtx cn ≠ None) →
  (role fr = Some handler → handler_hands rest = []) →
  (lfCtx cn = None → ghDispatched cn = ghCalled cn ++ handler_hands (fr :: rest) ++ qHandler cn) →
  (ghCalled cn `prefix_of` ghDispatched cn) →
  (lfCtx cn' = None → ghDispatched cn' = ghCalled cn' ++ handler_hands (frs ++ rest) ++ qHandler cn') ∧
  ghCalled cn' `prefix_of` ghDispatched cn'.
Proof.
  intros H. step_cases H; unfold handler_hands; cbn; try done; intros Hdr Hro Hd Hp.
  all: repeat match goal with H : qHandler _ = _ |- _ => rewrite H in *; clear H end; cbn in *.
  - done.
  - split; [|done]. intros Hn. by destruct Hdr.
  - split; [intros Hn%Hd; rewrite Hn, !(assoc_L (++)); done|by apply prefix_app_r].
  - split; [|done]. intros Hn%Hd. by rewrite Hn, Hro.
  - assert (ghDispatched cn = (ghCalled cn ++ [m]) ++ (rest ≫= handler_hand) ++ qHandler cn) as Hn.
    { rewrite Hd by done. by rewrite <-(assoc_L (++)). }
    split; [done|]. rewrite Hn. by apply prefix_app_r.
Qed.

(** ** Pings *)

Definition maint_locals (fr : Frm) : option MaintLocals :=
  match fr with
  | FMaint (MtSelect l | MtPong l | MtBegin l | MtSent l | MtClear l | MtExpired l) => Some l
  | _ => None
  end.

(** The ping of the maintenance loop is unanswered, answered, or there is none;
    [ghAckLog] holds the responses read since it began. *)
Definition ping_state (cn : Connection) (n : Z) : Prop :=
  n = 0 ∧ pgExpected cn = 0 ∧ pgAcknowledged cn = false ∨
  n ≠ 0 ∧ pgExpected cn = n ∧ pgAcknowledged cn = false ∧ n ∉ ghAckLog cn ∨
  n ≠ 0 ∧ pgExpected cn = 0 ∧ pgAcknowledged cn = true ∧ n ∈ ghAckLog cn.

Definition ping_ok (cn : Connection) (fr : Frm) : Prop :=
  match maint_locals fr with
  | Some l =>
      ping_state cn (mtOutstanding l) ∧ (mtDeadline l = true → mtOutstanding l ≠ 0) ∧
      match fr with
      | FMaint (MtBegin _) => mtOutstanding l = 0
      | FMaint (MtSent _) => mtOutstanding l ≠ 0 ∧ mtDeadline l = false
      | FMaint (MtClear _) => mtDeadline l = false
      | FMaint (MtExpired _) => mtOutstanding l ≠ 0
      | _ => True
      end
  | None => True
  end.

Lemma next_nonce_pos cn : 0 < next_nonce cn < 2 ^ 64.
Proof.
  unfold next_nonce. pose proof (wrap_uint 64 (pgNonce cn + 1) ltac:(lia)) as [? ?].
  case_match eqn:E; [lia|]. apply Z.eqb_neq in E. lia.
Qed.

(** A step of the maintenance loop itself. *)
Lemma frame_step_ping fr cn cn' frs :
  frame_step conf env i joined c fr cn = Some (cn', frs) → role fr = Some maintenance → ping_ok cn fr →
  lfCtx cn' = None → Forall (ping_ok cn') frs.
Proof.
  intros H Hro. destruct fr; try discriminate Hro. pose proof (next_nonce_pos cn).
  step_cases H; unfold ping_ok; cbn; intros Hp Hctx; repeat (apply Forall_cons_2 || apply Forall_nil_2); cbn; try done.
  all: repeat match goal with
    | H : negb _ = true |- _ => apply negb_true_iff in H
    | H : negb _ = false |- _ => apply negb_false_iff in H
    | H : (_ =? _) = true |- _ => apply Z.eqb_eq in H
    | H : (_ =? _) = false |- _ => apply Z.eqb_neq in H
    end.
  all: unfold ping_state in *; cbn; destruct Hp as (Hs & Hd & Hx).
  - tauto.
  - tauto.
  - split; [left|done]. intuition congruence.
  - split; [|tauto]. intuition congruence.
  - assert (mtDeadline l = false) as -> by (destruct (mtDeadline l); [by destruct Hd|done]).
    split; [right; left|done]. repeat split; try done. set_solver.
  - rewrite Hx. split; [by left|done].
  - split; [left|done]. intuition congruence.
Qed.

(** A step of another goroutine: only the reader and shutdown touch the ping. *)
Lemma frame_step_ping_other fr cn cn' frs n :
  frame_step conf env i joined c fr cn = Some (cn', frs) → role fr ≠ Some maintenance →
  (fr = FShut ShClearPing → lfCtx cn ≠ None) → ping_state cn n → lfCtx cn' = None → ping_state cn' n.
Proof.
  intros H. step_cases H; intros Hro Hcl Hp Hctx; try exact Hp; try done; cbn in *.
  - by destruct Hcl.
  - unfold ping_state in *. cbn. rewrite not_elem_of_app, elem_of_app, list_elem_of_singleton. intuition congruence.
  - unfold ping_state in *. cbn. rewrite elem_of_app, list_elem_of_singleton. intuition congruence.
Qed.
End chan_steps.

(** ** The invariants *)

Record place_inv (cn : Connection) (thr : nat → list Frm) : Prop := {
  pi_nodup : NoDup (chans_of (ghAccepted cn));
  pi_bound : ∀ k, k ∈ chans_of (ghAccepted cn) → is_Some (qChans cn !! k);
  pi_place : ∀ i fr item k, fr ∈ thr i → to_place fr = Some item → qmCompletion item = Some k →
    (k ∉ chans_of (ghAccepted cn)) ∧ ∃ b, qChans cn !! k = Some (mkChanCell i b);
  pi_full : full_ok (qChans cn) (ghFinished cn);
}.

(** The single close request. *)
Record close_inv (cn : Connection) (thr : nat → list Frm) : Prop := {
  cl_where : ghPuts cn = (req cn + close_hands (thr writer) + ghSent cn)%nat;
  cl_puts : (ghPuts cn ≤ 1)%nat;
  cl_pre : ∀ i fr, fr ∈ thr i → pre_put fr = true → ghPuts cn = 0%nat;
  cl_fresh : syClose cn = Fresh → ghPuts cn = 0%nat;
  cl_result : qCloseResult cn ≠ None → (0 < ghSent cn)%nat;
}.

Definition order_inv (cn : Connection) (thr : nat → list Frm) : Prop :=
  (lfCtx cn = None → ghDispatched cn = ghCalled cn ++ handler_hands (thr handler) ++ qHandler cn) ∧
  (ghCalled cn `prefix_of` ghDispatched cn).

Record ping_inv (cn : Connection) (thr : nat → list Frm) : Prop := {
  pg_idle : syStart cn ≠ Finished → ping_state cn 0;
  pg_frames : lfCtx cn = None → Forall (ping_ok cn) (thr maintenance);
}.

(** ** A step preserves them *)

Lemma frame_step_roles conf env i joined c fr cn cn' frs :
  frame_step conf env i joined c fr cn = Some (cn', frs) →
  Forall (λ fr', role fr' = None ∨ role fr' = role fr) frs.
Proof. intros H. step_cases H; repeat (apply Forall_cons_2 || apply Forall_nil_2); by auto. Qed.

Section flow.
Context (conf : ConnectionConfig).

Lemma core_role cn thr i fr k : core_inv conf cn thr → fr ∈ thr i → role fr = Some k → i = k.
Proof.
  intros Hc Hin Hr. pose proof (ci_frames _ _ _ Hc i) as Hf. rewrite Forall_forall in Hf.
  destruct (Hf _ Hin) as [Hro _]. destruct fr; try discriminate Hr; by apply Hro.
Qed.

Lemma no_hands st :
  Forall (λ fr, role fr ≠ Some writer) st → hands st = [] ∧ close_hands st = 0%nat.
Proof.
  induction 1 as [|fr st Hfr _ [IH1 IH2]]; [done|]. unfold hands, close_hands in *. cbn. rewrite IH1, IH2.
  by destruct fr.
Qed.
Lemma no_handler_hands st : Forall (λ fr, role fr ≠ Some handler) st → handler_hands st = [].
Proof. induction 1 as [|fr st Hfr _ IH]; [done|]. unfold handler_hands in *. cbn. rewrite IH. by destruct fr. Qed.

Lemma hands_app a b : hands (a ++ b) = hands a ++ hands b.
Proof. apply bind_app. Qed.
Lemma close_hands_app a b : close_hands (a ++ b) = (close_hands a + close_hands b)%nat.
Proof. unfold close_hands. by rewrite fmap_app, sum_list_with_app. Qed.
Lemma handler_hands_app a b : handler_hands (a ++ b) = handler_hands a ++ handler_hands b.
Proof. apply bind_app. Qed.

(** The frames of the thread that stepped, when it is not goroutine [k]. *)
Lemma step_not_role env cn cn' thr i joined c fr rest frs k :
  core_inv conf cn thr → thr i = fr :: rest → frame_step conf env i joined c fr cn = Some (cn', frs) → i ≠ k →
  role fr ≠ Some k ∧ Forall (λ fr, role fr ≠ Some k) frs.
Proof.
  intros Hc Hthr Hstep Hne.
  assert (role fr ≠ Some k) as Hfr. { intros Hr. apply Hne. eapply core_role; [done| |done]. rewrite Hthr. by left. }
  split; [done|]. eapply Forall_impl; [by eapply frame_step_roles|]. intros fr' [->| ->]; done.
Qed.

Lemma shape_rest_place fr rest : shape (fr :: rest) = true → Forall (λ fr, to_place fr = None ∧ pre_put fr = false ∨ owns RStart fr = true) rest.
Proof.
  intros Hs. destruct rest as [|u [|v rest]]; [done| |by destruct fr].
  apply Forall_singleton. destruct fr; cbn in Hs; destruct u as [[]| | | | | | |[]| | | | |]; auto.
Qed.

Lemma chans_of_snoc items item :
  chans_of (items ++ [item]) = chans_of items ++ match qmCompletion item with Some k => [k] | None => [] end.
Proof. unfold chans_of. rewrite omap_app. cbn. by destruct (qmCompletion item). Qed.

Lemma place_frame_step env cn cn' thr i joined c fr rest frs :
  core_inv conf cn thr → place_inv cn thr → thr i = fr :: rest →
  frame_step conf env i joined c fr cn = Some (cn', frs) → place_inv cn' (upd i (frs ++ rest) thr).
Proof.
  intros Hc [Hnd Hb Hpl Hfull] Hthr Hstep. destruct (frame_step_chans _ _ _ _ _ _ _ _ _ Hstep) as [Hown Hfull'].
  assert (∀ j fr', fr' ∈ upd i (frs ++ rest) thr j → fr' ∈ thr j ∨ j = i ∧ fr' ∈ frs) as Hin.
  { intros j fr'. destruct (decide (j = i)) as [->|Hj]; rewrite ?upd_same, ?upd_other by done; [|by left].
    rewrite Hthr. set_solver. }
  assert (fr ∈ thr i) as Hfr by (rewrite Hthr; by left).
  assert (∀ k, is_Some (qChans cn !! k) → is_Some (qChans cn' !! k)) as Hsome.
  { intros k [[o b] Hk]. destruct (Hown _ _ _ Hk) as [b' Hk']. by exists (mkChanCell o b'). }
  destruct (frame_step_place _ _ _ _ _ _ _ _ _ Hstep) as [Ha Hp|Ha Hch Hp|item Hp Ha Hn].
  - split; rewrite ?Ha; auto. intros j fr' it k [Hj|[-> Hj]]%Hin Hto Hk.
    + destruct (Hpl _ _ _ _ Hj Hto Hk) as (? & b & Hl). destruct (Hown _ _ _ Hl) as [b' Hl']. eauto.
    + destruct (Hp _ _ Hj Hto) as [?|Hto']; [congruence|].
      destruct (Hpl _ _ _ _ Hfr Hto' Hk) as (? & b & Hl). destruct (Hown _ _ _ Hl) as [b' Hl']. eauto.
  - split; rewrite ?Ha; auto. intros j fr' it k [Hj|[-> Hj]]%Hin Hto Hk.
    + destruct (Hpl _ _ _ _ Hj Hto Hk) as (? & b & Hl). destruct (Hown _ _ _ Hl) as [b' Hl']. eauto.
    + rewrite (Hp _ _ Hj Hto) in Hk. injection Hk as <-. split.
      * intros [cell Hl]%Hb. apply lookup_lt_Some in Hl. lia.
      * exists None. rewrite Hch. by rewrite list_lookup_middle.
  - assert (∀ k, qmCompletion item = Some k → (k ∉ chans_of (ghAccepted cn)) ∧ ∃ b, qChans cn !! k = Some (mkChanCell i b)) as Hnew
      by (intros k Hk; by eapply Hpl).
    split; rewrite ?Ha, ?chans_of_snoc; auto.
    + destruct (qmCompletion item) as [k|]; [|by rewrite app_nil_r].
      apply NoDup_app. split; [done|]. split; [|by apply NoDup_singleton].
      intros k' Hk' ->%list_elem_of_singleton. by destruct (Hnew _ eq_refl).
    + intros k [Hk|Hk]%elem_of_app; [by auto|]. destruct (qmCompletion item) as [k0|]; [|by apply not_elem_of_nil in Hk].
      apply list_elem_of_singleton in Hk as ->. destruct (Hnew _ eq_refl) as (_ & b & Hl). apply Hsome. by exists (mkChanCell i b).
    + intros j fr' it k Hj Hto Hk.
      assert (j ≠ i ∧ fr' ∈ thr j) as [Hji Hj'].
      { destruct (decide (j = i)) as [->|Hji]; [|rewrite upd_other in Hj by done; done]. exfalso.
        rewrite upd_same in Hj. apply elem_of_app in Hj as [Hj|Hj].
        - rewrite Forall_forall in Hn. rewrite Hn in Hto by done. done.
        - pose proof (ci_shape _ _ _ Hc i) as Hs. rewrite Hthr in Hs. apply shape_rest_place in Hs.
          rewrite Forall_forall in Hs. destruct (Hs _ Hj) as [[? _]|Hst]; [congruence|]. by destruct fr' as [[]| | | | | | | | | | | |]. }
      destruct (Hpl _ _ _ _ Hj' Hto Hk) as (Hni & b & Hl). destruct (Hown _ _ _ Hl) as [b' Hl']. split; [|eauto].
      intros [Hk'|Hk']%elem_of_app; [done|]. destruct (qmCompletion item) as [k0|]; [|by apply not_elem_of_nil in Hk'].
      apply list_elem_of_singleton in Hk' as ->. destruct (Hnew _ eq_refl) as (_ & b2 & Hl2). congruence.
Qed.

Lemma hands_frame fr st : role fr ≠ Some writer → hands (fr :: st) = hands st ∧ close_hand fr = 0%nat.
Proof. by destruct fr. Qed.

Lemma items_frame_step env cn cn' thr i joined c fr rest frs :
  core_inv conf cn thr → thr i = fr :: rest → frame_step conf env i joined c fr cn = Some (cn', frs) →
  ghAccepted cn ≡ₚ flow cn ++ hands (thr writer) →
  ghAccepted cn' ≡ₚ flow cn' ++ hands (upd i (frs ++ rest) thr writer).
Proof.
  intros Hc Hthr Hstep Hflow. destruct (decide (writer = i)) as [<-|Hi].
  - rewrite upd_same. eapply frame_step_flow; [done|]. by rewrite <-Hthr.
  - rewrite upd_other by done. destruct (step_not_role _ _ _ _ _ _ _ _ _ _ writer Hc Hthr Hstep) as [Hro Hros]; [done|].
    pose proof (frame_step_flow _ _ _ _ _ _ _ _ _ (thr writer) Hstep) as Hf.
    rewrite hands_app, (proj1 (no_hands frs Hros)), (proj1 (hands_frame _ _ Hro)) in Hf. by apply Hf.
Qed.

Lemma close_hands_frame_step env cn cn' thr i joined c fr rest frs :
  core_inv conf cn thr → thr i = fr :: rest → frame_step conf env i joined c fr cn = Some (cn', frs) →
  (close_hands (upd i (frs ++ rest) thr writer) + close_hand fr = close_hands (thr writer) + close_hands frs)%nat.
Proof.
  intros Hc Hthr Hstep. destruct (decide (writer = i)) as [<-|Hi].
  - rewrite upd_same, Hthr, close_hands_app. unfold close_hands. cbn. lia.
  - rewrite upd_other by done. destruct (step_not_role _ _ _ _ _ _ _ _ _ _ writer Hc Hthr Hstep) as [Hro Hros]; [done|].
    rewrite (proj2 (no_hands frs Hros)). by rewrite (proj2 (hands_frame fr [] Hro)).
Qed.

Lemma order_frame_step env cn cn' thr i joined c fr rest frs :
  core_inv conf cn thr → thr i = fr :: rest → frame_step conf env i joined c fr cn = Some (cn', frs) →
  order_inv cn thr → order_inv cn' (upd i (frs ++ rest) thr).
Proof.
  intros Hc Hthr Hstep [Hord Hcall].
  assert (fr = FShut ShDrain → lfCtx cn ≠ None) as Hdr.
  { intros ->. pose proof (ci_frames _ _ _ Hc i) as Hf. rewrite Hthr in Hf. apply Forall_cons in Hf as [[_ [Hse _]] _].
    apply (go_sealed _ (ci_glob _ _ _ Hc)), Hse. }
  unfold order_inv. destruct (decide (handler = i)) as [<-|Hi].
  - rewrite upd_same. eapply frame_step_handler; [done..| |by rewrite <-Hthr|done].
    intros Hro. pose proof (ci_shape _ _ _ Hc handler) as Hs. rewrite Hthr in Hs.
    destruct fr; try discriminate Hro. by destruct rest as [|? [|]].
  - rewrite upd_other by done. destruct (step_not_role _ _ _ _ _ _ _ _ _ _ handler Hc Hthr Hstep) as [Hro Hros]; [done|].
    pose proof (frame_step_handler _ _ _ _ _ _ _ _ _ (thr handler) Hstep Hdr) as Hf.
    rewrite handler_hands_app, (no_handler_hands frs Hros) in Hf. apply Hf; [done| |done].
    by destruct fr.
Qed.

Lemma close_frame_step env cn cn' thr i joined c fr rest frs :
  core_inv conf cn thr → thr i = fr :: rest → frame_step conf env i joined c fr cn = Some (cn', frs) →
  close_inv cn thr → close_inv cn' (upd i (frs ++ rest) thr).
Proof.
  intros Hc Hthr Hstep [Hclose Hputs Hpre Hfresh Hres].
  assert (fr ∈ thr i) as Hfr by (rewrite Hthr; by left).
  pose proof (close_hands_frame_step _ _ _ _ _ _ _ _ _ _ Hc Hthr Hstep) as Hch.
  destruct (frame_step_close _ _ _ _ _ _ _ _ _ Hstep)
    as [Hp Hsum Hr Hcl Hpp|Hp0 Hp Hse Hr0 Hr1 Hh Hhs Hr Hcl Hpp].
  - split; rewrite ?Hp; [lia|done|..].
    + intros j fr' Hj Hpf. destruct (decide (j = i)) as [->|Hji]; [|rewrite upd_other in Hj by done; by eapply Hpre].
      rewrite upd_same in Hj. apply elem_of_app in Hj as [Hj|Hj].
      * destruct (Hpp _ Hj Hpf) as [?|?]; [by eapply Hpre|by apply Hfresh].
      * apply (Hpre i fr'); [rewrite Hthr; by right|done].
    + destruct Hcl as [->|?]; [apply Hfresh|done].
    + intros Hn. destruct Hr as [[Hr Hs]|[Hr|Hr]]; [|congruence|done]. rewrite Hs. apply Hres. congruence.
  - assert (ghPuts cn = 0%nat) as Hz by (by eapply Hpre).
    assert (∀ j fr', fr' ∈ thr j → pre_put fr' = true → syClose cn = Running j) as Hrun.
    { intros j fr' Hin Hpf. assert (held RClose cn j = true) as Hh'; [|by apply bool_decide_eq_true in Hh'].
      eapply core_owner; [done..|]. destruct fr' as [| | | | | | |[]| | | | |]; done. }
    split; rewrite ?Hp; [lia|lia|..].
    + intros j fr' Hj Hpf. exfalso. destruct (decide (j = i)) as [->|Hji].
      * rewrite upd_same in Hj. apply elem_of_app in Hj as [Hj|Hj].
        { rewrite Forall_forall in Hpp. rewrite Hpp in Hpf; done. }
        pose proof (ci_shape _ _ _ Hc i) as Hs. rewrite Hthr in Hs.
        destruct fr; try discriminate Hp0. destruct rest as [|? [|]]; try done. by apply not_elem_of_nil in Hj.
      * rewrite upd_other in Hj by done. pose proof (Hrun _ _ Hj Hpf). pose proof (Hrun _ _ Hfr Hp0). congruence.
    + rewrite Hcl, (Hrun _ _ Hfr Hp0). done.
    + rewrite Hr, Hse. done.
Qed.

Lemma ping_ok_step env cn cn' thr i joined c fr rest frs fr' :
  core_inv conf cn thr → thr i = fr :: rest → frame_step conf env i joined c fr cn = Some (cn', frs) →
  role fr ≠ Some maintenance → lfCtx cn' = None → ping_ok cn fr' → ping_ok cn' fr'.
Proof.
  intros Hc Hthr Hstep Hro Hctx. unfold ping_ok. destruct (maint_locals fr') as [l|]; [|done].
  intros (Hp & ? & ?). repeat split; try done. eapply frame_step_ping_other; [done..| |done|done].
  intros ->. pose proof (ci_frames _ _ _ Hc i) as Hf. rewrite Hthr in Hf. by apply Forall_cons in Hf as [[_ (_ & _ & ?)] _].
Qed.

Lemma ping_idle_step env i joined c fr cn cn' frs :
  frame_step conf env i joined c fr cn = Some (cn', frs) → role fr ≠ Some maintenance → role fr ≠ Some reader →
  ping_state cn 0 → ping_state cn' 0.
Proof.
  intros H. step_cases H; intros Hm Hr Hp; try exact Hp; try done. left. done.
Qed.

Lemma ping_frame_step env cn cn' thr i joined c fr rest frs :
  core_inv conf cn thr → start_inv cn thr → thr i = fr :: rest → frame_step conf env i joined c fr cn = Some (cn', frs) →
  ping_inv cn thr → ping_inv cn' (upd i (frs ++ rest) thr).
Proof.
  intros Hc Hst Hthr Hstep [Hidle Hpf]. pose proof (core_step_le _ _ _ _ _ _ _ _ _ _ _ Hc Hthr Hstep) as Hle.
  assert (fr ∈ thr i) as Hfr by (rewrite Hthr; by left). split.
  - intros Hn. assert (syStart cn ≠ Finished) as Hn0 by (intros ?; apply Hn; by apply Hle).
    assert (∀ k, (k ≤ joiner)%nat → role fr ≠ Some k) as Hno.
    { intros k Hk Hr. assert (i = k) as -> by (by eapply core_role). by rewrite (st_loops _ _ Hst (or_introl Hn0) k Hk) in Hthr. }
    eapply ping_idle_step; [done|apply Hno; unfold maintenance, joiner; lia|apply Hno; unfold reader, joiner; lia|by apply Hidle].
  - intros Hctx.
    assert (lfCtx cn = None) as Hctx0.
    { destruct (lfCtx cn) as [e|] eqn:He; [|done]. by rewrite (le_ctx _ _ Hle e He) in Hctx. }
    specialize (Hpf Hctx0). destruct (decide (maintenance = i)) as [<-|Hi].
    + rewrite upd_same. rewrite Hthr in Hpf. apply Forall_cons in Hpf as [Hp Hrest].
      destruct (decide (role fr = Some maintenance)) as [Hro|Hro].
      * pose proof (ci_shape _ _ _ Hc maintenance) as Hs. rewrite Hthr in Hs.
        assert (rest = []) as -> by (by destruct fr; try discriminate Hro; destruct rest as [|? [|]]).
        rewrite app_nil_r. by eapply frame_step_ping.
      * apply Forall_app. split.
        -- eapply Forall_impl; [by eapply frame_step_roles|]. intros fr' Hr. destruct fr'; try done.
           destruct Hr as [Hr|Hr]; [done|]. by rewrite <-Hr in Hro.
        -- eapply Forall_impl; [done|]. intros fr'. by eapply ping_ok_step.
    + rewrite upd_other by done. eapply Forall_impl; [done|]. intros fr'. eapply ping_ok_step; [done..| |done].
      eapply step_not_role; [done..|]. by intros ->.
Qed.

Record flow_all (cn : Connection) (thr : nat → list Frm) : Prop := {
  fa_place : place_inv cn thr;
  fa_items : ghAccepted cn ≡ₚ flow cn ++ hands (thr writer);
  fa_order : order_inv cn thr;
  fa_close : close_inv cn thr;
  fa_ping : ping_inv cn thr;
}.

(** A frame that holds nothing. *)
Definition quiet (fr : Frm) : Prop :=
  hand fr = [] ∧ close_hand fr = 0%nat ∧ handler_hand fr = [] ∧ pre_put fr = false ∧
  ∀ item, to_place fr = Some item → qmCompletion item = None.

Lemma quiet_hands st : Forall quiet st → hands st = [] ∧ close_hands st = 0%nat ∧ handler_hands st = [].
Proof.
  induction 1 as [|fr st (H1 & H2 & H3 & _) _ (I1 & I2 & I3)]; [done|].
  unfold hands, close_hands, handler_hands in *. cbn. by rewrite H1, H2, H3, I1, I2, I3.
Qed.

Lemma flow_stack cn thr i st :
  flow_all cn thr → Forall quiet (thr i) → Forall quiet st →
  (i = maintenance → lfCtx cn = None → Forall (ping_ok cn) st) → flow_all cn (upd i st thr).
Proof.
  intros [[Hnd Hb Hpl Hfull] Hit [Hord Hcall] [Hwh Hpu Hpre Hfr Hres] [Hid Hpf]] Hq Hq' Hping.
  destruct (quiet_hands _ Hq) as (Q1 & Q2 & Q3). destruct (quiet_hands _ Hq') as (Q1' & Q2' & Q3').
  assert (∀ j fr, fr ∈ upd i st thr j → fr ∈ thr j ∨ quiet fr) as Hin.
  { intros j fr. destruct (decide (j = i)) as [->|Hj]; rewrite ?upd_same, ?upd_other by done; [|by left].
    intros Hin. right. by eapply Forall_forall in Hq'. }
  assert (hands (upd i st thr writer) = hands (thr writer) ∧ close_hands (upd i st thr writer) = close_hands (thr writer) ∧
    handler_hands (upd i st thr handler) = handler_hands (thr handler)) as (E1 & E2 & E3).
  { unfold upd. repeat case_decide; subst; repeat split; congruence. }
  split; [split|..|split|split]; rewrite ?E1, ?E2; try done.
  - intros j fr it k [Hj|(_ & _ & _ & _ & Hn)]%Hin Hto Hk; [by eapply Hpl|]. by rewrite (Hn _ Hto) in Hk.
  - split; [|done]. by rewrite E3.
  - intros j fr [Hj|(_ & _ & _ & Hn & _)]%Hin Hp; [by eapply Hpre|congruence].
  - intros Hctx. destruct (decide (maintenance = i)) as [<-|Hj]; [rewrite upd_same; by apply Hping|].
    rewrite upd_other by done. by apply Hpf.
Qed.

Lemma flow_return cn thr i r caller rest frs :
  core_inv conf cn thr → flow_all cn thr → thr i = FRet r :: caller :: rest → return_step r caller = Some frs →
  flow_all cn (upd i (frs ++ rest) thr).
Proof.
  intros Hc Hfa Hthr Hr. pose proof (ci_shape _ _ _ Hc i) as Hs. pose proof (pg_frames _ _ (fa_ping _ _ Hfa)) as Hpf.
  rewrite Hthr in Hs. destruct rest; [|done]. rewrite app_nil_r.
  assert (quiet caller ∧ Forall quiet frs) as [Hq Hqs].
  { destruct caller as [|[]| | |[]| |[]| | | | | |], r; try discriminate Hr; injection Hr as <-;
      (split; [|apply Forall_singleton]); by repeat split. }
  apply flow_stack; [done| |done|].
  - rewrite Hthr. apply Forall_cons_2; [by repeat split|by apply Forall_singleton].
  - intros -> Hctx. specialize (Hpf Hctx). rewrite Hthr in Hpf. apply Forall_cons in Hpf as [_ [Hp _]%Forall_cons].
    destruct caller as [|[]| | |[]| |[]| | | | | |], r; try discriminate Hr; injection Hr as <-;
      apply Forall_singleton; try done; unfold ping_ok in *; cbn in *; intuition congruence.
Qed.

Lemma flow_spawn cn thr i x rest :
  core_inv conf cn thr → start_inv cn thr → flow_all cn thr → thr i = FStart (StSpawn x) :: rest →
  flow_all (set_syStart Finished cn) (upd i rest (spawn conf x thr)).
Proof.
  intros Hc Hst Hfa Hthr.
  assert (held RStart cn i = true) as Hown by (eapply core_owner; [done|rewrite Hthr; by left|done]).
  apply bool_decide_eq_true in Hown.
  pose proof (ci_shape _ _ _ Hc i) as Hs. pose proof (ci_frames _ _ _ Hc i) as Hf. rewrite Hthr in Hs, Hf.
  assert (rest = []) as -> by (by destruct rest as [|u [|]]). apply Forall_cons in Hf as [[Hi _] _]. cbn in Hi.
  assert (∀ k, (k ≤ joiner)%nat → thr k = []) as Hk by (apply (st_loops _ _ Hst); left; congruence).
  assert (ping_state cn 0) as Hp0 by (apply (pg_idle _ _ (fa_ping _ _ Hfa)); congruence).
  assert (flow_all cn (upd i [] (spawn conf x thr))) as [Hpl Hit Hor Hcl [Hid Hpf]].
  { apply flow_stack; [|rewrite spawn_other, Hthr by done; by repeat constructor|done|done].
    unfold spawn. repeat apply flow_stack; try done;
      try (rewrite ?upd_other by done; rewrite Hk by (unfold joiner, reader, writer, maintenance, handler, watcher; lia); done);
      try (by apply Forall_singleton; repeat split); try (intros _ _; apply Forall_singleton; by repeat split).
    destruct (ccHandler conf); [|done]. by apply Forall_singleton; repeat split. }
  split; [|done|done| |split; [done|exact Hpf]].
  - destruct Hpl. by split.
  - destruct Hcl. by split.
Qed.

Lemma flow_all_step l s s' :
  sys_inv conf s → flow_all (sysConn s) (sysThr s) → sys_step conf l s = Some s' → flow_all (sysConn s') (sysThr s').
Proof.
  intros [Hc Hst] Hfa Hstep. destruct l as [i c|i op|x e]; cbn in Hstep.
  - apply thread_step_cases in Hstep as [r Hthr ->|r caller rest frs Hthr Hr ->|x rest Hthr ->|fr rest cn frs Hthr Hf ->]; cbn.
    + apply flow_stack; [done|rewrite Hthr; by repeat constructor|done|done].
    + by eapply flow_return.
    + by eapply flow_spawn.
    + destruct Hfa. split; [by eapply place_frame_step|by eapply items_frame_step|by eapply order_frame_step|
        by eapply close_frame_step|by eapply ping_frame_step].
  - repeat case_bool_decide; try discriminate. injection Hstep as <-. cbn. apply flow_stack; [done| | |].
    + match goal with H : sysThr s i = [] |- _ => by rewrite H end.
    + apply Forall_singleton. destruct op; repeat split; cbn; naive_solver.
    + intros -> _. apply Forall_singleton. by destruct op.
  - destruct (sysEnv s x); [done|]. by injection Hstep as <-.
Qed.

Lemma flow_all_init : flow_all (sysConn sys_init) (sysThr sys_init).
Proof.
  split; [split|done|split|split|split]; cbn; try done; try (by intros; exfalso; eapply not_elem_of_nil).
  - constructor.
  - lia.
  - by intros _; left.
Qed.

Lemma flow_all_reach s : reachable conf s → flow_all (sysConn s) (sysThr s).
Proof.
  intros Hr. assert (sys_inv conf s ∧ flow_all (sysConn s) (sysThr s)) as [_ ?]; [|done]. revert Hr.
  apply (rtc_ind_r (λ s, sys_inv conf s ∧ flow_all (sysConn s) (sysThr s))).
  - split; [apply sys_inv_init|apply flow_all_init].
  - intros ? ? _ [l Hl] [Hi Hf]. split; [by eapply sys_inv_step|by eapply flow_all_step].
Qed.
End flow.

