(* ===== verification/ConnectionSpec.v ===== *)
(** * What the connection runtime promises

    The theorems on Connection.v that its users rely on. *)

From stdpp Require Import gmap.
From S2P Require Import Prelude Wire Header Frame Tlv Utf8 Messages Replay Sha256 Crypto Rekey Session.
From S2P Require Import SessionSend SessionReceive SessionPair Transport ConnectionIO Handshake Config.
From S2P Require Import Connection ConnectionSteps ConnectionSafety ConnectionFlow.

Local Open Scope Z_scope.

Section spec.
Context (conf : ConnectionConfig).

(** ** Completion of accepted items *)

Lemma chans_of_app a b : chans_of (a ++ b) = chans_of a ++ chans_of b.
Proof. apply omap_app. Qed.

Lemma pending_completes s item r :
  reachable conf s → item ∈ (qOutbound (sysConn s) ++ qControl (sysConn s) ++ hands (sysThr s writer)) →
  is_Some (complete item r (sysConn s)).
Proof.
  intros Hr Hin. destruct (flow_all_reach _ _ Hr) as [[Hnd Hb _ Hfull] Hit _ _ _].
  unfold complete. destruct (qmCompletion item) as [k|] eqn:Hk; [|by eexists]. cbn.
  assert (k ∈ chans_of (ghAccepted (sysConn s))) as Hacc.
  { apply list_elem_of_omap. exists item. split; [|done]. rewrite Hit. unfold flow. set_solver. }
  destruct (Hb _ Hacc) as [[o [r0|]] Hl]; rewrite Hl; [|by eexists]. exfalso.
  destruct (Hfull _ _ _ Hl) as (it & Hfin & Hk').
  assert (NoDup (chans_of ((ghFinished (sysConn s)).*1 ++ (qOutbound (sysConn s) ++ qControl (sysConn s) ++ hands (sysThr s writer))))) as Hn.
  { eapply NoDup_Permutation_proper; [|exact Hnd]. unfold chans_of. f_equiv. rewrite Hit. unfold flow. solve_Permutation. }
  rewrite chans_of_app in Hn. apply NoDup_app in Hn as (_ & Hdis & _). apply (Hdis k); apply list_elem_of_omap.
  - exists it. split; [|done]. apply list_elem_of_fmap. by exists (it, r0).
  - by exists item.
Qed.

Lemma jcnt_pos fr st : fr ∈ st → join_frame fr = true → (0 < jcnt st)%nat.
Proof.
  intros Hin Hj. induction st as [|x st IH]; [by apply not_elem_of_nil in Hin|]. cbn [jcnt].
  apply elem_of_cons in Hin as [<-|Hin]; [rewrite Hj; cbn; lia|]. specialize (IH Hin). lia.
Qed.

Lemma done_loops s :
  reachable conf s → lfDone (sysConn s) = true → ∀ k, (k ≤ handler)%nat → sysThr s k = [].
Proof.
  intros Hr Hd. destruct (conn_inv_reach _ _ Hr) as [[Hc Hst] [Hl _]].
  assert (syStart (sysConn s) = Finished) as Hf.
  { destruct (decide (syStart (sysConn s) = Finished)) as [|Hn]; [done|]. apply (st_before _ _ Hst) in Hn. congruence. }
  destruct (lfStarted (sysConn s)) eqn:Hs.
  - apply Hl; [done|done|]. pose proof (st_done _ _ Hst Hf) as Hj. rewrite Hd, Hs in Hj. cbn in Hj.
    intros Hin. assert (0 < jcnt (sysThr s joiner))%nat; [by eapply jcnt_pos|lia].
  - intros k Hk. apply (st_loops _ _ Hst); [by right|]. unfold handler, joiner in *. lia.
Qed.

Lemma done_disposed s : reachable conf s → lfDone (sysConn s) = true → disposed (sysConn s).
Proof.
  intros Hr Hd. destruct (conn_inv_reach _ _ Hr) as [[Hc _] [_ Hj]]. by apply (go_finished _ (ci_glob _ _ _ Hc)), Hj.
Qed.

Lemma reachable_le s s' : reachable conf s → rtc (sys_any_step conf) s s' → cn_le (sysConn s) (sysConn s').
Proof.
  intros Hr Hs. induction Hs as [s|s s1 s2 [l Hl] Hs IH]; [done|]. etrans.
  - eapply sys_step_le; [by apply sys_inv_reach|done].
  - apply IH. eapply rtc_r; [done|by exists l].
Qed.

Lemma run_reachable ls s : sys_run conf ls sys_init = Some s → reachable conf s.
Proof.
  unfold reachable. generalize sys_init. induction ls as [|l ls IH]; intros s0; cbn; [intros [= ->]; done|].
  destruct (sys_step conf l s0) as [s1|] eqn:Hl; [|done]. cbn. intros Hrun. eapply rtc_l; [by exists l|by apply IH].
Qed.

(** What Done promises. *)
Definition drained (s : Sys) : Prop :=
  lfDone (sysConn s) = true ∧ (∀ k, (k ≤ handler)%nat → sysThr s k = []) ∧ queues_empty (sysConn s) ∧ qHandler (sysConn s) = [] ∧
  lfSession (sysConn s) = true ∧ lfTransport (sysConn s) = true ∧ ghAccepted (sysConn s) ≡ₚ (ghFinished (sysConn s)).*1.

Lemma accepted_places s :
  reachable conf s →
  ghAccepted (sysConn s) ≡ₚ
    (qOutbound (sysConn s) ++ qControl (sysConn s) ++ hands (sysThr s writer)) ++ (ghFinished (sysConn s)).*1.
Proof. intros Hr. destruct (flow_all_reach _ _ Hr) as [_ Hit _ _ _]. rewrite Hit. unfold flow. solve_Permutation. Qed.

Lemma done_drained s : reachable conf s → lfDone (sysConn s) = true → drained s.
Proof.
  intros Hr Hd. pose proof (done_loops _ Hr Hd) as Hl. destruct (done_disposed _ Hr Hd) as (_ & Hq & ? & ? & ?).
  do 6 (split; [done|]). rewrite (accepted_places _ Hr), (Hl writer) by (unfold writer, handler; lia).
  destruct Hq as (-> & -> & _). done.
Qed.

(** C7: In every interleaving each accepted message is in exactly one place (a queue, the
    writer's hands, the completed list), completions never block, a completion channel only
    holds its own message's result, and once Done is closed every accepted message is completed.
    *)
Theorem accepted_completed_once s :
  reachable conf s →
  let cn := sysConn s in
  let pending := qOutbound cn ++ qControl cn ++ hands (sysThr s writer) in
  ghAccepted cn ≡ₚ pending ++ (ghFinished cn).*1 ∧ NoDup (omap qmCompletion (ghAccepted cn)) ∧
  (∀ item r, item ∈ pending → is_Some (complete item r cn)) ∧
  (∀ k o r, qChans cn !! k = Some (mkChanCell o (Some r)) →
     ∃ item, (item, r) ∈ ghFinished cn ∧ qmCompletion item = Some k) ∧
  (lfDone cn = true → ghAccepted cn ≡ₚ (ghFinished cn).*1).
Proof.
  intros Hr cn pending. destruct (flow_all_reach _ _ Hr) as [[Hnd _ _ Hfull] _ _ _ _].
  split; [by apply accepted_places|]. repeat split; try done.
  - intros item r. by apply pending_completes.
  - intros Hd. by apply (done_drained _ Hr Hd).
Qed.

(** C18: In every interleaving a connection never panics (Done is closed at most once); the
    first terminal cause is kept; and once Done is closed the four loops have ended, the queues
    are empty and session and transport are closed, ever after. *)
Theorem done_is_final s :
  reachable conf s →
  (∀ i, FPanic ∉ sysThr s i) ∧
  ∀ s', rtc (sys_any_step conf) s s' →
    (∀ e, Connection_Err (sysConn s) = Some e → Connection_Err (sysConn s') = Some e) ∧
    (∀ e, lfCtx (sysConn s) = Some e → lfCtx (sysConn s') = Some e) ∧
    (Connection_Done (sysConn s) = true →
       Connection_Done (sysConn s') = true ∧ Connection_Err (sysConn s') ≠ None ∧ queues_empty (sysConn s') ∧
       qHandler (sysConn s') = [] ∧ lfSession (sysConn s') = true ∧ lfTransport (sysConn s') = true ∧
       ∀ k, (k ≤ handler)%nat → sysThr s' k = []).
Proof.
  intros Hr. split.
  - intros i Hin. destruct (sys_inv_reach _ _ Hr) as [Hc _]. pose proof (ci_frames _ _ _ Hc i) as Hf.
    rewrite Forall_forall in Hf. by destruct (Hf _ Hin).
  - intros s' Hs. pose proof (reachable_le _ _ Hr Hs) as Hle. assert (reachable conf s') as Hr' by (unfold reachable in *; by etrans).
    split; [apply Hle|]. split; [apply Hle|]. intros Hd%(le_done _ _ Hle). split; [done|].
    destruct (done_disposed _ Hr' Hd) as ([? _] & ? & ? & ? & ?). do 5 (split; [done|]). by apply done_loops.
Qed.

(** C25: When the pong deadline is handled on a running connection, it ends with
    ErrKeepaliveTimeout exactly when no response with the outstanding ping's nonce was read
    since the ping began: no acknowledgement is lost to the timer and no stale response counts.
    *)
Theorem keepalive_timeout_exact s l c :
  reachable conf s → lfCtx (sysConn s) = None → sysThr s maintenance = [FMaint (MtExpired l)] →
  ∃ s', thread_step conf maintenance c s = Some s' ∧
    sysThr s' maintenance =
      if bool_decide (mtOutstanding l ∈ ghAckLog (sysConn s)) then [FMaint (MtSelect (mkMaintLocals 0 true false))]
      else [shut_with ErrKeepaliveTimeout].
Proof.
  intros Hr Hctx Hthr. destruct (sys_inv_reach _ _ Hr) as [Hc _].
  pose proof (ci_frames _ _ _ Hc maintenance) as Hf. rewrite Hthr in Hf. apply Forall_cons in Hf as [[_ Hm] _]. cbn in Hm.
  pose proof (pg_frames _ _ (fa_ping _ _ (flow_all_reach _ _ Hr)) Hctx) as Hp. rewrite Hthr in Hp.
  apply Forall_cons in Hp as [(Hst & _ & Hn) _]. cbn in Hst, Hn.
  unfold thread_step. rewrite Hthr. cbn. unfold acknowledged, goto. rewrite (proj2 (Z.ltb_lt _ _)) by done.
  destruct Hst as [(? & _)|[(_ & _ & -> & Hin)|(_ & _ & -> & Hin)]]; [done| |]; cbn; eexists; (split; [done|]); cbn;
    rewrite upd_same.
  - by rewrite bool_decide_eq_false_2.
  - by rewrite bool_decide_eq_true_2.
Qed.

(** C26: The handler is called on a prefix of the messages the reader dispatched, in the order
    received and each at most once, and while the connection runs every other dispatched message
    is in the handler's hands or still queued. *)
Theorem handler_in_order s :
  reachable conf s →
  (ghCalled (sysConn s) `prefix_of` ghDispatched (sysConn s)) ∧
  (lfCtx (sysConn s) = None →
   ghDispatched (sysConn s) = ghCalled (sysConn s) ++ handler_hands (sysThr s handler) ++ qHandler (sysConn s)).
Proof. intros Hr. by destruct (fa_order _ _ (flow_all_reach _ _ Hr)). Qed.
End spec.

(** After resetTimer the timer fires at the new time and not before, whatever was
    pending; an operation without a timeout ends with the connection only. *)
Lemma reset_timer_exact now duration t now' :
  Timer_ready now' <$> resetTimer now duration (Some t) = Some (now + duration <=? now').
Proof. by destruct t as [d|]. Qed.

Lemma operation_ends now timeout now' (cn : Connection) :
  operation_Err now' (operationContext now timeout) cn =
  if is_done cn then Some ErrCanceled
  else if bool_decide (0 < timeout ∧ now + timeout ≤ now') then Some ErrDeadlineExceeded else None.
Proof.
  unfold operation_Err, operationContext. destruct (is_done cn); [done|].
  destruct (timeout <=? 0) eqn:Ht; case_bool_decide; try lia; [done|..]; destruct (_ <=? now') eqn:?; try lia; done.
Qed.

(** ** Runs *)

Definition go_on (i n : nat) : list Label := replicate n (LRun i (CCase 0)).

Definition ex_item : AnyMessage := ByValue (MsgPingPong (mkPingPong false 7)).
Definition ex_data : Message := MsgEncryptedData (mkEncryptedData 1 "001"%byte []).

(** Start, then a message sent and written. *)
Definition ex_start : list Label := LCall 6 (OpStart 0) :: go_on 6 3.
Definition ex_send : list Label :=
  LCall 7 (OpSendPaddedAndWait None ex_item 0) :: go_on 7 4 ++ [LRun 7 (CCase 2)] ++ go_on 7 2 ++
  go_on writer 1 ++ [LRun writer (CCase 3); LRun writer (CErr None)] ++ go_on writer 2.
(** Close up to the point where the writer has begun shutdown. *)
Definition ex_close : list Label :=
  LCall 8 OpClose :: go_on 8 9 ++ go_on writer 1 ++ [LRun writer (CErr None)] ++ go_on writer 3.
(** The rest of shutdown and the end of the goroutines. *)
Definition ex_finish : list Label :=
  go_on writer 5 ++ [LRun writer (CCase 3)] ++ go_on writer 5 ++ [LRun writer (CCase 3)] ++
  [LRun reader (CErr (Some EOF))] ++ go_on reader 2 ++ go_on maintenance 1 ++ go_on handler 1 ++ go_on joiner 5.

Definition ex_runtime : list Label := ex_start ++ ex_send ++ ex_close ++ ex_finish.
Definition ex_dispatch : list Label :=
  [LRun reader (CMsg ex_data)] ++ go_on reader 6 ++ go_on handler 1 ++ [LRun handler (CCase 1)] ++ go_on handler 1.
Definition ex_ping : list Label :=
  [LRun maintenance (CCase 3)] ++ go_on maintenance 7 ++ [LRun maintenance (CCase 4)].

Definition ex_conf : ConnectionConfig := NewConnection_config ex_conn_config.

(** The message is written before Close ends the connection. *)
Lemma accepted_completed_once_witness :
  match sys_run ex_conf ex_runtime sys_init with
  | Some s => lfDone (sysConn s) = true ∧ ghAccepted (sysConn s) ≡ₚ (ghFinished (sysConn s)).*1 ∧
              ghFinished (sysConn s) = [(mkQueuedMessage ex_item 0 (Some 0%nat), None)]
  | None => False
  end.
Proof.
  assert ((λ s, (lfDone (sysConn s), ghFinished (sysConn s))) <$> sys_run ex_conf ex_runtime sys_init =
    Some (true, [(mkQueuedMessage ex_item 0 (Some 0%nat), None)])) as H by reflexivity.
  destruct (sys_run ex_conf ex_runtime sys_init) as [s|] eqn:Hrun; [|discriminate H]. injection H as Hd Hf.
  split; [exact Hd|]. split; [|exact Hf].
  exact (proj2 (proj2 (proj2 (proj2 (accepted_completed_once ex_conf s (run_reachable ex_conf _ _ Hrun))))) Hd).
Defined.

Lemma done_is_final_witness :
  match sys_run ex_conf ex_runtime sys_init with
  | Some s => lfDone (sysConn s) = true ∧ lfTerminal (sysConn s) ≠ None ∧ queues_empty (sysConn s)
  | None => False
  end.
Proof.
  assert ((λ s, lfDone (sysConn s)) <$> sys_run ex_conf ex_runtime sys_init = Some true) as H by reflexivity.
  destruct (sys_run ex_conf ex_runtime sys_init) as [s|] eqn:Hrun; [|discriminate H]. injection H as Hd.
  destruct (done_is_final ex_conf s (run_reachable ex_conf _ _ Hrun)) as [_ Hfin].
  destruct (Hfin s (rtc_refl _ _)) as (_ & _ & Hdone). destruct (Hdone Hd) as (_ & Ht & Hq & _).
  split; [exact Hd|]. split; [exact Ht|exact Hq].
Defined.

(** A ping that nobody answers. *)
Lemma keepalive_timeout_exact_witness :
  match sys_run ex_conf (ex_start ++ ex_ping) sys_init with
  | Some s => ∃ s', thread_step ex_conf maintenance (CCase 0) s = Some s' ∧
                    sysThr s' maintenance = [shut_with ErrKeepaliveTimeout]
  | None => False
  end.
Proof.
  assert ((λ s, (lfCtx (sysConn s), sysThr s maintenance, ghAckLog (sysConn s))) <$> sys_run ex_conf (ex_start ++ ex_ping) sys_init =
    Some (None, [FMaint (MtExpired (mkMaintLocals 1 false true))], [])) as H by reflexivity.
  destruct (sys_run ex_conf (ex_start ++ ex_ping) sys_init) as [s|] eqn:Hrun; [|discriminate H]. injection H as Hctx Hthr Hlog.
  destruct (keepalive_timeout_exact ex_conf s _ (CCase 0) (run_reachable ex_conf _ _ Hrun) Hctx Hthr) as (s' & Hs & Ht).
  exists s'. split; [exact Hs|]. rewrite Ht, Hlog. reflexivity.
Defined.

Lemma handler_in_order_witness :
  match sys_run ex_conf (ex_start ++ ex_dispatch) sys_init with
  | Some s => ghCalled (sysConn s) = [ex_data] ∧ (ghCalled (sysConn s) `prefix_of` ghDispatched (sysConn s))
  | None => False
  end.
Proof.
  assert ((λ s, ghCalled (sysConn s)) <$> sys_run ex_conf (ex_start ++ ex_dispatch) sys_init = Some [ex_data]) as H by reflexivity.
  destruct (sys_run ex_conf (ex_start ++ ex_dispatch) sys_init) as [s|] eqn:Hrun; [|discriminate H]. injection H as Hc.
  split; [exact Hc|]. exact (proj1 (handler_in_order ex_conf s (run_reachable ex_conf _ _ Hrun))).
Defined.
