(* ===== verification/ConnectionLive.v ===== *)
(** * Shutdown of a connection always gets through

    No lock, once or channel of Connection.v can keep shutdown, Close or the
    goroutines from ending: from every reachable state in which shutdown has begun
    there is a run, of existing threads alone and with a peer that sends nothing, to
    a state in which it is finished and Done is closed. *)

From stdpp Require Import gmap.
From S2P Require Import Prelude Wire Header Frame Tlv Utf8 Messages Replay Sha256 Crypto Rekey Session.
From S2P Require Import SessionSend SessionReceive SessionPair Transport ConnectionIO Handshake Config.
From S2P Require Import Connection ConnectionSteps ConnectionSafety ConnectionFlow ConnectionSpec.

Local Open Scope Z_scope.

Section live.
Context (conf : ConnectionConfig).

(** ** Runs *)

(** A frame that steps by [frame_step]. *)
Definition plain (fr : Frm) : bool := match fr with FRet _ | FStart (StSpawn _) => false | _ => true end.

Definition after (s : Sys) (i : nat) (cn : Connection) (st : list Frm) : Sys := mkSys cn (sysEnv s) (upd i st (sysThr s)).

(** A peer that says nothing: a read returns only after the transport is closed, and
    then, like a write, with an error. *)
Definition silent (cn : Connection) (fr : Frm) (c : Choice) : bool :=
  match fr, c with
  | FRead RdRead, CErr (Some _) => lfTransport cn
  | FRead RdRead, _ => false
  | FWrite (WlWrite _ | WlCloseWrite _), CErr None => negb (lfTransport cn)
  | _, _ => true
  end.

(** A step of a goroutine or of a call in progress, with a silent peer. *)
Definition quiet_step (s s' : Sys) : Prop :=
  ∃ i c fr rest, sysThr s i = fr :: rest ∧ silent (sysConn s) fr c = true ∧ sys_step conf (LRun i c) s = Some s'.

Lemma quiet_any s s' : quiet_step s s' → sys_any_step conf s s'.
Proof. intros (i & c & _ & _ & _ & _ & Hs). by exists (LRun i c). Qed.

Lemma quiet_run s s' : rtc quiet_step s s' → rtc (sys_any_step conf) s s'.
Proof. apply rtc_subrel, quiet_any. Qed.

Lemma frame_any_step s i c fr rest cn frs :
  sysThr s i = fr :: rest → plain fr = true → silent (sysConn s) fr c = true →
  frame_step conf (sysEnv s) i (loops_done (sysThr s)) c fr (sysConn s) = Some (cn, frs) →
  quiet_step s (after s i cn (frs ++ rest)).
Proof.
  intros Hthr Hp Hq Hf. exists i, c, fr, rest. do 2 (split; [done|]). cbn. unfold thread_step. rewrite Hthr.
  destruct fr as [| | | | | | | |[]| | | |]; try discriminate Hp; by rewrite Hf.
Qed.

Lemma reachable_step s s' : reachable conf s → quiet_step s s' → reachable conf s'.
Proof. intros Hr Hs%quiet_any. exact (rtc_r _ _ _ Hr Hs). Qed.

Lemma reachable_run s s' : reachable conf s → rtc quiet_step s s' → reachable conf s'.
Proof. intros Hr Hs%quiet_run. unfold reachable in *. by etrans. Qed.

Lemma quiet_le s s' : reachable conf s → rtc quiet_step s s' → cn_le (sysConn s) (sysConn s').
Proof. intros Hr Hs%quiet_run. by apply (reachable_le conf). Qed.

(** A state with [P] can be reached. *)
Definition can_reach (P : Sys → Prop) (s : Sys) : Prop := ∃ s', rtc quiet_step s s' ∧ P s'.

Lemma can_reach_bind P Q s :
  reachable conf s → can_reach P s → (∀ s', reachable conf s' → rtc quiet_step s s' → P s' → can_reach Q s') →
  can_reach Q s.
Proof.
  intros Hr (s1 & H1 & HP) HQ. assert (reachable conf s1) as Hr1 by (by eapply reachable_run).
  destruct (HQ s1 Hr1 H1 HP) as (s2 & H2 & HQ2). exists s2. split; [by etrans|done].
Qed.

(** The owner of the locks and of shutdown is on top of its stack. *)
Lemma owner_top s i R :
  sys_inv conf s → R = RRead ∨ R = RWrite ∨ R = RShut → held R (sysConn s) i = true →
  ∃ fr rest, sysThr s i = fr :: rest ∧ owns R fr = true.
Proof.
  intros [Hc _] HR Hh. pose proof (ci_own _ _ _ Hc i R) as Ho. pose proof (ci_shape _ _ _ Hc i) as Hs. rewrite Hh in Ho.
  destruct (sysThr s i) as [|fr rest]; [done|]. exists fr, rest. split; [done|].
  destruct rest as [|u [|v rest]]; cbn [cnt] in Ho; [by destruct (owns R fr)| |by destruct fr].
  destruct (below_owns u) as (H1 & H2 & H3).
  { destruct fr; try discriminate Hs; cbn in Hs; rewrite Hs; by destruct (after_shut u). }
  assert (owns R u = false) as Hu by (destruct HR as [->|[->| ->]]; done).
  rewrite Hu in Ho. by destruct (owns R fr).
Qed.

(** Apart from [i] and the threads that own one of [Rs], no thread in a call has moved. *)
Definition stays (Rs : list Res) (i : nat) (s s' : Sys) : Prop :=
  ∀ k, k ≠ i → sysThr s k ≠ [] → (∀ R, R ∈ Rs → cnt R (sysThr s k) = 0%nat) → sysThr s' k = sysThr s k.

Lemma stays_after Rs i s cn st : stays Rs i s (after s i cn st).
Proof. intros k Hk _ _. by apply upd_other. Qed.

Lemma stays_trans Rs i s s1 s2 : stays Rs i s s1 → stays Rs i s1 s2 → stays Rs i s s2.
Proof. intros H1 H2 k Hk Hne Hf. rewrite (H2 k), (H1 k); try done; by rewrite (H1 k). Qed.

Definition keeps (Rs : list Res) (s s' : Sys) : Prop :=
  ∀ k, sysThr s k ≠ [] → (∀ R, R ∈ Rs → cnt R (sysThr s k) = 0%nat) → sysThr s' k = sysThr s k.

Lemma stays_keeps Rs Rs' R i s s' :
  stays Rs i s s' → cnt R (sysThr s i) ≠ 0%nat → R ∈ Rs' → Rs ⊆ Rs' → keeps Rs' s s'.
Proof. intros Hst Hc HR Hsub k Hne Hf. apply Hst; [intros ->; by apply Hc, Hf|done|]. intros R' HR'. by apply Hf, Hsub. Qed.

Lemma keeps_stays Rs Rs' i s s' : keeps Rs s s' → Rs ⊆ Rs' → stays Rs' i s s'.
Proof. intros Hk Hsub k _ Hne Hf. apply Hk; [done|]. intros R HR. by apply Hf, Hsub. Qed.

(** Only the owner of shutdown takes the exclusive lock. *)
Lemma writer_shuts s j : reachable conf s → syWriter (sysConn s) = Some j → syShutdown (sysConn s) = Running j.
Proof.
  intros Hr Hj. pose proof (sys_inv_reach _ _ Hr) as Hi. pose proof Hi as [Hc _].
  destruct (owner_top s j RWrite) as (fr & rest & Hthr & Ho); [done|auto|by apply bool_decide_eq_true_2|].
  apply (bool_decide_eq_true (syShutdown (sysConn s) = Running j)). change (held RShut (sysConn s) j = true).
  eapply core_owner; [done|rewrite Hthr; by left|]. by destruct fr as [| |[]| | | | | | | | | |].
Qed.

(** ** Producers leave a cancelled connection *)

Definition lock_steps (fr : Frm) : nat :=
  match fr with
  | FEnq (EqCtx _) => 4 | FEnq (EqClosing _) => 3 | FEnq (EqSelect _) => 2
  | FRead (RdCheck _) => 3 | FRead (RdSelect _) => 2
  | FClose (ClCheck _) => 3 | FClose (ClSelect _) => 2
  | _ => 1
  end.

Lemma reader_step env i joined (cn : Connection) fr :
  owns RRead fr = true → lfCtx cn ≠ None →
  ∃ cn' frs, frame_step conf env i joined (CCase 1) fr cn = Some (cn', frs) ∧
    (cnS cn' = cnS (RUnlock i cn) ∨
     cnS cn' = cnS cn ∧ ∃ fr', frs = [fr'] ∧ owns RRead fr' = true ∧ (lock_steps fr' < lock_steps fr)%nat).
Proof.
  intros Ho Hd. assert (is_done cn = true) as Hdone by (by apply is_done_true).
  destruct fr as [[]| | | |[]| | |[]| | | | |]; try discriminate Ho; cbn; unfold enabled, goto; rewrite ?Hdone.
  all: repeat match goal with |- context [match ?x with _ => _ end = Some _] => destruct x end.
  all: eexists _, _; split; [reflexivity|]; cbn; first [by left|right; split; [|eexists; repeat split; cbn; lia]].
  all: try done; unfold push_item; by repeat case_match.
Qed.

Lemma reader_release s i :
  reachable conf s → lfCtx (sysConn s) ≠ None → i ∈ syReaders (sysConn s) →
  ∃ s', rtc quiet_step s s' ∧ cnS (sysConn s') = cnS (RUnlock i (sysConn s)) ∧
    ∀ j, j ≠ i → sysThr s' j = sysThr s j.
Proof.
  intros Hr Hctx Hi.
  destruct (owner_top s i RRead) as (fr & rest & Hthr & Ho); [by apply sys_inv_reach|auto|by apply bool_decide_eq_true_2|].
  remember (lock_steps fr) as n eqn:Hn. revert s fr Hr Hctx Hi Hthr Ho Hn.
  induction (lt_wf n) as [n _ IH]; intros s fr Hr Hctx Hi Hthr Ho Hn.
  destruct (reader_step (sysEnv s) i (loops_done (sysThr s)) (sysConn s) fr Ho Hctx) as (cn' & frs & Hf & Hcase).
  assert (quiet_step s (after s i cn' (frs ++ rest))) as Hstep.
  { eapply frame_any_step; [done| | |done]; by destruct fr as [[]| |[]|[]|[]| | |[]|[]| | | |]. }
  destruct Hcase as [Hcn|(Hcn & fr' & -> & Ho' & Hlt)].
  - eexists. split; [by apply rtc_once|]. split; [done|]. intros j Hj. by apply upd_other.
  - assert (cn_le (sysConn s) cn') as Hle.
    { eapply (quiet_le s (after s i cn' _)); [done|by apply rtc_once]. }
    destruct (IH (lock_steps fr') ltac:(lia) (after s i cn' ([fr'] ++ rest)) fr') as (s' & Hrun & Hcn' & Hoth).
    + by eapply reachable_step.
    + by eapply le_ctx_not_None.
    + cbn. by rewrite Hcn.
    + cbn. by rewrite upd_same.
    + done.
    + done.
    + exists s'. split; [by eapply rtc_l|]. split.
      * rewrite Hcn'. unfold RUnlock, set_syReaders, after. cbn. by rewrite Hcn.
      * intros j Hj. rewrite Hoth by done. cbn. by apply upd_other.
Qed.

Lemma readers_drain s :
  reachable conf s → lfCtx (sysConn s) ≠ None →
  ∃ s', rtc quiet_step s s' ∧ syReaders (sysConn s') = ∅ ∧ syWriter (sysConn s') = syWriter (sysConn s) ∧
    ∀ j, j ∉ syReaders (sysConn s) → sysThr s' j = sysThr s j.
Proof.
  remember (syReaders (sysConn s)) as X eqn:HX. revert s HX.
  induction X as [|i X Hi IH] using set_ind_L; intros s HX Hr Hctx.
  - exists s. repeat split; done.
  - destruct (reader_release s i) as (s1 & Hrun & Hcn & Hoth); [done|done|set_solver|].
    assert (reachable conf s1) as Hr1 by (by eapply reachable_run).
    destruct (IH s1) as (s2 & Hrun2 & He & Hw & Hoth2).
    + rewrite Hcn. cbn. rewrite <-HX. set_solver.
    + done.
    + apply (le_ctx_not_None (sysConn s)); [by apply quiet_le|done].
    + exists s2. split; [by etrans|]. split; [done|]. split; [by rewrite Hw, Hcn|].
      intros j Hj. rewrite Hoth2, Hoth by set_solver. done.
Qed.

(** ** Shutdown *)

Definition shut_finished (s : Sys) : Prop := syShutdown (sysConn s) = Finished.

(** Thread [i] returns from shutdown to [rest]. *)
Definition shut_ends (i : nat) (rest : list Frm) (s : Sys) : Prop :=
  ∃ s', rtc quiet_step s s' ∧ shut_finished s' ∧ sysThr s' i = rest ∧ stays [RRead] i s s'.

(** One step of the thread that runs shutdown. *)
Lemma shut_go s i c pc pc' rest cn :
  reachable conf s → sysThr s i = FShut pc :: rest → shutdown_step i c pc (sysConn s) = Some (cn, [FShut pc']) →
  (∀ s', reachable conf s' → sysThr s' i = FShut pc' :: rest → sysConn s' = cn → shut_ends i rest s') →
  shut_ends i rest s.
Proof.
  intros Hr Hthr Hf Hnext.
  assert (quiet_step s (after s i cn ([FShut pc'] ++ rest))) as Hstep by (by eapply frame_any_step).
  destruct (Hnext (after s i cn ([FShut pc'] ++ rest))) as (s' & Hrun & Hf' & Hthr' & Hst);
    [by eapply reachable_step|apply upd_same|done|].
  exists s'. split; [by eapply rtc_l|]. do 2 (split; [done|]). eapply stays_trans; [apply stays_after|done].
Qed.

Lemma shut_last s i rest : reachable conf s → sysThr s i = FShut ShTransport :: rest → shut_ends i rest s.
Proof.
  intros Hr Hthr. eexists. split; [eapply rtc_once, (frame_any_step _ _ (CCase 0)); [done|done|done|reflexivity]|].
  split; [done|]. split; [apply upd_same|apply stays_after].
Qed.

(** The remaining program counters, from the last to the first. *)
Lemma run_unlock s i rest : reachable conf s → sysThr s i = FShut ShUnlock :: rest → shut_ends i rest s.
Proof.
  intros Hr Hthr. eapply (shut_go s i (CCase 0)); [done|done|reflexivity|]. intros s1 Hr1 Ht1 _.
  eapply (shut_go s1 i (CCase 0)); [done|done|reflexivity|]. intros s2 Hr2 Ht2 _.
  by eapply shut_last.
Qed.

Lemma run_drain s i rest : reachable conf s → sysThr s i = FShut ShDrain :: rest → shut_ends i rest s.
Proof.
  intros Hr Hthr. remember (qHandler (sysConn s)) as q eqn:Hq. revert s Hr Hthr Hq.
  induction q as [|m q IH]; intros s Hr Hthr Hq; eapply (shut_go s i (CCase 0)); try done; cbn; try by rewrite <-Hq.
  - intros s1 Hr1 Ht1 _. by eapply run_unlock.
  - intros s1 Hr1 Ht1 Hcn. apply IH; [done..|]. by rewrite Hcn.
Qed.

Definition pending_count (cn : Connection) : nat := (length (qControl cn) + length (qOutbound cn) + req cn)%nat.

(** The result of a close request never blocks its sender. *)
Lemma close_result_free s r q : reachable conf s → qCloseRequest (sysConn s) = Some q → is_Some (send_close_result r (set_qCloseRequest None (sysConn s))).
Proof.
  intros Hr Hq. destruct (fa_close _ _ (flow_all_reach _ _ Hr)) as [Hw Hp _ _ Hres].
  unfold send_close_result, req in *. cbn. rewrite Hq in Hw. destruct (qCloseResult (sysConn s)); [|by eexists].
  specialize (Hres ltac:(done)). lia.
Qed.

Lemma complete_chans item r (cn cn' : Connection) :
  qChans cn' = qChans cn → is_Some (complete item r cn) → is_Some (complete item r cn').
Proof.
  unfold complete. cbn. intros ->. destruct (qmCompletion item) as [k|]; [|by eexists].
  destruct (qChans cn !! k) as [[o []]|]; cbn; intros []; by eexists.
Qed.

Lemma fail_turn s err :
  reachable conf s →
  ∃ c cn over, failPending_turn c err (sysConn s) = Some (cn, over) ∧
    if over : bool then True else (pending_count cn < pending_count (sysConn s))%nat.
Proof.
  intros Hr. unfold failPending_turn, pending_count, req.
  destruct (qControl (sysConn s)) as [|item q] eqn:Hc.
  - destruct (qOutbound (sysConn s)) as [|item q] eqn:Ho.
    + destruct (qCloseRequest (sysConn s)) as [q|] eqn:Hq; [|by exists (CCase 3), (sysConn s), true].
      destruct (close_result_free s (Some err) q Hr Hq) as [cn Hcn]. exists (CCase 2), cn, false.
      rewrite Hcn. split; [done|]. apply send_close_result_Some in Hcn as [_ ->]. cbn. rewrite Hc, Ho. cbn. lia.
    + destruct (complete_chans item (Some err) (sysConn s) (set_qOutbound q (sysConn s)) eq_refl) as [cn Hcn].
      { apply (pending_completes conf); [done|]. apply elem_of_app. left. rewrite Ho. by left. }
      exists (CCase 1), cn, false. rewrite Hcn. split; [done|]. apply complete_Some in Hcn as (? & -> & _). cbn.
      rewrite Hc. cbn. lia.
  - destruct (complete_chans item (Some err) (sysConn s) (set_qControl q (sysConn s)) eq_refl) as [cn Hcn].
    { apply (pending_completes conf); [done|]. apply elem_of_app. right. apply elem_of_app. left. rewrite Hc. by left. }
    exists (CCase 0), cn, false. rewrite Hcn. split; [done|]. apply complete_Some in Hcn as (? & -> & _). cbn. lia.
Qed.

Lemma run_fail s i rest err : reachable conf s → sysThr s i = FShut (ShFail err) :: rest → shut_ends i rest s.
Proof.
  intros Hr Hthr. remember (pending_count (sysConn s)) as n eqn:Hn. revert s Hr Hthr Hn.
  induction (lt_wf n) as [n _ IH]; intros s Hr Hthr Hn.
  destruct (fail_turn s err Hr) as (c & cn & over & Hturn & Hdec).
  destruct over; eapply (shut_go s i c); [done|done|cbn; by rewrite Hturn| |done|done|cbn; by rewrite Hturn|].
  - intros s1 Hr1 Ht1 _. by eapply run_drain.
  - intros s1 Hr1 Ht1 Hcn. eapply (IH (pending_count cn)); [lia|done|done|by rewrite Hcn].
Qed.

Lemma run_lock s i rest : reachable conf s → sysThr s i = FShut ShLock :: rest → shut_ends i rest s.
Proof.
  intros Hr Hthr. destruct (sys_inv_reach _ _ Hr) as [Hc Hst].
  pose proof (ci_frames _ _ _ Hc i) as Hf. pose proof (ci_own _ _ _ Hc i) as Ho. rewrite Hthr in Hf, Ho.
  apply Forall_cons in Hf as [[_ (_ & _ & Hctx)] _].
  assert (held RShut (sysConn s) i = true) as Hsh by (eapply core_owner; [done|rewrite Hthr; by left|done]).
  assert (i ∉ syReaders (sysConn s)) as Hni.
  { intros Hin. destruct (owner_top s i RRead) as (fr & rest' & Hthr' & Hfr); [done|auto|by apply bool_decide_eq_true_2|].
    rewrite Hthr in Hthr'. by injection Hthr' as <- <-. }
  assert (syWriter (sysConn s) = None) as Hw.
  { destruct (syWriter (sysConn s)) as [j|] eqn:Hj; [exfalso|done]. pose proof (writer_shuts _ _ Hr Hj) as Hshj.
    apply bool_decide_eq_true in Hsh. assert (i = j) as <- by congruence.
    destruct (owner_top s i RWrite) as (fr & rest' & Hthr' & Hfr); [done|auto|by apply bool_decide_eq_true_2|].
    rewrite Hthr in Hthr'. by injection Hthr' as <- <-. }
  destruct (readers_drain s Hr Hctx) as (s1 & Hrun & He & Hw1 & Hoth).
  assert (reachable conf s1) as Hr1 by (by eapply reachable_run).
  assert (shut_ends i rest s1) as (s2 & Hrun2 & Hfin & Hthr2 & Hst2).
  2: { exists s2. split; [by etrans|]. do 2 (split; [done|]). eapply stays_trans; [|done]. intros k _ _ Hk. apply Hoth.
       intros Hin. pose proof (ci_own _ _ _ Hc k RRead) as Hown. rewrite (Hk RRead (list_elem_of_here _ _)) in Hown.
       cbn in Hown. by rewrite bool_decide_eq_true_2 in Hown. }
  eapply (shut_go s1 i (CCase 0)); [done|by rewrite Hoth| |].
  - cbn. unfold enabled, canLock. rewrite bool_decide_eq_true_2; [reflexivity|]. by rewrite Hw1.
  - intros s3 Hr3 Ht3 _. eapply (shut_go s3 i (CCase 0)); [done|done|reflexivity|]. intros s4 Hr4 Ht4 _. by eapply run_fail.
Qed.

Lemma run_shutdown s i pc rest :
  reachable conf s → sysThr s i = FShut pc :: rest → owns RShut (FShut pc) = true → shut_ends i rest s.
Proof.
  intros Hr Hthr Ho.
  assert (∀ s, reachable conf s → sysThr s i = FShut ShClearPing :: rest → shut_ends i rest s) as H1.
  { intros s1 Hr1 Ht1. eapply (shut_go s1 i (CCase 0)); [done|done|reflexivity|]. intros s2 Hr2 Ht2 _. by eapply run_lock. }
  assert (∀ s e, reachable conf s → sysThr s i = FShut (ShCancel e) :: rest → shut_ends i rest s) as H2.
  { intros s1 e Hr1 Ht1. eapply (shut_go s1 i (CCase 0)); [done|done|reflexivity|]. intros s2 Hr2 Ht2 _. by apply H1. }
  destruct pc; try discriminate Ho.
  - eapply (shut_go s i (CCase 0)); [done|done|reflexivity|]. intros s2 Hr2 Ht2 _. by eapply H2.
  - by eapply H2.
  - by apply H1.
  - by eapply run_lock.
  - eapply (shut_go s i (CCase 0)); [done|done|reflexivity|]. intros s2 Hr2 Ht2 _. by eapply run_fail.
  - by eapply run_fail.
  - by eapply run_drain.
  - by eapply run_unlock.
  - eapply (shut_go s i (CCase 0)); [done|done|reflexivity|]. intros s2 Hr2 Ht2 _.
    by eapply shut_last.
  - by eapply shut_last.
Qed.

Lemma shutdown_can_finish s :
  reachable conf s → syShutdown (sysConn s) ≠ Fresh →
  ∃ s', rtc quiet_step s s' ∧ shut_finished s' ∧ keeps [RRead; RShut] s s'.
Proof.
  intros Hr Hn. destruct (syShutdown (sysConn s)) as [|i|] eqn:Hsh; [done| |exists s; by repeat split].
  destruct (owner_top s i RShut) as (fr & rest & Hthr & Ho); [by apply sys_inv_reach|auto|by apply bool_decide_eq_true_2|].
  destruct fr; try discriminate Ho. destruct (run_shutdown s i _ rest Hr Hthr Ho) as (s' & Hrun & Hf & _ & Hst).
  exists s'. do 2 (split; [done|]). eapply (stays_keeps _ _ RShut); [done|rewrite Hthr; cbn [cnt]; by rewrite Ho|set_solver|set_solver].
Qed.

(** ** The goroutines end *)

Definition weight (fr : Frm) : nat :=
  match fr with
  | FEnq pc => match pc with EqLock _ => 6 | EqCtx _ => 5 | EqClosing _ => 4 | EqSelect _ => 3 | EqUnlock _ => 2 end
  | FSendWait pc => match pc with SwMake _ _ _ => 12 | SwEnqueued _ _ => 4 | SwSelect _ _ => 2 end
  | FShut pc => match pc with ShRecord _ => 2 | _ => 1 end
  | FWrite pc =>
      match pc with
      | WlFail _ => 1 | WlFailStart => 2 | WlSelect => 3 | WlPoll => 4 | WlCheck _ => 5 | WlComplete _ _ => 6
      | WlWrite _ => 7 | WlCloseResult _ _ => 5 | WlCloseWrite _ => 6
      end
  | FRead pc =>
      match pc with
      | RdRead => 3 | RdPong => 4 | RdUnlock _ => 4 | RdSelect _ => 5 | RdCheck _ => 6 | RdLock _ => 7
      | RdSwitch _ => 11 | RdNote _ => 12
      end
  | FHandler pc => match pc with HdResult _ => 3 | HdCall | HdGrace => 4 | _ => 1 end
  | FMaint pc => match pc with MtSelect _ | MtBegin _ => 1 | MtPong _ | MtClear _ => 2 | MtSent _ | MtExpired _ => 3 end
  | FClose pc =>
      match pc with
      | ClEnd _ => 2 | ClUnlockReturn _ => 3 | ClShutdown _ _ => 5 | ClAwait _ => 6 | ClUnlock _ _ => 6 | ClSent _ => 7
      | ClSelect _ => 8 | ClCheck _ => 9 | ClLock _ => 10 | ClStarted _ => 11 | ClDone _ => 12 | ClStart _ => 15
      | ClClosing _ => 16 | ClRecord _ => 17 | ClOnce _ => 18
      end
  | FStart pc => match pc with StOnce _ => 6 | StCheck _ => 5 | _ => 1 end
  | FWatch pc => match pc with WaSelect _ => 1 | WaRecord _ => 19 end
  | FJoin pc => match pc with JnDone => 1 | JnShutdown => 4 | JnWait => 5 end
  | FRet _ => 1
  | FPanic => 0
  end.

Definition weights (st : list Frm) : nat := sum_list (weight <$> st).

(** The choice that leads to the end. *)
Definition towards_end (fr : Frm) : Choice :=
  match fr with
  | FEnq _ | FWatch _ | FClose (ClSelect _) => CCase 1
  | FSendWait _ | FClose (ClAwait _) => CCase 2
  | FWrite (WlWrite _ | WlCloseWrite _) => CErr (Some ErrTransportClosed)
  | FHandler (HdCall | HdGrace) => CErr None
  | FWrite (WlFail _) => CCase 3
  | FRead RdRead => CErr (Some EOF)
  | _ => CCase 0
  end.

(** Shutdown is finished on a started connection. *)
Definition over (cn : Connection) : Prop :=
  syShutdown cn = Finished ∧ syStart cn = Finished ∧ lfStarted cn = true ∧ lfCtx cn ≠ None ∧ lfClosing cn = true ∧
  queues_empty cn ∧ lfTransport cn = true ∧ syWriter cn = None.

Lemma frame_towards_end env i joined (cn : Connection) fr :
  over cn → plain fr = true → after_enq fr = false → owns RShut fr = false → owns RStart fr = false →
  (∀ q, fr = FClose (ClOnce q) → ∀ j, syClose cn ≠ Running j) → (fr = FJoin JnWait → joined = true) → fr ≠ FPanic →
  (∀ item r, fr = FWrite (WlComplete item r) → is_Some (complete item r cn)) →
  (∀ q r, fr = FWrite (WlCloseResult q r) → qCloseResult cn = None) →
  ∃ cn' frs, frame_step conf env i joined (towards_end fr) fr cn = Some (cn', frs) ∧ (weights frs < weight fr)%nat.
Proof.
  intros (Hsh & Hst & Hstd & Hctx & Hcl & (Hq1 & Hq2 & Hq3) & Htr & Hw) Hp Hae Hos Host Honce Hjoin Hpan Hcomp Hres.
  assert (is_done cn = true) as Hd by (by apply is_done_true).
  assert (canRLock cn = true) as Hrl by (by apply bool_decide_eq_true_2).
  destruct fr as [pc|pc|pc|pc|pc|pc|pc|pc|pc|pc|pc| |]; try done; destruct pc; try discriminate; cbn;
    unfold enabled, goto, failPending_turn, close_done, acknowledged, beginPing; rewrite ?Hd, ?Hrl, ?Hsh, ?Hst, ?Hstd, ?Hcl, ?Hq1, ?Hq2, ?Hq3; cbn.
  all: try (destruct (Hcomp _ _ eq_refl) as [cn' ->]; cbn).
  all: try (unfold send_close_result; rewrite (Hres _ _ eq_refl); cbn).
  all: try (rewrite (Hjoin eq_refl); cbn).
  all: try (pose proof (Honce _ eq_refl) as Hon; destruct (syClose cn) as [|j|]; [|by destruct (Hon j)|]).
  all: clear Hcomp Hres Hjoin Honce Hp Hae Hos Host Hpan.
  all: repeat match goal with |- context [match ?x with _ => _ end = Some _] => destruct x end.
  all: eexists _, _; split; [reflexivity|unfold weights; cbn; lia].
Qed.

Lemma silent_end (cn : Connection) fr : over cn → silent cn fr (towards_end fr) = true.
Proof. intros (_ & _ & _ & _ & _ & _ & Htr & _). by destruct fr as [[]| |[]|[]|[]|[]| |[]|[]| | | |]. Qed.

Lemma weights_app a b : weights (a ++ b) = (weights a + weights b)%nat.
Proof. unfold weights. by rewrite fmap_app, sum_list_with_app. Qed.

Lemma return_towards_end r caller :
  after_enq caller = true → ∃ frs, return_step r caller = Some frs ∧ (weights frs < 1 + weight caller)%nat.
Proof.
  intros Ha. destruct caller as [|[]| | |[]| |[]| | | | | |]; try discriminate Ha; destruct r;
    (eexists; split; [reflexivity|unfold weights; cbn; lia]).
Qed.

Lemma over_reach s :
  reachable conf s → shut_finished s → syStart (sysConn s) = Finished → lfStarted (sysConn s) = true → over (sysConn s).
Proof.
  intros Hr Hf Hs Hstd. pose proof (sys_inv_reach _ _ Hr) as Hi. pose proof Hi as [Hc _].
  destruct (go_finished _ (ci_glob _ _ _ Hc) Hf) as ([_ Hse] & Hq & _ & _ & Htr).
  destruct (go_sealed _ (ci_glob _ _ _ Hc) Hse) as [Hcl Hctx]. do 7 (split; [done|]).
  destruct (syWriter (sysConn s)) as [j|] eqn:Hj; [exfalso|done].
  pose proof (writer_shuts _ _ Hr Hj) as Hsh. unfold shut_finished in Hf. congruence.
Qed.

Definition fewer (k : nat) (s s' : Sys) : Prop :=
  (weights (sysThr s' k) < weights (sysThr s k))%nat ∧ ∀ j, j ≠ k → sysThr s' j = sysThr s j.

Lemma thread_towards_end s k fr rest :
  reachable conf s → over (sysConn s) → sysThr s k = fr :: rest →
  (∀ q, fr = FClose (ClOnce q) → ∀ j, syClose (sysConn s) ≠ Running j) →
  (fr = FJoin JnWait → loops_done (sysThr s) = true) →
  ∃ s', quiet_step s s' ∧ fewer k s s'.
Proof.
  intros Hr Hov Hthr Honce Hjoin. pose proof (sys_inv_reach _ _ Hr) as [Hc _].
  pose proof (ci_shape _ _ _ Hc k) as Hs. rewrite Hthr in Hs.
  assert (∀ cn st, (weights st < weights (fr :: rest))%nat → fewer k s (after s k cn st)) as Hfew.
  { intros cn st Hlt. split; cbn; [by rewrite upd_same, Hthr|]. intros j Hj. by apply upd_other. }
  destruct (plain fr) eqn:Hp.
  - assert (∀ R, owns R fr = true → held R (sysConn s) k = true) as Hown.
    { intros R Ho. eapply core_owner; [done|rewrite Hthr; by left|done]. }
    destruct (frame_towards_end (sysEnv s) k (loops_done (sysThr s)) (sysConn s) fr) as (cn & frs & Hf & Hlt); try done.
    + destruct rest as [|u [|]]; destruct fr as [|[]| | |[]| |[]| | | | | |]; done.
    + destruct (owns RShut fr) eqn:Ho; [|done]. apply Hown, bool_decide_eq_true in Ho. destruct Hov. congruence.
    + destruct (owns RStart fr) eqn:Ho; [|done]. apply Hown, bool_decide_eq_true in Ho. destruct Hov as (_ & ? & _). congruence.
    + intros ->. pose proof (ci_frames _ _ _ Hc k) as Hfr. rewrite Hthr in Hfr. by apply Forall_cons in Hfr as [[_ ?] _].
    + intros item r ->. assert (k = writer) as -> by (eapply core_role; [done|rewrite Hthr; by left|done]).
      apply (pending_completes conf); [done|]. rewrite Hthr. set_solver.
    + intros q r ->. assert (k = writer) as -> by (eapply core_role; [done|rewrite Hthr; by left|done]).
      destruct (fa_close _ _ (flow_all_reach _ _ Hr)) as [Hw Hpu _ _ Hres]. rewrite Hthr in Hw. unfold close_hands in Hw. cbn in Hw.
      destruct (qCloseResult (sysConn s)); [|done]. specialize (Hres ltac:(done)). lia.
    + exists (after s k cn (frs ++ rest)). split; [eapply frame_any_step; [done|done|by apply silent_end|done]|]. apply Hfew. rewrite weights_app.
      unfold weights in *. cbn. lia.
  - destruct fr as [| | | | | | | |[]| | |r|]; try discriminate Hp.
    + exfalso. assert (held RStart (sysConn s) k = true) as Hh by (eapply core_owner; [done|rewrite Hthr; by left|done]).
      apply bool_decide_eq_true in Hh. destruct Hov as (_ & ? & _). congruence.
    + destruct rest as [|caller [|]]; [| |done].
      * exists (after s k (sysConn s) []). split; [exists k, (CCase 0), (FRet r), []; do 2 (split; [done|]); cbn; unfold thread_step; by rewrite Hthr|].
        apply Hfew. unfold weights. cbn. lia.
      * destruct (return_towards_end r caller Hs) as (frs & Hret & Hlt). exists (after s k (sysConn s) (frs ++ [])).
        split; [exists k, (CCase 0), (FRet r), [caller]; do 2 (split; [done|]); cbn; unfold thread_step; rewrite Hthr; cbn; by rewrite Hret|].
        apply Hfew. rewrite app_nil_r. unfold weights in *. cbn. lia.
Qed.

(** Only thread [k] may be inside closeGracefully. *)
Definition close_only (k : nat) (s : Sys) : Prop := ∀ j, syClose (sysConn s) = Running j → j = k.

Lemma close_owner_cnt s j :
  reachable conf s → syClose (sysConn s) = Running j → cnt RClose (sysThr s j) = 1%nat.
Proof.
  intros Hr Hc. destruct (sys_inv_reach _ _ Hr) as [Hci _]. rewrite (ci_own _ _ _ Hci). cbn. by rewrite bool_decide_eq_true_2.
Qed.

Lemma close_only_step k s s' :
  reachable conf s → reachable conf s' → (∀ j, j ≠ k → sysThr s' j = sysThr s j) → close_only k s → close_only k s'.
Proof.
  intros Hr Hr' Hoth Ho j Hj. destruct (decide (j = k)) as [|Hne]; [done|]. apply Ho.
  pose proof (close_owner_cnt _ _ Hr' Hj) as Hcnt. rewrite Hoth in Hcnt by done.
  destruct (sys_inv_reach _ _ Hr) as [Hci _]. rewrite (ci_own _ _ _ Hci) in Hcnt. cbn in Hcnt.
  case_bool_decide; [done|]. done.
Qed.

Lemma over_step s s' : reachable conf s → quiet_step s s' → over (sysConn s) → over (sysConn s').
Proof.
  intros Hr Hs (Hsh & Hst & Hstd & _). assert (cn_le (sysConn s) (sysConn s')) as Hle.
  { apply quiet_le; [done|by apply rtc_once]. }
  apply over_reach; [by eapply reachable_step|by apply Hle..].
Qed.

Lemma loops_done_eq thr thr' : (∀ j, j ≠ joiner → thr' j = thr j) → loops_done thr' = loops_done thr.
Proof. intros H. unfold loops_done. by rewrite !H. Qed.

(** Thread [k] runs on until a condition holds that its empty stack implies. *)
Lemma run_thread (P : Sys → Prop) k s :
  (∀ s, P s ∨ ~ P s) →
  (∀ s1, reachable conf s1 → close_only k s1 → (∀ j, j ≠ k → sysThr s1 j = sysThr s j) → ~ P s1 →
     sysThr s1 k ≠ [] ∧ (sysThr s1 k = [FJoin JnWait] → loops_done (sysThr s1) = true)) →
  reachable conf s → over (sysConn s) → close_only k s →
  ∃ s', rtc quiet_step s s' ∧ P s' ∧ over (sysConn s') ∧ close_only k s' ∧ ∀ j, j ≠ k → sysThr s' j = sysThr s j.
Proof.
  intros Hdec. remember (weights (sysThr s k)) as n eqn:Hn. revert s Hn.
  induction (lt_wf n) as [n _ IH]; intros s Hn Hgo Hr Hov Ho.
  destruct (Hdec s) as [HP|HP]; [by exists s|]. destruct (Hgo s) as [Hne Hj]; try done.
  destruct (sysThr s k) as [|fr rest] eqn:Hthr; [done|].
  pose proof (sys_inv_reach _ _ Hr) as [Hci _]. pose proof (ci_shape _ _ _ Hci k) as Hs. rewrite Hthr in Hs.
  destruct (thread_towards_end s k fr rest) as (s1 & Hs1 & Hlt & Hoth); try done.
  - intros q -> j Hrun. pose proof (Ho _ Hrun) as ->. pose proof (close_owner_cnt _ _ Hr Hrun) as Hcnt.
    rewrite Hthr in Hcnt. by destruct rest as [|? [|]].
  - intros ->. apply Hj. by destruct rest as [|? [|]].
  - assert (reachable conf s1) as Hr1 by (by eapply reachable_step).
    destruct (IH (weights (sysThr s1 k))) with (s := s1) as (s2 & H2 & HP2 & Hov2 & Ho2 & Hoth2); try done.
    + rewrite Hn, <-Hthr. done.
    + intros s2 Hr2 Ho2 Hoth2. apply Hgo; [done|done|]. intros j Hjk. by rewrite Hoth2, Hoth.
    + apply (over_step s); done.
    + apply (close_only_step k s); done.
    + exists s2. split; [by eapply rtc_l|]. do 3 (split; [done|]). intros j Hjk. by rewrite Hoth2, Hoth.
Qed.

(** The call of closeGracefully in progress ends. *)
Lemma run_close s :
  reachable conf s → over (sysConn s) →
  can_reach (λ s', over (sysConn s') ∧ ∀ j, syClose (sysConn s') ≠ Running j) s.
Proof.
  intros Hr Hov.
  assert (∀ s, (∀ j, syClose (sysConn s) ≠ Running j) ∨ ∃ k, syClose (sysConn s) = Running k) as Hdec.
  { intros s1. destruct (syClose (sysConn s1)) as [|j|]; [by left|right; by exists j|by left]. }
  destruct (Hdec s) as [Hn|[k Hc]]; [by exists s|].
  destruct (run_thread (λ s, ∀ j, syClose (sysConn s) ≠ Running j) k s) as (s' & Hrun & HP & Hov' & _); try done.
  - intros s1. destruct (Hdec s1) as [?|[j Hj]]; [by left|right; intros Hn; by destruct (Hn j)].
  - intros s1 Hr1 Ho1 _ Hn. destruct (Hdec s1) as [?|[j Hj]]; [done|].
    pose proof (close_owner_cnt _ _ Hr1 Hj) as Hcnt. rewrite (Ho1 j Hj) in Hcnt.
    split; [intros Hnil; by rewrite Hnil in Hcnt|intros Hjn; by rewrite Hjn in Hcnt].
  - intros j Hj. congruence.
  - by exists s'.
Qed.

(** A goroutine ends. *)
Lemma run_loop k s :
  reachable conf s → over (sysConn s) → (∀ j, syClose (sysConn s) ≠ Running j) → (k ≤ joiner)%nat →
  (k = joiner → loops_done (sysThr s) = true) →
  ∃ s', rtc quiet_step s s' ∧ sysThr s' k = [] ∧ over (sysConn s') ∧ (∀ j, syClose (sysConn s') ≠ Running j) ∧
    ∀ j, j ≠ k → sysThr s' j = sysThr s j.
Proof.
  intros Hr Hov Hnc Hk Hj.
  destruct (run_thread (λ s, sysThr s k = []) k s) as (s' & Hrun & HP & Hov' & Ho' & Hoth); try done.
  - intros s1. destruct (sysThr s1 k); [by left|by right].
  - intros s1 Hr1 _ Hoth Hn. split; [done|]. intros Hthr. destruct (sys_inv_reach _ _ Hr1) as [Hci _].
    assert (k = joiner) as -> by (eapply core_role; [done|rewrite Hthr; by left|done]).
    rewrite (loops_done_eq (sysThr s)); auto.
  - intros j Hrun. by destruct (Hnc j).
  - exists s'. repeat (split; [done|]). split; [|done]. intros j Hjr.
    assert (reachable conf s') as Hr' by (by eapply reachable_run).
    pose proof (close_owner_cnt _ _ Hr' Hjr) as Hcnt. by rewrite (Ho' j Hjr), HP in Hcnt.
Qed.

Lemma shutdown_ends s :
  reachable conf s → syStart (sysConn s) = Finished → lfStarted (sysConn s) = true → syShutdown (sysConn s) ≠ Fresh →
  ∃ s', rtc quiet_step s s' ∧ syShutdown (sysConn s') = Finished ∧ lfDone (sysConn s') = true.
Proof.
  intros Hr Hst Hstd Hsh.
  enough (can_reach (λ s', over (sysConn s') ∧ sysThr s' joiner = []) s) as (s' & Hrun & Hov & Hnil).
  { assert (reachable conf s') as Hr' by (by eapply reachable_run).
    exists s'. destruct Hov as (Hf & Hs & Hd & _). do 2 (split; [done|]).
    destruct (sys_inv_reach _ _ Hr') as [_ Hsi]. pose proof (st_done _ _ Hsi Hs) as He. rewrite Hd, Hnil in He. cbn in He.
    destruct (lfDone (sysConn s')); cbn in He; [done|lia]. }
  eapply (can_reach_bind shut_finished); [done|destruct (shutdown_can_finish s Hr Hsh) as (s1 & ? & ? & _); by exists s1|].
  intros s1 Hr1 Hrun1 Hf1.
  pose proof (quiet_le _ _ Hr Hrun1) as Hle.
  assert (over (sysConn s1)) as Hov1 by (apply over_reach; [done|done|by apply Hle..]).
  eapply can_reach_bind; [done|by apply run_close|]. intros s2 Hr2 _ [Hov2 Hnc2].
  destruct (run_loop reader s2) as (s3 & R3 & E3 & Hov3 & Hnc3 & O3); try done; [unfold reader, joiner; lia|].
  assert (reachable conf s3) as Hr3 by (by eapply reachable_run).
  destruct (run_loop writer s3) as (s4 & R4 & E4 & Hov4 & Hnc4 & O4); try done; [unfold writer, joiner; lia|].
  assert (reachable conf s4) as Hr4 by (by eapply reachable_run).
  destruct (run_loop maintenance s4) as (s5 & R5 & E5 & Hov5 & Hnc5 & O5); try done; [unfold maintenance, joiner; lia|].
  assert (reachable conf s5) as Hr5 by (by eapply reachable_run).
  destruct (run_loop handler s5) as (s6 & R6 & E6 & Hov6 & Hnc6 & O6); try done; [unfold handler, joiner; lia|].
  assert (reachable conf s6) as Hr6 by (by eapply reachable_run).
  destruct (run_loop joiner s6) as (s7 & R7 & E7 & Hov7 & _ & _); try done.
  { intros _. unfold loops_done. rewrite E6, !O6, E5, !O5, E4, O4, E3 by done. done. }
  exists s7. split; [do 4 (etrans; [eassumption|]); done|done].
Qed.

(** C10: Once shutdown of a started connection has begun, no lock, sync.Once, full channel or
    other call can block it for good: from every reachable state there is a run of existing
    goroutines and calls, with a silent peer, to a state in which shutdown is finished and Done
    is closed. *)
Theorem shutdown_reaches_done s :
  reachable conf s → syStart (sysConn s) = Finished → lfStarted (sysConn s) = true → syShutdown (sysConn s) ≠ Fresh →
  ∃ s', rtc quiet_step s s' ∧ syShutdown (sysConn s') = Finished ∧ lfDone (sysConn s') = true.
Proof. apply shutdown_ends. Qed.
End live.

(** Close has reached the shutdown of the writer. *)
Lemma shutdown_reaches_done_witness :
  match sys_run ex_conf (ex_start ++ ex_send ++ ex_close) sys_init with
  | Some s => lfDone (sysConn s) = false ∧
              ∃ s', rtc (quiet_step ex_conf) s s' ∧ syShutdown (sysConn s') = Finished ∧ lfDone (sysConn s') = true
  | None => False
  end.
Proof.
  assert ((λ s, (syStart (sysConn s), lfStarted (sysConn s), syShutdown (sysConn s), lfDone (sysConn s))) <$>
    sys_run ex_conf (ex_start ++ ex_send ++ ex_close) sys_init = Some (Finished, true, Running writer, false)) as H by reflexivity.
  destruct (sys_run ex_conf (ex_start ++ ex_send ++ ex_close) sys_init) as [s|] eqn:Hrun; [|discriminate H].
  injection H as Hst Hstd Hsh Hd. split; [exact Hd|].
  apply (shutdown_reaches_done ex_conf s (run_reachable ex_conf _ _ Hrun) Hst Hstd). rewrite Hsh. discriminate.
Defined.
