(* ===== verification/ConnectionCalls.v ===== *)
(** * The calls Start, Close and abort return

    [shutdown_reaches_done] is about the goroutines of a connection; this file is
    about the calls its users make.  A call may wait for the owner of closeOnce, of
    startOnce, of shutdownOnce or of queueMu, and for the close request to be
    answered; each of them can always be brought to an end, one after the other, by
    steps of the goroutines and calls there are, with a silent peer.  So every call
    of Start, Close and abort can return, and a connection on which Close has
    returned can reach Done. *)

From stdpp Require Import gmap.
From S2P Require Import Prelude Wire Header Frame Tlv Utf8 Messages Replay Sha256 Crypto Rekey Session.
From S2P Require Import SessionSend SessionReceive SessionPair Transport ConnectionIO Handshake Config.
From S2P Require Import Connection ConnectionSteps ConnectionSafety ConnectionFlow ConnectionSpec ConnectionLive.

(** ** What the steps of a connection do to the calls *)

Definition is_start (fr : Frm) : bool := match fr with FStart _ => true | _ => false end.
Definition is_closing (fr : Frm) : bool := match fr with FClose _ => true | _ => false end.
(** closeGracefully after its startOnce. *)
Definition late_close (fr : Frm) : bool :=
  match fr with
  | FClose (ClStarted _ | ClLock _ | ClCheck _ | ClSelect _ | ClSent _ | ClAwait _ | ClUnlock _ _ | ClUnlockReturn _
           | ClShutdown _ _ | ClEnd _) => true
  | _ => false
  end.

Section frames.
Context (conf : ConnectionConfig) (env : nat → option error) (i : nat) (joined : bool) (c : Choice).

Lemma frame_step_starts fr cn cn' frs :
  frame_step conf env i joined c fr cn = Some (cn', frs) →
  (is_start fr = false → lfStarted cn' = lfStarted cn ∧ Forall (λ fr, is_start fr = false) frs).
Proof. intros H. step_cases H; intros Hs; try discriminate Hs; by repeat constructor. Qed.

Lemma frame_step_closes fr cn cn' frs :
  frame_step conf env i joined c fr cn = Some (cn', frs) → is_closing fr = true →
  Exists (λ fr, is_closing fr = true) frs ∨ syClose cn' = Finished ∨ FPanic ∈ frs.
Proof.
  intros H. destruct fr; try discriminate. step_cases H; intros _; try (by right; left); try (by right; right; left).
  all: left; first [by apply Exists_cons_hd|by apply Exists_cons_tl, Exists_cons_hd].
Qed.

Lemma frame_step_late fr cn cn' frs :
  frame_step conf env i joined c fr cn = Some (cn', frs) → (late_close fr = true → syStart cn = Finished) →
  (syClose cn = Finished → syStart cn = Finished) → cn_le cn cn' →
  (syClose cn' = Finished → syStart cn' = Finished) ∧ Forall (λ fr, late_close fr = true → syStart cn' = Finished) frs.
Proof.
  intros H. step_cases H; intros Hl Hc Hle; (split; [|repeat constructor]); cbn in *; try done; auto.
  all: try (intros; apply (le_start _ _ Hle); by auto).
  all: by intros ?%Hc.
Qed.
End frames.

Section calls.
Context (conf : ConnectionConfig).

(** Start is under way in thread [j]. *)
Definition starting (j : nat) (s : Sys) : Prop := Exists (λ fr, is_start fr = true) (sysThr s j).
(** Close was called in thread [j]: it is under way, or it has closed. *)
Definition closes (j : nat) (s : Sys) : Prop := Exists (λ fr, is_closing fr = true) (sysThr s j) ∨ syClose (sysConn s) = Finished.

Lemma not_starting st : ¬ Exists (λ fr, is_start fr = true) st ↔ Forall (λ fr, is_start fr = false) st.
Proof. rewrite <- Forall_Exists_neg. split; intros Hf; (eapply Forall_impl; [exact Hf|]); intros fr; cbn; by destruct (is_start fr). Qed.

Lemma starting_upd i st thr j :
  (Forall (λ fr, is_start fr = false) (thr i) → Forall (λ fr, is_start fr = false) st) →
  Exists (λ fr, is_start fr = true) (upd i st thr j) → Exists (λ fr, is_start fr = true) (thr j).
Proof.
  intros Hst He. destruct (decide (j = i)) as [->|]; [rewrite upd_same in He|by rewrite upd_other in He].
  destruct (decide (Exists (λ fr, is_start fr = true) (thr i))) as [|Hn]; [done|].
  apply not_starting in Hn. by apply Hst, not_starting in Hn.
Qed.

Lemma starting_step l s s' :
  sys_step conf l s = Some s' →
  (∀ j, starting j s' → starting j s ∨ ∃ x, l = LCall j (OpStart x)) ∧
  (lfStarted (sysConn s') = true → lfStarted (sysConn s) = true ∨ ∃ j, starting j s).
Proof.
  intros Hstep. unfold starting. destruct l as [i c|i op|x e]; cbn in Hstep.
  - apply thread_step_cases in Hstep as [r Hthr ->|r caller rest frs Hthr Hr ->|x rest Hthr ->|fr rest cn frs Hthr Hf ->]; cbn.
    + split; [|by left]. intros j Hj. left. eapply starting_upd; [|exact Hj]. constructor.
    + split; [|by left]. intros j Hj. left. eapply starting_upd; [|exact Hj]. rewrite Hthr. intros [_ [_ Hrest]%Forall_cons]%Forall_cons.
      apply Forall_app. split; [|done]. destruct caller as [|[]| | |[]| |[]| | | | | |], r; try discriminate Hr;
        injection Hr as <-; by apply Forall_singleton.
    + split; [|by left]. intros j He. left. destruct (decide (j = i)) as [->|Hne]; [rewrite Hthr; by apply Exists_cons_hd|].
      rewrite upd_other in He by done. unfold spawn in He.
      repeat (apply starting_upd in He; [|by repeat (constructor || case_match)]). done.
    + destruct (is_start fr) eqn:Hs.
      * split; [|right; exists i; rewrite Hthr; by apply Exists_cons_hd]. intros j Hj. left. eapply starting_upd; [|exact Hj].
        rewrite Hthr. intros [? _]%Forall_cons. congruence.
      * destruct (frame_step_starts _ _ _ _ _ _ _ _ _ Hf Hs) as [-> Hfrs]. split; [|by left]. intros j Hj. left.
        eapply starting_upd; [|exact Hj]. rewrite Hthr. intros [_ ?]%Forall_cons. by apply Forall_app.
  - repeat case_bool_decide; try discriminate. injection Hstep as <-. cbn. split; [|by left]. intros j Hj.
    destruct (decide (j = i)) as [->|Hne]; [|left; by rewrite upd_other in Hj]. rewrite upd_same in Hj.
    apply Exists_cons in Hj as [Hj|Hj%Exists_nil]; [|done]. right. destruct op; try discriminate Hj. by eexists.
  - destruct (sysEnv s x); [done|]. injection Hstep as <-. split; [by left|by left].
Qed.

Lemma closes_upd i st s (cn : Connection) j :
  (Exists (λ fr, is_closing fr = true) (sysThr s i) → Exists (λ fr, is_closing fr = true) st ∨ syClose cn = Finished) →
  cn_le (sysConn s) cn → closes j s → closes j (mkSys cn (sysEnv s) (upd i st (sysThr s))).
Proof.
  intros Hst Hle [He|Hc]; [|right; by apply (le_close _ _ Hle)]. unfold closes. cbn.
  destruct (decide (j = i)) as [->|]; [rewrite upd_same; by apply Hst|rewrite upd_other by done; by left].
Qed.

Lemma closes_step l s s' j : reachable conf s → sys_step conf l s = Some s' → closes j s → closes j s'.
Proof.
  intros Hr Hstep. pose proof (sys_inv_reach _ _ Hr) as Hinv. pose proof (sys_step_le _ _ _ _ Hinv Hstep) as Hle.
  pose proof (sys_inv_step _ _ _ _ Hinv Hstep) as [Hc' _].
  destruct l as [i c|i op|x e]; cbn in Hstep.
  - apply thread_step_cases in Hstep as [r Hthr ->|r caller rest frs Hthr Hret ->|x rest Hthr ->|fr rest cn frs Hthr Hf ->].
    + apply closes_upd; [|done]. rewrite Hthr. by intros [?|?%Exists_nil]%Exists_cons.
    + apply closes_upd; [|done]. rewrite Hthr. intros [?|[Hx|Hx]%Exists_cons]%Exists_cons; [done|..].
      * by destruct caller; try discriminate Hx.
      * left. apply Exists_app. by right.
    + intros [He|Hc]; [|by right]. left. cbn. destruct (decide (j = i)) as [->|Hne].
      { rewrite upd_same. rewrite Hthr in He. by apply Exists_cons in He as [?|?]. }
      rewrite upd_other by done. destruct (decide (j ≤ joiner)%nat) as [Hj|Hj]; [|by rewrite spawn_other by lia].
      destruct Hinv as [Hci Hst].
      assert (held RStart (sysConn s) i = true) as Hh by (eapply core_owner; [done|rewrite Hthr; by left|done]).
      apply bool_decide_eq_true in Hh. rewrite (st_loops _ _ Hst) in He; [by apply Exists_nil in He|left; congruence|done].
    + apply closes_upd; [|done]. rewrite Hthr. intros [Hx|Hx]%Exists_cons; [|left; apply Exists_app; by right].
      destruct (frame_step_closes _ _ _ _ _ _ _ _ _ Hf Hx) as [?|[?|Hp]]; [left; apply Exists_app; by left|by right|].
      pose proof (ci_frames _ _ _ Hc' i) as Hfr. cbn in Hfr. rewrite upd_same in Hfr. rewrite Forall_forall in Hfr.
      destruct (Hfr FPanic) as [_ []]. apply elem_of_app. by left.
  - repeat case_bool_decide; try discriminate. injection Hstep as <-. apply closes_upd; [|done].
    match goal with H : sysThr s i = [] |- _ => rewrite H end. by intros ?%Exists_nil.
  - destruct (sysEnv s x); [done|]. by injection Hstep as <-.
Qed.

Lemma closes_run s s' j : reachable conf s → rtc (sys_any_step conf) s s' → closes j s → closes j s'.
Proof.
  intros Hr Hrun. induction Hrun as [|s s1 s2 [l Hl] _ IH]; [done|]. intros Hc. apply IH; [|by eapply closes_step].
  by eapply rtc_r; [|exists l].
Qed.

(** Close goes through startOnce. *)
Definition close_start (s : Sys) : Prop :=
  (syClose (sysConn s) = Finished → syStart (sysConn s) = Finished) ∧
  ∀ j, Forall (λ fr, late_close fr = true → syStart (sysConn s) = Finished) (sysThr s j).

Lemma close_start_step l s s' : sys_inv conf s → sys_step conf l s = Some s' → close_start s → close_start s'.
Proof.
  intros Hinv Hstep [Hc Hf]. pose proof (sys_step_le _ _ _ _ Hinv Hstep) as Hle.
  destruct l as [i c|i op|x e]; cbn in Hstep.
  - pose proof (Hf i) as Hi.
    apply thread_step_cases in Hstep as [r Hthr ->|r caller rest frs Hthr Hret ->|x rest Hthr ->|fr rest cn frs Hthr Hs ->];
      rewrite Hthr in Hi.
    + split; [done|]. by apply frames_upd.
    + split; [done|]. apply frames_upd; [done|]. apply Forall_cons in Hi as [_ [_ Hi]%Forall_cons]. apply Forall_app. split; [|done].
      destruct caller as [|[]| | |[]| |[]| | | | | |], r; try discriminate Hret; injection Hret as <-; by apply Forall_singleton.
    + split; [done|]. intros j. apply Forall_forall. intros. done.
    + apply Forall_cons in Hi as [Hfr Hrest].
      destruct (frame_step_late _ _ _ _ _ _ _ _ _ Hs Hfr Hc Hle) as [Hc' Hfrs]. split; [done|]. cbn [sysConn sysThr].
      assert (∀ st, Forall (λ fr, late_close fr = true → syStart (sysConn s) = Finished) st →
        Forall (λ fr, late_close fr = true → syStart cn = Finished) st) as Hmono.
      { intros st Hst. eapply Forall_impl; [exact Hst|]. intros fr' H' Hl. by apply (le_start _ _ Hle), H'. }
      apply frames_upd; [by intros j; apply Hmono|]. apply Forall_app. split; [done|by apply Hmono].
  - repeat case_bool_decide; try discriminate. injection Hstep as <-. split; [done|]. apply frames_upd; [done|].
    apply Forall_singleton. by destruct op.
  - destruct (sysEnv s x); [done|]. by injection Hstep as <-.
Qed.

Lemma close_start_reach s : reachable conf s → close_start s.
Proof.
  apply (rtc_ind_r close_start); [split; [done|]; intros j; constructor|].
  intros s1 s2 Hr [l Hl] Hcs. eapply close_start_step; [by apply sys_inv_reach|done|done].
Qed.

Lemma closed_started s : reachable conf s → syClose (sysConn s) = Finished → syStart (sysConn s) = Finished.
Proof. intros Hr. apply (close_start_reach _ Hr). Qed.

(** A connection that was closed and never started is done. *)
Lemma closed_unstarted_done s :
  reachable conf s → syClose (sysConn s) = Finished → lfStarted (sysConn s) = false → lfDone (sysConn s) = true.
Proof.
  intros Hr Hc Hs. destruct (sys_inv_reach _ _ Hr) as [_ Hst].
  pose proof (st_done _ _ Hst (closed_started _ Hr Hc)) as Hd. rewrite Hs in Hd. by destruct (lfDone (sysConn s)).
Qed.
End calls.

(** ** Onces *)

(** A once goes from fresh to running to finished. *)
Definition once_next (a b : Once) : Prop := a = b ∨ a = Fresh ∨ b = Finished.

#[global] Instance once_next_preorder : PreOrder once_next.
Proof. split; [by left|]. unfold once_next. intros a b c. intuition congruence. Qed.

Section onces.
Context (conf : ConnectionConfig).

Lemma frame_step_onces env i joined c fr cn cn' frs :
  frame_step conf env i joined c fr cn = Some (cn', frs) →
  once_next (syStart cn) (syStart cn') ∧ once_next (syShutdown cn) (syShutdown cn') ∧ once_next (syClose cn) (syClose cn').
Proof. intros H. unfold once_next. step_cases H; cbn in *; auto. Qed.

Lemma sys_step_onces l s s' :
  sys_step conf l s = Some s' →
  once_next (syStart (sysConn s)) (syStart (sysConn s')) ∧ once_next (syShutdown (sysConn s)) (syShutdown (sysConn s')) ∧
  once_next (syClose (sysConn s)) (syClose (sysConn s')).
Proof.
  intros Hs. destruct l as [i c|i op|x e]; cbn in Hs.
  - apply thread_step_cases in Hs as [r _ ->|r caller rest frs _ _ ->|x rest _ ->|fr rest cn frs _ Hf ->]; cbn;
      [unfold once_next; auto..|]. by eapply frame_step_onces.
  - repeat case_bool_decide; try discriminate. injection Hs as <-. unfold once_next. cbn. auto.
  - destruct (sysEnv s x); [done|]. injection Hs as <-. unfold once_next. cbn. auto.
Qed.

Lemma quiet_onces s s' :
  rtc (quiet_step conf) s s' →
  once_next (syStart (sysConn s)) (syStart (sysConn s')) ∧ once_next (syShutdown (sysConn s)) (syShutdown (sysConn s')) ∧
  once_next (syClose (sysConn s)) (syClose (sysConn s')).
Proof.
  induction 1 as [s|s s1 s2 [l Hl]%quiet_any _ (IH1 & IH2 & IH3)]; [done|].
  apply sys_step_onces in Hl as (? & ? & ?). by split_and!; etrans.
Qed.

(** ** Shutdown as a call *)

(** Thread [i] can be brought to a state with [Q] by its own steps and those of the
    owners of [Rs]. *)
Definition moves (Rs : list Res) (i : nat) (Q : Sys → Prop) (s : Sys) : Prop :=
  ∃ s', rtc (quiet_step conf) s s' ∧ stays Rs i s s' ∧ Q s'.

Lemma moves_now Rs i (Q : Sys → Prop) s : Q s → moves Rs i Q s.
Proof. intros HQ. exists s. by repeat split. Qed.

Lemma moves_run Rs i (Q : Sys → Prop) s s1 :
  reachable conf s → rtc (quiet_step conf) s s1 → stays Rs i s s1 → (reachable conf s1 → moves Rs i Q s1) → moves Rs i Q s.
Proof.
  intros Hr H1 Hst1 (s2 & H2 & Hst2 & HQ); [by eapply reachable_run|]. exists s2. split; [by etrans|]. split; [|done].
  by eapply stays_trans.
Qed.

Lemma moves_frame Rs i Q s c fr rest cn frs :
  reachable conf s → sysThr s i = fr :: rest → plain fr = true → silent (sysConn s) fr c = true →
  frame_step conf (sysEnv s) i (loops_done (sysThr s)) c fr (sysConn s) = Some (cn, frs) →
  (reachable conf (after s i cn (frs ++ rest)) → moves Rs i Q (after s i cn (frs ++ rest))) → moves Rs i Q s.
Proof.
  intros Hr Hthr Hp Hq Hf. apply moves_run; [done|by eapply rtc_once, frame_any_step|apply stays_after].
Qed.

Lemma moves_mono Rs Rs' i (Q Q' : Sys → Prop) s : moves Rs i Q s → Rs ⊆ Rs' → (∀ s', Q s' → Q' s') → moves Rs' i Q' s.
Proof.
  intros (s' & Hrun & Hst & HQ) Hsub Himp. exists s'. split; [done|]. split; [|by apply Himp].
  intros k Hk Hne Hf. apply Hst; [done..|]. intros R HR. by apply Hf, Hsub.
Qed.

(** A thread that owns nothing of [Rs] stays where it is while their owners go on. *)
Lemma keeps_thread Rs s s' i fr rest :
  keeps Rs s s' → sysThr s i = fr :: rest → (∀ R, R ∈ Rs → cnt R (fr :: rest) = 0%nat) → sysThr s' i = fr :: rest.
Proof. intros Hk Hthr Hf. rewrite <- Hthr. apply Hk; rewrite Hthr; [done|exact Hf]. Qed.

Lemma shut_rest s i pc rest R :
  reachable conf s → sysThr s i = FShut pc :: rest → R ∈ [RRead; RShut] → cnt R rest = 0%nat.
Proof.
  intros Hr Hthr HR. destruct (sys_inv_reach _ _ Hr) as [Hc _]. pose proof (ci_shape _ _ _ Hc i) as Hs. rewrite Hthr in Hs.
  destruct rest as [|u [|]]; [done| |done]. destruct (below_owns u) as (H1 & _ & H3); [cbn in Hs; by rewrite Hs|].
  cbn [cnt]. apply elem_of_cons in HR as [->|HR]; [by rewrite H1|]. apply list_elem_of_singleton in HR as ->. by rewrite H3.
Qed.

Definition returned (i : nat) (rest : list Frm) (s : Sys) : Prop := sysThr s i = rest ∧ shut_finished s.

Lemma shut_pop s i cause rest :
  reachable conf s → sysThr s i = FShut (ShOnce cause) :: rest → shut_finished s → moves [RRead; RShut] i (returned i rest) s.
Proof.
  intros Hr Hthr Hf. eapply (moves_frame _ _ _ _ (CCase 0)); [done|done|done|done|cbn; by rewrite Hf|].
  intros _. apply moves_now. split; [apply upd_same|done].
Qed.

Lemma shut_call s i pc rest :
  reachable conf s → sysThr s i = FShut pc :: rest → moves [RRead; RShut] i (returned i rest) s.
Proof.
  assert (∀ s pc, reachable conf s → sysThr s i = FShut pc :: rest → owns RShut (FShut pc) = true →
    moves [RRead; RShut] i (returned i rest) s) as Hown.
  { intros s0 pc0 Hr Hthr Ho. destruct (run_shutdown conf s0 i pc0 rest Hr Hthr Ho) as (s' & Hrun & Hf & Hthr' & Hst).
    eapply (moves_mono [RRead] _ i (returned i rest)); [exists s'; split; [done|]; split; [done|by split]|set_solver|done]. }
  assert (∀ s cause, reachable conf s → sysThr s i = FShut (ShOnce cause) :: rest →
    moves [RRead; RShut] i (returned i rest) s) as Honce.
  { intros s0 cause Hr Hthr. destruct (syShutdown (sysConn s0)) as [|j|] eqn:Hsh; [| |by eapply shut_pop].
    - eapply (moves_frame _ _ _ _ (CCase 0)); [done|done|done|done|cbn; by rewrite Hsh|].
      intros Hr'. eapply Hown; [done|apply upd_same|done].
    - destruct (shutdown_can_finish conf s0 Hr) as (s1 & Hrun & Hf & Hk); [congruence|].
      eapply moves_run; [done|done|by eapply keeps_stays|]. intros Hr1. eapply shut_pop; [done| |done].
      eapply keeps_thread; [done|done|]. intros R HR. cbn [cnt]. rewrite (shut_rest _ _ _ _ _ Hr Hthr HR). by destruct R. }
  intros Hr Hthr. destruct (owns RShut (FShut pc)) eqn:Ho; [by eapply Hown|]. destruct pc; try discriminate Ho; [|by eapply Honce].
  eapply (moves_frame _ _ _ _ (CCase 0)); [done|done|done|done|reflexivity|].
  intros Hr'. eapply Honce; [done|apply upd_same].
Qed.

(** ** Start *)

(** The frames of a call of Start, Close or abort. *)
Definition scall (fr : Frm) : bool :=
  match fr with FShut _ | FClose _ | FStart _ | FRet _ => true | _ => false end.

Definition goes_on (i : nat) (s s' : Sys) : Prop :=
  (weights (sysThr s' i) < weights (sysThr s i))%nat ∧
  (Forall (λ fr, scall fr = true) (sysThr s i) → Forall (λ fr, scall fr = true) (sysThr s' i)).

Lemma step_goes_on Rs s i c fr rest cn frs :
  reachable conf s → sysThr s i = fr :: rest → plain fr = true → silent (sysConn s) fr c = true →
  frame_step conf (sysEnv s) i (loops_done (sysThr s)) c fr (sysConn s) = Some (cn, frs) →
  (weights frs < weight fr)%nat → Forall (λ fr, scall fr = true) frs → moves Rs i (goes_on i s) s.
Proof.
  intros Hr Hthr Hp Hq Hf Hw Hs. eapply moves_frame; [done..|]. intros _. apply moves_now. unfold goes_on, after. cbn [sysThr].
  rewrite upd_same, Hthr, weights_app. split; [unfold weights in *; cbn; lia|]. intros [_ ?]%Forall_cons. by apply Forall_app.
Qed.

(** The thread takes one step, which [tac] shows to be enabled. *)
Ltac one_step tac :=
  eapply (step_goes_on _ _ _ (CCase 0));
    [done|done|done|done|cbn; unfold enabled, close_done; cbn; tac|unfold weights; cbn; lia|by repeat constructor].

Lemma shut_goes_on s i pc rest :
  reachable conf s → sysThr s i = FShut pc :: rest → moves [RRead; RShut] i (goes_on i s) s.
Proof.
  intros Hr Hthr. eapply moves_mono; [by eapply shut_call|done|]. intros s' [Hthr' _]. unfold goes_on. rewrite Hthr, Hthr'.
  split; [unfold weights; cbn; destruct pc; lia|]. by intros [_ ?]%Forall_cons.
Qed.

(** The owner of startOnce goes on. *)
Lemma start_goes_on s i pc rest :
  reachable conf s → sysThr s i = FStart pc :: rest → owns RStart (FStart pc) = true → moves [RRead; RShut] i (goes_on i s) s.
Proof.
  intros Hr Hthr Ho. pose proof (sys_inv_reach _ _ Hr) as [Hc Hst].
  assert (syStart (sysConn s) = Running i) as Hrun.
  { apply (bool_decide_eq_true (syStart (sysConn s) = Running i)). change (held RStart (sysConn s) i = true).
    eapply core_owner; [done|rewrite Hthr; by left|done]. }
  destruct pc as [x|x| |x]; [done|..].
  - destruct (sysEnv s x) as [e|] eqn:He; one_step ltac:(by rewrite He).
  - one_step ltac:(by rewrite (st_before _ _ Hst) by congruence).
  - eapply moves_run; [done|apply rtc_once; exists i, (CCase 0), (FStart (StSpawn x)), rest; do 2 (split; [done|]); cbn;
      unfold thread_step; by rewrite Hthr|..].
    + intros k Hk Hne _. cbn. rewrite upd_other by done. apply spawn_other.
      destruct (decide (joiner < k)%nat) as [|Hj]; [done|]. exfalso. apply Hne, (st_loops _ _ Hst); [left; congruence|lia].
    + intros _. apply moves_now. unfold goes_on. cbn [sysThr]. rewrite upd_same, Hthr.
      split; [unfold weights; cbn; lia|]. by intros [_ ?]%Forall_cons.
Qed.

(** Only shutdown runs above a frame that is inside a once. *)
Lemma owner_below R fr u :
  shape [fr; u] = true → owns R u = true → R = RStart ∨ R = RClose → ∃ pc, fr = FShut pc.
Proof.
  intros Hs Ho HR. destruct fr; try discriminate Hs; [|by eexists|];
    destruct u as [|[]| | |[]| |[]| | | | | |]; try discriminate Hs; by destruct HR as [->| ->].
Qed.

Lemma start_can_finish s j :
  reachable conf s → syStart (sysConn s) = Running j → moves [RRead; RShut] j (λ s', syStart (sysConn s') = Finished) s.
Proof.
  remember (weights (sysThr s j)) as n eqn:Hn. revert s Hn. induction (lt_wf n) as [n _ IH]; intros s Hn Hr Hrun.
  pose proof (sys_inv_reach _ _ Hr) as [Hc Hst]. pose proof (ci_shape _ _ _ Hc j) as Hs. pose proof (ci_own _ _ _ Hc j RStart) as Ho.
  cbn in Ho. rewrite bool_decide_eq_true_2 in Ho by done.
  assert (moves [RRead; RShut] j (goes_on j s) s) as (s1 & Hrun1 & Hst1 & Hlt & _).
  { destruct (sysThr s j) as [|fr rest] eqn:Hthr; [done|]. destruct (owns RStart fr) eqn:Hfr.
    - destruct fr as [| | | | | | |[]| | | | |]; try discriminate Hfr; [|by eapply start_goes_on].
      one_step ltac:(by rewrite (st_before _ _ Hst) by congruence).
    - destruct rest as [|u [|]]; cbn [cnt] in Ho; rewrite Hfr in Ho; [done| |by destruct fr].
      destruct (owner_below RStart fr u Hs) as [pc ->]; [by destruct (owns RStart u)|by left|]. by eapply shut_goes_on. }
  eapply moves_run; [done|done|done|]. intros Hr1. destruct (quiet_onces _ _ Hrun1) as ([He|[?|Hf]] & _); [|congruence|by apply moves_now].
  eapply (IH (weights (sysThr s1 j))); [lia|done|done|congruence].
Qed.

(** ** Close *)

(** The exclusive lock is free once shutdown is finished. *)
Lemma finished_unlocked s : reachable conf s → shut_finished s → canRLock (sysConn s) = true.
Proof.
  intros Hr Hf. apply bool_decide_eq_true_2. destruct (syWriter (sysConn s)) as [j|] eqn:Hj; [exfalso|done].
  pose proof (writer_shuts conf s j Hr Hj) as Hsh. unfold shut_finished in Hf. congruence.
Qed.

(** A thread waits for the owners of [Rs] and then goes on. *)
Lemma wait_goes_on Rs Rs' s s1 i c fr cn frs :
  reachable conf s → rtc (quiet_step conf) s s1 → keeps Rs s s1 → Rs ⊆ Rs' → sysThr s i = [fr] →
  (∀ R, R ∈ Rs → owns R fr = false) → plain fr = true → silent (sysConn s1) fr c = true →
  frame_step conf (sysEnv s1) i (loops_done (sysThr s1)) c fr (sysConn s1) = Some (cn, frs) →
  (weights frs < weight fr)%nat → Forall (λ fr, scall fr = true) frs → moves Rs' i (goes_on i s) s.
Proof.
  intros Hr Hrun Hk Hsub Hthr Ho Hp Hq Hf Hlt Hsc.
  assert (sysThr s1 i = [fr]) as Hthr1 by (eapply keeps_thread; [done|done|intros R HR; cbn [cnt]; by rewrite Ho]).
  eapply moves_run; [done|done|by eapply keeps_stays|]. intros Hr1.
  eapply moves_mono; [by eapply (step_goes_on Rs')|done|]. unfold goes_on. by rewrite Hthr, Hthr1.
Qed.

Lemma start_keeps s j :
  reachable conf s → syStart (sysConn s) = Running j →
  ∃ s', rtc (quiet_step conf) s s' ∧ keeps [RRead; RShut; RStart] s s' ∧ syStart (sysConn s') = Finished.
Proof.
  intros Hr Hst. destruct (start_can_finish s j Hr Hst) as (s1 & Hrun & Hst1 & Hf). exists s1. split; [done|]. split; [|done].
  eapply (stays_keeps _ _ RStart); [done| |set_solver|set_solver]. destruct (sys_inv_reach _ _ Hr) as [Hc _].
  rewrite (ci_own _ _ _ Hc). cbn. by rewrite bool_decide_eq_true_2.
Qed.

Lemma close_waits_start s i q :
  reachable conf s → sysThr s i = [FClose (ClStart q)] → moves [RRead; RShut; RStart] i (goes_on i s) s.
Proof.
  intros Hr Hthr. destruct (syStart (sysConn s)) as [|j|] eqn:Hst.
  - one_step ltac:(by rewrite Hst).
  - destruct (start_keeps s j Hr Hst) as (s1 & Hrun & Hk & Hf).
    eapply (wait_goes_on _ _ s s1 i (CCase 0)); [done|done|done|done|done|intros [] ?; try done; set_solver|done|done
      |cbn; by rewrite Hf|unfold weights; cbn; lia|by repeat constructor].
  - one_step ltac:(by rewrite Hst).
Qed.

(** And for the exclusive lock. *)
Lemma close_waits_lock s i q :
  reachable conf s → sysThr s i = [FClose (ClLock q)] → moves [RRead; RShut; RStart] i (goes_on i s) s.
Proof.
  intros Hr Hthr. destruct (canRLock (sysConn s)) eqn:Hl.
  - one_step ltac:(by rewrite Hl).
  - apply bool_decide_eq_false in Hl. destruct (syWriter (sysConn s)) as [j|] eqn:Hj; [|done].
    destruct (shutdown_can_finish conf s Hr) as (s1 & Hrun & Hf & Hk); [rewrite (writer_shuts conf s j Hr Hj); done|].
    assert (canRLock (sysConn s1) = true) as Hl1 by (apply finished_unlocked; [by eapply reachable_run|done]).
    eapply (wait_goes_on _ _ s s1 i (CCase 0)); [done|done|done|set_solver|done|intros [] ?; try done; set_solver|done|done
      |cbn; unfold enabled; by rewrite Hl1|unfold weights; cbn; lia|by repeat constructor].
Qed.

(** The steps of Close that wait for nothing. *)
Definition close_choice (pc : ClosePc) : Choice := match pc with ClSelect _ | ClAwait _ => CCase 2 | _ => CCase 0 end.

Definition waitless (pc : ClosePc) : bool :=
  match pc with ClOnce _ | ClStart _ | ClDone _ | ClLock _ => false | _ => true end.

Lemma close_steps i pc (cn : Connection) :
  waitless pc = true →
  ∃ cn' frs, closeGracefully_step i (close_choice pc) pc cn = Some (cn', frs) ∧ (weights frs < weight (FClose pc))%nat ∧
    Forall (λ fr, scall fr = true) frs.
Proof.
  intros Hw. destruct pc; try discriminate Hw; cbn; unfold goto.
  all: repeat match goal with |- context [match ?x with _ => _ end = Some _] => destruct x end.
  all: eexists _, _; split; [reflexivity|]; split; [unfold weights; cbn; lia|by repeat constructor].
Qed.

Lemma close_goes_on s i pc rest :
  reachable conf s → sysThr s i = FClose pc :: rest → owns RClose (FClose pc) = true →
  moves [RRead; RShut; RStart] i (goes_on i s) s.
Proof.
  intros Hr Hthr Ho. pose proof (sys_inv_reach _ _ Hr) as [Hc Hst]. pose proof (ci_shape _ _ _ Hc i) as Hs. rewrite Hthr in Hs.
  assert (rest = []) as -> by (destruct rest as [|? [|]]; done).
  destruct (waitless pc) eqn:Hw.
  { destruct (close_steps i pc (sysConn s) Hw) as (cn & frs & Hf & Hlt & Hsc).
    eapply (step_goes_on _ _ _ (close_choice pc)); [done|done|done|by destruct pc|exact Hf|done|done]. }
  destruct pc; try discriminate Ho; try discriminate Hw; [by eapply close_waits_start| |by eapply close_waits_lock].
  assert (syStart (sysConn s) = Running i) as Hrun.
  { apply (bool_decide_eq_true (syStart (sysConn s) = Running i)). change (held RStart (sysConn s) i = true).
    eapply core_owner; [done|rewrite Hthr; by left|done]. }
  one_step ltac:(by rewrite (st_before _ _ Hst) by congruence).
Qed.

Lemma close_can_finish s j :
  reachable conf s → syClose (sysConn s) = Running j →
  moves [RRead; RShut; RStart] j (λ s', syClose (sysConn s') = Finished) s.
Proof.
  remember (weights (sysThr s j)) as n eqn:Hn. revert s Hn. induction (lt_wf n) as [n _ IH]; intros s Hn Hr Hrun.
  pose proof (sys_inv_reach _ _ Hr) as [Hc Hst]. pose proof (ci_shape _ _ _ Hc j) as Hs.
  pose proof (close_owner_cnt _ _ _ Hr Hrun) as Ho.
  assert (moves [RRead; RShut; RStart] j (goes_on j s) s) as (s1 & Hrun1 & Hst1 & Hlt & _).
  { destruct (sysThr s j) as [|fr rest] eqn:Hthr; [done|]. destruct (owns RClose fr) eqn:Hfr.
    - destruct fr; try discriminate Hfr. by eapply close_goes_on.
    - destruct rest as [|u [|]]; cbn [cnt] in Ho; rewrite Hfr in Ho; [done| |by destruct fr].
      destruct (owner_below RClose fr u Hs) as [pc ->]; [by destruct (owns RClose u)|by right|].
      eapply moves_mono; [by eapply shut_goes_on|set_solver|done]. }
  eapply moves_run; [done|done|done|]. intros Hr1. destruct (quiet_onces _ _ Hrun1) as (_ & _ & [He|[?|Hf]]);
    [|congruence|by apply moves_now].
  eapply (IH (weights (sysThr s1 j))); [lia|done|done|congruence].
Qed.

(** ** All calls *)

Lemma close_waits_close s i q :
  reachable conf s → sysThr s i = [FClose (ClOnce q)] → moves [RRead; RShut; RStart; RClose] i (goes_on i s) s.
Proof.
  intros Hr Hthr. destruct (syClose (sysConn s)) as [|j|] eqn:Hcl.
  - one_step ltac:(by rewrite Hcl).
  - destruct (close_can_finish s j Hr Hcl) as (s1 & Hrun & Hst1 & Hf).
    eapply (wait_goes_on [RRead; RShut; RStart; RClose] _ s s1 i (CCase 0)); [done|done| |done|done|by intros []|done|done
      |cbn; by rewrite Hf|unfold weights; cbn; lia|by repeat constructor].
    eapply (stays_keeps _ _ RClose); [done|by rewrite (close_owner_cnt _ _ _ Hr Hcl)|set_solver|set_solver].
  - one_step ltac:(by rewrite Hcl).
Qed.

Lemma start_waits_start s i x :
  reachable conf s → sysThr s i = [FStart (StOnce x)] → moves [RRead; RShut; RStart; RClose] i (goes_on i s) s.
Proof.
  intros Hr Hthr. destruct (syStart (sysConn s)) as [|j|] eqn:Hst.
  - one_step ltac:(by rewrite Hst).
  - destruct (start_keeps s j Hr Hst) as (s1 & Hrun & Hk & Hf).
    eapply (wait_goes_on _ _ s s1 i (CCase 0)); [done|done|done|set_solver|done|by intros []|done|done
      |cbn; by rewrite Hf|unfold weights; cbn; lia|by repeat constructor].
  - one_step ltac:(by rewrite Hst).
Qed.

Lemma call_goes_on s i fr rest :
  reachable conf s → sysThr s i = fr :: rest → Forall (λ fr, scall fr = true) (fr :: rest) →
  moves [RRead; RShut; RStart; RClose] i (goes_on i s) s.
Proof.
  intros Hr Hthr [Hsc Hrest]%Forall_cons. pose proof (sys_inv_reach _ _ Hr) as [Hc Hst].
  pose proof (ci_shape _ _ _ Hc i) as Hs. rewrite Hthr in Hs.
  destruct fr as [| |pc| | | | |pc|pc| | |r|]; try discriminate Hsc.
  - eapply moves_mono; [by eapply shut_goes_on|set_solver|done].
  - destruct (owns RClose (FClose pc)) eqn:Ho; [eapply moves_mono; [by eapply close_goes_on|set_solver|done]|].
    destruct pc; try discriminate Ho. assert (rest = []) as -> by (destruct rest as [|? [|]]; done).
    by apply close_waits_close with q.
  - destruct (owns RStart (FStart pc)) eqn:Ho; [eapply moves_mono; [by eapply start_goes_on|set_solver|done]|].
    destruct pc; try discriminate Ho. assert (rest = []) as -> by (destruct rest as [|? [|]]; done).
    by apply start_waits_start with x.
  - assert (rest = []) as ->.
    { destruct rest as [|u [|]]; [done| |done]. apply Forall_cons in Hrest as [Hu _]. by destruct u. }
    eapply moves_run; [done|apply rtc_once; exists i, (CCase 0), (FRet r), []|..].
    + do 2 (split; [done|]). cbn. unfold thread_step. by rewrite Hthr.
    + apply stays_after.
    + intros _. apply moves_now. unfold goes_on. cbn [sysThr]. rewrite upd_same, Hthr. split; [unfold weights; cbn; lia|done].
Qed.

Lemma call_can_return s i :
  reachable conf s → Forall (λ fr, scall fr = true) (sysThr s i) →
  moves [RRead; RShut; RStart; RClose] i (λ s', sysThr s' i = []) s.
Proof.
  remember (weights (sysThr s i)) as n eqn:Hn. revert s Hn. induction (lt_wf n) as [n _ IH]; intros s Hn Hr Hsc.
  destruct (sysThr s i) as [|fr rest] eqn:Hthr; [by apply moves_now|].
  destruct (call_goes_on s i fr rest Hr Hthr Hsc) as (s1 & Hrun & Hst & Hlt & Hsc1). rewrite Hthr in Hlt, Hsc1.
  eapply moves_run; [done|done|done|]. intros Hr1. eapply (IH (weights (sysThr s1 i))); [lia|done|done|by apply Hsc1].
Qed.

Lemma frame_step_scall env i joined c fr (cn cn' : Connection) frs :
  frame_step conf env i joined c fr cn = Some (cn', frs) → scall fr = true → Forall (λ fr, scall fr = true) frs ∨ FPanic ∈ frs.
Proof.
  intros H. step_cases H; intros Hs; try discriminate Hs; first [by left; repeat constructor|by right; left].
Qed.

(** A thread above the goroutines only gets frames by a call of its own, and its calls stay the calls they are. *)
Lemma thread_own_step l s s' j :
  reachable conf s → (joiner < j)%nat → sys_step conf l s = Some s' → (∀ op, l ≠ LCall j op) →
  (sysThr s' j ≠ [] → sysThr s j ≠ []) ∧
  (Forall (λ fr, scall fr = true) (sysThr s j) → Forall (λ fr, scall fr = true) (sysThr s' j)).
Proof.
  intros Hr Hj Hs Hl. destruct (sys_inv_step _ _ _ _ (sys_inv_reach _ _ Hr) Hs) as [Hc' _].
  destruct l as [i c|i op|x e]; cbn in Hs.
  - apply thread_step_cases in Hs as [r Hthr ->|r caller rest frs Hthr Hret ->|x rest Hthr ->|fr rest cn frs Hthr Hf ->];
      cbn [sysThr] in *; (destruct (decide (j = i)) as [->|Hne]; [rewrite Hthr, upd_same; (split; [done|])|rewrite upd_other by done]);
      try done.
    + intros [_ [? _]%Forall_cons]%Forall_cons. by destruct caller as [|[]| | |[]| |[]| | | | | |].
    + by intros [_ ?]%Forall_cons.
    + by rewrite spawn_other.
    + intros [Hsc Hrest]%Forall_cons. apply Forall_app. split; [|done].
      destruct (frame_step_scall _ _ _ _ _ _ _ _ Hf Hsc) as [|Hp]; [done|].
      pose proof (ci_frames _ _ _ Hc' i) as Hfr. cbn in Hfr. rewrite upd_same in Hfr. rewrite Forall_forall in Hfr.
      destruct (Hfr FPanic) as [_ []]. apply elem_of_app. by left.
  - repeat case_bool_decide; try discriminate. injection Hs as <-. cbn. rewrite upd_other; [done|]. intros ->. by destruct (Hl op).
  - destruct (sysEnv s x); [done|]. by injection Hs as <-.
Qed.

(** ** After Close *)

(** A started connection is in shutdown, and no start is to come. *)
Definition ended (cn : Connection) : Prop := syStart cn = Finished ∧ (lfStarted cn = true → syShutdown cn ≠ Fresh).

Definition end_ok (cn : Connection) (st : list Frm) : Prop :=
  match st with [FClose (ClUnlockReturn _)] | [FClose (ClEnd _)] => ended cn | _ => True end.

Definition close_end (s : Sys) : Prop :=
  (lfCtx (sysConn s) ≠ None → syShutdown (sysConn s) ≠ Fresh) ∧ (syClose (sysConn s) = Finished → ended (sysConn s)) ∧
  ∀ j, end_ok (sysConn s) (sysThr s j).

Lemma frame_step_started env i joined c fr (cn cn' : Connection) frs :
  frame_step conf env i joined c fr cn = Some (cn', frs) → lfStarted cn' = true → lfStarted cn = true ∨ owns RStart fr = true.
Proof. intros H. step_cases H; cbn in *; auto. Qed.

Lemma frame_step_end env i joined c fr (cn cn' : Connection) frs :
  frame_step conf env i joined c fr cn = Some (cn', frs) →
  (owns RShut fr = true → syShutdown cn ≠ Fresh) → (lfCtx cn ≠ None → syShutdown cn ≠ Fresh) →
  (late_close fr = true → syStart cn = Finished) → end_ok cn [fr] →
  (lfCtx cn' ≠ None → syShutdown cn' ≠ Fresh) ∧ (syClose cn' = Finished → syClose cn = Finished ∨ ended cn') ∧ end_ok cn' frs ∧
  (∀ pc, fr = FShut pc → frs = [] → syShutdown cn' ≠ Fresh).
Proof.
  intros H. step_cases H; cbn in *; intros Ho Hc Hl He; (split; [|split; [|split]]); try done; auto.
  - congruence.
  - congruence.
  - split; [by apply Hl|]. intros Hst. by rewrite Hst in Heqb.
  - split; [by apply Hl|]. intros _. by apply Hc.
Qed.

Lemma ended_step l s s' :
  reachable conf s → sys_step conf l s = Some s' → ended (sysConn s) → ended (sysConn s').
Proof.
  intros Hr Hs [Hst He]. pose proof (sys_inv_reach _ _ Hr) as Hi. destruct (sys_step_onces _ _ _ Hs) as (_ & Hsh & _).
  split; [by apply (le_start _ _ (sys_step_le _ _ _ _ Hi Hs))|]. intros Hstd.
  assert (lfStarted (sysConn s) = true → syShutdown (sysConn s') ≠ Fresh) as Hold.
  { intros Hx%He. destruct Hsh as [<-|[?| ->]]; done. }
  destruct l as [i c|i op|x e]; cbn in Hs.
  - apply thread_step_cases in Hs as [r _ ->|r caller rest frs _ _ ->|x rest _ ->|fr rest cn frs Hthr Hf ->]; auto.
    destruct (frame_step_started _ _ _ _ _ _ _ _ Hf Hstd) as [|Ho]; [auto|]. exfalso.
    assert (held RStart (sysConn s) i = true) as Hh by (eapply core_owner; [apply Hi|rewrite Hthr; by left|done]).
    apply bool_decide_eq_true in Hh. congruence.
  - repeat case_bool_decide; try discriminate. injection Hs as <-. auto.
  - destruct (sysEnv s x); [done|]. injection Hs as <-. auto.
Qed.

Lemma end_ok_upd (cn : Connection) thr i st j :
  (∀ k, end_ok cn (thr k)) → end_ok cn st → end_ok cn (upd i st thr j).
Proof. intros Ht Hst. unfold upd. by case_decide. Qed.

Lemma close_end_frame s i c fr rest cn frs :
  reachable conf s → close_end s → sysThr s i = fr :: rest →
  frame_step conf (sysEnv s) i (loops_done (sysThr s)) c fr (sysConn s) = Some (cn, frs) →
  cn_le (sysConn s) cn → (ended (sysConn s) → ended cn) → (∀ j, end_ok cn (sysThr s j)) →
  close_end (mkSys cn (sysEnv s) (upd i (frs ++ rest) (sysThr s))).
Proof.
  intros Hr (Hctx & Hcl & Hend) Hthr Hf Hle Hmono Hend'. pose proof (sys_inv_reach _ _ Hr) as [Hc _].
  pose proof (close_start_reach _ _ Hr) as [_ Hlate]. specialize (Hlate i). specialize (Hend i).
  pose proof (ci_shape _ _ _ Hc i) as Hsh. rewrite Hthr in Hlate, Hsh, Hend. apply Forall_cons in Hlate as [Hl Hlrest].
  destruct (frame_step_end _ _ _ _ _ _ _ _ Hf) as (H1 & H2 & H3 & H4); [|done|done| |].
  - intros Ho. assert (held RShut (sysConn s) i = true) as Hh by (eapply core_owner; [done|rewrite Hthr; by left|done]).
    apply bool_decide_eq_true in Hh. congruence.
  - destruct rest; [done|]. by destruct fr.
  - split; [done|]. split; [intros [?%Hcl|?]%H2; auto|]. intros j. cbn [sysConn sysThr]. apply end_ok_upd; [done|].
    destruct rest as [|u [|]]; [by rewrite app_nil_r| |by destruct fr].
    destruct frs as [|f frs]; [|by destruct f as [| | | | | | |[]| | | | |], frs].
    apply Forall_cons in Hlrest as [Hlu _].
    destruct fr; try discriminate Hsh; [by destruct u as [|[]| | |[]| |[]| | | | | |]| |by destruct u as [|[]| | |[]| |[]| | | | | |]].
    destruct u as [| | |[]| | | |[]|[]| |[]| |]; try discriminate Hsh; try done.
    split; [by apply (le_start _ _ Hle), Hlu|]. intros _. by eapply H4.
Qed.

Lemma close_end_step l s s' : reachable conf s → sys_step conf l s = Some s' → close_end s → close_end s'.
Proof.
  intros Hr Hs (Hctx & Hcl & Hend). pose proof (ended_step _ _ _ Hr Hs) as Hmono. pose proof (sys_inv_reach _ _ Hr) as Hi.
  pose proof (sys_step_le _ _ _ _ Hi Hs) as Hle. destruct Hi as [Hc _].
  assert (∀ j, end_ok (sysConn s') (sysThr s j)) as Hend'.
  { intros j. specialize (Hend j). destruct (sysThr s j) as [|[| | | | | | |[]| | | | |] [|]]; try done; by apply Hmono. }
  destruct l as [i c|i op|x e]; cbn in Hs.
  - apply thread_step_cases in Hs as [r Hthr ->|r caller rest frs Hthr Hret ->|x rest Hthr ->|fr rest cn frs Hthr Hf ->].
    + split; [done|]. split; [done|]. intros j. by apply end_ok_upd.
    + split; [done|]. split; [done|]. intros j. apply end_ok_upd; [done|].
      destruct caller as [|[]| | |[]| |[]| | | | | |], r; try discriminate Hret; injection Hret as <-; by destruct rest.
    + split; [done|]. split; [by intros ?%Hcl%Hmono|]. intros j. cbn [sysConn sysThr] in *.
      pose proof (ci_shape _ _ _ Hc i) as Hsh. rewrite Hthr in Hsh. apply end_ok_upd; [|by destruct rest as [|? [|]]].
      intros k. unfold spawn, upd. repeat case_decide; try done. by case_match.
    + by eapply close_end_frame.
  - repeat case_bool_decide; try discriminate. injection Hs as <-. split; [done|]. split; [done|]. intros j.
    apply end_ok_upd; [done|]. by destruct op.
  - destruct (sysEnv s x); [done|]. by injection Hs as <-.
Qed.

Lemma close_end_reach s : reachable conf s → close_end s.
Proof.
  apply (rtc_ind_r close_end); [by repeat split|]. intros s1 s2 Hr [l Hl]. by eapply close_end_step.
Qed.

(** Close has returned: Done can be reached. *)
Lemma closed_can_end s :
  reachable conf s → syClose (sysConn s) = Finished → ∃ s', rtc (quiet_step conf) s s' ∧ lfDone (sysConn s') = true.
Proof.
  intros Hr Hc. destruct (close_end_reach s Hr) as (_ & He & _). destruct (He Hc) as [Hst Hsh].
  destruct (lfStarted (sysConn s)) eqn:Hs; [|exists s; split; [done|by eapply closed_unstarted_done]].
  destruct (shutdown_ends conf s Hr Hst Hs (Hsh eq_refl)) as (s' & Hrun & _ & Hd). by exists s'.
Qed.
End onces.

(** ** Properties *)

(** C11: Every call of Start, Close or abort in progress can return, in every reachable state
    and whatever the other goroutines and calls are at: there is a run of existing goroutines
    and calls only, with a peer that sends nothing, after which it has returned; and after a
    Close there is one to a closed Done. *)
Theorem close_returns conf s i :
  reachable conf s → Forall (λ fr, scall fr = true) (sysThr s i) →
  ∃ s1, rtc (quiet_step conf) s s1 ∧ sysThr s1 i = [] ∧
    (closes i s → ∃ s2, rtc (quiet_step conf) s1 s2 ∧ lfDone (sysConn s2) = true).
Proof.
  intros Hr Hsc. destruct (call_can_return conf s i Hr Hsc) as (s1 & Hrun & _ & Hthr). exists s1. do 2 (split; [done|]).
  intros Hcl. apply (closed_can_end conf); [by eapply reachable_run|]. apply (closes_run conf s s1 i) in Hcl; [|done|by apply quiet_run].
  destruct Hcl as [He|]; [rewrite Hthr in He; by apply Exists_nil in He|done].
Qed.

(** Two calls of Close wait: one for its answer, the other for the first. *)
Definition ex_closes : list Label := ex_start ++ ex_send ++ LCall 8 OpClose :: go_on 8 9 ++ [LCall 9 OpClose].

Lemma close_returns_witness :
  match sys_run ex_conf ex_closes sys_init with
  | Some s => thread_step ex_conf 9 (CCase 0) s = None ∧
      ∃ s1 s2, rtc (quiet_step ex_conf) s s1 ∧ sysThr s1 9%nat = [] ∧ rtc (quiet_step ex_conf) s1 s2 ∧ lfDone (sysConn s2) = true
  | None => False
  end.
Proof.
  assert ((λ s, (match thread_step ex_conf 9 (CCase 0) s with Some _ => true | None => false end, sysThr s 9%nat)) <$>
    sys_run ex_conf ex_closes sys_init = Some (false, [FClose (ClOnce local_close)])) as H by reflexivity.
  destruct (sys_run ex_conf ex_closes sys_init) as [s|] eqn:Hrun; [|discriminate H].
  apply Some_inj, pair_equal_spec in H as [Hb Hthr]. split; [destruct (thread_step ex_conf 9 (CCase 0) s); [discriminate Hb|reflexivity]|].
  destruct (close_returns ex_conf s 9 (run_reachable ex_conf _ _ Hrun)) as (s1 & H1 & H2 & Hd); [rewrite Hthr; repeat constructor|].
  destruct Hd as (s2 & H3 & H4); [left; rewrite Hthr; apply Exists_cons_hd; reflexivity|].
  exists s1, s2. exact (conj H1 (conj H2 (conj H3 H4))).
Defined.
