(* ===== verification/Establish.v ===== *)
(** * client.go, server_handshake.go: establishing a session over a transport

    [Net] is one end of a TCP connection: what will be read, how writes will go,
    and the octets written so far.  [establishClient] and [performHandshake] are
    the two ends of the three handshake flights, [dialContext] the client's whole
    establishment with its ownership of the socket.

    The theorems show that a client never gets a connection to a peer other than
    the pinned one and closes the socket exactly once when it fails, that a server
    admits allowed clients only, and that a client and a server connected to each
    other end with sessions that are in step in both directions. *)

From S2P Require Import Prelude Wire Header Frame Tlv Utf8 Messages Replay Sha256 Crypto Rekey Session.
From S2P Require Import SessionSend SessionReceive SessionPair Handshake Transport Config.
Import wire.

Local Open Scope Z_scope.
Local Open Scope sm_scope.
Local Opaque header_layout next_key key_confirm session_id.

Record Net := mkNet { netRead : ReadSide; netWrite : WriteSide; netSent : list byte }.

Definition net_ReadFrame (ctx : CtxView) : sm Net Frame := λ n,
  let '(r, o) := ReadFrame ctx (netRead n) in (mkNet r (netWrite n) (netSent n), o).
Definition net_WriteFrame (ctx : CtxView) (frame : Frame) : sm Net unit := λ n,
  let '(w, out, o) := WriteFrame ctx (netWrite n) frame in (mkNet (netRead n) w (netSent n ++ out), o).

(** ** server_handshake.go *)
Definition validateHandshakeFrame (frame : Frame) (expected : Z) : outcome unit :=
  if negb (hdrMessageType (frHeader frame) =? expected) then Err ErrHandshakeFailed else
  if negb (bool_decide (hdrSessionID (frHeader frame) = zero16)) then Err ErrHandshakeFailed else
  if negb (hdrSequence (frHeader frame) =? 0) then Err ErrHandshakeFailed else
  match Frame_ValidateReceive frame with
  | Ok _ => Ok tt
  | Err _ => Err ErrHandshakeFailed
  | Panic => Panic
  end.

Fixpoint hmacEqual_loop (result : Z) (a b : list byte) : Z :=
  match a, b with
  | x :: a, y :: b => hmacEqual_loop (Z.lor result (Z.lxor (byte_val x) (byte_val y))) a b
  | _, _ => result
  end.

Definition hmacEqual (a b : list byte) : bool :=
  if negb (zlen a =? zlen b) then false else hmacEqual_loop 0 a b =? 0.

Fixpoint isClientAllowed (clientStatic : list byte) (allowedList : list (list byte)) : bool :=
  match allowedList with
  | [] => false
  | allowed :: rest =>
      if (zlen allowed =? 32) && hmacEqual clientStatic allowed then true else isClientAllowed clientStatic rest
  end.

(** What the calls of an establishment see of its context: the reads and writes in
    order, and the error found when a failure is reported. *)
Record EstablishView := mkEstablishView {
  ev1 : CtxView; ev2 : CtxView; ev3 : CtxView; evFail : option error;
}.

Record AdmissionInfo := mkAdmissionInfo { aiPeerStatic : list byte; aiSessionID : list byte }.

Section establish.
Context {N : Noise} {aead : AEAD}.

Definition performHandshake (v : EstablishView) (config : ServerConfig) (random : list byte) (now : Z)
    : sm Net (Session * HandshakeResult) :=
  let* responder := sm_lift (NewResponderHandshake (svStaticKey config) [] random) in
  let* frame1 := net_ReadFrame (ev1 v) in
  sm_lift (validateHandshakeFrame frame1 MessageTypeHandshakeInit);;
  let '(responder, o) := Handshake_ReadFlight (frPayload frame1) responder in
  sm_lift o;;
  let '(responder, o) := Handshake_WriteFlight responder in
  let* flight2Payload := sm_lift o in
  let* frame2 := sm_lift (NewFrame MessageTypeHandshakeResponse zero16 0 flight2Payload (make_bytes AEADTagSize) []) in
  net_WriteFrame (ev2 v) frame2;;
  let* frame3 := net_ReadFrame (ev3 v) in
  sm_lift (validateHandshakeFrame frame3 MessageTypeHandshakeResponse);;
  let '(responder, o) := Handshake_ReadFlight (frPayload frame3) responder in
  sm_lift o;;
  if negb (Handshake_Complete responder) then sm_throw ErrHandshakeFailed else
  let* result := sm_lift (Handshake_Result responder) in
  if (0 <? zlen (svAllowedClients config)) && negb (isClientAllowed (hrPeerStatic result) (svAllowedClients config))
  then sm_throw ErrClientNotPermitted else
  let* session := sm_lift (NewSessionFromHandshake (svCipherSuite config) result now) in
  sm_ret (session, result).

(** ** client.go *)

(** The closure [fail] on the error of a call. *)
Definition or_fail {A} (v : EstablishView) (m : sm Net A) : sm Net A := λ n,
  match m n with
  | (n, Err _) => (n, Err (match evFail v with Some e => e | None => ErrHandshakeFailed end))
  | res => res
  end.

(** A handshake frame as the client builds it. *)
Definition handshake_frame (messageType : Z) (flight : list byte) : Frame :=
  mkFrame (NewHeader messageType zero16 0 (wrap 32 (zlen flight)) 0) flight zero16 [].

Definition establishClient (v : EstablishView) (config : ClientConfig) (random : list byte) : sm Net HandshakeResult :=
  let* h := or_fail v (sm_lift (NewInitiatorHandshake (clStaticKey config) (clServerStatic config) random)) in
  let '(h, o) := Handshake_WriteFlight h in
  let* flight := or_fail v (sm_lift o) in
  or_fail v (net_WriteFrame (ev1 v) (handshake_frame MessageTypeHandshakeInit flight));;
  let* response := or_fail v (net_ReadFrame (ev2 v)) in
  or_fail v (sm_lift (validateHandshakeFrame response MessageTypeHandshakeResponse));;
  let '(h, o) := Handshake_ReadFlight (frPayload response) h in
  or_fail v (sm_lift o);;
  let '(h, o) := Handshake_WriteFlight h in
  let* flight := or_fail v (sm_lift o) in
  or_fail v (net_WriteFrame (ev3 v) (handshake_frame MessageTypeHandshakeResponse flight));;
  or_fail v (sm_lift (Handshake_Result h)).

(** The caller's context is nil, or has an error or none at the start; the errors
    of the establishment context when the dial fails and at the end. *)
Record DialView := mkDialView {
  dvCtx : option (option error); dvDial : CtxView; dvEstablish : EstablishView; dvFinal : option error;
}.

(** The socket, how often it was closed, and the stopped connection with its
    metadata.  [dial] is what the dialer returns: a socket, an error, or both. *)
Definition dialContext (v : DialView) (config : ClientConfig) (dial : option Net * option ConnError)
    (random : list byte) (now : Z) : option Net * nat * outcome (Session * ConnectionConfig * AdmissionInfo) :=
  match dvCtx v with
  | None => (None, 0%nat, Err ErrInvalidClientConfig)
  | Some ctxErr =>
  match normalizeClientConfig config with
  | Err e => (None, 0%nat, Err e)
  | Panic => (None, 0%nat, Panic)
  | Ok config =>
  match ctxErr with
  | Some e => (None, 0%nat, Err e)
  | None =>
  match dial with
  | (Some raw, Some err) => (Some raw, 1%nat, Err (transportError (dvDial v) err))
  | (None, Some err) => (None, 0%nat, Err (transportError (dvDial v) err))
  | (None, None) => (None, 0%nat, Err ErrTransportClosed)
  | (Some raw, None) =>
      match establishClient (dvEstablish v) config random raw with
      | (raw, Err e) => (Some raw, 1%nat, Err e)
      | (raw, Panic) => (Some raw, 1%nat, Panic)
      | (raw, Ok result) =>
      match NewSessionFromHandshake CipherChaCha20Poly1305 result now with
      | Err e => (Some raw, 1%nat, Err e)
      | Panic => (Some raw, 1%nat, Panic)
      | Ok session =>
      match dvFinal v with
      | Some e => (Some raw, 1%nat, Err e)
      | None =>
          (Some raw, 0%nat, Ok (session, NewConnection_config (clConnection config),
                                mkAdmissionInfo (hrPeerStatic result) (hrSessionID result)))
      end end end
  end end end end.
End establish.

(** ** Facts: allowed clients *)

Lemma hmacEqual_loop_0 a : ∀ b r,
  zlen a = zlen b → hmacEqual_loop r a b = 0 ↔ r = 0 ∧ a = b.
Proof.
  induction a as [|x a IH]; intros [|y b] r Hl; autorewrite with dglen in Hl; cbn [hmacEqual_loop].
  - naive_solver.
  - pose proof (zlen_nonneg b). lia.
  - pose proof (zlen_nonneg a). lia.
  - rewrite IH by lia. rewrite Z.lor_eq_0_iff, Z.lxor_eq_0_iff. split.
    + intros [[-> Hx] ->]. by apply byte_val_inj in Hx as ->.
    + by intros [-> [= -> ->]].
Qed.

Lemma hmacEqual_spec a b : hmacEqual a b = bool_decide (a = b).
Proof.
  unfold hmacEqual. destruct (zlen a =? zlen b) eqn:Hl; cbn [negb].
  - apply Z.eqb_eq in Hl. pose proof (hmacEqual_loop_0 a b 0 Hl) as H0.
    destruct (hmacEqual_loop 0 a b =? 0) eqn:E; case_bool_decide as Hab; try done.
    + apply Z.eqb_eq in E. naive_solver.
    + apply Z.eqb_neq in E. naive_solver.
  - case_bool_decide as Hab; [|done]. subst. lia.
Qed.

Lemma isClientAllowed_spec c l : zlen c = 32 → isClientAllowed c l = bool_decide (c ∈ l).
Proof.
  intros Hc. induction l as [|a l IH]; cbn [isClientAllowed]; [by rewrite bool_decide_eq_false_2 by apply not_elem_of_nil|].
  rewrite hmacEqual_spec, IH. destruct (decide (c = a)) as [<-|Ha].
  - rewrite Hc, (bool_decide_eq_true_2 (c = c)) by done. symmetry. apply bool_decide_eq_true_2. by left.
  - rewrite (bool_decide_eq_false_2 (c = a)), andb_false_r by done. apply bool_decide_ext. rewrite elem_of_cons. naive_solver.
Qed.

(** ** Facts: one side against any peer *)
Section one_side.
Context {N : Noise} {aead : AEAD}.

Lemma or_fail_Ok {A} v (m : sm Net A) n n' a : or_fail v m n = (n', Ok a) ↔ m n = (n', Ok a).
Proof. unfold or_fail. destruct (m n) as [n1 [b|e|]]; naive_solver. Qed.

Lemma lift_Ok {S A} (o : outcome A) (s s' : S) a : sm_lift o s = (s', Ok a) → s' = s ∧ o = Ok a.
Proof. unfold sm_lift. by intros [= -> ->]. Qed.

(** The handshake after a call keeps its invariant and its pin. *)
Lemma flight_inv {A} h (r : Handshake * outcome A) h' o :
  handshake_inv h → call_result h r → r = (h', o) → handshake_inv h' ∧ hExpectedPeer h' = hExpectedPeer h.
Proof. intros Hi Hc ->. by destruct (call_result_inv h (h', o) Hi Hc) as (? & _ & ? & _). Qed.

Lemma Handshake_Result_ok h r : handshake_inv h → Handshake_Result h = Ok r → result_ok h r.
Proof.
  intros [_ Hi]. unfold Handshake_Result, Handshake_Complete. destruct (hStep h); try done.
  destruct Hi as (_ & r' & -> & Hr). by intros [= <-].
Qed.

Lemma establishClient_pinned v config random n n' result :
  establishClient v config random n = (n', Ok result) →
  ∃ h, hExpectedPeer h = clServerStatic config ∧ result_ok h result.
Proof.
  unfold establishClient. intros H.
  apply sm_bind_Ok in H as (n1 & h0 & [_ Hn]%or_fail_Ok%lift_Ok & H).
  apply newHandshake_inv in Hn as (Hi0 & _ & He0 & _).
  destruct (Handshake_WriteFlight h0) as [h1 o1] eqn:H1.
  destruct (flight_inv _ _ _ _ Hi0 (WriteFlight_call h0 Hi0) H1) as [Hi1 He1].
  apply sm_bind_Ok in H as (n2 & f1 & _ & H). apply sm_bind_Ok in H as (n3 & [] & _ & H).
  apply sm_bind_Ok in H as (n4 & response & _ & H). apply sm_bind_Ok in H as (n5 & [] & _ & H).
  destruct (Handshake_ReadFlight (frPayload response) h1) as [h2 o2] eqn:H2.
  destruct (flight_inv _ _ _ _ Hi1 (ReadFlight_call _ h1 Hi1) H2) as [Hi2 He2].
  apply sm_bind_Ok in H as (n6 & [] & _ & H).
  destruct (Handshake_WriteFlight h2) as [h3 o3] eqn:H3.
  destruct (flight_inv _ _ _ _ Hi2 (WriteFlight_call h2 Hi2) H3) as [Hi3 He3].
  apply sm_bind_Ok in H as (n7 & f3 & _ & H). apply sm_bind_Ok in H as (n8 & [] & _ & H).
  apply or_fail_Ok, lift_Ok in H as [_ Hr]. exists h3. split; [congruence|]. by apply Handshake_Result_ok.
Qed.

Lemma performHandshake_allowed v config random now n n' session result :
  performHandshake v config random now n = (n', Ok (session, result)) →
  (svAllowedClients config = [] ∨ hrPeerStatic result ∈ svAllowedClients config) ∧
  NewSessionFromHandshake (svCipherSuite config) result now = Ok session ∧
  zlen (hrPeerStatic result) = 32 ∧ zlen (hrSessionID result) = 16.
Proof.
  unfold performHandshake. intros H.
  apply sm_bind_Ok in H as (n1 & h0 & [_ Hn]%lift_Ok & H). apply newHandshake_inv in Hn as (Hi0 & _).
  apply sm_bind_Ok in H as (n2 & frame1 & _ & H). apply sm_bind_Ok in H as (n3 & [] & _ & H).
  destruct (Handshake_ReadFlight (frPayload frame1) h0) as [h1 o1] eqn:H1.
  destruct (flight_inv _ _ _ _ Hi0 (ReadFlight_call _ h0 Hi0) H1) as [Hi1 _].
  apply sm_bind_Ok in H as (n4 & [] & _ & H).
  destruct (Handshake_WriteFlight h1) as [h2 o2] eqn:H2.
  destruct (flight_inv _ _ _ _ Hi1 (WriteFlight_call h1 Hi1) H2) as [Hi2 _].
  apply sm_bind_Ok in H as (n5 & flight2 & _ & H). apply sm_bind_Ok in H as (n6 & frame2 & _ & H).
  apply sm_bind_Ok in H as (n7 & [] & _ & H). apply sm_bind_Ok in H as (n8 & frame3 & _ & H).
  apply sm_bind_Ok in H as (n9 & [] & _ & H).
  destruct (Handshake_ReadFlight (frPayload frame3) h2) as [h3 o3] eqn:H3.
  destruct (flight_inv _ _ _ _ Hi2 (ReadFlight_call _ h2 Hi2) H3) as [Hi3 _].
  apply sm_bind_Ok in H as (n10 & [] & _ & H). destruct (Handshake_Complete h3); cbn [negb] in H; [|done].
  apply sm_bind_Ok in H as (n11 & result' & [_ Hr]%lift_Ok & H).
  pose proof (Handshake_Result_ok h3 result' Hi3 Hr) as (Hid & _ & _ & Hp & _).
  destruct (_ && _) eqn:Ha; [done|]. apply sm_bind_Ok in H as (n12 & session' & [_ Hs]%lift_Ok & [= _ <- <-]).
  split; [|done]. rewrite isClientAllowed_spec in Ha by done.
  destruct (svAllowedClients config) as [|a l]; [by left|right].
  rewrite zlen_cons in Ha. pose proof (zlen_nonneg l). rewrite (proj2 (Z.ltb_lt _ _)) in Ha by lia.
  cbn [andb] in Ha. by apply negb_false_iff, bool_decide_eq_true in Ha.
Qed.
End one_side.

(** ** Facts: frames of the handshake *)

Lemma handshake_frame_ok t w :
  t = MessageTypeHandshakeInit ∨ t = MessageTypeHandshakeResponse → zlen w ≤ 1000 →
  frame_encodable (handshake_frame t w) ∧ zlen (frame_layout (handshake_frame t w)) = HeaderSize + zlen w ∧
  validateHandshakeFrame (handshake_frame t w) t = Ok tt ∧
  NewFrame t zero16 0 w (make_bytes AEADTagSize) [] = Ok (handshake_frame t w).
Proof.
  intros Ht Hw. pose proof (zlen_nonneg w). assert (uint 32 (zlen w)) as Hu by (unfold uint; lia).
  assert (uint 8 t) as Ht8 by (unfold uint, MessageTypeHandshakeInit, MessageTypeHandshakeResponse in *; lia).
  assert (Header_ok (NewHeader t zero16 0 (zlen w) 0)) as Hok by (by apply NewHeader_ok).
  assert (hasAEADTag (NewHeader t zero16 0 (zlen w) 0) = false) as Htag by (by destruct Ht; subst).
  assert (FrameSize (NewHeader t zero16 0 (zlen w) 0) = HeaderSize + zlen w) as Hsz.
  { rewrite FrameSize_exact, Htag by done. change (hdrPayloadLength (NewHeader t zero16 0 (zlen w) 0)) with (zlen w).
    change (hdrPadLength (NewHeader t zero16 0 (zlen w) 0)) with 0. lia. }
  assert (Frame_Validate (handshake_frame t w) = Ok tt) as Hv.
  { unfold Frame_Validate, handshake_frame. rewrite wrap_small by done. cbn [frHeader].
    rewrite NewHeader_Validate, bind_Ok_l by (rewrite Hsz; unfold HeaderSize, MaxFrameSize; lia).
    by apply validateLengths_Ok. }
  assert (Frame_ok (handshake_frame t w)) as Hfok by (unfold handshake_frame; rewrite wrap_small by done; by split).
  split; [split; [done|]; split; [done|exact Hv]|]. split.
  { rewrite frame_layout_length; [|done|]; [unfold handshake_frame; by rewrite wrap_small|].
    apply Frame_Validate_receive, Frame_ValidateReceive_Ok in Hv. apply Hv. }
  split.
  - unfold validateHandshakeFrame. rewrite (Frame_Validate_receive _ Hv). cbn [handshake_frame frHeader].
    change (hdrMessageType (NewHeader t _ _ _ _)) with t. by rewrite Z.eqb_refl.
  - unfold NewFrame, handshake_frame. rewrite zlen_nil, !wrap_small by done. cbn [Z.ltb Z.compare].
    rewrite (proj2 (Z.ltb_ge _ _)) by lia. rewrite Htag, Hsz.
    rewrite (proj2 (Z.ltb_ge _ _)) by (unfold HeaderSize, MaxFrameSize; lia). done.
Qed.

Lemma net_write ctx f n counts more :
  lane_open ctx → frame_encodable f → wrCounts (netWrite n) = counts ++ more →
  chunking counts (zlen (frame_layout f)) →
  ∃ w', net_WriteFrame ctx f n = (mkNet (netRead n) w' (netSent n ++ frame_layout f), Ok tt) ∧ wrCounts w' = more.
Proof.
  intros Hl He Hw Hc. unfold net_WriteFrame. rewrite WriteFrame_wire, Hw, write_loop_all by done. by eexists.
Qed.

Lemma net_read ctx f n rest :
  lane_open ctx → frame_decodable f → stream_of (netRead n) = frame_layout f ++ rest →
  ∃ r', net_ReadFrame ctx n = (mkNet r' (netWrite n) (netSent n), Ok f) ∧ stream_of r' = rest.
Proof.
  intros Hl Hd Hs. unfold net_ReadFrame. pose proof (ReadFrame_stream ctx (netRead n) Hl) as Hr.
  rewrite Hs, read_frame_layout in Hr by done. destruct (ReadFrame ctx (netRead n)) as [r' o].
  destruct Hr as [[= Hs' ->] _]. by exists r'.
Qed.

(** ** Facts: the two sides together *)

(** Everything the two handshakes do when the flights are passed on in order. *)
Record xx_script {N : Noise} (sI sR : StaticKey) (hI hR : Handshake) (w1 w2 w3 : list byte)
    (hI1 hI2 hI3 hR1 hR2 hR3 : Handshake) (resI resR : HandshakeResult) : Prop := {
  xs_write1 : Handshake_WriteFlight hI = (hI1, Ok w1);
  xs_read1 : Handshake_ReadFlight w1 hR = (hR1, Ok tt);
  xs_write2 : Handshake_WriteFlight hR1 = (hR2, Ok w2);
  xs_read2 : Handshake_ReadFlight w2 hI1 = (hI2, Ok tt);
  xs_write3 : Handshake_WriteFlight hI2 = (hI3, Ok w3);
  xs_read3 : Handshake_ReadFlight w3 hR2 = (hR3, Ok tt);
  xs_sizes : zlen w1 = 36 ∧ zlen w2 = 96 ∧ zlen w3 = 64;
  xs_complete : Handshake_Complete hR3 = true;
  xs_resI : Handshake_Result hI3 = Ok resI;
  xs_resR : Handshake_Result hR3 = Ok resR;
  xs_secrets : HandshakeResult_Secrets resR =
    mkHandshakeSecrets (hrSessionID resI) (hrReceiveKey resI) (hrSendKey resI);
  xs_okI : result_ok hI3 resI;
  xs_peers : hrPeerStatic resI = skPublic sR ∧ hrPeerStatic resR = skPublic sI;
}.

#[local] Arguments xs_write1 {N sI sR hI hR w1 w2 w3 hI1 hI2 hI3 hR1 hR2 hR3 resI resR} _.
#[local] Arguments xs_read1 {N sI sR hI hR w1 w2 w3 hI1 hI2 hI3 hR1 hR2 hR3 resI resR} _.
#[local] Arguments xs_write2 {N sI sR hI hR w1 w2 w3 hI1 hI2 hI3 hR1 hR2 hR3 resI resR} _.
#[local] Arguments xs_read2 {N sI sR hI hR w1 w2 w3 hI1 hI2 hI3 hR1 hR2 hR3 resI resR} _.
#[local] Arguments xs_write3 {N sI sR hI hR w1 w2 w3 hI1 hI2 hI3 hR1 hR2 hR3 resI resR} _.
#[local] Arguments xs_read3 {N sI sR hI hR w1 w2 w3 hI1 hI2 hI3 hR1 hR2 hR3 resI resR} _.
#[local] Arguments xs_sizes {N sI sR hI hR w1 w2 w3 hI1 hI2 hI3 hR1 hR2 hR3 resI resR} _.
#[local] Arguments xs_complete {N sI sR hI hR w1 w2 w3 hI1 hI2 hI3 hR1 hR2 hR3 resI resR} _.
#[local] Arguments xs_resI {N sI sR hI hR w1 w2 w3 hI1 hI2 hI3 hR1 hR2 hR3 resI resR} _.
#[local] Arguments xs_resR {N sI sR hI hR w1 w2 w3 hI1 hI2 hI3 hR1 hR2 hR3 resI resR} _.
#[local] Arguments xs_secrets {N sI sR hI hR w1 w2 w3 hI1 hI2 hI3 hR1 hR2 hR3 resI resR} _.
#[local] Arguments xs_okI {N sI sR hI hR w1 w2 w3 hI1 hI2 hI3 hR1 hR2 hR3 resI resR} _.
#[local] Arguments xs_peers {N sI sR hI hR w1 w2 w3 hI1 hI2 hI3 hR1 hR2 hR3 resI resR} _.

Lemma flightMessage_size step wire m :
  flightMessage step wire = Some (Ok m) →
  zlen wire = match step with stepResponderRead1 => 36 | stepInitiatorRead2 => 96 | _ => 64 end.
Proof.
  destruct step; cbn [flightMessage]; try done; intros [= H]; apply bind_Ok in H as (f & Hf & _).
  - unfold HandshakeResponse_UnmarshalBinary in Hf. destruct (zlen wire =? _) eqn:E; [|done]. by apply Z.eqb_eq in E.
  - unfold HandshakeInit_UnmarshalBinary in Hf. destruct (zlen wire <? _); [done|]. destruct (_ <? zlen wire); [done|].
    destruct (negb _); [done|]. apply bind_Ok in Hf as (b0 & _ & Hf). cbv zeta in Hf. destruct (negb (_ =? NoisePatternXX)); [done|].
    apply bind_Ok in Hf as (b1 & _ & Hf). apply bind_Ok in Hf as (b2 & _ & Hf). apply bind_Ok in Hf as (b3 & _ & Hf).
    destruct (_ || _); [done|]. destruct (zlen wire =? _) eqn:E; [|done]. by apply Z.eqb_eq in E.
  - unfold HandshakeFinish_UnmarshalBinary in Hf. destruct (zlen wire =? _) eqn:E; [|done]. by apply Z.eqb_eq in E.
Qed.

Lemma xx_run {N : Noise} {L : NoiseLaws} sI sR eI rI rR hI hR :
  zlen (skPublic sI) = 32 → zlen (skPublic sR) = 32 → 32 ≤ zlen rI → 32 ≤ zlen rR → eI = skPublic sR →
  NewInitiatorHandshake sI eI rI = Ok hI → NewResponderHandshake sR [] rR = Ok hR →
  ∃ w1 w2 w3 hI1 hI2 hI3 hR1 hR2 hR3 resI resR,
    xx_script sI sR hI hR w1 w2 w3 hI1 hI2 hI3 hR1 hR2 hR3 resI resR.
Proof.
  intros HpI HpR HrI HrR HeI HI HR.
  apply newHandshake_inv in HI as (_ & _ & _ & _ & _ & HvI%validate_keypair & stI & HstI & ->).
  apply newHandshake_inv in HR as (_ & _ & _ & _ & _ & HvR%validate_keypair & stR & HstR & ->).
  destruct (xx_complete _ _ _ _ _ _ _ HvI HvR HrI HrR HstI HstR) as
    (sI1 & sI2 & sI3 & sR1 & sR2 & sR3 & m1 & m2 & m3 & cI & dI & cR & dR & W1 & L1 & R1 & W2 & L2 & R2 & W3 & L3 & R3 &
     Kc & Kd & PI & PR & HB & HB0).
  cbn [is_initiator]. destruct (write1 stI sI1 m1 eI W1 L1) as (w1 & E1 & F1).
  destruct (write2 sR1 sR2 m2 [] W2 L2) as (w2 & E2 & F2).
  pose proof (write3 _ _ _ _ _ eI W3 L3) as E3. pose proof (read3 _ _ _ _ _ [] R3 L3) as E4. cbv zeta in E3, E4.
  set (hI3' := mkHandshake (Some sI3) roleInitiator stepInitiatorWrite3 eI None) in *.
  set (hR3' := mkHandshake (Some sR3) roleResponder stepResponderRead3 [] None) in *.
  assert (may_complete hI3' sI3) as MI.
  { unfold may_complete. cbn [hI3' hExpectedPeer]. rewrite PI. split; [done|]. split; [by right|done]. }
  assert (may_complete hR3' sR3) as MR.
  { unfold may_complete. cbn [hR3' hExpectedPeer]. rewrite PR, <- HB. split; [done|]. split; [by left|done]. }
  rewrite decide_True in E3 by done. rewrite decide_True in E4 by done.
  eexists w1, w2, m3, _, _, _, _, _, _, _, _. split.
  - exact E1.
  - exact (read_early _ _ _ _ _ _ stepResponderWrite2 _ F1 R1 ltac:(auto)).
  - exact E2.
  - exact (read_early _ _ _ _ _ _ stepInitiatorWrite3 _ F2 R2 ltac:(auto)).
  - exact E3.
  - exact E4.
  - split; [exact (flightMessage_size _ _ _ F1)|]. split; [exact (flightMessage_size _ _ _ F2)|done].
  - done.
  - reflexivity.
  - reflexivity.
  - unfold HandshakeResult_Secrets. cbn. by rewrite HB, Kc, Kd.
  - apply Handshake_Result_ok; [by apply completed_inv|reflexivity].
  - done.
Qed.

(** The octets sent only grow. *)
Definition grows {A} (m : sm Net A) : Prop := ∀ n, ∃ x, netSent (m n).1 = netSent n ++ x.

Lemma grows_keeps {A} (m : sm Net A) : keeps netSent m → grows m.
Proof. intros Hk n. exists []. by rewrite app_nil_r, Hk. Qed.

Lemma grows_bind {A B} (m : sm Net A) (k : A → sm Net B) : grows m → (∀ a, grows (k a)) → grows (sm_bind m k).
Proof.
  intros Hm Hk n. rewrite sm_bind_run. destruct (Hm n) as [x Hx]. destruct (m n) as [n1 [a|e|]]; cbn in *; [|by exists x..].
  destruct (Hk a n1) as [y Hy]. exists (x ++ y). by rewrite Hy, Hx, app_assoc.
Qed.

Lemma grows_or_fail {A} v (m : sm Net A) : grows m → grows (or_fail v m).
Proof. intros Hm n. destruct (Hm n) as [x Hx]. exists x. unfold or_fail. by destruct (m n) as [n1 [a|e|]]. Qed.

Lemma net_ReadFrame_keeps ctx : keeps netSent (net_ReadFrame ctx).
Proof. intros n. unfold net_ReadFrame. by destruct (ReadFrame ctx (netRead n)). Qed.

Lemma net_WriteFrame_grows ctx f : grows (net_WriteFrame ctx f).
Proof. intros n. unfold net_WriteFrame. destruct (WriteFrame ctx (netWrite n) f) as [[w out] o]. by exists out. Qed.

Create HintDb grows.
#[local] Hint Resolve net_ReadFrame_keeps net_WriteFrame_grows grows_keeps grows_or_fail keeps_lift keeps_throw keeps_ret
  : grows.
Ltac grows_run :=
  repeat first [ progress intros | solve [auto with grows] | apply grows_bind | apply grows_or_fail | case_match ].

Section two_sides.
Context {N : Noise} {L : NoiseLaws} {aead : AEAD} {laws : AEADLaws}.
Context (sI sR : StaticKey) (hI hR hI1 hI2 hI3 hR1 hR2 hR3 : Handshake) (w1 w2 w3 : list byte)
  (resI resR : HandshakeResult).
Context (script : xx_script sI sR hI hR w1 w2 w3 hI1 hI2 hI3 hR1 hR2 hR3 resI resR).

Let f1 := handshake_frame MessageTypeHandshakeInit w1.
Let f2 := handshake_frame MessageTypeHandshakeResponse w2.
Let f3 := handshake_frame MessageTypeHandshakeResponse w3.

Definition view_open (v : EstablishView) : Prop := lane_open (ev1 v) ∧ lane_open (ev2 v) ∧ lane_open (ev3 v).

Lemma script_frames :
  (frame_encodable f1 ∧ frame_encodable f2 ∧ frame_encodable f3) ∧
  zlen (frame_layout f1) = 76 ∧ zlen (frame_layout f2) = 136 ∧ zlen (frame_layout f3) = 104 ∧
  validateHandshakeFrame f1 MessageTypeHandshakeInit = Ok tt ∧
  validateHandshakeFrame f2 MessageTypeHandshakeResponse = Ok tt ∧
  validateHandshakeFrame f3 MessageTypeHandshakeResponse = Ok tt ∧
  NewFrame MessageTypeHandshakeResponse zero16 0 w2 (make_bytes AEADTagSize) [] = Ok f2.
Proof.
  destruct (xs_sizes script) as (H1 & H2 & H3).
  destruct (handshake_frame_ok MessageTypeHandshakeInit w1) as (? & E1 & ? & _); [auto|lia|].
  destruct (handshake_frame_ok MessageTypeHandshakeResponse w2) as (? & E2 & ? & ?); [auto|lia|].
  destruct (handshake_frame_ok MessageTypeHandshakeResponse w3) as (? & E3 & ? & _); [auto|lia|].
  rewrite H1 in E1. rewrite H2 in E2. rewrite H3 in E3. done.
Qed.

(** The client's first frame goes out whatever it reads later. *)
Lemma client_first v config random n counts more :
  view_open v → NewInitiatorHandshake (clStaticKey config) (clServerStatic config) random = Ok hI →
  wrCounts (netWrite n) = counts ++ more → chunking counts 76 →
  ∃ x, netSent (establishClient v config random n).1 = netSent n ++ frame_layout f1 ++ x.
Proof.
  intros (Hl & _) HI Hw Hc. destruct script_frames as ((He & _) & Hz & _). rewrite <- Hz in Hc.
  destruct (net_write (ev1 v) f1 n counts more Hl He Hw Hc) as (w' & Hwr & _).
  unfold establishClient. rewrite HI, sm_bind_run. cbn [or_fail sm_lift].
  rewrite (xs_write1 script), sm_bind_run. cbn [or_fail sm_lift]. fold f1.
  rewrite sm_bind_run. unfold or_fail at 1. rewrite Hwr.
  lazymatch goal with |- ∃ x, netSent (?m ?n1).1 = _ =>
    assert (grows m) as Hg by grows_run; destruct (Hg n1) as [x Hx] end.
  exists x. rewrite Hx. cbn [netSent]. by rewrite app_assoc.
Qed.

Ltac or_fail_step := rewrite sm_bind_run; unfold or_fail at 1.

Lemma client_run v config random n c1 c3 more rest :
  view_open v → NewInitiatorHandshake (clStaticKey config) (clServerStatic config) random = Ok hI →
  wrCounts (netWrite n) = c1 ++ c3 ++ more → chunking c1 76 → chunking c3 104 →
  stream_of (netRead n) = frame_layout f2 ++ rest →
  ∃ n', establishClient v config random n = (n', Ok resI) ∧ stream_of (netRead n') = rest ∧
    netSent n' = netSent n ++ frame_layout f1 ++ frame_layout f3.
Proof.
  intros (Hl1 & Hl2 & Hl3) HI Hw Hc1 Hc3 Hst.
  destruct script_frames as ((He1 & He2 & He3) & Hz1 & Hz2 & Hz3 & _ & Hv2 & _). rewrite <- Hz1 in Hc1. rewrite <- Hz3 in Hc3.
  destruct (net_write (ev1 v) f1 n c1 (c3 ++ more) Hl1 He1 Hw Hc1) as (w' & Hwr1 & Hw').
  set (n1 := mkNet (netRead n) w' (netSent n ++ frame_layout f1)) in *.
  destruct (net_read (ev2 v) f2 n1 rest Hl2 (frame_encodable_decodable _ He2) Hst) as (r' & Hrd & Hst').
  set (n2 := mkNet r' (netWrite n1) (netSent n1)) in *.
  destruct (net_write (ev3 v) f3 n2 c3 more Hl3 He3 Hw' Hc3) as (w'' & Hwr3 & _).
  unfold establishClient. rewrite HI. or_fail_step. cbn [sm_lift]. rewrite (xs_write1 script).
  or_fail_step. cbn [sm_lift]. fold f1. or_fail_step. rewrite Hwr1. or_fail_step. rewrite Hrd.
  or_fail_step. rewrite Hv2. cbn [sm_lift]. change (frPayload f2) with w2. rewrite (xs_read2 script).
  or_fail_step. cbn [sm_lift]. rewrite (xs_write3 script).
  or_fail_step. cbn [sm_lift]. fold f3. or_fail_step. rewrite Hwr3. unfold or_fail.
  rewrite (xs_resI script). cbn [sm_lift].
  eexists. split; [reflexivity|]. split; [exact Hst'|]. cbn [netSent n1 n2]. by rewrite app_assoc.
Qed.

(** The server answers the first frame whatever it reads later. *)
Lemma server_first v config random now n counts more rest :
  view_open v → NewResponderHandshake (svStaticKey config) [] random = Ok hR →
  wrCounts (netWrite n) = counts ++ more → chunking counts 136 → stream_of (netRead n) = frame_layout f1 ++ rest →
  netSent (performHandshake v config random now n).1 = netSent n ++ frame_layout f2.
Proof.
  intros (Hl1 & Hl2 & _) HR Hw Hc Hst.
  destruct script_frames as ((He1 & He2 & _) & Hz1 & Hz2 & _ & Hv1 & _ & _ & Hnf). rewrite <- Hz2 in Hc.
  destruct (net_read (ev1 v) f1 n rest Hl1 (frame_encodable_decodable _ He1) Hst) as (r' & Hrd & Hst').
  set (n1 := mkNet r' (netWrite n) (netSent n)) in *.
  destruct (net_write (ev2 v) f2 n1 counts more Hl2 He2 Hw Hc) as (w' & Hwr & _).
  unfold performHandshake. rewrite HR. sm_run. rewrite sm_bind_run, Hrd, Hv1. sm_run.
  change (frPayload f1) with w1. rewrite (xs_read1 script). sm_run.
  rewrite (xs_write2 script). sm_run. rewrite Hnf. sm_run. rewrite sm_bind_run, Hwr.
  lazymatch goal with |- netSent (?m ?n2).1 = _ => assert (keeps netSent m) as Hk; [|by rewrite Hk] end.
  pose proof net_ReadFrame_keeps. keeps_run.
Qed.

Lemma server_run v config random now n counts more rest :
  view_open v → NewResponderHandshake (svStaticKey config) [] random = Ok hR →
  (svAllowedClients config = [] ∨ skPublic sI ∈ svAllowedClients config) → zlen (skPublic sI) = 32 →
  wrCounts (netWrite n) = counts ++ more → chunking counts 136 →
  stream_of (netRead n) = frame_layout f1 ++ frame_layout f3 ++ rest →
  ∃ n', stream_of (netRead n') = rest ∧
    performHandshake v config random now n =
      (n', s ← NewSessionFromHandshake (svCipherSuite config) resR now; Ok (s, resR)).
Proof.
  intros (Hl1 & Hl2 & Hl3) HR Hall Hp Hw Hc Hst.
  destruct script_frames as ((He1 & He2 & He3) & Hz1 & Hz2 & _ & Hv1 & _ & Hv3 & Hnf). rewrite <- Hz2 in Hc.
  destruct (net_read (ev1 v) f1 n (frame_layout f3 ++ rest) Hl1 (frame_encodable_decodable _ He1) Hst) as (r' & Hrd & Hst').
  set (n1 := mkNet r' (netWrite n) (netSent n)) in *.
  destruct (net_write (ev2 v) f2 n1 counts more Hl2 He2 Hw Hc) as (w' & Hwr & _).
  set (n2 := mkNet (netRead n1) w' (netSent n1 ++ frame_layout f2)) in *.
  destruct (net_read (ev3 v) f3 n2 rest Hl3 (frame_encodable_decodable _ He3) Hst') as (r'' & Hrd3 & Hst3).
  eexists. split; [|unfold performHandshake; rewrite HR; sm_run; rewrite sm_bind_run, Hrd, Hv1; sm_run;
    change (frPayload f1) with w1; rewrite (xs_read1 script); sm_run;
    rewrite (xs_write2 script); sm_run; rewrite Hnf; sm_run;
    rewrite sm_bind_run, Hwr, sm_bind_run, Hrd3, Hv3; sm_run;
    change (frPayload f3) with w3; rewrite (xs_read3 script); sm_run;
    rewrite (xs_complete script), (xs_resR script);
    cbn [negb]; sm_run].
  2: { destruct (xs_peers script) as [_ ->]. rewrite isClientAllowed_spec by done.
       assert ((0 <? zlen (svAllowedClients config)) && negb (bool_decide (skPublic sI ∈ svAllowedClients config)) = false) as ->.
       { destruct Hall as [->|Hin]; [done|]. rewrite bool_decide_eq_true_2 by done. apply andb_false_r. }
       rewrite sm_bind_run. unfold sm_lift. by destruct (NewSessionFromHandshake _ _ _). }
  exact Hst3.
Qed.
End two_sides.

Lemma normalizeClientConfig_keys {N : Noise} config config' :
  normalizeClientConfig config = Ok config' →
  clStaticKey config' = clStaticKey config ∧ clServerStatic config' = clServerStatic config ∧
  zlen (clServerStatic config) = 32.
Proof.
  unfold normalizeClientConfig. intros Hn. apply bind_Ok in Hn as ([] & _ & Hn).
  destruct (negb (_ =? _) || _) eqn:Hl; [done|]. apply orb_false_iff in Hl as [Hl%negb_false_iff%Z.eqb_eq _].
  cbv zeta in Hn. destruct (_ || _); [done|]. apply bind_Ok in Hn as (c & _ & Hn).
  destruct (_ <? _); [done|]. destruct (_ && _); [done|]. by injection Hn as <-.
Qed.

Lemma sessions_crossed {aead : AEAD} {laws : AEADLaws} nowC nowS sid k1 k2 :
  zlen sid = 16 → zlen k1 = KeySize → zlen k2 = KeySize →
  (NewSession CipherChaCha20Poly1305 (mkHandshakeSecrets sid k1 k2) nowC = Err ErrInvalidSessionID ∧
   NewSession CipherChaCha20Poly1305 (mkHandshakeSecrets sid k2 k1) nowS = Err ErrInvalidSessionID) ∨
  ∃ sC sS, NewSession CipherChaCha20Poly1305 (mkHandshakeSecrets sid k1 k2) nowC = Ok sC ∧
    NewSession CipherChaCha20Poly1305 (mkHandshakeSecrets sid k2 k1) nowS = Ok sS ∧ in_sync sC sS ∧ in_sync sS sC.
Proof.
  intros Hid H1 H2. destruct (NewCodec_Ok k1 H1) as [cd1 E1]. destruct (NewCodec_Ok k2 H2) as [cd2 E2].
  destruct (decide (sid = zero16)) as [->|Hz]; [by left|right].
  assert (∀ ka kb ca cb now, NewCodec CipherChaCha20Poly1305 ka = Ok ca → NewCodec CipherChaCha20Poly1305 kb = Ok cb →
    ∃ s, NewSession CipherChaCha20Poly1305 (mkHandshakeSecrets sid ka kb) now = Ok s) as Hnew.
  { intros ka kb ca cb now Ha Hb. unfold NewSession. cbn [hsSessionID hsSendKey hsReceiveKey].
    rewrite Z.eqb_refl, bool_decide_eq_false_2, Ha, Hb by done. by eexists. }
  destruct (Hnew k1 k2 cd1 cd2 nowC E1 E2) as [sC HC]. destruct (Hnew k2 k1 cd2 cd1 nowS E2 E1) as [sS HS].
  exists sC, sS. destruct (NewSession_sync _ _ _ _ _ _ _ _ Hid HC HS). done.
Qed.

Lemma dialContext_ends {N : Noise} {aead : AEAD} v config dial random now :
  match dialContext v config dial random now with
  | (raw, closes, Ok (session, cc, info)) =>
      is_Some raw ∧ closes = 0%nat ∧ aiPeerStatic info = clServerStatic config ∧
      sessSessionID session = aiSessionID info ∧ zlen (aiSessionID info) = 16 ∧ sessClosed session = false ∧
      zlen (sSendKey (sessSend session)) = KeySize ∧ zlen (rReceiveKey (sessReceive session)) = KeySize
  | (raw, closes, _) => closes = match raw with Some _ => 1%nat | None => 0%nat end
  end.
Proof.
  unfold dialContext. destruct (dvCtx v) as [ctxErr|]; [|done].
  destruct (normalizeClientConfig config) as [config'|e|] eqn:Hn; [|done..].
  destruct (normalizeClientConfig_keys _ _ Hn) as (_ & Hs & Hz).
  destruct ctxErr; [done|]. destruct dial as [[raw|] [err|]]; [done| |done..].
  destruct (establishClient _ _ _ raw) as [raw' [result|e|]] eqn:He; [|done..].
  destruct (establishClient_pinned _ _ _ _ _ _ He) as (h & Hp & Hid & Hk1 & Hk2 & _ & Hpin).
  destruct (NewSessionFromHandshake _ _ _) as [session|e|] eqn:Hns; [|done..]. destruct (dvFinal v); [done|].
  apply NewSession_inv in Hns as (_ & _ & Hsid & _ & Hcl & cs & cr & _ & _ & Hsend & Hrecv); [|done].
  cbn [aiPeerStatic aiSessionID]. rewrite Hsend, Hrecv. split; [by eexists|]. split; [done|]. split; [|done].
  destruct Hpin as [Hpin|Hpin]; [|congruence]. rewrite Hp, Hs in Hpin. by rewrite Hpin in Hz.
Qed.

(** ** Properties *)

(** A connection from dialContext has the pinned server's key as its peer, a 16-byte session
    identifier, 32-byte traffic keys and an open socket; on every failure the socket acquired,
    if any, has been closed exactly once. *)
Theorem dial_pinned {N : Noise} {aead : AEAD} v config dial random now :
  match dialContext v config dial random now with
  | (_, closes, Ok (session, cc, info)) =>
      closes = 0%nat ∧ aiPeerStatic info = clServerStatic config ∧
      sessSessionID session = aiSessionID info ∧ zlen (aiSessionID info) = 16 ∧ sessClosed session = false ∧
      zlen (sSendKey (sessSend session)) = KeySize ∧ zlen (rReceiveKey (sessReceive session)) = KeySize
  | (raw, closes, _) => closes = match raw with Some _ => 1%nat | None => 0%nat end
  end.
Proof.
  pose proof (dialContext_ends v config dial random now) as H.
  destruct (dialContext v config dial random now) as [[raw closes] [[[session cc] info]|e|]]; [apply H|exact H..].
Qed.

(** C24: performHandshake succeeds only for a client whose 32-byte static key is on the allow
    list, when there is one, with a session of that handshake under the configured suite. *)
Theorem server_admits_allowed {N : Noise} {aead : AEAD} v config random now n n' session result :
  performHandshake v config random now n = (n', Ok (session, result)) →
  (svAllowedClients config = [] ∨ hrPeerStatic result ∈ svAllowedClients config) ∧
  zlen (hrPeerStatic result) = 32 ∧ sessSessionID session = hrSessionID result ∧
  svCipherSuite config = CipherChaCha20Poly1305 ∧ sessClosed session = false.
Proof.
  intros (Hall & Hs & Hp & Hid)%performHandshake_allowed. split; [done|]. split; [done|].
  by apply NewSession_inv in Hs as (? & _ & ? & _ & ? & _).
Qed.

(** C9: dialContext and performHandshake run against each other's octets, with any partial
    writes and segmentation, consume exactly each other's flights and give sessions in step with
    the right peer keys on both sides, or both report the zero session identifier. *)
Theorem establishment_agrees {N : Noise} {L : NoiseLaws} {aead : AEAD} {laws : AEADLaws}
    v config config' vS cS hI hR rI rR nowC nowS nC nS c1 c2 c3 moreC moreS restC restS :
  normalizeClientConfig config = Ok config' → clServerStatic config = skPublic (svStaticKey cS) →
  zlen (skPublic (clStaticKey config)) = 32 → svCipherSuite cS = CipherChaCha20Poly1305 →
  svAllowedClients cS = [] ∨ skPublic (clStaticKey config) ∈ svAllowedClients cS →
  32 ≤ zlen rI → 32 ≤ zlen rR →
  NewInitiatorHandshake (clStaticKey config) (clServerStatic config) rI = Ok hI →
  NewResponderHandshake (svStaticKey cS) [] rR = Ok hR →
  dvCtx v = Some None → dvFinal v = None → view_open (dvEstablish v) → view_open vS →
  wrCounts (netWrite nC) = c1 ++ c3 ++ moreC → chunking c1 76 → chunking c3 104 →
  wrCounts (netWrite nS) = c2 ++ moreS → chunking c2 136 → netSent nC = [] → netSent nS = [] →
  let '(rawC, closes, oC) := dialContext v config (Some nC, None) rI nowC in
  let '(nS', oS) := performHandshake vS cS rR nowS nS in
  ∀ nC', rawC = Some nC' →
    stream_of (netRead nC) = netSent nS' ++ restC → stream_of (netRead nS) = netSent nC' ++ restS →
    stream_of (netRead nC') = restC ∧ stream_of (netRead nS') = restS ∧
    ((oC = Err ErrInvalidSessionID ∧ oS = Err ErrInvalidSessionID) ∨
     ∃ sC sS info resS, oC = Ok (sC, NewConnection_config (clConnection config'), info) ∧ oS = Ok (sS, resS) ∧
       closes = 0%nat ∧ in_sync sC sS ∧ in_sync sS sC ∧
       aiPeerStatic info = skPublic (svStaticKey cS) ∧ hrPeerStatic resS = skPublic (clStaticKey config)).
Proof.
  intros Hnorm Hpin HpI Hsuite Hall HrI HrR HI HR Hctx Hfin Hv HvS HwC Hc1 Hc3 HwS Hc2 HsC HsS.
  destruct (normalizeClientConfig_keys _ _ Hnorm) as (Ek & Ep & Hz).
  rewrite <- Ek, <- Ep in HI. rewrite Hpin in Hz.
  destruct (xx_run (clStaticKey config) (svStaticKey cS) (clServerStatic config') rI rR hI hR HpI Hz HrI HrR)
    as (w1 & w2 & w3 & hI1 & hI2 & hI3 & hR1 & hR2 & hR3 & resI & resR & script); [congruence|by rewrite <- Ek|done|].
  assert (dialContext v config (Some nC, None) rI nowC =
    (let '(n, o) := establishClient (dvEstablish v) config' rI nC in
     let o' := (r ← o; s ← NewSessionFromHandshake CipherChaCha20Poly1305 r nowC;
                Ok (s, NewConnection_config (clConnection config'), mkAdmissionInfo (hrPeerStatic r) (hrSessionID r))) in
     (Some n, match o' with Ok _ => 0%nat | _ => 1%nat end, o'))) as ->.
  { unfold dialContext. rewrite Hctx, Hnorm, Hfin. destruct (establishClient _ _ _ nC) as [n [r|e|]]; [|done..].
    cbv zeta. rewrite bind_Ok_l. by destruct (NewSessionFromHandshake _ _ _). }
  destruct (client_first _ _ _ _ _ _ _ _ _ _ _ _ _ _ _ script (dvEstablish v) config' rI nC c1 (c3 ++ moreC) Hv HI HwC Hc1)
    as [x Hx]. rewrite HsC in Hx. cbn [app] in Hx.
  destruct (establishClient (dvEstablish v) config' rI nC) as [nC1 oe] eqn:Hest. cbn [fst] in Hx.
  destruct (performHandshake vS cS rR nowS nS) as [nS' oS] eqn:Hperf. cbv zeta.
  intros nC' [= <-] HstC HstS. rewrite Hx, <- app_assoc in HstS.
  pose proof (server_first _ _ _ _ _ _ _ _ _ _ _ _ _ _ _ script vS cS rR nowS nS c2 moreS _ HvS HR HwS Hc2 HstS) as Hsent.
  rewrite Hperf, HsS in Hsent. cbn [fst app] in Hsent. rewrite Hsent in HstC.
  destruct (client_run _ _ _ _ _ _ _ _ _ _ _ _ _ _ _ script (dvEstablish v) config' rI nC c1 c3 moreC restC Hv HI HwC Hc1 Hc3 HstC)
    as (n' & Hrun & HrestC & HsentC). rewrite Hest in Hrun. injection Hrun as -> ->.
  rewrite HsC in HsentC. cbn [app] in HsentC. rewrite HsentC in Hx. apply app_inv_head in Hx as <-.
  destruct (server_run _ _ _ _ _ _ _ _ _ _ _ _ _ _ _ script vS cS rR nowS nS c2 moreS restS HvS HR Hall HpI HwS Hc2 HstS)
    as (nS1 & HrestS & Hserver). rewrite Hperf in Hserver. injection Hserver as -> ->.
  split; [done|]. split; [done|]. rewrite bind_Ok_l. unfold NewSessionFromHandshake.
  rewrite (xs_secrets script), Hsuite. destruct (xs_peers script) as [PI PR].
  destruct (xs_okI script) as (Hid & Hk1 & Hk2 & _).
  destruct (sessions_crossed nowC nowS (hrSessionID resI) (hrSendKey resI) (hrReceiveKey resI) Hid Hk1 Hk2)
    as [[E1 E2]|(sC & sS & E1 & E2 & Hs1 & Hs2)]; unfold HandshakeResult_Secrets; rewrite E1, E2; [by left|right].
  eexists sC, sS, _, resR. by split_and!.
Qed.

(** ** Witnesses *)

Definition ex_client_config : ClientConfig := mkClientConfig (ex_static 7) (replicate 32 (to_byte 9)) ex_conn_config.
Definition ex_client_config' : ClientConfig :=
  mkClientConfig (ex_static 7) (replicate 32 (to_byte 9)) (effective ex_conn_config).
Definition ex_server_config : ServerConfig :=
  mkServerConfig (ex_static 9) [replicate 32 (to_byte 3); replicate 32 (to_byte 7)] CipherChaCha20Poly1305
    (NewConnection_config ex_conn_config) 64 5 false false.
Definition ex_view : EstablishView := mkEstablishView ctxLive ctxLive ctxLive None.
Definition ex_dial_view : DialView := mkDialView (Some None) ctxLive ex_view None.

(** The flights of the two handshakes and their frames. *)
Definition flight_of {S} (x : S * outcome (list byte)) : list byte := match x.2 with Ok w => w | _ => [] end.
Definition ex_w1 : list byte := Eval vm_compute in flight_of (Handshake_WriteFlight ex_initiator).
Definition ex_w2 : list byte :=
  Eval vm_compute in flight_of (Handshake_WriteFlight (Handshake_ReadFlight ex_w1 ex_responder).1).
Definition ex_w3 : list byte :=
  Eval vm_compute in
    flight_of (Handshake_WriteFlight (Handshake_ReadFlight ex_w2 (Handshake_WriteFlight ex_initiator).1).1).
Definition ex_sent1 : list byte := Eval vm_compute in frame_layout (handshake_frame MessageTypeHandshakeInit ex_w1).
Definition ex_sent2 : list byte := Eval vm_compute in frame_layout (handshake_frame MessageTypeHandshakeResponse ex_w2).
Definition ex_sent3 : list byte := Eval vm_compute in frame_layout (handshake_frame MessageTypeHandshakeResponse ex_w3).

Definition ex_net_client : Net :=
  mkNet (mkReadSide [take 50 ex_sent2; drop 50 ex_sent2] (NetError EOF)) (mkWriteSide [76; 100; 4] 0 NetErrClosed) [].
Definition ex_net_server : Net :=
  mkNet (mkReadSide [ex_sent1 ++ ex_sent3] (NetError EOF)) (mkWriteSide [1; 135] 0 NetErrClosed) [].

Local Abbreviation ex_dial :=
  (@dialContext toy_noise mac_aead ex_dial_view ex_client_config (Some ex_net_client, None) (make_bytes 32) 0).
Local Abbreviation ex_serve :=
  (@performHandshake toy_noise mac_aead ex_view ex_server_config (make_bytes 40) 0 ex_net_server).

Lemma ex_serve_runs : is_ok ex_serve.2 = true ∧ netSent ex_serve.1 = ex_sent2.
Proof. vm_compute. split; reflexivity. Qed.

Lemma ex_dial_runs : netSent <$> ex_dial.1.1 = Some (ex_sent1 ++ ex_sent3).
Proof. vm_compute. reflexivity. Qed.

Lemma server_admits_allowed_witness :
  ∃ session result, ex_serve.2 = Ok (session, result) ∧ hrPeerStatic result ∈ svAllowedClients ex_server_config.
Proof.
  pose proof (proj1 ex_serve_runs) as Hok.
  destruct (performHandshake _ _ _ _ _) as [n' [[session result]|e|]] eqn:E; [|discriminate Hok..].
  exists session, result. split; [reflexivity|].
  destruct (proj1 (@server_admits_allowed toy_noise mac_aead ex_view ex_server_config (make_bytes 40) 0 ex_net_server n'
    session result E)) as [Hn|Hin]; [discriminate Hn|exact Hin].
Defined.

Lemma establishment_agrees_witness :
  ∃ sC sS cc info resS, ex_dial.2 = Ok (sC, cc, info) ∧ ex_serve.2 = Ok (sS, resS) ∧ ex_dial.1.2 = 0%nat ∧
    @in_sync mac_aead sC sS ∧ @in_sync mac_aead sS sC.
Proof.
  pose proof (@establishment_agrees toy_noise toy_noise_laws mac_aead mac_aead_laws ex_dial_view ex_client_config
    ex_client_config' ex_view ex_server_config ex_initiator ex_responder (make_bytes 32) (make_bytes 40) 0 0
    ex_net_client ex_net_server [76] [1; 135] [100; 4] [] [] [] [] eq_refl eq_refl eq_refl eq_refl
    ltac:(right; decide_closed) ltac:(decide_closed) ltac:(decide_closed) eq_refl eq_refl eq_refl eq_refl
    ltac:(done) ltac:(done) eq_refl ltac:(by repeat constructor) ltac:(by repeat constructor) eq_refl
    ltac:(by repeat constructor) eq_refl eq_refl) as Hx.
  destruct ex_serve_runs as [Hok Hs]. pose proof ex_dial_runs as Hd.
  destruct (dialContext _ _ _ _ _) as [[[nC'|] closes] oC]; [|discriminate Hd].
  destruct (performHandshake _ _ _ _ _) as [nS' oS]. cbn [fst snd fmap option_fmap option_map] in Hd, Hok, Hs |- *.
  injection Hd as Hd. destruct (Hx nC' eq_refl) as (_ & _ & [[_ ->]|(sC & sS & info & resS & -> & -> & -> & H1 & H2 & _)]).
  - by rewrite Hs.
  - by rewrite Hd.
  - discriminate Hok.
  - by eexists sC, sS, _, info, resS.
Defined.
