(* ===== verification/ClientStart.v ===== *)
(** * client_start.go: dialling and starting in one call

    DialAndStartContext joins the two halves of the client: dialContext of
    Establish.v, which gives a stopped connection, and the runtime of
    Connection.v.  The runtime context is call context 0 of the system and the call
    runs in the thread [caller].  Close on the still stopped connection runs alone
    ([call_alone]): nobody else has it.  Start does not: from its first step to the
    return of DialAndStartContext the runtime context may be cancelled, and once
    the goroutines exist they and the calls of the handler run as well; [rvRace] is
    that schedule, and the theorem holds for all of them. *)

From stdpp Require Import gmap.
From S2P Require Import Prelude Wire Header Frame Tlv Utf8 Messages Replay Sha256 Crypto Rekey Session.
From S2P Require Import SessionSend SessionReceive SessionPair Transport ConnectionIO Handshake Config.
From S2P Require Import Connection ConnectionSteps ConnectionSafety ConnectionSpec ConnectionLive ConnectionCalls Establish.

Local Open Scope Z_scope.

Definition caller : nat := 6.

(** Runs one thread until its call has returned; an emptied queue ends failPending. *)
Fixpoint run_alone (conf : ConnectionConfig) (fuel i : nat) (s : Sys) : option Sys :=
  match sysThr s i with
  | [] => Some s
  | _ => match fuel with O => None | S fuel => s ← sys_step conf (LRun i (CCase 3)) s; run_alone conf fuel i s end
  end.

Definition call_alone (conf : ConnectionConfig) (op : Op) (s : Sys) : option Sys :=
  s ← sys_step conf (LCall caller op) s; run_alone conf 32 caller s.

(** What the runtime context reports before dialling and after it, and the steps
    from Start to the return. *)
Record RuntimeView := mkRuntimeView { rvBefore : option error; rvAfter : option error; rvRace : list Label }.

(** A stopped connection under a runtime context that reports [e]. *)
Definition with_runtime (e : error) : Sys := mkSys NewConnection (upd 0%nat (Some e) (λ _, None)) (λ _, []).

(** Only a running connection is known to anyone but the caller: to its handler. *)
Definition race_label (l : Label) (s : Sys) : bool :=
  match l with
  | LCall i _ =>
      negb (bool_decide (i = caller)) && lfStarted (sysConn s) && bool_decide (syStart (sysConn s) = Finished)
  | _ => true
  end.

Fixpoint race_run (conf : ConnectionConfig) (race : list Label) (s : Sys) : option Sys :=
  match race with
  | [] => Some s
  | l :: race => if race_label l s then s ← sys_step conf l s; race_run conf race s else None
  end.

(** Start under a schedule; [None] when it is none, or Start has not returned by its end. *)
Definition start_race (conf : ConnectionConfig) (race : list Label) : option Sys :=
  s ← sys_step conf (LCall caller (OpStart 0)) sys_init;
  s ← race_run conf race s;
  if bool_decide (sysThr s caller = []) then Some s else None.

Definition transport_closes (s : option Sys) : nat :=
  match s with Some s => if lfTransport (sysConn s) then 1 else 0 | None => 0 end.

Section client_start.
Context {N : Noise} {aead : AEAD}.

Definition DialContext (v : DialView) (config : ClientConfig) (dial : option Net * option ConnError)
    (random : list byte) (now : Z) : option Net * nat * outcome (Session * ConnectionConfig * AdmissionInfo) :=
  dialContext v config dial random now.

(** The socket, how often it was closed, and the connection with its runtime. *)
Definition DialAndStartContext (v : DialView) (runtimeCtx : option RuntimeView) (config : ClientConfig)
    (dial : option Net * option ConnError) (random : list byte) (now : Z)
    : option Net * nat * outcome (Session * ConnectionConfig * option Sys * AdmissionInfo) :=
  match dvCtx v, runtimeCtx with
  | None, _ | _, None => (None, 0%nat, Err ErrInvalidClientConfig)
  | Some _, Some rt =>
  match rvBefore rt with
  | Some e => (None, 0%nat, Err e)
  | None =>
  match DialContext v config dial random now with
  | (raw, closes, Err e) => (raw, closes, Err e)
  | (raw, closes, Panic) => (raw, closes, Panic)
  | (raw, closes, Ok (session, conf, info)) =>
  match rvAfter rt with
  | Some e => (raw, (closes + transport_closes (call_alone conf OpClose (with_runtime e)))%nat, Err e)
  | None =>
      let s := start_race conf (rvRace rt) in
      (raw, (closes + transport_closes s)%nat, Ok (session, conf, s, info))
  end end end end.
End client_start.

(** ** Facts *)

(** Close on a stopped connection returns, and has closed the transport. *)
Lemma close_stopped conf e : transport_closes (call_alone conf OpClose (with_runtime e)) = 1%nat.
Proof. reflexivity. Qed.

Section race.
Context (conf : ConnectionConfig).

(** The transport is closed by the last step of shutdown. *)
Lemma frame_step_transport env i joined c fr cn cn' frs :
  frame_step conf env i joined c fr cn = Some (cn', frs) →
  lfTransport cn' = true → lfTransport cn = true ∨ syShutdown cn' = Finished.
Proof. intros H. step_cases H; cbn; auto. Qed.

Lemma transport_shutdown s : reachable conf s → lfTransport (sysConn s) = true → syShutdown (sysConn s) = Finished.
Proof.
  unfold reachable. revert s.
  apply (rtc_ind_r (R := sys_any_step conf) (λ s, lfTransport (sysConn s) = true → syShutdown (sysConn s) = Finished)); [done|].
  intros s s' Hr [l Hl] IH Ht. pose proof (sys_step_le _ _ _ _ (sys_inv_reach _ _ Hr) Hl) as Hle.
  assert (lfTransport (sysConn s) = true ∨ syShutdown (sysConn s') = Finished) as [?|?]; [|by apply (le_shutdown _ _ Hle), IH|done].
  destruct l as [i c|i op|x e]; cbn in Hl.
  - apply thread_step_cases in Hl as [r _ ->|r ca rest frs _ _ ->|x rest _ ->|fr rest cn frs _ Hf ->]; [by left..|].
    by eapply frame_step_transport.
  - repeat case_bool_decide; try discriminate. injection Hl as <-. by left.
  - destruct (sysEnv s x); [done|]. injection Hl as <-. by left.
Qed.

(** A connection without a terminal cause has its transport open. *)
Lemma transport_cause s : reachable conf s → lfTransport (sysConn s) = true → lfTerminal (sysConn s) ≠ None.
Proof.
  intros Hr Ht. destruct (sys_inv_reach _ _ Hr) as [Hc _].
  by destruct (go_finished _ (ci_glob _ _ _ Hc) (transport_shutdown _ Hr Ht)) as [[? _] _].
Qed.

(** Where Start is; until the goroutines exist the caller is alone. *)
Definition alone (s : Sys) (st : list Frm) : Prop := sysThr s caller = st ∧ ∀ j, j ≠ caller → sysThr s j = [].

Inductive start_phase (s : Sys) : Prop :=
  | ph_once : alone s [FStart (StOnce 0)] → sysConn s = NewConnection → start_phase s
  | ph_check : alone s [FStart (StCheck 0)] → lfStarted (sysConn s) = false → lfTerminal (sysConn s) = None → start_phase s
  | ph_spawn : alone s [FStart (StSpawn 0)] → lfStarted (sysConn s) = true → start_phase s
  | ph_record e :
      alone s [shut_with e; FStart StDone] → lfStarted (sysConn s) = false → lfTerminal (sysConn s) = None →
      sysEnv s 0%nat = Some e → start_phase s
  | ph_shut e st :
      alone s st → (∃ pc, st = [FShut pc; FStart StDone]) ∨ st = [FStart StDone] ∨ st = [] ∧ syStart (sysConn s) = Finished →
      lfStarted (sysConn s) = false → lfTerminal (sysConn s) = Some e → sysEnv s 0%nat = Some e → start_phase s
  | ph_running :
      sysThr s caller = [] → lfStarted (sysConn s) = true → syStart (sysConn s) = Finished → start_phase s.

Lemma alone_upd cn env s st st' : alone s st → alone (mkSys cn env (upd caller st' (sysThr s))) st'.
Proof. intros [_ Ho]. split; cbn; [apply upd_same|]. intros j Hj. rewrite upd_other by done. by apply Ho. Qed.

Lemma frame_step_shut env i joined c pc cn cn' frs :
  frame_step conf env i joined c (FShut pc) cn = Some (cn', frs) →
  lfStarted cn' = lfStarted cn ∧ (frs = [] ∨ ∃ pc', frs = [FShut pc']).
Proof. intros H. step_cases H; eauto. Qed.

(** A step of the thread the phase speaks of. *)
Lemma start_phase_caller c s s' :
  reachable conf s → start_phase s → thread_step conf caller c s = Some s' → start_phase s'.
Proof.
  intros Hr Hph Hstep. pose proof (sys_inv_reach _ _ Hr) as Hinv.
  pose proof (sys_step_le conf (LRun caller c) s s' Hinv Hstep) as Hle. unfold thread_step in Hstep.
  destruct Hph as [Ha Hcn|Ha Hs Ht|Ha Hs|e Ha Hs Ht He|e st Ha Hst Hs Ht He|Hthr Hs Hf]; [..|by rewrite Hthr in Hstep];
    rewrite (proj1 Ha) in Hstep.
  - cbn in Hstep. rewrite Hcn in Hstep. injection Hstep as <-. by apply ph_check; [eapply alone_upd|..].
  - cbn in Hstep. destruct (sysEnv s 0%nat) as [e|] eqn:He; injection Hstep as <-;
      [by eapply ph_record; [eapply alone_upd|..]|by apply ph_spawn; [eapply alone_upd|]].
  - injection Hstep as <-. apply ph_running; [apply upd_same|done|done].
  - cbn in Hstep. injection Hstep as <-. unfold recordTerminal. rewrite Ht.
    eapply ph_shut; [by eapply alone_upd|left; eauto|done..].
  - assert (lfTerminal (sysConn s') = Some e) as Ht' by by apply (le_terminal _ _ Hle).
    destruct Hst as [[pc ->]|[->|[-> _]]]; [| |done].
    + destruct (frame_step _ _ _ _ _ _ _) as [[cn frs]|] eqn:Hfr; [|done]. injection Hstep as <-.
      apply frame_step_shut in Hfr as [Hs' Hfrs]. eapply ph_shut; [by eapply alone_upd| |by rewrite <- Hs|done|done].
      destruct Hfrs as [->|[pc' ->]]; [by right; left|left; by exists pc'].
    + cbn in Hstep. assert (lfDone (sysConn s) = false) as Hd.
      { apply (st_before _ _ (proj2 Hinv)).
        assert (held RStart (sysConn s) caller = true) as Hh%bool_decide_eq_true by
          (eapply core_owner; [apply Hinv|rewrite (proj1 Ha); by left|done]).
        by rewrite Hh. }
      unfold close_done in Hstep. cbn in Hstep. rewrite Hd in Hstep. injection Hstep as <-.
      eapply ph_shut; [by eapply alone_upd|by right; right|done..].
Qed.

Lemma start_phase_step l s s' :
  reachable conf s → start_phase s → race_label l s = true → sys_step conf l s = Some s' → start_phase s'.
Proof.
  intros Hr Hph Hl Hstep. pose proof (sys_step_le conf l s s' (sys_inv_reach _ _ Hr) Hstep) as Hle.
  assert (sysThr s caller = [] → lfStarted (sysConn s) = true → syStart (sysConn s) = Finished →
    sysThr s' caller = [] → start_phase s') as Hrun.
  { intros _ Hs Hf Hc. apply ph_running; [done|by apply (le_started _ _ Hle)|by apply (le_start _ _ Hle)]. }
  destruct l as [i c|i op|x e].
  - destruct (decide (i = caller)) as [->|Hi]; [by eapply start_phase_caller|]. cbn in Hstep.
    assert (sysThr s' caller = sysThr s caller ∧ sysThr s i ≠ []) as [Hc Hne].
    { apply thread_step_cases in Hstep as [r Hthr ->|r ca rest frs Hthr _ ->|x rest Hthr ->|fr rest cn frs Hthr Hf ->];
        (split; [cbn; rewrite upd_other by done|by rewrite Hthr]); try done. }
    destruct Hph as [[_ Ho] _|[_ Ho] _ _|[_ Ho] _|e [_ Ho] _ _ _|e st [_ Ho] _ _ _ _|Hthr Hs Hf]; [by destruct Hne; apply Ho..|].
    apply Hrun; congruence.
  - cbn in Hl, Hstep. apply andb_true_iff in Hl as [[Hi Hs]%andb_true_iff Hf%bool_decide_eq_true].
    apply negb_true_iff, bool_decide_eq_false in Hi. repeat case_bool_decide; try discriminate. injection Hstep as <-.
    assert (sysThr s caller = []) as Hc.
    { destruct Hph as [_ Hcn|[Hc _] Hs' _|[Hc _] _|e _ Hs' _ _|e st _ _ Hs' _ _|Hthr _ _]; try congruence.
      - by rewrite Hcn in Hs.
      - assert (held RStart (sysConn s) caller = true) as Hh%bool_decide_eq_true by
          (eapply core_owner; [apply (sys_inv_reach _ _ Hr)|rewrite Hc; by left|done]). congruence. }
    apply Hrun; [done..|]. cbn. by rewrite upd_other.
  - cbn in Hstep. destruct (sysEnv s x) eqn:Hx; [done|]. injection Hstep as <-.
    assert (∀ e', sysEnv s 0%nat = Some e' → upd x (Some e) (sysEnv s) 0%nat = Some e') as He.
    { intros e' He'. rewrite upd_other; [done|]. intros <-. congruence. }
    destruct Hph; [by apply ph_once|by apply ph_check|by apply ph_spawn|eapply ph_record; eauto|eapply ph_shut; eauto|by apply ph_running].
Qed.

Definition start_called : Sys := mkSys NewConnection (λ _, None) (upd caller [FStart (StOnce 0)] (λ _, [])).

Lemma race_run_phase race : ∀ s s',
  reachable conf s → start_phase s → race_run conf race s = Some s' → reachable conf s' ∧ start_phase s'.
Proof.
  induction race as [|l race IH]; intros s s' Hr Hph; cbn [race_run]; [by intros [= <-]|].
  destruct (race_label l s) eqn:Hl; [|done]. intros (s1 & Hs & Hrun)%bind_Some.
  apply (IH s1); [|by eapply start_phase_step|done]. unfold reachable in *. eapply rtc_r; [done|by exists l].
Qed.

Lemma start_called_ok : reachable conf start_called ∧ start_phase start_called.
Proof.
  split; [by apply (run_reachable conf [LCall caller (OpStart 0)])|]. apply ph_once; [|done]. split; [done|].
  intros j Hj. cbn. by rewrite upd_other.
Qed.

(** How DialAndStartContext may return its connection. *)
Definition start_outcome (closes : nat) (s : Sys) : Prop :=
  reachable conf s ∧ sysThr s caller = [] ∧
  if lfStarted (sysConn s) then
    (Connection_Done (sysConn s) = true → drained s ∧ Connection_Err (sysConn s) ≠ None ∧ closes = 1%nat) ∧
    (Connection_Done (sysConn s) = false → ∃ pc, FJoin pc ∈ sysThr s joiner) ∧
    (Connection_Err (sysConn s) = None → Connection_Done (sysConn s) = false ∧ closes = 0%nat)
  else ∃ e, sysEnv s 0%nat = Some e ∧ Connection_Err (sysConn s) = Some e ∧ drained s ∧ closes = 1%nat.

Lemma jcnt_joins st : jcnt st = 1%nat → ∃ pc, FJoin pc ∈ st.
Proof.
  induction st as [|fr st IH]; [done|]. cbn [jcnt]. destruct (join_frame fr) eqn:Hj.
  - intros _. destruct fr; try discriminate Hj. eexists. by left.
  - intros [pc Hpc]%IH. exists pc. by right.
Qed.

Lemma drained_closes s : drained s → transport_closes (Some s) = 1%nat.
Proof. intros (_ & _ & _ & _ & _ & Ht & _). cbn. by rewrite Ht. Qed.

Lemma start_race_outcome race s : start_race conf race = Some s → start_outcome (transport_closes (Some s)) s.
Proof.
  unfold start_race. intros (s0 & [= <-] & (s1 & Hrun & Hs)%bind_Some)%bind_Some. case_bool_decide as Hc; [|done].
  injection Hs as ->. destruct start_called_ok as [Hr Hph]. destruct (race_run_phase _ _ _ Hr Hph Hrun) as [Hr1 Hph1].
  split; [done|]. split; [done|]. destruct (sys_inv_reach _ _ Hr1) as [_ Hst].
  destruct Hph1 as [[Hc' _] _|[Hc' _] _ _|[Hc' _] _|e [Hc' _] _ _ _|e st [Hc' _] Hcase Hs Ht He|_ Hs Hf]; try congruence.
  - rewrite Hs. assert (syStart (sysConn s) = Finished) as Hf by (destruct Hcase as [[? ->]|[->|[_ ?]]]; congruence).
    pose proof (st_done _ _ Hst Hf) as Hd. rewrite Hs in Hd. assert (lfDone (sysConn s) = true) as Hdone by (by destruct (lfDone _)).
    pose proof (done_drained _ _ Hr1 Hdone) as Hdr. exists e. split_and!; try done. by apply drained_closes.
  - rewrite Hs. pose proof (st_done _ _ Hst Hf) as Hd. rewrite Hs in Hd. unfold Connection_Done, Connection_Err. split_and!.
    + intros Hdone. pose proof (done_drained _ _ Hr1 Hdone) as Hdr. split_and!; [done| |by apply drained_closes].
      by destruct (done_disposed _ _ Hr1 Hdone) as [[? _] _].
    + intros Hdone. rewrite Hdone in Hd. by apply jcnt_joins.
    + intros Ht. split.
      * destruct (lfDone (sysConn s)) eqn:Hdone; [|done]. by destruct (done_disposed _ _ Hr1 Hdone) as [[? _] _].
      * cbn. destruct (lfTransport (sysConn s)) eqn:Htr; [|done]. by destruct (transport_cause _ Hr1 Htr).
Qed.
End race.

(** ** Start can return *)

Section progress.
Context (conf : ConnectionConfig).

Lemma race_run_app race more s s' :
  race_run conf race s = Some s' → race_run conf (race ++ more) s = race_run conf more s'.
Proof.
  revert s. induction race as [|l race IH]; intros s; cbn [race_run app]; [by intros [= ->]|].
  destruct (race_label l s); [|done]. by intros (s1 & -> & Hrun%IH)%bind_Some.
Qed.

Lemma quiet_race s s' : rtc (quiet_step conf) s s' → ∃ more, race_run conf more s = Some s'.
Proof.
  induction 1 as [|s s1 s2 (i & c & _ & _ & _ & _ & Hs) _ [more IH]]; [by exists []|].
  exists (LRun i c :: more). cbn [race_run race_label]. by rewrite Hs.
Qed.

Lemma start_phase_scall s : start_phase s → Forall (λ fr, scall fr = true) (sysThr s caller).
Proof.
  intros [[-> _] _|[-> _] _ _|[-> _] _|e [-> _] _ _ _|e st [-> _] Hst _ _ _| -> _ _]; [by repeat constructor..| |constructor].
  destruct Hst as [[pc ->]|[->|[-> _]]]; by repeat constructor.
Qed.

Lemma start_can_return race s :
  race_run conf race start_called = Some s → ∃ more s', start_race conf (race ++ more) = Some s'.
Proof.
  intros Hrun. destruct (start_called_ok conf) as [Hr Hph]. destruct (race_run_phase conf _ _ _ Hr Hph Hrun) as [Hr1 Hph1].
  destruct (call_can_return conf s caller Hr1 (start_phase_scall _ Hph1)) as (s' & [more Hmore]%quiet_race & _ & Hc).
  exists more, s'. unfold start_race. change (sys_step conf (LCall caller (OpStart 0)) sys_init) with (Some start_called).
  cbn [mbind option_bind]. rewrite (race_run_app _ _ _ _ Hrun), Hmore. cbn [mbind option_bind]. by rewrite bool_decide_eq_true_2.
Qed.

(** The schedule in which nothing but Start happens. *)
Definition start_alone : list Label := replicate 3 (LRun caller (CCase 0)).

Lemma ended {A B} (f : A → B) (o : option A) (b : B) : f <$> o = Some b → ∃ a, o = Some a ∧ f a = b.
Proof. destruct o as [a|]; [|done]. intros [= <-]. by exists a. Qed.

Definition fresh_runtime (s : Sys) : Prop :=
  lfDone (sysConn s) = false ∧ lfStarted (sysConn s) = true ∧ lfTerminal (sysConn s) = None ∧
  sysThr s reader = [FRead RdRead] ∧ sysThr s writer = [FWrite WlPoll] ∧
  sysThr s handler = (if ccHandler conf then [FHandler HdPoll] else []).

Lemma start_alone_runs : ∃ s, start_race conf start_alone = Some s ∧ transport_closes (Some s) = 0%nat ∧ fresh_runtime s.
Proof.
  destruct (ended (λ s, (transport_closes (Some s), lfDone (sysConn s), lfStarted (sysConn s), lfTerminal (sysConn s),
    sysThr s reader, sysThr s writer, sysThr s handler)) (start_race conf start_alone) _ eq_refl) as (s & Hs & Hv).
  exists s. split; [exact Hs|]. by injection Hv as ? ? ? ? ? ? ?.
Qed.
End progress.

(** ** Properties *)

(** C36: DialAndStartContext leaves no socket open on failure. On success the peer is the pinned
    one, and however cancellation, goroutines and handler calls race with Start and the return,
    Start can return, and a connection that is Done by then is drained, has its cause and closed
    its socket once. *)
Theorem dial_and_start_exact {N : Noise} {aead : AEAD} v rt config dial random now :
  match DialAndStartContext v rt config dial random now with
  | (raw, closes, Ok (session, conf, s, info)) =>
      aiPeerStatic info = clServerStatic config ∧ sessSessionID session = aiSessionID info ∧
      (∀ s', s = Some s' → start_outcome conf closes s') ∧
      (∀ before after race, rt = Some (mkRuntimeView before after race) →
         (race = start_alone → closes = 0%nat ∧ ∃ s', s = Some s' ∧ fresh_runtime conf s') ∧
         (s = None → ∀ s', race_run conf race start_called = Some s' → sysThr s' caller ≠ []) ∧
         ∀ race' s', race_run conf race' start_called = Some s' →
           ∃ more s'', DialAndStartContext v (Some (mkRuntimeView before after (race' ++ more))) config dial random now =
             (raw, transport_closes (Some s''), Ok (session, conf, Some s'', info)))
  | (raw, closes, _) => closes = match raw with Some _ => 1%nat | None => 0%nat end
  end.
Proof.
  unfold DialAndStartContext, DialContext. destruct (dvCtx v) as [x|]; [|done]. destruct rt as [[before after race]|]; [|done].
  cbn [rvBefore rvAfter rvRace]. destruct before; [done|]. pose proof (dialContext_ends v config dial random now) as Hd.
  destruct (dialContext v config dial random now) as [[raw closes] [[[session conf] info]|e|]]; [|done..].
  destruct Hd as ([n ->] & -> & Hp & Hid & _). destruct after as [e|]; [by rewrite close_stopped|].
  split_and!; [done..| |].
  - intros s' Hs. rewrite Hs. by eapply start_race_outcome.
  - intros before after race0 [= <- <- <-]. cbn [rvBefore rvAfter rvRace]. split_and!.
    + intros ->. destruct (start_alone_runs conf) as (s & -> & Hc & Hf). split; [exact Hc|]. by exists s.
    + unfold start_race. change (sys_step conf (LCall caller (OpStart 0)) sys_init) with (Some start_called).
      cbn [mbind option_bind]. intros Hn s' Hs. rewrite Hs in Hn. cbn [mbind option_bind] in Hn. by case_bool_decide.
    + intros race' s' Hrun. destruct (start_can_return conf race' s' Hrun) as (more & s'' & Hs). exists more, s''. by rewrite Hs.
Qed.

(** ** Witnesses *)

(** The runtime context is cancelled as Start returns, and everything has ended
    before the caller goes on. *)
Definition ex_race : list Label :=
  start_alone ++ [LCancel 0 ErrCanceled] ++
  (LRun watcher <$> [CCase 0] ++ replicate 8 (CCase 3) ++ [CCase 0; CCase 3; CCase 2] ++ replicate 8 (CCase 3) ++ [CCase 2] ++
     replicate 7 (CCase 3)) ++
  (LRun reader <$> [CErr (Some EOF); CCase 3; CCase 3]) ++ (LRun writer <$> [CCase 3; CCase 0; CCase 3; CCase 3]) ++
  (LRun maintenance <$> [CCase 3; CCase 3]) ++ (LRun handler <$> [CCase 3]) ++ (LRun joiner <$> replicate 5 (CCase 3)).

Local Abbreviation ex_dial_start race :=
  (@DialAndStartContext toy_noise mac_aead ex_dial_view (Some (mkRuntimeView None None race)) ex_client_config
    (Some ex_net_client, None) (make_bytes 32) 0).

Definition run_view {aead : AEAD} (x : option Net * nat * outcome (Session * ConnectionConfig * option Sys * AdmissionInfo)) :
    option (nat * bool * option error) :=
  match x with
  | (_, closes, Ok (_, _, Some s, _)) => Some (closes, lfDone (sysConn s), lfTerminal (sysConn s))
  | _ => None
  end.

Lemma ex_alone_runs : run_view (ex_dial_start start_alone) = Some (0%nat, false, None).
Proof. vm_compute. reflexivity. Qed.
Lemma ex_race_runs : run_view (ex_dial_start ex_race) = Some (1%nat, true, Some ErrCanceled).
Proof. vm_compute. reflexivity. Qed.

(** A dial that succeeds: with Start alone the connection runs, with the
    cancellation it is returned already stopped. *)
Lemma dial_and_start_exact_witness :
  (∃ raw session conf s info, ex_dial_start start_alone = (raw, 0%nat, Ok (session, conf, Some s, info)) ∧ fresh_runtime conf s) ∧
  ∃ raw session conf s info, ex_dial_start ex_race = (raw, 1%nat, Ok (session, conf, Some s, info)) ∧
    start_outcome conf 1 s ∧ lfDone (sysConn s) = true ∧ lfTerminal (sysConn s) = Some ErrCanceled.
Proof.
  split.
  - pose proof (@dial_and_start_exact toy_noise mac_aead ex_dial_view (Some (mkRuntimeView None None start_alone)) ex_client_config
      (Some ex_net_client, None) (make_bytes 32) 0) as H. pose proof ex_alone_runs as Hrun.
    destruct (ex_dial_start start_alone) as [[raw closes] [[[[session conf] s] info]|e|]]; [|discriminate Hrun..].
    destruct H as (_ & _ & _ & H). destruct (proj1 (H None None start_alone eq_refl) eq_refl) as (-> & s' & -> & Hf).
    exists raw, session, conf, s', info. split; [reflexivity|exact Hf].
  - pose proof (@dial_and_start_exact toy_noise mac_aead ex_dial_view (Some (mkRuntimeView None None ex_race)) ex_client_config
      (Some ex_net_client, None) (make_bytes 32) 0) as H. pose proof ex_race_runs as Hrun.
    destruct (ex_dial_start ex_race) as [[raw closes] [[[[session conf] [s|]] info]|e|]]; try discriminate Hrun.
    destruct H as (_ & _ & H & _). injection Hrun as -> Hd Ht.
    exists raw, session, conf, s, info. split; [reflexivity|]. split; [exact (H s eq_refl)|]. split; [exact Hd|exact Ht].
Defined.
