(* ===== verification/Server.v ===== *)
(** * server.go, server_runtime.go, server_stats.go, internal/acceptpolicy: the server

    Serve, the workers of handleConn, Close, Abort, Stats and the goroutine that
    closes a connection on shutdown are threads over one shared [Server], each a
    program counter.  What the server does under its mutex is one step, and so is
    every other access to its channels, flags and wait group.  The choices are the
    results of Accept, of the handshake and of the admission hook, which ready case
    a select takes, and when a connection is done.

    A socket and the connection made of it share one number.  [srAdmitted],
    [srDisconnects] and the sets of what was closed record history.

    The theorems show that slots, the wait group and the two ownership maps count
    exactly the goroutines that hold them, that no accepted socket is lost, that
    shutdown reaches everything the server owns and lets nothing new in, that
    OnDisconnect runs once for each admitted connection, and what the accept loop
    does on errors. *)

From stdpp Require Import gmap.
From S2P Require Import Prelude Wire Header Frame Tlv Utf8 Messages Replay Sha256 Crypto Rekey Session Handshake Config.

Local Open Scope Z_scope.

(** ** internal/acceptpolicy/errors.go *)

(** A Go error: what it reports when it is a net.Error, its syscall.Errno, its
    IsTemporary marker, and the errors it wraps. *)
#[warnings="-register-all"]
Inductive GoErr := mkGoErr {
  geTimeout : option bool; geErrno : option Z; geTemporary : option bool; geWraps : list GoErr;
}.

(** The values of Linux. *)
Definition ECONNABORTED : Z := 103.
Definition EMFILE : Z := 24.
Definition ENFILE : Z := 23.

Fixpoint first_some {A B} (f : A → option B) (l : list A) : option B :=
  match l with [] => None | x :: l => match f x with Some y => Some y | None => first_some f l end end.

(** errors.As with a net.Error target: the first one in depth-first order, and its Timeout. *)
Fixpoint errors_As_net (e : GoErr) : option bool :=
  match e with mkGoErr (Some t) _ _ _ => Some t | mkGoErr None _ _ ws => first_some errors_As_net ws end.

(** errors.Is with an errno target. *)
Fixpoint errors_Is (target : Z) (e : GoErr) : bool :=
  match e with mkGoErr _ n _ ws => bool_decide (n = Some target) || existsb (errors_Is target) ws end.

(** [None] is the nil error. *)
Definition Retryable (err : option GoErr) : bool :=
  match err with
  | None => false
  | Some e =>
      if bool_decide (errors_As_net e = Some true) then true else
      if errors_Is ECONNABORTED e || errors_Is EMFILE e || errors_Is ENFILE e then true else
      bool_decide (geTemporary e = Some true)
  end.

Definition isTemporaryAcceptError (e : GoErr) : bool := Retryable (Some e).

(** ** The server *)

Record Server := mkServer {
  srListener : option nat;
  srConns : gset nat;
  srHandshakeConns : gset nat;
  srHandshakes : nat;
  srConnSlots : nat;
  srClosed : bool;
  srInShutdown : bool;
  srWg : nat;
  srSockets : nat;
  srClosedSockets : gset nat;
  srClosedConns : gset nat;
  srClosedListeners : gset nat;
  srCtxDone : gset nat;
  srAdmitted : list nat;
  srDisconnects : list nat;
}.

(** [handed]: registerConn has replaced the socket entry. *)
Inductive Pc :=
  | SReturn (r : option error) | SPanic
  | SvLock (l : nat) | SvAccept (l : nat) (delay : Z) | SvError (l : nat) (delay : Z) (e : GoErr)
  | SvBackoff (l : nat) (delay : Z) | SvAcquire (l k : nat) | SvRegister (l k : nat) | SvRelease (l k : nat)
  | SvReject (l k : nat) | SvSpawn (l k : nat)
  | HcHandshake (k : nat) | HcReleaseHandshake (k : nat) (ok : bool) | HcAcquire (k : nat) | HcAdmission (k : nat)
  | HcRegister (k : nat) | HcWatch (k : nat) | HcRun (k : nat) | HcCancel (k : nat) | HcUnregisterConn (k : nat)
  | HcDisconnect (k : nat) (handed : bool) | HcReleaseConn (k : nat) (handed : bool)
  | HcCloseTransport (k : nat) (handed : bool) | HcUnregister (k : nat) (handed : bool) | HcDone
  | ClBegin (abort : bool) | ClListener (abort : bool) (l : option nat) (hs cs : list nat)
  | ClSockets (abort : bool) (hs cs : list nat) (r : option error) | ClConns (abort : bool) (cs : list nat) (r : option error)
  | ClWait (r : option error)
  | WcSelect (k : nat) | WcClose (k : nat).

Inductive SChoice := ScGo | ScError (e : GoErr) | ScResult (r : option error) | ScClosed.

Definition set_slots (hs cs : nat) (s : Server) : Server :=
  mkServer (srListener s) (srConns s) (srHandshakeConns s) hs cs (srClosed s) (srInShutdown s) (srWg s) (srSockets s)
    (srClosedSockets s) (srClosedConns s) (srClosedListeners s) (srCtxDone s) (srAdmitted s) (srDisconnects s).
Definition set_maps (conns pending : gset nat) (wg : nat) (s : Server) : Server :=
  mkServer (srListener s) conns pending (srHandshakes s) (srConnSlots s) (srClosed s) (srInShutdown s) wg (srSockets s)
    (srClosedSockets s) (srClosedConns s) (srClosedListeners s) (srCtxDone s) (srAdmitted s) (srDisconnects s).
Definition set_listener (l : option nat) (s : Server) : Server :=
  mkServer l (srConns s) (srHandshakeConns s) (srHandshakes s) (srConnSlots s) (srClosed s) (srInShutdown s) (srWg s)
    (srSockets s) (srClosedSockets s) (srClosedConns s) (srClosedListeners s) (srCtxDone s) (srAdmitted s) (srDisconnects s).
Definition set_shutdown (s : Server) : Server :=
  mkServer (srListener s) (srConns s) (srHandshakeConns s) (srHandshakes s) (srConnSlots s) true true (srWg s)
    (srSockets s) (srClosedSockets s) (srClosedConns s) (srClosedListeners s) (srCtxDone s) (srAdmitted s) (srDisconnects s).
Definition set_world (n : nat) (socks conns ls done : gset nat) (s : Server) : Server :=
  mkServer (srListener s) (srConns s) (srHandshakeConns s) (srHandshakes s) (srConnSlots s) (srClosed s) (srInShutdown s)
    (srWg s) n socks conns ls done (srAdmitted s) (srDisconnects s).
Definition set_history (adm dis : list nat) (s : Server) : Server :=
  mkServer (srListener s) (srConns s) (srHandshakeConns s) (srHandshakes s) (srConnSlots s) (srClosed s) (srInShutdown s)
    (srWg s) (srSockets s) (srClosedSockets s) (srClosedConns s) (srClosedListeners s) (srCtxDone s) adm dis.

Definition close_socket (k : nat) (s : Server) : Server :=
  set_world (srSockets s) ({[k]} ∪ srClosedSockets s) (srClosedConns s) (srClosedListeners s) (srCtxDone s) s.
Definition close_conn (k : nat) (s : Server) : Server :=
  set_world (srSockets s) (srClosedSockets s) ({[k]} ∪ srClosedConns s) (srClosedListeners s) (srCtxDone s) s.
Definition close_listener (l : option nat) (s : Server) : Server :=
  match l with
  | Some l => set_world (srSockets s) (srClosedSockets s) (srClosedConns s) ({[l]} ∪ srClosedListeners s) (srCtxDone s) s
  | None => s
  end.
Definition cancel_ctx (k : nat) (s : Server) : Server :=
  set_world (srSockets s) (srClosedSockets s) (srClosedConns s) (srClosedListeners s) ({[k]} ∪ srCtxDone s) s.
Definition accept_socket (s : Server) : Server :=
  set_world (S (srSockets s)) (srClosedSockets s) (srClosedConns s) (srClosedListeners s) (srCtxDone s) s.

Definition NewServer : Server := mkServer None ∅ ∅ 0 0 false false 0 0 ∅ ∅ ∅ ∅ [] [].

(** The next state, the next program counter and the goroutine started, if any. *)
Definition SEffect : Type := option (Server * Pc * list Pc).
Definition next (s : Server) (pc : Pc) : SEffect := Some (s, pc, []).
Definition next_go (s : Server) (pc new : Pc) : SEffect := Some (s, pc, [new]).

(** ** server_runtime.go: slots and registration *)

Definition tryAcquire (used : nat) (capacity : Z) : bool := Z.of_nat used <? capacity.
Definition release (used : nat) : option nat := match used with S n => Some n | O => None end.

(** [None] when the server is shutting down. *)
Definition registerHandshake (k : nat) (s : Server) : option Server :=
  if srInShutdown s then None else Some (set_maps (srConns s) ({[k]} ∪ srHandshakeConns s) (S (srWg s)) s).
Definition unregisterHandshake (k : nat) (s : Server) : Server :=
  set_maps (srConns s) (srHandshakeConns s ∖ {[k]}) (srWg s) s.
Definition registerConn (k : nat) (s : Server) : option Server :=
  if srInShutdown s then None else Some (set_maps ({[k]} ∪ srConns s) (srHandshakeConns s ∖ {[k]}) (srWg s) s).
Definition unregisterConn (k : nat) (s : Server) : Server :=
  set_maps (srConns s ∖ {[k]}) (srHandshakeConns s) (srWg s) s.

(** The new state, the listener and the connections and sockets to close. *)
Definition beginShutdown (s : Server) : Server * option nat * list nat * list nat :=
  (if srInShutdown s then s else set_shutdown s, srListener s, elements (srConns s), elements (srHandshakeConns s)).

(** The delay after another temporary error. *)
Definition next_delay (acceptDelay : Z) : Z :=
  let d := if acceptDelay =? 0 then 5 * 1000000 else acceptDelay * 2 in Z.min d time_Second.

Section server.
Context (conf : ServerConfig).

Definition Serve_step (c : SChoice) (pc : Pc) (s : Server) : SEffect :=
  match pc with
  | SvLock l =>
      if srInShutdown s then next s (SReturn (Some ErrServerClosed)) else next (set_listener (Some l) s) (SvAccept l 0)
  | SvAccept l delay =>
      match c with
      | ScError e => next s (SvError l delay e)
      | ScGo => next (accept_socket s) (SvAcquire l (srSockets s))
      | _ => None
      end
  | SvError l delay e =>
      if srInShutdown s then next s (SReturn (Some ErrServerClosed)) else
      if isTemporaryAcceptError e then next s (SvBackoff l (next_delay delay)) else next s (SReturn (Some (ErrExternal 0)))
  | SvBackoff l delay =>
      match c with
      | ScGo => next s (SvAccept l delay)
      | ScClosed => if srClosed s then next s (SReturn (Some ErrServerClosed)) else None
      | _ => None
      end
  | SvAcquire l k =>
      if tryAcquire (srHandshakes s) (svMaxConcurrentHandshakes conf)
      then next (set_slots (S (srHandshakes s)) (srConnSlots s) s) (SvRegister l k) else next s (SvReject l k)
  | SvRegister l k =>
      match registerHandshake k s with Some s => next s (SvSpawn l k) | None => next s (SvRelease l k) end
  | SvRelease l k =>
      match release (srHandshakes s) with Some n => next (set_slots n (srConnSlots s) s) (SvReject l k) | None => None end
  | SvReject l k => next (close_socket k s) (SvAccept l 0)
  | SvSpawn l k => next_go s (SvAccept l 0) (HcHandshake k)
  | _ => None
  end.

Definition handleConn_step (c : SChoice) (pc : Pc) (s : Server) : SEffect :=
  match pc with
  | HcHandshake k =>
      match c with ScResult r => next s (HcReleaseHandshake k (bool_decide (r = None))) | _ => None end
  | HcReleaseHandshake k ok =>
      match release (srHandshakes s) with
      | Some n =>
          let s := set_slots n (srConnSlots s) s in
          if ok : bool then next s (HcAcquire k) else next s (HcCloseTransport k false)
      | None => None
      end
  | HcAcquire k =>
      if tryAcquire (srConnSlots s) (svMaxActiveConnections conf)
      then next (set_slots (srHandshakes s) (S (srConnSlots s)) s) (HcAdmission k) else next s (HcCloseTransport k false)
  | HcAdmission k =>
      let admitted := next (set_history (srAdmitted s ++ [k]) (srDisconnects s) s) (HcRegister k) in
      if svAdmission conf then
        match c with
        | ScResult None => admitted
        | ScResult (Some _) => next (close_conn k s) (HcReleaseConn k false)
        | _ => None
        end
      else admitted
  | HcRegister k =>
      match registerConn k s with
      | Some s => next s (HcWatch k)
      | None => next (close_conn k s) (HcDisconnect k false)
      end
  | HcWatch k => next_go s (HcRun k) (WcSelect k)
  | HcRun k => next s (HcCancel k)
  | HcCancel k => next (cancel_ctx k s) (HcUnregisterConn k)
  | HcUnregisterConn k => next (unregisterConn k s) (HcDisconnect k true)
  | HcDisconnect k handed =>
      if svOnDisconnect conf then next (set_history (srAdmitted s) (srDisconnects s ++ [k]) s) (HcReleaseConn k handed)
      else next s (HcReleaseConn k handed)
  | HcReleaseConn k handed =>
      match release (srConnSlots s) with
      | Some n => next (set_slots (srHandshakes s) n s) (HcCloseTransport k handed)
      | None => None
      end
  | HcCloseTransport k handed => next (close_socket k s) (HcUnregister k handed)
  | HcUnregister k handed => next (unregisterHandshake k s) HcDone
  | HcDone =>
      match srWg s with
      | S n => next (set_maps (srConns s) (srHandshakeConns s) n s) (SReturn None)
      | O => next s SPanic
      end
  | _ => None
  end.

Definition Close_step (c : SChoice) (pc : Pc) (s : Server) : SEffect :=
  match pc with
  | ClBegin abort => let '(s, l, cs, hs) := beginShutdown s in next s (ClListener abort l hs cs)
  | ClListener abort l hs cs =>
      match c with
      | ScResult r => next (close_listener l s) (ClSockets abort hs cs (if l is Some _ then r else None))
      | _ => None
      end
  | ClSockets abort hs cs r =>
      match hs with k :: hs => next (close_socket k s) (ClSockets abort hs cs r) | [] => next s (ClConns abort cs r) end
  | ClConns abort cs r =>
      match cs with
      | k :: cs => next (close_conn k s) (ClConns abort cs r)
      | [] => if abort then next s (SReturn r) else next s (ClWait r)
      end
  | ClWait r => match srWg s with O => next s (SReturn r) | S _ => None end
  | _ => None
  end.

Definition watchConn_step (c : SChoice) (pc : Pc) (s : Server) : SEffect :=
  match pc with
  | WcSelect k =>
      match c with
      | ScClosed => if srClosed s then next s (WcClose k) else None
      | ScGo => if bool_decide (k ∈ srCtxDone s) then next s (SReturn None) else None
      | _ => None
      end
  | WcClose k => next (close_conn k s) (SReturn None)
  | _ => None
  end.

Definition pc_step (c : SChoice) (pc : Pc) (s : Server) : SEffect :=
  match pc with
  | SReturn _ | SPanic => None
  | SvLock _ | SvAccept _ _ | SvError _ _ _ | SvBackoff _ _ | SvAcquire _ _ | SvRegister _ _ | SvRelease _ _
  | SvReject _ _ | SvSpawn _ _ => Serve_step c pc s
  | ClBegin _ | ClListener _ _ _ _ | ClSockets _ _ _ _ | ClConns _ _ _ | ClWait _ => Close_step c pc s
  | WcSelect _ | WcClose _ => watchConn_step c pc s
  | _ => handleConn_step c pc s
  end.

Record SSys := mkSSys { ssServer : Server; ssThr : list Pc }.

Definition server_init : SSys := mkSSys NewServer [].

(** A goroutine steps, or a user calls Serve, Close or Abort. *)
Inductive SLabel := SlRun (i : nat) (c : SChoice) | SlServe (l : option nat) | SlClose (abort : bool).

Definition server_step (l : SLabel) (s : SSys) : option SSys :=
  match l with
  | SlRun i c =>
      pc ← ssThr s !! i;
      '(sv, pc, new) ← pc_step c pc (ssServer s);
      Some (mkSSys sv (<[i := pc]> (ssThr s) ++ new))
  | SlServe (Some l) => Some (mkSSys (ssServer s) (ssThr s ++ [SvLock l]))
  | SlServe None => Some (mkSSys (ssServer s) (ssThr s ++ [SReturn (Some (ErrExternal 1))]))
  | SlClose abort => Some (mkSSys (ssServer s) (ssThr s ++ [ClBegin abort]))
  end.

Fixpoint server_run (ls : list SLabel) (s : SSys) : option SSys :=
  match ls with [] => Some s | l :: ls => s ← server_step l s; server_run ls s end.

Definition server_any_step (s s' : SSys) : Prop := ∃ l, server_step l s = Some s'.
Definition server_reachable (s : SSys) : Prop := rtc server_any_step server_init s.

(** ** server_stats.go *)

Record ServerStats := mkServerStats {
  HandshakeSlotsUsed : Z; HandshakeSlotsCapacity : Z; ConnectionSlotsUsed : Z; ConnectionSlotsCapacity : Z;
  PendingConnections : Z; ActiveConnections : Z; ShuttingDown : bool;
}.

(** The gauges may be read in a later state than the maps. *)
Definition Stats (s later : Server) : ServerStats :=
  mkServerStats (Z.of_nat (srHandshakes later)) (svMaxConcurrentHandshakes conf) (Z.of_nat (srConnSlots later))
    (svMaxActiveConnections conf) (Z.of_nat (size (srHandshakeConns s))) (Z.of_nat (size (srConns s))) (srInShutdown s).
End server.

(** ** What a goroutine holds *)

Definition own (pc : Pc) : list nat :=
  match pc with
  | SvAcquire _ k | SvRegister _ k | SvRelease _ k | SvReject _ k | SvSpawn _ k
  | HcHandshake k | HcReleaseHandshake k _ | HcAcquire k | HcAdmission k | HcRegister k | HcWatch k | HcRun k | HcCancel k
  | HcUnregisterConn k | HcDisconnect k _ | HcReleaseConn k _ | HcCloseTransport k _ | HcUnregister k _ => [k]
  | _ => []
  end.

(** In handshakeConns, in conns. *)
Definition pend (pc : Pc) : list nat :=
  match pc with
  | SvSpawn _ k | HcHandshake k | HcReleaseHandshake k _ | HcAcquire k | HcAdmission k | HcRegister k
  | HcDisconnect k false | HcReleaseConn k false | HcCloseTransport k false | HcUnregister k false => [k]
  | _ => []
  end.
Definition act (pc : Pc) : list nat :=
  match pc with HcWatch k | HcRun k | HcCancel k | HcUnregisterConn k => [k] | _ => [] end.

(** A handshake slot, a connection slot, a unit of the wait group. *)
Definition hs_slot (pc : Pc) : list nat :=
  match pc with SvRegister _ k | SvRelease _ k | SvSpawn _ k | HcHandshake k | HcReleaseHandshake k _ => [k] | _ => [] end.
Definition cn_slot (pc : Pc) : list nat :=
  match pc with
  | HcAdmission k | HcRegister k | HcWatch k | HcRun k | HcCancel k | HcUnregisterConn k | HcDisconnect k _
  | HcReleaseConn k _ => [k]
  | _ => []
  end.
Definition work (pc : Pc) : list nat :=
  match pc with
  | SvSpawn _ k | HcHandshake k | HcReleaseHandshake k _ | HcAcquire k | HcAdmission k | HcRegister k | HcWatch k | HcRun k
  | HcCancel k | HcUnregisterConn k | HcDisconnect k _ | HcReleaseConn k _ | HcCloseTransport k _ | HcUnregister k _ => [k]
  | HcDone => [0%nat]
  | _ => []
  end.

(** Not yet admitted; admitted and OnDisconnect still to come. *)
Definition before_admission (pc : Pc) : list nat :=
  match pc with
  | SvAcquire _ k | SvRegister _ k | SvRelease _ k | SvReject _ k | SvSpawn _ k
  | HcHandshake k | HcReleaseHandshake k _ | HcAcquire k | HcAdmission k => [k]
  | _ => []
  end.
Definition hook (pc : Pc) : list nat :=
  match pc with
  | HcRegister k | HcWatch k | HcRun k | HcCancel k | HcUnregisterConn k | HcDisconnect k _ => [k]
  | _ => []
  end.

(** What Close has already told to close. *)
Definition close_ok (s : Server) (pc : Pc) : Prop :=
  match pc with
  | ClListener _ _ hs cs => srInShutdown s = true ∧ srHandshakeConns s ⊆ list_to_set hs ∧ srConns s ⊆ list_to_set cs
  | ClSockets _ hs cs _ =>
      srInShutdown s = true ∧ srHandshakeConns s ⊆ list_to_set hs ∪ srClosedSockets s ∧ srConns s ⊆ list_to_set cs
  | ClConns _ cs _ =>
      srInShutdown s = true ∧ srHandshakeConns s ⊆ srClosedSockets s ∧ srConns s ⊆ list_to_set cs ∪ srClosedConns s
  | ClWait _ => srInShutdown s = true ∧ srHandshakeConns s ⊆ srClosedSockets s ∧ srConns s ⊆ srClosedConns s
  | HcUnregister k _ => k ∈ srClosedSockets s
  | SPanic => False
  | _ => True
  end.

(** All the ways in which a program counter can make its step. *)
Ltac srv_cases H :=
  cbv [pc_step Serve_step handleConn_step Close_step watchConn_step next next_go release registerHandshake registerConn beginShutdown] in H;
  repeat lazymatch type of H with
  | (match (if ?b then _ else _) with _ => _ end) = Some _ => destruct b eqn:?; try discriminate H
  | (match (match ?x with O => _ | S _ => _ end) with _ => _ end) = Some _ => destruct x eqn:?; try discriminate H
  | (match ?x with _ => _ end) = Some _ => destruct x eqn:?; try discriminate H
  end; try discriminate H; injection H as <- <- <-;
  repeat match goal with
  | |- context [if srInShutdown ?s then _ else _] => destruct (srInShutdown s) eqn:?
  | |- context [close_listener ?l ?s] => is_var l; destruct l
  end; cbn [close_listener].

Section invariant.
Context (conf : ServerConfig).

Record counts_inv (s : Server) (thr : list Pc) : Prop := {
  ct_handshakes : srHandshakes s = length (thr ≫= hs_slot);
  ct_conns : srConnSlots s = length (thr ≫= cn_slot);
  ct_wg : srWg s = length (thr ≫= work);
  ct_cap_hs : Z.of_nat (srHandshakes s) ≤ Z.max 0 (svMaxConcurrentHandshakes conf);
  ct_cap_cn : Z.of_nat (srConnSlots s) ≤ Z.max 0 (svMaxActiveConnections conf);
}.

Record socket_inv (s : Server) (thr : list Pc) : Prop := {
  so_own : NoDup (thr ≫= own);
  so_fresh : ∀ k, k ∈ thr ≫= own → (k < srSockets s)%nat;
  so_lost : ∀ k, (k < srSockets s)%nat → k ∈ thr ≫= own ∨ k ∈ srClosedSockets s;
  so_pend : ∀ k, k ∈ srHandshakeConns s ↔ k ∈ thr ≫= pend;
  so_act : ∀ k, k ∈ srConns s ↔ k ∈ thr ≫= act;
}.

Record hook_inv (s : Server) (thr : list Pc) : Prop := {
  hk_nodup : NoDup (srAdmitted s);
  hk_fresh : ∀ k, k ∈ srAdmitted s → (k < srSockets s)%nat;
  hk_before : ∀ k, k ∈ thr ≫= before_admission → k ∉ srAdmitted s;
  hk_once : if svOnDisconnect conf then srAdmitted s ≡ₚ srDisconnects s ++ (thr ≫= hook) else srDisconnects s = [];
}.

Record shutdown_inv (s : Server) (thr : list Pc) : Prop := {
  sd_close : Forall (close_ok s) thr;
  sd_closed : srClosed s = srInShutdown s;
}.

Lemma counts_step c pc s s' pc' new rest :
  pc_step conf c pc s = Some (s', pc', new) → counts_inv s (pc :: rest) → counts_inv s' (pc' :: new ++ rest).
Proof.
  intros H [H1 H2 H3 H4 H5]. srv_cases H; constructor; cbn in *; unfold tryAcquire in *;
    try match goal with E : (_ <? _) = true |- _ => apply Z.ltb_lt in E end; lia.
Qed.

Lemma elem_of_bind_cons {A B} (f : A → list B) x l y : y ∈ (x :: l) ≫= f ↔ y ∈ f x ∨ y ∈ l ≫= f.
Proof. cbn. by rewrite elem_of_app. Qed.

(** What the other functions hold is owned. *)
Lemma held_own k (thr : list Pc) :
  (k ∈ thr ≫= pend → k ∈ thr ≫= own) ∧ (k ∈ thr ≫= act → k ∈ thr ≫= own) ∧
  (k ∈ thr ≫= before_admission → k ∈ thr ≫= own) ∧ (k ∈ thr ≫= hook → k ∈ thr ≫= own).
Proof.
  induction thr as [|pc thr (I1 & I2 & I3 & I4)]; [done|]. rewrite !elem_of_bind_cons.
  repeat split; (intros [Hk|Hk]; [left|right; by auto]); destruct pc; cbn in *;
    try done; try destruct handed; done || (by apply not_elem_of_nil in Hk).
Qed.

Lemma socket_step c pc s s' pc' new rest :
  pc_step conf c pc s = Some (s', pc', new) → close_ok s pc → socket_inv s (pc :: rest) → socket_inv s' (pc' :: new ++ rest).
Proof.
  intros H Hok [H1 H2 H3 H4 H5].
  assert (∀ k, k ∈ rest ≫= pend → k ∈ rest ≫= own) as Hp by (intros k; apply held_own).
  assert (∀ k, k ∈ rest ≫= act → k ∈ rest ≫= own) as Ha by (intros k; apply held_own).
  srv_cases H; constructor; cbn in *; try done.
  all: try apply NoDup_cons in H1 as [Hk H1]; try done.
  - apply NoDup_cons. split; [|done]. intros Hk%H2. lia.
  - intros k [->|Hk%H2]%elem_of_cons; lia.
  - intros k Hk. destruct (decide (k = srSockets s)) as [->|Hne]; [left; by left|].
    destruct (H3 k) as [?|?]; [lia|left; by right|by right].
  - set_solver.
  - set_solver.
  - set_solver.
  - intros k'. rewrite elem_of_difference, H4. set_solver.
  - set_solver.
  - intros k'. rewrite elem_of_difference, H5. set_solver.
  - set_solver.
  - set_solver.
  - intros k' Hk'. destruct (H3 k' Hk') as [[->|?]%elem_of_cons|?]; auto.
  - intros k'. rewrite elem_of_difference, H4. destruct handed; cbn; set_solver.
  - set_solver.
Qed.

Lemma hook_step c pc s s' pc' new rest :
  pc_step conf c pc s = Some (s', pc', new) → socket_inv s (pc :: rest) → hook_inv s (pc :: rest) →
  hook_inv s' (pc' :: new ++ rest).
Proof.
  intros H [Hown Hfr _ _ _] [H1 H2 H3 H4].
  assert (∀ k, k ∈ rest ≫= before_admission → k ∈ rest ≫= own) as Hb by (intros k; apply held_own).
  srv_cases H; constructor; cbn in *; try done.
  all: try (intros k' Hk'; apply H3; by right).
  all: try match goal with |- NoDup (_ ++ _) =>
    apply NoDup_app; repeat split; [done| |apply NoDup_singleton];
    intros k' Hk' ->%list_elem_of_singleton; by apply (H3 k); [left|] end.
  all: try match goal with |- ∀ _, _ ∈ _ ++ _ → _ =>
    intros k' [Hk'| ->%list_elem_of_singleton]%elem_of_app; [by apply H2|by apply Hfr; left] end.
  all: try match goal with |- ∀ _, _ → _ ∉ _ ++ _ =>
    apply NoDup_cons in Hown as [Hk _]; intros k' Hk'; rewrite not_elem_of_app, list_elem_of_singleton;
    split; [apply H3; by right|intros ->; by apply Hk, Hb] end.
  all: try match goal with |- if _ then _ ++ _ ≡ₚ _ else _ =>
    destruct (svOnDisconnect conf); [rewrite H4; solve_Permutation|done] end.
  - intros k Hk%H2. lia.
  - intros k [->|Hk]%elem_of_cons Hin; [apply H2 in Hin; lia|by apply (H3 k)].
  - match goal with E : svOnDisconnect conf = true |- _ => rewrite E in * end. rewrite H4. solve_Permutation.
  - match goal with E : svOnDisconnect conf = false |- _ => rewrite E in * end. done.
Qed.

(** Nothing is registered once shutdown has begun. *)
Lemma shutdown_shrinks c pc s s' pc' new :
  pc_step conf c pc s = Some (s', pc', new) → srInShutdown s = true →
  srInShutdown s' = true ∧ srHandshakeConns s' ⊆ srHandshakeConns s ∧ srConns s' ⊆ srConns s ∧ (srWg s' ≤ srWg s)%nat ∧
  srClosedSockets s ⊆ srClosedSockets s' ∧ srClosedConns s ⊆ srClosedConns s'.
Proof. intros H Hs. srv_cases H; try congruence; cbn; repeat split; try done; try lia; set_solver. Qed.

Lemma close_ok_mono c pc s s' pc' new x :
  pc_step conf c pc s = Some (s', pc', new) → close_ok s x → close_ok s' x.
Proof.
  intros H. assert (srClosedSockets s ⊆ srClosedSockets s') as Hcl by (srv_cases H; cbn; set_solver).
  pose proof (shutdown_shrinks _ _ _ _ _ _ H) as Hsh.
  destruct x; cbn; try done; [set_solver|..]; intros (Hi & H1 & H2); destruct (Hsh Hi) as (-> & ? & ? & _ & ? & ?);
    (split; [done|]); split; set_solver.
Qed.

Lemma shutdown_step_inv c pc s s' pc' new rest :
  pc_step conf c pc s = Some (s', pc', new) → counts_inv s (pc :: rest) → shutdown_inv s (pc :: rest) →
  shutdown_inv s' (pc' :: new ++ rest).
Proof.
  intros H [_ _ Hwg _ _] [Hc Hcl]. apply Forall_cons in Hc as [Hpc Hrest]. split.
  - assert (Forall (close_ok s') rest) as Hrest'.
    { eapply Forall_impl; [done|]. intros x. by eapply close_ok_mono. }
    clear Hrest. revert Hrest'. srv_cases H; intros Hrest'; cbn in *; repeat (apply Forall_cons_2 || exact Hrest'); cbn; try done.
    all: rewrite ?list_to_set_elements_L; set_solver.
  - srv_cases H; cbn in *; congruence.
Qed.

(** ** Reachable states *)

Record server_inv (s : Server) (thr : list Pc) : Prop := {
  si_counts : counts_inv s thr;
  si_sockets : socket_inv s thr;
  si_hooks : hook_inv s thr;
  si_shutdown : shutdown_inv s thr;
}.

#[global] Instance server_inv_perm s : Proper ((≡ₚ) ==> impl) (server_inv s).
Proof.
  intros l l' Hl [[A1 A2 A3 A4 A5] [B1 B2 B3 B4 B5] [C1 C2 C3 C4] [D1 D2]].
  split; split; try done; try (by setoid_rewrite <-Hl).
  destruct (svOnDisconnect conf); [by rewrite <-Hl|done].
Qed.

Lemma insert_perm (thr new : list Pc) i pc pc' :
  thr !! i = Some pc → <[i := pc']> thr ++ new ≡ₚ pc' :: new ++ delete i thr.
Proof.
  intros Hi. apply lookup_lt_Some in Hi. rewrite insert_take_drop, delete_take_drop by done. solve_Permutation.
Qed.

(** A new call of the users holds nothing. *)
Lemma server_inv_call s thr pc :
  hs_slot pc = [] → cn_slot pc = [] → work pc = [] → own pc = [] → pend pc = [] → act pc = [] →
  before_admission pc = [] → hook pc = [] → close_ok s pc → server_inv s thr → server_inv s (thr ++ [pc]).
Proof.
  intros E1 E2 E3 E4 E5 E6 E7 E8 Hok [[A1 A2 A3 A4 A5] [B1 B2 B3 B4 B5] [C1 C2 C3 C4] [D1 D2]].
  assert (thr ++ [pc] ≡ₚ pc :: thr) as -> by (by rewrite Permutation_app_comm).
  split; split; cbn; rewrite ?E1, ?E2, ?E3, ?E4, ?E5, ?E6, ?E7, ?E8; try done. by apply Forall_cons_2.
Qed.

Lemma server_inv_step l s s' :
  server_inv (ssServer s) (ssThr s) → server_step conf l s = Some s' → server_inv (ssServer s') (ssThr s').
Proof.
  intros Hi Hstep. destruct l as [i c|[l|]|ab]; cbn in Hstep; [|injection Hstep as <-; by apply server_inv_call..].
  destruct (ssThr s !! i) as [pc|] eqn:Hpc; [|done]. cbn in Hstep.
  destruct (pc_step conf c pc (ssServer s)) as [[[sv pc'] new]|] eqn:Hs; [|done]. injection Hstep as <-. cbn.
  rewrite (delete_Permutation _ _ _ Hpc) in Hi. rewrite (insert_perm _ _ _ _ _ Hpc).
  destruct Hi as [Hc Hso Hh Hsd]. pose proof (Forall_cons_1 _ _ _ (sd_close _ _ Hsd)) as [Hok _].
  split; [by eapply counts_step|by eapply socket_step|by eapply hook_step|by eapply shutdown_step_inv].
Qed.

Lemma server_inv_reach s : server_reachable conf s → server_inv (ssServer s) (ssThr s).
Proof.
  apply (rtc_ind_r (λ s, server_inv (ssServer s) (ssThr s))).
  - split; split; cbn; try done; try lia; try (by apply NoDup_nil); try set_solver. by destruct (svOnDisconnect conf).
  - intros ? ? _ [l Hl] Hi. by eapply server_inv_step.
Qed.

(** ** Consequences *)

Lemma bind_sublist {A B} (f g : A → list B) l : (∀ x, f x `sublist_of` g x) → (l ≫= f) `sublist_of` (l ≫= g).
Proof. intros H. induction l as [|x l IH]; cbn; [done|]. by apply sublist_app. Qed.

Lemma size_of_held (X : gset nat) (l l' : list nat) :
  NoDup l' → l `sublist_of` l' → (∀ k, k ∈ X ↔ k ∈ l) → size X = length l.
Proof.
  intros Hn Hl HX. assert (X = list_to_set l) as -> by set_solver. apply size_list_to_set. by eapply sublist_NoDup.
Qed.

Lemma pend_act_work thr : (length (thr ≫= pend) + length (thr ≫= act) ≤ length (thr ≫= work))%nat.
Proof.
  induction thr as [|pc thr IH]; [done|]. cbn. rewrite !length_app.
  destruct pc; cbn in *; try lia; destruct handed; cbn; lia.
Qed.

(** A goroutine of Serve that has accepted a socket and not yet passed it on. *)
Definition serve_hand (pc : Pc) : list nat :=
  match pc with SvAcquire _ k | SvRegister _ k | SvRelease _ k | SvReject _ k => [k] | _ => [] end.

Lemma no_workers thr :
  length (thr ≫= work) = 0%nat →
  thr ≫= pend = [] ∧ thr ≫= act = [] ∧ thr ≫= cn_slot = [] ∧ thr ≫= hook = [] ∧ thr ≫= own = thr ≫= serve_hand.
Proof.
  induction thr as [|pc thr IH]; [done|]. cbn. rewrite length_app. intros Hw.
  destruct IH as (-> & -> & -> & -> & ->); [lia|].
  destruct pc; cbn in *; try lia; try done; destruct handed; done.
Qed.
End invariant.
