(* ===== verification/ServerSpec.v ===== *)
(** * What the server promises

    The theorems on Server.v that its users rely on. *)

From stdpp Require Import gmap.
From S2P Require Import Prelude Wire Header Frame Tlv Utf8 Messages Replay Sha256 Crypto Rekey Session Handshake Config.
From S2P Require Import Server.

Local Open Scope Z_scope.

(** A server made by NewServer has room for at least one handshake and one connection. *)
Lemma NewServer_limits {N : Noise} config conf :
  NewServer_config config = Ok conf → 1 ≤ svMaxConcurrentHandshakes conf ∧ 1 ≤ svMaxActiveConnections conf.
Proof.
  unfold NewServer_config. intros H. cbv zeta in H. destruct (negb _); [done|]. apply bind_Ok in H as ([] & _ & H).
  destruct (ccHandshakeTimeout _ <? 0); [done|]. destruct (_ || _); [done|].
  destruct (ccHandlerShutdownTimeout _ <? 0); [done|]. destruct (ccKeepaliveTimeout _ <? 0); [done|].
  apply bind_Ok in H as (c & _ & H). destruct (_ && _); [done|]. destruct (_ && _); [done|].
  destruct (ccOutboundQueue _ <? 0); [done|]. destruct (ccHandlerQueue _ <? 0); [done|].
  destruct (Z.ltb_spec (svMaxConcurrentHandshakes config) 0); [done|].
  destruct (Z.ltb_spec (svMaxActiveConnections config) 0); [done|]. injection H as <-. cbn.
  destruct (Z.eqb_spec (svMaxConcurrentHandshakes config) 0), (Z.eqb_spec (svMaxActiveConnections config) 0); lia.
Qed.

Lemma server_run_reachable conf ls s : server_run conf ls server_init = Some s → server_reachable conf s.
Proof.
  unfold server_reachable. generalize server_init. induction ls as [|l ls IH]; intros s0; cbn; [intros [= ->]; done|].
  destruct (server_step conf l s0) as [s1|] eqn:Hl; [|done]. cbn. intros Hrun. eapply rtc_l; [by exists l|by apply IH].
Qed.

Lemma server_shrinks conf s s' :
  rtc (server_any_step conf) s s' → srInShutdown (ssServer s) = true →
  srInShutdown (ssServer s') = true ∧ srHandshakeConns (ssServer s') ⊆ srHandshakeConns (ssServer s) ∧
  srConns (ssServer s') ⊆ srConns (ssServer s) ∧ (srWg (ssServer s') ≤ srWg (ssServer s))%nat.
Proof.
  induction 1 as [s|s s1 s2 [l Hl] _ IH]; [done|]. intros Hs.
  assert (srInShutdown (ssServer s1) = true ∧ srHandshakeConns (ssServer s1) ⊆ srHandshakeConns (ssServer s) ∧
    srConns (ssServer s1) ⊆ srConns (ssServer s) ∧ (srWg (ssServer s1) ≤ srWg (ssServer s))%nat) as (H1 & H2 & H3 & H4).
  { destruct l as [i c|[l|]|ab]; cbn in Hl; [|by injection Hl as <-..].
    destruct (ssThr s !! i) as [pc|]; [|done]. cbn in Hl.
    destruct (pc_step conf c pc (ssServer s)) as [[[sv pc'] new]|] eqn:Hp; [|done]. injection Hl as <-.
    destruct (shutdown_shrinks _ _ _ _ _ _ _ Hp Hs) as (? & ? & ? & ? & _). done. }
  destruct (IH H1) as (? & ? & ? & ?). split; [done|]. split; [set_solver|]. split; [set_solver|lia].
Qed.

Lemma pend_own pc : pend pc `sublist_of` own pc.
Proof. destruct pc; cbn; try apply sublist_nil_l; try done; destruct handed; try done; apply sublist_nil_l. Qed.
Lemma act_own pc : act pc `sublist_of` own pc.
Proof. destruct pc; cbn; try apply sublist_nil_l; done. Qed.

Section spec.
Context (conf : ServerConfig).

(** C8: In every reachable state of a server from NewServer the slots in use are exactly the
    goroutines that hold one and never exceed the limits, the wait group counts the workers, and
    Stats reports exactly the sockets before and after their handoff. *)
Theorem server_accounting {N : Noise} config s :
  NewServer_config config = Ok conf → server_reachable conf s →
  let sv := ssServer s in let thr := ssThr s in let stats := Stats conf sv sv in
  HandshakeSlotsUsed stats = zlen (thr ≫= hs_slot) ∧ HandshakeSlotsUsed stats ≤ HandshakeSlotsCapacity stats ∧
  ConnectionSlotsUsed stats = zlen (thr ≫= cn_slot) ∧ ConnectionSlotsUsed stats ≤ ConnectionSlotsCapacity stats ∧
  PendingConnections stats = zlen (thr ≫= pend) ∧ ActiveConnections stats = zlen (thr ≫= act) ∧
  srWg sv = length (thr ≫= work) ∧ PendingConnections stats + ActiveConnections stats ≤ Z.of_nat (srWg sv).
Proof.
  intros [Hl1 Hl2]%NewServer_limits Hr. destruct (server_inv_reach _ _ Hr) as [[A1 A2 A3 A4 A5] [B1 _ _ B4 B5] _ _].
  cbn. unfold zlen. rewrite (size_of_held _ _ _ B1 (bind_sublist pend own _ pend_own) B4).
  rewrite (size_of_held _ _ _ B1 (bind_sublist act own _ act_own) B5).
  pose proof (pend_act_work (ssThr s)). rewrite A1, A2, A3 in *. repeat split; lia.
Qed.

(** C22: Every accepted socket is closed or in the hands of exactly one goroutine; when the wait
    group is zero both ownership maps and the connection slots are empty and every socket is
    closed except one Serve has just accepted and not yet registered. *)
Theorem server_no_leak s :
  server_reachable conf s →
  let sv := ssServer s in
  NoDup (ssThr s ≫= own) ∧
  (∀ k, (k < srSockets sv)%nat → k ∈ (ssThr s ≫= own) ∨ k ∈ srClosedSockets sv) ∧
  (srWg sv = 0%nat →
    srHandshakeConns sv = ∅ ∧ srConns sv = ∅ ∧ srConnSlots sv = 0%nat ∧
    ∀ k, (k < srSockets sv)%nat → k ∈ (ssThr s ≫= serve_hand) ∨ k ∈ srClosedSockets sv).
Proof.
  intros Hr. destruct (server_inv_reach _ _ Hr) as [[_ A2 A3 _ _] [B1 _ B3 B4 B5] _ _]. cbn.
  split; [done|]. split; [done|]. rewrite A3. intros Hw. destruct (no_workers _ Hw) as (E1 & E2 & E3 & _ & E5).
  rewrite E1 in B4. rewrite E2 in B5. rewrite E5 in B3.
  split; [set_solver|]. split; [set_solver|]. split; [by rewrite A2, E3|done].
Qed.

(** C23: When Close waits for the workers it has closed every socket before its handoff and
    every connection after it; once shutdown has begun both ownership maps and the wait group
    only shrink; the wait group never goes negative. *)
Theorem server_shutdown_complete s :
  server_reachable conf s →
  (∀ r, ClWait r ∈ ssThr s →
    srInShutdown (ssServer s) = true ∧ srHandshakeConns (ssServer s) ⊆ srClosedSockets (ssServer s) ∧
    srConns (ssServer s) ⊆ srClosedConns (ssServer s)) ∧
  (srInShutdown (ssServer s) = true → ∀ s', rtc (server_any_step conf) s s' →
    srInShutdown (ssServer s') = true ∧ srHandshakeConns (ssServer s') ⊆ srHandshakeConns (ssServer s) ∧
    srConns (ssServer s') ⊆ srConns (ssServer s) ∧ (srWg (ssServer s') ≤ srWg (ssServer s))%nat) ∧
  SPanic ∉ ssThr s.
Proof.
  intros Hr. destruct (server_inv_reach _ _ Hr) as [_ _ _ [Hc _]]. rewrite Forall_forall in Hc.
  split; [intros r Hin; by apply (Hc _ Hin)|]. split; [intros Hs s' Hrun; by apply (server_shrinks conf)|].
  intros Hin. by apply (Hc _ Hin).
Qed.

(** With OnDisconnect set, the hook runs at most once for each connection and only for admitted
    ones, and when no worker is left it has run exactly once for each of them. *)
Theorem on_disconnect_once s :
  server_reachable conf s → svOnDisconnect conf = true →
  NoDup (srDisconnects (ssServer s)) ∧ srDisconnects (ssServer s) ⊆ srAdmitted (ssServer s) ∧
  (srWg (ssServer s) = 0%nat → srDisconnects (ssServer s) ≡ₚ srAdmitted (ssServer s)).
Proof.
  intros Hr Ho. destruct (server_inv_reach _ _ Hr) as [[_ _ A3 _ _] _ [C1 _ _ C4] _]. rewrite Ho in C4.
  split; [|split].
  - rewrite C4 in C1. by apply NoDup_app in C1 as [? _].
  - intros k Hk. rewrite C4. set_solver.
  - rewrite A3. intros Hw. destruct (no_workers _ Hw) as (_ & _ & _ & E4 & _). rewrite C4, E4. by rewrite app_nil_r.
Qed.
End spec.

(** ** The accept loop *)

(** The n-th temporary accept error in a row, counted from zero, makes Serve wait 5 ms times two
    to the n, at most one second. *)
Theorem accept_backoff n : Nat.iter (S n) next_delay 0 = Z.min (5000000 * 2 ^ Z.of_nat n) time_Second.
Proof.
  induction n as [|n IH]; [done|]. change (Nat.iter (S (S n)) next_delay 0) with (next_delay (Nat.iter (S n) next_delay 0)).
  rewrite IH. replace (Z.of_nat (S n)) with (Z.succ (Z.of_nat n)) by lia. rewrite Z.pow_succ_r by lia.
  pose proof (Z.pow_pos_nonneg 2 (Z.of_nat n)). unfold next_delay, time_Second in *.
  destruct (Z.eqb_spec (Z.min (5000000 * 2 ^ Z.of_nat n) 1000000000) 0); lia.
Qed.

(** The errors of a tree in the order in which errors.As and errors.Is visit them. *)
Fixpoint preorder (e : GoErr) : list GoErr :=
  match e with mkGoErr t n m ws => mkGoErr t n m ws :: flat_map preorder ws end.

Lemma GoErr_ind_wraps (P : GoErr → Prop) :
  (∀ t n m ws, Forall P ws → P (mkGoErr t n m ws)) → ∀ e, P e.
Proof.
  intros H. fix rec 1. intros [t n m ws]. apply H. induction ws as [|w ws IH]; [apply Forall_nil_2|].
  apply Forall_cons_2; [apply rec|exact IH].
Qed.

Lemma errors_As_preorder e : errors_As_net e = head (omap geTimeout (preorder e)).
Proof.
  induction e as [t n m ws IH] using GoErr_ind_wraps. cbn. destruct t as [t|]; [done|].
  induction IH as [|w ws Hw _ IHws]; [done|]. cbn. rewrite Hw, IHws, omap_app.
  by destruct (omap geTimeout (preorder w)).
Qed.

Lemma errors_Is_preorder target e : errors_Is target e = true ↔ ∃ x, x ∈ preorder e ∧ geErrno x = Some target.
Proof.
  induction e as [t n m ws IH] using GoErr_ind_wraps. cbn. rewrite orb_true_iff, bool_decide_eq_true, existsb_exists.
  rewrite Forall_forall in IH. setoid_rewrite elem_of_cons. setoid_rewrite list_elem_of_In. setoid_rewrite in_flat_map. split.
  - intros [Hn|(w & Hw & Hx)]; [by exists (mkGoErr t n m ws); auto|].
    apply IH in Hx as (x & Hx & He); [|by apply list_elem_of_In]. exists x. split; [right; exists w; split; [done|by apply list_elem_of_In]|done].
  - intros (x & [->|(w & Hw & Hx)] & He); [by left|right]. exists w. split; [done|].
    apply IH; [by apply list_elem_of_In|]. exists x. by split; [apply list_elem_of_In|].
Qed.

(** An accept error is retried exactly when the first net.Error of its tree reports a timeout,
    some error of the tree is ECONNABORTED, EMFILE or ENFILE, or the error itself carries the
    temporary marker; nil is never retried. *)
Theorem retryable_exact err :
  Retryable err = true ↔
  ∃ e, err = Some e ∧
    (head (omap geTimeout (preorder e)) = Some true ∨
     (∃ x, x ∈ preorder e ∧ (geErrno x = Some ECONNABORTED ∨ geErrno x = Some EMFILE ∨ geErrno x = Some ENFILE)) ∨
     geTemporary e = Some true).
Proof.
  destruct err as [e|]; [|split; [done|by intros (? & ? & _)]]. cbn [Retryable]. setoid_rewrite <-errors_As_preorder.
  pose proof (errors_Is_preorder ECONNABORTED e) as H1. pose proof (errors_Is_preorder EMFILE e) as H2.
  pose proof (errors_Is_preorder ENFILE e) as H3.
  assert (errors_Is ECONNABORTED e || errors_Is EMFILE e || errors_Is ENFILE e = true ↔
    ∃ x, x ∈ preorder e ∧ (geErrno x = Some ECONNABORTED ∨ geErrno x = Some EMFILE ∨ geErrno x = Some ENFILE)) as H.
  { rewrite !orb_true_iff, H1, H2, H3. naive_solver. }
  clear H1 H2 H3. case_bool_decide; [naive_solver|].
  destruct (errors_Is ECONNABORTED e || _ || _); [naive_solver|]. rewrite bool_decide_eq_true.
  split; [naive_solver|]. intros (e' & [= <-] & [?|[Hx|?]]); [done|apply H in Hx; done|done].
Qed.

(** ** Runs *)

Definition ex_server_config : ServerConfig := mkServerConfig (ex_static 9) [] 0 ex_conn_config 0 5 true true.
Definition ex_server : ServerConfig :=
  mkServerConfig (ex_static 9) [] CipherChaCha20Poly1305
    (mkConnectionConfig 16 16 (10 * time_Second) (60 * time_Second) (5 * time_Second) (45 * time_Second)
       (20 * time_Second) (40 * time_Second) true 0) 64 5 true true.

Definition srv_go (i n : nat) : list SLabel := replicate n (SlRun i ScGo).

(** One connection is accepted and admitted, another is in its handshake. *)
Definition ex_serving : list SLabel :=
  SlServe (Some 0%nat) :: srv_go 0 5 ++ [SlRun 1 (ScResult None)] ++ srv_go 1 2 ++ [SlRun 1 (ScResult None)] ++ srv_go 1 2 ++
  srv_go 0 4.
(** Close up to its wait. *)
Definition ex_closing : list SLabel :=
  SlClose false :: srv_go 4 1 ++ [SlRun 4 (ScResult None)] ++ srv_go 4 4.
(** The workers end. *)
Definition ex_ended : list SLabel :=
  srv_go 1 8 ++ [SlRun 3 (ScResult (Some ErrTransportClosed))] ++ srv_go 3 4 ++ srv_go 4 1.

Lemma server_accounting_witness :
  match server_run ex_server ex_serving server_init with
  | Some s => PendingConnections (Stats ex_server (ssServer s) (ssServer s)) = 1 ∧
              ActiveConnections (Stats ex_server (ssServer s) (ssServer s)) = 1 ∧
              HandshakeSlotsUsed (Stats ex_server (ssServer s) (ssServer s)) ≤ 64
  | None => False
  end.
Proof.
  assert (ssThr <$> server_run ex_server ex_serving server_init =
    Some [SvAccept 0 0; HcRun 0; WcSelect 0; HcHandshake 1]) as H by reflexivity.
  destruct (server_run ex_server ex_serving server_init) as [s|] eqn:Hrun; [|discriminate H]. injection H as Hthr.
  destruct (@server_accounting ex_server toy_noise ex_server_config s eq_refl (server_run_reachable _ _ _ Hrun))
    as (_ & Hle & _ & _ & Hp & Ha & _). rewrite Hthr in Hp, Ha.
  split; [exact Hp|]. split; [exact Ha|exact Hle].
Defined.

Lemma server_no_leak_witness :
  match server_run ex_server (ex_serving ++ ex_closing ++ ex_ended) server_init with
  | Some s => srWg (ssServer s) = 0%nat ∧ srHandshakeConns (ssServer s) = ∅ ∧ srConns (ssServer s) = ∅
  | None => False
  end.
Proof.
  assert ((λ s, srWg (ssServer s)) <$> server_run ex_server (ex_serving ++ ex_closing ++ ex_ended) server_init = Some 0%nat)
    as H by reflexivity.
  destruct (server_run ex_server (ex_serving ++ ex_closing ++ ex_ended) server_init) as [s|] eqn:Hrun; [|discriminate H].
  injection H as Hwg. destruct (server_no_leak ex_server s (server_run_reachable _ _ _ Hrun)) as (_ & _ & Hz).
  destruct (Hz Hwg) as (H1 & H2 & _). split; [exact Hwg|]. split; [exact H1|exact H2].
Defined.

Lemma server_shutdown_complete_witness :
  match server_run ex_server (ex_serving ++ ex_closing) server_init with
  | Some s => srWg (ssServer s) = 2%nat ∧ srHandshakeConns (ssServer s) ⊆ srClosedSockets (ssServer s) ∧
              srConns (ssServer s) ⊆ srClosedConns (ssServer s)
  | None => False
  end.
Proof.
  assert ((λ s, (srWg (ssServer s), ssThr s)) <$> server_run ex_server (ex_serving ++ ex_closing) server_init =
    Some (2%nat, [SvAccept 0 0; HcRun 0; WcSelect 0; HcHandshake 1; ClWait None])) as H by reflexivity.
  destruct (server_run ex_server (ex_serving ++ ex_closing) server_init) as [s|] eqn:Hrun; [|discriminate H].
  injection H as Hwg Hthr. destruct (server_shutdown_complete ex_server s (server_run_reachable _ _ _ Hrun)) as (Hw & _).
  split; [exact Hwg|]. apply (Hw None). rewrite Hthr. apply list_elem_of_In. cbn. tauto.
Defined.

Lemma on_disconnect_once_witness :
  match server_run ex_server (ex_serving ++ ex_closing ++ ex_ended) server_init with
  | Some s => srDisconnects (ssServer s) = [0%nat] ∧ srDisconnects (ssServer s) ≡ₚ srAdmitted (ssServer s)
  | None => False
  end.
Proof.
  assert ((λ s, (srWg (ssServer s), srDisconnects (ssServer s))) <$>
    server_run ex_server (ex_serving ++ ex_closing ++ ex_ended) server_init = Some (0%nat, [0%nat])) as H by reflexivity.
  destruct (server_run ex_server (ex_serving ++ ex_closing ++ ex_ended) server_init) as [s|] eqn:Hrun; [|discriminate H].
  injection H as Hwg Hd. split; [exact Hd|].
  exact (proj2 (proj2 (on_disconnect_once ex_server s (server_run_reachable _ _ _ Hrun) eq_refl)) Hwg).
Defined.

(** Close does not wait for the goroutine that closes a connection on shutdown: here it has
    returned and the goroutine of connection 0 is still at its select. *)
Example close_leaves_watcher :
  ∃ s, server_reachable ex_server s ∧ ssThr s !! 4%nat = Some (SReturn None) ∧ ssThr s !! 2%nat = Some (WcSelect 0).
Proof.
  assert ((λ s, (ssThr s !! 4%nat, ssThr s !! 2%nat)) <$>
    server_run ex_server (ex_serving ++ ex_closing ++ ex_ended) server_init = Some (Some (SReturn None), Some (WcSelect 0)))
    as H by reflexivity.
  destruct (server_run ex_server (ex_serving ++ ex_closing ++ ex_ended) server_init) as [s|] eqn:Hrun; [|discriminate H].
  injection H as H1 H2. exists s. split; [exact (server_run_reachable _ _ _ Hrun)|exact (conj H1 H2)].
Qed.
