(* ===== verification/ServerLive.v ===== *)
(** * Closing a server ends

    Liveness of Close and Abort.  [rank] bounds what is left to do for the workers,
    the watchers and the closing calls once shutdown has begun: their steps always
    bring it down, and no step of an accept loop brings it up.  As long as it is
    not zero one of them can move, whatever the others wait for. *)

From S2P Require Import Prelude Wire Header Frame Tlv Utf8 Messages Replay Sha256 Crypto Rekey Session Handshake Config.
From S2P Require Import Server ServerSpec.

Local Open Scope nat_scope.

(** The steps a goroutine has left at most, those of the goroutines it starts
    included. *)
Definition rank (s : Server) (pc : Pc) : nat :=
  match pc with
  | SvSpawn _ _ => 17 | HcHandshake _ => 16 | HcReleaseHandshake _ _ => 15 | HcAcquire _ => 14 | HcAdmission _ => 13
  | HcRegister _ => 12 | HcWatch _ => 11 | HcRun _ => 8 | HcCancel _ => 7 | HcUnregisterConn _ => 6
  | HcDisconnect _ _ => 5 | HcReleaseConn _ _ => 4 | HcCloseTransport _ _ => 3 | HcUnregister _ _ => 2 | HcDone => 1
  | ClBegin _ => 5 + size (srHandshakeConns s) + size (srConns s)
  | ClListener _ _ hs cs => 4 + length hs + length cs
  | ClSockets _ hs cs _ => 3 + length hs + length cs
  | ClConns _ cs _ => 2 + length cs
  | ClWait _ => 1
  | WcSelect _ => 2 | WcClose _ => 1
  | _ => 0
  end.

Definition total (s : Server) (thr : list Pc) : nat := sum_list (rank s <$> thr).

(** The label is a step of a goroutine, not a new call. *)
Definition is_run (l : SLabel) : bool := match l with SlRun _ _ => true | _ => false end.

(** The steps of a run that goroutines with something left to do make. *)
Definition busy (s : SSys) (l : SLabel) : nat :=
  match l with
  | SlRun i _ => match ssThr s !! i with Some pc => Nat.min 1 (rank (ssServer s) pc) | None => 0 end
  | _ => 0
  end.

(** A call of Close or Abort, also after it has returned. *)
Definition closing (pc : Pc) : bool :=
  match pc with
  | ClBegin _ | ClListener _ _ _ _ | ClSockets _ _ _ _ | ClConns _ _ _ | ClWait _ | SReturn _ => true
  | _ => false
  end.

(** Takes the choice [c] and follows every branch. *)
Ltac moves c :=
  exists c; cbn; unfold next, next_go, registerConn, release; repeat case_match; try discriminate; try (by eexists); exfalso;
  match goal with H : _ ≠ [] → 0 < _ |- _ => specialize (H ltac:(discriminate)); lia | _ => congruence end.

Lemma total_perm s thr thr' : thr ≡ₚ thr' → total s thr = total s thr'.
Proof. unfold total. induction 1; cbn; lia. Qed.

Lemma total_cons s pc thr : total s (pc :: thr) = rank s pc + total s thr.
Proof. done. Qed.

Lemma total_app s thr thr' : total s (thr ++ thr') = total s thr + total s thr'.
Proof. unfold total. by rewrite fmap_app, sum_list_with_app. Qed.

Section live.
Context (conf : ServerConfig).

Fixpoint busy_steps (ls : list SLabel) (s : SSys) : nat :=
  match ls with
  | [] => 0
  | l :: ls => busy s l + match server_step conf l s with Some s => busy_steps ls s | None => 0 end
  end.

(** In shutdown a step uses up a unit of its goroutine's rank, if it has one. *)
Lemma rank_step c pc s s' pc' new :
  pc_step conf c pc s = Some (s', pc', new) → srInShutdown s = true →
  total s' (pc' :: new) + Nat.min 1 (rank s pc) ≤ rank s pc.
Proof.
  intros H Hs. unfold total. srv_cases H; try congruence; cbn; unfold size, set_size; cbn; lia.
Qed.

Lemma rank_mono c pc s s' pc' new x :
  pc_step conf c pc s = Some (s', pc', new) → srInShutdown s = true → rank s' x ≤ rank s x.
Proof.
  intros H Hs. destruct (shutdown_shrinks _ _ _ _ _ _ _ H Hs) as (_ & Hh & Hc & _).
  apply subseteq_size in Hh, Hc. destruct x; cbn; lia.
Qed.

Lemma total_mono c pc s s' pc' new thr :
  pc_step conf c pc s = Some (s', pc', new) → srInShutdown s = true → total s' thr ≤ total s thr.
Proof.
  intros H Hs. induction thr as [|x thr IH]; [done|]. rewrite !total_cons. pose proof (rank_mono _ _ _ _ _ _ x H Hs). lia.
Qed.

Lemma step_total l s s' :
  is_run l = true → server_step conf l s = Some s' → srInShutdown (ssServer s) = true →
  busy s l + total (ssServer s') (ssThr s') ≤ total (ssServer s) (ssThr s) ∧ srInShutdown (ssServer s') = true.
Proof.
  intros Hl Hstep Hs. destruct l as [i c| |]; [|done..]. cbn in Hstep. unfold busy. destruct (ssThr s !! i) as [pc|] eqn:Hpc; [|done].
  cbn in Hstep. destruct (pc_step conf c pc (ssServer s)) as [[[sv pc'] new]|] eqn:Hp; [|done]. injection Hstep as <-.
  cbn [ssServer ssThr].
  split; [|by destruct (shutdown_shrinks _ _ _ _ _ _ _ Hp Hs)].
  rewrite (total_perm _ _ _ (insert_perm _ new _ _ pc' Hpc)), (total_perm _ _ _ (delete_Permutation _ _ _ Hpc)).
  pose proof (rank_step _ _ _ _ _ _ Hp Hs). pose proof (total_mono _ _ _ _ _ _ (delete i (ssThr s)) Hp Hs).
  rewrite !total_cons, total_app in *. lia.
Qed.

Lemma run_total ls : ∀ s s',
  Forall is_run ls → server_run conf ls s = Some s' → srInShutdown (ssServer s) = true →
  busy_steps ls s + total (ssServer s') (ssThr s') ≤ total (ssServer s) (ssThr s).
Proof.
  induction ls as [|l ls IH]; intros s s' Hls Hrun Hs; cbn [busy_steps server_run] in *; [injection Hrun as <-; lia|].
  apply Forall_cons in Hls as [Hl Hls]. destruct (server_step conf l s) as [s1|] eqn:Hstep; [|done].
  destruct (step_total l s s1 (Is_true_eq_true _ Hl) Hstep Hs) as [H1 Hs1]. specialize (IH s1 s' Hls Hrun Hs1). lia.
Qed.

(** A goroutine with something left to do that does not wait for the workers can
    move. *)
Lemma rank_enabled s pc :
  0 < rank s pc → (∀ r, pc ≠ ClWait r) → srClosed s = true →
  (hs_slot pc ≠ [] → 0 < srHandshakes s) → (cn_slot pc ≠ [] → 0 < srConnSlots s) →
  ∃ c e, pc_step conf c pc s = Some e.
Proof.
  intros Hr Hw Hc Hh Hn. destruct pc; cbn in *; try lia; try (by destruct (Hw r)).
  all: solve [moves ScGo|moves (ScResult None)|moves ScClosed].
Qed.

Lemma bind_elem_pos {B} (f : Pc → list B) pc thr : pc ∈ thr → f pc ≠ [] → 0 < length (thr ≫= f).
Proof.
  intros Hin Hf. destruct (f pc) as [|b l] eqn:E; [done|]. assert (b ∈ thr ≫= f) as Hb.
  { apply list_elem_of_bind. exists pc. rewrite E. split; [by left|done]. }
  destruct (thr ≫= f); [by apply not_elem_of_nil in Hb|cbn; lia].
Qed.

(** With nothing but waiting calls left there is no worker. *)
Lemma waiting_only s thr :
  (∀ pc, pc ∈ thr → rank s pc = 0 ∨ ∃ r, pc = ClWait r) → length (thr ≫= work) = 0.
Proof.
  induction thr as [|pc thr IH]; intros Hall; [done|]. cbn. rewrite length_app, IH by (intros; apply Hall; by right).
  destruct (Hall pc (list_elem_of_here _ _)) as [Hr|[r ->]]; [|done]. by destruct pc.
Qed.

Definition waits (pc : Pc) : bool := match pc with ClWait _ => true | _ => false end.

(** A goroutine that waits for nobody can step. *)
Lemma enabled_step s i pc :
  server_inv conf (ssServer s) (ssThr s) → srInShutdown (ssServer s) = true → ssThr s !! i = Some pc →
  0 < rank (ssServer s) pc → waits pc = false → ∃ c s', server_step conf (SlRun i c) s = Some s'.
Proof.
  intros Hi Hs Hpc Hr Hw. pose proof (sd_closed _ _ (si_shutdown _ _ _ Hi)) as Hcl. rewrite Hs in Hcl.
  pose proof (list_elem_of_lookup_2 _ _ _ Hpc) as Hin.
  destruct (rank_enabled (ssServer s) pc) as (c & [[sv pc'] new] & Hp); [done|by intros r ->|done|..].
  - rewrite (ct_handshakes _ _ _ (si_counts _ _ _ Hi)). by apply bind_elem_pos.
  - rewrite (ct_conns _ _ _ (si_counts _ _ _ Hi)). by apply bind_elem_pos.
  - exists c. eexists. cbn. rewrite Hpc. cbn. by rewrite Hp.
Qed.

(** When all others are through, so can a call of Close that waits for the workers. *)
Lemma waiting_step s :
  server_inv conf (ssServer s) (ssThr s) → 0 < total (ssServer s) (ssThr s) →
  (∀ pc, pc ∈ ssThr s → 0 < rank (ssServer s) pc → waits pc = true) →
  ∃ i r s', ssThr s !! i = Some (ClWait r) ∧ server_step conf (SlRun i ScGo) s = Some s'.
Proof.
  intros Hi Ht Hno. assert (srWg (ssServer s) = 0) as Hwg.
  { rewrite (ct_wg _ _ _ (si_counts _ _ _ Hi)). apply (waiting_only (ssServer s)). intros pc Hin. specialize (Hno pc Hin).
    destruct (decide (rank (ssServer s) pc = 0)) as [|Hr]; [by left|]. destruct pc; try (discriminate Hno; lia). right. by eexists. }
  assert (∃ i pc, ssThr s !! i = Some pc ∧ 0 < rank (ssServer s) pc) as (i & pc & Hpc & Hr).
  { clear -Ht. unfold total in Ht. induction (ssThr s) as [|pc thr IH]; cbn in Ht; [lia|].
    destruct (decide (rank (ssServer s) pc = 0)); [|exists 0, pc; split; [done|lia]].
    destruct IH as (i & pc' & ? & ?); [lia|]. by exists (S i), pc'. }
  specialize (Hno pc (list_elem_of_lookup_2 _ _ _ Hpc) Hr). destruct pc; try discriminate Hno.
  exists i, r. eexists. split; [done|]. cbn. rewrite Hpc. cbn. by rewrite Hwg.
Qed.

Lemma progress s :
  server_inv conf (ssServer s) (ssThr s) → srInShutdown (ssServer s) = true → 0 < total (ssServer s) (ssThr s) →
  ∃ i c s', server_step conf (SlRun i c) s = Some s' ∧ busy s (SlRun i c) = 1.
Proof.
  intros Hi Hs Ht.
  destruct (decide (Exists (λ pc, 0 < rank (ssServer s) pc ∧ waits pc = false) (ssThr s))) as [Hex|Hno].
  - apply Exists_exists in Hex as (pc & [i Hpc]%list_elem_of_lookup & Hr & Hw).
    destruct (enabled_step s i pc) as (c & s' & Hstep); try done. exists i, c, s'. split; [done|]. unfold busy. rewrite Hpc. lia.
  - apply not_Exists_Forall in Hno; [|intros ?; apply _]. rewrite Forall_forall in Hno.
    destruct (waiting_step s Hi Ht) as (i & r & s' & Hpc & Hstep).
    { intros pc Hin Hr. specialize (Hno pc Hin). cbn in Hno. destruct (waits pc); [done|]. by destruct Hno. }
    exists i, ScGo, s'. split; [done|]. unfold busy. by rewrite Hpc.
Qed.

Lemma closing_step c pc s s' pc' new : pc_step conf c pc s = Some (s', pc', new) → closing pc = true → closing pc' = true.
Proof. intros H. srv_cases H; done. Qed.

Lemma closing_kept l s s' i pc :
  server_step conf l s = Some s' → ssThr s !! i = Some pc → closing pc = true →
  ∃ pc', ssThr s' !! i = Some pc' ∧ closing pc' = true.
Proof.
  intros Hstep Hi Hc.
  destruct l as [j c|[l|]|ab]; cbn in Hstep; [|injection Hstep as <-; exists pc; split; [by apply lookup_app_l_Some|done]..].
  destruct (ssThr s !! j) as [pj|] eqn:Hj; [|done]. cbn in Hstep.
  destruct (pc_step conf c pj (ssServer s)) as [[[sv pc'] new]|] eqn:Hp; [|done]. injection Hstep as <-. cbn.
  destruct (decide (i = j)) as [->|Hne].
  - exists pc'. split; [|rewrite Hj in Hi; injection Hi as ->; by eapply closing_step].
    apply lookup_app_l_Some, list_lookup_insert_eq. by eapply lookup_lt_Some.
  - exists pc. split; [|done]. apply lookup_app_l_Some. by rewrite list_lookup_insert_ne.
Qed.

Lemma closing_run ls : ∀ s s' i pc,
  server_run conf ls s = Some s' → ssThr s !! i = Some pc → closing pc = true →
  ∃ pc', ssThr s' !! i = Some pc' ∧ closing pc' = true.
Proof.
  induction ls as [|l ls IH]; intros s s' i pc Hrun Hi Hc; cbn in Hrun; [injection Hrun as <-; by exists pc|].
  destruct (server_step conf l s) as [s1|] eqn:Hstep; [|done]. cbn in Hrun.
  destruct (closing_kept _ _ _ _ _ Hstep Hi Hc) as (pc1 & Hi1 & Hc1). by eapply IH.
Qed.

(** A run that leaves nothing to do. *)
Lemma ending_run n : ∀ s,
  total (ssServer s) (ssThr s) ≤ n → server_inv conf (ssServer s) (ssThr s) → srInShutdown (ssServer s) = true →
  ∃ ls s', Forall is_run ls ∧ server_run conf ls s = Some s' ∧ server_inv conf (ssServer s') (ssThr s') ∧
    total (ssServer s') (ssThr s') = 0.
Proof.
  induction n as [|n IH]; intros s Hn Hi Hs.
  { exists [], s. split_and!; [done|done|done|lia]. }
  destruct (decide (total (ssServer s) (ssThr s) = 0)) as [H0|H0]; [by exists [], s|].
  destruct (progress s Hi Hs) as (i & c & s1 & Hstep & Hb); [lia|].
  destruct (step_total (SlRun i c) s s1 eq_refl Hstep Hs) as [Ht Hs1].
  destruct (IH s1) as (ls & s' & Hls & Hrun & Hi' & H0'); [lia|by eapply server_inv_step|done|].
  exists (SlRun i c :: ls), s'. split_and!; [by constructor|cbn [server_run]; by rewrite Hstep|done|done].
Qed.

Lemma total_zero s thr pc : total s thr = 0 → pc ∈ thr → rank s pc = 0.
Proof.
  unfold total. intros Ht Hin. induction Hin as [|x pc thr _ IH]; cbn in Ht; [lia|]. apply IH. lia.
Qed.

Lemma total_zero_idle s :
  server_inv conf (ssServer s) (ssThr s) → total (ssServer s) (ssThr s) = 0 →
  srWg (ssServer s) = 0 ∧ srHandshakeConns (ssServer s) = ∅ ∧ srConns (ssServer s) = ∅ ∧
  ∀ i pc, ssThr s !! i = Some pc → closing pc = true → ∃ r, pc = SReturn r.
Proof.
  intros Hi H0. assert (length (ssThr s ≫= work) = 0) as Hw.
  { apply (waiting_only (ssServer s)). intros pc Hin. left. by eapply total_zero. }
  destruct (no_workers _ Hw) as (Hp & Ha & _). destruct (si_sockets _ _ _ Hi) as [_ _ _ Hpend Hact].
  split_and!; [by rewrite (ct_wg _ _ _ (si_counts _ _ _ Hi))| | |].
  - rewrite Hp in Hpend. set_solver.
  - rewrite Ha in Hact. set_solver.
  - intros i pc Hpc Hc. pose proof (total_zero _ _ pc H0 (list_elem_of_lookup_2 _ _ _ Hpc)) as Hz.
    destruct pc; cbn in *; try discriminate; try lia. by eexists.
Qed.
End live.

(** ** Properties *)

(** C12: Once a server's shutdown has begun, the workers, watchers and closing calls have a
    bounded number of steps left whatever the accept loops do, and from every reachable state
    there is a run after which no worker is left, the maps are empty and every Close and Abort
    has returned. *)
Theorem server_close_ends conf s :
  server_reachable conf s → srInShutdown (ssServer s) = true →
  (∀ ls s', Forall is_run ls → server_run conf ls s = Some s' →
     busy_steps conf ls s + total (ssServer s') (ssThr s') ≤ total (ssServer s) (ssThr s)) ∧
  ∃ ls s', Forall is_run ls ∧ server_run conf ls s = Some s' ∧
    srWg (ssServer s') = 0 ∧ srHandshakeConns (ssServer s') = ∅ ∧ srConns (ssServer s') = ∅ ∧
    ∀ i pc, ssThr s !! i = Some pc → closing pc = true → ∃ r, ssThr s' !! i = Some (SReturn r).
Proof.
  intros Hr Hs. split; [intros ls s' Hls Hrun; by apply run_total|].
  destruct (ending_run conf _ s (le_n _) (server_inv_reach conf s Hr) Hs) as (ls & s' & Hls & Hrun & Hi & H0).
  exists ls, s'. destruct (total_zero_idle conf s' Hi H0) as (Hw & Hh & Hc & Hret). split_and!; try done.
  intros i pc Hpc Hcl. destruct (closing_run conf ls s s' i pc Hrun Hpc Hcl) as (pc' & Hpc' & Hcl').
  destruct (Hret _ _ Hpc' Hcl') as [r ->]. by exists r.
Qed.

(** ** Witness *)

(** Close waits for a worker in its handshake and one that runs a connection; at
    most 27 steps are left, and there is a run after which it has returned. *)
Lemma server_close_ends_witness :
  match server_run ex_server (ex_serving ++ ex_closing) server_init with
  | Some s => total (ssServer s) (ssThr s) = 27 ∧
      ∃ ls s' r, server_run ex_server ls s = Some s' ∧ srWg (ssServer s') = 0 ∧ ssThr s' !! 4 = Some (SReturn r)
  | None => False
  end.
Proof.
  assert ((λ s, (srInShutdown (ssServer s), ssThr s)) <$> server_run ex_server (ex_serving ++ ex_closing) server_init =
    Some (true, [SvAccept 0 0; HcRun 0; WcSelect 0; HcHandshake 1; ClWait None])) as H by reflexivity.
  destruct (server_run ex_server (ex_serving ++ ex_closing) server_init) as [s|] eqn:Hrun; [|discriminate H].
  injection H as Hs Hthr. split; [rewrite Hthr; reflexivity|].
  destruct (server_close_ends ex_server s (server_run_reachable _ _ _ Hrun) Hs) as [_ (ls & s' & _ & Hr & Hw & _ & _ & Hc)].
  destruct (Hc 4 (ClWait None)) as [r Hret]; [rewrite Hthr; reflexivity|reflexivity|]. exists ls, s', r.
  split; [exact Hr|]. split; [exact Hw|exact Hret].
Defined.
