(* ===== verification/Duplex.v ===== *)
(** * Two connections over a link

    Connection.v leaves open what the session and the transport return to the
    reader and the writer.  Here they are the real ones: an [Endpoint] is a
    connection with its session, and each call of readLoop and writeMessage on the
    session or on the transport is one step, so that every interleaving with the
    other goroutines, shutdown closing the session among them, is covered.  A
    [Duplex] is two endpoints; what one writes is on its way to the other, the
    network delivers any prefix of it in any segments, and may fail at any time.

    [EndpointLog] is history, read by no step: the messages accepted into and taken
    from the outbound queue, whether the writer's message is from that queue, the
    messages whose frame was given to the transport, those it reported as written,
    and the messages the session delivered. *)

From stdpp Require Import gmap.
From S2P Require Import Prelude Wire Header Frame Tlv Utf8 Messages Replay Sha256 Crypto Rekey Session.
From S2P Require Import SessionSend SessionReceive SessionPair Transport ConnectionIO Handshake Config.
From S2P Require Import Connection.

Local Open Scope Z_scope.

(** Where writeMessage and readLoop are between two calls. *)
Inductive WriteIO := IoSend | IoWrite (f : Frame) | IoMark (f : Frame).
Inductive ReadIO := IoRead | IoReceive (f : Frame).

Record EndpointLog := mkEndpointLog {
  elAccepted : list queuedMessage;
  elTaken : list queuedMessage;
  elFrom : bool;
  elTried : list (bool * queuedMessage);
  elSent : list (bool * queuedMessage);
  elGot : list Message;
}.

Section duplex.
Context {aead : AEAD}.

Record Endpoint := mkEndpoint {
  epSys : Sys;
  epSession : Session;
  epOut : WriteIO;
  epIn : ReadIO;
  epWire : list byte;
  epLog : EndpointLog;
}.

Definition endpoint_init (session : Session) : Endpoint :=
  mkEndpoint sys_init session IoSend IoRead [] (mkEndpointLog [] [] false [] [] []).

(** The message of a thread that is inside writeMessage. *)
Definition writing (st : list Frm) : option queuedMessage :=
  match st with
  | FWrite (WlWrite item) :: _ => Some item
  | FWrite (WlCloseWrite q) :: _ => Some (mkQueuedMessage (ByValue (MsgSessionClose (crMessage q))) 0 None)
  | _ => None
  end.
Definition reading (st : list Frm) : bool := match st with FRead RdRead :: _ => true | _ => false end.

(** ** Steps *)

(** The session as the step of a thread leaves it: shutdown closes it. *)
Definition local_session (st : list Frm) (s : Session) : Session :=
  match st with FShut ShSession :: _ => (Session_Close s).1 | _ => s end.

Definition log_queue (q q' : list queuedMessage) (lg : EndpointLog) : EndpointLog :=
  mkEndpointLog (elAccepted lg ++ drop (length q) q') (elTaken lg ++ take (length q - length q') q)
    (elFrom lg) (elTried lg) (elSent lg) (elGot lg).
Definition log_from (st : list Frm) (c : Choice) (lg : EndpointLog) : EndpointLog :=
  let from := match st with
    | FWrite WlSelect :: _ => match c with CCase 3 => true | _ => false end
    | FWrite WlPoll :: _ => false
    | _ => elFrom lg
    end in
  mkEndpointLog (elAccepted lg) (elTaken lg) from (elTried lg) (elSent lg) (elGot lg).
Definition log_tried (item : queuedMessage) (lg : EndpointLog) : EndpointLog :=
  mkEndpointLog (elAccepted lg) (elTaken lg) (elFrom lg) (elTried lg ++ [(elFrom lg, item)]) (elSent lg) (elGot lg).
Definition log_sent (item : queuedMessage) (lg : EndpointLog) : EndpointLog :=
  mkEndpointLog (elAccepted lg) (elTaken lg) (elFrom lg) (elTried lg) (elSent lg ++ [(elFrom lg, item)]) (elGot lg).
Definition log_got (m : Message) (lg : EndpointLog) : EndpointLog :=
  mkEndpointLog (elAccepted lg) (elTaken lg) (elFrom lg) (elTried lg) (elSent lg) (elGot lg ++ [m]).

(** A step of the connection that is no call on session or transport by the
    reader or the writer; Send, WriteFrame and MarkRekeySent of writeMessage;
    ReadFrame and Receive of readLoop. *)
Inductive ELabel :=
  | ELocal (l : Label)
  | ESend (clock : Clock) (entropy : list byte)
  | EWrite (ctx : CtxView) (w : WriteSide)
  | EMark (clock : Clock)
  | ERead (ctx : CtxView) (r : ReadSide)
  | EReceive (clock : Clock).

Section endpoint.
Context (conf : ConnectionConfig).

Definition local_step (l : Label) (ep : Endpoint) : option Endpoint :=
  let thr := sysThr (epSys ep) in
  match l with
  | LRun i c =>
      match writing (thr i), reading (thr i) with
      | None, false =>
          s ← sys_step conf l (epSys ep);
          Some (mkEndpoint s (local_session (thr i) (epSession ep)) (epOut ep) (epIn ep) (epWire ep)
                  (log_from (thr i) c (log_queue (qOutbound (sysConn (epSys ep))) (qOutbound (sysConn s)) (epLog ep))))
      | _, _ => None
      end
  | _ => s ← sys_step conf l (epSys ep); Some (mkEndpoint s (epSession ep) (epOut ep) (epIn ep) (epWire ep) (epLog ep))
  end.

(** writeMessage, or the reading half of readLoop, returns with [c]. *)
Definition io_return (i : nat) (c : Choice) (session : Session) (lg : EndpointLog) (ep : Endpoint) : option Endpoint :=
  s ← sys_step conf (LRun i c) (epSys ep);
  Some (mkEndpoint s session (if decide (i = writer) then IoSend else epOut ep)
          (if decide (i = reader) then IoRead else epIn ep) (epWire ep) lg).

Definition send_step (clock : Clock) (entropy : list byte) (ep : Endpoint) : option Endpoint :=
  match writing (sysThr (epSys ep) writer), epOut ep with
  | Some item, IoSend =>
      match Session_Send clock entropy (qmMessage item) (qmPadLength item) (epSession ep) with
      | (s, Ok f) => Some (mkEndpoint (epSys ep) s (IoWrite f) (epIn ep) (epWire ep) (epLog ep))
      | (s, Err e) => io_return writer (CErr (Some e)) s (epLog ep) ep
      | (_, Panic) => None
      end
  | _, _ => None
  end.

(** The octets go to the peer. *)
Definition write_step (ctx : CtxView) (w : WriteSide) (ep : Endpoint) : option (Endpoint * list byte) :=
  match writing (sysThr (epSys ep) writer), epOut ep with
  | Some item, IoWrite f =>
      let '(_, out, o) := WriteFrame ctx w f in
      if negb (hdrMessageType (frHeader f) =? MessageTypeRekeyInit) then
        let lg := log_tried item (epLog ep) in
        match o with
        | Ok _ => ep ← io_return writer (CErr None) (epSession ep) (log_sent item lg) ep; Some (ep, out)
        | Err e => ep ← io_return writer (CErr (Some e)) (epSession ep) lg ep; Some (ep, out)
        | Panic => None
        end
      else
        match o with
        | Ok _ => Some (mkEndpoint (epSys ep) (epSession ep) (IoMark f) (epIn ep) (epWire ep) (epLog ep), out)
        | Err e => ep ← io_return writer (CErr (Some e)) (epSession ep) (epLog ep) ep; Some (ep, out)
        | Panic => None
        end
  | _, _ => None
  end.

Definition mark_step (clock : Clock) (ep : Endpoint) : option Endpoint :=
  match writing (sysThr (epSys ep) writer), epOut ep with
  | Some _, IoMark f =>
      match Session_MarkRekeySent clock f (epSession ep) with
      | (s, Ok _) => Some (mkEndpoint (epSys ep) s IoSend (epIn ep) (epWire ep) (epLog ep))
      | (s, Err e) => io_return writer (CErr (Some e)) s (epLog ep) ep
      | (_, Panic) => None
      end
  | _, _ => None
  end.

Definition read_step (ctx : CtxView) (r : ReadSide) (ep : Endpoint) : option Endpoint :=
  match reading (sysThr (epSys ep) reader) && bool_decide (stream_of r `prefix_of` epWire ep), epIn ep with
  | true, IoRead =>
      let '(r', o) := ReadFrame ctx r in
      let wire := drop (length (stream_of r) - length (stream_of r')) (epWire ep) in
      let ep := mkEndpoint (epSys ep) (epSession ep) (epOut ep) (epIn ep) wire (epLog ep) in
      match o with
      | Ok f => Some (mkEndpoint (epSys ep) (epSession ep) (epOut ep) (IoReceive f) (epWire ep) (epLog ep))
      | Err e => io_return reader (CErr (Some e)) (epSession ep) (epLog ep) ep
      | Panic => None
      end
  | _, _ => None
  end.

Definition receive_step (clock : Clock) (ep : Endpoint) : option Endpoint :=
  match reading (sysThr (epSys ep) reader), epIn ep with
  | true, IoReceive f =>
      match Session_Receive clock f (epSession ep) with
      | (s, Ok m) => io_return reader (CMsg m) s (log_got m (epLog ep)) ep
      | (s, Err e) => io_return reader (CErr (Some e)) s (epLog ep) ep
      | (_, Panic) => None
      end
  | _, _ => None
  end.

Definition endpoint_step (l : ELabel) (ep : Endpoint) : option (Endpoint * list byte) :=
  match l with
  | ELocal l => ep ← local_step l ep; Some (ep, [])
  | ESend clock entropy => ep ← send_step clock entropy ep; Some (ep, [])
  | EWrite ctx w => write_step ctx w ep
  | EMark clock => ep ← mark_step clock ep; Some (ep, [])
  | ERead ctx r => ep ← read_step ctx r ep; Some (ep, [])
  | EReceive clock => ep ← receive_step clock ep; Some (ep, [])
  end.
End endpoint.

Definition arrive (out : list byte) (ep : Endpoint) : Endpoint :=
  mkEndpoint (epSys ep) (epSession ep) (epOut ep) (epIn ep) (epWire ep ++ out) (epLog ep).

Record Duplex := mkDuplex { dxA : Endpoint; dxB : Endpoint }.
Inductive DLabel := DxA (l : ELabel) | DxB (l : ELabel).

Section two.
Context (confA confB : ConnectionConfig).

Definition duplex_step (l : DLabel) (d : Duplex) : option Duplex :=
  match l with
  | DxA l => '(a, out) ← endpoint_step confA l (dxA d); Some (mkDuplex a (arrive out (dxB d)))
  | DxB l => '(b, out) ← endpoint_step confB l (dxB d); Some (mkDuplex (arrive out (dxA d)) b)
  end.

Fixpoint duplex_run (ls : list DLabel) (d : Duplex) : option Duplex :=
  match ls with [] => Some d | l :: ls => d ← duplex_step l d; duplex_run ls d end.
End two.

(** Arguments of their Go types. *)
Definition op_args_typed (op : Op) : Prop :=
  match op with
  | OpSendPadded m pad | OpSendPaddedContext _ m pad | OpSendPaddedAndWait _ m pad => AnyMessage_typed m ∧ uint 8 pad
  | _ => True
  end.
Definition label_typed (l : ELabel) : Prop :=
  match l with ELocal (LCall _ op) => op_args_typed op | _ => True end.
Definition dlabel_typed (l : DLabel) : Prop := match l with DxA l | DxB l => label_typed l end.

Section reach.
Context (confA confB : ConnectionConfig).
Definition duplex_any_step (d d' : Duplex) : Prop := ∃ l, dlabel_typed l ∧ duplex_step confA confB l d = Some d'.
Definition duplex_reachable (A B : Session) (d : Duplex) : Prop :=
  rtc duplex_any_step (mkDuplex (endpoint_init A) (endpoint_init B)) d.
End reach.
End duplex.
