(* ===== verification/DuplexSteps.v ===== *)
(** * Steps of a connection with its session and transport

    What the steps of Connection.v and Duplex.v do to what a duplex link depends
    on: the reader and the writer that have stopped stay stopped, what is queued is
    of its Go type, the outbound queue is first in, first out, and an endpoint does
    what its connection can do. *)

From stdpp Require Import gmap.
From S2P Require Import Prelude Wire Header Frame Tlv Utf8 Messages Replay Sha256 Crypto Rekey Session.
From S2P Require Import SessionSend SessionReceive SessionPair Transport ConnectionIO Handshake Config.
From S2P Require Import Connection ConnectionSteps ConnectionSafety ConnectionFlow Duplex.

Local Open Scope Z_scope.

(** ** Loops that have stopped *)

(** A frame from which the writer may still write, or the reader read. *)
Definition writes (fr : Frm) : bool :=
  match fr with
  | FWrite (WlPoll | WlSelect | WlWrite _ | WlComplete _ None | WlCheck None | WlCloseWrite _) => true
  | _ => false
  end.
Definition reads (fr : Frm) : bool := match fr with FRead _ => true | _ => false end.

Definition stopped (P : Frm → bool) (k : nat) (s : Sys) : Prop :=
  syStart (sysConn s) = Finished ∧ Forall (λ fr, P fr = false) (sysThr s k).

Lemma frame_step_writes conf env i joined c fr cn cn' frs :
  frame_step conf env i joined c fr cn = Some (cn', frs) → writes fr = false → Forall (λ fr, writes fr = false) frs.
Proof. intros H. step_cases H; intros Hw; try discriminate Hw; repeat constructor; exact Hw. Qed.

Lemma frame_step_reads conf env i joined c fr cn cn' frs :
  frame_step conf env i joined c fr cn = Some (cn', frs) → reads fr = false → Forall (λ fr, reads fr = false) frs.
Proof. intros H. step_cases H; intros Hw; try discriminate Hw; repeat constructor. Qed.

Section stopped.
Context (conf : ConnectionConfig) (P : Frm → bool) (k : nat).
Context (Hk : (k ≤ joiner)%nat).
Context (Hframe : ∀ env i joined c fr cn cn' frs,
  frame_step conf env i joined c fr cn = Some (cn', frs) → P fr = false → Forall (λ fr, P fr = false) frs).
Context (Hreturn : ∀ r caller frs, return_step r caller = Some frs → P caller = false → Forall (λ fr, P fr = false) frs).

Lemma stopped_step l s s' : sys_inv conf s → sys_step conf l s = Some s' → stopped P k s → stopped P k s'.
Proof.
  intros Hinv Hstep [Hst Hf]. pose proof (sys_step_le _ _ _ _ Hinv Hstep) as Hle. destruct Hinv as [Hc Hs].
  split; [by apply Hle|]. destruct l as [i c|i op|x e]; cbn in Hstep.
  - apply thread_step_cases in Hstep as [r Hthr ->|r caller rest frs Hthr Hr ->|x rest Hthr ->|fr rest cn frs Hthr Hf' ->];
      cbn; (destruct (decide (k = i)) as [<-|Hne]; [rewrite upd_same; rewrite Hthr in Hf|rewrite upd_other by done]); try done.
    + apply Forall_cons in Hf as [_ [Hp Hrest]%Forall_cons]. apply Forall_app. eauto.
    + by apply Forall_cons in Hf as [_ ?].
    + assert (held RStart (sysConn s) i = true) as Hh by (eapply core_owner; [done|rewrite Hthr; by left|done]).
      apply bool_decide_eq_true in Hh. congruence.
    + apply Forall_cons in Hf as [Hp Hrest]. apply Forall_app. eauto.
  - repeat case_bool_decide; try discriminate. injection Hstep as <-. cbn. rewrite upd_other; [done|]. unfold joiner in *. lia.
  - destruct (sysEnv s x); [done|]. by injection Hstep as <-.
Qed.
End stopped.

Lemma stopped_writer conf l s s' :
  sys_inv conf s → sys_step conf l s = Some s' → stopped writes writer s → stopped writes writer s'.
Proof.
  apply stopped_step; [unfold writer, joiner; lia|apply frame_step_writes|].
  intros r caller frs Hr Hp. destruct caller as [|[]| | |[]| |[]| | | | | |], r; try discriminate Hr; injection Hr as <-; by repeat constructor.
Qed.

Lemma stopped_reader conf l s s' :
  sys_inv conf s → sys_step conf l s = Some s' → stopped reads reader s → stopped reads reader s'.
Proof.
  apply stopped_step; [unfold reader, joiner; lia|apply frame_step_reads|].
  intros r caller frs Hr Hp. destruct caller as [|[]| | |[]| |[]| | | | | |], r; try discriminate Hr; injection Hr as <-;
    try discriminate Hp; by repeat constructor.
Qed.

(** ** What is queued is well-typed *)

Definition close_typed (q : closeRequest) : Prop := typed (crMessage q).

Definition frame_typed (fr : Frm) : Prop :=
  match fr with
  | FEnq (EqLock a | EqCtx a | EqClosing a | EqSelect a) => item_typed (eaItem a)
  | FSendWait (SwMake _ m pad) => AnyMessage_typed m ∧ uint 8 pad
  | FWrite (WlWrite item | WlComplete item _) => item_typed item
  | FWrite (WlCloseWrite q | WlCloseResult q _) => close_typed q
  | FRead (RdNote m | RdSwitch m) => Message_typed m
  | FClose (ClOnce q | ClRecord q | ClClosing q | ClStart q | ClDone q | ClStarted q | ClLock q | ClCheck q
           | ClSelect q | ClSent q | ClAwait q | ClUnlock q _ | ClShutdown q _) => close_typed q
  | _ => True
  end.

Definition conn_typed (cn : Connection) : Prop :=
  Forall item_typed (qOutbound cn) ∧ Forall item_typed (qControl cn) ∧
  (∀ q, qCloseRequest cn = Some q → close_typed q).

Lemma next_nonce_typed cn b : typed (mkPingPong b (next_nonce cn)).
Proof. pose proof (next_nonce_pos cn). split; cbn; lia. Qed.

Lemma frame_step_typed conf env i joined c fr cn cn' frs :
  frame_step conf env i joined c fr cn = Some (cn', frs) → frame_typed fr → conn_typed cn →
  (∀ m, fr = FRead RdRead → c = CMsg m → Message_typed m) → Forall frame_typed frs ∧ conn_typed cn'.
Proof.
  intros H. step_cases H; intros Hf (Ho & Hq & Hcl) Hm.
  all: split; [repeat (apply Forall_cons_2 || apply Forall_nil_2)|]; try done.
  all: repeat match goal with
    | H : qOutbound _ = _ :: _ |- _ => rewrite H in Ho; apply Forall_cons in Ho as [? ?]; clear H
    | H : qControl _ = _ :: _ |- _ => rewrite H in Hq; apply Forall_cons in Hq as [? ?]; clear H
    end; try done; try (by apply Hcl); try (by split); try (by apply Hm).
  all: try (split; [|split]; cbn; try done; (apply Forall_app; split; [done|by apply Forall_singleton])).
  - subst z. split; [apply next_nonce_typed|done].
  - split; [done|]. split; [done|]. by intros ? [= <-].
Qed.

Definition sys_typed (s : Sys) : Prop := (∀ i, Forall frame_typed (sysThr s i)) ∧ conn_typed (sysConn s).

Lemma sys_typed_step conf l s s' :
  sys_step conf l s = Some s' → sys_typed s →
  (∀ i op, l = LCall i op → op_args_typed op) →
  (∀ i m, l = LRun i (CMsg m) → reading (sysThr s i) = true → Message_typed m) → sys_typed s'.
Proof.
  intros Hstep [Ht Hc] Hop Hm. destruct l as [i c|i op|x e]; cbn in Hstep.
  - pose proof (Ht i) as Hi.
    apply thread_step_cases in Hstep as [r Hthr ->|r caller rest frs Hthr Hr ->|x rest Hthr ->|fr rest cn frs Hthr Hf ->];
      rewrite Hthr in Hi.
    + split; [|done]. by apply frames_upd.
    + split; [|done]. apply frames_upd; [done|]. apply Forall_cons in Hi as [_ [_ Hi]%Forall_cons]. apply Forall_app. split; [|done].
      destruct caller as [|[]| | |[]| |[]| | | | | |], r; try discriminate Hr; injection Hr as <-; by apply Forall_singleton.
    + split; [|done]. apply frames_upd; [|by apply Forall_cons in Hi as [_ ?]].
      unfold spawn. repeat (apply frames_upd; [|by repeat constructor]). apply frames_upd; [|by destruct (ccHandler conf); repeat constructor].
      repeat (apply frames_upd; [|by repeat constructor]). done.
    + apply Forall_cons in Hi as [Hfr Hrest]. destruct (frame_step_typed _ _ _ _ _ _ _ _ _ Hf Hfr Hc) as [Hfrs Hcn].
      { intros m -> ->. apply (Hm i); [done|]. by rewrite Hthr. }
      split; [|done]. apply frames_upd; [done|]. by apply Forall_app.
  - repeat case_bool_decide; try discriminate. injection Hstep as <-. split; [|done]. apply frames_upd; [done|].
    apply Forall_singleton. specialize (Hop i op eq_refl). by destruct op.
  - destruct (sysEnv s x); [done|]. by injection Hstep as <-.
Qed.

Lemma sys_typed_init : sys_typed sys_init.
Proof. split; [constructor|]. by repeat split. Qed.

Lemma writing_typed s i item : sys_typed s → writing (sysThr s i) = Some item → item_typed item.
Proof.
  intros [Ht _]. specialize (Ht i). destruct (sysThr s i) as [|fr st]; [done|]. apply Forall_cons in Ht as [Hf _].
  destruct fr as [| | |[]| | | | | | | | |]; try done; intros [= <-]; [done|]. split; [exact Hf|]. by split.
Qed.

(** ** The outbound queue *)

(** The item of a writer that has not yet been given to the transport, and the
    items of which it has been told that they are written. *)
Definition hand (st : list Frm) : list queuedMessage := match writing st with Some item => [item] | None => [] end.
Definition written (fr : Frm) : list queuedMessage := match fr with FWrite (WlComplete item None) => [item] | _ => [] end.

Inductive queue_case (c : Choice) (cn cn' : Connection) (fr : Frm) (frs : list Frm) : Prop :=
  | queue_same :
      qOutbound cn' = qOutbound cn → (hand frs = [] ∨ fr = FWrite WlPoll ∨ fr = FWrite WlSelect ∧ c ≠ CCase 3) →
      queue_case c cn cn' fr frs
  | queue_push x : qOutbound cn' = qOutbound cn ++ [x] → hand frs = [] → queue_case c cn cn' fr frs
  | queue_fail x : qOutbound cn = x :: qOutbound cn' → hand frs = [] → queue_case c cn cn' fr frs
  | queue_take x : qOutbound cn = x :: qOutbound cn' → fr = FWrite WlSelect → c = CCase 3 → frs = [FWrite (WlWrite x)] →
      queue_case c cn cn' fr frs.

Lemma frame_step_queue conf env i joined c fr cn cn' frs :
  frame_step conf env i joined c fr cn = Some (cn', frs) → queue_case c cn cn' fr frs.
Proof.
  intros H. step_cases H.
  all: try (by apply queue_same; [reflexivity|left]).
  all: try (by apply queue_same; [reflexivity|right; left]).
  all: try (by apply queue_same; [reflexivity|right; right]).
  all: try (by eapply queue_push; [reflexivity|]).
  all: try (by eapply queue_fail; [eassumption|]).
  all: by eapply queue_take.
Qed.

Lemma frame_step_finished conf env i joined c fr cn cn' frs :
  frame_step conf env i joined c fr cn = Some (cn', frs) →
  (∀ item, (item, None) ∈ ghFinished cn' → (item, None) ∈ ghFinished cn ∨ item ∈ written fr) ∧
  (∀ item, item ∈ frs ≫= written → fr = FWrite (WlWrite item)).
Proof.
  intros H. step_cases H; cbn; (split; [|intros it Hin; try (by apply not_elem_of_nil in Hin)]); try (by left).
  all: try (intros it [?|Hin]%elem_of_app; [by left|]; apply list_elem_of_singleton in Hin; try discriminate Hin).
  - destruct r; [by apply not_elem_of_nil in Hin|]. by apply list_elem_of_singleton in Hin as ->.
  - injection Hin as -> <-. right. by left.
Qed.

(** ** Returning from a call *)

Lemma shape_single fr rest : shape (fr :: rest) = true → writing (fr :: rest) ≠ None ∨ reading (fr :: rest) = true → rest = [].
Proof. destruct rest as [|u [|]]; [done| |by destruct fr]. destruct fr; cbn; try done; naive_solver. Qed.

Lemma write_return conf s item r s' :
  sys_inv conf s → writing (sysThr s writer) = Some item → sys_step conf (LRun writer (CErr r)) s = Some s' →
  syStart (sysConn s) = Finished ∧
  ∃ fr, s' = mkSys (sysConn s) (sysEnv s) (upd writer [fr] (sysThr s)) ∧
    (sysThr s writer = [FWrite (WlWrite item)] ∧ fr = FWrite (WlComplete item r) ∨
     ∃ q, sysThr s writer = [FWrite (WlCloseWrite q)] ∧ fr = FWrite (WlCloseResult q r)).
Proof.
  intros [Hc Hst] Hw Hstep. cbn in Hstep. pose proof (ci_shape _ _ _ Hc writer) as Hs.
  destruct (sysThr s writer) as [|fr rest] eqn:Hthr; [done|].
  split; [by apply (loops_started _ _ _ _ _ Hst Hthr); unfold writer, joiner; lia|].
  assert (rest = []) as -> by (apply (shape_single fr); [done|left; by rewrite Hw]).
  unfold thread_step in Hstep. rewrite Hthr in Hstep.
  destruct fr as [| | |[]| | | | | | | | |]; try discriminate Hw; injection Hw as <-; cbn in Hstep; injection Hstep as <-.
  - eexists. split; [done|]. by left.
  - eexists. split; [done|]. right. by eexists.
Qed.

Lemma read_return conf s c s' :
  sys_inv conf s → reading (sysThr s reader) = true → sys_step conf (LRun reader c) s = Some s' →
  syStart (sysConn s) = Finished ∧
  ∃ fr, s' = mkSys (sysConn s) (sysEnv s) (upd reader [fr] (sysThr s)) ∧
    ((∃ e, c = CErr (Some e) ∧ fr = shut_with e) ∨ ∃ m, c = CMsg m ∧ fr = FRead (RdNote m)).
Proof.
  intros [Hc Hst] Hr Hstep. cbn in Hstep. pose proof (ci_shape _ _ _ Hc reader) as Hs.
  destruct (sysThr s reader) as [|fr rest] eqn:Hthr; [done|].
  split; [by apply (loops_started _ _ _ _ _ Hst Hthr); unfold reader, joiner; lia|].
  assert (rest = []) as -> by (apply (shape_single fr); [done|by right]).
  unfold thread_step in Hstep. rewrite Hthr in Hstep.
  destruct fr as [| | | |[]| | | | | | | |]; try discriminate Hr.
  destruct c as [|[e|]|m]; try discriminate Hstep; injection Hstep as <-; (eexists; split; [reflexivity|]); [left|right]; by eexists.
Qed.

Lemma stopped_writing s : stopped writes writer s → writing (sysThr s writer) = None.
Proof.
  intros [_ Hf]. destruct (sysThr s writer) as [|fr st]; [done|]. apply Forall_cons in Hf as [Hf _].
  by destruct fr as [| | |[]| | | | | | | | |].
Qed.
Lemma stopped_reading s : stopped reads reader s → reading (sysThr s reader) = false.
Proof.
  intros [_ Hf]. destruct (sysThr s reader) as [|fr st]; [done|]. apply Forall_cons in Hf as [Hf _]. by destruct fr.
Qed.

(** The steps that are no return leave a call inside writeMessage there. *)
Lemma local_writing conf l s s' item :
  sys_inv conf s → sys_step conf l s = Some s' → writing (sysThr s writer) = Some item →
  (∀ c, l ≠ LRun writer c) → writing (sysThr s' writer) = Some item.
Proof.
  intros [Hc Hst] Hstep Hw Hl. destruct l as [i c|i op|x e]; cbn in Hstep.
  - assert (writer ≠ i) as Hi by (intros <-; by destruct (Hl c)).
    apply thread_step_cases in Hstep as [r Hthr ->|r caller rest frs Hthr Hr ->|x rest Hthr ->|fr rest cn frs Hthr Hf' ->];
      cbn; rewrite upd_other by done; try done.
    assert (held RStart (sysConn s) i = true) as Hh by (eapply core_owner; [done|rewrite Hthr; by left|done]).
    apply bool_decide_eq_true in Hh. rewrite (st_loops _ _ Hst) in Hw; [done|left; congruence|unfold writer, joiner; lia].
  - repeat case_bool_decide; try discriminate. injection Hstep as <-. cbn. rewrite upd_other; [done|].
    unfold joiner, writer in *. lia.
  - destruct (sysEnv s x); [done|]. by injection Hstep as <-.
Qed.
