(* ===== verification/DuplexLink.v ===== *)
(** * One direction of a duplex link

    [link S R] relates a sending endpoint and the endpoint that receives from it:
    the frames on their way are a [flight] that takes the receiver's session from
    where it is to where the sender's was, and the messages given to the transport
    are those received, those in flight, and at most one that was cut off. *)

From stdpp Require Import gmap.
From S2P Require Import Prelude Wire Header Frame Tlv Utf8 Messages Replay Sha256 Crypto Rekey Session.
From S2P Require Import SessionSend SessionReceive SessionPair Transport ConnectionIO Handshake Config.
From S2P Require Import Connection ConnectionSteps ConnectionSafety ConnectionFlow Duplex DuplexSteps.
Import wire.

Local Open Scope Z_scope.
Local Opaque header_layout next_key key_confirm.

Section link.
Context {aead : AEAD} {laws : AEADLaws}.

(** ** Sessions *)

Definition sess_ok (s : Session) : Prop := send_ok s ∧ receive_ok s.

Lemma session_call_ok op s : sess_ok s → op_typed op → sess_ok (session_step op s).1.
Proof.
  intros [Hs Hr] Hop.
  exact (conj (send_effect_ok _ _ _ _ Hs (session_step_send op s Hs Hop))
              (receive_effect_ok _ _ _ Hr (session_step_receive op s Hr Hop))).
Qed.

Lemma Send_sess clock entropy item s s' o :
  sess_ok s → item_typed item → Session_Send clock entropy (qmMessage item) (qmPadLength item) s = (s', o) → sess_ok s'.
Proof.
  intros Hs Hi He. pose proof (session_call_ok (OpSend clock entropy (qmMessage item) (qmPadLength item)) s Hs Hi) as H.
  cbn [session_step] in H. by rewrite He in H.
Qed.

Lemma Receive_sess clock f s s' o : sess_ok s → Frame_ok f → Session_Receive clock f s = (s', o) → sess_ok s'.
Proof. intros Hs Hf He. pose proof (session_call_ok (OpReceive clock f) s Hs Hf) as H. cbn [session_step] in H.
  by rewrite He in H.
Qed.

Lemma Close_sess s : sess_ok s → sess_ok (Session_Close s).1.
Proof. intros Hs. exact (session_call_ok Session.OpClose s Hs I). Qed.

Lemma Mark_sess clock f s s' o : sess_ok s → Session_MarkRekeySent clock f s = (s', o) → sess_ok s'.
Proof.
  intros [Hs Hr] He. pose proof (MarkRekeySent_keeps clock f s) as Hk. rewrite He in Hk.
  split; [|by eapply receive_ok_half]. 
  destruct (MarkRekeySent_result clock f s) as [(e & He' & _)|(q & _ & Hq & _ & He')]; rewrite He' in He; injection He as <- <-;
    [done|by apply commit_rekey_ok].
Qed.

Lemma in_sync_sender A A' B : send_half A' = send_half A → in_sync A B → in_sync A' B.
Proof.
  intros Hh [Hso Hro Hid Hop Hidle Hcd Hk Hep Hwin]. pose proof (send_ok_half A A' Hh Hso) as Hso'.
  destruct A, A'. injection Hh as -> -> ->. by split.
Qed.

Lemma in_sync_receiver A B B' :
  receive_half B' = receive_half B → sessClosed B' = sessClosed B → in_sync A B → in_sync A B'.
Proof.
  intros Hh Hc [Hso Hro Hid Hop Hidle Hcd Hk Hep Hwin]. pose proof (receive_ok_half B B' Hh Hro) as Hro'.
  destruct B, B'. injection Hh as -> -> ->. cbn in Hc. subst. by split.
Qed.

(** What a session call leaves of the sending and of the receiving half. *)
Definition sender_le (s s' : Session) : Prop :=
  sessClosed s' = true ∨ send_half s' = send_half s ∧ sessClosed s' = sessClosed s.
Definition receiver_le (s s' : Session) : Prop :=
  sessClosed s' = true ∨ receive_half s' = receive_half s ∧ sessClosed s' = sessClosed s.

(** Whoever is in step with [K] is in step with [s], unless [s] is closed. *)
Definition kin (K s : Session) : Prop := sessClosed s = true ∨ ∀ B, in_sync K B → in_sync s B.
Definition marks (K : Session) (f : Frame) (s : Session) : Prop :=
  ∀ clock s', Session_MarkRekeySent clock f s = (s', Ok tt) → kin K s'.

Lemma kin_le K s s' : sender_le s s' → kin K s → kin K s'.
Proof.
  intros [Hc|[Hh Hc]] Hk; [by left|]. destruct Hk as [Hk|Hk]; [left; congruence|right].
  intros B HB. eapply in_sync_sender; [done|by apply Hk].
Qed.

Lemma marks_le K f s s' : sender_le s s' → marks K f s → marks K f s'.
Proof.
  intros Hle Hk clock s2 Hm.
  destruct (MarkRekeySent_result clock f s') as [(e & He & _)|(p & Hc' & Hp & <- & He)]; [congruence|].
  destruct Hle as [Hc|[Hh Hc]]; [congruence|]. rewrite He in Hm. injection Hm as <-.
  assert (sessSend s' = sessSend s) as Hss by exact (f_equal snd Hh).
  destruct (MarkRekeySent_result clock (prFrame p) s) as [(e & _ & Hno)|(p' & _ & Hp' & Hf & Hm')].
  { destruct Hno. split; [congruence|]. exists p. split; [congruence|done]. }
  assert (p' = p) as -> by congruence. eapply kin_le; [|apply (Hk clock _ Hm')]. right.
  destruct s, s'. cbn in *. injection Hh as -> -> ->. done.
Qed.

(** [f] takes whoever is in step with [K] to [K'] and delivers [ms]. *)
Definition carries (K : Session) (f : Frame) (K' : Session) (ms : list Message) : Prop :=
  ∀ B clock, in_sync K B → ∃ B' m, Session_Receive clock f B = (B', Ok m) ∧ received [m] = ms ∧ in_sync K' B'.

Lemma in_sync_epoch_start now now' q A B :
  in_sync (with_send (commit_rekey now q) A) B → in_sync (with_send (commit_rekey now' q) A) B.
Proof.
  intros [[] Hro Hid Hop Hidle Hcd Hk Hep Hwin]. split; [split; try assumption; discriminate|assumption..].
Qed.

(** A frame of Send takes the peer along: a RekeyInit to the session as
    MarkRekeySent will leave it, any other with the message. *)
Lemma Send_carries clock entropy item s s' f :
  send_ok s → item_typed item → Session_Send clock entropy (qmMessage item) (qmPadLength item) s = (s', Ok f) →
  sessClosed s = false ∧ frame_encodable f ∧
  if is_rekey f then ∃ K', carries s f K' [] ∧ marks K' f s'
  else ∃ m, message_of (qmMessage item) = Some m ∧ carries s f s' [m].
Proof.
  intros Hok [Hty Hpad] Hsend.
  pose proof (send_emits clock entropy _ _ s Hok Hty Hpad) as He. rewrite Hsend in He.
  destruct He as ([Hcl Hidle] & He & Hkind). split; [done|]. split; [by eapply emits_encodable|].
  assert (∀ B clock', in_sync s B → ∃ B' m, Session_Receive clock' f B = (B', Ok m) ∧
    if is_rekey f then received [m] = [] ∧ in_sync (Session_MarkRekeySent clock f s').1 B'
    else received [m] = [m] ∧ message_of (qmMessage item) = Some m ∧ in_sync s' B') as Hstep.
  { intros B clock' Hs.
    pose proof (pair_step_sync (mkPairSend clock clock' entropy (qmMessage item) (qmPadLength item)) s B Hs
      (conj Hty Hpad)) as Hp. unfold pair_step in Hp.
    cbn [psSendClock psReceiveClock psEntropy psMessage psPadLength] in Hp. rewrite Hsend in Hp.
    destruct (Session_Receive clock' f B) as [B1 o]. exists B1. destruct (is_rekey f).
    - destruct (Session_MarkRekeySent _ _ s') as [A2 om]. destruct Hp as [Hs' Hev].
      destruct o as [m| |]; [|done..]. exists m. split; [done|]. by destruct m.
    - destruct Hp as [Hs' Hev]. destruct o as [m| |]; [|done..]. exists m. split; [done|].
      split; [|done]. cbn in Hev.
      destruct (qmMessage item) as [m'|m'| |]; cbn in Hev; try done; injection Hev as ->; by destruct m. }
  destruct (is_rekey f).
  - exists (Session_MarkRekeySent clock f s').1. split.
    { intros B c (B' & m & ? & ? & ?)%(Hstep B c). by exists B', m. }
    intros c s2 Hm. destruct (MarkRekeySent_result c f s') as [(e & ? & _)|(q & Hc & Hq & Hf & Hm')]; [congruence|].
    rewrite Hm' in Hm. injection Hm as <-. right. intros B.
    destruct (MarkRekeySent_result clock f s') as [(e & _ & Hno)|(q' & _ & Hq' & _ & ->)]; [destruct Hno; eauto|].
    assert (q' = q) as -> by congruence. apply in_sync_epoch_start.
  - destruct (rekeyDueLocked _ _); [done|]. destruct Hkind as (t & m & p & Hout%outboundMessage_of & _).
    exists m. split; [done|]. intros B c (B' & m' & ? & Hr & Hm & ?)%(Hstep B c). exists B', m'.
    assert (m' = m) as -> by congruence. done.
Qed.

(** The other half of the session, and Close. *)
Lemma Close_le s : sender_le s (Session_Close s).1 ∧ receiver_le s (Session_Close s).1.
Proof. by split; left. Qed.

Lemma Receive_sender_half clock f s s' o :
  Session_Receive clock f s = (s', o) → send_half s' = send_half s ∧ sessClosed s' = sessClosed s.
Proof.
  intros He. pose proof (Receive_keeps clock f s) as Hk. rewrite He in Hk. split; [done|].
  assert (keeps sessClosed (Session_Receive clock f)) as Hc.
  { unfold Session_Receive, Session_ReceivePayload, decryptEpochLocked, prepareRekeyLocked, expireGraceLocked.
    cbv zeta. keeps_run. }
  specialize (Hc s). by rewrite He in Hc.
Qed.

Lemma Send_receiver_half clock entropy m n s s' o :
  Session_Send clock entropy m n s = (s', o) → receive_half s' = receive_half s ∧ sessClosed s' = sessClosed s.
Proof.
  intros He. pose proof (Send_keeps clock entropy m n s) as Hk. rewrite He in Hk. split; [done|].
  assert (keeps sessClosed (Session_Send clock entropy m n)) as Hc.
  { unfold Session_Send, sendPayload, startRekeyLocked, encryptLocked. cbv zeta. keeps_run. }
  specialize (Hc s). by rewrite He in Hc.
Qed.

Lemma Mark_receiver_half clock f s s' o :
  Session_MarkRekeySent clock f s = (s', o) → receive_half s' = receive_half s ∧ sessClosed s' = sessClosed s.
Proof.
  intros He. destruct (MarkRekeySent_result clock f s) as [(e & He' & _)|(q & _ & _ & _ & He')];
    rewrite He' in He; by injection He as <- <-.
Qed.

Lemma Receive_sender_le clock f s s' o : Session_Receive clock f s = (s', o) → sender_le s s'.
Proof. right. by eapply Receive_sender_half. Qed.
Lemma Send_receiver_le clock entropy m n s s' o : Session_Send clock entropy m n s = (s', o) → receiver_le s s'.
Proof. right. by eapply Send_receiver_half. Qed.
Lemma Mark_receiver_le clock f s s' o : Session_MarkRekeySent clock f s = (s', o) → receiver_le s s'.
Proof. right. by eapply Mark_receiver_half. Qed.

Lemma Receive_closed clock f s s' m : sessClosed s = true → Session_Receive clock f s ≠ (s', Ok m).
Proof.
  intros Hc. unfold Session_Receive, Session_ReceivePayload. cbv zeta. rewrite sm_bind_run.
  destruct (_ =? _); [done|]. sm_run. destruct (negb _); [done|]. destruct (negb _); [done|]. by rewrite Hc.
Qed.

Lemma Receive_typed clock f s s' m :
  receive_ok s → Frame_ok f → Session_Receive clock f s = (s', Ok m) → Message_typed m.
Proof.
  intros Hok Hf He.
  destruct (Receive_result clock s f Hok Hf) as [(e & ?)|(p & s1 & o & _ & Hr & _ & u & Hu & ->)]; [congruence|].
  rewrite Hr in He. injection He as _ Hm. clear -Hu Hm. unfold newInboundMessage in Hu.
  repeat (destruct (_ =? _); [injection Hu as <-|]); [..|done]; cbn in Hm.
  all: match type of Hm with (_ <$> ?x) = _ => destruct x eqn:Hx; [|done..] end; injection Hm as <-;
    cbn [Message_typed]; eapply unmarshal_typed; exact Hx.
Qed.

(** ** Octets *)

Lemma ReadFrame_Ok_inv ctx r r' f :
  ReadFrame ctx r = (r', Ok f) → frame_decodable f ∧ stream_of r = frame_layout f ++ stream_of r'.
Proof.
  intros H. assert (lane_open ctx) as Hl.
  { unfold ReadFrame in H. destruct (acquireLane ctx) as [[]| |] eqn:?; [|done..].
    by destruct (watchContext ctx) as [[]| |] eqn:?. }
  pose proof (ReadFrame_stream ctx r Hl) as Hr. rewrite H in Hr. destruct Hr as [Hr _].
  eapply read_frame_spec_inv. by rewrite <- Hr.
Qed.

Lemma frame_layout_inj f g x y :
  frame_decodable f → frame_decodable g → frame_layout f ++ x = frame_layout g ++ y → f = g ∧ x = y.
Proof.
  intros Hf Hg He. pose proof (read_frame_layout ctxLive NetErrClosed f x Hf) as H.
  rewrite He, read_frame_layout in H by done. by injection H as <- <-.
Qed.

(** The start of a frame, cut off. *)
Definition broken (tail : list byte) : Prop :=
  tail = [] ∨ ∃ f rest, frame_decodable f ∧ rest ≠ [] ∧ frame_layout f = tail ++ rest.

Lemma broken_no_frame tail f x : broken tail → frame_decodable f → tail ≠ frame_layout f ++ x.
Proof.
  intros [->|(g & rest & Hg & Hne & He)] Hf.
  - intros Hn. symmetry in Hn. apply app_eq_nil in Hn as [Hn _]. pose proof (read_frame_layout ctxLive NetErrClosed f [] Hf) as H.
    by rewrite Hn in H.
  - intros ->. rewrite <- app_assoc in He. rewrite <- (app_nil_r (frame_layout g)) in He.
    apply frame_layout_inj in He as [_ He]; [|done..]. by destruct x, rest.
Qed.

(** A write puts a prefix of the frame on the wire. *)
Lemma WriteFrame_out ctx w f w' out o :
  frame_encodable f → WriteFrame ctx w f = (w', out, o) →
  out = frame_layout f ∨ o ≠ Ok tt ∧ broken out.
Proof.
  intros He H. pose proof (frame_encodable_decodable f He) as Hd.
  destruct (acquireLane ctx) as [[]|e|] eqn:Ha, (watchContext ctx) as [[]|e'|] eqn:Hc.
  1: { rewrite WriteFrame_wire in H by done. destruct (write_loop _ _ _ _ _) as [[c out'] o'] eqn:Hw.
    injection H as <- -> ->. apply write_loop_prefix in Hw as (unsent & Hf & Ho).
    destruct unsent as [|b unsent]; [left; by rewrite app_nil_r in Hf|right].
    split; [intros Hok%Ho; discriminate Hok|]. right. by exists f, (b :: unsent). }
  all: right; unfold WriteFrame in H; rewrite Ha, ?Hc in H; clear -H.
  all: destruct (Frame_MarshalBinary f); try destruct (zlen _ <? _); try destruct (_ <? zlen _);
    injection H as <- <- <-; (split; [done|by left]).
Qed.

(** ** Frames in flight *)

Inductive flight : Session → list (Frame * list Message) → Session → Prop :=
  | flight_nil K : flight K [] K
  | flight_cons K f K1 ms fs K2 :
      frame_decodable f → carries K f K1 ms → flight K1 fs K2 → flight K ((f, ms) :: fs) K2.

Lemma flight_snoc K fs K1 f ms K2 :
  flight K fs K1 → frame_decodable f → carries K1 f K2 ms → flight K (fs ++ [(f, ms)]) K2.
Proof. induction 1; intros; cbn; eauto using flight. Qed.

Definition layouts (fs : list (Frame * list Message)) : list byte := concat ((λ x, frame_layout x.1) <$> fs).
Definition carried (fs : list (Frame * list Message)) : list Message := concat (fs.*2).

Lemma layouts_snoc fs f ms : layouts (fs ++ [(f, ms)]) = layouts fs ++ frame_layout f.
Proof. unfold layouts. by rewrite fmap_app, concat_app; cbn; rewrite app_nil_r. Qed.
Lemma carried_snoc fs f ms : carried (fs ++ [(f, ms)]) = carried fs ++ ms.
Proof. unfold carried. by rewrite fmap_app, concat_app; cbn; rewrite app_nil_r. Qed.

(** The sender in step with the peer [K] that has all frames in flight: before
    Send, between Send and the write, between the write of a RekeyInit and its
    confirmation, and after a failure, with [tail] of a frame cut off and with it
    the message [cut]. *)
Inductive sender (ep : Endpoint) (K : Session) : list byte → list Message → Prop :=
  | sd_send : epOut ep = IoSend → kin K (epSession ep) → elTried (epLog ep) = elSent (epLog ep) → sender ep K [] []
  | sd_write f K' ms item :
      epOut ep = IoWrite f → writing (sysThr (epSys ep) writer) = Some item → frame_encodable f → carries K f K' ms →
      elTried (epLog ep) = elSent (epLog ep) →
      (if is_rekey f then ms = [] ∧ marks K' f (epSession ep)
       else ∃ m, message_of (qmMessage item) = Some m ∧ ms = [m] ∧ kin K' (epSession ep)) →
      sender ep K [] []
  | sd_mark f :
      epOut ep = IoMark f → marks K f (epSession ep) → elTried (epLog ep) = elSent (epLog ep) → sender ep K [] []
  | sd_over tail cut :
      stopped writes writer (epSys ep) → broken tail → elSent (epLog ep) `prefix_of` elTried (epLog ep) →
      (cut = [] ∨ ∃ x m, cut = [m] ∧ elTried (epLog ep) = elSent (epLog ep) ++ [x]) →
      sender ep K tail cut.

(** The receiver with [fs] and [tail] on their way to it: done for good, before
    ReadFrame, and between ReadFrame and Receive. *)
Inductive receiver (ep : Endpoint) (K : Session) : list (Frame * list Message) → list byte → Prop :=
  | rc_over fs tail : stopped reads reader (epSys ep) → receiver ep K fs tail
  | rc_read fs tail :
      epIn ep = IoRead → epWire ep = layouts fs ++ tail → (sessClosed (epSession ep) = true ∨ in_sync K (epSession ep)) →
      receiver ep K fs tail
  | rc_receive f ms fs tail :
      epIn ep = IoReceive f → epWire ep = layouts fs ++ tail →
      (sessClosed (epSession ep) = true ∨ in_sync K (epSession ep)) → receiver ep K ((f, ms) :: fs) tail.

Definition tried_messages (ep : Endpoint) : list (option Message) :=
  (λ x, message_of (qmMessage x.2)) <$> elTried (epLog ep).

Definition link (S R : Endpoint) : Prop :=
  ∃ K fs K' tail cut, flight K fs K' ∧ sender S K' tail cut ∧ receiver R K fs tail ∧
    tried_messages S = Some <$> received (elGot (epLog R)) ++ carried fs ++ cut.

(** ** Steps of the other goroutines *)

Lemma sender_frame ep ep' K tail cut :
  sender ep K tail cut → epOut ep' = epOut ep → sender_le (epSession ep) (epSession ep') →
  elTried (epLog ep') = elTried (epLog ep) → elSent (epLog ep') = elSent (epLog ep) →
  (∀ item, writing (sysThr (epSys ep) writer) = Some item → writing (sysThr (epSys ep') writer) = Some item) →
  (stopped writes writer (epSys ep) → stopped writes writer (epSys ep')) → sender ep' K tail cut.
Proof.
  intros Hs Ho Hle Ht Hn Hw Hst. destruct Hs as [Hio Hk He|f K' ms item Hio Hwr Hf Hc He Hm|f Hio Hm He|tail cut H1 H2 H3 H4].
  - apply sd_send; [congruence|by eapply kin_le|congruence].
  - apply (sd_write _ _ f K' ms item); [congruence|by apply Hw|done|done|congruence|]. destruct (is_rekey f).
    + destruct Hm as [-> Hm]. split; [done|by eapply marks_le].
    + destruct Hm as (m & ? & ? & Hm). exists m. split_and!; [done..|by eapply kin_le].
  - apply (sd_mark _ _ f); [congruence|by eapply marks_le|congruence].
  - apply sd_over; [by apply Hst|done|by rewrite Ht, Hn|by rewrite Ht, Hn].
Qed.

Lemma sync_le K s s' : receiver_le s s' → sessClosed s = true ∨ in_sync K s → sessClosed s' = true ∨ in_sync K s'.
Proof.
  intros [Hc|[Hh Hc]]; [by left|]. intros [Hs|Hs]; [left; congruence|right]. by eapply in_sync_receiver.
Qed.

Lemma receiver_frame ep ep' K fs tail :
  receiver ep K fs tail → epIn ep' = epIn ep → epWire ep' = epWire ep → receiver_le (epSession ep) (epSession ep') →
  (stopped reads reader (epSys ep) → stopped reads reader (epSys ep')) → receiver ep' K fs tail.
Proof.
  intros Hr Hi Hw Hle Hst. destruct Hr as [fs tail H|fs tail H1 H2 H3|f ms fs tail H1 H2 H3].
  - by apply rc_over, Hst.
  - apply rc_read; [congruence..|by eapply sync_le].
  - apply rc_receive; [congruence..|by eapply sync_le].
Qed.

Lemma receiver_arrive ep K fs more tail out :
  receiver ep K fs [] → out = layouts more ++ tail → receiver (arrive out ep) K (fs ++ more) tail.
Proof.
  assert (∀ fs0, layouts fs0 ++ [] = layouts fs0 ∧ layouts (fs0 ++ more) = layouts fs0 ++ layouts more) as Hl.
  { intros fs0. unfold layouts. by rewrite app_nil_r, fmap_app, concat_app. }
  intros Hr ->. remember [] as t eqn:Ht. destruct Hr as [fs t H|fs t H1 H2 H3|f ms fs t H1 H2 H3]; subst t.
  - by apply rc_over.
  - apply rc_read; [done| |done]. cbn. destruct (Hl fs) as [E1 E2]. by rewrite H2, E1, E2, app_assoc.
  - cbn [app]. apply rc_receive; [done| |done]. cbn. destruct (Hl fs) as [E1 E2]. by rewrite H2, E1, E2, app_assoc.
Qed.

Context (conf : ConnectionConfig).

Record local_effect (l : Label) (ep ep' : Endpoint) : Prop := {
  le_sys : sys_step conf l (epSys ep) = Some (epSys ep');
  le_quiet : ∀ i c, l = LRun i c → writing (sysThr (epSys ep) i) = None ∧ reading (sysThr (epSys ep) i) = false;
  le_session : epSession ep' = epSession ep ∨ epSession ep' = (Session_Close (epSession ep)).1;
  le_out : epOut ep' = epOut ep;
  le_in : epIn ep' = epIn ep;
  le_wire : epWire ep' = epWire ep;
  le_tried : elTried (epLog ep') = elTried (epLog ep);
  le_sent : elSent (epLog ep') = elSent (epLog ep);
  le_got : elGot (epLog ep') = elGot (epLog ep);
}.

Lemma local_step_effect l ep ep' : local_step conf l ep = Some ep' → local_effect l ep ep'.
Proof.
  intros H. destruct l as [i c|i op|x e]; cbn [local_step] in H.
  - destruct (writing _) eqn:Hw; [done|]. destruct (reading _) eqn:Hr; [done|].
    apply bind_Some in H as (s & Hs & [= <-]). split; try done.
    + by intros i' c' [= <- <-].
    + cbn. unfold local_session. destruct (sysThr (epSys ep) i) as [|[| |[]| | | | | | | | | |] ?]; auto.
  - apply bind_Some in H as (s & Hs & [= <-]). split; try done. by left.
  - apply bind_Some in H as (s & Hs & [= <-]). split; try done. by left.
Qed.

Lemma io_return_inv i c session lg ep ep' :
  io_return conf i c session lg ep = Some ep' →
  sys_step conf (LRun i c) (epSys ep) = Some (epSys ep') ∧
  ep' = mkEndpoint (epSys ep') session (if decide (i = writer) then IoSend else epOut ep)
          (if decide (i = reader) then IoRead else epIn ep) (epWire ep) lg.
Proof. unfold io_return. by intros (s & Hs & [= <-])%bind_Some. Qed.

Lemma failed_write s item e s' :
  sys_inv conf s → writing (sysThr s writer) = Some item → sys_step conf (LRun writer (CErr (Some e))) s = Some s' →
  stopped writes writer s'.
Proof.
  intros Hinv Hw Hs. destruct (write_return _ _ _ _ _ Hinv Hw Hs) as (Hst & fr & -> & Hfr). split; [done|]. cbn.
  rewrite upd_same. destruct Hfr as [[_ ->]|(q & _ & ->)]; by repeat constructor.
Qed.

Lemma failed_read s e s' :
  sys_inv conf s → reading (sysThr s reader) = true → sys_step conf (LRun reader (CErr (Some e))) s = Some s' →
  stopped reads reader s'.
Proof.
  intros Hinv Hw Hs. destruct (read_return _ _ _ _ Hinv Hw Hs) as (Hst & fr & -> & Hfr). split; [done|]. cbn.
  rewrite upd_same. destruct Hfr as [(e' & _ & ->)|(m & [=] & _)]. by repeat constructor.
Qed.

(** What the reader does leaves the sender's side alone, and what the writer does
    the receiver's. *)
Lemma sender_sys ep ep' l K tail cut :
  sys_inv conf (epSys ep) → sys_step conf l (epSys ep) = Some (epSys ep') → (∀ c, l ≠ LRun writer c) →
  epOut ep' = epOut ep → sender_le (epSession ep) (epSession ep') →
  elTried (epLog ep') = elTried (epLog ep) → elSent (epLog ep') = elSent (epLog ep) →
  sender ep K tail cut → sender ep' K tail cut.
Proof.
  intros Hinv Hs Hl Ho Hle Ht Hn Hsd. apply (sender_frame ep); try done.
  - intros item Hw. by eapply local_writing.
  - by apply (stopped_writer conf l).
Qed.

Lemma sender_local l ep ep' K tail cut :
  sys_inv conf (epSys ep) → local_effect l ep ep' → sender ep K tail cut → sender ep' K tail cut.
Proof.
  intros Hinv He Hsd. apply (sender_frame ep); try apply He; try done.
  - destruct (le_session _ _ _ He) as [->| ->]; [by right|apply Close_le].
  - intros item Hw. eapply local_writing; [done|apply He|done|]. intros c ->.
    destruct (le_quiet _ _ _ He _ _ eq_refl). congruence.
  - by apply (stopped_writer conf l), He.
Qed.

Lemma receiver_local l ep ep' K fs tail :
  sys_inv conf (epSys ep) → local_effect l ep ep' → receiver ep K fs tail → receiver ep' K fs tail.
Proof.
  intros Hinv He Hr. apply (receiver_frame ep); try apply He; try done.
  - destruct (le_session _ _ _ He) as [->| ->]; [by right|apply Close_le].
  - by apply (stopped_reader conf l), He.
Qed.

(** ** Steps of the writer *)

Lemma sender_broken ep K tail cut : sender ep K tail cut → broken tail.
Proof. intros []; first [by left|done]. Qed.

Lemma stopped_not_writing ep item :
  writing (sysThr (epSys ep) writer) = Some item → ¬ stopped writes writer (epSys ep).
Proof. intros Hw Hs%stopped_writing. congruence. Qed.

Lemma link_send clock entropy S S' R :
  sys_inv conf (epSys S) → sys_typed (epSys S) → send_ok (epSession S) →
  send_step conf clock entropy S = Some S' → link S R → link S' R.
Proof.
  intros Hinv Hty Hok Hstep (K & fs & K' & tail & cut & Hfl & Hsd & Hrc & Htr). unfold send_step in Hstep.
  destruct (writing _) as [item|] eqn:Hw; [|done]. destruct (epOut S) eqn:Ho; [|done..].
  pose proof (writing_typed _ _ _ Hty Hw) as Hit.
  destruct Hsd as [_ Hk He|f ? ? ? Hio _ _ _ _ _|f Hio _ _|tail cut Hst _ _ _];
    [|congruence..|by apply stopped_not_writing in Hw].
  destruct (Session_Send clock entropy _ _ _) as [s [f|e|]] eqn:Hsend; [|..|done].
  - injection Hstep as <-. exists K, fs, K', [], []. split_and!; [done| |done|done].
    destruct (Send_carries _ _ _ _ _ _ Hok Hit Hsend) as (Hcl & Henc & Hc).
    destruct Hk as [Hk|Hk]; [congruence|].
    assert (∀ K2 ms, carries (epSession S) f K2 ms → carries K' f K2 ms) as Hc'.
    { intros K2 ms Hcar B c HB. by apply Hcar, Hk. }
    destruct (is_rekey f) eqn:Hr.
    + destruct Hc as (K2 & Hc & Hm). eapply (sd_write _ _ f K2 []); [done..|by apply Hc'|done|]. by rewrite Hr.
    + destruct Hc as (m & Hm & Hc). eapply (sd_write _ _ f s [m]); [done..|by apply Hc'|done|]. rewrite Hr.
      exists m. split_and!; [done..|by right].
  - apply io_return_inv in Hstep as [Hs ->]. exists K, fs, K', [], []. split_and!; [done| |done|done].
    pose proof (send_emits clock entropy _ _ _ Hok (proj1 Hit) (proj2 Hit)) as Hem. rewrite Hsend in Hem. subst s.
    by apply sd_send.
Qed.

Lemma link_mark clock S S' R :
  sys_inv conf (epSys S) → mark_step conf clock S = Some S' → link S R → link S' R.
Proof.
  intros Hinv Hstep (K & fs & K' & tail & cut & Hfl & Hsd & Hrc & Htr). unfold mark_step in Hstep.
  destruct (writing _) as [item|] eqn:Hw; [|done]. destruct (epOut S) as [| |f] eqn:Ho; [done..|].
  destruct Hsd as [Hio _ _|f' ? ? ? Hio _ _ _ _ _|f' Hio Hm He|tail cut Hst _ _ _];
    [congruence..| |by apply stopped_not_writing in Hw]. rewrite Ho in Hio. injection Hio as <-.
  exists K, fs, K', [], [].
  destruct (Session_MarkRekeySent clock f _) as [s [[]|e|]] eqn:Hmark; [|..|done].
  - injection Hstep as <-. split_and!; [done| |done|done]. apply sd_send; [done|by eapply Hm|done].
  - apply io_return_inv in Hstep as [Hs ->]. split_and!; [done| |done|done].
    apply sd_over; [by eapply failed_write|by left|by cbn; rewrite He|by left].
Qed.

(** The frame that was sent joins the flight, or its start is the last on the wire. *)
Lemma link_put S R S' K fs K1 f ms K2 :
  flight K fs K1 → receiver R K fs [] → frame_encodable f → carries K1 f K2 ms →
  tried_messages S = Some <$> received (elGot (epLog R)) ++ carried fs ++ [] →
  tried_messages S' = tried_messages S ++ (Some <$> ms) →
  sender S' K2 [] [] → link S' (arrive (frame_layout f) R).
Proof.
  intros Hfl Hrc Henc Hc Htr Htr' Hsd. apply frame_encodable_decodable in Henc as Hd.
  exists K, (fs ++ [(f, ms)]), K2, [], []. split_and!; [by eapply flight_snoc|done| |].
  - apply receiver_arrive; [done|]. unfold layouts. cbn. by rewrite !app_nil_r.
  - rewrite Htr', Htr, carried_snoc, !fmap_app, !app_nil_r. cbn. by rewrite app_assoc.
Qed.

Lemma link_part S R S' K fs K1 ms out :
  flight K fs K1 → receiver R K fs [] →
  tried_messages S = Some <$> received (elGot (epLog R)) ++ carried fs ++ [] →
  tried_messages S' = tried_messages S ++ (Some <$> ms) →
  sender S' K1 out ms → link S' (arrive out R).
Proof.
  intros Hfl Hrc Htr Htr' Hsd. exists K, fs, K1, out, ms. split_and!; [done..| |].
  - rewrite <- (app_nil_r fs). by apply receiver_arrive.
  - cbn. by rewrite Htr', Htr, !fmap_app, app_nil_r, app_assoc.
Qed.

(** A write that failed stops the writer, with a prefix of the frame on the wire. *)
Lemma link_cut S R K fs K1 f ms K2 item e ep out :
  flight K fs K1 → receiver R K fs [] → frame_encodable f → carries K1 f K2 ms →
  tried_messages S = Some <$> received (elGot (epLog R)) ++ carried fs ++ [] →
  tried_messages ep = tried_messages S ++ (Some <$> ms) →
  sys_inv conf (epSys S) → writing (sysThr (epSys S) writer) = Some item →
  sys_step conf (LRun writer (CErr (Some e))) (epSys S) = Some (epSys ep) →
  elSent (epLog ep) `prefix_of` elTried (epLog ep) →
  (ms = [] ∨ ∃ x m, ms = [m] ∧ elTried (epLog ep) = elSent (epLog ep) ++ [x]) →
  out = frame_layout f ∨ broken out → link ep (arrive out R).
Proof.
  intros Hfl Hrc Henc Hc Htr Htr' Hinv Hw Hs Hpre Hcut Hout.
  apply failed_write with (item := item) in Hs; [|done..].
  destruct Hout as [->|Hb]; [eapply link_put|eapply link_part]; try done; apply sd_over; try done; by left.
Qed.

Lemma link_write ctx w S S' R out :
  sys_inv conf (epSys S) → write_step conf ctx w S = Some (S', out) → link S R → link S' (arrive out R).
Proof.
  intros Hinv Hstep (K & fs & K1 & tail & cut & Hfl & Hsd & Hrc & Htr). unfold write_step in Hstep.
  destruct (writing _) as [item|] eqn:Hw; [|done]. destruct (epOut S) as [|f|] eqn:Ho; [done| |done].
  destruct Hsd as [Hio _ _|f' K2 ms item' Hio Hw' Henc Hc He Hm|f' Hio _ _|tail cut Hst _ _ _];
    [congruence| |congruence|by apply stopped_not_writing in Hw].
  assert (f' = f ∧ item' = item) as [-> ->] by (split; congruence).
  destruct (WriteFrame ctx w f) as [[w' out'] o] eqn:Hwf. pose proof (WriteFrame_out _ _ _ _ _ _ Henc Hwf) as Hout.
  pose proof (link_put S R S' K fs K1 f ms K2 Hfl Hrc Henc Hc Htr) as Hput.
  pose proof (λ e, link_cut S R K fs K1 f ms K2 item e S' out Hfl Hrc Henc Hc Htr) as Hcut.
  change (hdrMessageType (frHeader f) =? MessageTypeRekeyInit) with (is_rekey f) in Hstep.
  destruct (is_rekey f); cbn [negb] in Hstep; (destruct o as [[]|e|]; [|..|done]).
  - destruct Hm as [-> Hm]. injection Hstep as <- <-. destruct Hout as [->|[[] _]]; [|done].
    apply Hput; [by rewrite app_nil_r|]. by apply (sd_mark _ _ f).
  - destruct Hm as [-> Hm]. apply bind_Some in Hstep as (ep & [Hs Hep]%io_return_inv & [= -> ->]).
    apply (Hcut e); try done; [..|naive_solver]; rewrite Hep.
    + by rewrite app_nil_r.
    + cbn. by rewrite He.
    + by left.
  - destruct Hm as (m & Hm & -> & Hk). apply bind_Some in Hstep as (ep & [Hs Hep]%io_return_inv & [= -> ->]).
    destruct Hout as [->|[[] _]]; [|done]. apply Hput; rewrite Hep.
    + unfold tried_messages. cbn. by rewrite fmap_app, <- Hm.
    + apply sd_send; [done..|]. cbn. by rewrite He.
  - destruct Hm as (m & Hm & -> & Hk). apply bind_Some in Hstep as (ep & [Hs Hep]%io_return_inv & [= -> ->]).
    apply (Hcut e); try done; [..|naive_solver]; rewrite Hep.
    + unfold tried_messages. cbn. by rewrite fmap_app, <- Hm.
    + cbn. rewrite He. by apply prefix_app_r.
    + right. eexists _, m. split; [done|]. cbn. by rewrite He.
Qed.

(** ** Steps of the reader *)

Lemma stopped_not_reading ep : reading (sysThr (epSys ep) reader) = true → ¬ stopped reads reader (epSys ep).
Proof. intros Hw Hs%stopped_reading. congruence. Qed.

(** What is read is the first frame in flight. *)
Lemma flight_read K fs K' tail f rest :
  flight K fs K' → broken tail → frame_decodable f → layouts fs ++ tail = frame_layout f ++ rest →
  ∃ ms fs', fs = (f, ms) :: fs' ∧ rest = layouts fs' ++ tail.
Proof.
  intros Hfl Hb Hd He. destruct Hfl as [K|K f0 K1 ms fs K2 Hd0 _ _]; [by apply broken_no_frame in He|].
  exists ms, fs. unfold layouts in He. cbn in He. rewrite <- app_assoc in He.
  by apply frame_layout_inj in He as [-> <-].
Qed.

Lemma read_drop (wire a b x : list byte) :
  wire = (a ++ b) ++ x → drop (length (a ++ b) - length b) wire = b ++ x.
Proof.
  intros ->. rewrite <- app_assoc, length_app. replace (_ + _ - _)%nat with (length a) by lia. apply drop_app_length.
Qed.

Lemma link_read ctx r S R R' :
  sys_inv conf (epSys R) → read_step conf ctx r R = Some R' → link S R → link S R'.
Proof.
  intros Hinv Hstep (K & fs & K' & tail & cut & Hfl & Hsd & Hrc & Htr). unfold read_step in Hstep.
  destruct (reading _) eqn:Hrd; cbn [andb] in Hstep; [|done].
  case_bool_decide as Hpre; [|done]. destruct (epIn R) eqn:Hi; [|done].
  destruct (ReadFrame ctx r) as [r' [f|e|]] eqn:Hread; [|..|done].
  - injection Hstep as <-. destruct Hpre as [x Hx]. apply ReadFrame_Ok_inv in Hread as [Hd Hst].
    destruct Hrc as [fs tail Hov|fs tail _ Hw Hsync|f' ms fs tail Hi' _ _];
      [by apply stopped_not_reading in Hrd| |congruence].
    rewrite Hst in Hx. rewrite Hw, <- app_assoc in Hx.
    destruct (flight_read _ _ _ _ _ _ Hfl (sender_broken _ _ _ _ Hsd) Hd Hx) as (ms & fs' & -> & Hrest).
    exists K, ((f, ms) :: fs'), K', tail, cut. split_and!; [done..| |done]. apply rc_receive; [done| |done].
    cbn [epWire]. rewrite Hst, <- Hrest. apply read_drop. by rewrite Hw, Hx, app_assoc.
  - apply io_return_inv in Hstep as [Hs ->]. exists K, fs, K', tail, cut. split_and!; [done..| |done].
    apply rc_over. by eapply failed_read.
Qed.

Lemma received_snoc ms m : received (ms ++ [m]) = received ms ++ received [m].
Proof. apply filter_app. Qed.

Lemma link_receive clock S R R' :
  sys_inv conf (epSys R) → receive_step conf clock R = Some R' → link S R → link S R'.
Proof.
  intros Hinv Hstep (K & fs & K' & tail & cut & Hfl & Hsd & Hrc & Htr). unfold receive_step in Hstep.
  destruct (reading _) eqn:Hrd; [|done]. destruct (epIn R) as [|f] eqn:Hi; [done|].
  destruct (Session_Receive clock f _) as [s [m|e|]] eqn:Hrecv; [|..|done].
  - apply io_return_inv in Hstep as [Hs ->].
    destruct Hrc as [fs tail Hov|fs tail Hi' _ _|f' ms fs tail Hi' Hw Hsync];
      [by apply stopped_not_reading in Hrd|congruence|]. rewrite Hi in Hi'. injection Hi' as <-.
    destruct Hsync as [Hc|Hsync]; [by eapply Receive_closed in Hrecv|].
    inversion Hfl as [|? ? K1 ? ? ? Hd Hc Hfl']; subst.
    destruct (Hc _ clock Hsync) as (B' & m' & Hr & <- & Hsync'). rewrite Hr in Hrecv. injection Hrecv as -> ->.
    exists K1, fs, K', tail, cut. split_and!; [done..|apply rc_read; [done..|by right]|].
    rewrite Htr. unfold carried. cbn [epLog log_got elGot fmap list_fmap snd concat].
    rewrite received_snoc. cbn. by rewrite !app_assoc.
  - apply io_return_inv in Hstep as [Hs ->]. exists K, fs, K', tail, cut. split_and!; [done..| |done].
    apply rc_over. by eapply failed_read.
Qed.

(** ** Every step *)

Lemma arrive_nil ep : arrive [] ep = ep.
Proof. destruct ep. unfold arrive. cbn. by rewrite app_nil_r. Qed.

Lemma sender_arrive ep K tail cut out : sender ep K tail cut → sender (arrive out ep) K tail cut.
Proof. intros Hs. apply (sender_frame ep); try done. by right. Qed.

Lemma link_sender_step l S S' R out :
  sys_inv conf (epSys S) → sys_typed (epSys S) → sess_ok (epSession S) →
  endpoint_step conf l S = Some (S', out) → link S R → link S' (arrive out R).
Proof.
  intros Hinv Hty [Hok _] Hstep Hlink. destruct l as [l|clock entropy|ctx w|clock|ctx r|clock]; cbn [endpoint_step] in Hstep;
    try apply bind_Some in Hstep as (ep & Hstep & [= -> <-]); rewrite ?arrive_nil.
  - apply local_step_effect in Hstep. destruct Hlink as (K & fs & K' & tail & cut & Hfl & Hsd & Hrc & Htr).
    exists K, fs, K', tail, cut. split_and!; [done|by eapply sender_local|done|].
    rewrite <- Htr. unfold tried_messages. by rewrite (le_tried _ _ _ Hstep).
  - by eapply link_send.
  - by eapply link_write.
  - by eapply link_mark.
  - destruct Hlink as (K & fs & K' & tail & cut & Hfl & Hsd & Hrc & Htr). exists K, fs, K', tail, cut.
    unfold read_step in Hstep. destruct (_ && _), (epIn S); try done. destruct (ReadFrame ctx r) as [r' [f|e|]]; [|..|done].
    + injection Hstep as <-. split_and!; [done| |done|done]. apply (sender_frame S); try done. by right.
    + apply io_return_inv in Hstep as [Hs ->]. split_and!; [done| |done|done].
      eapply (sender_sys S); try done. by right.
  - destruct Hlink as (K & fs & K' & tail & cut & Hfl & Hsd & Hrc & Htr). exists K, fs, K', tail, cut.
    unfold receive_step in Hstep. destruct (reading _), (epIn S) as [|f]; try done.
    destruct (Session_Receive clock f _) as [s o] eqn:Hr. apply Receive_sender_le in Hr as Hle.
    destruct o as [m|e|]; [..|done]; apply io_return_inv in Hstep as [Hs ->]; (split_and!; [done| |done|done]);
      by eapply (sender_sys S).
Qed.

Lemma receiver_writer c ep ep' K fs tail :
  sys_inv conf (epSys ep) → sys_step conf (LRun writer c) (epSys ep) = Some (epSys ep') →
  epIn ep' = epIn ep → epWire ep' = epWire ep → receiver_le (epSession ep) (epSession ep') →
  receiver ep K fs tail → receiver ep' K fs tail.
Proof. intros Hinv Hs Hi Hw Hle Hr. apply (receiver_frame ep); try done. by eapply stopped_reader. Qed.

(** The writer's steps at the receiving end. *)
Lemma writer_step_receiver l ep ep' out K fs tail :
  sys_inv conf (epSys ep) → endpoint_step conf l ep = Some (ep', out) →
  match l with ESend _ _ | EWrite _ _ | EMark _ => True | _ => False end →
  receiver ep K fs tail → receiver ep' K fs tail ∧ elGot (epLog ep') = elGot (epLog ep).
Proof.
  assert (∀ s, receiver_le s s) as Hrefl by (by right).
  intros Hinv Hstep Hl Hr. destruct l as [l|clock entropy|ctx w|clock|ctx r|clock]; try done; clear Hl; cbn [endpoint_step] in Hstep.
  - apply bind_Some in Hstep as (ep1 & Hstep & [= -> _]). unfold send_step in Hstep.
    destruct (writing _) as [item|]; [|done]. destruct (epOut ep); [|done..].
    destruct (Session_Send clock entropy _ _ _) as [s o] eqn:Hs. apply Send_receiver_le in Hs as Hle.
    destruct o as [f|e|]; [| |done].
    + injection Hstep as <-. split; [|done]. by apply (receiver_frame ep).
    + apply io_return_inv in Hstep as [Hs' ->]. split; [|done]. by eapply (receiver_writer _ ep).
  - unfold write_step in Hstep. destruct (writing _) as [item|]; [|done]. destruct (epOut ep) as [|f|]; [done| |done].
    destruct (WriteFrame ctx w f) as [[w' out'] [[]|e|]], (negb _); try done;
      try (apply bind_Some in Hstep as (ep1 & [Hs ->]%io_return_inv & [= <- _]); split; [by eapply (receiver_writer _ ep)|done]).
    injection Hstep as <- _. split; [by apply (receiver_frame ep)|done].
  - apply bind_Some in Hstep as (ep1 & Hstep & [= -> _]). unfold mark_step in Hstep.
    destruct (writing _) as [item|]; [|done]. destruct (epOut ep) as [| |f]; [done..|].
    destruct (Session_MarkRekeySent clock f _) as [s o] eqn:Hs. apply Mark_receiver_le in Hs as Hle.
    destruct o as [[]|e|]; [| |done].
    + injection Hstep as <-. split; [|done]. by apply (receiver_frame ep).
    + apply io_return_inv in Hstep as [Hs' ->]. split; [|done]. by eapply (receiver_writer _ ep).
Qed.

Lemma link_arrive S R out : link S R → link (arrive out S) R.
Proof.
  intros (K & fs & K' & tail & cut & Hfl & Hsd & Hrc & Htr). exists K, fs, K', tail, cut.
  split_and!; [done|by apply sender_arrive|done|done].
Qed.

Lemma link_receiver_step l S R R' out :
  sys_inv conf (epSys R) → endpoint_step conf l R = Some (R', out) → link S R → link (arrive out S) R'.
Proof.
  intros Hinv Hstep Hlink. apply link_arrive.
  assert (match l with ESend _ _ | EWrite _ _ | EMark _ => True | _ => False end → link S R') as Hw.
  { intros Hl. destruct Hlink as (K & fs & K' & tail & cut & Hfl & Hsd & Hrc & Htr). exists K, fs, K', tail, cut.
    destruct (writer_step_receiver _ _ _ _ _ _ _ Hinv Hstep Hl Hrc) as [Hrc' Hg]. by rewrite Hg. }
  destruct l as [l|clock entropy|ctx w|clock|ctx r|clock]; try (by apply Hw); clear Hw;
    cbn [endpoint_step] in Hstep; apply bind_Some in Hstep as (ep & Hstep & [= -> <-]).
  - apply local_step_effect in Hstep. destruct Hlink as (K & fs & K' & tail & cut & Hfl & Hsd & Hrc & Htr).
    exists K, fs, K', tail, cut. split_and!; [done..|by eapply receiver_local|]. by rewrite (le_got _ _ _ Hstep).
  - by eapply link_read.
  - by eapply link_receive.
Qed.

Lemma link_init A B : in_sync A B → link (endpoint_init A) (endpoint_init B).
Proof.
  intros Hs. exists A, [], A, [], []. split_and!; [constructor| | |done].
  - apply sd_send; [done|by right|done].
  - apply rc_read; [done..|by right].
Qed.
End link.
