(* ===== verification/DuplexSpec.v ===== *)
(** * What a duplex link delivers

    [endpoint_inv] is the invariant of one endpoint, [link] of DuplexLink.v that of
    each direction.  The theorem follows every message from the call that accepted
    it to the session that delivers it, over all interleavings of the goroutines of
    the two connections, all clocks, all segmentations and all failures. *)

From stdpp Require Import gmap.
From S2P Require Import Prelude Wire Header Frame Tlv Utf8 Messages Replay Sha256 Crypto Rekey Session.
From S2P Require Import SessionSend SessionReceive SessionPair Transport ConnectionIO Handshake Config.
From S2P Require Import Connection ConnectionSteps ConnectionSafety ConnectionFlow ConnectionSpec Duplex DuplexSteps DuplexLink.

Local Open Scope Z_scope.

(** The messages of Send calls given to the transport, without close and control. *)
Definition outbound_tried (lg : EndpointLog) : list queuedMessage := snd <$> filter (λ x, x.1 = true) (elTried lg).

(** ** The history is that of the queue *)

(** The items of which a frame has been told that they are written. *)
Definition told (P : queuedMessage → Prop) (fr : Frm) : Prop := Forall P (written fr).

Record fifo (s : Sys) (lg : EndpointLog) : Prop := {
  ff_queue : elAccepted lg = elTaken lg ++ qOutbound (sysConn s);
  ff_order : outbound_tried lg ++ (if elFrom lg then hand (sysThr s writer) else []) `sublist_of` elTaken lg;
  ff_told : ∀ i, Forall (told (λ item, item ∈ (elSent lg).*2)) (sysThr s i);
  ff_finished : ∀ item, (item, None) ∈ ghFinished (sysConn s) → item ∈ (elSent lg).*2;
}.

Section history.
Context (conf : ConnectionConfig).

Lemma hand_rest fr rest : shape (fr :: rest) = true → hand rest = [].
Proof.
  destruct rest as [|b [|]]; [done| |by destruct fr].
  destruct fr, b as [| | |[]| | | | | | | | |]; done.
Qed.

Lemma hand_app frs rest : hand rest = [] → hand (frs ++ rest) = hand frs.
Proof. by destruct frs. Qed.

Lemma shape_select pc rest : shape (FWrite pc :: rest) = true → rest = [].
Proof. by destruct rest as [|? [|]]. Qed.

Lemma same_queue (q : list queuedMessage) : q ++ drop (length q) q = take (length q - length q) q ++ q.
Proof. by rewrite drop_ge, app_nil_r, Nat.sub_diag. Qed.

Lemma taken_queue x (q : list queuedMessage) : take (length (x :: q) - length q) (x :: q) = [x].
Proof. cbn [length]. by replace (S (length q) - length q)%nat with 1%nat by lia. Qed.

Lemma queue_case_log c cn cn' fr frs :
  queue_case c cn cn' fr frs →
  let q := qOutbound cn in let q' := qOutbound cn' in
  q ++ drop (length q) q' = take (length q - length q') q ++ q'.
Proof.
  intros [->|x -> _|x -> _|x -> _ _ _]; cbv zeta.
  - apply same_queue.
  - rewrite drop_app_length, length_app. by replace (_ - _)%nat with 0%nat by lia.
  - by rewrite taken_queue, drop_ge, app_nil_r by (cbn; lia).
  - by rewrite taken_queue, drop_ge, app_nil_r by (cbn; lia).
Qed.

(** The writer's item after a step of the writer. *)
Lemma queue_case_hand c cn cn' fr frs rest lg :
  queue_case c cn cn' fr frs → shape (fr :: rest) = true →
  let hd' := if elFrom (log_from (fr :: rest) c lg) then hand (frs ++ rest) else [] in
  hd' = [] ∨ hd' = take (length (qOutbound cn) - length (qOutbound cn')) (qOutbound cn).
Proof.
  intros Hq Hs. rewrite (hand_app _ _ (hand_rest _ _ Hs)). cbv zeta.
  destruct Hq as [_ Hh|x _ Hh|x _ Hh|x -> -> -> ->].
  - destruct Hh as [->|[->|[-> Hc]]]; [by destruct (elFrom _); left|by left|left].
    cbn. destruct c as [[|[|[|[|]]]]| |]; done.
  - rewrite Hh. left. by destruct (elFrom _).
  - rewrite Hh. left. by destruct (elFrom _).
  - right. by rewrite taken_queue.
Qed.

Lemma log_from_other fr rest c lg : role fr ≠ Some writer → elFrom (log_from (fr :: rest) c lg) = elFrom lg.
Proof. by destruct fr. Qed.

(** What a step that is no return from a call leaves of the writer's item: what
    there was, nothing, or what was taken from the queue. *)
Lemma local_hand i c s s' lg :
  sys_inv conf s → sys_step conf (LRun i c) s = Some s' →
  let hd' := if elFrom (log_from (sysThr s i) c lg) then hand (sysThr s' writer) else [] in
  let q := qOutbound (sysConn s) in let q' := qOutbound (sysConn s') in
  q ++ drop (length q) q' = take (length q - length q') q ++ q' ∧
  (hd' = [] ∨ hd' = (if elFrom lg then hand (sysThr s writer) else []) ∨ hd' = take (length q - length q') q).
Proof.
  intros [Hc Hst] Hstep. cbn in Hstep. pose proof (ci_shape _ _ _ Hc i) as Hs.
  apply thread_step_cases in Hstep as [r Hthr ->|r caller rest frs Hthr Hr ->|x rest Hthr ->|fr rest cn frs Hthr Hf ->];
    rewrite Hthr in *; cbn [sysConn sysThr].
  - split; [apply same_queue|]. destruct (decide (writer = i)) as [<-|Hne]; [rewrite upd_same|rewrite upd_other by done]; cbn.
    + left. by destruct (elFrom lg).
    + right. by left.
  - split; [apply same_queue|]. destruct (decide (writer = i)) as [<-|Hne]; [rewrite upd_same|rewrite upd_other by done]; cbn.
    + left. destruct (elFrom lg); [|done].
      destruct caller as [|[]| | |[]| |[]| | | | | |], r; try discriminate Hr; by injection Hr as <-.
    + right. by left.
  - split; [apply same_queue|]. left. cbn. destruct (elFrom lg); [|done].
    destruct (decide (writer = i)) as [<-|Hne]; [rewrite upd_same|rewrite upd_other by done]; [|done].
    by eapply hand_rest.
  - apply frame_step_queue in Hf as Hq. split; [by eapply queue_case_log|].
    destruct (decide (writer = i)) as [<-|Hne]; [rewrite upd_same|rewrite upd_other by done].
    + destruct (queue_case_hand _ _ _ _ _ _ lg Hq Hs) as [?|?]; auto.
    + right. left. rewrite log_from_other; [done|]. intros Hro. apply Hne. symmetry. eapply core_role; [done| |done].
      rewrite Hthr. by left.
Qed.

(** An item is completed with nil once the writer was told that it is written. *)
Lemma local_told (P : queuedMessage → Prop) i c s s' :
  sys_step conf (LRun i c) s = Some s' → writing (sysThr s i) = None → (∀ j, Forall (told P) (sysThr s j)) →
  (∀ j, Forall (told P) (sysThr s' j)) ∧
  (∀ item, (item, None) ∈ ghFinished (sysConn s') → (item, None) ∈ ghFinished (sysConn s) ∨ P item).
Proof.
  intros Hstep Hw Ht. cbn in Hstep. pose proof (Ht i) as Hi.
  apply thread_step_cases in Hstep as [r Hthr ->|r caller rest frs Hthr Hr ->|x rest Hthr ->|fr rest cn frs Hthr Hf ->];
    rewrite Hthr in Hi, Hw; cbn [sysConn sysThr].
  - split; [|by left]. by apply frames_upd.
  - split; [|by left]. apply frames_upd; [done|]. apply Forall_cons in Hi as [_ [_ Hi]%Forall_cons]. apply Forall_app. split; [|done].
    destruct caller as [|[]| | |[]| |[]| | | | | |], r; try discriminate Hr; injection Hr as <-; apply Forall_singleton; constructor.
  - split; [|by left]. apply frames_upd; [|by apply Forall_cons in Hi as [_ ?]].
    unfold spawn. repeat (apply frames_upd; [|by repeat constructor]).
    apply frames_upd; [|by destruct (ccHandler conf); repeat constructor].
    repeat (apply frames_upd; [|by repeat constructor]). done.
  - destruct (frame_step_finished _ _ _ _ _ _ _ _ _ Hf) as [Hfin Hnew]. apply Forall_cons in Hi as [Hfr Hrest]. split.
    + apply frames_upd; [done|]. apply Forall_app. split; [|done]. apply Forall_forall. intros fr' Hin.
      apply Forall_forall. intros item Hitem. rewrite (Hnew item) in Hw; [done|].
      apply list_elem_of_bind. by exists fr'.
    + intros item [?|Hin]%Hfin; [by left|right]. by eapply Forall_forall in Hfr.
Qed.

End history.

(** ** The steps *)

Section steps.
Context {aead : AEAD} {laws : AEADLaws} (conf : ConnectionConfig).

Lemma fifo_local l ep ep' :
  sys_inv conf (epSys ep) → local_step conf l ep = Some ep' → fifo (epSys ep) (epLog ep) → fifo (epSys ep') (epLog ep').
Proof.
  intros Hinv Hstep [Hq Ho Ht Hf]. destruct l as [i c|i op|x e]; cbn [local_step] in Hstep.
  - destruct (writing _) eqn:Hw; [done|]. destruct (reading _); [done|].
    apply bind_Some in Hstep as (s & Hs & [= <-]). cbn [epSys epLog].
    destruct (local_hand conf i c _ _ (epLog ep) Hinv Hs) as [Hlog Hhd]. destruct (local_told conf _ i c _ _ Hs Hw Ht) as [Ht' Hf'].
    split; cbn [log_from log_queue elAccepted elTaken elFrom elTried elSent]; [..|done|].
    + by rewrite Hq, <- !app_assoc, Hlog.
    + cbn [log_from elFrom] in Hhd. unfold outbound_tried in *. cbn [elTried].
      destruct Hhd as [->|[->| ->]].
      * rewrite app_nil_r. apply sublist_inserts_r. etrans; [|exact Ho]. by apply sublist_inserts_r.
      * by apply sublist_inserts_r.
      * apply sublist_app; [|done]. etrans; [|exact Ho]. by apply sublist_inserts_r.
    + intros item [Hin|Hin]%Hf'; [by apply Hf|done].
  - apply bind_Some in Hstep as (s & Hs & [= <-]). cbn in Hs. repeat case_bool_decide; try discriminate. injection Hs as <-.
    split; cbn; [done| | |done].
    + by rewrite upd_other by (unfold joiner, writer in *; lia).
    + apply frames_upd; [done|]. apply Forall_singleton. destruct op; constructor.
  - apply bind_Some in Hstep as (s & Hs & [= <-]). cbn in Hs. destruct (sysEnv _ x); [done|]. by injection Hs as <-.
Qed.

(** writeMessage returns: the item leaves the writer's hand for the log. *)
Lemma fifo_write_return s item r s' lg lg' :
  sys_inv conf s → writing (sysThr s writer) = Some item → sys_step conf (LRun writer (CErr r)) s = Some s' → fifo s lg →
  elAccepted lg' = elAccepted lg → elTaken lg' = elTaken lg → elSent lg `prefix_of` elSent lg' →
  outbound_tried lg' `sublist_of` outbound_tried lg ++ (if elFrom lg then [item] else []) →
  (r = None → item ∈ (elSent lg').*2) → fifo s' lg'.
Proof.
  intros Hinv Hw Hs [Hq Ho Ht Hf] Ha Hk Hp Htr Hr. destruct (write_return _ _ _ _ _ Hinv Hw Hs) as (_ & fr & -> & Hfr).
  assert (∀ x, x ∈ (elSent lg).*2 → x ∈ (elSent lg').*2) as Hmono.
  { intros x Hx. destruct Hp as [y ->]. rewrite fmap_app. apply elem_of_app. by left. }
  split; cbn [sysConn sysThr].
  - by rewrite Ha, Hk.
  - rewrite upd_same, Hk. assert (hand [fr] = []) as -> by (by destruct Hfr as [[_ ->]|(q & _ & ->)]).
    replace (if elFrom lg' then [] else []) with (@nil queuedMessage) by (by destruct (elFrom lg')).
    rewrite app_nil_r. etrans; [exact Htr|]. unfold hand in Ho. by rewrite Hw in Ho.
  - apply frames_upd.
    + intros j. eapply Forall_impl; [apply Ht|]. intros fr' Hfr'. by eapply Forall_impl.
    + apply Forall_singleton. destruct Hfr as [[_ ->]|(q & _ & ->)]; [|constructor].
      unfold told. cbn. destruct r; [constructor|]. apply Forall_singleton. auto.
  - intros x Hx. auto.
Qed.

Lemma fifo_read_return s c s' lg lg' :
  sys_inv conf s → reading (sysThr s reader) = true → sys_step conf (LRun reader c) s = Some s' → fifo s lg →
  elAccepted lg' = elAccepted lg → elTaken lg' = elTaken lg → elFrom lg' = elFrom lg → elTried lg' = elTried lg →
  elSent lg' = elSent lg → fifo s' lg'.
Proof.
  intros Hinv Hw Hs [Hq Ho Ht Hf] Ha Hk Hfr Htr Hsn. destruct (read_return _ _ _ _ Hinv Hw Hs) as (_ & fr & -> & Hcase).
  split; unfold outbound_tried in *; rewrite ?Ha, ?Hk, ?Hfr, ?Htr, ?Hsn; cbn [sysConn sysThr]; try done.
  apply frames_upd; [done|]. apply Forall_singleton. destruct Hcase as [(e & _ & ->)|(m & _ & ->)]; constructor.
Qed.

Record endpoint_inv (ep : Endpoint) : Prop := {
  ei_sys : sys_inv conf (epSys ep);
  ei_typed : sys_typed (epSys ep);
  ei_session : sess_ok (epSession ep);
  ei_held : ∀ f, epIn ep = IoReceive f → Frame_ok f;
  ei_fifo : fifo (epSys ep) (epLog ep);
}.

(** A step of the system within a step of the endpoint. *)
Lemma endpoint_inv_sys l ep ep' :
  endpoint_inv ep → sys_step conf l (epSys ep) = Some (epSys ep') →
  (∀ i op, l = LCall i op → op_args_typed op) →
  (∀ i m, l = LRun i (CMsg m) → reading (sysThr (epSys ep) i) = true → Message_typed m) →
  sess_ok (epSession ep') → (∀ f, epIn ep' = IoReceive f → Frame_ok f) → fifo (epSys ep') (epLog ep') → endpoint_inv ep'.
Proof.
  intros [Hs Ht _ _ _] Hstep Hop Hm Hok Hh Hf. split; [by eapply sys_inv_step|by eapply sys_typed_step|done..].
Qed.

Lemma endpoint_inv_local l ep ep' :
  endpoint_inv ep → label_typed (ELocal l) → local_step conf l ep = Some ep' → endpoint_inv ep'.
Proof.
  intros Hinv Hl Hstep. pose proof (fifo_local _ _ _ (ei_sys _ Hinv) Hstep (ei_fifo _ Hinv)) as Hff.
  apply local_step_effect in Hstep as He. eapply endpoint_inv_sys; [done|apply He|..|done].
  - intros i op ->. exact Hl.
  - intros i m -> Hr. destruct (le_quiet _ _ _ _ He _ _ eq_refl). congruence.
  - destruct (le_session _ _ _ _ He) as [->| ->]; [apply Hinv|apply Close_sess, Hinv].
  - rewrite (le_in _ _ _ _ He). apply Hinv.
Qed.

(** The connection is not touched. *)
Lemma endpoint_inv_call ep session out in_ wire :
  endpoint_inv ep → sess_ok session → (∀ f, in_ = IoReceive f → Frame_ok f) →
  endpoint_inv (mkEndpoint (epSys ep) session out in_ wire (epLog ep)).
Proof. intros [] Hs Hi. by split. Qed.

(** writeMessage returns. *)
Lemma endpoint_inv_write ep item r session lg ep' :
  endpoint_inv ep → writing (sysThr (epSys ep) writer) = Some item →
  io_return conf writer (CErr r) session lg ep = Some ep' → sess_ok session →
  elAccepted lg = elAccepted (epLog ep) → elTaken lg = elTaken (epLog ep) → elSent (epLog ep) `prefix_of` elSent lg →
  outbound_tried lg `sublist_of` outbound_tried (epLog ep) ++ (if elFrom (epLog ep) then [item] else []) →
  (r = None → item ∈ (elSent lg).*2) → endpoint_inv ep'.
Proof.
  intros Hinv Hw [Hs ->]%io_return_inv Hok Ha Hk Hp Ht Hr.
  eapply endpoint_inv_sys; [done|exact Hs|done|by intros i m [=]|done|apply Hinv|].
  eapply fifo_write_return; [apply Hinv|done|exact Hs|apply Hinv|done..].
Qed.

Lemma endpoint_inv_send clock entropy ep ep' :
  endpoint_inv ep → send_step conf clock entropy ep = Some ep' → endpoint_inv ep'.
Proof.
  intros Hinv Hstep. unfold send_step in Hstep.
  destruct (writing _) as [item|] eqn:Hw; [|done]. destruct (epOut ep); [|done..].
  pose proof (writing_typed _ _ _ (ei_typed _ Hinv) Hw) as Hit.
  destruct (Session_Send clock entropy _ _ _) as [s o] eqn:Hs. pose proof (Send_sess _ _ _ _ _ _ (ei_session _ Hinv) Hit Hs).
  destruct o as [f|e|]; [| |done].
  - injection Hstep as <-. apply endpoint_inv_call; [done..|apply Hinv].
  - eapply endpoint_inv_write; try done. by apply sublist_inserts_r.
Qed.

Lemma endpoint_inv_mark clock ep ep' : endpoint_inv ep → mark_step conf clock ep = Some ep' → endpoint_inv ep'.
Proof.
  intros Hinv Hstep. unfold mark_step in Hstep.
  destruct (writing _) as [item|] eqn:Hw; [|done]. destruct (epOut ep) as [| |f]; [done..|].
  destruct (Session_MarkRekeySent clock f _) as [s o] eqn:Hs. pose proof (Mark_sess _ _ _ _ _ (ei_session _ Hinv) Hs).
  destruct o as [[]|e|]; [| |done].
  - injection Hstep as <-. apply endpoint_inv_call; [done..|apply Hinv].
  - eapply endpoint_inv_write; try done. by apply sublist_inserts_r.
Qed.

Lemma outbound_tried_snoc lg item :
  outbound_tried (log_tried item lg) = outbound_tried lg ++ (if elFrom lg then [item] else []).
Proof.
  unfold outbound_tried, log_tried. cbn [elTried]. rewrite filter_app, fmap_app. by destruct (elFrom lg).
Qed.

Lemma endpoint_inv_transmit ctx w ep ep' out :
  endpoint_inv ep → write_step conf ctx w ep = Some (ep', out) → endpoint_inv ep'.
Proof.
  intros Hinv Hstep. pose proof (ei_session _ Hinv) as Hok. unfold write_step in Hstep.
  destruct (writing _) as [item|] eqn:Hw; [|done]. destruct (epOut ep) as [|f|]; [done| |done].
  pose proof (outbound_tried_snoc (epLog ep) item) as Hsnoc.
  destruct (WriteFrame ctx w f) as [[w' out'] [[]|e|]], (negb _); try done.
  - apply bind_Some in Hstep as (ep1 & Hr & [= -> _]). eapply endpoint_inv_write; try done.
    + by apply prefix_app_r.
    + by rewrite <- Hsnoc.
    + intros _. cbn. rewrite fmap_app. apply elem_of_app. right. by left.
  - injection Hstep as <- _. apply endpoint_inv_call; [done..|apply Hinv].
  - apply bind_Some in Hstep as (ep1 & Hr & [= -> _]). eapply endpoint_inv_write; try done. by rewrite <- Hsnoc.
  - apply bind_Some in Hstep as (ep1 & Hr & [= -> _]). eapply endpoint_inv_write; try done. by apply sublist_inserts_r.
Qed.

Lemma endpoint_inv_read ctx r ep ep' : endpoint_inv ep → read_step conf ctx r ep = Some ep' → endpoint_inv ep'.
Proof.
  intros Hinv Hstep. unfold read_step in Hstep. destruct (reading _) eqn:Hr; cbn [andb] in Hstep; [|done].
  case_bool_decide; [|done]. destruct (epIn ep); [|done]. pose proof (ei_session _ Hinv) as Hok.
  destruct (ReadFrame ctx r) as [r' [f|e|]] eqn:Hread; [| |done].
  - injection Hstep as <-. apply endpoint_inv_call; [done..|]. intros f' [= <-].
    by apply ReadFrame_Ok_inv in Hread as [[Hf _] _].
  - apply io_return_inv in Hstep as [Hs ->]. eapply endpoint_inv_sys; [done|exact Hs|done|by intros i m [=]|done|done|].
    eapply fifo_read_return; [apply Hinv|done|exact Hs|apply Hinv|done..].
Qed.

Lemma endpoint_inv_receive clock ep ep' : endpoint_inv ep → receive_step conf clock ep = Some ep' → endpoint_inv ep'.
Proof.
  intros Hinv Hstep. unfold receive_step in Hstep. destruct (reading _) eqn:Hr; [|done]. destruct (epIn ep) as [|f] eqn:Hi; [done|].
  pose proof (ei_held _ Hinv f Hi) as Hf.
  destruct (Session_Receive clock f _) as [s o] eqn:Hs. pose proof (Receive_sess _ _ _ _ _ (ei_session _ Hinv) Hf Hs) as Hok.
  destruct o as [m|e|]; [| |done]; apply io_return_inv in Hstep as [Hst ->];
    (eapply endpoint_inv_sys; [done|exact Hst|done| |done|done|eapply fifo_read_return; [apply Hinv|done|exact Hst|apply Hinv|done..]]).
  - intros i m' [= <- <-] _. eapply Receive_typed; [apply Hinv|done..].
  - by intros i m [=].
Qed.

Lemma endpoint_inv_step l ep ep' out :
  endpoint_inv ep → label_typed l → endpoint_step conf l ep = Some (ep', out) → endpoint_inv ep'.
Proof.
  intros Hinv Hl Hstep. destruct l; cbn [endpoint_step] in Hstep;
    try apply bind_Some in Hstep as (ep1 & Hstep & [= -> _]);
    eauto using endpoint_inv_local, endpoint_inv_send, endpoint_inv_transmit, endpoint_inv_mark, endpoint_inv_read,
      endpoint_inv_receive.
Qed.

Lemma endpoint_inv_arrive out ep : endpoint_inv ep → endpoint_inv (arrive out ep).
Proof. intros []. by split. Qed.

Lemma endpoint_inv_init session : sess_ok session → endpoint_inv (endpoint_init session).
Proof.
  intros Hs. split; [apply sys_inv_init|apply sys_typed_init|done|done|]. split; cbn; [done..|constructor|].
  by intros item ?%not_elem_of_nil.
Qed.
End steps.

(** ** Properties *)

Definition sent_messages {aead : AEAD} (ep : Endpoint) : list (option Message) :=
  (λ x, message_of (qmMessage x.2)) <$> elSent (epLog ep).

(** The reader of [ep] is at ReadFrame and nothing is on its way. *)
Definition drained {aead : AEAD} (ep : Endpoint) : Prop :=
  reading (sysThr (epSys ep) reader) = true ∧ epIn ep = IoRead ∧ epWire ep = [].

(** What the direction from [S] to [R] guarantees. *)
Record delivers_to {aead : AEAD} (S R : Endpoint) : Prop := {
  dt_exact : Some <$> received (elGot (epLog R)) `prefix_of` tried_messages S;
  dt_order : outbound_tried (epLog S) `sublist_of` elAccepted (epLog S);
  dt_told : ∀ item, (item, None) ∈ ghFinished (sysConn (epSys S)) → item ∈ (elSent (epLog S)).*2;
  dt_drained : drained R → sent_messages S `prefix_of` (Some <$> received (elGot (epLog R)));
  dt_accepts : ∀ f clock, reading (sysThr (epSys R) reader) = true → epIn R = IoReceive f →
    sessClosed (epSession R) = false → ∃ s m, Session_Receive clock f (epSession R) = (s, Ok m);
}.

Section delivery.
Context {aead : AEAD} {laws : AEADLaws}.

Lemma layouts_nil fs : layouts fs = [] → fs = [].
Proof. destruct fs; [done|discriminate]. Qed.

Lemma sender_sent S K tail cut ms :
  sender S K tail cut → tried_messages S = ms ++ (Some <$> cut) → sent_messages S `prefix_of` ms.
Proof.
  unfold tried_messages, sent_messages. intros Hs Ht.
  destruct Hs as [_ _ He|? ? ? ? _ _ _ _ He _|? _ _ He|tail cut _ _ Hp Hc].
  1-3: rewrite He in Ht; cbn in Ht; rewrite app_nil_r in Ht; by rewrite Ht.
  destruct Hc as [->|(x & m & -> & Hx)].
  - cbn in Ht. rewrite app_nil_r in Ht. rewrite <- Ht. destruct Hp as [x ->].
    rewrite fmap_app. by apply prefix_app_r.
  - rewrite Hx, fmap_app in Ht. cbn in Ht. apply app_inj_tail in Ht as [-> _]. done.
Qed.

Lemma link_delivers conf S R : endpoint_inv conf S → link S R → delivers_to S R.
Proof.
  intros [_ _ _ _ [Hq Ho _ Hf]] (K & fs & K' & tail & cut & Hfl & Hsd & Hrc & Htr). split.
  - rewrite Htr, fmap_app. by apply prefix_app_r.
  - rewrite Hq. apply sublist_inserts_r. etrans; [|exact Ho]. by apply sublist_inserts_r.
  - done.
  - intros (Hr & Hi & Hw). destruct Hrc as [fs tail Hst|fs tail _ Hw' _|f ms fs tail Hi' _ _];
      [by apply stopped_not_reading in Hr| |congruence]. rewrite Hw in Hw'. symmetry in Hw'.
    apply app_eq_nil in Hw' as [->%layouts_nil _]. eapply sender_sent; [done|].
    rewrite Htr, !fmap_app. done.
  - intros f clock Hr Hi Hc. destruct Hrc as [fs tail Hst|fs tail Hi' _ _|f' ms fs tail Hi' _ Hs];
      [by apply stopped_not_reading in Hr|congruence|]. rewrite Hi in Hi'. injection Hi' as <-.
    destruct Hs as [Hs|Hs]; [congruence|]. inversion Hfl as [|? ? ? ? ? ? _ Hcar _]; subst.
    destruct (Hcar _ clock Hs) as (s & m & He & _). by exists s, m.
Qed.

Record duplex_inv (confA confB : ConnectionConfig) (d : Duplex) : Prop := {
  dx_a : endpoint_inv confA (dxA d);
  dx_b : endpoint_inv confB (dxB d);
  dx_ab : link (dxA d) (dxB d);
  dx_ba : link (dxB d) (dxA d);
}.

Lemma duplex_inv_step confA confB d d' : duplex_inv confA confB d → duplex_any_step confA confB d d' → duplex_inv confA confB d'.
Proof.
  intros [Ha Hb Hab Hba] (l & Hl & Hstep). destruct l as [l|l]; cbn in Hstep;
    apply bind_Some in Hstep as ([ep out] & Hstep & [= <-]); split; cbn;
    eauto using endpoint_inv_step, endpoint_inv_arrive, link_sender_step, link_receiver_step, ei_sys, ei_typed, ei_session.
Qed.

Lemma duplex_inv_reach confA confB A B d :
  in_sync A B → in_sync B A → duplex_reachable confA confB A B d → duplex_inv confA confB d.
Proof.
  intros HAB HBA. apply (rtc_ind_r (duplex_inv confA confB)).
  - split; [apply endpoint_inv_init; split; [apply HAB|apply HBA]|apply endpoint_inv_init; split; [apply HBA|apply HAB]|..];
      by apply link_init.
  - intros ? ? _ Hs Hi. by eapply duplex_inv_step.
Qed.
End delivery.

(** C2: Two connections over the sessions of one handshake, in every interleaving of their
    goroutines with failing, partial and segmented I/O and any number of rekeys: each reader
    gets exactly the messages the peer's writer put on the wire, in order, and the application's
    among them are a subsequence of the accepted ones in order; a message completed without an
    error was written, and once the reader has drained the stream it has got all that was
    written; an open session never refuses a frame of the stream. *)
Theorem duplex_delivery {aead : AEAD} {laws : AEADLaws} confA confB suite sid k1 k2 nowA nowB A B d :
  zlen sid = 16 →
  NewSession suite (mkHandshakeSecrets sid k1 k2) nowA = Ok A →
  NewSession suite (mkHandshakeSecrets sid k2 k1) nowB = Ok B →
  duplex_reachable confA confB A B d →
  delivers_to (dxA d) (dxB d) ∧ delivers_to (dxB d) (dxA d).
Proof.
  intros Hid HA HB Hd. destruct (NewSession_sync suite sid k1 k2 nowA nowB A B Hid HA HB) as [HAB HBA].
  destruct (duplex_inv_reach confA confB A B d HAB HBA Hd). split; by eapply link_delivers.
Qed.

(** ** Runs *)

Lemma duplex_run_steps {aead : AEAD} confA confB ls d : ∀ d',
  Forall dlabel_typed ls → duplex_run confA confB ls d = Some d' → rtc (duplex_any_step confA confB) d d'.
Proof.
  revert d. induction ls as [|l ls IH]; intros d d' Hty Hrun; cbn in Hrun; [by injection Hrun as <-|].
  apply Forall_cons in Hty as [Hl Hty]. apply bind_Some in Hrun as (d1 & Hs & Hrun).
  eapply rtc_l; [by exists l|by apply IH].
Qed.

Definition at_a (ls : list Label) : list DLabel := (λ l, DxA (ELocal l)) <$> ls.
Definition at_b (ls : list Label) : list DLabel := (λ l, DxB (ELocal l)) <$> ls.

(** Both start; A's SendPaddedAndWait is written in two parts and completed. *)
Definition ex_write_run : list DLabel :=
  at_a ex_start ++ at_b ex_start ++
  at_a (LCall 7 (OpSendPaddedAndWait None (ByValue ex_data) 0) :: go_on 7 4 ++ [LRun 7 (CCase 2)] ++ go_on 7 2 ++
        go_on writer 1 ++ [LRun writer (CCase 3)]) ++
  [DxA (ESend (at_time 1) []); DxA (EWrite ctxLive (mkWriteSide [3; 57] 0 NetErrClosed))] ++ at_a (go_on writer 1).

Definition ex_endpoints : @Duplex mac_aead := mkDuplex (endpoint_init mac_session) (endpoint_init ex_peer).
Definition ex_wire : list byte :=
  match duplex_run ex_conf ex_conf ex_write_run ex_endpoints with Some d => epWire (dxB d) | None => [] end.

(** B's reader gets it in three segments. *)
Definition ex_read_run : list DLabel :=
  [DxB (ERead ctxLive (mkReadSide [take 1 ex_wire; take 40 (drop 1 ex_wire); drop 41 ex_wire] NetErrClosed));
   DxB (EReceive (at_time 9))] ++ at_b (go_on reader 6).

Definition ex_labels : list DLabel := ex_write_run ++ ex_read_run.

Lemma ex_labels_typed : Forall dlabel_typed ex_labels.
Proof.
  apply Forall_app. split.
  - repeat (apply Forall_cons; split); try apply Forall_nil_2; try exact I. split; [|by split]. cbn. by split.
  - repeat (apply Forall_cons; split); try apply Forall_nil_2; exact I.
Qed.

(** The message is delivered, and SendPaddedAndWait is told so. *)
Lemma duplex_delivery_witness :
  match duplex_run ex_conf ex_conf ex_labels ex_endpoints with
  | Some d =>
      ghFinished (sysConn (epSys (dxA d))) = [(mkQueuedMessage (ByValue ex_data) 0 (Some 0%nat), None)] ∧
      received (elGot (epLog (dxB d))) = [ex_data] ∧ drained (dxB d) ∧
      delivers_to (dxA d) (dxB d) ∧ delivers_to (dxB d) (dxA d)
  | None => False
  end.
Proof.
  assert ((λ d, (ghFinished (sysConn (epSys (dxA d))), received (elGot (epLog (dxB d))),
                 (reading (sysThr (epSys (dxB d)) reader), epIn (dxB d), epWire (dxB d)))) <$>
    duplex_run ex_conf ex_conf ex_labels ex_endpoints =
    Some ([(mkQueuedMessage (ByValue ex_data) 0 (Some 0%nat), None)], [ex_data], (true, IoRead, []))) as H
    by (vm_compute; reflexivity).
  destruct (duplex_run ex_conf ex_conf ex_labels ex_endpoints) as [d|] eqn:Hrun; [|discriminate H].
  injection H as Hf Hg Hr Hi Hw. split; [exact Hf|]. split; [exact Hg|]. split; [exact (conj Hr (conj Hi Hw))|].
  exact (@duplex_delivery mac_aead mac_aead_laws ex_conf ex_conf CipherChaCha20Poly1305 ex_session ex_key
    (map to_byte (seqZ 50 32)) 0 0 mac_session ex_peer d eq_refl mac_session_new ex_peer_new
    (duplex_run_steps _ _ _ _ _ ex_labels_typed Hrun)).
Defined.
