(* ===== verification/DuplexApp.v ===== *)
(** * From the Send call to the handler

    DuplexSpec.v follows a message from the queue of one connection to the session
    of the other.  Here the two remaining stretches are joined to it: the writer
    takes only pings and close messages from anywhere but the outbound queue, and
    the reader dispatches what its session delivers, in order, to the handler.  The
    theorem is the promise an application relies on: the handler of one side is
    called with the messages the other side's Send calls put on the wire, in that
    order, without loss, duplication or invention. *)

From stdpp Require Import gmap.
From S2P Require Import Prelude Wire Header Frame Tlv Utf8 Messages Replay Sha256 Crypto Rekey Session.
From S2P Require Import SessionSend SessionReceive SessionPair Transport ConnectionIO Handshake Config.
From S2P Require Import Connection ConnectionSteps ConnectionSafety ConnectionFlow ConnectionSpec.
From S2P Require Import Duplex DuplexSteps DuplexLink DuplexSpec.

Local Open Scope Z_scope.

(** Pings, rekeys and close messages are handled by the reader itself. *)
Definition control_message (m : Message) : bool :=
  match m with MsgPingPong _ | MsgRekeyInit _ | MsgSessionClose _ => true | _ => false end.

Definition control_item (item : queuedMessage) : Prop :=
  ∃ m, message_of (qmMessage item) = Some m ∧ control_message m = true.

(** The history after the session delivered [got]. *)
Definition got_from (lg : EndpointLog) (got : list Message) (lg' : EndpointLog) : Prop :=
  elTried lg' = elTried lg ∧ elFrom lg' = elFrom lg ∧ elGot lg' = elGot lg ++ got.

(** ** What an endpoint step does to the connection and the history *)
Section cases.
Context {aead : AEAD} (conf : ConnectionConfig).

Inductive endpoint_case (ep ep' : Endpoint) : Prop :=
  | ec_quiet : epSys ep' = epSys ep → epLog ep' = epLog ep → endpoint_case ep ep'
  | ec_local l : local_step conf l ep = Some ep' → endpoint_case ep ep'
  | ec_write item r (tried : bool) :
      writing (sysThr (epSys ep) writer) = Some item → sys_step conf (LRun writer (CErr r)) (epSys ep) = Some (epSys ep') →
      elTried (epLog ep') = elTried (epLog ep) ++ (if tried then [(elFrom (epLog ep), item)] else []) →
      elFrom (epLog ep') = elFrom (epLog ep) → elGot (epLog ep') = elGot (epLog ep) → endpoint_case ep ep'
  | ec_read c got :
      reading (sysThr (epSys ep) reader) = true → sys_step conf (LRun reader c) (epSys ep) = Some (epSys ep') →
      match c with CMsg m => got = [m] | _ => got = [] end → got_from (epLog ep) got (epLog ep') → endpoint_case ep ep'.

Lemma endpoint_step_cases l ep ep' out : endpoint_step conf l ep = Some (ep', out) → endpoint_case ep ep'.
Proof.
  intros Hstep. destruct l as [l|clock entropy|ctx w|clock|ctx r|clock]; cbn [endpoint_step] in Hstep;
    try apply bind_Some in Hstep as (ep1 & Hstep & [= -> _]).
  - by eapply ec_local.
  - unfold send_step in Hstep. destruct (writing _) as [item|] eqn:Hw; [|done]. destruct (epOut ep); [|done..].
    destruct (Session_Send clock entropy _ _ _) as [s [f|e|]]; [| |done].
    + injection Hstep as <-. by apply ec_quiet.
    + apply io_return_inv in Hstep as [Hs ->]. apply (ec_write _ _ item (Some e) false); try done. by rewrite app_nil_r.
  - unfold write_step in Hstep. destruct (writing _) as [item|] eqn:Hw; [|done]. destruct (epOut ep) as [|f|]; [done| |done].
    destruct (WriteFrame ctx w f) as [[w' out'] [[]|e|]], (negb _); try done.
    + apply bind_Some in Hstep as (ep1 & [Hs ->]%io_return_inv & [= <- _]). by apply (ec_write _ _ item None true).
    + injection Hstep as <- _. by apply ec_quiet.
    + apply bind_Some in Hstep as (ep1 & [Hs ->]%io_return_inv & [= <- _]). by apply (ec_write _ _ item (Some e) true).
    + apply bind_Some in Hstep as (ep1 & [Hs ->]%io_return_inv & [= <- _]). apply (ec_write _ _ item (Some e) false); try done.
      by rewrite app_nil_r.
  - unfold mark_step in Hstep. destruct (writing _) as [item|] eqn:Hw; [|done]. destruct (epOut ep) as [| |f]; [done..|].
    destruct (Session_MarkRekeySent clock f _) as [s [[]|e|]]; [| |done].
    + injection Hstep as <-. by apply ec_quiet.
    + apply io_return_inv in Hstep as [Hs ->]. apply (ec_write _ _ item (Some e) false); try done. by rewrite app_nil_r.
  - unfold read_step in Hstep. destruct (reading _) eqn:Hr; cbn [andb] in Hstep; [|done].
    case_bool_decide; [|done]. destruct (epIn ep); [|done]. destruct (ReadFrame ctx r) as [r' [f|e|]]; [| |done].
    + injection Hstep as <-. by apply ec_quiet.
    + apply io_return_inv in Hstep as [Hs ->]. apply (ec_read _ _ (CErr (Some e)) []); try done. split_and!; [done..|by rewrite app_nil_r].
  - unfold receive_step in Hstep. destruct (reading _) eqn:Hr; [|done]. destruct (epIn ep) as [|f]; [done|].
    destruct (Session_Receive clock f _) as [s [m|e|]]; [| |done]; apply io_return_inv in Hstep as [Hs ->].
    + by apply (ec_read _ _ (CMsg m) [m]).
    + apply (ec_read _ _ (CErr (Some e)) []); try done. split_and!; [done..|by rewrite app_nil_r].
Qed.
End cases.

(** ** The sender: what does not come from the outbound queue is control *)
Definition control_frame (fr : Frm) : Prop :=
  match fr with
  | FEnq (EqLock a | EqCtx a | EqClosing a | EqSelect a) => eaControl a = true → control_item (eaItem a)
  | _ => True
  end.

Lemma frame_step_control conf env i joined c fr cn cn' frs :
  frame_step conf env i joined c fr cn = Some (cn', frs) → control_frame fr → Forall control_item (qControl cn) →
  Forall control_frame frs ∧ Forall control_item (qControl cn').
Proof.
  intros H. step_cases H; intros Hf Hq.
  all: split; [repeat (apply Forall_cons_2 || apply Forall_nil_2)|]; try done.
  all: try match goal with
    | H : qControl _ = _ :: _ |- _ => rewrite ?H in Hq; by apply Forall_cons in Hq as [? ?]
    end.
  all: try (cbn; apply Forall_app; split; [done|]; apply Forall_singleton; by apply Hf).
  all: cbn; intros _; by eexists.
Qed.

(** The item the writer takes up. *)
Lemma frame_step_hand conf env i joined c fr cn cn' frs :
  frame_step conf env i joined c fr cn = Some (cn', frs) → Forall control_item (qControl cn) →
  fr = FWrite WlSelect ∧ c = CCase 3 ∨ Forall control_item (hand frs).
Proof.
  intros H. step_cases H; intros Hq; try (by right; constructor); try (by left).
  all: right; cbn; apply Forall_singleton; try (by eexists).
  all: match goal with H : qControl _ = _ :: _ |- _ => rewrite ?H in Hq; by apply Forall_cons in Hq as [? ?] end.
Qed.

Definition control_queued (s : Sys) : Prop :=
  (∀ i, Forall control_frame (sysThr s i)) ∧ Forall control_item (qControl (sysConn s)).

Record control_inv (s : Sys) (lg : EndpointLog) : Prop := {
  cv_queued : control_queued s;
  cv_hand : elFrom lg = false → Forall control_item (hand (sysThr s writer));
  cv_tried : Forall (λ x, x.1 = false → control_item x.2) (elTried lg);
}.

Section sender.
Context {aead : AEAD} (conf : ConnectionConfig).

(** The writer's item after a step of thread [i] that left [st]. *)
Lemma hand_upd i st thr lg lg' :
  (i = writer → elFrom lg' = false → Forall control_item (hand st)) →
  (i ≠ writer → elFrom lg' = elFrom lg) → (elFrom lg = false → Forall control_item (hand (thr writer))) →
  elFrom lg' = false → Forall control_item (hand (upd i st thr writer)).
Proof.
  intros Hi Hne Hh Hfr. destruct (decide (writer = i)) as [<-|]; [rewrite upd_same; by apply Hi|].
  rewrite upd_other by done. apply Hh. rewrite <- Hne; [done|congruence].
Qed.

Lemma return_frames r caller frs : return_step r caller = Some frs → Forall control_frame frs ∧ ∀ rest, hand (frs ++ rest) = [].
Proof.
  intros Hr. destruct caller as [|[]| | |[]| |[]| | | | | |], r; try discriminate Hr; injection Hr as <-;
    (split; [by apply Forall_singleton|done]).
Qed.

Lemma control_queued_run i c s s' :
  control_queued s → sys_step conf (LRun i c) s = Some s' → control_queued s'.
Proof.
  intros [Hf Hq] Hstep. cbn in Hstep. pose proof (Hf i) as Hi.
  apply thread_step_cases in Hstep as [r Hthr ->|r caller rest frs Hthr Hr ->|x rest Hthr ->|fr rest cn frs Hthr Hs' ->];
    rewrite Hthr in *; unfold control_queued; cbn [sysConn sysThr].
  - split; [|done]. by apply frames_upd.
  - split; [|done]. apply frames_upd; [done|]. apply Forall_app. split; [by eapply return_frames|].
    by apply Forall_cons in Hi as [_ [_ ?]%Forall_cons].
  - split; [|done]. apply frames_upd; [|by apply Forall_cons in Hi as [_ ?]]. unfold spawn.
    repeat (apply frames_upd; [|by repeat constructor]). apply frames_upd; [|by destruct (ccHandler conf); repeat constructor].
    repeat (apply frames_upd; [|by repeat constructor]). done.
  - apply Forall_cons in Hi as [Hfr Hrest]. destruct (frame_step_control _ _ _ _ _ _ _ _ _ Hs' Hfr Hq). split; [|done].
    apply frames_upd; [done|]. by apply Forall_app.
Qed.

Lemma control_hand_run i c s s' lg lg' :
  sys_inv conf s → control_queued s → sys_step conf (LRun i c) s = Some s' → writing (sysThr s i) = None →
  elFrom lg' = elFrom (log_from (sysThr s i) c lg) → (elFrom lg = false → Forall control_item (hand (sysThr s writer))) →
  elFrom lg' = false → Forall control_item (hand (sysThr s' writer)).
Proof.
  intros [Hc Hst] [Hf Hq] Hstep Hw Hfr Hh. cbn in Hstep. pose proof (ci_shape _ _ _ Hc i) as Hs.
  apply thread_step_cases in Hstep as [r Hthr ->|r caller rest frs Hthr Hr ->|x rest Hthr ->|fr rest cn frs Hthr Hs' ->];
    rewrite Hthr in *; cbn [sysConn sysThr].
  - apply (hand_upd i _ _ lg); [|done..]. intros _ _. constructor.
  - apply (hand_upd i _ _ lg); [|done..]. intros _ _. destruct (return_frames _ _ _ Hr) as [_ ->]. constructor.
  - intros _. destruct (decide (writer = i)) as [<-|]; [rewrite upd_same|rewrite upd_other by done; by constructor].
    rewrite (hand_rest _ _ Hs). constructor.
  - apply (hand_upd i _ _ lg); [| |done].
    + intros -> Hf'. rewrite (hand_app _ _ (hand_rest _ _ Hs)).
      destruct (frame_step_hand _ _ _ _ _ _ _ _ _ Hs' Hq) as [[-> ->]|?]; [|done]. cbn in Hfr. congruence.
    + intros Hne. rewrite Hfr, log_from_other; [done|]. intros Hro. apply Hne. eapply core_role; [done| |done].
      rewrite Hthr. by left.
Qed.

Lemma control_inv_step ep ep' :
  sys_inv conf (epSys ep) → control_inv (epSys ep) (epLog ep) → endpoint_case conf ep ep' → control_inv (epSys ep') (epLog ep').
Proof.
  intros Hinv [Hqd Hh Ht] [Hs Hl|l Hstep|item r tried Hw Hs Htr Hfr Hgot|c got Hr Hs Hc (Htr & Hfr & Hgot)].
  - by rewrite Hs, Hl.
  - destruct l as [i c|i op|x e]; cbn [local_step] in Hstep.
    + destruct (writing _) eqn:Hw; [done|]. destruct (reading _); [done|].
      apply bind_Some in Hstep as (s & Hs & [= <-]). cbn [epSys epLog].
      split; [by eapply control_queued_run| |done]. refine (control_hand_run i c _ _ (epLog ep) _ Hinv Hqd Hs Hw _ Hh). reflexivity.
    + apply bind_Some in Hstep as (s & Hs & [= <-]). cbn in Hs. repeat case_bool_decide; try discriminate. injection Hs as <-.
      split; cbn; [| |done].
      * destruct Hqd as [Hf Hq]. split; [|done]. apply frames_upd; [done|]. apply Forall_singleton. by destruct op.
      * by rewrite upd_other by (unfold joiner, writer in *; lia).
    + apply bind_Some in Hstep as (s & Hs & [= <-]). cbn in Hs. destruct (sysEnv _ x); [done|]. by injection Hs as <-.
  - destruct (write_return _ _ _ _ _ Hinv Hw Hs) as (_ & fr & E & Hcase). split; [by eapply control_queued_run| |].
    + rewrite E. cbn [sysThr]. rewrite upd_same. intros _. destruct Hcase as [[_ ->]|(q & _ & ->)]; constructor.
    + rewrite Htr. apply Forall_app. split; [done|]. destruct tried; [|constructor]. apply Forall_singleton. cbn. intros Hfalse.
      apply Hh in Hfalse. unfold hand in Hfalse. rewrite Hw in Hfalse. exact (proj1 (Forall_singleton _ _) Hfalse).
  - destruct (read_return _ _ _ _ Hinv Hr Hs) as (_ & fr & E & _). split; [by eapply control_queued_run| |by rewrite Htr].
    rewrite E, Hfr. cbn [sysThr]. rewrite upd_other by done. done.
Qed.

Lemma control_inv_init session : control_inv (epSys (endpoint_init session)) (epLog (endpoint_init session)).
Proof. by repeat constructor. Qed.

End sender.

(** ** The receiver: what the session delivers is dispatched in order *)
Section receiver.
Context {aead : AEAD} (conf : ConnectionConfig).

(** The messages meant for the handler. *)
Definition for_handler (m : Message) : bool := ccHandler conf && negb (control_message m).
Definition handled (ms : list Message) : list Message := filter (λ m, for_handler m = true) ms.

(** The message the reader has received and not yet dispatched. *)
Definition reader_hand (fr : Frm) : list Message :=
  match fr with
  | FRead (RdNote m | RdSwitch m) => if for_handler m then [m] else []
  | FRead (RdLock m | RdCheck m | RdSelect m) => [m]
  | _ => []
  end.
Definition reader_hands (st : list Frm) : list Message := st ≫= reader_hand.

(** A reader that goes on reading; it gives up when the queue is full or the connection over. *)
Definition listens (fr : Frm) : bool :=
  match fr with FRead (RdUnlock (None | Some true)) => false | FRead _ => true | _ => false end.

Lemma frame_step_listens env i joined c fr cn cn' frs :
  frame_step conf env i joined c fr cn = Some (cn', frs) → listens fr = false → Forall (λ fr, listens fr = false) frs.
Proof. intros H. step_cases H; intros Hw; try discriminate Hw; repeat constructor. Qed.

Lemma stopped_listening l s s' :
  sys_inv conf s → sys_step conf l s = Some s' → stopped listens reader s → stopped listens reader s'.
Proof.
  apply stopped_step; [unfold reader, joiner; lia|apply frame_step_listens|].
  intros r caller frs Hr Hp. destruct caller as [|[]| | |[]| |[]| | | | | |], r; try discriminate Hr; injection Hr as <-;
    try discriminate Hp; by repeat constructor.
Qed.

Lemma frame_step_dispatch env i joined c fr cn cn' frs :
  frame_step conf env i joined c fr cn = Some (cn', frs) → fr ≠ FRead RdRead →
  ghDispatched cn' ++ reader_hands frs = ghDispatched cn ++ reader_hand fr ∨
  role fr = Some reader ∧ ghDispatched cn' = ghDispatched cn ∧ Forall (λ fr, listens fr = false) frs.
Proof.
  intros H. step_cases H; intros Hne; try done; try (by left).
  all: try (by right; repeat constructor).
  all: left; unfold reader_hands, reader_hand, for_handler; cbn; rewrite ?app_nil_r; try done.
  all: repeat match goal with H : ccHandler conf = _ |- _ => rewrite H; clear H end.
  all: cbn; rewrite ?andb_false_r; cbn; by rewrite ?app_nil_r.
Qed.

Lemma frame_step_dispatched env i joined c fr cn cn' frs :
  frame_step conf env i joined c fr cn = Some (cn', frs) →
  ghDispatched cn' = ghDispatched cn ∨ ∃ m, fr = FRead (RdSelect m).
Proof. intros H. step_cases H; try (by left). right. by eexists. Qed.

Lemma reader_hands_app a b : reader_hands (a ++ b) = reader_hands a ++ reader_hands b.
Proof. apply bind_app. Qed.

Definition dispatch_inv (s : Sys) (ms : list Message) : Prop :=
  stopped listens reader s ∧ (ghDispatched (sysConn s) `prefix_of` ms) ∨
  ms = ghDispatched (sysConn s) ++ reader_hands (sysThr s reader).

(** Another goroutine, or the reader where it neither receives nor gives up. *)
Lemma dispatch_same s s' l ms :
  sys_inv conf s → sys_step conf l s = Some s' → ghDispatched (sysConn s') = ghDispatched (sysConn s) →
  reader_hands (sysThr s' reader) = reader_hands (sysThr s reader) → dispatch_inv s ms → dispatch_inv s' ms.
Proof.
  intros Hinv Hs Hd Hh [[Hst Hp]|Hms]; [left|right].
  - split; [by eapply stopped_listening|by rewrite Hd].
  - by rewrite Hd, Hh.
Qed.

Lemma dispatch_frame i c s fr rest cn frs ms :
  sys_inv conf s → sysThr s i = fr :: rest → reading (fr :: rest) = false →
  frame_step conf (sysEnv s) i (loops_done (sysThr s)) c fr (sysConn s) = Some (cn, frs) →
  let s' := mkSys cn (sysEnv s) (upd i (frs ++ rest) (sysThr s)) in
  sys_step conf (LRun i c) s = Some s' → dispatch_inv s ms → dispatch_inv s' ms.
Proof.
  intros Hinv Hthr Hr Hf s' Hs Hms. pose proof Hinv as [Hc Hst]. pose proof (ci_shape _ _ _ Hc i) as Hsh. rewrite Hthr in Hsh.
  destruct (decide (i = reader)) as [->|Hne].
  2:{ destruct (step_not_role _ _ _ _ _ _ _ _ _ _ _ reader Hc Hthr Hf Hne) as [Hro _].
      apply (dispatch_same s s' (LRun i c)); try done; cbn; [|by rewrite upd_other].
      destruct (frame_step_dispatched _ _ _ _ _ _ _ _ Hf) as [|[m ->]]; [done|]. by destruct Hro. }
  assert (fr ≠ FRead RdRead) as Hnr by (intros ->; discriminate Hr).
  destruct Hms as [[Hstop Hp]|Hms].
  { left. split; [by eapply stopped_listening|]. cbn. destruct (frame_step_dispatched _ _ _ _ _ _ _ _ Hf) as [->|[m ->]]; [done|].
    destruct Hstop as [_ Hl]. rewrite Hthr in Hl. by apply Forall_cons in Hl as [? _]. }
  rewrite Hthr in Hms. destruct (frame_step_dispatch _ _ _ _ _ _ _ _ Hf Hnr) as [He|(Hro & Hd & Hl)].
  - right. cbn. rewrite upd_same, reader_hands_app, (assoc_L (++)), He, Hms. cbn. by rewrite <- (assoc_L (++)).
  - left. assert (rest = []) as -> by (by destruct fr; try discriminate Hro; destruct rest as [|? [|]]). split.
    + split.
      { pose proof (sys_step_le _ _ _ _ Hinv Hs) as Hle. apply Hle, (loops_started _ _ _ _ _ Hst Hthr). unfold reader, joiner. lia. }
      cbn. by rewrite upd_same, app_nil_r.
    + cbn. rewrite Hd, Hms. by apply prefix_app_r.
Qed.

Lemma dispatch_run i c s s' ms :
  sys_inv conf s → reading (sysThr s i) = false → sys_step conf (LRun i c) s = Some s' → dispatch_inv s ms → dispatch_inv s' ms.
Proof.
  intros Hinv Hr Hs Hms. pose proof Hs as Hstep. cbn in Hstep. pose proof Hinv as [Hc Hst].
  apply thread_step_cases in Hstep as [r Hthr ->|r caller rest frs Hthr Hret ->|x rest Hthr ->|fr rest cn frs Hthr Hf ->].
  - apply (dispatch_same s _ (LRun i c)); try done. cbn.
    destruct (decide (reader = i)) as [<-|]; [by rewrite upd_same, Hthr|by rewrite upd_other].
  - apply (dispatch_same s _ (LRun i c)); try done. cbn.
    destruct (decide (reader = i)) as [<-|]; [rewrite upd_same, Hthr|by rewrite upd_other].
    destruct caller as [|[]| | |[]| |[]| | | | | |], r; try discriminate Hret; by injection Hret as <-.
  - assert (held RStart (sysConn s) i = true) as Hh by (eapply core_owner; [done|rewrite Hthr; by left|done]).
    apply bool_decide_eq_true in Hh.
    assert (sysThr s reader = []) as Hnil by (apply (st_loops _ _ Hst); [left; congruence|unfold reader, joiner; lia]).
    apply (dispatch_same s _ (LRun i c)); try done. cbn. rewrite Hnil.
    destruct (decide (reader = i)) as [<-|]; [congruence|by rewrite upd_other].
  - rewrite Hthr in Hr. by eapply dispatch_frame.
Qed.

Lemma handled_app a b : handled (a ++ b) = handled a ++ handled b.
Proof. apply filter_app. Qed.

Lemma dispatch_inv_step ep ep' :
  sys_inv conf (epSys ep) → dispatch_inv (epSys ep) (handled (elGot (epLog ep))) → endpoint_case conf ep ep' →
  dispatch_inv (epSys ep') (handled (elGot (epLog ep'))).
Proof.
  intros Hinv Hms [Hs Hl|l Hstep|item r tried Hw Hs Htr Hfr Hgot|c got Hr Hs Hc (Htr & Hfr & Hgot)].
  - by rewrite Hs, Hl.
  - apply local_step_effect in Hstep as He. rewrite (le_got _ _ _ _ He). pose proof (le_sys _ _ _ _ He) as Hs.
    destruct l as [i c|i op|x e].
    + destruct (le_quiet _ _ _ _ He i c eq_refl) as [_ Hr]. by eapply dispatch_run.
    + eapply dispatch_same; [done|exact Hs|..|done]; cbn in Hs; repeat case_bool_decide; try discriminate; injection Hs as <-; cbn;
        [done|]. by rewrite upd_other by (unfold joiner, reader in *; lia).
    + eapply dispatch_same; [done|exact Hs|..|done]; cbn in Hs; destruct (sysEnv _ x); try discriminate; by injection Hs as <-.
  - rewrite Hgot. destruct (write_return _ _ _ _ _ Hinv Hw Hs) as (_ & fr & E & _).
    apply (dispatch_same (epSys ep) _ (LRun writer (CErr r))); try done; rewrite E; [done|]. cbn. by rewrite upd_other.
  - destruct (read_return _ _ _ _ Hinv Hr Hs) as (_ & fr & E & Hcase). pose proof Hinv as [Hci _].
    assert (reader_hands (sysThr (epSys ep) reader) = []) as Hh.
    { pose proof (ci_shape _ _ _ Hci reader) as Hsh. destruct (sysThr (epSys ep) reader) as [|fr' rest]; [done|].
      assert (rest = []) as -> by (apply (shape_single fr'); [done|by right]). by destruct fr' as [| | | |[]| | | | | | | |]. }
    destruct Hms as [Hms|Hms].
    { destruct Hms as [[_ Hl] _]. destruct (sysThr (epSys ep) reader) as [|fr' rest]; [done|]. apply Forall_cons in Hl as [Hl _].
      by destruct fr' as [| | | |[]| | | | | | | |]. }
    right. rewrite Hgot, handled_app, Hms, Hh, app_nil_r, E. cbn [sysConn sysThr]. rewrite upd_same. f_equal.
    destruct Hcase as [(e & -> & ->)|(m & -> & ->)]; subst got; [done|]. unfold handled, reader_hands. cbn.
    destruct (for_handler m) eqn:Hm; [rewrite decide_True by done|rewrite decide_False by congruence]; done.
Qed.
End receiver.

(** ** From one application to the other *)
Section application.
Context {aead : AEAD} {laws : AEADLaws}.

(** The messages among [items] that the peer's handler is for. *)
Definition pick (conf : ConnectionConfig) (o : option Message) : option Message :=
  m ← o; if for_handler conf m then Some m else None.
Definition app_messages (conf : ConnectionConfig) (items : list queuedMessage) : list Message :=
  omap (λ item, pick conf (message_of (qmMessage item))) items.

Lemma pick_received conf ms : omap (pick conf) (Some <$> received ms) = handled conf ms.
Proof.
  induction ms as [|m ms IH]; [done|]. unfold received, handled in *. rewrite !filter_cons.
  destruct (is_rekey_message m) eqn:Hr; [rewrite (decide_False (P := true = false)) by done|rewrite decide_True by done].
  - rewrite decide_False; [done|]. unfold for_handler. destruct m; try discriminate Hr. cbn. by rewrite andb_false_r.
  - cbn. destruct (for_handler conf m); [rewrite decide_True by done|rewrite decide_False by done]; by rewrite IH.
Qed.

Lemma pick_control conf item : control_item item → pick conf (message_of (qmMessage item)) = None.
Proof. intros (m & -> & Hc). cbn. unfold for_handler. by rewrite Hc, andb_false_r. Qed.

Arguments pick : simpl never.

Lemma omap_prefix {A B} (f : A → option B) l k : l `prefix_of` k → omap f l `prefix_of` omap f k.
Proof. intros [x ->]. rewrite omap_app. by apply prefix_app_r. Qed.

Lemma pick_items {A} conf (f : A → queuedMessage) xs :
  omap (pick conf) ((λ x, message_of (qmMessage (f x))) <$> xs) = app_messages conf (f <$> xs).
Proof. induction xs as [|x xs IH]; [done|]. unfold app_messages in *. cbn. by rewrite IH. Qed.

Lemma pick_tried conf xs :
  Forall (λ x : bool * queuedMessage, x.1 = false → control_item x.2) xs →
  omap (pick conf) ((λ x, message_of (qmMessage x.2)) <$> xs) = app_messages conf (snd <$> filter (λ x, x.1 = true) xs).
Proof.
  induction 1 as [|[b item] xs Hx _ IH]; [done|]. unfold app_messages in *. rewrite filter_cons. cbn. cbn in Hx, IH.
  destruct b; [rewrite decide_True by done; cbn; by rewrite IH|]. rewrite decide_False by done. by rewrite pick_control, IH by auto.
Qed.

Record app_inv (conf : ConnectionConfig) (ep : Endpoint) : Prop := {
  ai_reach : reachable conf (epSys ep);
  ai_control : control_inv (epSys ep) (epLog ep);
  ai_dispatch : dispatch_inv conf (epSys ep) (handled conf (elGot (epLog ep)));
}.

Lemma app_inv_step conf l ep ep' out : app_inv conf ep → endpoint_step conf l ep = Some (ep', out) → app_inv conf ep'.
Proof.
  intros [Hr Hc Hd] Hstep%endpoint_step_cases. pose proof (sys_inv_reach _ _ Hr) as Hinv. split.
  - destruct Hstep as [-> _|l' He%local_step_effect|item r tried _ Hs _ _ _|c got _ Hs _ _]; [done|..];
      (eapply rtc_r; [exact Hr|]); eexists; [apply He|exact Hs|exact Hs].
  - by eapply control_inv_step.
  - by eapply dispatch_inv_step.
Qed.

Lemma app_inv_arrive conf out ep : app_inv conf ep → app_inv conf (arrive out ep).
Proof. by intros [? ? ?]. Qed.

Lemma app_inv_init conf session : app_inv conf (endpoint_init session).
Proof. split; [apply rtc_refl|apply control_inv_init|by right]. Qed.

Lemma app_inv_reach confA confB A B d :
  duplex_reachable confA confB A B d → app_inv confA (dxA d) ∧ app_inv confB (dxB d).
Proof.
  apply (rtc_ind_r (λ d, app_inv confA (dxA d) ∧ app_inv confB (dxB d))); [split; apply app_inv_init|].
  intros d1 d2 _ (l & _ & Hstep) [Ha Hb]. destruct l as [l|l]; cbn in Hstep;
    apply bind_Some in Hstep as ([ep out] & Hstep & [= <-]); cbn; eauto using app_inv_step, app_inv_arrive.
Qed.

(** The connection runs and its handler has taken up all that was dispatched. *)
Definition handler_idle (ep : Endpoint) : Prop :=
  lfCtx (sysConn (epSys ep)) = None ∧ handler_hands (sysThr (epSys ep) handler) = [] ∧ qHandler (sysConn (epSys ep)) = [].

(** What the application at [R] gets from the one at [S]. *)
Record delivers_app (conf : ConnectionConfig) (S R : Endpoint) : Prop := {
  da_exact : ghCalled (sysConn (epSys R)) `prefix_of` app_messages conf (outbound_tried (epLog S));
  da_order : outbound_tried (epLog S) `sublist_of` elAccepted (epLog S);
  da_complete : drained R → handler_idle R → app_messages conf (elSent (epLog S)).*2 `prefix_of` ghCalled (sysConn (epSys R));
  da_told : ∀ item, (item, None) ∈ ghFinished (sysConn (epSys S)) → item ∈ (elSent (epLog S)).*2;
}.

Lemma app_delivers conf confS S R : app_inv confS S → app_inv conf R → delivers_to S R → delivers_app conf S R.
Proof.
  intros HS HR [Hex Hord Htold Hdr _]. pose proof (fa_order _ _ (flow_all_reach _ _ (ai_reach _ _ HR))) as [Hrun Hpre].
  split; [|done| |done].
  - apply (omap_prefix (pick conf)) in Hex. rewrite pick_received in Hex. unfold tried_messages in Hex.
    rewrite (pick_tried conf) in Hex by apply (ai_control _ _ HS). etrans; [exact Hpre|]. etrans; [|exact Hex].
    destruct (ai_dispatch _ _ HR) as [[_ Hp]| ->]; [done|]. by apply prefix_app_r.
  - intros Hd (Hctx & Hh & Hq). specialize (Hdr Hd). apply (omap_prefix (pick conf)) in Hdr. rewrite pick_received in Hdr.
    unfold sent_messages in Hdr. rewrite (pick_items conf snd) in Hdr. etrans; [exact Hdr|].
    rewrite Hh, Hq, app_nil_r in Hrun. rewrite <- (Hrun Hctx). destruct Hd as (Hr & _ & _).
    destruct (ai_dispatch _ _ HR) as [[[_ Hl] _]|He].
    + destruct (sysThr (epSys R) reader) as [|fr rest]; [done|]. apply Forall_cons in Hl as [Hl _].
      by destruct fr as [| | | |[]| | | | | | | |].
    + pose proof (sys_inv_reach _ _ (ai_reach _ _ HR)) as [Hc _]. pose proof (ci_shape _ _ _ Hc reader) as Hs.
      rewrite He. destruct (sysThr (epSys R) reader) as [|fr rest]; [done|].
      assert (rest = []) as -> by (apply (shape_single fr); [done|by right]).
      destruct fr as [| | | |[]| | | | | | | |]; try discriminate Hr. by rewrite app_nil_r.
Qed.
End application.

(** ** Properties *)

(** C1: Two connections over the sessions of one handshake, in every interleaving with failing
    and segmented I/O and any rekeys: the handler of each side is called with a prefix of the
    application messages the other side's Send calls put on the wire, in the order the calls
    were accepted, none lost, repeated, invented or mixed with pings; once the reader has
    drained the stream and the handler is idle it has had every message whose Send was told it
    is written. *)
Theorem application_delivery {aead : AEAD} {laws : AEADLaws} confA confB suite sid k1 k2 nowA nowB A B d :
  zlen sid = 16 →
  NewSession suite (mkHandshakeSecrets sid k1 k2) nowA = Ok A →
  NewSession suite (mkHandshakeSecrets sid k2 k1) nowB = Ok B →
  duplex_reachable confA confB A B d →
  delivers_app confB (dxA d) (dxB d) ∧ delivers_app confA (dxB d) (dxA d).
Proof.
  intros Hid HA HB Hd. destruct (NewSession_sync suite sid k1 k2 nowA nowB A B Hid HA HB) as [HAB HBA].
  destruct (app_inv_reach _ _ _ _ _ Hd) as [Ha Hb].
  destruct (duplex_inv_reach confA confB A B d HAB HBA Hd) as [Hia Hib Hab Hba].
  split; eapply app_delivers; eauto using link_delivers.
Qed.

(** ** Witnesses *)

(** The run of DuplexSpec.v, up to the call of B's handler. *)
Definition ex_app_labels : list DLabel :=
  ex_labels ++ at_b (go_on handler 1 ++ [LRun handler (CCase 1)] ++ go_on handler 1).

Lemma ex_app_labels_typed : Forall dlabel_typed ex_app_labels.
Proof.
  apply Forall_app. split; [apply ex_labels_typed|].
  repeat (apply Forall_cons; split); try apply Forall_nil_2; exact I.
Qed.

Lemma application_delivery_witness :
  match duplex_run ex_conf ex_conf ex_app_labels ex_endpoints with
  | Some d =>
      ghCalled (sysConn (epSys (dxB d))) = [ex_data] ∧ drained (dxB d) ∧ handler_idle (dxB d) ∧
      delivers_app ex_conf (dxA d) (dxB d) ∧ delivers_app ex_conf (dxB d) (dxA d)
  | None => False
  end.
Proof.
  assert ((λ d, (ghCalled (sysConn (epSys (dxB d))),
                 (reading (sysThr (epSys (dxB d)) reader), epIn (dxB d), epWire (dxB d)),
                 (lfCtx (sysConn (epSys (dxB d))), handler_hands (sysThr (epSys (dxB d)) handler), qHandler (sysConn (epSys (dxB d)))))) <$>
    duplex_run ex_conf ex_conf ex_app_labels ex_endpoints =
    Some ([ex_data], (true, IoRead, []), (None, [], []))) as H by (vm_compute; reflexivity).
  destruct (duplex_run ex_conf ex_conf ex_app_labels ex_endpoints) as [d|] eqn:Hrun; [|discriminate H].
  injection H as Hc Hr Hi Hw Hx Hh Hq. split; [exact Hc|]. split; [exact (conj Hr (conj Hi Hw))|].
  split; [exact (conj Hx (conj Hh Hq))|].
  exact (@application_delivery mac_aead mac_aead_laws ex_conf ex_conf CipherChaCha20Poly1305 ex_session ex_key
    (map to_byte (seqZ 50 32)) 0 0 mac_session ex_peer d eq_refl mac_session_new ex_peer_new
    (duplex_run_steps _ _ _ _ _ ex_app_labels_typed Hrun)).
Defined.
