(* ===== verification/Fleet.v ===== *)
(** * A server and its connections

    Server.v treats a connection as a number: when it is done is a choice, and
    closing it is a mark.  Connection.v treats one connection alone.  Here the two
    are one system: a goroutine of the server that calls Start, Close or abort is
    inside that call of the connection's own runtime until it returns, the worker
    waits for the connection's Done, and connCancel cancels the context the
    connection was started with.  Users may call everything else on any connection
    at any time.

    Every run of the system is a run of the server and of each connection, so all
    theorems on them hold.  The theorem of this file is what only the composition
    has: OnDisconnect is called for connections that are done, and when Close
    returns every connection the server ever admitted is done, its goroutines have
    ended and each message accepted on it has its result. *)

From stdpp Require Import gmap.
From S2P Require Import Prelude Wire Header Frame Tlv Utf8 Messages Replay Sha256 Crypto Rekey Session.
From S2P Require Import SessionSend SessionReceive SessionPair Transport ConnectionIO Handshake Config.
From S2P Require Import Connection ConnectionSteps ConnectionSafety ConnectionFlow ConnectionSpec ConnectionLive ConnectionCalls.
From S2P Require Import Server ServerSpec.

(** ** The system *)

(** [flCall i] is the connection goroutine [i] of the server called last. *)
Record Fleet := mkFleet { flServer : SSys; flConn : nat → Sys; flCall : nat → option nat }.

Definition fleet_init : Fleet := mkFleet server_init (λ _, sys_init) (λ _, None).

(** The thread of a connection in which goroutine [i] of the server calls it; the
    odd ones are the users'. *)
Definition slot (i : nat) : nat := 6 + 2 * i.

(** The context of Start: connCtx. *)
Definition connCtx : nat := 0.

Inductive ConnAction := ActCall (op : Op) | ActCancel.

Section fleet.
Context (conf : ServerConfig).

(** handleConn's configuration of its connection. *)
Definition connConfig : ConnectionConfig := NewConnection_config (svConnection conf).

(** What the step of a goroutine does to a connection. *)
Definition conn_action (c : SChoice) (pc : Pc) (s : Server) : option (nat * ConnAction) :=
  match pc with
  | HcAdmission k =>
      if svAdmission conf then match c with ScResult (Some _) => Some (k, ActCall OpClose) | _ => None end else None
  | HcRegister k => if srInShutdown s then Some (k, ActCall OpClose) else None
  | HcWatch k => Some (k, ActCall (OpStart connCtx))
  | HcCancel k => Some (k, ActCancel)
  | ClConns abort (k :: _) _ => Some (k, ActCall (if abort : bool then OpAbort ErrConnectionClosed else OpClose))
  | WcClose k => Some (k, ActCall OpClose)
  | _ => None
  end.

(** The goroutine is inside a call. *)
Definition in_call (f : Fleet) (i : nat) : bool :=
  match flCall f i with Some k => negb (bool_decide (sysThr (flConn f k) (slot i) = [])) | None => false end.

(** <-conn.Done() *)
Definition awaits (f : Fleet) (pc : Pc) : bool :=
  match pc with HcRun k => negb (lfDone (sysConn (flConn f k))) | _ => false end.

Definition act_on (i : nat) (a : option (nat * ConnAction)) (f : Fleet) : option Fleet :=
  match a with
  | None => Some f
  | Some (k, ActCall op) =>
      s ← sys_step connConfig (LCall (slot i) op) (flConn f k);
      Some (mkFleet (flServer f) (upd k s (flConn f)) (upd i (Some k) (flCall f)))
  | Some (k, ActCancel) =>
      let s := default (flConn f k) (sys_step connConfig (LCancel connCtx ErrCanceled) (flConn f k)) in
      Some (mkFleet (flServer f) (upd k s (flConn f)) (flCall f))
  end.

(** A goroutine of the server steps; a call of Serve, Close or Abort; a step of a
    connection. *)
Inductive FLabel := FlRun (i : nat) (c : SChoice) | FlCall (l : SLabel) | FlConn (k : nat) (l : Label).

(** The users neither start a connection of the server nor hold its context. *)
Definition user_label (l : Label) : bool :=
  match l with
  | LRun _ _ => true
  | LCall j (OpStart _) => false
  | LCall j _ => Nat.odd j
  | LCancel x _ => negb (bool_decide (x = connCtx))
  end.

Definition fleet_step (l : FLabel) (f : Fleet) : option Fleet :=
  match l with
  | FlRun i c =>
      if in_call f i then None else
      pc ← ssThr (flServer f) !! i;
      if awaits f pc then None else
      sv ← server_step conf (SlRun i c) (flServer f);
      act_on i (conn_action c pc (ssServer (flServer f))) (mkFleet sv (flConn f) (flCall f))
  | FlCall (SlRun _ _) => None
  | FlCall l => sv ← server_step conf l (flServer f); Some (mkFleet sv (flConn f) (flCall f))
  | FlConn k l =>
      if user_label l then
        s ← sys_step connConfig l (flConn f k); Some (mkFleet (flServer f) (upd k s (flConn f)) (flCall f))
      else None
  end.

Fixpoint fleet_run (ls : list FLabel) (f : Fleet) : option Fleet :=
  match ls with [] => Some f | l :: ls => f ← fleet_step l f; fleet_run ls f end.

Definition fleet_any_step (f f' : Fleet) : Prop := ∃ l, fleet_step l f = Some f'.
Definition fleet_reachable (f : Fleet) : Prop := rtc fleet_any_step fleet_init f.

(** ** Runs of the parts *)

Inductive fleet_case (f f' : Fleet) : Prop :=
  | fc_run i c pc sv :
      in_call f i = false → ssThr (flServer f) !! i = Some pc → awaits f pc = false →
      server_step conf (SlRun i c) (flServer f) = Some sv →
      act_on i (conn_action c pc (ssServer (flServer f))) (mkFleet sv (flConn f) (flCall f)) = Some f' → fleet_case f f'
  | fc_call l sv :
      (∀ i c, l ≠ SlRun i c) → server_step conf l (flServer f) = Some sv → f' = mkFleet sv (flConn f) (flCall f) →
      fleet_case f f'
  | fc_conn k l s :
      user_label l = true → sys_step connConfig l (flConn f k) = Some s →
      f' = mkFleet (flServer f) (upd k s (flConn f)) (flCall f) → fleet_case f f'.

Lemma fleet_step_cases l f f' : fleet_step l f = Some f' → fleet_case f f'.
Proof.
  intros Hstep. destruct l as [i c|l|k l]; cbn [fleet_step] in Hstep.
  - destruct (in_call f i) eqn:Hc; [done|]. apply bind_Some in Hstep as (pc & Hpc & Hstep).
    destruct (awaits f pc) eqn:Ha; [done|]. apply bind_Some in Hstep as (sv & Hs & Hstep). by eapply fc_run.
  - assert ((∀ i c, l ≠ SlRun i c) ∧ ∃ sv, server_step conf l (flServer f) = Some sv ∧ f' = mkFleet sv (flConn f) (flCall f))
      as (Hl & sv & Hs & ->).
    { destruct l as [|l|ab]; [done|..]; apply bind_Some in Hstep as (sv & Hs & [= <-]); (split; [done|]); by exists sv. }
    by eapply fc_call.
  - destruct (user_label l) eqn:Hu; [|done]. apply bind_Some in Hstep as (s & Hs & [= <-]). by eapply fc_conn.
Qed.

(** What a step of the server does to its connections. *)
Lemma act_on_cases i a f f' :
  act_on i a f = Some f' →
  flServer f' = flServer f ∧
  ((flConn f' = flConn f ∧ flCall f' = flCall f ∧ a = None) ∨
   ∃ k s act, a = Some (k, act) ∧ flConn f' = upd k s (flConn f) ∧
     match act with
     | ActCall op => sys_step connConfig (LCall (slot i) op) (flConn f k) = Some s ∧ flCall f' = upd i (Some k) (flCall f)
     | ActCancel => (s = flConn f k ∨ sys_step connConfig (LCancel connCtx ErrCanceled) (flConn f k) = Some s) ∧
         flCall f' = flCall f
     end).
Proof.
  destruct a as [[k [op|]]|]; cbn [act_on].
  - intros (s & Hs & [= <-])%bind_Some. split; [done|]. right. by exists k, s, (ActCall op).
  - intros [= <-]. split; [done|]. right. eexists k, _, ActCancel. split; [done|]. split; [done|].
    split; [|done]. cbn. destruct (sysEnv (flConn f k) connCtx); [by left|by right].
  - intros [= <-]. split; [done|]. by left.
Qed.

(** Each connection stays where it was or makes a step of its own. *)
Lemma fleet_conn_step f f' k :
  fleet_case f f' → flConn f' k = flConn f k ∨ sys_any_step connConfig (flConn f k) (flConn f' k).
Proof.
  intros [i c pc sv _ _ _ _ Ha|l sv _ _ ->|k' l s _ Hs ->]; [|by left|].
  - apply act_on_cases in Ha as [_ [(Hc & _)|(k' & s & act & _ & Hc & Hact)]]; rewrite Hc; [by left|].
    destruct (decide (k = k')) as [->|]; [rewrite upd_same|rewrite upd_other by done; by left].
    destruct act as [op|]; [right; eexists; apply Hact|]. destruct Hact as [[->|Hs] _]; [by left|right; by eexists].
  - cbn. destruct (decide (k = k')) as [->|]; [rewrite upd_same; right; by eexists|rewrite upd_other by done; by left].
Qed.

Lemma fleet_server_step f f' :
  fleet_case f f' → flServer f' = flServer f ∨ server_any_step conf (flServer f) (flServer f').
Proof.
  intros [i c pc sv _ _ _ Hs Ha|l sv _ Hs ->|k' l s _ Hs ->]; [right|right; by eexists|by left].
  apply act_on_cases in Ha as [-> _]. by eexists.
Qed.

Lemma fleet_parts f :
  fleet_reachable f → server_reachable conf (flServer f) ∧ ∀ k, reachable connConfig (flConn f k).
Proof.
  apply (rtc_ind_r (λ f, server_reachable conf (flServer f) ∧ ∀ k, reachable connConfig (flConn f k))).
  - split; [apply rtc_refl|]. intros k. apply rtc_refl.
  - intros f1 f2 _ [l Hl%fleet_step_cases] [Hsv Hcn]. split.
    + destruct (fleet_server_step _ _ Hl) as [->|Hs]; [done|exact (rtc_r _ _ _ Hsv Hs)].
    + intros k. destruct (fleet_conn_step _ _ k Hl) as [->|Hs]; [done|exact (rtc_r _ _ _ (Hcn k) Hs)].
Qed.
End fleet.

(** ** The workers *)

(** The connection of a worker that still has to start or close it. *)
Definition conn_hand (pc : Pc) : list nat :=
  match pc with HcRegister k | HcWatch k | HcRun k | HcDisconnect k false => [k] | _ => [] end.
(** The connection of a worker that has seen its Done. *)
Definition after_run (pc : Pc) : list nat :=
  match pc with HcCancel k | HcUnregisterConn k | HcDisconnect k true => [k] | _ => [] end.

Section workers.
Context (conf : ServerConfig).

Record worker_effect (c : SChoice) (pc : Pc) (s s' : Server) (pc' : Pc) (new : list Pc) : Prop := {
  we_run : ∀ k, pc' = HcRun k → pc = HcWatch k;
  we_refused : ∀ k, pc' = HcDisconnect k false → pc = HcRegister k ∧ srInShutdown s = true;
  we_after : ∀ k, k ∈ after_run pc' → k ∈ after_run pc ∨ pc = HcRun k;
  we_admitted : ∀ k, k ∈ srAdmitted s' → k ∈ srAdmitted s ∨ k ∈ conn_hand pc';
  we_hand : ∀ k, k ∈ conn_hand pc → k ∈ conn_hand pc' ∨ pc = HcRun k ∨ pc = HcDisconnect k false;
  we_disconnects : ∀ k, k ∈ srDisconnects s' → k ∈ srDisconnects s ∨ ∃ handed, pc = HcDisconnect k handed;
  we_new : Forall (λ x, conn_hand x = [] ∧ after_run x = []) new;
}.

Lemma pc_step_worker c pc s s' pc' new : pc_step conf c pc s = Some (s', pc', new) → worker_effect c pc s s' pc' new.
Proof.
  intros H. srv_cases H; split; cbn; try done; try (by left); try (by constructor).
  all: try match goal with b : bool |- _ => destruct b end.
  all: intros k0; rewrite ?elem_of_app, ?list_elem_of_singleton, ?elem_of_nil; naive_solver.
Qed.
End workers.

Lemma thr_lookup (thr : list Pc) i pc new j x :
  (<[i := pc]> thr ++ new) !! j = Some x → (j = i ∧ x = pc) ∨ (j ≠ i ∧ thr !! j = Some x) ∨ x ∈ new.
Proof.
  rewrite lookup_app. destruct (decide (j = i)) as [->|Hne].
  - destruct (decide (i < length thr)%nat) as [Hlt|Hge].
    + rewrite list_lookup_insert_eq by done. naive_solver.
    + rewrite (proj2 (lookup_ge_None _ _)) by (rewrite length_insert; lia). intros Hx%list_elem_of_lookup_2. by right; right.
  - rewrite list_lookup_insert_ne by done. destruct (thr !! j); [naive_solver|]. intros Hx%list_elem_of_lookup_2. by right; right.
Qed.

Lemma own_once (thr : list Pc) i j a b k :
  NoDup (thr ≫= own) → thr !! i = Some a → thr !! j = Some b → k ∈ own a → k ∈ own b → i = j.
Proof.
  intros Hnd Ha Hb Hka Hkb. destruct (decide (i = j)) as [|Hne]; [done|]. exfalso.
  rewrite (delete_Permutation _ _ _ Ha) in Hnd. cbn in Hnd. apply NoDup_app in Hnd as (_ & Hnd & _). apply (Hnd _ Hka).
  apply list_elem_of_bind. exists b. split; [done|].
  destruct (decide (j < i)%nat) as [|]; apply list_elem_of_lookup; [exists j; by rewrite list_lookup_delete_lt|].
  exists (pred j). rewrite list_lookup_delete_ge by lia. by replace (S (pred j)) with j by lia.
Qed.

(** ** The invariant of the system *)

Section fleet_invariant.
Context (conf : ServerConfig).

Definition fdone (f : Fleet) (k : nat) : Prop := lfDone (sysConn (flConn f k)) = true.

Record fleet_inv (f : Fleet) : Prop := {
  fi_run : ∀ i k, ssThr (flServer f) !! i = Some (HcRun k) → flCall f i = Some k;
  fi_starting : ∀ k j, starting j (flConn f k) → ∃ i, j = slot i ∧ ssThr (flServer f) !! i = Some (HcRun k);
  fi_started : ∀ k, lfStarted (sysConn (flConn f k)) = true → fdone f k ∨ ∃ i, ssThr (flServer f) !! i = Some (HcRun k);
  fi_refused : ∀ i k, ssThr (flServer f) !! i = Some (HcDisconnect k false) → flCall f i = Some k ∧ closes (slot i) (flConn f k);
  fi_after : ∀ k, k ∈ ssThr (flServer f) ≫= after_run → fdone f k;
  fi_admitted : ∀ k, k ∈ srAdmitted (ssServer (flServer f)) → fdone f k ∨ k ∈ ssThr (flServer f) ≫= conn_hand;
  fi_disconnects : ∀ k, k ∈ srDisconnects (ssServer (flServer f)) → fdone f k;
}.

(** What a step does to one connection. *)
Inductive conn_move (f f' : Fleet) (k : nat) : Prop :=
  | cm_same : flConn f' k = flConn f k → conn_move f f' k
  | cm_step l :
      sys_step (connConfig conf) l (flConn f k) = Some (flConn f' k) →
      (∀ j x, l = LCall j (OpStart x) → ∃ i, j = slot i ∧ ssThr (flServer f') !! i = Some (HcRun k)) → conn_move f f' k.

Lemma start_action c pc s k x :
  conn_action conf c pc s = Some (k, ActCall (OpStart x)) → pc = HcWatch k.
Proof. destruct pc; cbn; repeat case_match; naive_solver. Qed.

Lemma run_inv f i c pc sv :
  ssThr (flServer f) !! i = Some pc → server_step conf (SlRun i c) (flServer f) = Some sv →
  ∃ s' pc' new, pc_step conf c pc (ssServer (flServer f)) = Some (s', pc', new) ∧
    sv = mkSSys s' (<[i := pc']> (ssThr (flServer f)) ++ new) ∧ ssThr sv !! i = Some pc'.
Proof.
  intros Hpc Hs. cbn in Hs. rewrite Hpc in Hs. cbn in Hs. apply bind_Some in Hs as ([[s' pc'] new] & Hp & [= <-]).
  exists s', pc', new. do 2 (split; [done|]). cbn. rewrite lookup_app_l.
  - apply list_lookup_insert_eq. by eapply lookup_lt_Some.
  - rewrite length_insert. by eapply lookup_lt_Some.
Qed.

Lemma fleet_conn_move f f' k : fleet_case conf f f' → conn_move f f' k.
Proof.
  intros [i c pc sv _ Hpc _ Hs Ha|l sv _ _ ->|k' l s Hu Hs ->]; [|by apply cm_same|].
  - apply act_on_cases in Ha as [Hsv [(Hc & _)|(k' & s & act & Ha & Hc & Hact)]]; [apply cm_same; by rewrite Hc|].
    destruct (decide (k = k')) as [<-|]; [|apply cm_same; by rewrite Hc, upd_other].
    destruct act as [op|].
    + destruct Hact as [Hact _]. eapply cm_step; [rewrite Hc, upd_same; exact Hact|]. intros j x [= <- ->].
      apply start_action in Ha as ->. exists i. split; [done|]. rewrite Hsv. cbn [flServer].
      destruct (run_inv _ _ _ _ _ Hpc Hs) as (s' & pc' & new & Hp & _ & ->). by injection Hp as _ <- _.
    + destruct Hact as [[->|Hact] _]; [apply cm_same; by rewrite Hc, upd_same|].
      eapply cm_step; [rewrite Hc, upd_same; exact Hact|done].
  - destruct (decide (k = k')) as [->|]; [|apply cm_same; cbn; by rewrite upd_other].
    eapply cm_step; [cbn; rewrite upd_same; exact Hs|]. by intros j x ->.
Qed.

Lemma fleet_done f f' k : (∀ k, reachable (connConfig conf) (flConn f k)) → fleet_case conf f f' → fdone f k → fdone f' k.
Proof.
  intros Hr Hf. unfold fdone. destruct (fleet_conn_move _ _ k Hf) as [->|l Hs _]; [done|].
  apply (le_done _ _ (sys_step_le _ _ _ _ (sys_inv_reach _ _ (Hr k)) Hs)).
Qed.

Lemma fleet_closes f f' k j :
  (∀ k, reachable (connConfig conf) (flConn f k)) → fleet_case conf f f' → closes j (flConn f k) → closes j (flConn f' k).
Proof.
  intros Hr Hf. destruct (fleet_conn_move _ _ k Hf) as [->|l Hs _]; [done|]. by eapply closes_step.
Qed.

(** A goroutine in a call or before a Done stays there until it is over. *)
Lemma run_kept f f' i k :
  fleet_inv f → fleet_case conf f f' → ssThr (flServer f) !! i = Some (HcRun k) →
  ssThr (flServer f') !! i = Some (HcRun k) ∨ (fdone f k ∧ ¬ starting (slot i) (flConn f k)).
Proof.
  intros Hi Hf Hpc. destruct Hf as [i' c pc sv Hin Hpc' Haw Hs Ha|l sv Hl Hs ->|k' l s _ _ ->]; [..|by left].
  - apply act_on_cases in Ha as [-> _]. cbn [flServer]. destruct (run_inv _ _ _ _ _ Hpc' Hs) as (s' & pc' & new & _ & -> & Hlk).
    destruct (decide (i' = i)) as [->|Hne].
    + right. rewrite Hpc in Hpc'. injection Hpc' as <-. split; [cbn in Haw; unfold fdone; by destruct (lfDone _)|].
      unfold in_call in Hin. rewrite (fi_run _ Hi _ _ Hpc) in Hin. apply negb_false_iff, bool_decide_eq_true in Hin.
      unfold starting. rewrite Hin. by intros ?%Exists_nil.
    + left. cbn. rewrite lookup_app_l by (rewrite length_insert; by eapply lookup_lt_Some). by rewrite list_lookup_insert_ne.
  - left. cbn. destruct l as [|[]|]; [by destruct (Hl i0 c)|..]; injection Hs as <-; cbn; by apply lookup_app_l_Some.
Qed.

Lemma fleet_starting f f' k j :
  fleet_inv f → fleet_case conf f f' → starting j (flConn f' k) →
  ∃ i, j = slot i ∧ ssThr (flServer f') !! i = Some (HcRun k).
Proof.
  intros Hi Hf Hst. assert (starting j (flConn f k) → ∃ i, j = slot i ∧ ssThr (flServer f') !! i = Some (HcRun k)) as Hold.
  { intros Hs. destruct (fi_starting _ Hi _ _ Hs) as (i & -> & Hpc). exists i. split; [done|].
    by destruct (run_kept _ _ _ _ Hi Hf Hpc) as [|[_ []]]. }
  destruct (fleet_conn_move _ _ k Hf) as [He|l Hs Hl]; [rewrite He in Hst; auto|].
  apply starting_step in Hs as [Hs _]. destruct (Hs j Hst) as [|[x ->]]; [auto|by eapply Hl].
Qed.

Lemma fleet_started f f' k :
  (∀ k, reachable (connConfig conf) (flConn f k)) → fleet_inv f → fleet_case conf f f' →
  lfStarted (sysConn (flConn f' k)) = true → fdone f' k ∨ ∃ i, ssThr (flServer f') !! i = Some (HcRun k).
Proof.
  intros Hr Hi Hf Hst.
  assert (∀ i, ssThr (flServer f) !! i = Some (HcRun k) → fdone f' k ∨ ∃ i, ssThr (flServer f') !! i = Some (HcRun k)) as Hrun.
  { intros i Hpc. destruct (run_kept _ _ _ _ Hi Hf Hpc) as [|[Hd _]]; [right; by exists i|left; by eapply fleet_done]. }
  assert (lfStarted (sysConn (flConn f k)) = true → fdone f' k ∨ ∃ i, ssThr (flServer f') !! i = Some (HcRun k)) as Hold.
  { intros [Hd|[i Hpc]]%(fi_started _ Hi); [left; by eapply fleet_done|by eapply Hrun]. }
  destruct (fleet_conn_move _ _ k Hf) as [He|l Hs Hl]; [rewrite He in Hst; auto|].
  apply starting_step in Hs as [_ Hs]. destruct (Hs Hst) as [|[j Hj]]; [auto|].
  destruct (fi_starting _ Hi _ _ Hj) as (i & -> & Hpc). by eapply Hrun.
Qed.

(** A refused connection is done when its Close returns. *)
Lemma refused_done f i k :
  server_reachable conf (flServer f) → (∀ k, reachable (connConfig conf) (flConn f k)) → fleet_inv f →
  ssThr (flServer f) !! i = Some (HcDisconnect k false) → in_call f i = false → fdone f k.
Proof.
  intros Hsv Hr Hi Hpc Hin. destruct (fi_refused _ Hi _ _ Hpc) as [Hc Hcl]. unfold in_call in Hin. rewrite Hc in Hin.
  apply negb_false_iff, bool_decide_eq_true in Hin. destruct Hcl as [He|Hcl]; [rewrite Hin in He; by apply Exists_nil in He|].
  destruct (lfStarted (sysConn (flConn f k))) eqn:Hs; [|by eapply closed_unstarted_done].
  destruct (fi_started _ Hi _ Hs) as [|[i' Hpc']]; [done|]. exfalso.
  pose proof (so_own _ _ (si_sockets _ _ _ (server_inv_reach _ _ Hsv))) as Hnd.
  assert (i = i') as ->; [|congruence]. eapply (own_once _ _ _ _ _ k); [exact Hnd|done|done|by left|by left].
Qed.

(** Where a goroutine of the new state comes from. *)
Inductive came_from (f f' : Fleet) (j : nat) (x : Pc) : Prop :=
  | cf_kept : ssThr (flServer f) !! j = Some x → flCall f' j = flCall f j → came_from f f' j x
  | cf_moved c pc s' new :
      ssThr (flServer f) !! j = Some pc → in_call f j = false → awaits f pc = false →
      pc_step conf c pc (ssServer (flServer f)) = Some (s', x, new) →
      act_on conf j (conn_action conf c pc (ssServer (flServer f))) (mkFleet (flServer f') (flConn f) (flCall f)) = Some f' →
      came_from f f' j x.

Lemma fleet_lookup f f' j x :
  fleet_case conf f f' → ssThr (flServer f') !! j = Some x → conn_hand x ++ after_run x ≠ [] → came_from f f' j x.
Proof.
  intros [i c pc sv Hin Hpc Haw Hs Ha|l sv Hl Hs ->|k' l s _ _ ->] Hx Hne; [..|by apply cf_kept].
  - destruct (act_on_cases _ _ _ _ _ Ha) as [Hsv Hcall]. cbn in Hsv, Hcall. rewrite Hsv in Hx.
    destruct (run_inv _ _ _ _ _ Hpc Hs) as (s' & pc' & new & Hp & -> & _).
    apply thr_lookup in Hx as [[-> ->]|[[Hj Hx]|Hx]].
    + eapply cf_moved; [done..|]. by rewrite Hsv.
    + apply cf_kept; [done|]. destruct Hcall as [(_ & -> & _)|(k & s & [op|] & _ & _ & _ & ->)]; [done|by apply upd_other|done].
    + pose proof (we_new _ _ _ _ _ _ (pc_step_worker _ _ _ _ _ _ _ Hp)) as Hn. rewrite Forall_forall in Hn.
      by destruct (Hn _ Hx) as [H1 H2]; rewrite H1, H2 in Hne.
  - apply cf_kept; [|done]. cbn in Hx. destruct l as [|[]|]; [by destruct (Hl i c)|..]; injection Hs as <-; cbn in Hx;
      apply lookup_app_Some in Hx as [|[_ [_ <-]%list_lookup_singleton_Some]]; done.
Qed.

Lemma call_closes j s s' : sys_step (connConfig conf) (LCall j OpClose) s = Some s' → closes j s'.
Proof.
  cbn. repeat case_bool_decide; try done. intros [= <-]. left. cbn. rewrite upd_same. by apply Exists_cons_hd.
Qed.

Lemma moved_run f f' j k : came_from f f' j (HcRun k) → fleet_inv f → flCall f' j = Some k.
Proof.
  intros [Hx ->|c pc s' new _ _ _ Hp Ha] Hi; [by apply Hi|].
  destruct (pc_step_worker _ _ _ _ _ _ _ Hp) as [Hw _ _ _ _ _ _]. rewrite (Hw k eq_refl) in Ha.
  apply act_on_cases in Ha as [_ [(_ & _ & ?)|(k' & s & act & [= <- <-] & _ & _ & ->)]]; [done|]. apply upd_same.
Qed.

Lemma moved_refused f f' j k :
  (∀ k, reachable (connConfig conf) (flConn f k)) → fleet_case conf f f' → came_from f f' j (HcDisconnect k false) → fleet_inv f →
  flCall f' j = Some k ∧ closes (slot j) (flConn f' k).
Proof.
  intros Hr Hf [Hx ->|c pc s' new _ _ _ Hp Ha] Hi.
  { destruct (fi_refused _ Hi _ _ Hx) as [? ?]. split; [done|]. by eapply fleet_closes. }
  destruct (pc_step_worker _ _ _ _ _ _ _ Hp) as [_ Hw _ _ _ _ _]. destruct (Hw k eq_refl) as [-> Hsh]. cbn in Ha. rewrite Hsh in Ha.
  apply act_on_cases in Ha as [_ [(_ & _ & ?)|(k' & s & act & [= <- <-] & -> & Hc & ->)]]; [done|].
  rewrite !upd_same. split; [done|]. by eapply call_closes.
Qed.

Lemma moved_after f f' j x k :
  (∀ k, reachable (connConfig conf) (flConn f k)) → fleet_case conf f f' → came_from f f' j x → fleet_inv f →
  k ∈ after_run x → fdone f' k.
Proof.
  intros Hr Hf Hcf Hi Hk. eapply fleet_done; [done|done|].
  assert (∀ pc, ssThr (flServer f) !! j = Some pc → k ∈ after_run pc → fdone f k) as Hold.
  { intros pc Hpc Ha. apply (fi_after _ Hi). apply list_elem_of_bind. exists pc. split; [done|]. by eapply list_elem_of_lookup_2. }
  destruct Hcf as [Hx _|c pc s' new Hpc _ Haw Hp _]; [by eapply Hold|].
  destruct (we_after _ _ _ _ _ _ (pc_step_worker _ _ _ _ _ _ _ Hp) k Hk) as [Ha| ->]; [by eapply Hold|].
  cbn in Haw. unfold fdone. by destruct (lfDone _).
Qed.

(** A worker that lets its connection go has seen it done. *)
Lemma released_done f i pc k :
  server_reachable conf (flServer f) → (∀ k, reachable (connConfig conf) (flConn f k)) → fleet_inv f →
  ssThr (flServer f) !! i = Some pc → in_call f i = false → awaits f pc = false →
  pc = HcRun k ∨ (∃ handed, pc = HcDisconnect k handed) → fdone f k.
Proof.
  intros Hsv Hr Hi Hpc Hin Haw [-> |[[] ->]]; [cbn in Haw; unfold fdone; by destruct (lfDone _)| |by eapply refused_done].
  apply (fi_after _ Hi). apply list_elem_of_bind. exists (HcDisconnect k true). split; [by left|]. by eapply list_elem_of_lookup_2.
Qed.

Lemma fleet_admitted f f' k :
  server_reachable conf (flServer f) → (∀ k, reachable (connConfig conf) (flConn f k)) → fleet_inv f → fleet_case conf f f' →
  k ∈ srAdmitted (ssServer (flServer f')) → fdone f' k ∨ k ∈ ssThr (flServer f') ≫= conn_hand.
Proof.
  intros Hsv Hr Hi Hf Hk. pose proof (λ k, fleet_done f f' k Hr Hf) as Hd.
  destruct Hf as [i c pc sv Hin Hpc Haw Hs Ha|l sv Hl Hs ->|k' l s _ _ ->].
  - destruct (act_on_cases _ _ _ _ _ Ha) as [Hsv' _]. cbn in Hsv'. rewrite Hsv' in Hk |- *.
    destruct (run_inv _ _ _ _ _ Hpc Hs) as (s' & pc' & new & Hp & -> & Hlk). cbn in Hk |- *. cbn in Hlk.
    destruct (pc_step_worker _ _ _ _ _ _ _ Hp) as [_ _ _ Hadm Hhand _ _].
    assert (k ∈ conn_hand pc' → k ∈ (<[i := pc']> (ssThr (flServer f)) ++ new) ≫= conn_hand) as Hnew.
    { intros ?. apply list_elem_of_bind. exists pc'. split; [done|]. by eapply list_elem_of_lookup_2. }
    destruct (Hadm _ Hk) as [Hold|]; [|by auto].
    destruct (fi_admitted _ Hi _ Hold) as [|(x & Hkx & [j Hx]%list_elem_of_lookup)%list_elem_of_bind]; [by auto|].
    destruct (decide (j = i)) as [->|Hne].
    + assert (x = pc) as -> by congruence. destruct (Hhand _ Hkx) as [|Hrel]; [by auto|]. left. apply Hd.
      eapply released_done; [done..|]. destruct Hrel as [|]; [by left|right; by eexists].
    + right. apply list_elem_of_bind. exists x. split; [done|]. eapply list_elem_of_lookup_2.
      rewrite lookup_app_l by (rewrite length_insert; by eapply lookup_lt_Some). by rewrite list_lookup_insert_ne.
  - destruct l as [|[]|]; [by destruct (Hl i c)|..]; injection Hs as <-; cbn in Hk |- *;
      rewrite bind_app, elem_of_app; (destruct (fi_admitted _ Hi _ Hk); [left; by apply Hd|by right; left]).
  - destruct (fi_admitted _ Hi _ Hk); [left; by apply Hd|by right].
Qed.

Lemma fleet_disconnects f f' k :
  server_reachable conf (flServer f) → (∀ k, reachable (connConfig conf) (flConn f k)) → fleet_inv f → fleet_case conf f f' →
  k ∈ srDisconnects (ssServer (flServer f')) → fdone f' k.
Proof.
  intros Hsv Hr Hi Hf Hk. apply (fleet_done f f' k Hr Hf).
  destruct Hf as [i c pc sv Hin Hpc Haw Hs Ha|l sv Hl Hs ->|k' l s _ _ ->].
  - destruct (act_on_cases _ _ _ _ _ Ha) as [Hsv' _]. cbn in Hsv'. rewrite Hsv' in Hk.
    destruct (run_inv _ _ _ _ _ Hpc Hs) as (s' & pc' & new & Hp & -> & _).
    destruct (we_disconnects _ _ _ _ _ _ (pc_step_worker _ _ _ _ _ _ _ Hp) _ Hk) as [|Hrel]; [by apply (fi_disconnects _ Hi)|].
    eapply released_done; [done..|by right].
  - apply (fi_disconnects _ Hi). destruct l as [|[]|]; [by destruct (Hl i c)|..]; by injection Hs as <-.
  - by apply (fi_disconnects _ Hi).
Qed.

Lemma fleet_inv_step f f' :
  server_reachable conf (flServer f) → (∀ k, reachable (connConfig conf) (flConn f k)) → fleet_case conf f f' →
  fleet_inv f → fleet_inv f'.
Proof.
  intros Hsv Hr Hf Hi. split.
  - intros i k Hx. eapply moved_run; [|done]. by apply fleet_lookup.
  - intros k j. by apply fleet_starting with f.
  - intros k. by apply fleet_started with f.
  - intros i k Hx. apply moved_refused with f; try done. by apply fleet_lookup.
  - intros k (x & Hk & [j Hx]%list_elem_of_lookup)%list_elem_of_bind. eapply moved_after; [done|done| |done|done].
    apply fleet_lookup; [done|done|]. intros [_ He]%app_nil. rewrite He in Hk. by apply not_elem_of_nil in Hk.
  - intros k. by apply fleet_admitted with f.
  - intros k. by apply fleet_disconnects with f.
Qed.

Lemma fleet_inv_reach f : fleet_reachable conf f → fleet_inv f.
Proof.
  apply (rtc_ind_r fleet_inv).
  - split; cbn; try done; try (by intros ? ?%not_elem_of_nil).
    intros k j Hst%Exists_nil. done.
  - intros f1 f2 Hr [l Hl%fleet_step_cases] Hi. destruct (fleet_parts _ _ Hr) as [Hsv Hcn]. by eapply fleet_inv_step.
Qed.
End fleet_invariant.

Section fleet_spec.
Context (conf : ServerConfig).

Lemma fleet_run_server f f' : rtc (fleet_any_step conf) f f' → rtc (server_any_step conf) (flServer f) (flServer f').
Proof.
  induction 1 as [|f1 f2 f3 [l Hl%fleet_step_cases] _ IH]; [done|].
  destruct (fleet_server_step _ _ _ Hl) as [<-|Hs]; [done|by eapply rtc_l].
Qed.

(** Without workers every admitted connection is done. *)
Lemma fleet_idle f k :
  fleet_reachable conf f → srWg (ssServer (flServer f)) = 0%nat → k ∈ srAdmitted (ssServer (flServer f)) → drained (flConn f k).
Proof.
  intros Hr Hwg Hk. destruct (fleet_parts _ _ Hr) as [Hsv Hcn]. apply (done_drained _ _ (Hcn k)).
  destruct (fi_admitted _ (fleet_inv_reach _ _ Hr) _ Hk) as [|(x & Hkx & Hx)%list_elem_of_bind]; [done|]. exfalso.
  destruct (server_inv_reach _ _ Hsv) as [[_ _ Hw _ _] _ _ _]. rewrite Hwg in Hw. symmetry in Hw.
  destruct (no_workers _ Hw) as (_ & _ & _ & Hhook & _). apply (not_elem_of_nil k). rewrite <- Hhook.
  apply list_elem_of_bind. exists x. split; [|done]. destruct x; try (by apply not_elem_of_nil in Hkx); try done.
  destruct handed; [by apply not_elem_of_nil in Hkx|done].
Qed.

(** Close passes its wait. *)
Lemma wait_returns f i c r f' :
  ssThr (flServer f) !! i = Some (ClWait r) → fleet_step conf (FlRun i c) f = Some f' →
  ssThr (flServer f') !! i = Some (SReturn r) ∧ ssServer (flServer f') = ssServer (flServer f) ∧
  srWg (ssServer (flServer f)) = 0%nat.
Proof.
  intros Hpc Hs. cbn [fleet_step] in Hs. destruct (in_call f i); [done|].
  apply bind_Some in Hs as (pc & Hpc' & Hs). rewrite Hpc in Hpc'. injection Hpc' as <-. cbn [awaits] in Hs.
  apply bind_Some in Hs as (sv & Hs & [= <-]). destruct (run_inv _ _ _ _ _ _ Hpc Hs) as (s' & pc' & new & Hp & -> & Hlk).
  cbn in Hp. destruct (srWg (ssServer (flServer f))); [|done]. injection Hp as <- <- <-. done.
Qed.

(** C14: A server composed with the runtimes of its connections, in every interleaving: each
    part runs as its own model; OnDisconnect is called only for connections that are done; and
    from the moment Close returns every connection ever admitted is done, its goroutines have
    ended, its queues are empty, each message accepted on it has its result, and OnDisconnect,
    when set, has run exactly once for each. *)
Theorem fleet_close_drains f :
  fleet_reachable conf f →
  server_reachable conf (flServer f) ∧ (∀ k, reachable (connConfig conf) (flConn f k)) ∧
  (∀ k, k ∈ srDisconnects (ssServer (flServer f)) → drained (flConn f k)) ∧
  (∀ i c r f', ssThr (flServer f) !! i = Some (ClWait r) → fleet_step conf (FlRun i c) f = Some f' →
    ssThr (flServer f') !! i = Some (SReturn r) ∧
    ∀ f'', rtc (fleet_any_step conf) f' f'' →
      NoDup (srAdmitted (ssServer (flServer f''))) ∧ (∀ k, k ∈ srAdmitted (ssServer (flServer f'')) → drained (flConn f'' k)) ∧
      (svOnDisconnect conf = true → srDisconnects (ssServer (flServer f'')) ≡ₚ srAdmitted (ssServer (flServer f'')))).
Proof.
  intros Hr. destruct (fleet_parts _ _ Hr) as [Hsv Hcn]. do 2 (split; [done|]). split.
  { intros k Hk. apply (done_drained _ _ (Hcn k)). by apply (fi_disconnects _ (fleet_inv_reach _ _ Hr)). }
  intros i c r f' Hpc Hs. 
  assert (fleet_reachable conf f') as Hr' by (eapply rtc_r; [exact Hr|by eexists]).
  destruct (wait_returns _ _ _ _ _ Hpc Hs) as (Hret & Heq & Hwg). split; [done|]. intros f'' Hrun.
  assert (fleet_reachable conf f'') as Hr'' by (unfold fleet_reachable in *; by etrans).
  destruct (server_inv_reach _ _ Hsv) as [_ _ _ [Hcl _]]. rewrite Forall_forall in Hcl.
  destruct (Hcl (ClWait r)) as [Hsh _]; [by eapply list_elem_of_lookup_2|].
  rewrite <- Heq in Hsh, Hwg. destruct (server_shrinks _ _ _ (fleet_run_server _ _ Hrun) Hsh) as (_ & _ & _ & Hle).
  assert (srWg (ssServer (flServer f'')) = 0%nat) as Hz by lia. destruct (fleet_parts _ _ Hr'') as [Hsv'' _].
  split; [apply (hk_nodup _ _ _ (si_hooks _ _ _ (server_inv_reach _ _ Hsv'')))|]. split; [intros k; by apply fleet_idle|].
  intros Ho. by apply (on_disconnect_once _ _ Hsv'' Ho).
Qed.
End fleet_spec.

(** ** A run *)

Lemma fleet_run_reachable conf ls f : fleet_run conf ls fleet_init = Some f → fleet_reachable conf f.
Proof.
  assert (∀ f0, fleet_run conf ls f0 = Some f → rtc (fleet_any_step conf) f0 f) as H; [|apply H].
  induction ls as [|l ls IH]; intros f0; cbn; [by intros [= ->]|].
  intros (f1 & Hl & Hrun)%bind_Some. eapply rtc_l; [by exists l|by apply IH].
Qed.

Definition srv_labels (ls : list SLabel) : list FLabel :=
  (λ l, match l with SlRun i c => FlRun i c | l => FlCall l end) <$> ls.
Definition conn_labels (k : nat) (ls : list Label) : list FLabel := FlConn k <$> ls.

(** Connection 0 is served and sends a message; Close is called, waits for the message, and
    is left at its wait with both workers gone. *)
Definition ex_fleet : list FLabel :=
  srv_labels ex_serving ++ conn_labels 0 (go_on (slot 1) 3 ++ ex_send) ++
  srv_labels (SlClose false :: srv_go 4 1 ++ [SlRun 4 (ScResult None)] ++ srv_go 4 3) ++
  conn_labels 0 (go_on (slot 4) 9 ++ go_on writer 1 ++ [LRun writer (CErr None)] ++ go_on writer 3 ++ ex_finish ++ go_on (slot 4) 6) ++
  srv_labels (srv_go 4 1 ++ srv_go 1 8 ++ [SlRun 3 (ScResult (Some ErrTransportClosed))] ++ srv_go 3 4).

Lemma fleet_close_drains_witness :
  match fleet_run ex_server ex_fleet fleet_init with
  | Some f => ∃ f', fleet_step ex_server (FlRun 4 ScGo) f = Some f' ∧ ssThr (flServer f') !! 4%nat = Some (SReturn None) ∧
      srAdmitted (ssServer (flServer f')) = [0%nat] ∧ drained (flConn f' 0) ∧
      ghFinished (sysConn (flConn f' 0)) = [(mkQueuedMessage ex_item 0 (Some 0%nat), None)]
  | None => False
  end.
Proof.
  assert ((λ f, (ssThr (flServer f) !! 4%nat,
      (λ f', (srAdmitted (ssServer (flServer f')), ghFinished (sysConn (flConn f' 0)))) <$> fleet_step ex_server (FlRun 4 ScGo) f)) <$>
    fleet_run ex_server ex_fleet fleet_init =
    Some (Some (ClWait None), Some ([0%nat], [(mkQueuedMessage ex_item 0 (Some 0%nat), None)]))) as H by reflexivity.
  destruct (fleet_run ex_server ex_fleet fleet_init) as [f|] eqn:Hrun; [|discriminate H].
  apply Some_inj, pair_equal_spec in H as [Hpc H].
  destruct (fleet_step ex_server (FlRun 4 ScGo) f) as [f'|] eqn:Hs; [|discriminate H]. injection H as Ha Hg.
  destruct (fleet_close_drains ex_server f (fleet_run_reachable _ _ _ Hrun)) as (_ & _ & _ & Hw).
  destruct (Hw _ _ _ _ Hpc Hs) as [Hret Hd]. exists f'. split; [reflexivity|]. split; [exact Hret|]. split; [exact Ha|].
  split; [|exact Hg]. apply (Hd f' (rtc_refl _ _)). rewrite Ha. apply list_elem_of_In. cbn. tauto.
Defined.
