(* ===== verification/FleetLive.v ===== *)
(** * Closing a server with its connections ends

    Liveness of the composition of Fleet.v.  ServerLive.v takes the calls of the
    server on its connections as single steps and the end of a connection as a
    choice; here the calls have to return and the connections to be done, with
    peers that send nothing.  [close_returns] brings every call to its end; the
    watcher of a connection in service calls its Close, so that the connection can
    be done and its worker goes on. *)

From stdpp Require Import gmap.
From S2P Require Import Prelude Wire Header Frame Tlv Utf8 Messages Replay Sha256 Crypto Rekey Session.
From S2P Require Import SessionSend SessionReceive SessionPair Transport ConnectionIO Handshake Config.
From S2P Require Import Connection ConnectionSteps ConnectionSafety ConnectionFlow ConnectionSpec ConnectionLive ConnectionCalls.
From S2P Require Import Server ServerSpec ServerLive Fleet.

Local Open Scope nat_scope.

Lemma slot_joiner i : joiner < slot i.
Proof. unfold joiner, slot. lia. Qed.

Lemma slot_even i : Nat.odd (slot i) = false.
Proof. unfold slot. rewrite Nat.odd_add, Nat.odd_mul. done. Qed.

Section live.
Context (conf : ServerConfig).

(** ** The calls of the server *)

(** A goroutine is in the call it made last, and in no other. *)
Definition slots_inv (f : Fleet) : Prop :=
  ∀ i k, (sysThr (flConn f k) (slot i) ≠ [] → flCall f i = Some k) ∧
         Forall (λ fr, scall fr = true) (sysThr (flConn f k) (slot i)).

Lemma slots_conn f f' k s l :
  (∀ k, reachable (connConfig conf) (flConn f k)) → sys_step (connConfig conf) l (flConn f k) = Some s →
  (∀ i op, l ≠ LCall (slot i) op) → flConn f' = upd k s (flConn f) → flCall f' = flCall f → slots_inv f → slots_inv f'.
Proof.
  intros Hr Hs Hl Hc Hcall Hi i k'. rewrite Hc, Hcall. destruct (Hi i k') as [H1 H2].
  destruct (decide (k' = k)) as [->|]; [rewrite upd_same|by rewrite upd_other].
  destruct (thread_own_step _ _ _ _ (slot i) (Hr k) (slot_joiner i) Hs) as [H3 H4]; [by intros op; apply Hl|]. auto.
Qed.

Lemma action_scall c pc s k op : conn_action conf c pc s = Some (k, ActCall op) → scall (op_frame op) = true.
Proof. destruct pc; cbn; repeat case_match; intros [=]; subst; done. Qed.

Lemma slots_inv_step f f' :
  (∀ k, reachable (connConfig conf) (flConn f k)) → fleet_case conf f f' → slots_inv f → slots_inv f'.
Proof.
  intros Hr [i c pc sv Hin Hpc _ Hs Ha|l sv _ _ ->|k l s Hu Hs ->] Hi; [|done|].
  - apply act_on_cases in Ha as [_ [(Hc & Hcall & _)|(k & s & [op|] & Ha & Hc & Hact)]]; [intros i' k'; rewrite Hc, Hcall; apply Hi|..].
    + destruct Hact as [Hact Hcall]. cbn [flConn flCall] in *. intros i' k'. rewrite Hc, Hcall. destruct (Hi i' k') as [H1 H2].
      destruct (decide (i' = i)) as [->|Hne].
      * rewrite upd_same. destruct (decide (k' = k)) as [->|]; [rewrite upd_same|rewrite upd_other by done]; split; try done.
        -- cbn in Hact. repeat case_bool_decide; try discriminate. injection Hact as <-. cbn. rewrite upd_same.
           apply Forall_singleton. by eapply action_scall.
        -- intros Hx. unfold in_call in Hin. rewrite (H1 Hx) in Hin. by rewrite bool_decide_eq_false_2 in Hin.
      * rewrite (upd_other _ i') by done. destruct (decide (k' = k)) as [->|]; [rewrite upd_same|by rewrite upd_other].
        destruct (thread_own_step _ _ _ _ (slot i') (Hr k) (slot_joiner i') Hact) as [H3 H4]; [|by auto].
        intros op' [= Heq _]. lia.
    + destruct Hact as [[->|Hact] Hcall]; cbn [flConn flCall] in *.
      * intros i' k'. rewrite Hc, Hcall. destruct (decide (k' = k)) as [->|]; [rewrite upd_same|rewrite upd_other by done]; apply Hi.
      * by eapply slots_conn.
  - eapply slots_conn; [done|done| |done|done|done]. intros i op ->. destruct op; cbn [user_label] in Hu; by rewrite ?slot_even in Hu.
Qed.

Lemma slots_reach f : fleet_reachable conf f → slots_inv f.
Proof.
  apply (rtc_ind_r slots_inv); [intros i k; by split|]. intros f1 f2 Hr [l Hl%fleet_step_cases] Hi.
  destruct (fleet_parts _ _ Hr) as [_ Hcn]. by eapply slots_inv_step.
Qed.

Lemma slot_free f i k : slots_inv f → in_call f i = false → sysThr (flConn f k) (slot i) = [].
Proof.
  intros Hi Hin. destruct (decide (sysThr (flConn f k) (slot i) = [])) as [|Hne]; [done|]. exfalso.
  destruct (Hi i k) as [H1 _]. unfold in_call in Hin. rewrite (H1 Hne) in Hin. by rewrite bool_decide_eq_false_2 in Hin.
Qed.

(** ** The watchers *)

(** A connection in service has a watcher, or was told to close, or is done. *)
Definition watched (f : Fleet) (k : nat) : Prop :=
  fdone f k ∨ WcSelect k ∈ ssThr (flServer f) ∨ WcClose k ∈ ssThr (flServer f) ∨ ∃ j, closes (slot j) (flConn f k).

Definition watch_inv (f : Fleet) : Prop :=
  (∀ i k, ssThr (flServer f) !! i = Some (HcRun k) → watched f k) ∧ ∀ k, k ∈ srCtxDone (ssServer (flServer f)) → fdone f k.

Lemma pc_step_ctx c pc s s' pc' new :
  pc_step conf c pc s = Some (s', pc', new) → ∀ k, k ∈ srCtxDone s' → k ∈ srCtxDone s ∨ pc = HcCancel k.
Proof. intros H. srv_cases H; cbn; intros k'; set_solver. Qed.

Lemma pc_step_watch c pc s s' pc' new :
  pc_step conf c pc s = Some (s', pc', new) →
  (∀ k, pc = HcWatch k → WcSelect k ∈ new) ∧
  (∀ k, pc = WcSelect k → pc' = WcClose k ∨ k ∈ srCtxDone s) ∧
  (∀ k, pc = WcClose k → conn_action conf c pc s = Some (k, ActCall OpClose)).
Proof.
  intros H. srv_cases H; cbn; split_and!; intros k'; try (intros [=]; subst; naive_solver).
  - intros [= ->]. by left.
  - intros [= ->]. right. by apply bool_decide_eq_true in Heqb.
Qed.

(** A goroutine that does not step stays where it is. *)
Lemma thread_kept f f' j x :
  fleet_case conf f f' → ssThr (flServer f) !! j = Some x →
  ssThr (flServer f') !! j = Some x ∨
  ∃ c s' pc' new, pc_step conf c x (ssServer (flServer f)) = Some (s', pc', new) ∧ ssThr (flServer f') !! j = Some pc' ∧
    ssThr (flServer f') = <[j := pc']> (ssThr (flServer f)) ++ new ∧
    act_on conf j (conn_action conf c x (ssServer (flServer f))) (mkFleet (flServer f') (flConn f) (flCall f)) = Some f'.
Proof.
  intros [i c pc sv Hin Hpc Haw Hs Ha|l sv Hl Hs ->|k' l s _ _ ->] Hx; [..|by left].
  - destruct (act_on_cases _ _ _ _ _ Ha) as [Hsv _]. cbn in Hsv. destruct (run_inv _ _ _ _ _ _ Hpc Hs) as (s' & pc' & new & Hp & -> & Hlk).
    destruct (decide (j = i)) as [->|Hne].
    + right. rewrite Hpc in Hx. injection Hx as ->. exists c, s', pc', new. split; [done|]. by rewrite Hsv.
    + left. rewrite Hsv. cbn. rewrite lookup_app_l by (rewrite length_insert; by eapply lookup_lt_Some). by rewrite list_lookup_insert_ne.
  - left. cbn. destruct l as [|[]|]; [by destruct (Hl i c)|..]; injection Hs as <-; cbn; by apply lookup_app_l_Some.
Qed.

Lemma watched_step f f' k :
  (∀ k, reachable (connConfig conf) (flConn f k)) → watch_inv f → fleet_case conf f f' → watched f k → watched f' k.
Proof.
  intros Hr [_ Hctx] Hf [Hd|[Hw|[Hw|[j Hj]]]].
  - left. by eapply fleet_done.
  - apply list_elem_of_lookup in Hw as [w Hw]. destruct (thread_kept _ _ _ _ Hf Hw) as [Hx|(c & s' & pc' & new & Hp & Hx & _ & _)].
    + right; left. by eapply list_elem_of_lookup_2.
    + destruct (pc_step_watch _ _ _ _ _ _ Hp) as (_ & Hws & _). destruct (Hws k eq_refl) as [->|Hk].
      * right; right; left. by eapply list_elem_of_lookup_2.
      * left. eapply fleet_done; [done|done|by apply Hctx].
  - apply list_elem_of_lookup in Hw as [w Hw]. destruct (thread_kept _ _ _ _ Hf Hw) as [Hx|(c & s' & pc' & new & Hp & Hx & _ & Ha)].
    + right; right; left. by eapply list_elem_of_lookup_2.
    + destruct (pc_step_watch _ _ _ _ _ _ Hp) as (_ & _ & Hwc). rewrite (Hwc k eq_refl) in Ha.
      apply act_on_cases in Ha as [_ [(_ & _ & ?)|(k' & s & act & [= <- <-] & Hc & Hs & _)]]; [done|].
      right; right; right. exists w. rewrite Hc, upd_same. by eapply call_closes.
  - right; right; right. exists j. by eapply fleet_closes.
Qed.

Lemma watch_inv_step f f' :
  (∀ k, reachable (connConfig conf) (flConn f k)) → fleet_inv f → fleet_case conf f f' → watch_inv f → watch_inv f'.
Proof.
  intros Hr Hi Hf Hw. split.
  - intros i k Hx. destruct (fleet_lookup _ _ _ _ _ Hf Hx) as [Hold _|c pc s' new Hpc _ _ Hp Ha]; [done|..].
    + eapply watched_step; [done|done|done|]. by eapply Hw.
    + destruct (pc_step_worker _ _ _ _ _ _ _ Hp) as [Hrun _ _ _ _ _ _]. pose proof (Hrun k eq_refl) as ->.
      destruct (thread_kept _ _ _ _ Hf Hpc) as [Hx'|(c' & s2 & pc' & new' & Hp' & _ & Heq & _)]; [congruence|].
      destruct (pc_step_watch _ _ _ _ _ _ Hp') as (Hws & _). right; left. rewrite Heq. apply elem_of_app. right. by apply Hws.
  - intros k Hk. pose proof (fleet_done _ _ _ k Hr Hf) as Hd.
    destruct Hf as [i c pc sv _ Hpc _ Hs Ha|l sv Hl Hs ->|k' l s _ _ ->].
    + destruct (act_on_cases _ _ _ _ _ Ha) as [Hsv _]. cbn in Hsv. rewrite Hsv in Hk.
      destruct (run_inv _ _ _ _ _ _ Hpc Hs) as (s' & pc' & new & Hp & -> & _).
      destruct (pc_step_ctx _ _ _ _ _ _ Hp _ Hk) as [Hold| ->]; [by apply Hd, Hw|].
      apply Hd, (fi_after _ Hi), list_elem_of_bind. exists (HcCancel k). split; [by left|]. by eapply list_elem_of_lookup_2.
    + apply Hd, Hw. destruct l as [|[]|]; [by destruct (Hl i c)|..]; by injection Hs as <-.
    + by apply Hd, Hw.
Qed.

Lemma watch_reach f : fleet_reachable conf f → watch_inv f.
Proof.
  apply (rtc_ind_r watch_inv); [split; [done|set_solver]|]. intros f1 f2 Hr [l Hl%fleet_step_cases] Hi.
  destruct (fleet_parts _ _ Hr) as [_ Hcn]. eapply watch_inv_step; [done|by eapply fleet_inv_reach|done|done].
Qed.

(** ** Runs *)

(** A step of a goroutine of the server, or of a goroutine or call of one of its connections with a silent peer. *)
Definition fleet_quiet (f f' : Fleet) : Prop :=
  (∃ i c, fleet_step conf (FlRun i c) f = Some f') ∨
  (∃ k s, quiet_step (connConfig conf) (flConn f k) s ∧ f' = mkFleet (flServer f) (upd k s (flConn f)) (flCall f)).

Lemma fleet_quiet_any f f' : fleet_quiet f f' → fleet_any_step conf f f'.
Proof.
  intros [(i & c & Hs)|(k & s & (i & c & _ & _ & _ & _ & Hs) & ->)]; [by exists (FlRun i c)|].
  exists (FlConn k (LRun i c)). cbn [fleet_step user_label]. by rewrite Hs.
Qed.

Lemma fleet_quiet_reach f f' : fleet_reachable conf f → rtc fleet_quiet f f' → fleet_reachable conf f'.
Proof.
  intros Hr Hq. assert (rtc (fleet_any_step conf) f f') by (by eapply rtc_subrel; [apply fleet_quiet_any|]).
  unfold fleet_reachable in *. by etrans.
Qed.

(** Only connections have moved. *)
Definition conns_only (f f' : Fleet) : Prop :=
  rtc fleet_quiet f f' ∧ flServer f' = flServer f ∧ flCall f' = flCall f ∧
  ∀ k, rtc (quiet_step (connConfig conf)) (flConn f k) (flConn f' k).

Lemma conns_only_trans f f1 f2 : conns_only f f1 → conns_only f1 f2 → conns_only f f2.
Proof.
  intros (H1 & H2 & H3 & H4) (G1 & G2 & G3 & G4). split; [by etrans|]. split; [by rewrite G2|]. split; [by rewrite G3|].
  intros k. by transitivity (flConn f1 k).
Qed.

Lemma lift_quiet k s s' :
  rtc (quiet_step (connConfig conf)) s s' → ∀ f, flConn f k = s → ∃ f', conns_only f f' ∧ flConn f' k = s'.
Proof.
  induction 1 as [s|s s1 s2 Hs _ IH]; intros f Hf; [exists f; by repeat split|]. subst s.
  destruct (IH (mkFleet (flServer f) (upd k s1 (flConn f)) (flCall f)) (upd_same _ _ _)) as (f' & (H1 & H2 & H3 & H4) & Hf').
  exists f'. split; [|done]. split; [eapply rtc_l; [right; by exists k, s1|done]|]. do 2 (split; [done|]).
  intros k'. specialize (H4 k'). cbn in H4. destruct (decide (k' = k)) as [->|]; [|by rewrite upd_other in H4].
  rewrite upd_same in H4. by eapply rtc_l.
Qed.

Lemma conns_done f f' k : (∀ k, reachable (connConfig conf) (flConn f k)) → conns_only f f' → fdone f k → fdone f' k.
Proof. intros Hr (_ & _ & _ & H). apply (le_done _ _ (quiet_le _ _ _ (Hr k) (H k))). Qed.

(** A goroutine returns from its call. *)
Lemma call_over f i : fleet_reachable conf f → ∃ f', conns_only f f' ∧ in_call f' i = false.
Proof.
  intros Hr. destruct (in_call f i) eqn:Hin; [|exists f; by repeat split]. unfold in_call in Hin.
  destruct (flCall f i) as [k|] eqn:Hk; [|done]. destruct (fleet_parts _ _ Hr) as [_ Hcn]. destruct (slots_reach _ Hr i k) as [_ Hsc].
  destruct (call_can_return _ _ _ (Hcn k) Hsc) as (s' & Hrun & _ & Hthr). destruct (lift_quiet k _ _ Hrun f eq_refl) as (f' & Hf & Hf').
  exists f'. split; [done|]. destruct Hf as (_ & _ & Hcall & _). unfold in_call. rewrite Hcall, Hk, Hf', Hthr. done.
Qed.

(** A connection that was told to close is done. *)
Lemma conn_over f k j : fleet_reachable conf f → closes (slot j) (flConn f k) → ∃ f', conns_only f f' ∧ fdone f' k.
Proof.
  intros Hr Hcl. destruct (fleet_parts _ _ Hr) as [_ Hcn]. destruct (slots_reach _ Hr j k) as [_ Hsc].
  destruct (call_can_return _ _ _ (Hcn k) Hsc) as (s1 & Hrun & _ & Hthr).
  assert (syClose (sysConn s1) = Finished) as Hf1.
  { apply (closes_run _ _ _ _ (Hcn k) (quiet_run _ _ _ Hrun)) in Hcl as [He|]; [|done]. rewrite Hthr in He. by apply Exists_nil in He. }
  destruct (closed_can_end _ _ (reachable_run _ _ _ (Hcn k) Hrun) Hf1) as (s2 & Hrun2 & Hd).
  assert (rtc (quiet_step (connConfig conf)) (flConn f k) s2) as Hall by (by transitivity s1).
  destruct (lift_quiet k _ s2 Hall f eq_refl) as (f' & Hf & Hf'). exists f'. split; [done|]. unfold fdone. by rewrite Hf'.
Qed.

(** A step of the server that is not held up goes through. *)
Lemma fleet_take f i pc c sv :
  fleet_reachable conf f → ssThr (flServer f) !! i = Some pc → in_call f i = false → awaits f pc = false →
  server_step conf (SlRun i c) (flServer f) = Some sv → ∃ f', fleet_quiet f f' ∧ flServer f' = sv.
Proof.
  intros Hr Hpc Hin Haw Hs.
  assert (∃ f', act_on conf i (conn_action conf c pc (ssServer (flServer f))) (mkFleet sv (flConn f) (flCall f)) = Some f') as [f' Ha].
  { destruct (conn_action conf c pc (ssServer (flServer f))) as [[k [op|]]|]; cbn [act_on flConn]; [|by eexists..].
    cbn [sys_step]. rewrite (slot_free _ _ k (slots_reach _ Hr) Hin).
    rewrite !bool_decide_eq_true_2 by (try done; apply slot_joiner). by eexists. }
  exists f'. split; [|by apply act_on_cases in Ha as [-> _]].
  left. exists i, c. cbn [fleet_step]. rewrite Hin, Hpc. cbn [mbind option_bind]. rewrite Haw, Hs. exact Ha.
Qed.

Definition serves (pc : Pc) : bool := match pc with HcRun _ => true | _ => false end.

Definition fleet_total (f : Fleet) : nat := total (ssServer (flServer f)) (ssThr (flServer f)).

(** The goroutine that goes next: it has something left to do, its step is enabled, and if it waits for a connection that
    one was told to close. *)
Definition next_up (f : Fleet) (i : nat) (c : SChoice) : Prop :=
  ∃ pc sv, ssThr (flServer f) !! i = Some pc ∧ 0 < rank (ssServer (flServer f)) pc ∧
    server_step conf (SlRun i c) (flServer f) = Some sv ∧
    ∀ k, pc = HcRun k → fdone f k ∨ ∃ j, closes (slot j) (flConn f k).

(** It takes its step after the calls and the connection it waits for are over. *)
Lemma next_goes f i c :
  fleet_reachable conf f → srInShutdown (ssServer (flServer f)) = true → next_up f i c →
  ∃ f', rtc fleet_quiet f f' ∧ fleet_total f' < fleet_total f ∧ srInShutdown (ssServer (flServer f')) = true.
Proof.
  intros Hr Hs (pc & sv & Hpc & Hrank & Hstep & Hrun).
  assert (∃ f1, conns_only f f1 ∧ awaits f1 pc = false) as (f1 & Hf1 & Haw).
  { assert ((∃ k, pc = HcRun k) ∨ awaits f pc = false) as [[k ->]|Haw].
    { destruct pc; try (by right). left. by eexists. }
    - destruct (Hrun k eq_refl) as [Hd|[j Hj]].
      + exists f. split; [by repeat split|]. cbn. unfold fdone in Hd. by rewrite Hd.
      + destruct (conn_over f k j Hr Hj) as (f1 & Hf1 & Hd). exists f1. split; [done|]. cbn. unfold fdone in Hd. by rewrite Hd.
    - exists f. by repeat split. }
  assert (fleet_reachable conf f1) as Hr1 by (eapply fleet_quiet_reach; [done|apply Hf1]).
  destruct (call_over f1 i Hr1) as (f2 & Hf2 & Hin).
  assert (fleet_reachable conf f2) as Hr2 by (eapply fleet_quiet_reach; [done|apply Hf2]).
  assert (awaits f2 pc = false) as Haw2.
  { destruct pc; try done. cbn in Haw |- *. pose proof (conns_done f1 f2 k (proj2 (fleet_parts _ _ Hr1)) Hf2) as Hd.
    unfold fdone in Hd. rewrite Hd; [done|]. by destruct (lfDone (sysConn (flConn f1 k))). }
  pose proof (conns_only_trans _ _ _ Hf1 Hf2) as (Hq & Hsv & _ & _).
  destruct (fleet_take f2 i pc c sv) as (f3 & Hf3 & Hsv3); [done|by rewrite Hsv|done|done|by rewrite Hsv|].
  exists f3. split; [by eapply rtc_r|]. unfold fleet_total. rewrite Hsv3.
  destruct (step_total _ (SlRun i c) _ _ eq_refl Hstep Hs) as [Hlt Hs']. split; [|done].
  unfold busy in Hlt. rewrite Hpc in Hlt. lia.
Qed.

(** In shutdown one of the goroutines is next as long as something is left to do. *)
Lemma someone_next f :
  fleet_reachable conf f → srInShutdown (ssServer (flServer f)) = true → 0 < fleet_total f → ∃ i c, next_up f i c.
Proof.
  intros Hr Hs Ht. destruct (fleet_parts _ _ Hr) as [Hsv _]. pose proof (server_inv_reach _ _ Hsv) as Hi.
  set (first := λ pc, 0 < rank (ssServer (flServer f)) pc ∧ waits pc = false ∧ serves pc = false).
  set (second := λ pc, 0 < rank (ssServer (flServer f)) pc ∧ waits pc = false).
  destruct (decide (Exists first (ssThr (flServer f)))) as [Hex|Hno1].
  { apply Exists_exists in Hex as (pc & [i Hpc]%list_elem_of_lookup & Hrk & Hw & Hsv').
    destruct (enabled_step _ _ i pc Hi Hs Hpc Hrk Hw) as (c & sv & Hstep). exists i, c, pc, sv. do 3 (split; [done|]).
    by intros k ->. }
  apply not_Exists_Forall in Hno1; [|intros ?; apply _]. rewrite Forall_forall in Hno1.
  destruct (decide (Exists second (ssThr (flServer f)))) as [Hex|Hno2].
  - apply Exists_exists in Hex as (pc & Hin & Hrk & Hw). pose proof Hin as [i Hpc]%list_elem_of_lookup.
    destruct (enabled_step _ _ i pc Hi Hs Hpc Hrk Hw) as (c & sv & Hstep). exists i, c, pc, sv. do 3 (split; [done|]).
    intros k ->. destruct (proj1 (watch_reach _ Hr) _ _ Hpc) as [Hd|[Hx|[Hx|Hx]]]; [by left| | |by right]; exfalso.
    + apply (Hno1 _ Hx). split; [cbn; lia|done].
    + apply (Hno1 _ Hx). split; [cbn; lia|done].
  - apply not_Exists_Forall in Hno2; [|intros ?; apply _]. rewrite Forall_forall in Hno2.
    destruct (waiting_step _ _ Hi Ht) as (i & r & sv & Hpc & Hstep).
    { intros pc Hin Hrk. specialize (Hno2 pc Hin). destruct (waits pc) eqn:Hw; [done|]. by destruct Hno2. }
    exists i, ScGo, (ClWait r), sv. split; [done|]. split; [cbn; lia|]. by split.
Qed.

(** A run that leaves nothing to do. *)
Lemma fleet_ending_run n : ∀ f,
  fleet_total f ≤ n → fleet_reachable conf f → srInShutdown (ssServer (flServer f)) = true →
  ∃ f', rtc fleet_quiet f f' ∧ fleet_total f' = 0.
Proof.
  induction n as [|n IH]; intros f Hn Hr Hs; [exists f; split; [done|lia]|].
  destruct (decide (fleet_total f = 0)) as [H0|H0]; [by exists f|].
  destruct (someone_next f Hr Hs) as (i & c & Hnext); [lia|].
  destruct (next_goes f i c Hr Hs Hnext) as (f1 & Hq & Hlt & Hs1).
  destruct (IH f1) as (f' & Hq' & H0'); [lia|by eapply fleet_quiet_reach|done|]. exists f'. split; [by etrans|done].
Qed.

Lemma fleet_closing f f' i pc :
  rtc fleet_quiet f f' → ssThr (flServer f) !! i = Some pc → closing pc = true →
  ∃ pc', ssThr (flServer f') !! i = Some pc' ∧ closing pc' = true.
Proof.
  intros Hq. revert pc. induction Hq as [f|f f1 f2 [l Hl%fleet_step_cases]%fleet_quiet_any _ IH]; intros pc Hpc Hc; [by exists pc|].
  destruct (fleet_server_step _ _ _ Hl) as [Heq|[l' Hs]]; [rewrite <- Heq in Hpc; by eapply IH|].
  destruct (closing_kept _ _ _ _ _ _ Hs Hpc Hc) as (pc1 & Hpc1 & Hc1). by eapply IH.
Qed.
End live.

(** ** Properties *)

(** C13: A server and its connections, once shutdown has begun, end together: from every
    reachable state there is a run of existing goroutines and calls only, with peers that send
    nothing, after which no worker is left, every Close and Abort has returned and every
    connection ever admitted is done and drained. *)
Theorem fleet_close_ends conf f :
  fleet_reachable conf f → srInShutdown (ssServer (flServer f)) = true →
  ∃ f', rtc (fleet_quiet conf) f f' ∧ srWg (ssServer (flServer f')) = 0 ∧
    srHandshakeConns (ssServer (flServer f')) = ∅ ∧ srConns (ssServer (flServer f')) = ∅ ∧
    (∀ i pc, ssThr (flServer f) !! i = Some pc → closing pc = true → ∃ r, ssThr (flServer f') !! i = Some (SReturn r)) ∧
    ∀ k, k ∈ srAdmitted (ssServer (flServer f')) → drained (flConn f' k).
Proof.
  intros Hr Hs. destruct (fleet_ending_run conf _ f (le_n _) Hr Hs) as (f' & Hq & H0). exists f'.
  assert (fleet_reachable conf f') as Hr' by (by eapply fleet_quiet_reach).
  destruct (total_zero_idle conf _ (server_inv_reach _ _ (proj1 (fleet_parts _ _ Hr'))) H0) as (Hw & Hh & Hc & Hret).
  split_and!; try done; [|intros k; by apply (fleet_idle conf)].
  intros i pc Hpc Hcl. destruct (fleet_closing _ _ _ _ _ Hq Hpc Hcl) as (pc' & Hpc' & Hcl').
  destruct (Hret _ _ Hpc' Hcl') as [r ->]. by exists r.
Qed.

(** Close has just begun while a connection is in service and another in its handshake. *)
Definition ex_begun : list FLabel :=
  srv_labels ex_serving ++ conn_labels 0 (go_on (slot 1) 3 ++ ex_send) ++ srv_labels (SlClose false :: srv_go 4 1).

Lemma fleet_close_ends_witness :
  match fleet_run ex_server ex_begun fleet_init with
  | Some f => srWg (ssServer (flServer f)) = 2 ∧ lfDone (sysConn (flConn f 0)) = false ∧
      ∃ f' r, rtc (fleet_quiet ex_server) f f' ∧ srWg (ssServer (flServer f')) = 0 ∧ ssThr (flServer f') !! 4 = Some (SReturn r)
  | None => False
  end.
Proof.
  assert ((λ f, (srInShutdown (ssServer (flServer f)), srWg (ssServer (flServer f)), lfDone (sysConn (flConn f 0)),
      ssThr (flServer f) !! 4)) <$> fleet_run ex_server ex_begun fleet_init =
    Some (true, 2, false, Some (ClListener false (Some 0) [1] [0]))) as H by reflexivity.
  destruct (fleet_run ex_server ex_begun fleet_init) as [f|] eqn:Hrun; [|discriminate H]. injection H as Hs Hw Hd Hpc.
  split; [exact Hw|]. split; [exact Hd|].
  destruct (fleet_close_ends ex_server f (fleet_run_reachable _ _ _ Hrun) Hs) as (f' & Hq & H0 & _ & _ & Hret & _).
  destruct (Hret _ _ Hpc) as [r Hr]; [reflexivity|]. exists f', r. exact (conj Hq (conj H0 Hr)).
Defined.
