(* ===== verification/Keylog.v ===== *)
(** * keylog.go, internal/keylog/writer.go: the traffic-secret log

    The sink is process-wide: a once that opens the file, a mutex and the file.
    [keylog_step] is one step of one of any number of goroutines inside Write and
    WriteEpoch; each Fprintf is one step, which may put only part of its line into
    the file.  The file system is part of the state: opening creates a file or keeps
    what it holds, and writes go to its end.  Other processes do not write to it.
    [parse_log] reads the documented line format.

    The theorems show that one file is opened at most once and no other is touched,
    that it keeps its contents, that the lines of a call are adjacent whatever the
    goroutines do, that a log without failed writes parses into exactly the records
    of the calls, and that the records of a session are, for each direction, every
    epoch in order with the key that sealed its frames. *)

From stdpp Require Import functions.
From S2P Require Import Prelude Wire Header Frame Tlv Utf8 Messages Replay Sha256 Crypto Rekey Session.
From S2P Require Import SessionSend SessionReceive.

Local Open Scope Z_scope.
Local Opaque next_key key_confirm.

(** ** Text: encoding/hex and the verb %d *)

Definition hex_digit (n : Z) : byte := to_byte (if n <? 10 then 48 + n else 87 + n).
Definition hex_EncodeToString (data : list byte) : list byte :=
  data ≫= λ b, [hex_digit (byte_val b / 16); hex_digit (byte_val b mod 16)].

(** At most ten digits for 32 bits. *)
Fixpoint decimal_loop (fuel : nat) (n : Z) (acc : list byte) : list byte :=
  match fuel with
  | O => acc
  | S fuel =>
      let acc := to_byte (48 + n mod 10) :: acc in
      if n <? 10 then acc else decimal_loop fuel (n / 10) acc
  end.
Definition decimal (n : Z) : list byte := decimal_loop 10 n [].

Definition newline : byte := "010"%byte.
Definition space : byte := " "%byte.

(** ** The sink *)

Inductive KeyCall :=
  | KeyWrite (sessionID sendKey recvKey : list byte)
  | KeyWriteEpoch (sessionID direction : list byte) (epoch : Z) (key : list byte).

(** The arguments of the Fprintf calls. *)
Definition key_lines (c : KeyCall) : list (list byte) :=
  match c with
  | KeyWrite sessionID sendKey recvKey =>
      let sid := hex_EncodeToString sessionID in
      [ascii_bytes "DGPROTO_SESSION_KEY " ++ sid ++ ascii_bytes " send 1 " ++ hex_EncodeToString sendKey ++ [newline];
       ascii_bytes "DGPROTO_SESSION_KEY " ++ sid ++ ascii_bytes " recv 1 " ++ hex_EncodeToString recvKey ++ [newline]]
  | KeyWriteEpoch sessionID direction epoch key =>
      [ascii_bytes "DGPROTO_SESSION_KEY " ++ hex_EncodeToString sessionID ++ [space] ++ direction ++ [space] ++
       decimal epoch ++ [space] ++ hex_EncodeToString key ++ [newline]]
  end.

(** The file system: the contents of the files that exist. *)
Local Abbreviation Files := (list byte → option (list byte)).

(** os.OpenFile with O_CREATE|O_WRONLY|O_APPEND, and a write to such a file: an absent
    file is created, the contents of an existing one stay and writes go to the end. *)
Definition OpenFile (path : list byte) (files : Files) : Files := <[path := Some (default [] (files path))]> files.
Definition append_file (path data : list byte) (files : Files) : Files := <[path := Some (default [] (files path) ++ data)]> files.

(** What os.Getenv returns and whether os.OpenFile fails. *)
Record OpenEnv := mkOpenEnv { oePath : list byte; oeFails : bool }.

(** The path of the writer, if any, and the files afterwards. *)
Definition open (env : OpenEnv) (files : Files) : option (list byte) * Files :=
  if decide (oePath env = []) then (None, files) else
  if oeFails env then (None, files) else (Some (oePath env), OpenFile (oePath env) files).

Inductive SinkOnce := SinkFresh | SinkRunning (i : nat) | SinkOpened.

(** Where a call is; [out] is history: what it has put into the file. *)
Inductive KeyPc :=
  | KlOnce (c : KeyCall) | KlOpen (c : KeyCall) | KlActive (c : KeyCall) | KlLock (c : KeyCall)
  | KlPrint (c : KeyCall) (out : list byte) (lines : list (list byte)).

(** [skDone] and [skFailed] are history: the calls that wrote, in order, with what
    they wrote, and whether a write failed. *)
Record Sink := mkSink {
  skOnce : SinkOnce;
  skActive : bool;
  skWriter : option (list byte);
  skMu : option nat;
  skFiles : Files;
  skThr : nat → option KeyPc;
  skDone : list (KeyCall * list byte);
  skFailed : bool;
}.

Definition sink_init (files : Files) : Sink := mkSink SinkFresh false None None files (λ _, None) [] false.

Inductive KeyLabel := KlCall (i : nat) (c : KeyCall) | KlRun (i : nat) (env : OpenEnv) (short : option nat).

Definition goto_key (i : nat) (pc : option KeyPc) (s : Sink) : Sink :=
  mkSink (skOnce s) (skActive s) (skWriter s) (skMu s) (skFiles s) (<[i := pc]> (skThr s)) (skDone s) (skFailed s).

(** One Fprintf: the line, or the part of it a failing write stored; a nil writer
    stores nothing. *)
Definition print_line (i : nat) (short : option nat) (c : KeyCall) (out line : list byte) (lines : list (list byte))
    (s : Sink) : Sink :=
  let stored := match skWriter s, short with None, _ => [] | _, Some n => take n line | _, None => line end in
  let files := match skWriter s with Some path => append_file path stored (skFiles s) | None => skFiles s end in
  mkSink (skOnce s) (skActive s) (skWriter s) (skMu s) files (<[i := Some (KlPrint c (out ++ stored) lines)]> (skThr s))
    (skDone s) (skFailed s || bool_decide (is_Some short)).

Definition keylog_step (l : KeyLabel) (s : Sink) : option Sink :=
  match l with
  | KlCall i c => match skThr s i with None => Some (goto_key i (Some (KlOnce c)) s) | Some _ => None end
  | KlRun i env short =>
      pc ← skThr s i;
      match pc with
      | KlOnce c =>
          match skOnce s with
          | SinkFresh =>
              Some (goto_key i (Some (KlOpen c))
                (mkSink (SinkRunning i) (skActive s) (skWriter s) (skMu s) (skFiles s) (skThr s) (skDone s) (skFailed s)))
          | SinkRunning _ => None
          | SinkOpened => Some (goto_key i (Some (KlActive c)) s)
          end
      | KlOpen c =>
          let '(writer, files) := open env (skFiles s) in
          Some (goto_key i (Some (KlActive c))
            (mkSink SinkOpened (bool_decide (is_Some writer)) writer (skMu s) files (skThr s) (skDone s) (skFailed s)))
      | KlActive c => Some (goto_key i (if skActive s then Some (KlLock c) else None) s)
      | KlLock c =>
          match skMu s with
          | Some _ => None
          | None =>
              Some (goto_key i (Some (KlPrint c [] (key_lines c)))
                (mkSink (skOnce s) (skActive s) (skWriter s) (Some i) (skFiles s) (skThr s) (skDone s) (skFailed s)))
          end
      | KlPrint c out (line :: lines) => Some (print_line i short c out line lines s)
      | KlPrint c out [] =>
          Some (goto_key i None
            (mkSink (skOnce s) (skActive s) (skWriter s) None (skFiles s) (skThr s) (skDone s ++ [(c, out)]) (skFailed s)))
      end
  end.

Definition keylog_runs : Sink → Sink → Prop := rtc (λ s s', ∃ l, keylog_step l s = Some s').
Definition keylog_reachable (files : Files) (s : Sink) : Prop := keylog_runs (sink_init files) s.

(** ** The documented format *)

Record KeyRecord := mkKeyRecord { krSession : list byte; krDirection : list byte; krEpoch : Z; krKey : list byte }.

Definition key_records (c : KeyCall) : list KeyRecord :=
  match c with
  | KeyWrite sessionID sendKey recvKey =>
      [mkKeyRecord sessionID (ascii_bytes "send") 1 sendKey; mkKeyRecord sessionID (ascii_bytes "recv") 1 recvKey]
  | KeyWriteEpoch sessionID direction epoch key => [mkKeyRecord sessionID direction epoch key]
  end.

Fixpoint split_on (sep : byte) (data : list byte) : list (list byte) :=
  match data with
  | [] => [[]]
  | b :: data =>
      if decide (b = sep) then [] :: split_on sep data
      else match split_on sep data with [] => [[b]] | x :: xs => (b :: x) :: xs end
  end.

Definition hex_nibble (b : byte) : option Z :=
  let v := byte_val b in
  if (48 <=? v) && (v <=? 57) then Some (v - 48) else if (97 <=? v) && (v <=? 102) then Some (v - 87) else None.
Fixpoint hex_DecodeString (data : list byte) : option (list byte) :=
  match data with
  | [] => Some []
  | h :: l :: data =>
      h ← hex_nibble h; l ← hex_nibble l; rest ← hex_DecodeString data; Some (to_byte (16 * h + l) :: rest)
  | _ => None
  end.

Fixpoint parse_decimal (acc : Z) (data : list byte) : option Z :=
  match data with
  | [] => Some acc
  | b :: data =>
      let d := byte_val b - 48 in if (0 <=? d) && (d <=? 9) then parse_decimal (10 * acc + d) data else None
  end.

Definition parse_line (line : list byte) : option KeyRecord :=
  match split_on space line with
  | [tag; sid; direction; epoch; key] =>
      if decide (tag = ascii_bytes "DGPROTO_SESSION_KEY") then
        sid ← hex_DecodeString sid; epoch ← parse_decimal 0 epoch; key ← hex_DecodeString key;
        Some (mkKeyRecord sid direction epoch key)
      else None
  | _ => None
  end.

(** Every line ends with a newline. *)
Fixpoint parse_lines (lines : list (list byte)) : option (list KeyRecord) :=
  match lines with
  | [] => None
  | [rest] => if decide (rest = []) then Some [] else None
  | line :: lines => r ← parse_line line; rs ← parse_lines lines; Some (r :: rs)
  end.
Definition parse_log (data : list byte) : option (list KeyRecord) := parse_lines (split_on newline data).

(** Arguments of their Go types, the direction a word. *)
Definition word (l : list byte) : Prop := (space ∉ l) ∧ (newline ∉ l).
Definition key_call_typed (c : KeyCall) : Prop :=
  match c with
  | KeyWrite _ _ _ => True
  | KeyWriteEpoch _ direction epoch _ => word direction ∧ uint 32 epoch
  end.

(** ** Round trips *)

Lemma hex_digit_val n : 0 ≤ n < 16 → byte_val (hex_digit n) = if n <? 10 then 48 + n else 87 + n.
Proof. intros Hn. unfold hex_digit. apply byte_val_small. unfold uint. destruct (n <? 10) eqn:?; lia. Qed.

Lemma hex_nibble_digit n : 0 ≤ n < 16 → hex_nibble (hex_digit n) = Some n.
Proof.
  intros Hn. unfold hex_nibble. cbv zeta. rewrite hex_digit_val by done. destruct (n <? 10) eqn:H10.
  - apply Z.ltb_lt in H10. rewrite !(proj2 (Z.leb_le _ _)) by lia. cbn [andb]. f_equal. lia.
  - apply Z.ltb_ge in H10. rewrite (proj2 (Z.leb_gt (87 + n) 57)), andb_false_r by lia.
    rewrite !(proj2 (Z.leb_le _ _)) by lia. cbn [andb]. f_equal. lia.
Qed.

(** A byte above the separators. *)
Lemma word_cons b l : 48 ≤ byte_val b → word l → word (b :: l).
Proof.
  intros Hb [Hs Hn]. split; apply not_elem_of_cons; (split; [|done]); intros He; rewrite <- He in Hb.
  - by change (byte_val space) with 32 in Hb.
  - by change (byte_val newline) with 10 in Hb.
Qed.

Lemma nibbles b : 0 ≤ byte_val b / 16 < 16 ∧ 0 ≤ byte_val b mod 16 < 16.
Proof.
  pose proof (byte_val_range b). split; [|by apply Z.mod_pos_bound].
  split; [apply Z.div_pos; lia|apply Z.div_lt_upper_bound; lia].
Qed.

Lemma word_app a b : word a → word b → word (a ++ b).
Proof. intros [] []. split; rewrite elem_of_app; tauto. Qed.

Lemma hex_word data : word (hex_EncodeToString data).
Proof.
  induction data as [|b data IH]; [by split; apply not_elem_of_nil|]. destruct (nibbles b) as [H1 H2]. cbn.
  apply word_cons; [|apply word_cons; [|exact IH]]; rewrite hex_digit_val by done; destruct (_ <? _) eqn:?; lia.
Qed.

Lemma hex_round_trip data : hex_DecodeString (hex_EncodeToString data) = Some data.
Proof.
  induction data as [|b data IH]; [done|]. destruct (nibbles b) as [H1 H2]. cbn. rewrite !hex_nibble_digit by done. cbn.
  unfold hex_EncodeToString in IH. rewrite IH. cbn. by rewrite <- Z.div_mod, to_byte_val by lia.
Qed.

Lemma digit_val n : byte_val (to_byte (48 + n mod 10)) = 48 + n mod 10.
Proof. apply byte_val_small. pose proof (Z.mod_pos_bound n 10). unfold uint. lia. Qed.

Lemma decimal_word fuel : ∀ n acc, word acc → word (decimal_loop fuel n acc).
Proof.
  induction fuel as [|fuel IH]; intros n acc Hacc; cbn [decimal_loop]; [done|].
  assert (word (to_byte (48 + n mod 10) :: acc)).
  { apply word_cons; [|done]. rewrite digit_val. pose proof (Z.mod_pos_bound n 10). lia. }
  destruct (n <? 10); [done|]. by apply IH.
Qed.

Lemma decimal_loop_value fuel : ∀ n acc,
  0 ≤ n < 10 ^ Z.of_nat fuel → parse_decimal 0 (decimal_loop fuel n acc) = parse_decimal n acc.
Proof.
  induction fuel as [|fuel IH]; intros n acc Hn; cbn [decimal_loop]; [by replace n with 0 by (cbn in Hn; lia)|].
  pose proof (Z.mod_pos_bound n 10). pose proof (Z.div_mod n 10).
  assert (∀ a, a = n / 10 → parse_decimal a (to_byte (48 + n mod 10) :: acc) = parse_decimal n acc) as Hd.
  { intros a ->. cbn [parse_decimal]. rewrite digit_val. rewrite !(proj2 (Z.leb_le _ _)) by lia. cbn [andb].
    f_equal. lia. }
  destruct (n <? 10) eqn:H10.
  - apply Hd. apply Z.ltb_lt in H10. symmetry. apply Z.div_small. lia.
  - rewrite IH; [by apply Hd|]. rewrite Nat2Z.inj_succ, Z.pow_succ_r in Hn by lia.
    split; [apply Z.div_pos; lia|apply Z.div_lt_upper_bound; lia].
Qed.

Lemma decimal_round_trip n : uint 32 n → parse_decimal 0 (decimal n) = Some n.
Proof. intros Hn. unfold decimal. rewrite decimal_loop_value; [done|]. unfold uint in Hn. cbn. lia. Qed.

Lemma split_on_sep sep a b : sep ∉ a → split_on sep (a ++ sep :: b) = a :: split_on sep b.
Proof.
  induction a as [|x a IH]; intros Ha; cbn.
  - by rewrite decide_True.
  - apply not_elem_of_cons in Ha as [Hx Ha]. rewrite decide_False by done. by rewrite IH.
Qed.
Lemma split_on_last sep a : sep ∉ a → split_on sep a = [a].
Proof.
  induction a as [|x a IH]; intros Ha; cbn; [done|].
  apply not_elem_of_cons in Ha as [Hx Ha]. rewrite decide_False by done. by rewrite IH.
Qed.

(** ** One line, the whole file *)

Lemma word_text : word (ascii_bytes "DGPROTO_SESSION_KEY") ∧ word (ascii_bytes "send") ∧ word (ascii_bytes "recv") ∧ word (ascii_bytes "1").
Proof. repeat split; by apply (bool_decide_unpack _). Qed.

Definition record_line (r : KeyRecord) : list byte :=
  ascii_bytes "DGPROTO_SESSION_KEY" ++ space :: hex_EncodeToString (krSession r) ++ space :: krDirection r ++
  space :: decimal (krEpoch r) ++ space :: hex_EncodeToString (krKey r).
Definition record_ok (r : KeyRecord) : Prop := word (krDirection r) ∧ uint 32 (krEpoch r).

Lemma parse_record_line r : record_ok r → parse_line (record_line r) = Some r.
Proof.
  intros [[Hd _] He]. unfold parse_line, record_line.
  destruct word_text as ([Ht _] & _). destruct (hex_word (krSession r)) as [Hs _], (hex_word (krKey r)) as [Hk _].
  destruct (decimal_word 10 (krEpoch r) []) as [Hn _]; [by split; apply not_elem_of_nil|].
  rewrite !split_on_sep by done. rewrite split_on_last by done. rewrite decide_True by done.
  rewrite !hex_round_trip. cbn [mbind option_bind]. rewrite decimal_round_trip by done. by destruct r.
Qed.

Lemma record_line_newline r : record_ok r → newline ∉ record_line r.
Proof.
  intros [[_ Hd] He]. unfold record_line.
  destruct word_text as ([_ Ht] & _). destruct (hex_word (krSession r)) as [_ Hs], (hex_word (krKey r)) as [_ Hk].
  destruct (decimal_word 10 (krEpoch r) []) as [_ Hn]; [by split; apply not_elem_of_nil|].
  rewrite !elem_of_app, !elem_of_cons, !elem_of_app, !elem_of_cons, !elem_of_app, !elem_of_cons, !elem_of_app, !elem_of_cons.
  naive_solver.
Qed.

Lemma key_lines_records c :
  key_call_typed c → Forall record_ok (key_records c) ∧
  key_lines c = (λ r, record_line r ++ [newline]) <$> key_records c.
Proof.
  destruct word_text as (_ & Hs & Hr & _). destruct c as [sid k1 k2|sid d e k]; cbn [key_call_typed key_records].
  - intros _. split.
    + repeat (apply Forall_cons; split); try apply Forall_nil_2; by split.
    + unfold record_line. cbn [fmap list_fmap krSession krDirection krEpoch krKey].
      cbn. repeat (rewrite <- ?app_assoc; cbn). done.
  - intros Ht. split; [by apply Forall_singleton|]. unfold record_line. cbn [fmap list_fmap krSession krDirection krEpoch krKey].
    cbn. repeat (rewrite <- ?app_assoc; cbn). done.
Qed.

Lemma parse_log_records rs :
  Forall record_ok rs → parse_log (concat ((λ r, record_line r ++ [newline]) <$> rs)) = Some rs.
Proof.
  unfold parse_log. induction 1 as [|r rs Hr _ IH]; [done|].
  cbn [fmap list_fmap concat]. rewrite <- app_assoc. cbn [app]. rewrite split_on_sep by (by apply record_line_newline).
  cbn [parse_lines]. rewrite parse_record_line by done. destruct (split_on _ _) as [|x xs]; [done|]. cbn [mbind option_bind]. by rewrite IH.
Qed.

(** A log cut after a line is two logs. *)
Lemma split_on_inv sep data :
  match split_on sep data with
  | [] => False
  | [x] => data = x
  | x :: xs => ∃ rest, data = x ++ sep :: rest ∧ (sep ∉ x) ∧ split_on sep rest = xs
  end.
Proof.
  induction data as [|b data IH]; [done|]. cbn [split_on]. case_decide as Hb.
  - subst b. destruct (split_on sep data) as [|x xs] eqn:Hd; [done|]. exists data. split_and!; [done|apply not_elem_of_nil|done].
  - destruct (split_on sep data) as [|x [|y ys]]; [done|by subst|]. destruct IH as (rest & -> & Hx & Hr).
    exists rest. split_and!; [done|by apply not_elem_of_cons|done].
Qed.

Lemma parse_log_app data' rs' : ∀ rs data,
  parse_log data = Some rs → parse_log data' = Some rs' → parse_log (data ++ data') = Some (rs ++ rs').
Proof.
  unfold parse_log. induction rs as [|r rs IH]; intros data Hd Hd'; pose proof (split_on_inv newline data) as Hs;
    destruct (split_on newline data) as [|x [|y ys]] eqn:Hsp; try done; cbn [parse_lines] in Hd.
  - case_decide; [|done]. by subst.
  - by apply bind_Some in Hd as (? & _ & (? & _ & ?)%bind_Some).
  - by case_decide.
  - apply bind_Some in Hd as (r' & Hr & (rs0 & Hrs & [= -> ->])%bind_Some). destruct Hs as (rest & -> & Hx & Hr').
    rewrite <- app_assoc. cbn [app]. rewrite split_on_sep by done. cbn [parse_lines]. rewrite Hr.
    specialize (IH rest). rewrite Hr' in IH. specialize (IH Hrs Hd').
    destruct (split_on newline (rest ++ data')) as [|z zs]; [done|]. cbn [mbind option_bind]. by rewrite IH.
Qed.

(** ** The invariant of the sink *)

(** What a call stored of [lines]: of each a prefix, all of it when no write failed. *)
Definition stored_of (failed : bool) (lines : list (list byte)) (out : list byte) : Prop :=
  ∃ ps, Forall2 prefix ps lines ∧ out = concat ps ∧ (failed = false → ps = lines).

Lemma stored_of_snoc failed short lines line out :
  stored_of failed lines out →
  stored_of (failed || bool_decide (is_Some short)) (lines ++ [line])
    (out ++ match short with Some n => take n line | None => line end).
Proof.
  intros (ps & Hp & -> & Hf). exists (ps ++ [match short with Some n => take n line | None => line end]). split_and!.
  - apply Forall2_app; [done|]. constructor; [|constructor]. destruct short as [n|]; [|done].
    exists (drop n line). by rewrite take_drop.
  - rewrite concat_app. cbn. by rewrite app_nil_r.
  - intros [Hf' Hs%bool_decide_eq_false]%orb_false_iff. rewrite Hf by done. destruct short; [destruct Hs; eauto|done].
Qed.

Lemma stored_of_weaken failed b lines out : stored_of failed lines out → stored_of (failed || b) lines out.
Proof. intros (ps & Hp & -> & Hf). exists ps. split_and!; [done..|]. by intros [? _]%orb_false_iff; apply Hf. Qed.

Definition held_out (s : Sink) : list byte :=
  match skMu s with
  | Some i => match skThr s i with Some (KlPrint _ out _) => out | _ => [] end
  | None => []
  end.

(** Past the check of active. *)
Definition in_sink (pc : KeyPc) : bool := match pc with KlLock _ | KlPrint _ _ _ => true | _ => false end.

(** The files a sink with this writer leaves when it wrote [data]: all but the
    writer's as they were, and [data] at the end of that one. *)
Definition log_files (files : Files) (writer : option (list byte)) (data : list byte) : Files :=
  match writer with Some path => <[path := Some (default [] (files path) ++ data)]> files | None => files end.

Section invariant.
Context (files0 : Files).

Record sink_inv (s : Sink) : Prop := {
  sk_files : ∀ q, skFiles s q = log_files files0 (skWriter s) (concat (skDone s).*2 ++ held_out s) q;
  sk_writer : skActive s = bool_decide (is_Some (skWriter s));
  sk_mutex : ∀ i, skMu s = Some i ↔ ∃ c out lines, skThr s i = Some (KlPrint c out lines);
  sk_print : ∀ i c out lines, skThr s i = Some (KlPrint c out lines) →
    ∃ printed, key_lines c = printed ++ lines ∧ stored_of (skFailed s) printed out;
  sk_done : Forall (λ x, stored_of (skFailed s) (key_lines x.1) x.2) (skDone s);
  sk_inactive : skActive s = false → skDone s = [] ∧ ∀ i pc, skThr s i = Some pc → in_sink pc = false;
  sk_once : skOnce s ≠ SinkOpened → skActive s = false;
  sk_open : ∀ i c, skThr s i = Some (KlOpen c) → skOnce s = SinkRunning i;
}.

Ltac thread_cases i j :=
  destruct (decide (i = j)) as [<-|]; [rewrite fn_lookup_insert|rewrite fn_lookup_insert_ne by done].

Definition printing (pc : option KeyPc) : bool := match pc with Some (KlPrint _ _ _) => true | _ => false end.

Lemma mutex_printing s i : sink_inv s → skMu s = Some i ↔ printing (skThr s i) = true.
Proof.
  intros Hs. rewrite (sk_mutex _ Hs i). destruct (skThr s i) as [[]|]; cbn; (split; [naive_solver|]); try done. eauto.
Qed.

(** A call that moves on outside the mutex. *)
Lemma sink_inv_move s once active writer files i pc :
  sink_inv s → active = bool_decide (is_Some writer) →
  (∀ q, files q = log_files files0 writer (concat (skDone s).*2 ++ held_out s) q) → printing (skThr s i) = false → printing pc = false →
  (active = false → skActive s = false ∧ ∀ pc', pc = Some pc' → in_sink pc' = false) →
  (once ≠ SinkOpened → active = false) →
  (∀ c, pc = Some (KlOpen c) → once = SinkRunning i) →
  (∀ j c, skThr s j = Some (KlOpen c) → once = SinkRunning j ∨ j = i) →
  sink_inv (goto_key i pc (mkSink once active writer (skMu s) files (skThr s) (skDone s) (skFailed s))).
Proof.
  intros Hs Hwr Hfiles Hold Hnew Hact Honce Hi Hopen. pose proof (mutex_printing s i Hs) as Hm.
  assert (∀ j, printing (<[i := pc]> (skThr s) j) = printing (skThr s j) ∧
    (printing (skThr s j) = true → <[i := pc]> (skThr s) j = skThr s j)) as Hpr.
  { intros j. thread_cases i j; [|done].
    split; congruence. }
  split; cbn; [|done| | |apply Hs| |done|].
  - intros q. rewrite Hfiles. do 2 f_equal. unfold held_out. cbn. destruct (skMu s) as [j|] eqn:Hj; [|done].
    apply (mutex_printing _ _ Hs) in Hj. by rewrite (proj2 (Hpr j) Hj).
  - intros j. rewrite (mutex_printing s j Hs). destruct (Hpr j) as [<- _].
    destruct (<[i:=pc]> (skThr s) j) as [[]|]; cbn; (split; [naive_solver|]); try naive_solver.
  - intros j c out lines Hj. destruct (Hpr j) as [Hp Hsame]. rewrite Hj in Hp. rewrite Hsame in Hj by done.
    by eapply sk_print.
  - intros [Ha Hp]%Hact. destruct (sk_inactive _ Hs Ha) as [Hd Hin]. split; [done|].
    intros j pc'. thread_cases i j; eauto.
  - intros j c. thread_cases i j; [apply Hi|]. intros Hj. by destruct (Hopen _ _ Hj).
Qed.

(** The holder of the mutex stores octets. *)
Lemma sink_inv_print s i c out line lines short :
  sink_inv s → skThr s i = Some (KlPrint c out (line :: lines)) → sink_inv (print_line i short c out line lines s).
Proof.
  intros Hs Hi. assert (skMu s = Some i) as Hmu by (apply (mutex_printing _ _ Hs); by rewrite Hi).
  assert (∀ j, j ≠ i → ∀ c out lines, skThr s j ≠ Some (KlPrint c out lines)) as Hother.
  { intros j Hne c' out' lines' Hj. assert (skMu s = Some j) by (apply (mutex_printing _ _ Hs); by rewrite Hj). congruence. }
  destruct (skWriter s) as [path|] eqn:Hw.
  2: { destruct (sk_inactive _ Hs) as [_ Hin]; [by rewrite (sk_writer _ Hs), Hw|]. by specialize (Hin _ _ Hi). }
  unfold print_line. rewrite Hw. split; cbn.
  - intros q. unfold held_out, append_file. cbn. rewrite Hmu, fn_lookup_insert.
    pose proof (sk_files _ Hs) as Hf. unfold held_out in Hf. rewrite Hw, Hmu, Hi in Hf. cbn [log_files] in Hf.
    destruct (decide (path = q)) as [<-|Hne].
    + rewrite !fn_lookup_insert, Hf, fn_lookup_insert. cbn [from_option id]. by rewrite <- !app_assoc.
    + rewrite !fn_lookup_insert_ne, Hf, fn_lookup_insert_ne by done. done.
  - by rewrite (sk_writer _ Hs), Hw.
  - intros j. thread_cases i j.
    + split; [eauto|done].
    + apply (sk_mutex _ Hs).
  - intros j c' out' lines'. thread_cases i j.
    + intros [= <- <- <-]. destruct (sk_print _ Hs _ _ _ _ Hi) as (printed & Hl & Hst).
      exists (printed ++ [line]). split; [by rewrite <- app_assoc|by apply stored_of_snoc].
    + intros Hj. by destruct (Hother j ltac:(done) c' out' lines').
  - eapply Forall_impl; [apply Hs|]. intros x. apply stored_of_weaken.
  - intros Ha. destruct (sk_inactive _ Hs Ha) as [_ Hin]. by specialize (Hin _ _ Hi).
  - apply Hs.
  - intros j c'. thread_cases i j; [done|]. apply Hs.
Qed.

Lemma sink_inv_unlock s i c out :
  sink_inv s → skThr s i = Some (KlPrint c out []) →
  sink_inv (goto_key i None (mkSink (skOnce s) (skActive s) (skWriter s) None (skFiles s) (skThr s) (skDone s ++ [(c, out)]) (skFailed s))).
Proof.
  intros Hs Hi. assert (skMu s = Some i) as Hmu by (apply (mutex_printing _ _ Hs); by rewrite Hi).
  assert (∀ j c out lines, <[i := None]> (skThr s) j ≠ Some (KlPrint c out lines)) as Hnone.
  { intros j c' out' lines'. thread_cases i j; [done|].
    intros Hj. assert (skMu s = Some j) by (apply (mutex_printing _ _ Hs); by rewrite Hj). congruence. }
  split; cbn.
  - intros q. rewrite (sk_files _ Hs q). f_equal. unfold held_out. cbn. rewrite Hmu, Hi, fmap_app, concat_app. cbn.
    by rewrite !app_nil_r.
  - apply Hs.
  - intros j. split; [done|]. intros (c' & out' & lines' & Hj). by apply Hnone in Hj.
  - intros j c' out' lines' Hj. by apply Hnone in Hj.
  - apply Forall_app. split; [apply Hs|]. apply Forall_singleton. destruct (sk_print _ Hs _ _ _ _ Hi) as (printed & Hl & Hst).
    rewrite app_nil_r in Hl. cbn [fst snd]. by rewrite Hl.
  - intros Ha. destruct (sk_inactive _ Hs Ha) as [_ Hin]. by specialize (Hin _ _ Hi).
  - apply Hs.
  - intros j c'. thread_cases i j; [done|]. apply Hs.
Qed.

Lemma sink_inv_lock s i c :
  sink_inv s → skThr s i = Some (KlLock c) → skMu s = None →
  sink_inv (goto_key i (Some (KlPrint c [] (key_lines c)))
    (mkSink (skOnce s) (skActive s) (skWriter s) (Some i) (skFiles s) (skThr s) (skDone s) (skFailed s))).
Proof.
  intros Hs Hi Hmu. assert (∀ j c out lines, skThr s j ≠ Some (KlPrint c out lines)) as Hnone.
  { intros j c' out' lines' Hj. assert (skMu s = Some j) by (apply (mutex_printing _ _ Hs); by rewrite Hj). congruence. }
  split; cbn.
  - intros q. rewrite (sk_files _ Hs q). f_equal. unfold held_out. cbn. by rewrite Hmu, fn_lookup_insert.
  - apply Hs.
  - intros j. thread_cases i j.
    + split; [eauto|done].
    + split; [congruence|]. intros (c' & out' & lines' & Hj). by apply Hnone in Hj.
  - intros j c' out' lines'. thread_cases i j.
    + intros [= <- <- <-]. exists []. split; [done|]. by exists [].
    + intros Hj. by apply Hnone in Hj.
  - apply Hs.
  - intros Ha. destruct (sk_inactive _ Hs Ha) as [_ Hin]. by specialize (Hin _ _ Hi).
  - apply Hs.
  - intros j c'. thread_cases i j; [done|]. apply Hs.
Qed.

Lemma sink_inv_init : sink_inv (sink_init files0).
Proof. split; cbn; try done. intros i. split; [done|]. by intros (? & ? & ? & ?). Qed.

(** A sink that wrote nothing yet opens its file. *)
Lemma open_files s env :
  sink_inv s → skActive s = false →
  let '(writer, files) := open env (skFiles s) in
  ∀ q, files q = log_files files0 writer (concat (skDone s).*2 ++ held_out s) q.
Proof.
  intros Hs Ha. destruct (sk_inactive _ Hs Ha) as [Hd Hin].
  assert (held_out s = []) as Hh.
  { unfold held_out. destruct (skMu s) as [i|] eqn:Hm; [|done]. apply (sk_mutex _ Hs) in Hm as (c & out & lines & Hi).
    by specialize (Hin _ _ Hi). }
  assert (skWriter s = None) as Hw.
  { pose proof (sk_writer _ Hs) as Hw. rewrite Ha in Hw. destruct (skWriter s); [|done]. by rewrite bool_decide_eq_true_2 in Hw by eauto. }
  pose proof (sk_files _ Hs) as Hf. rewrite Hw in Hf. cbn [log_files] in Hf. rewrite Hd, Hh. unfold open, OpenFile.
  case_decide; [done|]. destruct (oeFails env); [done|]. intros q. cbn [log_files]. rewrite Hf. cbn. rewrite app_nil_r.
  destruct (decide (oePath env = q)) as [<-|Hne]; [by rewrite !fn_lookup_insert|]. by rewrite !fn_lookup_insert_ne.
Qed.

Lemma sink_inv_step l s s' : sink_inv s → keylog_step l s = Some s' → sink_inv s'.
Proof.
  intros Hs Hstep. destruct l as [i c|i env short]; cbn in Hstep.
  { destruct (skThr s i) eqn:Hi; [done|]. injection Hstep as <-.
    apply (sink_inv_move s (skOnce s) (skActive s)); [done|apply Hs|apply Hs|by rewrite Hi|done| |apply Hs|done|].
    - intros Ha. split; [done|]. by intros pc' [= <-].
    - intros j c' Hj. left. by eapply sk_open. }
  destruct (skThr s i) as [pc|] eqn:Hi; [|done]. cbn in Hstep.
  destruct pc as [c|c|c|c|c out [|line lines]]; [| | | |injection Hstep as <-; by apply sink_inv_unlock
                                                |injection Hstep as <-; by apply sink_inv_print].
  - destruct (skOnce s) eqn:Ho; [|done|]; injection Hstep as <-.
    + assert (skActive s = false) as Ha by (apply (sk_once _ Hs); congruence).
      apply (sink_inv_move s (SinkRunning i) (skActive s)); [done|apply Hs|apply Hs|by rewrite Hi|done| |done|done|].
      * intros _. split; [done|]. by intros pc' [= <-].
      * intros j c' Hj%(sk_open _ Hs). congruence.
    + apply (sink_inv_move s (skOnce s) (skActive s)); [done|apply Hs|apply Hs|by rewrite Hi|done| |apply Hs|done|].
      * intros Ha. split; [done|]. by intros pc' [= <-].
      * intros j c' Hj. left. by eapply sk_open.
  - pose proof (sk_open _ Hs _ _ Hi) as Ho. assert (skActive s = false) as Ha by (apply (sk_once _ Hs); by rewrite Ho).
    pose proof (open_files s env Hs Ha) as Hf. destruct (open env (skFiles s)) as [writer files]. injection Hstep as <-.
    apply (sink_inv_move s SinkOpened); [done|done|done|by rewrite Hi|done| |done|done|].
    + intros _. split; [done|]. by intros pc' [= <-].
    + intros j c' Hj%(sk_open _ Hs). right. congruence.
  - injection Hstep as <-.
    apply (sink_inv_move s (skOnce s) (skActive s)); [done|apply Hs|apply Hs|by rewrite Hi|by destruct (skActive s)| |apply Hs|by destruct (skActive s)|].
    + intros Ha. split; [done|]. by rewrite Ha.
    + intros j c' Hj. left. by eapply sk_open.
  - destruct (skMu s) eqn:Hmu; [done|]. injection Hstep as <-. by apply sink_inv_lock.
Qed.

Lemma sink_inv_runs s s' : sink_inv s → keylog_runs s s' → sink_inv s'.
Proof. intros Hs. apply (rtc_ind_r sink_inv); [done|]. intros ? ? _ [l Hl] Hi. by eapply sink_inv_step. Qed.

(** The once is done with its function for good, and the writer is what it left. *)
Lemma writer_final s s' : sink_inv s → skOnce s = SinkOpened → keylog_runs s s' → skOnce s' = SinkOpened ∧ skWriter s' = skWriter s.
Proof.
  intros Hs Ho. unfold keylog_runs.
  apply (rtc_ind_r (λ s2, skOnce s2 = SinkOpened ∧ skWriter s2 = skWriter s)); [done|].
  intros y z Hy [l Hl] [Hoy Hwy]. apply (sink_inv_runs _ _ Hs) in Hy.
  rewrite <- Hwy. destruct l as [i c|i env short]; cbn in Hl; [destruct (skThr y i); [done|]; by injection Hl as <-|].
  destruct (skThr y i) as [pc|] eqn:Hi; [|done]. cbn in Hl. destruct pc as [c|c|c|c|c out [|line lines]].
  - rewrite Hoy in Hl. by injection Hl as <-.
  - apply (sk_open _ Hy) in Hi. congruence.
  - by injection Hl as <-.
  - destruct (skMu y); [done|]. by injection Hl as <-.
  - by injection Hl as <-.
  - by injection Hl as <-.
Qed.
End invariant.

(** The octets the calls stored, when no write failed. *)
Lemma stored_records done_ :
  Forall (λ x, stored_of false (key_lines x.1) x.2) done_ → Forall key_call_typed done_.*1 →
  parse_log (concat done_.*2) = Some (done_.*1 ≫= key_records).
Proof.
  intros Hd Hty. rewrite <- (parse_log_records (done_.*1 ≫= key_records)).
  - f_equal. induction done_ as [|[c out] l IH]; [done|]. cbn in *.
    apply Forall_cons in Hd as [(ps & _ & Ho & Hps) Hd]. apply Forall_cons in Hty as [Hc Hty].
    cbn [fst snd] in Ho, Hps. rewrite Ho, Hps by done.
    rewrite (proj2 (key_lines_records c Hc)), IH by done. by rewrite fmap_app, concat_app.
  - clear -Hty. induction Hty as [|c l Hc _ IH]; [constructor|]. cbn. apply Forall_app.
    split; [by apply key_lines_records|done].
Qed.

(** ** What a session logs *)

Section session_log.
Context {aead : AEAD} {laws : AEADLaws}.

(** The calls NewSession, MarkRekeySent and ReceivePayload make. *)
Definition new_session_log (secrets : HandshakeSecrets) : KeyCall :=
  KeyWrite (hsSessionID secrets) (hsSendKey secrets) (hsReceiveKey secrets).

Definition mark_log (clock : Clock) (f : Frame) (s : Session) : list KeyCall :=
  match Session_MarkRekeySent clock f s with
  | (s', Ok _) => [KeyWriteEpoch (sessSessionID s') (ascii_bytes "send") (sSendEpoch (sessSend s')) (sSendKey (sessSend s'))]
  | _ => []
  end.
Definition receive_log (clock : Clock) (f : Frame) (s : Session) : list KeyCall :=
  match Session_ReceivePayload clock f s with
  | (s', Ok _) =>
      if hdrMessageType (frHeader f) =? MessageTypeRekeyInit
      then [KeyWriteEpoch (sessSessionID s') (ascii_bytes "recv") (rReceiveEpoch (sessReceive s')) (rReceiveKey (sessReceive s'))]
      else []
  | _ => []
  end.

Definition step_log (op : SessionOp) (s : Session) : list KeyCall :=
  match op with
  | OpMarkRekeySent clock f => mark_log clock f s
  | OpReceive clock f | OpReceivePayload clock f => receive_log clock f s
  | _ => []
  end.
Fixpoint session_log (ops : list SessionOp) (s : Session) : list KeyCall :=
  match ops with
  | [] => []
  | op :: ops => step_log op s ++ session_log ops (session_step op s).1
  end.

(** The records of a direction: every epoch once, in order, with its key. *)
Definition records_of (direction : list byte) (rs : list KeyRecord) : list KeyRecord :=
  filter (λ r, krDirection r = direction) rs.
Definition epoch_records (sid direction key : list byte) (epoch : Z) : list KeyRecord :=
  (λ n, mkKeyRecord sid direction (Z.of_nat n + 1) (ratchet n key)) <$> seq 0 (Z.to_nat epoch).

Lemma epoch_records_next sid direction key epoch :
  1 ≤ epoch →
  epoch_records sid direction key (epoch + 1) =
  epoch_records sid direction key epoch ++
    [mkKeyRecord sid direction (epoch + 1) (next_key (ratchet (Z.to_nat (epoch - 1)) key))].
Proof.
  intros He. unfold epoch_records. replace (Z.to_nat (epoch + 1)) with (Z.to_nat epoch + 1)%nat by lia.
  rewrite seq_app, fmap_app. do 2 f_equal. cbn. rewrite Z2Nat.id by lia.
  by replace (Z.to_nat epoch) with (S (Z.to_nat (epoch - 1))) by lia.
Qed.

(** One direction: its epoch and key stay and nothing is logged for it, or both
    move on by one and that is logged. *)
Inductive log_case (sid direction : list byte) (e : Z) (k : list byte) : Z → list byte → list KeyRecord → Prop :=
  | log_stays : log_case sid direction e k e k []
  | log_moves : log_case sid direction e k (e + 1) (next_key k) [mkKeyRecord sid direction (e + 1) (next_key k)].

Definition call_records (cs : list KeyCall) : list KeyRecord := cs ≫= key_records.

Lemma receive_log_send clock f s : records_of (ascii_bytes "send") (call_records (receive_log clock f s)) = [].
Proof. unfold receive_log. destruct (Session_ReceivePayload clock f s) as [s' [p|e|]]; [|done..]. by destruct (_ =? _). Qed.

Lemma step_log_send op s :
  send_ok s → op_typed op →
  let s' := (session_step op s).1 in
  log_case (sessSessionID s) (ascii_bytes "send") (sSendEpoch (sessSend s)) (sSendKey (sessSend s))
    (sSendEpoch (sessSend s')) (sSendKey (sessSend s')) (records_of (ascii_bytes "send") (call_records (step_log op s))).
Proof.
  intros Hok Hty.
  assert (∀ s', sessSend s' = sessSend s → records_of (ascii_bytes "send") (call_records (step_log op s)) = [] →
    log_case (sessSessionID s) (ascii_bytes "send") (sSendEpoch (sessSend s)) (sSendKey (sessSend s))
      (sSendEpoch (sessSend s')) (sSendKey (sessSend s')) (records_of (ascii_bytes "send") (call_records (step_log op s)))) as Hkeep.
  { intros s' -> ->. constructor. }
  destruct op as [c en m n|c en t p n|c f|c f|c f|]; cbn [session_step op_typed step_log] in *.
  - destruct Hty as [Hm Hn]. destruct (Send_result c en m n s Hok Hm Hn) as [(e & ->)|(f & s' & -> & _ & He)]; [by apply Hkeep|].
    apply emits_frame in He as (_ & _ & _ & E1 & E2 & _). cbn. rewrite E1, E2. constructor.
  - destruct (SendPayload_result c en t p n s Hok Hty) as [(e & ->)|(f & s' & -> & _ & He)]; [by apply Hkeep|].
    apply emits_frame in He as (_ & _ & _ & E1 & E2 & _). cbn. rewrite E1, E2. constructor.
  - unfold mark_log in *. destruct (MarkRekeySent_result c f s) as [(e & He & _)|(q & _ & Hq & _ & He)]; rewrite He in *; [by apply Hkeep|].
    destruct (so_pending s Hok q Hq) as [Hk _ Hep _ _]. cbn. rewrite Hk, Hep. constructor.
  - pose proof (f_equal snd (Receive_keeps c f s)) as Hk. destruct (Session_Receive c f s) as [s' o].
    apply Hkeep; [exact Hk|apply receive_log_send].
  - pose proof (f_equal snd (ReceivePayload_keeps c f s)) as Hk. destruct (Session_ReceivePayload c f s) as [s' o].
    apply Hkeep; [exact Hk|apply receive_log_send].
  - by apply Hkeep.
Qed.

(** The payload is accepted, and logged when it is a RekeyInit. *)
Lemma accepts_log clock f s p s' :
  accepts clock s f p s' →
  sessSessionID s' = sessSessionID s ∧
  log_case (sessSessionID s) (ascii_bytes "recv") (rReceiveEpoch (sessReceive s)) (rReceiveKey (sessReceive s))
    (rReceiveEpoch (sessReceive s')) (rReceiveKey (sessReceive s'))
    (if is_rekey f then [mkKeyRecord (sessSessionID s) (ascii_bytes "recv") (rReceiveEpoch (sessReceive s'))
                           (rReceiveKey (sessReceive s'))] else []).
Proof.
  intros [p' w _ Hr _ _|p' w key c confirm _ Hr _ _ _ _ _ -> _|p' w c _ Hr _ _ _ _ _]; (split; [done|]); rewrite Hr;
    cbn [with_receive sessReceive].
  - unfold after_current. destruct (rPreviousReceive _); [|constructor].
    destruct (expireGrace_fields clock (spend_grace (set_replay w (sessReceive s)))) as (_ & -> & -> & _). constructor.
  - destruct (expireGrace_fields clock (start_epoch clock (next_key (rReceiveKey (sessReceive s))) c w (sessReceive s)))
      as (_ & -> & -> & _). constructor.
  - constructor.
Qed.

Lemma step_log_receive op s :
  receive_ok s → op_typed op →
  let s' := (session_step op s).1 in
  log_case (sessSessionID s) (ascii_bytes "recv") (rReceiveEpoch (sessReceive s)) (rReceiveKey (sessReceive s))
    (rReceiveEpoch (sessReceive s')) (rReceiveKey (sessReceive s'))
    (records_of (ascii_bytes "recv") (call_records (step_log op s))).
Proof.
  intros Hok Hty.
  assert (∀ s', sessReceive s' = sessReceive s → records_of (ascii_bytes "recv") (call_records (step_log op s)) = [] →
    log_case (sessSessionID s) (ascii_bytes "recv") (rReceiveEpoch (sessReceive s)) (rReceiveKey (sessReceive s))
      (rReceiveEpoch (sessReceive s')) (rReceiveKey (sessReceive s'))
      (records_of (ascii_bytes "recv") (call_records (step_log op s)))) as Hkeep.
  { intros s' -> ->. constructor. }
  destruct op as [c en m n|c en t p n|c f|c f|c f|]; cbn [session_step op_typed step_log] in *.
  - pose proof (f_equal snd (Send_keeps c en m n s)) as Hk. destruct (Session_Send c en m n s) as [s' o]. by apply Hkeep.
  - pose proof (f_equal snd (SendPayload_keeps c en t p n s)) as Hk. destruct (Session_SendPayload c en t p n s) as [s' o].
    by apply Hkeep.
  - unfold mark_log in *. pose proof (f_equal snd (MarkRekeySent_keeps c f s)) as Hk.
    destruct (Session_MarkRekeySent c f s) as [s' [u|e|]]; by apply Hkeep.
  - unfold receive_log in *. change (hdrMessageType (frHeader f) =? MessageTypeRekeyInit) with (is_rekey f) in *.
    unfold Session_Receive. rewrite sm_bind_run.
    destruct (ReceivePayload_result c s f Hok Hty) as [[e He]|(p & s' & He & Hacc)]; rewrite He in *; [by apply Hkeep|].
    destruct (accepts_log _ _ _ _ _ Hacc) as [-> Hl]. revert Hl.
    destruct (newInboundMessage _); sm_run; by destruct (is_rekey f).
  - unfold receive_log in *. change (hdrMessageType (frHeader f) =? MessageTypeRekeyInit) with (is_rekey f) in *.
    destruct (ReceivePayload_result c s f Hok Hty) as [[e He]|(p & s' & He & Hacc)]; rewrite He in *; [by apply Hkeep|].
    destruct (accepts_log _ _ _ _ _ Hacc) as [-> Hl]. revert Hl. by destruct (is_rekey f).
  - by apply Hkeep.
Qed.

Record dir_logged (sid direction key : list byte) (e : Z) (k : list byte) (rs : list KeyRecord) : Prop := {
  dl_records : records_of direction rs = epoch_records sid direction key e;
  dl_key : k = ratchet (Z.to_nat (e - 1)) key;
  dl_epoch : 1 ≤ e;
}.

Lemma dir_logged_step sid direction key e k e' k' rs new :
  dir_logged sid direction key e k rs → log_case sid direction e k e' k' (records_of direction new) →
  dir_logged sid direction key e' k' (rs ++ new) ∧ e ≤ e'.
Proof.
  intros [Hr -> He] Hc.
  assert (records_of direction (rs ++ new) = epoch_records sid direction key e ++ records_of direction new) as Ha.
  { unfold records_of in *. by rewrite filter_app, Hr. }
  destruct Hc.
  - split; [|lia]. rewrite app_nil_r in Ha. by split.
  - split; [|lia]. split; [by rewrite Ha, epoch_records_next| |lia].
    by replace (Z.to_nat (e + 1 - 1)) with (S (Z.to_nat (e - 1))) by lia.
Qed.

(** The log of both directions of [s], started with [k1] and [k2]. *)
Record session_logged (sid k1 k2 : list byte) (s : Session) (rs : list KeyRecord) : Prop := {
  sl_id : sessSessionID s = sid;
  sl_send_ok : send_ok s;
  sl_receive_ok : receive_ok s;
  sl_send : dir_logged sid (ascii_bytes "send") k1 (sSendEpoch (sessSend s)) (sSendKey (sessSend s)) rs;
  sl_receive : dir_logged sid (ascii_bytes "recv") k2 (rReceiveEpoch (sessReceive s)) (rReceiveKey (sessReceive s)) rs;
}.

Lemma session_logged_step sid k1 k2 op s rs :
  session_logged sid k1 k2 s rs → op_typed op →
  let s' := (session_step op s).1 in
  session_logged sid k1 k2 s' (rs ++ call_records (step_log op s)) ∧
  sSendEpoch (sessSend s) ≤ sSendEpoch (sessSend s').
Proof.
  intros [<- Hs Hr Hls Hlr] Hop s'.
  destruct (dir_logged_step _ _ _ _ _ _ _ _ _ Hls (step_log_send op s Hs Hop)) as [Hls' Hle].
  destruct (dir_logged_step _ _ _ _ _ _ _ _ _ Hlr (step_log_receive op s Hr Hop)) as [Hlr' _].
  split; [|done]. split; [apply session_step_id| | |done|done].
  - exact (send_effect_ok _ _ _ _ Hs (session_step_send op s Hs Hop)).
  - exact (receive_effect_ok _ _ _ Hr (session_step_receive op s Hr Hop)).
Qed.

Lemma session_logged_run sid k1 k2 ops : ∀ s rs,
  session_logged sid k1 k2 s rs → Forall op_typed ops →
  let '(s', evs) := session_run ops s in
  session_logged sid k1 k2 s' (rs ++ call_records (session_log ops s)) ∧
  sSendEpoch (sessSend s) ≤ sSendEpoch (sessSend s') ∧
  ∀ e f, (e, f) ∈ sent_of evs → e ≤ sSendEpoch (sessSend s').
Proof.
  induction ops as [|op ops IH]; intros s rs Hl Hall; cbn [session_run session_log].
  { unfold call_records. cbn. rewrite app_nil_r. split_and!; [done..|]. by intros e f ?%not_elem_of_nil. }
  apply Forall_cons in Hall as [Hop Hall]. destruct (session_logged_step _ _ _ op _ _ Hl Hop) as [Hl1 Hle].
  pose proof (session_step_send op s (sl_send_ok _ _ _ _ _ Hl) Hop) as He.
  destruct (session_step op s) as [s1 ev] eqn:Hstep. cbn [fst snd] in *. specialize (IH s1 _ Hl1 Hall).
  destruct (session_run ops s1) as [s2 evs]. destruct IH as (Hl2 & Hle2 & Hsent). split_and!; [|lia|].
  - unfold call_records in *. by rewrite bind_app, app_assoc.
  - intros e f Hin. change (ev :: evs) with ([ev] ++ evs) in Hin. rewrite sent_of_app in Hin.
    apply elem_of_app in Hin as [Hin|Hin]; [|by eapply Hsent].
    destruct He as [ev' s' _ Hno|f' s' _ _|clock p _ _]; cbn in Hin.
    + destruct ev'; try (by apply not_elem_of_nil in Hin). by destruct (Hno epoch frame).
    + apply list_elem_of_singleton in Hin as [= -> _]. lia.
    + by apply not_elem_of_nil in Hin.
Qed.

Lemma NewSession_logged suite secrets now s :
  zlen (hsSessionID secrets) = 16 → NewSession suite secrets now = Ok s →
  session_logged (hsSessionID secrets) (hsSendKey secrets) (hsReceiveKey secrets) s (key_records (new_session_log secrets)).
Proof.
  intros Hid Hn. pose proof (si_ok _ _ _ (NewSession_send_inv _ _ _ _ Hid Hn)) as Hs.
  pose proof (ri_ok _ _ (NewSession_receive_inv _ _ _ _ Hid Hn)) as Hr.
  apply NewSession_inv in Hn as (_ & _ & Hsid & _ & _ & cs & cr & _ & _ & Es & Er); [|done].
  split; [done..| |]; [rewrite Es|rewrite Er]; (split; [reflexivity|done|done]).
Qed.

Lemma epoch_records_elem sid direction key e epoch :
  1 ≤ e ≤ epoch → mkKeyRecord sid direction e (ratchet (Z.to_nat (e - 1)) key) ∈ epoch_records sid direction key epoch.
Proof.
  intros He. apply list_elem_of_fmap. exists (Z.to_nat (e - 1)). split; [f_equal; lia|]. apply elem_of_seq. lia.
Qed.
End session_log.

(** ** Properties *)

(** C30: In every interleaving of key-log calls the log is opened at most once and only that
    file changes: what it held stays in front and the calls' lines follow, one call after the
    other; without write errors these parse back to the calls' records; without a writer no file
    changes. *)
Theorem keylog_file_exact files s :
  keylog_reachable files s →
  match skWriter s with
  | None => skActive s = false ∧ skDone s = [] ∧ ∀ q, skFiles s q = files q
  | Some path =>
      (∀ q, q ≠ path → skFiles s q = files q) ∧
      (∃ part, skFiles s path = Some (default [] (files path) ++ concat (skDone s).*2 ++ part) ∧ (skMu s = None → part = [])) ∧
      (skFailed s = false → skMu s = None → Forall key_call_typed (skDone s).*1 →
       parse_log (concat (skDone s).*2) = Some (call_records (skDone s).*1) ∧
       ∀ rs, parse_log (default [] (files path)) = Some rs →
         skFiles s path ≫= parse_log = Some (rs ++ call_records (skDone s).*1))
  end ∧
  Forall (λ x, ∃ ps, Forall2 prefix ps (key_lines x.1) ∧ x.2 = concat ps) (skDone s) ∧
  (skOnce s = SinkOpened → ∀ s', keylog_runs s s' → skWriter s' = skWriter s).
Proof.
  intros Hs%(sink_inv_runs files _ _ (sink_inv_init files)).
  assert (skMu s = None → held_out s = []) as Hpart by (unfold held_out; by intros ->).
  pose proof (sk_files _ _ Hs) as Hf. pose proof (sk_writer _ _ Hs) as Ha. pose proof (sk_inactive _ _ Hs) as Hin.
  pose proof (sk_done _ _ Hs) as Hd. split_and!.
  - destruct (skWriter s) as [path|]; [|rewrite Ha in *; by destruct (Hin eq_refl)]. cbn [log_files] in Hf. split_and!.
    + intros q Hq. by rewrite Hf, fn_lookup_insert_ne.
    + exists (held_out s). by rewrite Hf, fn_lookup_insert.
    + intros Hfail Hm Hty. rewrite Hfail in Hd. rewrite Hf, fn_lookup_insert, Hpart, app_nil_r by done.
      pose proof (stored_records _ Hd Hty) as Hp. split; [done|]. intros rs Hrs. by apply parse_log_app.
  - eapply Forall_impl; [exact Hd|]. intros x (ps & Hp & -> & _). by exists ps.
  - intros Ho s' Hr. by apply (writer_final files s s').
Qed.

(** C31: The records a session logs over any calls are, in each direction, one for every epoch
    from 1 to the current one in order, with the key ratcheted from the handshake's; so every
    frame sent is sealed under a logged key. *)
Theorem keylog_session_exact {aead : AEAD} {laws : AEADLaws} suite secrets now s ops :
  zlen (hsSessionID secrets) = 16 → NewSession suite secrets now = Ok s → Forall op_typed ops →
  let '(s', evs) := session_run ops s in
  let rs := call_records (new_session_log secrets :: session_log ops s) in
  records_of (ascii_bytes "send") rs =
    epoch_records (hsSessionID secrets) (ascii_bytes "send") (hsSendKey secrets) (sSendEpoch (sessSend s')) ∧
  records_of (ascii_bytes "recv") rs =
    epoch_records (hsSessionID secrets) (ascii_bytes "recv") (hsReceiveKey secrets) (rReceiveEpoch (sessReceive s')) ∧
  (∀ e f, (e, f) ∈ sent_of evs → ∃ key c t p pad,
     mkKeyRecord (hsSessionID secrets) (ascii_bytes "send") e key ∈ rs ∧ codec_of key c ∧
     f = seal_frame c t (hsSessionID secrets) (frame_seq f) p pad).
Proof.
  intros Hid Hn Hall. pose proof (session_logged_run _ _ _ ops _ _ (NewSession_logged _ _ _ _ Hid Hn) Hall) as Hl.
  pose proof (send_inv_run _ ops _ _ (NewSession_send_inv _ _ _ _ Hid Hn) Hall) as Hi.
  pose proof (session_run_id ops s) as Hsid. apply NewSession_inv in Hn as (_ & _ & Hs0 & _); [|done].
  destruct (session_run ops s) as [s' evs]. destruct Hl as ([_ _ _ [Hs _ _] [Hr _ _]] & _ & Hle).
  split_and!; [exact Hs|exact Hr|]. intros e f Hin. cbn [fst snd app] in Hi, Hsid.
  destruct (proj1 (Forall_forall _ _) (si_sealed _ _ _ Hi) _ Hin) as (H1 & _ & c & t & p & pad & Hc & Hf).
  cbn [fst snd] in H1, Hc, Hf. exists (ratchet (Z.to_nat (e - 1)) (hsSendKey secrets)), c, t, p, pad.
  split_and!; [|done|by rewrite Hsid, Hs0 in Hf].
  assert (∀ x, x ∈ records_of (ascii_bytes "send") (call_records (new_session_log secrets :: session_log ops s)) →
    x ∈ call_records (new_session_log secrets :: session_log ops s)) as Hsub by (intros x [_ Hx]%list_elem_of_filter; done).
  apply Hsub. unfold call_records in *. cbn [mbind list_bind] in *. rewrite Hs. apply epoch_records_elem. split; [done|].
  by eapply Hle.
Qed.

(** ** Witnesses *)

Fixpoint keylog_run (ls : list KeyLabel) (s : Sink) : option Sink :=
  match ls with [] => Some s | l :: ls => s ← keylog_step l s; keylog_run ls s end.

Lemma keylog_run_reachable files ls s : keylog_run ls (sink_init files) = Some s → keylog_reachable files s.
Proof.
  unfold keylog_reachable, keylog_runs. generalize (sink_init files). induction ls as [|l ls IH]; intros s0 Hr; cbn in Hr;
    [by injection Hr as ->|].
  apply bind_Some in Hr as (s1 & Hs & Hr). eapply rtc_l; [by exists l|by apply IH].
Qed.

Definition ex_calls : list KeyCall :=
  [KeyWriteEpoch ex_session (ascii_bytes "send") 4294967295 ex_key; KeyWrite ex_session ex_key ex_key].
Definition ex_path : list byte := ascii_bytes "keys.log".
Definition ex_other : list byte := ascii_bytes "other.log".
Definition ex_files : Files := <[ex_path := Some (ascii_bytes "existing" ++ [newline])]> (λ _, None).
Definition sink_run_on (path : list byte) (i : nat) : KeyLabel := KlRun i (mkOpenEnv path false) None.

(** The second goroutine opens the sink and prints while the first waits; by then
    the environment names another file. *)
Definition ex_sink_labels : list KeyLabel :=
  [KlCall 0 (KeyWriteEpoch ex_session (ascii_bytes "send") 4294967295 ex_key); KlCall 1 (KeyWrite ex_session ex_key ex_key)] ++
  (sink_run_on ex_path <$> [1; 1]%nat) ++ (sink_run_on ex_other <$> [0; 1; 1; 0; 1; 1; 1; 0; 0; 0]%nat).

(** The old line is kept, the lines of the calls follow, and no other file appears. *)
Lemma keylog_file_exact_witness :
  match keylog_run ex_sink_labels (sink_init ex_files) with
  | Some s => skFiles s ex_path = Some (ascii_bytes "existing" ++ [newline] ++ concat (skDone s).*2) ∧
      parse_log (concat (skDone s).*2) = Some (call_records (reverse ex_calls)) ∧ skFiles s ex_other = None
  | None => False
  end.
Proof.
  assert ((λ s, (skWriter s, skFailed s, skMu s, (skDone s).*1)) <$> keylog_run ex_sink_labels (sink_init ex_files) =
    Some (Some ex_path, false, None, reverse ex_calls)) as H by (vm_compute; reflexivity).
  destruct (keylog_run ex_sink_labels (sink_init ex_files)) as [s|] eqn:Hrun; [|discriminate H]. injection H as Hw Hf Hm Hd.
  pose proof (keylog_file_exact ex_files s (keylog_run_reachable _ _ _ Hrun)) as [H _]. rewrite Hw in H.
  destruct H as (Hother & (part & Hpath & Hpart) & Hparse). rewrite (Hpart Hm), app_nil_r in Hpath. split_and!.
  - rewrite Hpath. reflexivity.
  - rewrite <- Hd. apply (Hparse Hf Hm). rewrite Hd.
    constructor; [exact I|]. constructor; [|constructor]. split; [split; by apply (bool_decide_unpack _)|by split].
  - rewrite Hother by discriminate. reflexivity.
Defined.

Lemma keylog_session_exact_witness :
  let '(s', evs) := session_run (ex_ops ex_rekey_frame) mac_session in
  records_of (ascii_bytes "send") (call_records (new_session_log ex_secrets :: session_log (ex_ops ex_rekey_frame) mac_session)) =
    epoch_records ex_session (ascii_bytes "send") ex_key (sSendEpoch (sessSend s')).
Proof.
  pose proof (@keylog_session_exact mac_aead mac_aead_laws CipherChaCha20Poly1305 ex_secrets 0 mac_session
    (ex_ops ex_rekey_frame) eq_refl mac_session_new ex_ops_typed) as H.
  destruct (session_run (ex_ops ex_rekey_frame) mac_session) as [s' evs]. exact (proj1 H).
Defined.
