(* ===== verification/Echo.v ===== *)
(** * examples: the echo peers

    The application on top of the library: echoapp (the fixed envelope, key files,
    the server's handler, Serve and the client's Exchange), the loopback command
    echo and the commands echo-client and echo-server.  Calls into the library and
    the operating system are inputs, records of what they return; the result of
    a function lists the calls it makes.  The runtime's calls of the client's handler
    are an input as well: what the handler publishes is computed from them
    ([handle_calls]).

    The theorems show that the two peers agree on the envelope and on nothing else,
    that Exchange succeeds exactly when its callback published a validated reply,
    that whatever was opened is closed on every path, and that the commands load
    both keys before they touch the network. *)

From S2P Require Import Prelude Wire Header Frame Tlv Utf8 Messages Replay Sha256 Crypto Rekey Session.
From S2P Require Import Handshake Transport Config.

Local Open Scope Z_scope.

(** ** Errors: sentinels, wrapping and errors.Join *)

Inductive AppError :=
  | AppOf (e : error)
  | AppEnvelope | AppIdentityInput | AppNetClosed | AppHelp | AppPanic
  | AppText (text : list byte)
  | AppWrapped (e : AppError)
  | AppJoined (es : list AppError).

#[global] Instance AppError_eq_dec : EqDecision AppError.
Proof.
  refine (fix go (x y : AppError) {struct x} : Decision (x = y) :=
    match x, y with
    | AppOf a, AppOf b => cast_if (decide (a = b))
    | AppEnvelope, AppEnvelope | AppIdentityInput, AppIdentityInput | AppNetClosed, AppNetClosed | AppHelp, AppHelp
    | AppPanic, AppPanic => left _
    | AppText a, AppText b => cast_if (decide (a = b))
    | AppWrapped a, AppWrapped b => cast_if (go a b)
    | AppJoined a, AppJoined b => cast_if (@list_eq_dec _ go a b)
    | _, _ => right _
    end); clear go; abstract congruence.
Defined.

Definition errors_Join (es : list (option AppError)) : option AppError :=
  match omap id es with [] => None | es => Some (AppJoined es) end.

(** errors.Is for the sentinels the examples ask for. *)
Fixpoint is_error (e target : AppError) : bool :=
  bool_decide (e = target) ||
  match e with AppWrapped e => is_error e target | AppJoined es => existsb (λ e, is_error e target) es | _ => false end.

Lemma errors_Join_nil es : errors_Join es = None ↔ Forall (λ e, e = None) es.
Proof.
  unfold errors_Join. induction es as [|[e|] es IH]; cbn; [by split; [constructor|]| |].
  - split; [done|]. by intros [? _]%Forall_cons.
  - rewrite IH, Forall_cons. naive_solver.
Qed.

(** ** echoapp/envelope.go *)

Definition Payload : list byte := ascii_bytes "hello DGProto".
Definition streamID : Z := 1.
Definition requestType : byte := "001"%byte.
Definition replyType : byte := "002"%byte.
Definition payloadField : byte := "001"%byte.
Definition padLength : Z := 16.
Definition operationTimeout : Z := time_Second.

Definition Validate (data : option EncryptedData) (operation : byte) : option AppError :=
  match data with
  | None => Some AppEnvelope
  | Some data =>
      if negb (edStreamID data =? streamID) || negb (bool_decide (edAppMessageType data = operation)) ||
         negb (zlen (edFields data) =? 1)
      then Some AppEnvelope
      else match edFields data with
      | field :: _ =>
          if negb (bool_decide (tlvType field = payloadField)) || negb (bool_decide (tlvValue field = Payload))
          then Some AppEnvelope else None
      | [] => Some AppEnvelope
      end
  end.

(** ** echoapp/server.go: the handler *)

(** What a call that returns an error returned, or its panic. *)
Definition app_result {A} (o : outcome A) : option AppError :=
  match o with Ok _ => None | Err e => Some (AppOf e) | Panic => Some AppPanic end.

(** The SendPaddedAndWait calls and the result of a handler that checks requests
    with [validate]; [send] is what such a call returns. *)
Definition reply_with (validate : option EncryptedData → byte → option AppError)
    (send : EncryptedData → Z → option AppError) (message : Message) : list (EncryptedData * Z) * option AppError :=
  match message with
  | MsgEncryptedData data =>
      match validate (Some data) requestType with
      | Some err => ([], Some err)
      | None =>
      match NewEncryptedData streamID replyType (edFields data) with
      | Ok reply =>
          match ValidateFrameSize reply padLength with
          | Ok _ => ([(reply, padLength)], send reply padLength)
          | o => ([], app_result o)
          end
      | o => ([], app_result o)
      end end
  | _ => ([], None)
  end.

Definition Reply : (EncryptedData → Z → option AppError) → Message → list (EncryptedData * Z) * option AppError :=
  reply_with Validate.

(** ** echoapp/client.go: the handler, the wait and the exchange *)

(** The channel [received] of capacity one; [first] is the choice of the select
    between a free channel and a cancelled context, [full] the error when it holds
    a result already. *)
Definition handler_with (validate : option EncryptedData → byte → option AppError) (full : AppError)
    (ctxErr : option AppError) (first : bool) (message : Message) (received : option (option AppError))
    : option (option AppError) * option AppError :=
  match message with
  | MsgEncryptedData data =>
      let validation := validate (Some data) replyType in
      match received, ctxErr with
      | None, None => (Some validation, validation)
      | None, Some e => if first then (Some validation, validation) else (received, Some e)
      | Some _, Some e => (received, Some e)
      | Some _, None => (received, Some full)
      end
  | _ => (received, None)
  end.

Definition client_handler : option AppError → bool → Message → option (option AppError) →
    option (option AppError) * option AppError := handler_with Validate AppEnvelope.

(** A call of the handler by the runtime: the state of its context, the choice of
    its select, and the message. *)
Record HandlerCall := mkHandlerCall { hcCtx : option AppError; hcFirst : bool; hcMessage : Message }.
Definition Handler := option AppError → bool → Message → option (option AppError) → option (option AppError) * option AppError.

(** What received holds after the calls, one at a time as the runtime makes them. *)
Definition handle_calls (handler : Handler) (calls : list HandlerCall) (received : option (option AppError))
    : option (option AppError) :=
  foldl (λ received c, (handler (hcCtx c) (hcFirst c) (hcMessage c) received).1) received calls.

(** A select over received, the context and Done that takes case [c]; [late] is
    what received holds when Done was taken.  [None]: the case is not ready. *)
Inductive WaitCase := WaitReceived | WaitCancelled | WaitDone.
Record WaitView := mkWaitView {
  wvReceived : option (option AppError); wvCtx : option AppError; wvDone : bool;
  wvLate : option (option AppError); wvTerminal : option AppError;
}.

Definition waitEcho (c : WaitCase) (v : WaitView) : option (option AppError) :=
  match c with
  | WaitReceived => wvReceived v
  | WaitCancelled => match wvCtx v with Some e => Some (Some e) | None => None end
  | WaitDone =>
      if wvDone v then
        match wvLate v with
        | Some err => Some err
        | None => match wvTerminal v with Some e => Some (Some e) | None => Some (Some (AppOf ErrConnectionClosed)) end
        end
      else None
  end.

Definition joinClientClose (operationErr closeErr : option AppError) : option AppError :=
  if bool_decide (operationErr = None) &&
     (bool_decide (closeErr = Some (AppOf EOF)) || bool_decide (closeErr = Some AppNetClosed) ||
      bool_decide (closeErr = Some (AppOf ErrConnectionClosed)))
  then None
  else errors_Join [operationErr; closeErr].

(** The deferred close and join: c.Close(), then Done or the end of three seconds. *)
Definition close_and_join (err closeErr joinErr : option AppError) : option AppError :=
  let err := joinClientClose err closeErr in
  match joinErr with None => err | Some e => errors_Join [err; Some e] end.

Definition echo_request : outcome EncryptedData := NewEncryptedData streamID requestType [mkTLV payloadField Payload].

(** What the calls of Exchange return and what happens around them: ctx.Err,
    DialContext, SendPaddedAndWait; the calls the runtime made to the handler before
    the wait looks at received, and those it made before the second look once Done
    was taken; the case of the wait with the state of the context, of Done and of
    Err; Close and the join. *)
Record ExchangeView := mkExchangeView {
  xvCtx : option AppError; xvDial : list byte → ClientConfig → option AppError; xvSend : EncryptedData → Z → option AppError;
  xvCalls : list HandlerCall; xvLate : list HandlerCall;
  xvCase : WaitCase; xvRuntime : option AppError; xvDone : bool; xvTerminal : option AppError;
  xvClose : option AppError; xvJoin : option AppError;
}.

(** The wait of an exchange whose connection runs [handler] on a fresh channel. *)
Definition exchange_wait (handler : Handler) (v : ExchangeView) : option (option AppError) :=
  let received := handle_calls handler (xvCalls v) None in
  waitEcho (xvCase v) (mkWaitView received (xvRuntime v) (xvDone v) (handle_calls handler (xvLate v) received) (xvTerminal v)).

(** The calls that matter for the result: the dial, the send and the close. *)
Inductive ExchangeCall :=
  | XDial (address : list byte) (config : ClientConfig) | XStart | XSend (m : EncryptedData) (pad : Z) | XWait | XClose.

(** From Start to the wait. *)
Definition request_reply (handler : Handler) (v : ExchangeView) : option (list ExchangeCall * option AppError) :=
  match echo_request with
  | Ok request =>
      match ValidateFrameSize request padLength with
      | Ok _ =>
          match xvSend v request padLength with
          | Some e => Some ([XStart; XSend request padLength], Some e)
          | None => err ← exchange_wait handler v; Some ([XStart; XSend request padLength; XWait], err)
          end
      | o => Some ([XStart], app_result o)
      end
  | o => Some ([XStart], app_result o)
  end.

(** The configuration both programs dial with. *)
Definition echo_client_config (key : StaticKey) (pin : list byte) : ClientConfig :=
  mkClientConfig key pin (mkConnectionConfig 0 0 (2 * time_Second) 0 operationTimeout 0 0 0 true operationTimeout).

(** Dial, and after it the request with the deferred close. *)
Definition dial_exchange (handler : Handler) (v : ExchangeView) (address : list byte) (config : ClientConfig)
    : option (list ExchangeCall * option AppError) :=
  match xvDial v address config with
  | Some e => Some ([XDial address config], Some e)
  | None =>
      '(calls, err) ← request_reply handler v;
      Some (XDial address config :: calls ++ [XClose], close_and_join err (xvClose v) (xvJoin v))
  end.

(** [None] while the select of the wait has no ready case of this choice. *)
Definition Exchange (v : ExchangeView) (address : list byte) (key : StaticKey) (pin : list byte)
    : option (list ExchangeCall * option AppError) :=
  match xvCtx v with
  | Some e => Some ([], Some e)
  | None => dial_exchange client_handler v address (echo_client_config key pin)
  end.

(** ** echoapp/identity.go *)

(** A file: whether it opens, its contents, and the error a read ends with instead
    of EOF. *)
Record FileView := mkFileView { fvOpens : bool; fvData : list byte; fvFails : bool }.

(** io.ReadAll over io.LimitReader: a full limit hides what follows. *)
Definition read_limited (limit : Z) (f : FileView) : list byte * bool :=
  if limit <=? zlen (fvData f) then (take (Z.to_nat limit) (fvData f), false) else (fvData f, fvFails f).

Definition readKey (f : FileView) : list byte + AppError :=
  if negb (fvOpens f) then inr AppIdentityInput else
  let '(data, failed) := read_limited 33 f in
  if failed || negb (zlen data =? 32) || bool_decide (data = make_bytes 32) then inr AppIdentityInput else inl data.

Definition LoadPublic (f : FileView) : list byte + AppError := readKey f.

(** ** echoapp/server.go: NewServer and Serve *)

Section keys.
Context {N : Noise}.

Definition LoadIdentity (f : FileView) : StaticKey + AppError :=
  match readKey f with
  | inr e => inr e
  | inl private => match LoadStaticKey private with Ok key => inl key | Err e => inr (AppOf e) | Panic => inr AppPanic end
  end.

Definition echo_server_config (key : StaticKey) (clientPublic : list byte) : ServerConfig :=
  mkServerConfig key [clientPublic] 0
    (mkConnectionConfig 4 4 (2 * time_Second) 0 operationTimeout (15 * time_Second) 0 0 true operationTimeout)
    4 8 false false.

Definition echo_NewServer (key : StaticKey) (clientPublic : list byte) : ServerConfig + AppError :=
  if negb (zlen clientPublic =? 32) || bool_decide (clientPublic = make_bytes 32) then inr AppIdentityInput else
  match NewServer_config (echo_server_config key clientPublic) with
  | Ok config => inl config
  | Err e => inr (AppOf e)
  | Panic => inr AppPanic
  end.
End keys.

(** The error of a Close that counts. *)
Definition join_close (err closeErr : option AppError) : option AppError :=
  match closeErr with
  | Some e => if is_error e AppNetClosed then err else errors_Join [err; Some e]
  | None => err
  end.

(** How the select of Serve ends: server.Serve returned, or the context ended, and
    then what the closes returned and how the join went. *)
Inductive ServeEnd :=
  | ServeReturned (e : option AppError)
  | ServeCancelled (closeErr listenerErr : option AppError) (joined : option AppError + AppError).
Record ServeView := mkServeView {
  swCtx : option AppError; swEnd : ServeEnd; swClose : option AppError; swListener : option AppError;
}.
Inductive ServeCall := SServe | SCloseServer | SCloseListener | SJoin.

Definition not_server_closed (e : option AppError) : option AppError :=
  match e with Some e => if is_error e (AppOf ErrServerClosed) then None else Some e | None => None end.

Definition serve_body (v : ServeView) : list ServeCall * option AppError :=
  match swCtx v with
  | Some e => ([], Some e)
  | None =>
  match swEnd v with
  | ServeReturned e => ([SServe], not_server_closed e)
  | ServeCancelled closeErr listenerErr joined =>
      let err := match closeErr with Some e => errors_Join [None; Some e] | None => None end in
      let err := join_close err listenerErr in
      let err := match joined with
        | inl None => errors_Join [err; None]
        | inl (Some e) => if is_error e (AppOf ErrServerClosed) then err else errors_Join [err; Some e]
        | inr timeout => errors_Join [err; Some timeout]
        end in
      ([SServe; SCloseServer; SCloseListener; SJoin], err)
  end end.

Definition Serve (v : ServeView) : list ServeCall * option AppError :=
  let '(calls, err) := serve_body v in
  (calls ++ [SCloseServer; SCloseListener], join_close (join_close err (swClose v)) (swListener v)).

(** ** examples/echo/main.go: both peers on loopback *)

Definition demoPayload : list byte := ascii_bytes "hello DGProto".
Definition invalid_demo : AppError := AppText (ascii_bytes "invalid demo application envelope").
Definition duplicate_demo : AppError := AppText (ascii_bytes "duplicate demo echo").

Definition validateEcho (data : option EncryptedData) (messageType : byte) : option AppError :=
  match data with
  | None => Some invalid_demo
  | Some data =>
      if negb (edStreamID data =? streamID) || negb (bool_decide (edAppMessageType data = messageType)) ||
         negb (zlen (edFields data) =? 1)
      then Some invalid_demo
      else match edFields data with
      | field :: _ =>
          if negb (bool_decide (tlvType field = payloadField)) || negb (bool_decide (tlvValue field = demoPayload))
          then Some invalid_demo else None
      | [] => Some invalid_demo
      end
  end.

Definition demo_reply : (EncryptedData → Z → option AppError) → Message → list (EncryptedData * Z) * option AppError :=
  reply_with validateEcho.
Definition demo_handler : option AppError → bool → Message → option (option AppError) →
    option (option AppError) * option AppError := handler_with validateEcho duplicate_demo.

Definition demo_server_config (serverKey clientKey : StaticKey) : ServerConfig :=
  mkServerConfig serverKey [StaticKey_Public clientKey] 0
    (mkConnectionConfig 0 0 (2 * time_Second) 0 operationTimeout 0 0 0 true operationTimeout) 1 1 false false.

(** What the calls of the demo meet: ctx.Err, the random source of the two keys,
    the listener's address, the client's part, and the shutdown of the server. *)
Record DemoView := mkDemoView {
  dmCtx : option AppError; dmServerRandom : list byte; dmClientRandom : list byte;
  dmListen : list byte + AppError; dmExchange : ExchangeView;
  dmClose : option AppError; dmListener : option AppError; dmServe : option AppError + AppError;
}.
Inductive DemoCall :=
  | DGenerate | DNewServer (config : ServerConfig) | DListen | DServe | DClient (c : ExchangeCall)
  | DCloseServer | DCloseListener | DJoin.

(** The deferred shutdown of the server. *)
Definition demo_shutdown (v : DemoView) (err : option AppError) : option AppError :=
  let err := errors_Join [err; dmClose v] in
  let err := join_close err (dmListener v) in
  match dmServe v with
  | inl None => err
  | inl (Some e) => if is_error e (AppOf ErrServerClosed) then err else errors_Join [err; Some e]
  | inr timeout => errors_Join [err; Some timeout]
  end.

Section demo.
Context {N : Noise}.

Definition exchange (v : DemoView) : option (list DemoCall * option AppError) :=
  match dmCtx v with
  | Some e => Some ([], Some e)
  | None =>
  match GenerateStaticKey (dmServerRandom v) with
  | Err e => Some ([DGenerate], Some (AppOf e))
  | Panic => Some ([DGenerate], Some AppPanic)
  | Ok serverKey =>
  match GenerateStaticKey (dmClientRandom v) with
  | Err e => Some ([DGenerate; DGenerate], Some (AppOf e))
  | Panic => Some ([DGenerate; DGenerate], Some AppPanic)
  | Ok clientKey =>
  let config := demo_server_config serverKey clientKey in
  match NewServer_config config with
  | Err e => Some ([DGenerate; DGenerate; DNewServer config], Some (AppOf e))
  | Panic => Some ([DGenerate; DGenerate; DNewServer config], Some AppPanic)
  | Ok _ =>
  match dmListen v with
  | inr e => Some ([DGenerate; DGenerate; DNewServer config; DListen; DCloseServer], errors_Join [Some e; dmClose v])
  | inl address =>
      '(calls, err) ← dial_exchange demo_handler (dmExchange v) address
        (echo_client_config clientKey (StaticKey_Public serverKey));
      Some ([DGenerate; DGenerate; DNewServer config; DListen; DServe] ++ (DClient <$> calls) ++
              [DCloseServer; DCloseListener; DJoin],
            demo_shutdown v err)
  end end end end end.

Definition successOutput : list byte := ascii_bytes "authenticated application echo received" ++ ["010"%byte].

(** [write] is what io.WriteString returns. *)
Definition demo_run (v : DemoView) (write : option AppError) : option (list (list byte) * option AppError) :=
  '(_, err) ← exchange v;
  match err with Some e => Some ([], Some e) | None => Some ([successOutput], write) end.
End demo.

(** ** The flag package, as far as string flags need it *)

(** Cut at the first '=' that is not the first octet of the name. *)
Fixpoint cut_value (s : list byte) : list byte * option (list byte) :=
  match s with
  | [] => ([], None)
  | b :: s => if decide (b = "="%byte) then ([], Some s) else let '(name, value) := cut_value s in (b :: name, value)
  end.

Definition flag_name (arg : list byte) : option (list byte) :=
  match arg with
  | m1 :: c :: rest =>
      if negb (bool_decide (m1 = "-"%byte)) then None else
      Some (if decide (c = "-"%byte) then rest else c :: rest)
  | _ => None
  end.

Definition set_flag (name value : list byte) (values : list (list byte * list byte)) : list (list byte * list byte) :=
  (λ x, if decide (x.1 = name) then (name, value) else x) <$> values.
Definition get_flag (name : list byte) (values : list (list byte * list byte)) : list byte :=
  from_option snd [] (head (filter (λ x, x.1 = name) values)).

Definition bad_flag : AppError := AppText (ascii_bytes "flag").

(** Parse with ContinueOnError: the values and the remaining arguments. *)
Fixpoint flag_Parse (values : list (list byte * list byte)) (args : list (list byte))
    : list (list byte * list byte) * list (list byte) * option AppError :=
  match args with
  | [] => (values, [], None)
  | s :: args =>
      match flag_name s with
      | None => (values, s :: args, None)
      | Some [] => if decide (s = ascii_bytes "--") then (values, args, None) else (values, s :: args, Some bad_flag)
      | Some (first :: rest) =>
          if decide (first = "-"%byte ∨ first = "="%byte) then (values, s :: args, Some bad_flag) else
          let '(name, value) := cut_value rest in
          let name := first :: name in
          if decide (name ∈ values.*1) then
            match value, args with
            | Some v, _ => flag_Parse (set_flag name v values) args
            | None, v :: args => flag_Parse (set_flag name v values) args
            | None, [] => (values, [], Some bad_flag)
            end
          else (values, args, Some (if decide (name = ascii_bytes "help" ∨ name = ascii_bytes "h") then AppHelp else bad_flag))
      end
  end.

(** ** examples/echo-client/main.go, examples/echo-server/main.go *)

Inductive CommandCall :=
  | CmdOpen (path : list byte)
  | CmdExchange (address : list byte) (key : StaticKey) (pin : list byte)
  | CmdListen (address : list byte)
  | CmdServe (config : ServerConfig)
  | CmdCloseServer | CmdCloseListener
  | CmdPrint (text : list byte).

Record CommandView := mkCommandView {
  cvCtx : option AppError; cvFile : list byte → FileView;
  cvExchange : list byte → StaticKey → list byte → option AppError;
  cvListen : list byte → option AppError; cvServe : ServerConfig → option AppError;
  cvCloseServer : option AppError; cvCloseListener : option AppError; cvPrint : list byte → option AppError;
}.

Definition newline_after (s : string) : list byte := ascii_bytes s ++ ["010"%byte].

Definition client_flags : list (list byte * list byte) :=
  [(ascii_bytes "address", ascii_bytes "127.0.0.1:7443"); (ascii_bytes "identity", []); (ascii_bytes "server-pin", [])].
Definition client_usage : list byte :=
  newline_after "Usage: echo-client [options]" ++
  newline_after "  -address string        server TCP address (default 127.0.0.1:7443)" ++
  newline_after "  -identity string       provisioned raw 32-byte private-key file (required)" ++
  newline_after "  -server-pin string     trusted raw 32-byte server public-key file (required)" ++
  newline_after "  -h, -help              show help without loading keys or dialing".

Definition server_flags : list (list byte * list byte) :=
  [(ascii_bytes "listen", ascii_bytes "127.0.0.1:7443"); (ascii_bytes "identity", []); (ascii_bytes "allowed-client", [])].
Definition server_usage : list byte :=
  newline_after "Usage: echo-server [options]" ++
  newline_after "  -listen string         TCP listen address (default 127.0.0.1:7443)" ++
  newline_after "  -identity string       provisioned raw 32-byte private-key file (required)" ++
  newline_after "  -allowed-client string trusted raw 32-byte client public-key file (required)" ++
  newline_after "  -h, -help              show help without loading keys or listening".

Section commands.
Context {N : Noise}.

(** Both key files, in order. *)
Definition load_keys (v : CommandView) (identity public : list byte)
    : list CommandCall * (StaticKey * list byte + AppError) :=
  match LoadIdentity (cvFile v identity) with
  | inr e => ([CmdOpen identity], inr e)
  | inl key =>
      ([CmdOpen identity; CmdOpen public],
       match LoadPublic (cvFile v public) with inr e => inr e | inl pin => inl (key, pin) end)
  end.

Definition client_run (v : CommandView) (args : list (list byte)) : list CommandCall * option AppError :=
  match cvCtx v with
  | Some e => ([], Some e)
  | None =>
  let '(values, rest, err) := flag_Parse client_flags args in
  match err with
  | Some AppHelp => ([CmdPrint client_usage], cvPrint v client_usage)
  | Some _ => ([], Some (AppText (ascii_bytes "invalid client options")))
  | None =>
      let address := get_flag (ascii_bytes "address") values in
      let identity := get_flag (ascii_bytes "identity") values in
      let pinPath := get_flag (ascii_bytes "server-pin") values in
      if negb (zlen rest =? 0) || bool_decide (identity = []) || bool_decide (pinPath = []) || bool_decide (address = [])
      then ([], Some (AppText (ascii_bytes "missing client options"))) else
      match load_keys v identity pinPath with
      | (opens, inr e) => (opens, Some e)
      | (opens, inl (key, pin)) =>
          match cvExchange v address key pin with
          | Some e => (opens ++ [CmdExchange address key pin], Some e)
          | None => (opens ++ [CmdExchange address key pin; CmdPrint successOutput], cvPrint v successOutput)
          end
      end
  end end.

Definition listening : list byte := newline_after "echo server listening".

Definition server_run (v : CommandView) (args : list (list byte)) : list CommandCall * option AppError :=
  match cvCtx v with
  | Some e => ([], Some e)
  | None =>
  let '(values, rest, err) := flag_Parse server_flags args in
  match err with
  | Some AppHelp => ([CmdPrint server_usage], cvPrint v server_usage)
  | Some _ => ([], Some (AppText (ascii_bytes "invalid server options")))
  | None =>
      let address := get_flag (ascii_bytes "listen") values in
      let identity := get_flag (ascii_bytes "identity") values in
      let clientPath := get_flag (ascii_bytes "allowed-client") values in
      if negb (zlen rest =? 0) || bool_decide (identity = []) || bool_decide (clientPath = []) || bool_decide (address = [])
      then ([], Some (AppText (ascii_bytes "missing server options"))) else
      match load_keys v identity clientPath with
      | (opens, inr e) => (opens, Some e)
      | (opens, inl (key, client)) =>
      match echo_NewServer key client with
      | inr e => (opens, Some e)
      | inl config =>
      match cvListen v address with
      | Some e => (opens ++ [CmdListen address; CmdCloseServer], errors_Join [Some e; cvCloseServer v])
      | None =>
      match cvPrint v listening with
      | Some e =>
          (opens ++ [CmdListen address; CmdPrint listening; CmdCloseServer; CmdCloseListener],
           errors_Join [Some e; cvCloseServer v; cvCloseListener v])
      | None => (opens ++ [CmdListen address; CmdPrint listening; CmdServe config], cvServe v config)
      end end end end
  end end.

(** ** The main functions *)

(** The run's error is not printed: a fixed line goes to standard error. *)
Inductive ProgramEnd := Exited (stderr : list byte) (status : Z) | Crashed.

Definition main_end (line : list byte) (err : option AppError) : ProgramEnd :=
  match err with
  | None => Exited [] 0
  | Some AppPanic => Crashed
  | Some _ => Exited line 1
  end.

Definition demo_failure : list byte := newline_after "echo failed".
Definition client_failure : list byte :=
  newline_after "echo client failed (check inputs, trust and server availability)".
Definition server_failure : list byte :=
  newline_after "echo server failed (check inputs and listener availability)".

Definition demo_main (v : DemoView) (write : option AppError) : option (list (list byte) * ProgramEnd) :=
  '(out, err) ← demo_run v write; Some (out, main_end demo_failure err).
Definition client_main (v : CommandView) (args : list (list byte)) : list CommandCall * ProgramEnd :=
  let '(calls, err) := client_run v args in (calls, main_end client_failure err).
Definition server_main (v : CommandView) (args : list (list byte)) : list CommandCall * ProgramEnd :=
  let '(calls, err) := server_run v args in (calls, main_end server_failure err).
End commands.
