(* ===== verification/EchoSpec.v ===== *)
(** * What the echo peers guarantee

    The theorems about Echo.v, and its composition with two sessions. *)

From S2P Require Import Prelude Wire Header Frame Tlv Utf8 Messages Replay Sha256 Crypto Rekey Session.
From S2P Require Import SessionSend SessionReceive SessionPair Handshake Transport ConnectionIO Config Echo.
From S2P Require Import Connection ConnectionSteps ConnectionSafety ConnectionFlow Duplex DuplexSteps DuplexLink.

Local Open Scope Z_scope.
Local Opaque next_key key_confirm.

(** The one message of an operation. *)
Definition envelope (operation : byte) : EncryptedData := mkEncryptedData 1 operation [mkTLV payloadField Payload].

(** ** The envelope *)

Lemma fields_exact (field : TLV) fields payload :
  negb (zlen (field :: fields) =? 1) = false →
  negb (bool_decide (tlvType field = payloadField)) || negb (bool_decide (tlvValue field = payload)) = false →
  field :: fields = [mkTLV payloadField payload].
Proof.
  intros Hl%negb_false_iff%Z.eqb_eq [Ht%negb_false_iff%bool_decide_eq_true Hv%negb_false_iff%bool_decide_eq_true]%orb_false_iff.
  destruct fields; [|unfold zlen in Hl; cbn in Hl; lia]. destruct field. cbn in *. by subst.
Qed.

Lemma Validate_exact data operation : Validate data operation = None ↔ data = Some (envelope operation).
Proof.
  split.
  - destruct data as [[sid t fields]|]; cbn [Validate edStreamID edAppMessageType edFields]; [|done].
    destruct (negb (sid =? streamID)) eqn:Hs; [done|]. destruct (negb (bool_decide (t = operation))) eqn:Ht; [done|].
    destruct (negb (zlen fields =? 1)) eqn:Hl; [done|]. cbn [orb]. destruct fields as [|field fields]; [done|].
    destruct (_ || _) eqn:Hf; [done|]. intros _. rewrite (fields_exact _ _ _ Hl Hf).
    apply negb_false_iff, Z.eqb_eq in Hs as ->. by apply negb_false_iff, bool_decide_eq_true in Ht as ->.
  - intros ->. cbn. by rewrite bool_decide_eq_true_2.
Qed.

(** The loopback demo's check differs in the error only. *)
Lemma validateEcho_Validate data operation : validateEcho data operation = (λ _, invalid_demo) <$> Validate data operation.
Proof.
  unfold validateEcho, Validate. destruct data as [data|]; [|done]. destruct (_ || _); [done|].
  destruct (edFields data); [done|]. change demoPayload with Payload. by destruct (_ || _).
Qed.

Lemma validateEcho_exact data operation : validateEcho data operation = None ↔ data = Some (envelope operation).
Proof. rewrite validateEcho_Validate, <- Validate_exact. by destruct (Validate data operation). Qed.

#[global] Instance EncryptedData_eq_dec : EqDecision EncryptedData.
Proof. solve_decision. Defined.

Lemma build_envelope operation : NewEncryptedData streamID operation [mkTLV payloadField Payload] = Ok (envelope operation).
Proof. reflexivity. Qed.

Lemma envelope_fits operation : ValidateFrameSize (envelope operation) padLength = Ok tt.
Proof. reflexivity. Qed.

(** A check that passes the envelope and nothing else, with the error [bad]. *)
Definition checks_envelope (validate : option EncryptedData → byte → option AppError) (bad : AppError) : Prop :=
  ∀ data operation, validate data operation = if decide (data = Some (envelope operation)) then None else Some bad.

Lemma Validate_checks : checks_envelope Validate AppEnvelope.
Proof.
  intros data operation. pose proof (Validate_exact data operation) as Hv. case_decide as Hd; [by apply Hv|].
  destruct (Validate data operation) as [e|] eqn:He; [|by destruct Hd; apply Hv]. f_equal.
  unfold Validate in He. by repeat case_match; simplify_eq.
Qed.

Lemma validateEcho_checks : checks_envelope validateEcho invalid_demo.
Proof. intros data operation. rewrite validateEcho_Validate, Validate_checks. by case_decide. Qed.

(** The handler answers the request with the reply, refuses other data, and leaves
    control messages to the runtime. *)
Lemma reply_with_exact validate bad send message :
  checks_envelope validate bad →
  reply_with validate send message =
  match message with
  | MsgEncryptedData data =>
      if decide (data = envelope requestType)
      then ([(envelope replyType, padLength)], send (envelope replyType) padLength) else ([], Some bad)
  | _ => ([], None)
  end.
Proof.
  intros Hv. destruct message as [data|m|m|m|m|m]; try done. cbn [reply_with]. rewrite Hv.
  destruct (decide (data = envelope requestType)) as [->|Hne].
  - rewrite decide_True by done. change (edFields (envelope requestType)) with [mkTLV payloadField Payload].
    by rewrite build_envelope, envelope_fits.
  - rewrite decide_False by congruence. done.
Qed.

(** A handler call that reaches the channel when it is free. *)
Definition publishes (c : HandlerCall) : Prop :=
  (∃ data, hcMessage c = MsgEncryptedData data) ∧ (hcCtx c = None ∨ hcFirst c = true).

(** The first call that publishes got the reply. *)
Definition answered (calls : list HandlerCall) : Prop :=
  ∃ pre c post, calls = pre ++ c :: post ∧ Forall (λ c, ¬ publishes c) pre ∧ publishes c ∧
    hcMessage c = MsgEncryptedData (envelope replyType).

(** One call: a result in the channel stays, and into a free one goes success for a
    valid envelope and the error for other data. *)
Lemma handler_with_exact validate bad full ctxErr first message received :
  checks_envelope validate bad →
  (handler_with validate full ctxErr first message received).1 =
  match received, message with
  | None, MsgEncryptedData data =>
      if decide (ctxErr = None ∨ first = true) then Some (if decide (data = envelope replyType) then None else Some bad) else None
  | _, _ => received
  end.
Proof.
  intros Hv. destruct message as [data|m|m|m|m|m]; cbn [handler_with fst]; try (by destruct received). cbv zeta. rewrite Hv.
  assert ((if decide (Some data = Some (envelope replyType)) then None else Some bad) =
    (if decide (data = envelope replyType) then None else Some bad)) as -> by (repeat case_decide; naive_solver).
  destruct received as [r|], ctxErr as [e|], first; cbn [fst]; try done;
    (rewrite (decide_True (P := _ ∨ _)) by auto) || (rewrite (decide_False (P := _ ∨ _)) by naive_solver); done.
Qed.

Lemma handle_calls_full validate bad full calls r :
  checks_envelope validate bad → handle_calls (handler_with validate full) calls (Some r) = Some r.
Proof.
  intros Hv. induction calls as [|c calls IH]; [done|]. unfold handle_calls in *. cbn [foldl].
  by rewrite (handler_with_exact _ _ _ _ _ _ _ Hv).
Qed.

(** The channel holds success exactly when the first call that published got the reply. *)
Lemma handle_calls_answered validate bad full calls :
  checks_envelope validate bad → handle_calls (handler_with validate full) calls None = Some None ↔ answered calls.
Proof.
  intros Hv. induction calls as [|c calls IH].
  { split; [done|]. by intros ([|? ?] & ? & ? & ? & _). }
  unfold handle_calls. cbn [foldl]. fold (handle_calls (handler_with validate full) calls).
  rewrite (handler_with_exact _ _ _ _ _ _ _ Hv).
  assert (¬ publishes c → answered (c :: calls) ↔ answered calls) as Hskip.
  { intros Hc. split.
    - intros ([|c' pre] & c0 & post & Heq & Hpre & Hp & Hm); injection Heq as -> Heq; [done|].
      exists pre, c0, post. by apply Forall_cons in Hpre as [_ ?].
    - intros (pre & c0 & post & -> & Hpre & Hp & Hm). exists (c :: pre), c0, post. split_and!; try done. by constructor. }
  destruct (decide (hcCtx c = None ∨ hcFirst c = true)) as [Hf|Hf].
  2: { rewrite Hskip by (by intros [_ ?]). rewrite <- IH. by destruct (hcMessage c). }
  destruct (hcMessage c) as [data|m|m|m|m|m] eqn:Hm;
    try (rewrite Hskip by (intros [[? ?] _]; congruence); by rewrite <- IH).
  change (foldl _ ?r calls) with (handle_calls (handler_with validate full) calls r). rewrite (handle_calls_full _ _ _ _ _ Hv).
  assert (publishes c) as Hp by (split; [by exists data|done]). split.
  - case_decide as Hd; [|done]. intros _. exists [], c, calls. by rewrite Hm, Hd.
  - intros ([|c' pre] & c0 & post & Heq & Hpre & _ & Hm'); injection Heq as -> Heq.
    + rewrite Hm in Hm'. injection Hm' as ->. by rewrite decide_True.
    + by apply Forall_cons in Hpre as [[] _].
Qed.

Lemma handle_calls_silent validate bad full calls :
  checks_envelope validate bad →
  handle_calls (handler_with validate full) calls None = None ↔ Forall (λ c, ¬ publishes c) calls.
Proof.
  intros Hv. induction calls as [|c calls IH]; [by split|]. rewrite Forall_cons, <- IH. unfold handle_calls at 1. cbn [foldl].
  change (foldl _ ?r calls) with (handle_calls (handler_with validate full) calls r).
  rewrite (handler_with_exact _ _ _ _ _ _ _ Hv). unfold publishes.
  destruct (hcMessage c) as [data|m|m|m|m|m]; [|split; [intros ?; split; [intros [[? ?] _]|]|intros [_ ?]]; done..].
  case_decide as Hf; [|split; [|by intros [_ ?]]; intros ?; split; [by intros [_ ?]|done]].
  rewrite (handle_calls_full _ _ _ _ _ Hv). split; [done|]. intros [[] _]. split; [by exists data|done].
Qed.

(** ** The other direction of a pair *)

(** A step from [A] to [B] leaves the direction from [B] to [A] in step. *)
Lemma pair_step_back {aead : AEAD} {laws : AEADLaws} x A B :
  in_sync B A → let '(A', B', _) := pair_step x A B in in_sync B' A'.
Proof.
  intros HBA. unfold pair_step.
  destruct (Session_Send _ _ _ _ A) as [A1 [f|e|]] eqn:HA; apply Send_receiver_half in HA as [HA Hc];
    [|by eapply in_sync_receiver..].
  destruct (Session_Receive _ f B) as [B1 o] eqn:HB. apply Receive_sender_half in HB as [HB _].
  assert (in_sync B1 A1) by (eapply in_sync_sender; [done|by eapply in_sync_receiver]).
  destruct (is_rekey f); [|done]. destruct (Session_MarkRekeySent _ f A1) as [A2 o'] eqn:HM.
  apply Mark_receiver_half in HM as [HM Hc']. by eapply in_sync_receiver.
Qed.

(** Traffic between two peers, each step from the first ([true]) or from the second. *)
Fixpoint pair_talk {aead : AEAD} (xs : list (bool * PairSend)) (A B : Session) : Session * Session :=
  match xs with
  | [] => (A, B)
  | (true, x) :: xs => let '(A1, B1, _) := pair_step x A B in pair_talk xs A1 B1
  | (false, x) :: xs => let '(B1, A1, _) := pair_step x B A in pair_talk xs A1 B1
  end.

Lemma pair_talk_sync {aead : AEAD} {laws : AEADLaws} xs : ∀ A B,
  in_sync A B → in_sync B A → Forall (λ x, pair_typed x.2) xs →
  let '(A', B') := pair_talk xs A B in in_sync A' B' ∧ in_sync B' A'.
Proof.
  induction xs as [|[[] x] xs IH]; intros A B HAB HBA Hall; [done|..]; cbn [pair_talk];
    apply Forall_cons in Hall as [Hx Hall]; cbn [snd] in Hx.
  - pose proof (pair_step_sync x A B HAB Hx) as H. pose proof (pair_step_back x A B HBA) as H'.
    destruct (pair_step x A B) as [[A1 B1] ev]. destruct H. by apply IH.
  - pose proof (pair_step_sync x B A HBA Hx) as H. pose proof (pair_step_back x B A HAB) as H'.
    destruct (pair_step x B A) as [[B1 A1] ev]. destruct H. by apply IH.
Qed.

(** Neither counter of the sending direction is used up. *)
Definition counters_left {aead : AEAD} (s : Session) : Prop :=
  sNextSequence (sessSend s) ≠ 0 ∧ sSendEpoch (sessSend s) < 2 ^ 32 - 1.

Lemma envelope_ready {aead : AEAD} A B op entropy :
  in_sync A B → in_sync B A → op ∈ [requestType; replyType] → counters_left A → padLength ≤ zlen entropy →
  ready A (ByPointer (MsgEncryptedData (envelope op))) padLength entropy.
Proof.
  intros HAB HBA Hop [Hn He] Hent. split; [split; [apply (sync_open _ _ HBA)|apply (sync_idle _ _ HAB)]|].
  split_and!; try done. rewrite !elem_of_cons in Hop. destruct Hop as [->|[->|[]%not_elem_of_nil]];
    eexists _, _, _; (split; [reflexivity|]); (split; [vm_compute; reflexivity|unfold frame_fits; by apply Z.leb_le; vm_compute]).
Qed.

(** ** Exchange *)

(** The close errors that do not undo a validated reply. *)
Definition benign (closeErr : option AppError) : Prop :=
  closeErr = None ∨ closeErr = Some (AppOf EOF) ∨ closeErr = Some AppNetClosed ∨ closeErr = Some (AppOf ErrConnectionClosed).

(** The wait takes a published success: from the channel, or once Done was taken. *)
Definition validated (v : ExchangeView) : Prop :=
  xvCase v = WaitReceived ∧ answered (xvCalls v) ∨
  xvCase v = WaitDone ∧ xvDone v = true ∧ answered (xvCalls v ++ xvLate v).

Lemma exchange_wait_nil validate bad full v :
  checks_envelope validate bad → exchange_wait (handler_with validate full) v = Some None ↔ validated v.
Proof.
  intros Hv. unfold validated. rewrite <- !(handle_calls_answered _ _ full _ Hv). unfold exchange_wait, handle_calls.
  rewrite foldl_app. destruct (xvCase v); cbn [waitEcho wvReceived wvCtx wvDone wvLate wvTerminal]; [naive_solver| |].
  - destruct (xvRuntime v); naive_solver.
  - set (r := foldl _ _ (xvLate v)). destruct (xvDone v), r, (xvTerminal v); naive_solver.
Qed.

(** The case the wait would take is not ready. *)
Definition waiting (v : ExchangeView) : Prop :=
  match xvCase v with
  | WaitReceived => Forall (λ c, ¬ publishes c) (xvCalls v)
  | WaitCancelled => xvRuntime v = None
  | WaitDone => xvDone v = false
  end.

Lemma exchange_wait_blocks validate bad full v :
  checks_envelope validate bad → exchange_wait (handler_with validate full) v = None → waiting v.
Proof.
  intros Hv. unfold exchange_wait, waiting. destruct (xvCase v); cbn [waitEcho wvReceived wvCtx wvDone wvLate wvTerminal].
  - apply (handle_calls_silent _ _ full _ Hv).
  - by destruct (xvRuntime v).
  - destruct (xvDone v); [|done]. destruct (handle_calls _ (xvLate v) _), (xvTerminal v); done.
Qed.

Lemma joinClientClose_nil err closeErr : joinClientClose err closeErr = None ↔ err = None ∧ benign closeErr.
Proof.
  unfold joinClientClose, benign. destruct (_ && _) eqn:Hb.
  - apply andb_true_iff in Hb as [He%bool_decide_eq_true Hb]. rewrite !orb_true_iff, !bool_decide_eq_true in Hb. naive_solver.
  - rewrite errors_Join_nil, !Forall_cons. split; [naive_solver|]. intros [-> Hc]. rewrite bool_decide_eq_true_2 in Hb by done.
    cbn in Hb. rewrite !orb_false_iff, !bool_decide_eq_false in Hb. destruct Hc as [->|Hc]; [by repeat constructor|naive_solver].
Qed.

Lemma close_and_join_nil err closeErr joinErr :
  close_and_join err closeErr joinErr = None ↔ err = None ∧ benign closeErr ∧ joinErr = None.
Proof.
  unfold close_and_join. destruct joinErr as [e|].
  - rewrite errors_Join_nil, !Forall_cons. naive_solver.
  - rewrite joinClientClose_nil. naive_solver.
Qed.

Lemma request_reply_exact handler v :
  request_reply handler v =
  match xvSend v (envelope requestType) padLength with
  | Some e => Some ([XStart; XSend (envelope requestType) padLength], Some e)
  | None => err ← exchange_wait handler v; Some ([XStart; XSend (envelope requestType) padLength; XWait], err)
  end.
Proof. unfold request_reply, echo_request. by rewrite build_envelope, envelope_fits. Qed.

(** The client's part of both programs. *)
Definition client_ok (v : ExchangeView) (address : list byte) (config : ClientConfig) : Prop :=
  xvDial v address config = None ∧ xvSend v (envelope requestType) padLength = None ∧ validated v ∧
  benign (xvClose v) ∧ xvJoin v = None.

Section client.
Context (validate : option EncryptedData → byte → option AppError) (bad full : AppError).
Hypothesis (Hvalid : checks_envelope validate bad).
Let handler : Handler := handler_with validate full.

Lemma request_reply_nil v calls err :
  request_reply handler v = Some (calls, err) →
  (err = None ↔ xvSend v (envelope requestType) padLength = None ∧ validated v) ∧ XClose ∉ calls.
Proof.
  rewrite request_reply_exact, <- (exchange_wait_nil _ _ full _ Hvalid). destruct (xvSend _ _ _) as [e|].
  - intros [= <- <-]. split; [naive_solver|]. rewrite !not_elem_of_cons. by repeat split; [..|apply not_elem_of_nil].
  - intros (err' & Hw & [= <- <-])%bind_Some. unfold handler in Hw. rewrite Hw. split; [naive_solver|].
    rewrite !not_elem_of_cons. by repeat split; [..|apply not_elem_of_nil].
Qed.

Lemma dial_exchange_exact v address config calls err :
  dial_exchange handler v address config = Some (calls, err) →
  (err = None ↔ client_ok v address config) ∧
  match xvDial v address config with
  | Some e => calls = [XDial address config] ∧ err = Some e
  | None => ∃ calls', calls = XDial address config :: calls' ++ [XClose] ∧ XClose ∉ calls'
  end.
Proof.
  unfold dial_exchange, client_ok.
  destruct (xvDial v address config) as [e|]; [intros [= <- <-]; split; [split; [done|by intros [? _]]|done]|].
  intros ([calls' err'] & Hr & [= <- <-])%bind_Some. apply request_reply_nil in Hr as [Hr Hc].
  rewrite close_and_join_nil, Hr. split; [naive_solver|]. by exists calls'.
Qed.

Lemma dial_exchange_blocks v address config :
  dial_exchange handler v address config = None →
  xvDial v address config = None ∧ xvSend v (envelope requestType) padLength = None ∧ waiting v.
Proof.
  unfold dial_exchange. destruct (xvDial v address config) as [e|]; [done|].
  destruct (request_reply handler v) as [[calls err]|] eqn:Hr; [done|]. intros _. rewrite request_reply_exact in Hr.
  destruct (xvSend _ _ _) as [e|]; [done|]. split_and!; try done. apply (exchange_wait_blocks _ _ full _ Hvalid).
  unfold handler in Hr. by destruct (exchange_wait _ v).
Qed.
End client.

(** What the dialled configuration must be to get past its checks. *)
Lemma echo_client_config_ok {N : Noise} key pin :
  normalizeClientConfig (echo_client_config key pin) =
    (_ ← StaticKey_validate key;
     if bool_decide (zlen pin = 32 ∧ allZero pin = false) then Ok (echo_client_config key pin) else Err ErrInvalidClientConfig).
Proof.
  unfold normalizeClientConfig. cbn [echo_client_config clStaticKey clServerStatic clConnection].
  destruct (StaticKey_validate key) as [[]| |]; [|done..]. cbn [mbind outcome_bind]. unfold noiseKeySize.
  destruct (zlen pin =? 32) eqn:Hl; [apply Z.eqb_eq in Hl|apply Z.eqb_neq in Hl]; destruct (allZero pin); cbn [negb orb];
    (rewrite bool_decide_eq_true_2 by done) || (rewrite bool_decide_eq_false_2 by naive_solver); reflexivity.
Qed.

Lemma join_close_nil err closeErr :
  join_close err closeErr = None ↔ err = None ∧ ∀ e, closeErr = Some e → is_error e AppNetClosed = true.
Proof.
  unfold join_close. destruct closeErr as [e|]; [|naive_solver].
  destruct (is_error e AppNetClosed) eqn:He.
  - split; [|by intros [? _]]. intros ->. split; [done|]. by intros e' [= <-].
  - rewrite errors_Join_nil, !Forall_cons. split; [by intros (_ & ? & _)|]. intros [_ Hc]. by rewrite (Hc e eq_refl) in He.
Qed.

(** ** The loopback demo *)

Definition shutdown_ok (v : DemoView) : Prop :=
  dmClose v = None ∧ (∀ e, dmListener v = Some e → is_error e AppNetClosed = true) ∧
  (dmServe v = inl None ∨ ∃ e, dmServe v = inl (Some e) ∧ is_error e (AppOf ErrServerClosed) = true).

Lemma demo_shutdown_nil v err : demo_shutdown v err = None ↔ err = None ∧ shutdown_ok v.
Proof.
  assert (join_close (errors_Join [err; dmClose v]) (dmListener v) = None ↔
    err = None ∧ dmClose v = None ∧ ∀ e, dmListener v = Some e → is_error e AppNetClosed = true) as Hj.
  { rewrite join_close_nil, errors_Join_nil, !Forall_cons. split; [intros ((? & ? & _) & ?)|intros (? & ? & ?)]; by repeat constructor. }
  unfold demo_shutdown, shutdown_ok. destruct (dmServe v) as [[e|]|e].
  - destruct (is_error e (AppOf ErrServerClosed)) eqn:He.
    + rewrite Hj. split; [|tauto]. intros (? & ? & ?). split_and!; try done. right. by exists e.
    + rewrite errors_Join_nil, !Forall_cons. split; [by intros (_ & ? & _)|]. intros (_ & _ & _ & [?|(e' & [= <-] & ?)]); congruence.
  - rewrite Hj. split; [|tauto]. intros (? & ? & ?). split_and!; try done. by left.
  - rewrite errors_Join_nil, !Forall_cons. split; [by intros (_ & ? & _)|]. intros (_ & _ & _ & [?|(e' & ? & _)]); congruence.
Qed.

Lemma demo_server_config_exact {N : Noise} k c :
  NewServer_config (demo_server_config k c) =
    (_ ← StaticKey_validate k;
     Ok (mkServerConfig k [StaticKey_Public c] CipherChaCha20Poly1305
           (mkConnectionConfig 16 16 (2 * time_Second) 0 operationTimeout 0 0 0 true operationTimeout) 1 1 false false)).
Proof. unfold NewServer_config. cbn [demo_server_config svStaticKey]. by destruct (StaticKey_validate k) as [[]| |]. Qed.

(** ** Serve *)

Definition close_counts_not (closeErr : option AppError) : Prop := ∀ e, closeErr = Some e → is_error e AppNetClosed = true.
Definition serve_ended (e : option AppError) : Prop := ∀ e', e = Some e' → is_error e' (AppOf ErrServerClosed) = true.
Definition serve_end_ok (end_ : ServeEnd) : Prop :=
  match end_ with
  | ServeReturned e => serve_ended e
  | ServeCancelled closeErr listenerErr joined =>
      closeErr = None ∧ close_counts_not listenerErr ∧ ∃ e, joined = inl e ∧ serve_ended e
  end.

Lemma not_server_closed_nil e : not_server_closed e = None ↔ serve_ended e.
Proof.
  unfold serve_ended. destruct e as [e|]; cbn; [|by split].
  destruct (is_error e _) eqn:He; (split; [done || by intros _ e' [= <-]|]); [done|].
  intros Hs. by rewrite (Hs e eq_refl) in He.
Qed.

Lemma join_two_nil (a b : option AppError) : errors_Join [a; b] = None ↔ a = None ∧ b = None.
Proof. rewrite errors_Join_nil, !Forall_cons. split; [by intros (? & ? & _)|]. intros []. by repeat constructor. Qed.

Lemma serve_body_nil v : (serve_body v).2 = None ↔ swCtx v = None ∧ serve_end_ok (swEnd v).
Proof.
  unfold serve_body. destruct (swCtx v) as [e|]; [by split; [|intros [? _]]|].
  destruct (swEnd v) as [e|closeErr listenerErr joined]; cbn [snd serve_end_ok].
  { rewrite not_server_closed_nil. tauto. }
  set (err := match closeErr with Some e => _ | None => None end).
  assert (join_close err listenerErr = None ↔ closeErr = None ∧ close_counts_not listenerErr) as Hj.
  { rewrite join_close_nil. unfold err, close_counts_not. destruct closeErr as [e|]; [|tauto]. rewrite join_two_nil. naive_solver. }
  destruct joined as [[e|]|e].
  - pose proof (not_server_closed_nil (Some e)) as He. cbn in He. destruct (is_error e _).
    + rewrite Hj. destruct He as [He _]. specialize (He eq_refl). split; [|tauto]. intros []. split_and!; try done. by exists (Some e).
    + rewrite join_two_nil. split; [by intros [_ ?]|]. intros (_ & _ & _ & e' & [= <-] & Hs%He). done.
  - rewrite join_two_nil, Hj. split; [|tauto]. intros [[] _]. split_and!; try done. by exists None.
  - rewrite join_two_nil. split; [by intros [_ ?]|]. by intros (_ & _ & _ & e' & ? & _).
Qed.

(** ** Options *)

Definition option_name (name : list byte) : Prop :=
  match name with b :: rest => b ≠ "-"%byte ∧ b ≠ "="%byte ∧ "="%byte ∉ rest | [] => False end.
Definition option_arg (x : list byte * list byte) : list byte := ["-"%byte] ++ x.1 ++ ["="%byte] ++ x.2.

Lemma cut_value_at name value : "="%byte ∉ name → cut_value (name ++ "="%byte :: value) = (name, Some value).
Proof.
  induction name as [|b name IH]; intros Hn; cbn; [done|]. apply not_elem_of_cons in Hn as [Hb Hn].
  by rewrite decide_False, IH.
Qed.

Lemma set_flag_keys name value values : (set_flag name value values).*1 = values.*1.
Proof.
  unfold set_flag. rewrite <- list_fmap_compose. apply list_fmap_ext. intros i [n x] _. cbn. by case_decide.
Qed.

(** Options given as -name=value, in any order: each sets its value, the last wins. *)
Lemma flag_Parse_options opts rest : ∀ values,
  Forall option_name (values.*1) → Forall (λ x, x.1 ∈ values.*1) opts →
  flag_Parse values ((option_arg <$> opts) ++ rest) = flag_Parse (foldl (λ vs x, set_flag x.1 x.2 vs) values opts) rest.
Proof.
  induction opts as [|[name value] opts IH]; intros values Hv Ho; [done|]. apply Forall_cons in Ho as [Hin Ho].
  cbn [fst] in Hin. pose proof (proj1 (Forall_forall _ _) Hv _ Hin) as Hn.
  destruct name as [|b name]; [done|]. destruct Hn as (H1 & H2 & H3).
  change ((option_arg <$> (b :: name, value) :: opts) ++ rest) with
    (option_arg (b :: name, value) :: ((option_arg <$> opts) ++ rest)).
  cbn [flag_Parse option_arg app fst snd flag_name]. rewrite bool_decide_eq_true_2 by done. cbn [negb].
  rewrite decide_False by done. rewrite decide_False by naive_solver. rewrite cut_value_at by done.
  rewrite decide_True by done. cbn [foldl fst snd]. apply IH; by rewrite set_flag_keys.
Qed.

Lemma client_flags_names : Forall option_name (client_flags.*1).
Proof. repeat constructor; by apply (bool_decide_unpack _). Qed.
Lemma server_flags_names : Forall option_name (server_flags.*1).
Proof. repeat constructor; by apply (bool_decide_unpack _). Qed.

(** ** Key files *)

Lemma readKey_exact f data :
  readKey f = inl data ↔ fvOpens f = true ∧ fvFails f = false ∧ fvData f = data ∧ zlen data = 32 ∧ data ≠ make_bytes 32.
Proof.
  unfold readKey, read_limited. destruct (fvOpens f); cbn [negb]; [|naive_solver].
  destruct (33 <=? zlen (fvData f)) eqn:Hl.
  - apply Z.leb_le in Hl. assert (zlen (take (Z.to_nat 33) (fvData f)) = 33) as -> by (apply zlen_take; lia).
    cbn. split; [done|]. intros (_ & _ & <- & ? & _). lia.
  - destruct (fvFails f); cbn [orb]; [naive_solver|].
    destruct (zlen (fvData f) =? 32) eqn:H32; cbn [negb orb]; [|split; [done|]; intros (_ & _ & <- & ? & _); lia].
    apply Z.eqb_eq in H32. case_bool_decide; naive_solver.
Qed.

(** ** The commands *)

Section commands.
Context {N : Noise}.

(** The server of the example admits one client. *)
Lemma echo_NewServer_exact key client config :
  echo_NewServer key client = inl config →
  StaticKey_validate key = Ok tt ∧ svStaticKey config = key ∧ svAllowedClients config = [client] ∧
  svCipherSuite config = CipherChaCha20Poly1305 ∧ svMaxConcurrentHandshakes config = 4 ∧ svMaxActiveConnections config = 8.
Proof.
  unfold echo_NewServer. destruct (_ || _); [done|]. unfold NewServer_config. cbn.
  destruct (StaticKey_validate key) as [[]|e|]; cbn; [|done..]. by intros [= <-].
Qed.

Lemma load_keys_exact v identity public :
  let '(opens, keys) := load_keys v identity public in
  match keys with
  | inr _ => opens = [CmdOpen identity] ∨ opens = [CmdOpen identity; CmdOpen public]
  | inl (key, pin) => opens = [CmdOpen identity; CmdOpen public] ∧ LoadIdentity (cvFile v identity) = inl key ∧
      fvData (cvFile v public) = pin ∧ zlen pin = 32 ∧ pin ≠ make_bytes 32
  end.
Proof.
  unfold load_keys. destruct (LoadIdentity _) as [key|e]; [|by left].
  unfold LoadPublic. destruct (readKey (cvFile v public)) as [pin|e] eqn:Hp; [|by right].
  apply readKey_exact in Hp as (_ & _ & ? & ? & ?). by split_and!.
Qed.

Lemma client_run_cases v args :
  let '(calls, err) := client_run v args in
  calls = [] ∧ err ≠ None ∨
  calls = [CmdPrint client_usage] ∧ (flag_Parse client_flags args).2 = Some AppHelp ∧ cvCtx v = None ∨
  (∃ identity pinPath, cvCtx v = None ∧ (flag_Parse client_flags args).2 = None ∧ err ≠ None ∧
     (calls = [CmdOpen identity] ∨ calls = [CmdOpen identity; CmdOpen pinPath])) ∨
  ∃ identity pinPath address key pin more, cvCtx v = None ∧ (flag_Parse client_flags args).2 = None ∧
    calls = CmdOpen identity :: CmdOpen pinPath :: CmdExchange address key pin :: more ∧
    LoadIdentity (cvFile v identity) = inl key ∧ fvData (cvFile v pinPath) = pin ∧ zlen pin = 32 ∧ pin ≠ make_bytes 32 ∧
    (cvExchange v address key pin ≠ None ∧ more = [] ∧ err ≠ None ∨
     cvExchange v address key pin = None ∧ more = [CmdPrint successOutput]).
Proof.
  unfold client_run. destruct (cvCtx v) as [e|]; [by left|].
  destruct (flag_Parse client_flags args) as [[values rest] err]. cbn [snd].
  destruct err as [e|]; [destruct e; first [left; split; done|right; left; split_and!; done]|]. destruct (_ || _); [by left|].
  pose proof (load_keys_exact v (get_flag (ascii_bytes "identity") values) (get_flag (ascii_bytes "server-pin") values)) as Hk.
  destruct (load_keys v _ _) as [opens [[key pin]|e]]; [|right; right; left; by eauto 10].
  destruct Hk as (-> & Hi & Hp & Hl & Hz).
  destruct (cvExchange v (get_flag (ascii_bytes "address") values) key pin) as [e|] eqn:Hx; right; right; right;
  exists (get_flag (ascii_bytes "identity") values), (get_flag (ascii_bytes "server-pin") values),
    (get_flag (ascii_bytes "address") values), key, pin; eexists; (split_and!; try done); rewrite Hx; [by left|by right].
Qed.
(** The server command listens only with both keys and an allow list of one, and
    whatever it created it serves or closes. *)
Lemma server_run_exact v args address :
  let '(calls, err) := server_run v args in
  CmdListen address ∈ calls →
  ∃ identity clientPath key config more, calls = CmdOpen identity :: CmdOpen clientPath :: CmdListen address :: more ∧
    LoadIdentity (cvFile v identity) = inl key ∧ zlen (fvData (cvFile v clientPath)) = 32 ∧
    echo_NewServer key (fvData (cvFile v clientPath)) = inl config ∧
    svAllowedClients config = [fvData (cvFile v clientPath)] ∧
    (more = [CmdCloseServer] ∨ more = [CmdPrint listening; CmdCloseServer; CmdCloseListener] ∨
     more = [CmdPrint listening; CmdServe config]).
Proof.
  unfold server_run. destruct (cvCtx v) as [e|]; [by intros ?%not_elem_of_nil|].
  destruct (flag_Parse server_flags args) as [[values rest] err].
  destruct err as [e|]; [destruct e; set_solver|]. destruct (_ || _); [set_solver|].
  pose proof (load_keys_exact v (get_flag (ascii_bytes "identity") values) (get_flag (ascii_bytes "allowed-client") values)) as Hk.
  destruct (load_keys v _ _) as [opens [[key client]|e]]; [|destruct Hk as [->| ->]; set_solver].
  destruct Hk as (-> & Hi & Hp & Hl & Hz). destruct (echo_NewServer key client) as [config|e] eqn:Hs; [|set_solver].
  destruct (echo_NewServer_exact _ _ _ Hs) as (_ & _ & Ha & _).
  destruct (cvListen v _) as [e|]; [|destruct (cvPrint v listening) as [e|]]; intros Hin;
    (assert (address = get_flag (ascii_bytes "listen") values) as -> by set_solver);
    exists (get_flag (ascii_bytes "identity") values), (get_flag (ascii_bytes "allowed-client") values), key, config; eexists;
    rewrite Hp; split_and!; eauto.
Qed.

Lemma server_run_prints v args text :
  CmdPrint text ∈ (server_run v args).1 → text = server_usage ∨ text = listening.
Proof.
  unfold server_run. destruct (cvCtx v) as [e|]; [by intros ?%not_elem_of_nil|].
  destruct (flag_Parse server_flags args) as [[values rest] err].
  destruct err as [e|]; [destruct e; set_solver|]. destruct (_ || _); [set_solver|].
  pose proof (load_keys_exact v (get_flag (ascii_bytes "identity") values) (get_flag (ascii_bytes "allowed-client") values)) as Hk.
  destruct (load_keys v _ _) as [opens [[key client]|e]]; [|destruct Hk as [->| ->]; set_solver].
  destruct Hk as (-> & _). destruct (echo_NewServer key client) as [config|e]; [|set_solver].
  destruct (cvListen v _) as [e|]; [set_solver|]. destruct (cvPrint v listening) as [e|]; set_solver.
Qed.
End commands.

(** ** Properties *)

(** C28: After any traffic between two sessions of one handshake whose counters are not used up,
    the echo request and the reply arrive intact when no rekey is due in their direction (if one
    is due, it goes first); the server answers the request with that reply and the client
    publishes it as success. *)
Theorem echo_over_sessions {aead : AEAD} {laws : AEADLaws} suite sid k1 k2 nowC nowS cl0 sv0 xs request reply send first :
  zlen sid = 16 →
  NewSession suite (mkHandshakeSecrets sid k1 k2) nowC = Ok cl0 →
  NewSession suite (mkHandshakeSecrets sid k2 k1) nowS = Ok sv0 →
  Forall (λ x, pair_typed x.2) xs →
  Ok (psMessage request) = (λ m, ByPointer (MsgEncryptedData m)) <$> echo_request →
  psPadLength request = padLength → padLength ≤ zlen (psEntropy request) →
  psMessage reply = ByPointer (MsgEncryptedData (envelope replyType)) →
  psPadLength reply = padLength → padLength ≤ zlen (psEntropy reply) →
  let '(cl, sv) := pair_talk xs cl0 sv0 in
  counters_left cl → counters_left sv →
  let due_cl := rekeyDueLocked (psSendClock request) (sessSend cl) in
  let due_sv := rekeyDueLocked (psSendClock reply) (sessSend sv) in
  let '(cl1, sv1, ev) := pair_step request cl sv in
  let '(sv2, cl2, ev') := pair_step reply sv1 cl1 in
  ev = (if due_cl then PairRekeyed else PairDelivered (MsgEncryptedData (envelope requestType))) ∧
  ev' = (if due_sv then PairRekeyed else PairDelivered (MsgEncryptedData (envelope replyType))) ∧
  (∀ handler, handler ∈ [Reply; demo_reply] →
     handler send (MsgEncryptedData (envelope requestType)) = ([(envelope replyType, padLength)], send (envelope replyType) padLength)) ∧
  (∀ handler, handler ∈ [client_handler; demo_handler] →
     handler None first (MsgEncryptedData (envelope replyType)) None = (Some None, None)).
Proof.
  intros Hid HC HS Hall Hreq Hpad Hent Hrep Hpad' Hent'.
  destruct (NewSession_sync suite sid k1 k2 nowC nowS cl0 sv0 Hid HC HS) as [HCS HSC].
  injection Hreq as Hreq. change (psMessage request = ByPointer (MsgEncryptedData (envelope requestType))) in Hreq.
  assert (∀ x op, psMessage x = ByPointer (MsgEncryptedData (envelope op)) → psPadLength x = padLength → pair_typed x) as Hty.
  { intros x op Hx Hp. split; [rewrite Hx|rewrite Hp]; by cbn; decide_closed. }
  pose proof (pair_talk_sync xs cl0 sv0 HCS HSC Hall) as Ht. clear HCS HSC HC HS.
  destruct (pair_talk xs cl0 sv0) as [cl sv]. destruct Ht as [HCS HSC]. intros HlC HlS. cbv zeta.
  pose proof (pair_step_effect request cl sv HCS (Hty _ _ Hreq Hpad)) as H1.
  pose proof (pair_step_ready request cl sv HCS (Hty _ _ Hreq Hpad)) as Hev.
  pose proof (pair_step_back request cl sv HSC) as Hback.
  destruct (pair_step request cl sv) as [[cl1 sv1] ev]. destruct H1 as (Hsync & _ & HS1 & _). cbn [snd] in Hev.
  pose proof (pair_step_ready reply sv1 cl1 Hback (Hty _ _ Hrep Hpad')) as Hev'.
  destruct (pair_step reply sv1 cl1) as [[sv2 cl2] ev']. cbn [snd] in Hev'.
  rewrite Hreq, Hpad in Hev. rewrite Hrep, Hpad', HS1 in Hev'. split_and!.
  - apply Hev. apply (envelope_ready cl sv); try done. set_solver.
  - apply Hev'. apply (envelope_ready sv1 cl1); try done; [set_solver|]. unfold counters_left. by rewrite HS1.
  - intros handler [->|[->|[]%not_elem_of_nil]%elem_of_cons]%elem_of_cons; unfold Reply, demo_reply;
      rewrite (reply_with_exact _ _ _ _ Validate_checks) || rewrite (reply_with_exact _ _ _ _ validateEcho_checks);
      by rewrite decide_True.
  - by intros handler [->|[->|[]%not_elem_of_nil]%elem_of_cons]%elem_of_cons.
Qed.

(** C29: Exchange returns nil exactly when the context is live, dial and request write succeed,
    the first message its handler published to the channel is the valid reply and the wait takes
    it, and the close is benign and joined; a dialled connection is closed exactly once, last,
    on every path. *)
Theorem exchange_exact v address key pin :
  let config := echo_client_config key pin in
  match Exchange v address key pin with
  | Some (calls, err) =>
      (err = None ↔ xvCtx v = None ∧ client_ok v address config) ∧
      (xvCtx v = None → xvDial v address config = None →
         ∃ calls', calls = XDial address config :: calls' ++ [XClose] ∧ XClose ∉ calls') ∧
      (xvCtx v ≠ None → calls = []) ∧ (xvDial v address config ≠ None → XClose ∉ calls)
  | None => xvCtx v = None ∧ xvDial v address config = None ∧ xvSend v (envelope requestType) padLength = None ∧ waiting v
  end.
Proof.
  cbv zeta. unfold Exchange. destruct (xvCtx v) as [e|] eqn:Hc.
  { split_and!; try done; [naive_solver|]. intros _. apply not_elem_of_nil. }
  destruct (dial_exchange _ _ _ _) as [[calls err]|] eqn:Hx; [|by apply (dial_exchange_blocks _ _ _ Validate_checks) in Hx].
  apply (dial_exchange_exact _ _ _ Validate_checks) in Hx as [Hn Hcalls]. destruct (xvDial v address _) as [e|].
  - destruct Hcalls as [-> ->]. split_and!; try done; [naive_solver|]. intros _. rewrite not_elem_of_cons.
    split; [done|apply not_elem_of_nil].
  - split_and!; try done. naive_solver.
Qed.

Local Ltac refused := split; [discriminate|intros (? & ? & ? & ? & ? & ? & ? & _); congruence].

(** The demo succeeds exactly when its server's configuration is accepted, its
    client gets the validated reply and the shutdown is clean; the server it
    started is closed and joined on every path, and a connection it dialled is closed. *)
Theorem demo_exchange_exact {N : Noise} v calls err :
  exchange v = Some (calls, err) →
  (err = None ↔ dmCtx v = None ∧ ∃ serverKey clientKey address,
     GenerateStaticKey (dmServerRandom v) = Ok serverKey ∧ GenerateStaticKey (dmClientRandom v) = Ok clientKey ∧
     StaticKey_validate serverKey = Ok tt ∧ dmListen v = inl address ∧
     client_ok (dmExchange v) address (echo_client_config clientKey (StaticKey_Public serverKey)) ∧ shutdown_ok v) ∧
  (DListen ∈ calls → DCloseServer ∈ calls) ∧
  (DServe ∈ calls → ∃ calls', calls = calls' ++ [DCloseServer; DCloseListener; DJoin] ∧
     ∀ address config, DClient (XDial address config) ∈ calls' →
       xvDial (dmExchange v) address config = None → DClient XClose ∈ calls').
Proof.
  unfold exchange. intros H. cbv zeta in H.
  destruct (dmCtx v); [injection H as <- <-; split_and!; [refused|set_solver..]|].
  destruct (GenerateStaticKey (dmServerRandom v)) as [sk|e|]; [|injection H as <- <-; split_and!; [refused|set_solver..]..].
  destruct (GenerateStaticKey (dmClientRandom v)) as [ck|e|]; [|injection H as <- <-; split_and!; [refused|set_solver..]..].
  rewrite demo_server_config_exact in H.
  destruct (StaticKey_validate sk) as [[]|e|] eqn:Hval; [|injection H as <- <-; split_and!; [refused|set_solver..]..].
  cbn [mbind outcome_bind] in H.
  destruct (dmListen v) as [address|e].
  2: { injection H as <- <-. split_and!; [|set_solver..]. split; [|intros (? & ? & ? & ? & ? & ? & ? & ? & _); congruence].
    rewrite errors_Join_nil, Forall_cons. by intros [? _]. }
  apply bind_Some in H as ([calls' err'] & Hc & [= <- <-]). apply (dial_exchange_exact _ _ _ validateEcho_checks) in Hc as [Hn Hcalls].
  rewrite demo_shutdown_nil, Hn. split_and!.
  - split; [intros [? ?]; split; [done|]; exists sk, ck, address; by split_and!|].
    by intros (_ & ? & ? & ? & [= <-] & [= <-] & _ & [= <-] & ?).
  - intros _. cbn [app]. rewrite !elem_of_cons, elem_of_app, elem_of_cons. tauto.
  - intros _. exists ([DGenerate; DGenerate; DNewServer (demo_server_config sk ck); DListen; DServe] ++ (DClient <$> calls')).
    rewrite <- app_assoc. split; [done|].
    intros a c Hin Hd. assert (XDial a c ∈ calls') as Hin'.
    { apply elem_of_app in Hin as [Hin|(x & [= <-] & ?)%list_elem_of_fmap]; [|done].
      rewrite !elem_of_cons in Hin. destruct Hin as [?|[?|[?|[?|[?|Hin]]]]]; try discriminate. by apply not_elem_of_nil in Hin. }
    apply elem_of_app. right. apply list_elem_of_fmap. exists XClose. split; [done|].
    destruct (xvDial (dmExchange v) address _) as [e|] eqn:Hd'.
    + destruct Hcalls as [-> _]. apply list_elem_of_singleton in Hin' as [= -> ->]. congruence.
    + destruct Hcalls as (calls & -> & _). rewrite elem_of_cons, elem_of_app, elem_of_cons. tauto.
Qed.

(** The echo server's Serve closes server and listener as its last two calls on every path, even
    when the context was cancelled before, and returns nil exactly when serving ended with
    ErrServerClosed or a clean cancellation and no close failed with anything but net.ErrClosed.
    *)
Theorem serve_exact v :
  let '(calls, err) := Serve v in
  (∃ calls', calls = calls' ++ [SCloseServer; SCloseListener] ∧ (swCtx v ≠ None → calls' = [])) ∧
  (err = None ↔ swCtx v = None ∧ serve_end_ok (swEnd v) ∧ close_counts_not (swClose v) ∧ close_counts_not (swListener v)).
Proof.
  unfold Serve. pose proof (serve_body_nil v) as Hn.
  assert (swCtx v ≠ None → (serve_body v).1 = []) as Hc by (unfold serve_body; by destruct (swCtx v)).
  destruct (serve_body v) as [calls err]. split; [by exists calls|].
  rewrite !join_close_nil. cbn [snd] in Hn. rewrite Hn. unfold close_counts_not. tauto.
Qed.

(** The client command dials only with a key and a nonzero 32-byte pin loaded from
    the two files, in this order; it succeeds only with the usage text or after a
    successful exchange; help is printed without loading a key; and options given
    in any order are parsed into their values. *)
Theorem client_run_exact {N : Noise} v args :
  let '(calls, err) := client_run v args in
  (∀ address key pin, CmdExchange address key pin ∈ calls →
     ∃ identity pinPath more, calls = CmdOpen identity :: CmdOpen pinPath :: CmdExchange address key pin :: more ∧
       LoadIdentity (cvFile v identity) = inl key ∧ fvData (cvFile v pinPath) = pin ∧ zlen pin = 32 ∧ pin ≠ make_bytes 32) ∧
  (err = None → calls = [CmdPrint client_usage] ∨
     ∃ opens address key pin, calls = opens ++ [CmdExchange address key pin; CmdPrint successOutput] ∧
       cvExchange v address key pin = None) ∧
  ((flag_Parse client_flags args).2 = Some AppHelp → cvCtx v = None → calls = [CmdPrint client_usage]) ∧
  (∀ opts, args = option_arg <$> opts → Forall (λ x, x.1 ∈ client_flags.*1) opts →
     flag_Parse client_flags args = (foldl (λ vs x, set_flag x.1 x.2 vs) client_flags opts, [], None)).
Proof.
  pose proof (client_run_cases v args) as Hc. pose proof (eq_refl (client_run v args)) as Hrun.
  unfold client_run at 1 in Hrun. destruct (client_run v args) as [calls err].
  split_and!; [..|intros opts -> Ho; rewrite <- (app_nil_r (option_arg <$> opts)), flag_Parse_options; [done|apply client_flags_names|done]].
  - intros address key pin Hin.
    destruct Hc as [[-> _]|[[-> _]|[(i & p & _ & _ & _ & [->| ->])|(i & p & a & k & n & more & _ & _ & -> & Hi & Hp & Hl & Hz & Hm)]]];
      [set_solver..|]. exists i, p, more.
    assert (CmdExchange address key pin = CmdExchange a k n) as [= -> -> ->] by (destruct Hm as [(_ & -> & _)|[_ ->]]; set_solver).
    done.
  - intros ->. destruct Hc as [[_ ?]|[[-> _]|[(i & p & _ & _ & ? & _)|(i & p & a & k & n & more & _ & _ & -> & _ & _ & _ & _ & Hm)]]];
      [done|by left|done|right]. destruct Hm as [(_ & _ & ?)|[Hx ->]]; [done|]. by exists [CmdOpen i; CmdOpen p], a, k, n.
  - intros Hh Hx. rewrite Hx in Hrun. destruct (flag_Parse client_flags args) as [[values rest] e]. cbn in Hh. subst e.
    by injection Hrun as <- _.
Qed.

Lemma main_end_ok line err : main_end line err = Exited [] 0 ↔ err = None.
Proof. destruct err as [[]|]; cbn; split; congruence. Qed.

(** What the programs show is fixed: standard output gets the usage, the line of a listening
    server or the line of a validated echo, standard error one line that depends on nothing the
    program read or received, and the exit status tells whether the run succeeded; the echo line
    is printed only after a successful exchange. *)
Theorem programs_discreet {N : Noise} v args dv write :
  let '(calls, fin) := client_main v args in
  let '(calls', fin') := server_main v args in
  (∀ text, CmdPrint text ∈ calls → text = client_usage ∨
     text = successOutput ∧ ∃ address key pin, cvExchange v address key pin = None) ∧
  (fin = Exited [] 0 ∧ (client_run v args).2 = None ∨ fin = Exited client_failure 1 ∨
   fin = Crashed ∧ (client_run v args).2 = Some AppPanic) ∧
  (∀ text, CmdPrint text ∈ calls' → text = server_usage ∨ text = listening) ∧
  (fin' = Exited [] 0 ∧ (server_run v args).2 = None ∨ fin' = Exited server_failure 1 ∨
   fin' = Crashed ∧ (server_run v args).2 = Some AppPanic) ∧
  (∀ out fin'', demo_main dv write = Some (out, fin'') →
     (out = [] ∨ out = [successOutput] ∧ ∃ calls, Echo.exchange dv = Some (calls, None)) ∧
     (fin'' = Exited [] 0 → out = [successOutput] ∧ write = None)).
Proof.
  unfold client_main, server_main, demo_main. pose proof (client_run_cases v args) as Hc. pose proof (server_run_prints v args) as Hs.
  destruct (client_run v args) as [calls err], (server_run v args) as [calls' err']. cbn [fst snd] in *. split_and!.
  - intros text Hin. destruct Hc as [[-> _]|[[-> _]|[(i & p & _ & _ & _ & [->| ->])|(i & p & a & k & n & more & _ & _ & -> & _ & _ & _ & _ & Hm)]]];
      [set_solver..|]. destruct Hm as [(_ & -> & _)|[Hx ->]]; [set_solver|]. right. split; [set_solver|]. by exists a, k, n.
  - destruct err as [[]|]; cbn; auto.
  - done.
  - destruct err' as [[]|]; cbn; auto.
  - intros out fin'' Hd. apply bind_Some in Hd as ([out' e] & Hrun & [= <- <-]). unfold demo_run in Hrun.
    apply bind_Some in Hrun as ([dcalls e'] & Hx & Hrun). destruct e' as [e'|]; injection Hrun as <- <-.
    + split; [by left|]. intros H%main_end_ok. done.
    + split; [right; split; [done|by exists dcalls]|]. by intros H%main_end_ok.
Qed.

(** ** Witnesses *)

(** The runtime hands the handler a ping and then the reply. *)
Definition ex_handler_calls : list HandlerCall :=
  [mkHandlerCall None false (MsgPingPong (mkPingPong false 77)); mkHandlerCall None false (MsgEncryptedData (envelope replyType))].
Definition ex_view : ExchangeView :=
  mkExchangeView None (λ _ _, None) (λ _ _, None) ex_handler_calls [] WaitReceived None false None (Some (AppOf EOF)) None.

Definition ex_static : StaticKey := mkStaticKey zero32 zero32.

Definition ex_exchange_calls : list ExchangeCall :=
  [XDial [] (echo_client_config ex_static []); XStart; XSend (envelope requestType) padLength; XWait; XClose].

Lemma exchange_exact_witness :
  Exchange ex_view [] ex_static [] = Some (ex_exchange_calls, None) ∧ client_ok ex_view [] (echo_client_config ex_static []) ∧
  ∃ calls', ex_exchange_calls = XDial [] (echo_client_config ex_static []) :: calls' ++ [XClose] ∧ XClose ∉ calls'.
Proof.
  assert (Exchange ex_view [] ex_static [] = Some (ex_exchange_calls, None)) as Hx by reflexivity. split; [exact Hx|].
  pose proof (exchange_exact ex_view [] ex_static []) as H. cbv zeta in H. rewrite Hx in H. destruct H as (Hn & Hc & _).
  split; [exact (proj2 (proj1 Hn eq_refl))|exact (Hc eq_refl eq_refl)].
Defined.

Definition ex_echo (op : byte) : PairSend :=
  mkPairSend (at_time 1) (at_time 9) (make_bytes 16) (ByPointer (MsgEncryptedData (envelope op))) padLength.

(** The request arrives, is answered, and the answer is published as success. *)
Lemma echo_over_sessions_witness :
  let '(C1, S1, ev) := pair_step (ex_echo requestType) mac_session ex_peer in
  let '(S2, C2, ev') := pair_step (ex_echo replyType) S1 C1 in
  ev = PairDelivered (MsgEncryptedData (envelope requestType)) ∧ ev' = PairDelivered (MsgEncryptedData (envelope replyType)) ∧
  Reply (λ _ _, None) (MsgEncryptedData (envelope requestType)) = ([(envelope replyType, padLength)], None).
Proof.
  pose proof (@echo_over_sessions mac_aead mac_aead_laws CipherChaCha20Poly1305 ex_session ex_key
    (map to_byte (seqZ 50 32)) 0 0 mac_session ex_peer [] (ex_echo requestType) (ex_echo replyType) (λ _ _, None) true
    eq_refl mac_session_new ex_peer_new (Forall_nil_2 _) eq_refl eq_refl ltac:(discriminate) eq_refl eq_refl ltac:(discriminate)) as H.
  cbn [pair_talk] in H.
  specialize (H ltac:(split; [discriminate|reflexivity]) ltac:(split; [discriminate|reflexivity])). cbv zeta in H.
  destruct (pair_step (ex_echo requestType) mac_session ex_peer) as [[C1 S1] ev].
  destruct (pair_step (ex_echo replyType) S1 C1) as [[S2 C2] ev'].
  destruct H as (-> & -> & H & _). split_and!; [reflexivity|reflexivity|]. apply (H Reply), list_elem_of_here.
Defined.
