(* ===== verification/Interop.v ===== *)
(** * integrationtests/testdata/interop: the driver of the cross-language test

    The command listens on the loopback interface, opens a session over fixed
    secrets and plays four rounds with the one peer that connects: two Error
    messages (the first one as a raw payload with padding), a ping and a close.
    Every round sends a frame, reads one, and compares what it means.

    [interop_run] is the command's run: what the sockets, the clocks and the random
    source answer is its input, the calls with an effect outside the process are
    listed in order.  The theorems show that it passes exactly when the four
    answers mean what they must, that everything it opened is closed on every path,
    and that a session of this library on the other side makes it pass. *)

From S2P Require Import Prelude Wire Header Frame Tlv Utf8 Messages Replay Sha256 Crypto Rekey Session.
From S2P Require Import SessionSend SessionReceive SessionPair Handshake Transport ConnectionIO Config Establish.
From S2P Require Import Connection ConnectionSteps ConnectionSafety ConnectionFlow Duplex DuplexSteps DuplexLink.

Local Open Scope Z_scope.
Local Open Scope sm_scope.
Local Opaque next_key key_confirm.

(** ** Data *)

Inductive InteropError :=
  | InteropOf (e : error)
  | ReportMismatch (value : Message)
  | ControlMismatch (value : Message)
  | CloseMismatch (value : Message)
  | InteropPanic.

Inductive InteropCall := PrintAddr | CloseListener | CloseConn | CloseSession | CancelContext | PrintPass.

(** What one round meets: the clocks of the two session calls, the random source,
    the context at the two transport calls. *)
Record RoundView := mkRoundView {
  rvSend : Clock; rvEntropy : list byte; rvWrite : CtxView; rvRead : CtxView; rvReceive : Clock;
}.

Record InteropView := mkInteropView {
  ivListen : option error; ivDeadline : option error; ivAccept : option error; ivConnDeadline : option error;
  ivNow : Z; ivRound : nat → RoundView;
}.

Definition interop_secrets : HandshakeSecrets :=
  mkHandshakeSecrets (replicate 16 x01) (replicate 32 x02) (replicate 32 x03).

(** "hi" and the Cyrillic word of the second case, in UTF-8. *)
Definition hi : list byte := [x68; x69].
Definition oshibka : list byte := [xd0; x9e; xd1; x88; xd0; xb8; xd0; xb1; xd0; xba; xd0; xb0].
Definition interop_cases : list (Z * list byte) := [(3, hi); (255, oshibka)].

Definition is_report (code : Z) (text : list byte) (value : Message) : bool :=
  match value with
  | MsgErrorMessage report => (emCode report =? code) && bool_decide (emContext report = text)
  | _ => false
  end.
Definition is_pong (value : Message) : bool :=
  match value with MsgPingPong pong => ppIsResponse pong && (ppNonce pong =? 42) | _ => false end.
Definition is_close (value : Message) : bool :=
  match value with
  | MsgSessionClose closeValue => (scCode closeValue =? 3) && bool_decide (scReason closeValue = hi)
  | _ => false
  end.

Section interop.
Context {aead : AEAD}.

(** ** The rounds *)

Definition on_session {A} (m : sm Session A) : sm (Net * Session) A := λ '(n, s),
  let '(s, o) := m s in ((n, s), o).
Definition on_net {A} (m : sm Net A) : sm (Net * Session) A := λ '(n, s),
  let '(n, o) := m n in ((n, s), o).

Definition interop_send : Type := Clock → list byte → sm Session Frame.

Definition send_case (code : Z) (text : list byte) : interop_send := λ clock entropy,
  if code =? 3 then Session_SendPayload clock entropy MessageTypeError [x03; x00; x68; x69] 7
  else Session_Send clock entropy (ByValue (MsgErrorMessage (mkErrorMessage code text))) 0.
Definition send_ping : interop_send := λ clock entropy,
  Session_Send clock entropy (ByValue (MsgPingPong (mkPingPong false 42))) 0.
Definition send_close : interop_send := λ clock entropy,
  Session_Send clock entropy (ByValue (MsgSessionClose (mkSessionClose 3 hi))) 0.

Definition round (v : RoundView) (send : interop_send) : sm (Net * Session) Message :=
  let* frame := on_session (send (rvSend v) (rvEntropy v)) in
  let* _ := on_net (net_WriteFrame (rvWrite v) frame) in
  let* inbound := on_net (net_ReadFrame (rvRead v)) in
  on_session (Session_Receive (rvReceive v) inbound).

Definition checked (v : RoundView) (send : interop_send) (ok : Message → bool) (mismatch : Message → InteropError)
    (next : Net * Session → Net * Session * option InteropError) (st : Net * Session)
    : Net * Session * option InteropError :=
  match round v send st with
  | (st, Ok value) => if ok value then next st else (st, Some (mismatch value))
  | (st, Err e) => (st, Some (InteropOf e))
  | (st, Panic) => (st, Some InteropPanic)
  end.

Fixpoint report_rounds (cases : list (Z * list byte)) (views : nat → RoundView) (i : nat)
    (next : Net * Session → Net * Session * option InteropError) : Net * Session → Net * Session * option InteropError :=
  match cases with
  | [] => next
  | (code, text) :: cases =>
      checked (views i) (send_case code text) (is_report code text) ReportMismatch (report_rounds cases views (S i) next)
  end.

Definition interop_rounds (views : nat → RoundView) : Net * Session → Net * Session * option InteropError :=
  report_rounds interop_cases views 0
    (checked (views 2%nat) send_ping is_pong ControlMismatch
       (checked (views 3%nat) send_close is_close CloseMismatch (λ st, (st, None)))).

(** ** The run: the calls, the connection and the session at the end, the error. *)
Definition interop_run (v : InteropView) (net : Net) : list InteropCall * option (Net * Session) * option InteropError :=
  match ivListen v with Some e => ([], None, Some (InteropOf e)) | None =>
  match ivDeadline v with Some e => ([CloseListener], None, Some (InteropOf e)) | None =>
  match ivAccept v with Some e => ([PrintAddr; CloseListener], None, Some (InteropOf e)) | None =>
  match ivConnDeadline v with Some e => ([PrintAddr; CloseConn; CloseListener], None, Some (InteropOf e)) | None =>
  match NewSession CipherChaCha20Poly1305 interop_secrets (ivNow v) with
  | Err e => ([PrintAddr; CloseConn; CloseListener], None, Some (InteropOf e))
  | Panic => ([PrintAddr; CloseConn; CloseListener], None, Some InteropPanic)
  | Ok session =>
      let '(n, s, err) := interop_rounds (ivRound v) (net, session) in
      (PrintAddr :: match err with None => [PrintPass] | Some _ => [] end ++
         [CancelContext; CloseSession; CloseConn; CloseListener],
       Some (n, (Session_Close s).1), err)
  end end end end end.

(** ** The main function *)

(** The line printed when all answers meant what they must. *)
Definition pass_line : list byte :=
  ascii_bytes "PASS: Go/Rust encrypted Session Error codes 3,255 both directions; raw oracle, padding, Ping/Pong and TLV Close" ++
  ["010"%byte].

(** Standard output, given the line of the listener's address. *)
Definition interop_output (addr : list byte) (calls : list InteropCall) : list (list byte) :=
  omap (λ c, match c with PrintAddr => Some addr | PrintPass => Some pass_line | _ => None end) calls.

(** [interop_main] prints the error of the run, if any, and exits with status 1. *)
Record InteropEnd := mkInteropEnd { ieOutput : list (list byte); iePrinted : option InteropError; ieStatus : Z }.
Definition interop_main (v : InteropView) (addr : list byte) (net : Net) : InteropEnd :=
  let '(calls, _, err) := interop_run v net in
  mkInteropEnd (interop_output addr calls) err (match err with None => 0 | Some InteropPanic => 2 | Some _ => 1 end).

(** ** The peer: a session of this library that answers what it must *)

(** One turn: take the frame, answer it. *)
Record PeerTurn := mkPeerTurn { ptReceive : Clock; ptSend : Clock; ptEntropy : list byte }.

Definition peer_turn (t : PeerTurn) (answer : Message) (f : Frame) : sm Session (Message * Frame) :=
  let* m := Session_Receive (ptReceive t) f in
  let* g := Session_Send (ptSend t) (ptEntropy t) (ByPointer answer) 0 in
  sm_lift (Ok (m, g)).

Fixpoint peer_run (turns : nat → PeerTurn) (i : nat) (answers : list Message) (fs : list Frame)
    : sm Session (list Message * list Frame) :=
  match answers, fs with
  | answer :: answers, f :: fs =>
      let* (m, g) := peer_turn (turns i) answer f in
      let* (ms, gs) := peer_run turns (S i) answers fs in
      sm_lift (Ok (m :: ms, g :: gs))
  | _, _ => sm_lift (Ok ([], []))
  end.

(** What the driver means to say, and what it must hear. *)
Definition interop_says : list Message :=
  [MsgErrorMessage (mkErrorMessage 3 hi); MsgErrorMessage (mkErrorMessage 255 oshibka);
   MsgPingPong (mkPingPong false 42); MsgSessionClose (mkSessionClose 3 hi)].
Definition interop_hears : list Message :=
  [MsgErrorMessage (mkErrorMessage 3 hi); MsgErrorMessage (mkErrorMessage 255 oshibka);
   MsgPingPong (mkPingPong true 42); MsgSessionClose (mkSessionClose 3 hi)].

(** ** The driver's verdict *)

Definition setup_ok (v : InteropView) : Prop :=
  ivListen v = None ∧ ivDeadline v = None ∧ ivAccept v = None ∧ ivConnDeadline v = None.

(** The rounds with nothing compared: the values received. *)
Fixpoint rounds_run (views : nat → RoundView) (i : nat) (sends : list interop_send) : sm (Net * Session) (list Message) :=
  match sends with
  | [] => sm_lift (Ok [])
  | send :: sends =>
      let* m := round (views i) send in
      let* ms := rounds_run views (S i) sends in
      sm_lift (Ok (m :: ms))
  end.

Definition interop_sends : list interop_send := [send_case 3 hi; send_case 255 oshibka; send_ping; send_close].

Lemma is_report_exact code text m : is_report code text m = true ↔ m = MsgErrorMessage (mkErrorMessage code text).
Proof.
  destruct m; try (split; discriminate). cbn. rewrite andb_true_iff, Z.eqb_eq, bool_decide_eq_true.
  destruct m; cbn; naive_solver.
Qed.
Lemma is_pong_exact m : is_pong m = true ↔ m = MsgPingPong (mkPingPong true 42).
Proof.
  destruct m; try (split; discriminate). cbn. rewrite andb_true_iff, Z.eqb_eq. destruct m; cbn; naive_solver.
Qed.
Lemma is_close_exact m : is_close m = true ↔ m = MsgSessionClose (mkSessionClose 3 hi).
Proof.
  destruct m; try (split; discriminate). cbn. rewrite andb_true_iff, Z.eqb_eq, bool_decide_eq_true.
  destruct m; cbn; naive_solver.
Qed.

(** One comparison: the rest passes on the answer [want] and on no other. *)
Lemma checked_exact v send ok mismatch next want st st' (rest : sm (Net * Session) (list Message)) wants :
  (∀ m, ok m = true ↔ m = want) →
  (∀ st, next st = (st', None) ↔ rest st = (st', Ok wants)) →
  checked v send ok mismatch next st = (st', None) ↔
  (let* m := round v send in let* ms := rest in sm_lift (Ok (m :: ms))) st = (st', Ok (want :: wants)).
Proof.
  intros Hok Hnext. unfold checked, sm_bind, sm_lift. destruct (round v send st) as [st1 [m|e|]]; [|split; discriminate..].
  destruct (ok m) eqn:Hm.
  - apply Hok in Hm as ->. rewrite Hnext. destruct (rest st1) as [st2 [ms|e|]]; [|split; discriminate..]. naive_solver.
  - split; [discriminate|]. destruct (rest st1) as [st2 [ms|e|]]; [|discriminate..]. intros [= _ -> _].
    by rewrite (proj2 (Hok want) eq_refl) in Hm.
Qed.

Lemma interop_rounds_exact views st st' :
  interop_rounds views st = (st', None) ↔ rounds_run views 0 interop_sends st = (st', Ok interop_hears).
Proof.
  unfold interop_rounds, interop_sends, interop_hears. cbn [rounds_run report_rounds interop_cases].
  apply checked_exact; [apply is_report_exact|intros ?]. apply checked_exact; [apply is_report_exact|intros ?].
  apply checked_exact; [apply is_pong_exact|intros ?]. apply checked_exact; [apply is_close_exact|intros ?].
  unfold sm_lift. naive_solver.
Qed.

(** The verdict, the PASS line and the closes of a run. *)
Theorem interop_exact v net :
  let '(calls, st, err) := interop_run v net in
  (err = None ↔ setup_ok v ∧ ∃ A st', NewSession CipherChaCha20Poly1305 interop_secrets (ivNow v) = Ok A ∧
     rounds_run (ivRound v) 0 interop_sends (net, A) = (st', Ok interop_hears)) ∧
  (PrintPass ∈ calls ↔ err = None) ∧
  (ivListen v = None → ∃ calls', calls = calls' ++ [CloseListener] ∧ CloseListener ∉ calls') ∧
  (∀ n s, st = Some (n, s) → sessClosed s = true ∧ CloseSession ∈ calls ∧ CloseConn ∈ calls).
Proof.
  unfold interop_run, setup_ok.
  destruct (ivListen v); [split_and!; [split; [done|naive_solver]|split; [inversion 1|done]|done..]|].
  destruct (ivDeadline v);
    [split_and!; [split; [done|naive_solver]|split; [set_solver|done]|by exists []; split; [|set_solver]|done]|].
  destruct (ivAccept v);
    [split_and!; [split; [done|naive_solver]|split; [set_solver|done]|by exists [PrintAddr]; split; [|set_solver]|done]|].
  destruct (ivConnDeadline v);
    [split_and!; [split; [done|naive_solver]|split; [set_solver|done]|by exists [PrintAddr; CloseConn]; split; [|set_solver]|done]|].
  destruct (NewSession _ _ _) as [A|e|];
    [|split_and!; [split; [done|naive_solver]|split; [set_solver|done]|by exists [PrintAddr; CloseConn]; split; [|set_solver]|done]..].
  pose proof (interop_rounds_exact (ivRound v) (net, A)) as Hx.
  destruct (interop_rounds _ _) as [[n s] err]. split_and!.
  - split; [intros ->; split; [done|]; exists A, (n, s); split; [done|by apply Hx]|].
    intros (_ & A' & st' & [= <-] & Hr). apply Hx in Hr. congruence.
  - destruct err; [split; [set_solver|done]|split; [done|set_solver]].
  - intros _. eexists (PrintAddr :: _ ++ [CancelContext; CloseSession; CloseConn]). cbn. rewrite <- app_assoc.
    split; [done|]. destruct err; set_solver.
  - intros n' s' [= <- <-]. split; [done|]. destruct err; set_solver.
Qed.

(** ** Against a session of this library *)

Context {laws : AEADLaws}.

(** A session in its first epoch that sent [k] frames. *)
Definition young (k now : Z) (s : Session) : Prop :=
  can_send s ∧ sNextSequence (sessSend s) = 1 + k ∧ sSentInEpoch (sessSend s) = k ∧ sSendEpoch (sessSend s) = 1 ∧
  sEpochStarted (sessSend s) = now ∧ sRekeyFrameLimit (sessSend s) = DefaultRekeyFrameLimit ∧
  sRekeyInterval (sessSend s) = DefaultRekeyInterval.

Lemma young_half k now s s' :
  send_half s' = send_half s → sessClosed s' = sessClosed s → young k now s → young k now s'.
Proof. intros Hh Hc Hy. destruct s, s'. injection Hh as -> -> ->. cbn in Hc. subst. exact Hy. Qed.

Lemma young_advance k now s : 0 ≤ k < 100 → young k now s → young (k + 1) now (with_send advance s).
Proof.
  intros Hk ([Hc Hp] & Hn & Hs & Hrest). split; [done|]. cbn. rewrite Hn, Hs.
  rewrite (proj2 (Z.eqb_neq _ _)) by lia. rewrite wrap_small by (unfold uint; lia). split; [lia|]. by split.
Qed.

Lemma young_not_due k now clock s :
  0 ≤ k < 100 → young k now s → clock ClockRekeyDue < now + DefaultRekeyInterval →
  rekeyDueLocked clock (sessSend s) = false.
Proof.
  intros Hk (_ & _ & Hs & _ & Hn & Hl & Hi) Hc. unfold rekeyDueLocked. rewrite Hs, Hn, Hl, Hi.
  rewrite (proj2 (Z.ltb_lt _ _) Hc), andb_false_r, orb_false_r.
  by rewrite (proj2 (Z.leb_gt DefaultRekeyFrameLimit k)), andb_false_r by (unfold DefaultRekeyFrameLimit; lia).
Qed.

(** A message that is sent as it is. *)
Definition plain (m : AnyMessage) (padLength : Z) : Prop :=
  AnyMessage_typed m ∧ uint 8 padLength ∧
  ∃ t m' p, outboundMessage m = Ok (t, m') ∧ Message_MarshalBinary m' = Ok p ∧ frame_fits p padLength.

(** Its Send succeeds, and its frame brings the peer the message. *)
Lemma young_send clock entropy message padLength k now s :
  send_ok s → 0 ≤ k < 100 → young k now s → clock ClockRekeyDue < now + DefaultRekeyInterval →
  plain message padLength → padLength ≤ zlen entropy →
  ∃ f m, Session_Send clock entropy message padLength s = (with_send advance s, Ok f) ∧ frame_encodable f ∧
    message_of message = Some m ∧ young (k + 1) now (with_send advance s) ∧
    ∀ B clock, in_sync s B → ∃ B', Session_Receive clock f B = (B', Ok m) ∧ in_sync (with_send advance s) B'.
Proof.
  intros Hok Hk Hy Hc (Hty & Hpad & Hplain) He. pose proof (young_not_due k now clock s Hk Hy Hc) as Hd.
  destruct (send_progress clock entropy message padLength s Hok Hty Hpad) as (s' & f & Hs).
  { destruct Hy as (Hcan & Hn & _ & Hep & _). split; [done|]. rewrite Hn, Hep. split; [lia|]. by split; [|split]. }
  pose proof (send_emits clock entropy message padLength s Hok Hty Hpad) as Hem. rewrite Hs, Hd in Hem.
  destruct Hem as (_ & Hem & t & m0 & p & Hout & _ & Ht & Hf).
  assert (is_rekey f = false) as Hr by (rewrite Hf, sealed_next_rekey; by apply Z.eqb_neq).
  assert (s' = with_send advance s) as ->.
  { destruct Hem as [|pad q _ _ Hpo _]; [done|]. by rewrite (po_frame _ _ Hpo) in Hr. }
  destruct (Send_carries clock entropy (mkQueuedMessage message padLength None) s _ f Hok (conj Hty Hpad) Hs)
    as (_ & Henc & Hcar). rewrite Hr in Hcar. destruct Hcar as (m & Hm & Hcar).
  exists f, m. split; [done|]. split; [done|]. split; [done|]. split; [by apply young_advance|].
  intros B c HB. destruct (Hcar B c HB) as (B' & m' & HB' & Hrec & Hsync). exists B'. split; [|done].
  rewrite HB'. do 2 f_equal. unfold received in Hrec. rewrite filter_cons in Hrec. case_decide; naive_solver.
Qed.

(** A round as the two sides see it: the driver's call, what it says, what the
    peer answers. *)
Record Talk := mkTalk { tkSend : interop_send; tkSay : Message; tkPad : Z; tkAnswer : Message }.

Definition talk_ok (t : Talk) : Prop :=
  (∀ clock entropy s, tkSend t clock entropy s = Session_Send clock entropy (ByValue (tkSay t)) (tkPad t) s) ∧
  plain (ByValue (tkSay t)) (tkPad t) ∧ plain (ByPointer (tkAnswer t)) 0.

(** The contexts are live and no clock reaches the rekey interval. *)
Definition calm (nowA nowP : Z) (v : RoundView) (t : PeerTurn) : Prop :=
  lane_open (rvWrite v) ∧ lane_open (rvRead v) ∧
  rvSend v ClockRekeyDue < nowA + DefaultRekeyInterval ∧ ptSend t ClockRekeyDue < nowP + DefaultRekeyInterval.

(** One round between two young sessions that are in step. *)
Lemma talk_round v pt t k nowA nowP A P :
  in_sync A P → in_sync P A → young k nowA A → young k nowP P → 0 ≤ k < 100 →
  calm nowA nowP v pt → talk_ok t → tkPad t ≤ zlen (rvEntropy v) →
  ∃ f g A' P', peer_turn pt (tkAnswer t) f P = (P', Ok (tkSay t, g)) ∧
    in_sync A' P' ∧ in_sync P' A' ∧ young (k + 1) nowA A' ∧ young (k + 1) nowP P' ∧
    ∀ net counts more rest, wrCounts (netWrite net) = counts ++ more → chunking counts (zlen (frame_layout f)) →
      stream_of (netRead net) = frame_layout g ++ rest →
      ∃ r w, round v (tkSend t) (net, A) = ((mkNet r w (netSent net ++ frame_layout f), A'), Ok (tkAnswer t)) ∧
        stream_of r = rest ∧ wrCounts w = more.
Proof.
  intros HAP HPA HyA HyP Hk (Hlw & Hlr & HcA & HcP) (Hsend & HpA & HpP) Hent.
  destruct (young_send (rvSend v) (rvEntropy v) _ _ k nowA A (sync_send A P HAP) Hk HyA HcA HpA Hent)
    as (f & m & HsA & HeA & [= <-] & HyA' & HrA).
  destruct (HrA P (ptReceive pt) HAP) as (P1 & HrP & HAP1). destruct (Receive_sender_half _ _ _ _ _ HrP) as [Hh1 Hc1].
  destruct (Send_receiver_half _ _ _ _ _ _ _ HsA) as [HhA HclA].
  assert (in_sync P1 (with_send advance A)) as HPA1 by (eapply in_sync_sender; [done|by eapply in_sync_receiver]).
  assert (young k nowP P1) as HyP1 by by eapply young_half.
  destruct (young_send (ptSend pt) (ptEntropy pt) _ _ k nowP P1 (sync_send _ _ HPA1) Hk HyP1 HcP HpP (zlen_nonneg _))
    as (g & m & HsP & HeP & [= <-] & HyP' & HrP').
  destruct (HrP' (with_send advance A) (rvReceive v) HPA1) as (A2 & HrA2 & HPA2).
  destruct (Receive_sender_half _ _ _ _ _ HrA2) as [Hh2 Hc2]. destruct (Send_receiver_half _ _ _ _ _ _ _ HsP) as [HhP HclP].
  exists f, g, A2, (with_send advance P1). split_and!; [| |done|by eapply young_half|done|].
  - unfold peer_turn, sm_bind. by rewrite HrP, HsP.
  - eapply in_sync_sender; [done|by eapply in_sync_receiver].
  - intros net counts more rest Hw Hc Hst.
    destruct (net_write (rvWrite v) f net counts more Hlw HeA Hw Hc) as (w & Hwr & Hmore).
    destruct (net_read (rvRead v) g (mkNet (netRead net) w (netSent net ++ frame_layout f)) rest Hlr
      (frame_encodable_decodable g HeP) Hst) as (r & Hrd & Hrest).
    exists r, w. split; [|done]. unfold round, on_session, on_net, sm_bind. by rewrite Hsend, HsA, Hwr, Hrd, HrA2.
Qed.

(** Any number of them. *)
Lemma talk_run views turns nowA nowP ts : ∀ i k A P,
  in_sync A P → in_sync P A → young k nowA A → young k nowP P → 0 ≤ k → k + zlen ts < 100 →
  (∀ j, calm nowA nowP (views j) (turns j)) → Forall talk_ok ts →
  (∀ j t, ts !! j = Some t → tkPad t ≤ zlen (rvEntropy (views (i + j)%nat))) →
  ∃ fs gs P', length fs = length ts ∧
    peer_run turns i (tkAnswer <$> ts) fs P = (P', Ok (tkSay <$> ts, gs)) ∧
    ∀ net counts more rest, wrCounts (netWrite net) = concat counts ++ more →
      Forall2 (λ f c, chunking c (zlen (frame_layout f))) fs counts →
      stream_of (netRead net) = concat (frame_layout <$> gs) ++ rest →
      ∃ r w A', rounds_run views i (tkSend <$> ts) (net, A) =
        ((mkNet r w (netSent net ++ concat (frame_layout <$> fs)), A'), Ok (tkAnswer <$> ts)) ∧
        stream_of r = rest ∧ wrCounts w = more.
Proof.
  induction ts as [|t ts IH]; intros i k A P HAP HPA HyA HyP Hk Hlen Hcalm Hts Hent.
  { exists [], [], P. split; [done|]. split; [done|]. intros net counts more rest Hw Hc%Forall2_nil_inv_l Hst. subst counts.
    exists (netRead net), (netWrite net), A. cbn. rewrite app_nil_r. by destruct net. }
  apply Forall_cons in Hts as [Ht Hts]. rewrite zlen_cons in Hlen. pose proof (zlen_nonneg ts).
  assert (tkPad t ≤ zlen (rvEntropy (views i))) as Hpad by (rewrite <- (Nat.add_0_r i); by apply (Hent 0%nat)).
  destruct (talk_round (views i) (turns i) t k nowA nowP A P HAP HPA HyA HyP ltac:(lia) (Hcalm i) Ht Hpad)
    as (f & g & A1 & P1 & Hturn & HAP1 & HPA1 & HyA1 & HyP1 & Hround).
  destruct (IH (S i) (k + 1) A1 P1) as (fs & gs & P' & Hfs & Hpeer & Hruns); [done..|lia|lia|done|done| |].
  { intros j t' Hj. rewrite Nat.add_succ_comm. by apply (Hent (S j)). }
  exists (f :: fs), (g :: gs), P'. split; [cbn; lia|]. split.
  { cbn. unfold sm_bind at 1. rewrite Hturn. unfold sm_bind. by rewrite Hpeer. }
  intros net counts more rest Hw (c & cs & Hc & Hcs & ->)%Forall2_cons_inv_l Hst.
  cbn [concat fmap list_fmap] in Hw, Hst. rewrite <- app_assoc in Hw, Hst.
  destruct (Hround net c _ _ Hw Hc Hst) as (r1 & w1 & Hr1 & Hst1 & Hw1).
  destruct (Hruns (mkNet r1 w1 (netSent net ++ frame_layout f)) cs more rest Hw1 Hcs Hst1)
    as (r & w & A' & Hr & Hst' & Hw').
  exists r, w, A'. split; [|done]. cbn [fmap list_fmap rounds_run concat]. unfold sm_bind at 1. rewrite Hr1. unfold sm_bind.
  rewrite Hr. cbn [netSent]. by rewrite <- app_assoc.
Qed.

(** The raw payload of the first round is the encoding of its message. *)
Lemma send_case_raw clock entropy s :
  send_case 3 hi clock entropy s = Session_Send clock entropy (ByValue (MsgErrorMessage (mkErrorMessage 3 hi))) 7 s.
Proof. reflexivity. Qed.

Definition interop_talks : list Talk :=
  [mkTalk (send_case 3 hi) (MsgErrorMessage (mkErrorMessage 3 hi)) 7 (MsgErrorMessage (mkErrorMessage 3 hi));
   mkTalk (send_case 255 oshibka) (MsgErrorMessage (mkErrorMessage 255 oshibka)) 0 (MsgErrorMessage (mkErrorMessage 255 oshibka));
   mkTalk send_ping (MsgPingPong (mkPingPong false 42)) 0 (MsgPingPong (mkPingPong true 42));
   mkTalk send_close (MsgSessionClose (mkSessionClose 3 hi)) 0 (MsgSessionClose (mkSessionClose 3 hi))].

Ltac plain_closed :=
  split; [cbn; decide_closed|split; [decide_closed|eexists _, _, _; split; [reflexivity|split; [vm_compute; reflexivity|decide_closed]]]].

Lemma interop_talks_ok : Forall talk_ok interop_talks.
Proof.
  repeat (apply Forall_cons; split); try apply Forall_nil_2;
    (split; [first [exact send_case_raw|done]|split; plain_closed]).
Qed.

Lemma NewSession_young suite secrets now s :
  zlen (hsSessionID secrets) = 16 → NewSession suite secrets now = Ok s → young 0 now s.
Proof.
  intros Hid Hn. apply NewSession_inv in Hn as (_ & _ & _ & _ & Hc & cs & cr & _ & _ & Hs & _); [|done].
  unfold young, can_send. by rewrite Hs.
Qed.

Lemma interop_session now : ∃ A, NewSession CipherChaCha20Poly1305 interop_secrets now = Ok A.
Proof.
  destruct (NewCodec_Ok (hsSendKey interop_secrets)) as [cs Hcs]; [done|].
  destruct (NewCodec_Ok (hsReceiveKey interop_secrets)) as [cr Hcr]; [done|].
  unfold NewSession. rewrite Z.eqb_refl, Hcs, Hcr. by eexists.
Qed.
End interop.

(** ** Properties *)

(** C27: With live contexts and no rekey due, the interop driver passes against a session of
    this library that answers: over any partial writes and segmentation the two sides exchange
    exactly the four messages each way, the raw payload being the typed one's encoding; all is
    closed; main prints PASS. *)
Theorem interop_passes {aead : AEAD} {laws : AEADLaws} v nowP P turns :
  setup_ok v →
  NewSession CipherChaCha20Poly1305
    (mkHandshakeSecrets (hsSessionID interop_secrets) (hsReceiveKey interop_secrets) (hsSendKey interop_secrets)) nowP = Ok P →
  (∀ i, calm (ivNow v) nowP (ivRound v i) (turns i)) → 7 ≤ zlen (rvEntropy (ivRound v 0)) →
  ∃ fs gs P', length fs = 4%nat ∧ peer_run turns 0 interop_hears fs P = (P', Ok (interop_says, gs)) ∧
    ∀ net counts more rest, wrCounts (netWrite net) = concat counts ++ more →
      Forall2 (λ f c, chunking c (zlen (frame_layout f))) fs counts →
      stream_of (netRead net) = concat (frame_layout <$> gs) ++ rest →
      ∃ net' s, interop_run v net =
        ([PrintAddr; PrintPass; CancelContext; CloseSession; CloseConn; CloseListener], Some (net', s), None) ∧
        (∀ addr, interop_main v addr net = mkInteropEnd [addr; pass_line] None 0) ∧ sessClosed s = true ∧
        netSent net' = netSent net ++ concat (frame_layout <$> fs) ∧ stream_of (netRead net') = rest.
Proof.
  intros (H1 & H2 & H3 & H4) HP Hcalm Hent.
  destruct (interop_session (ivNow v)) as [A HA].
  destruct (NewSession_sync CipherChaCha20Poly1305 (replicate 16 x01) (replicate 32 x02) (replicate 32 x03) (ivNow v) nowP A P
    eq_refl HA HP) as [HAP HPA].
  destruct (talk_run (ivRound v) turns (ivNow v) nowP interop_talks 0 0 A P HAP HPA) as (fs & gs & P' & Hfs & Hpeer & Hrun);
    [by refine (NewSession_young _ _ _ _ _ HA)|by refine (NewSession_young _ _ _ _ _ HP)|done|done|done|apply interop_talks_ok| |].
  { intros [|[|[|[|j]]]] t; cbn; try discriminate; intros [= <-]; [exact Hent|apply zlen_nonneg..]. }
  exists fs, gs, P'. split; [done|]. split; [done|]. intros net counts more rest Hw Hc Hst.
  destruct (Hrun net counts more rest Hw Hc Hst) as (r & w & A' & Hr & Hrest & _).
  exists (mkNet r w (netSent net ++ concat (frame_layout <$> fs))), (Session_Close A').1.
  assert (interop_run v net = ([PrintAddr; PrintPass; CancelContext; CloseSession; CloseConn; CloseListener],
    Some (mkNet r w (netSent net ++ concat (frame_layout <$> fs)), (Session_Close A').1), None)) as Hx.
  { unfold interop_run. rewrite H1, H2, H3, H4, HA. by rewrite (proj2 (interop_rounds_exact _ _ _) Hr). }
  split; [exact Hx|]. split; [|done]. intros addr. unfold interop_main. by rewrite Hx.
Qed.

(** ** Witness *)

Definition ex_driver : InteropView :=
  mkInteropView None None None None 0 (λ _, mkRoundView (at_time 1) (make_bytes 8) ctxLive ctxLive (at_time 2)).
Definition ex_turns : nat → PeerTurn := λ _, mkPeerTurn (at_time 1) (at_time 3) [].
Definition ex_driver_peer : @Session mac_aead :=
  @mkSession mac_aead (replicate 16 x01) 1 false
    (@mkSendState mac_aead (@mkCodec mac_aead (replicate 32 x03)) (replicate 32 x03) 1 1 0 5 DefaultRekeyFrameLimit
       DefaultRekeyInterval None)
    (@mkReceiveState mac_aead (@mkCodec mac_aead (replicate 32 x02)) (replicate 32 x02) 1
       zeroReplayWindow None zeroReplayWindow 0 zeroTime DefaultRekeyGraceFrames DefaultRekeyGracePeriod).

(** The driver and a peer that answers pass over a stream that moves octet by octet. *)
Lemma interop_passes_witness :
  ∃ net net' s, netSent net = [] ∧ stream_of (netRead net') = [] ∧ @interop_run mac_aead ex_driver net =
    ([PrintAddr; PrintPass; CancelContext; CloseSession; CloseConn; CloseListener], Some (net', s), None).
Proof.
  destruct (@interop_passes mac_aead mac_aead_laws ex_driver 5 ex_driver_peer ex_turns) as (fs & gs & P' & Hl & Hp & H).
  - repeat split.
  - reflexivity.
  - intros i. repeat split.
  - vm_compute. discriminate.
  - destruct (H (mkNet (mkReadSide (frame_layout <$> gs) (NetError EOF))
      (mkWriteSide (concat ((λ f, replicate (length (frame_layout f)) 1) <$> fs)) 0 NetErrClosed) [])
      ((λ f, replicate (length (frame_layout f)) 1) <$> fs) [] []) as (net' & s & Hrun & _ & _ & _ & Hr).
    + symmetry. apply app_nil_r.
    + apply Forall2_fmap_r, Forall_Forall2_diag, Forall_true. intros f. split.
      * apply Forall_replicate. lia.
      * unfold zlen. induction (length (frame_layout f)) as [|n IH]; [reflexivity|cbn [replicate foldr]; rewrite IH; lia].
    + symmetry. apply app_nil_r.
    + eexists _, net', s. split; [|split; [exact Hr|exact Hrun]]. reflexivity.
Defined.
